(* ===== verification/_CoqProject ===== *)
-Q . S2P
Prelude.v
Float64.v
Effects.v
BondTypes.v
CashuTypes.v
Config.v
BondMath.v
Model.v
Messages.v
Lightning.v
Demo.v
LightningSpec.v
BondDb.v
BondRelease.v
BondSlash.v
Sequential.v
SlashSpec.v
OrderDb.v
BondLock.v
LockSpec.v
Users.v
NewOrder.v
Take.v
Gate.v
Disputes.v
BondPayout.v
OrderPayout.v
TradeFlow.v
Release.v
CancelOrder.v
AdminOrder.v
Ratings.v
TradeJobs.v
Sessions.v
Cashu.v
CashuEscrow.v
CashuDemo.v
Lnurl.v
Validation.v
EventLoop.v
RateLimiter.v
Rpc.v
DevFee.v
PayoutSpec.v
BondInv.v
Triples.v
BondHandlers.v
TradeHandlers.v
TradeTriples.v
BondScheduler.v
BondSafety.v
Authority.v
Custody.v
RangeSpec.v
Findings.v
TradeFindings.v
Nip33.v
Nip33Spec.v
Orderbook.v
OrderbookSpec.v
Tasks.v
PayoutPact.v
PayoutTasks.v
OrderPayoutSpec.v
DevFeeSpec.v
Walk.v
LnurlSpec.v
CashuSpec.v
CashuPact.v
CashuLoop.v
CashuFindings.v
Price.v
PriceManager.v
PriceMath.v
PriceTick.v
PriceFallback.v
PriceSpec.v
PriceQuote.v
GateSpec.v
TradeIndex.v
