(* ===== verification/Prelude.v ===== *)
(** * Verification of the Mostro daemon

    Mostro is a Nostr daemon that brokers peer-to-peer trades of bitcoin
    against fiat over Lightning hold invoices.  This library models the daemon
    from the event a relay delivers to the money it moves: the gate its
    messages pass, the handlers of an order's whole life, disputes and
    ratings, the operator's calls, the jobs that enforce deadlines, the
    anti-abuse bonds, the payout of a settled order to its buyer, the
    development fee, the ecash escrow of a node that runs without Lightning,
    the resolver of Lightning addresses, the publication of order revisions
    and the exchange rates.  Paths below are relative to the repository.

    ** The program

    A maker publishes an order, a taker takes it; either may have to lock a
    bond, a hold invoice of which the daemon knows the preimage.  The seller
    pays another hold invoice, the escrow; the buyer sends fiat; the seller
    releases the escrow, or both cancel, or a solver decides.  The parts:

    - the event loop ([src/app.rs], [src/spam_gate.rs]): a Nostr event passes
      the proof-of-work and freshness gate, its signature is checked, it is
      unwrapped, its trade index is compared with the user's last one, and the
      message goes to the handler of its action;
    - orders ([src/app/order.rs], [take_sell.rs], [take_buy.rs]): validation,
      pricing, insertion and the hand-over to the bond or invoice flow;
    - a running trade ([src/flow.rs], [src/app/fiat_sent.rs],
      [add_invoice.rs], [release.rs], [cancel.rs]): the escrow is held, fiat is
      reported, the escrow is settled and the remainder of a range order
      offered again, or the trade is cancelled by one side or by both;
    - disputes ([src/app/dispute.rs], the four [admin_*.rs]): a party opens
      one, a solver takes it and pays the buyer or refunds the seller;
    - the operator ([src/rpc/service.rs], [src/rpc/rate_limiter.rs]): gRPC
      calls that act as a solver in the name of the node, and a limit on
      guesses of a password;
    - deadlines ([src/scheduler.rs]): trades whose waiting time is over return
      to the book or end, escrows near their expiry height are returned or
      disputed, old offers expire;
    - users ([rate_user.rs], [orders.rs], [restore_session.rs],
      [last_trade_index.rs], [trade_pubkey.rs]): ratings, sessions, keys;
    - requests and locks ([src/app/bond/flow.rs]): a bond row is created as
      [Requested], a subscriber task waits for LND to report the invoice
      accepted or cancelled, the first taker to lock wins the order and the
      others are released;
    - release ([flow.rs]): the hold invoice is cancelled and the row becomes
      [Released];
    - slashing ([src/app/bond/slash.rs]): on a solver's decision or a
      waiting-state timeout the hold invoice is settled and the row becomes
      [PendingPayout]; on a range order a slice of the maker bond is recorded
      as a child row, and the parent is settled when the range closes;
    - payout ([src/app/bond/payout.rs]): a scheduler job asks the
      counterparty for an invoice, pays it, retries, or forfeits the debt
      once the claim window has passed; a message handler stores the invoice;
    - order payout ([src/app/release.rs], [src/app/add_invoice.rs],
      [src/db.rs], [src/scheduler.rs]): the buyer's invoice is paid by a task
      that first claims the order in the database, keeps the claim fresh while
      it waits, and leaves it to a reconciler when LND's verdict is missing;
    - development fee ([src/app/dev_fee.rs]): a job claims a completed order
      with a marker, records the hash of a fresh invoice in its place, pays it,
      and after a crash asks LND about recorded hashes before it pays again;
    - ecash escrow ([src/cashu/mod.rs], [src/app/add_cashu_escrow.rs],
      [src/escrow.rs]): on a node in Cashu mode the seller funds a trade with
      a token that two of buyer, seller and daemon can spend; it is checked,
      with the help of its mint, and stored with the new status of the order;
    - Lightning addresses ([src/lnurl.rs]): an address becomes an invoice by
      two requests to a server somebody else named;
    - settings ([src/config/util.rs]): the checks that refuse to start a node;
    - public events ([src/nip33.rs]): the tags under which orders, disputes,
      development fees and the node itself are announced;
    - order publication ([src/util.rs], [src/scheduler.rs]): each revision is
      stamped later than the one before, failures are queued and republished;
    - exchange rates ([src/price]): providers are polled, their quotes
      combined per currency, stored, served and republished;
    - the LND connector and the invoice checks ([src/lightning]);
    - the compare-and-swap writes of the [orders] table ([src/db.rs]) and the
      continuations of a take or a publication ([src/util.rs]).

    The handlers share the tables [orders], [bonds], [users] and [disputes],
    run as concurrent async tasks, and coordinate only through guarded SQL
    statements.  The
    publication registry and the price store are in memory, behind locks.

    ** The library

    - [Prelude]: automation, record update, results, integer and list lemmas.
    - [Float64]: Rust's [f64] with its rounding, from rationals.
    - [Effects]: an [async fn] as a tree of atomic interactions; how it runs
      alone ([run]), how tasks interleave ([sys_step]), and a rely/guarantee
      logic ([wp]) with its soundness theorem [sys_safe].
    - [BondTypes] ([types.rs], [model.rs]), [Config] ([src/config]),
      [BondMath] ([math.rs] and the fees of [src/util.rs]): data and amounts.
    - [Model]: the tables, the requests to the outside ([ext]) and the class
      [Lib] of third-party functions.
    - [Messages]: Nostr events, the class [Core] of the message and order
      functions of the protocol library, the replies to a user.
    - [Lightning], [LightningSpec]: [src/lightning/mod.rs], [invoice.rs].
    - [BondDb] ([crud.rs], [db.rs]), [BondRelease] and [BondLock]
      ([flow.rs]), [BondSlash] ([slash.rs]), [OrderDb] ([src/db.rs],
      [src/util.rs]), [BondPayout] ([payout.rs]): one definition per function,
      under the function's name.  Each guarded [UPDATE], [INSERT] or
      transaction is a definition of its own, named [..._stmt] or [..._tx].
    - [Users] (the [users] statements of [src/db.rs]), [NewOrder]
      ([src/app/order.rs] and its helpers of [src/util.rs]), [Take]
      ([src/app/take_sell.rs], [take_buy.rs] and theirs), [Gate]
      ([src/spam_gate.rs], [src/app.rs]): from an event to a pending trade.
      [GateSpec]: histories of arriving events.  [TradeIndex]: the trade
      counter of a user, with a logic of SQL-only programs.
    - [TradeFlow] ([src/flow.rs], [fiat_sent.rs], [add_invoice.rs]), [Release]
      ([release.rs] up to the payout), [CancelOrder] ([cancel.rs]),
      [Disputes] ([dispute.rs], [admin_take_dispute.rs],
      [admin_add_solver.rs]), [AdminOrder] ([admin_settle.rs],
      [admin_cancel.rs]), [Ratings] ([rate_user.rs]), [TradeJobs] (the
      deadline jobs of [src/scheduler.rs]), [Sessions] ([orders.rs],
      [restore_session.rs], [last_trade_index.rs], [trade_pubkey.rs]): the
      life of a trade, one definition per function.  [EventLoop]: the
      dispatchers of [src/app.rs] over all handlers, and a turn of the loop.
      [Rpc] ([src/rpc/service.rs]): the calls of the operator, and a turn.
      [RateLimiter] ([src/rpc/rate_limiter.rs]): the table of clients, with
      the theorem about it.
    - [Authority]: who may settle or return a hold invoice, and a logic
      ([gp]) of programs that only act with authority.  [Custody]: every task
      of the daemon is one, so the system is.  [RangeSpec]: what a range sells
      and what a rating counts.
    - [Sequential], [SlashSpec], [LockSpec], [PayoutSpec]: what each handler
      does when it runs alone.
    - [BondInv], [Triples], [BondHandlers], [TradeHandlers], [TradeTriples],
      [BondScheduler], [BondSafety]: the shared invariant, a triple for every
      handler and job of the daemon (a turn of the event loop included), the
      payout job, and the theorems about every interleaving.
    - [Nip33] ([src/nip33.rs] and the reputation lookups of [src/util.rs]): the
      events the daemon signs.  [Nip33Spec]: a client that reads them.
    - [Orderbook], [OrderbookSpec]: the stamp registry, the queue of failed
      publications and its reconciler.
    - [OrderPayout]: the payout of an order, one definition per function.
      [Tasks]: interleavings in which an interaction remembers its task, with
      a logic ([twp]) for claims that belong to one.  [PayoutPact]: evidence,
      assumptions and the steps a task may take on a claim.  [PayoutTasks]:
      every function keeps to them.  [OrderPayoutSpec]: the theorems.
    - [DevFee] ([src/app/dev_fee.rs]): the job, one definition per function
      and per statement.  [DevFeeSpec]: its steps, its invariant and the
      theorem.
    - [CashuTypes], [Cashu] ([src/cashu/mod.rs]), [CashuEscrow]
      ([src/app/add_cashu_escrow.rs], [src/escrow.rs] and the statements of
      [src/db.rs]): the ecash escrow.  [CashuSpec]: who can spend an accepted
      token.  [CashuPact]: what the tasks of a Cashu node keep about their
      rows.  [CashuLoop]: every handler of its event loop keeps it, and the
      theorem.  [CashuDemo]: a concrete cdk.
    - [Lnurl] ([src/lnurl.rs]): the resolver, with its own kind of request.
      [LnurlSpec]: its address policy and its requests.  [Validation]
      ([src/config/util.rs]).
    - [Walk]: programs all of whose statements and requests satisfy a
      predicate.
    - [Price] ([provider.rs], [aggregate.rs], [fiat.rs], [config.rs],
      [store.rs]) and [PriceManager] ([manager.rs], the adapters under
      [providers], [get_market_quote]).  [PriceMath]: combining the rates of
      one currency, with its rounding.  [PriceTick]: a map-free reference of
      one tick.  [PriceFallback]: what the relayed rates may influence.
      [PriceSpec], [PriceQuote]: the theorems.
    - [Demo]: a concrete instance of [Lib], in which the witnesses run.
    - [Findings], [TradeFindings], [CashuFindings]: runs of the code that differ from the
      comments beside it.

    A Rust [Result] is [result T E]; [let x = p?; q] is [x <-? p ;; q]; an [i64]
    is a [Z] with the saturating or checked operation the source uses; a
    [BLOB] or hash is a list of byte values; a [TEXT] column is a string, as
    stored.  Logging is not represented.

    ** What the theorems show

    - Custody, every interleaving and any answers (C1, C2, [Custody]): the
      daemon settles an escrow only for its seller or for the assigned solver
      (by message or through the operator), in the right status, and returns it
      only for both parties, the solver, a trade that is not yet active, or a
      deadline that the clock or the height of the chain has reached.
    - Bonds, every interleaving (C3 to C9, [BondSafety]): any number of
      turns of the event loop, handlers, jobs and subscribers with arbitrary
      arguments, one payout job, SQL failures at any statement, crashes at any
      await point, any answer of LND that [BondInv.lawful] permits.  No debt is
      paid twice; [Slashed] means paid; the state of a row agrees with its
      hold invoice; rows follow the documented life cycle; one locked taker
      bond per order, one slash per slice; every debt can be computed.
    - Order payout, every interleaving (C10 to C13, [OrderPayoutSpec]): an
      order never has two invoices outstanding or paid, its claim survives as
      long as a payment may settle, [Success] means paid, and every step is a
      step of an abstract escrow.
    - Development fee, every interleaving (C14, [DevFeeSpec]): no invoice of an
      order is paid while another recorded for it may still succeed, and an
      order is marked as paid only when LND said so.
    - Ecash escrow, every interleaving with tasks that leave escrows alone
      (C15, [CashuLoop]): an active order of a Cashu node holds a token that
      its seller submitted in a genuine message, of the right value and keys,
      that its mint vouched for and that no other order holds.  C16 ([CashuSpec]): two of
      the three keys, later the seller alone, can spend an accepted token.
    - Lightning addresses (C17, C18, [LnurlSpec]): no request goes to an
      address the policy forbids, and an invoice is the one asked for;
      [policy_networks] gives the policy as a list of networks.
    - Exchange rates (C19 to C24): a minority of sources cannot move a rate; a
      served price is the latest one and not stale; relayed rates are not
      republished; the order of the quotes is irrelevant; rates are proper
      numbers; a market quote is exact up to a sat and a bounded rounding.
    - Messages (C25 to C27): an event is acted on twice only when it was dated
      in the future; an event with a forged signature changes nothing; a
      trade counter moves only to the index of an accepted message.
    - Published events (C28, C29, [Nip33Spec]): a client reads from the order
      book exactly the offers of the daemon, with their terms; the proof of
      work a node advertises to strangers is the one it demands.
    - Ranges and guesses (C30, C31): the slices of a range never exceed it; a
      client makes five wrong guesses in five minutes.
    - Handlers alone: what a resolution does to every row for an order outside
      any range (C32), what the close of a range leaves owed, an overdrawn bond
      included (C33), a bond payout that succeeds (C34), which submitted invoice
      is stored and where (C35), an order payout that succeeds (C36), and what
      becomes of the invoice of a take that came too late (C37).
    - Publication (C38 to C40): failures are remembered, revisions never tie
      and republication is bounded.
    - Beside these: a rating counts once ([RangeSpec.rating_counts_once]) and
      the text columns of a bond are read back as written
      ([BondTypes.bond_enums_roundtrip]).
    - The theorems of [TradeFindings], [Findings] and [CashuFindings] exhibit
      behaviours that contradict a comment or strand money.

    ** Assumptions

    - LND and randomness ([BondInv.step_law]): a hold invoice is not both
      settled and cancelled; a payment reported as succeeded was sent, was
      not last reported as failed, and is never reported as failed later; the
      random source yields 32 bytes.  Nothing is assumed about when, or
      whether, LND answers usefully.
    - Libraries: [LibLaws] (status spelling round trip), [HexLaws] (hex
      decoding inverts hex encoding, a SHA-256 digest has 32 bytes),
      [StatusSpelling] (the four spellings the SQL text names),
      [TimestampLaw] (stamping an order keeps its key) and [RangeLaw] (a
      range order is one with both limits).  [Demo], [LockSpec] and
      [RangeSpec] prove them for a concrete instance.
    - Messages: the clock of the daemon is not set back between two events of
      a history ([GateSpec.Clock]), and [MessageLaws] (an absent trade
      index reads as zero, the inner action is the action of the message).
    - Order payout ([PayoutPact.pact_step]): LND does not retract a success
      and a payment stream carries one final status; a claim, a refresh or a
      send happens within the grace window after the task read the clock, the
      window the reconciler grants; no two tasks stamp one order in the same
      second.  [PayoutLaws] (an invoice's hash has 32 bytes, the spelling of
      the settled status) and [CountLaw] (counting a failure marks the order)
      are the library facts.  Other tasks leave claims and settled or
      completed orders alone ([PayoutPact.spares_payouts]).
    - Development fee: the updates LND sends about a payment name the hash of
      its invoice ([DevFeeSpec.fee_law]), a hex decoder refuses a marker
      ([MarkerLaws]), and the other tasks leave the fee columns of existing
      rows alone ([DevFeeSpec.spares_fees]), as the comments on the job's
      targeted statements intend.  A handler that rewrites a whole row from a
      copy it read before the job claimed the order does not.
    - Ecash escrow: [Cdk] is the cdk crate and [CdkLaws] what the code relies
      on (the secrets and the value of a token are those of its proofs).
      [CashuPact.TradeLaws] are facts of the order functions of the protocol
      library.  The other tasks of the node leave locked orders alone and do
      not fund one ([CashuPact.spares_escrows]); tasks that write no order do
      ([CashuFindings.no_writes_spares]), the expiry job does not
      ([CashuFindings.expiry_erases_escrow]).
    - Published events: numbers are shown in decimal ([Nip33Spec.Decimal]) and
      the proof of work of an event is a number that [check_pow] compares.
    - Lightning addresses: [Lnurl.WebLib] is the url crate, the bech32 decoder
      and the JSON parser, about which nothing is assumed.  To the handlers
      the programs of [Lnurl] are the requests [LnExists] and
      [ResolvLnAddress].
    - Tasks of the bond system that are not listed in [BondSafety.bond_task]
      may do anything except write the [bonds] table or send payments
      ([TradeTriples.foreign]).  The payout of an
      order sends payments, so the bond theorems and the order payout theorems
      are about separate systems.
    - Exchange rates: the theorems about relayed rates assume quotes between
      2^-400 and 2^400 and at most 255 direct quotes of a currency
      ([PriceFallback.sane_tick]).
    - A request and its answer are one step.  A crash between them is the
      step with an empty answer followed by the crash.
    - In the theorems about a handler alone, [Sequential.Coop] (LND complies,
      statements succeed), [PayoutSpec.Undecided] or [PayoutSpec.Pays] say
      which world it runs in.

    ** Bounds

    Programs are finite trees, so loops carry a bound.  The upward walk over
    the range chain has the bound of the source, [MAX_RANGE_CHAIN_DEPTH]
    (1024 links), and reports an error beyond it as the source does.  The
    downward recursive query iterates once per order, which reaches every
    order of the tree ([tree_nonterminal_spec]).  The endless jobs take their
    number of ticks as an argument, the connection loop its number of tries,
    a subscriber its number of notifications and a waiting payout its number
    of heartbeats; the theorems hold for every value of these arguments.  A
    call of [do_payment] and the task it spawns are one task.

    ** Not modelled

    To the handlers, publishing an order revision is one request
    ([PublishOrderEvent]); [Orderbook] models what is behind it.  Transport
    (the flush of the message queues, relay lists, info events), configuration
    parsing, migrations, HTTP and JSON decoding and startup are input and
    output around that state and stay outside. *)

From Stdlib Require Export ZArith Lia Ascii.
From stdpp Require Export base list strings option relations.

#[global] Set Default Goal Selector "!".

(** ** Automation of the development *)

(** [mostro] holds the rewriting and resolution lemmas shared by the
    components. *)
Create HintDb mostro.
Create Rewrite HintDb mostro.

(** Case analysis on every [match]/[if] scrutinee of the goal or context,
    closing contradictory branches at once. *)
Ltac split_match :=
  repeat (case_match; simplify_eq/=; try done).

(** Turn boolean tests in the context into propositions. *)
Ltac bool_prop :=
  repeat match goal with
  | H : (_ && _) = true |- _ => apply andb_true_iff in H as [? ?]
  | H : (_ && _) = false |- _ => apply andb_false_iff in H
  | H : (_ || _) = false |- _ => apply orb_false_iff in H as [? ?]
  | H : negb _ = true |- _ => apply negb_true_iff in H
  | H : negb _ = false |- _ => apply negb_false_iff in H
  | H : (_ <=? _)%Z = true |- _ => apply Z.leb_le in H
  | H : (_ <=? _)%Z = false |- _ => apply Z.leb_gt in H
  | H : (_ <? _)%Z = true |- _ => apply Z.ltb_lt in H
  | H : (_ <? _)%Z = false |- _ => apply Z.ltb_ge in H
  | H : (_ =? _)%Z = true |- _ => apply Z.eqb_eq in H
  | H : (_ =? _)%Z = false |- _ => apply Z.eqb_neq in H
  | H : bool_decide _ = true |- _ => apply bool_decide_eq_true in H
  | H : bool_decide _ = false |- _ => apply bool_decide_eq_false in H
  end.

(** ** Functional record update

    [r <| f := v |>] is Rust's [T { f: v, ..r }].  A record declares its
    [Eta] instance once (every field read back through its projection) and
    the setter of a field is found by abstracting that projection. *)

Class Eta (R : Type) := eta_of : R -> R.
Class Setter {R E : Type} (get : R -> E) := with_field : (E -> E) -> R -> R.
Arguments with_field {R E} get {_} _ _ /.

Ltac derive_setter get :=
  lazymatch type of get with
  | ?R -> _ =>
      let inst := constr:(_ : Eta R) in
      let body := eval red in inst in
      lazymatch eval pattern get in body with
      | ?ctx _ =>
          let s := eval cbv beta in (fun upd => ctx (fun r => upd (get r))) in
          exact s
      end
  end.

#[export] Hint Extern 1 (@Setter _ _ ?get) => derive_setter get : typeclass_instances.

Declare Scope record_scope.
Delimit Scope record_scope with rec.
Notation "r <| f := v |>" := (with_field f (fun _ => v) r)
  (at level 1, left associativity, f at level 9, v at level 99) : record_scope.
Open Scope record_scope.

(** ** Fallible computations: Rust's [Result] and [Option] *)

Inductive result (T E : Type) : Type :=
| Ok (v : T)
| Err (e : E).
Arguments Ok {T E} _.
Arguments Err {T E} _.

Definition map_err {T E F} (f : E -> F) (r : result T E) : result T F :=
  match r with Ok v => Ok v | Err e => Err (f e) end.

Definition ok_or {T E} (o : option T) (e : E) : result T E :=
  match o with Some v => Ok v | None => Err e end.

(** Rust's [let x = r?; k] where nothing happens outside. *)
Notation "'let?' x ':=' r 'in' k" := (match r with Ok x => k | Err e => Err e end)
  (at level 10, x pattern, r at level 100, k at level 200).

(** A loop that stops at the first error. *)
Fixpoint check_each {X E} (l : list X) (f : X -> result unit E) : result unit E :=
  match l with
  | [] => Ok tt
  | x :: l' => let? _ := f x in check_each l' f
  end.

Lemma check_each_ok {X E} (l : list X) (f : X -> result unit E) :
  check_each l f = Ok tt <-> forall x, In x l -> f x = Ok tt.
Proof.
  induction l as [|x l IH]; simpl; [by split|]. destruct (f x) as [[]|e] eqn:Ex.
  - rewrite IH. split; [intros Hf y [<-|Hy]; auto|auto].
  - split; [done|]. intros Hf. rewrite <- Ex. auto.
Qed.

Definition is_ok {T E} (r : result T E) : bool :=
  match r with Ok _ => true | Err _ => false end.

Definition is_some {T} (o : option T) : bool :=
  match o with Some _ => true | None => false end.

Definition is_none {T} (o : option T) : bool :=
  match o with Some _ => false | None => true end.

#[export] Instance result_eq_dec {T E} `{EqDecision T, EqDecision E} :
  EqDecision (result T E).
Proof. solve_decision. Defined.

(** ** Machine integers

    Rust's [i64] is a [Z] kept inside [[i64_min, i64_max]]; an operation that
    can leave the range writes the saturation or the wrap-around out. *)

Definition i64_min : Z := (- 2 ^ 63)%Z.
Definition i64_max : Z := (2 ^ 63 - 1)%Z.
Definition in_i64 (z : Z) : Prop := (i64_min <= z <= i64_max)%Z.

(** Rust's [Ord::clamp] (its precondition [lo <= hi] is the caller's). *)
Definition clampZ (z lo hi : Z) : Z := Z.max lo (Z.min z hi).

(** Conversion of an integer to [i64] with saturation ([as i64] on a float). *)
Definition sat_i64 (z : Z) : Z := clampZ z i64_min i64_max.

(** [i64::saturating_sub] and [i64::saturating_add]. *)
Definition saturating_sub (a b : Z) : Z := sat_i64 (a - b)%Z.
Definition saturating_add (a b : Z) : Z := sat_i64 (a + b)%Z.

Lemma sat_i64_range z : in_i64 (sat_i64 z).
Proof. unfold sat_i64, clampZ, in_i64, i64_min, i64_max. lia. Qed.

Lemma sat_i64_id z : in_i64 z -> sat_i64 z = z.
Proof. unfold sat_i64, clampZ, in_i64, i64_min, i64_max. lia. Qed.

Lemma clampZ_bounds z lo hi : (lo <= hi)%Z -> (lo <= clampZ z lo hi <= hi)%Z.
Proof. unfold clampZ. lia. Qed.

(** ** Strings *)

(** [str::parse::<u64>]: an optional plus sign, then digits, below 2^64. *)

Definition digit_value (c : Ascii.ascii) : option Z :=
  let n := (Z.of_nat (Ascii.nat_of_ascii c) - 48)%Z in
  if (0 <=? n)%Z && (n <=? 9)%Z then Some n else None.

Fixpoint parse_digits (acc : Z) (s : string) : option Z :=
  match s with
  | EmptyString => Some acc
  | String c s' =>
      match digit_value c with
      | Some d => if (10 * acc + d <? 2 ^ 64)%Z then parse_digits (10 * acc + d) s' else None
      | None => None
      end
  end.

Definition parse_u64 (s : string) : option Z :=
  match s with
  | EmptyString => None
  | String c s' =>
      if Ascii.eqb c (Ascii.ascii_of_nat 43)
      then match s' with EmptyString => None | _ => parse_digits 0 s' end
      else parse_digits 0 s
  end.

Definition ascii_to_lower (c : ascii) : ascii :=
  let n := Ascii.nat_of_ascii c in
  if (65 <=? n)%nat && (n <=? 90)%nat then Ascii.ascii_of_nat (n + 32) else c.

(** [str::split] at a character. *)
Fixpoint split_on (c : ascii) (s : string) : list string :=
  match s with
  | EmptyString => [EmptyString]
  | String d s' =>
      if Ascii.eqb d c then EmptyString :: split_on c s'
      else match split_on c s' with
           | w :: ws => String d w :: ws
           | [] => [String d EmptyString]
           end
  end.

(** [str::to_lowercase], on the ASCII range the daemon compares. *)
Fixpoint to_lowercase (s : string) : string :=
  match s with
  | EmptyString => EmptyString
  | String c s' => String (ascii_to_lower c) (to_lowercase s')
  end.

Definition ascii_to_upper (c : ascii) : ascii :=
  let n := Ascii.nat_of_ascii c in
  if (97 <=? n)%nat && (n <=? 122)%nat then Ascii.ascii_of_nat (n - 32) else c.

(** [str::to_uppercase], on the ASCII range of currency codes. *)
Fixpoint to_uppercase (s : string) : string :=
  match s with
  | EmptyString => EmptyString
  | String c s' => String (ascii_to_upper c) (to_uppercase s')
  end.

Lemma to_uppercase_idem s : to_uppercase (to_uppercase s) = to_uppercase s.
Proof.
  induction s as [|c s IH]; [done|]. simpl. rewrite IH. f_equal.
  destruct c as [[] [] [] [] [] [] [] []]; reflexivity.
Qed.
#[export] Hint Rewrite to_uppercase_idem : mostro.

Fixpoint str_contains (s pat : string) : bool :=
  String.prefix pat s ||
  match s with
  | EmptyString => false
  | String _ s' => str_contains s' pat
  end.

Definition str_eqb (a b : string) : bool := bool_decide (a = b).

Lemma str_eqb_eq a b : str_eqb a b = true <-> a = b.
Proof. apply bool_decide_eq_true. Qed.

Lemma str_eqb_refl a : str_eqb a a = true.
Proof. by apply str_eqb_eq. Qed.
#[export] Hint Rewrite str_eqb_refl : mostro.

(** ** Lists *)

Definition sumZ (l : list Z) : Z := foldr Z.add 0%Z l.

Lemma sumZ_app l1 l2 : sumZ (l1 ++ l2) = (sumZ l1 + sumZ l2)%Z.
Proof. induction l1; simpl; lia. Qed.

Lemma sumZ_nonneg l : Forall (fun z => 0 <= z)%Z l -> (0 <= sumZ l)%Z.
Proof. induction 1; simpl; lia. Qed.

(** Stable insertion sort by an integer key: [ORDER BY key ASC] with ties in
    row order. *)
Fixpoint insert_by {A} (key : A -> Z) (x : A) (l : list A) : list A :=
  match l with
  | [] => [x]
  | y :: l' => if (key x <? key y)%Z then x :: l else y :: insert_by key x l'
  end.

Definition sort_by {A} (key : A -> Z) (l : list A) : list A :=
  foldl (fun acc x => insert_by key x acc) [] l.
