(* ===== verification/Float64.v ===== *)
(** * IEEE-754 binary64 arithmetic

    Rust's [f64], as far as the daemon uses it: every finite value is the
    exact rational it denotes and every arithmetic result is the exact one
    rounded to the nearest representable value, ties to even ([rnd]), with
    overflow to an infinity and NaN for the invalid operations.  The sign of
    a zero is the one thing not represented: the daemon never observes it.

    The theorems are the facts that fee and bond arithmetic rely on: rounding
    is monotone ([rnd_mono]), exact on integers up to 2^53
    ([rnd_integer]), idempotent, and its integer part is itself
    representable ([rnd_floor]). *)

From Stdlib Require Import ZArith QArith Qround Qabs Qpower Lqa Lia.
From S2P Require Import Prelude.

Open Scope Q_scope.

(** ** Rounding *)

(** Nearest integer, ties to even. *)
Definition rne (q : Q) : Z :=
  let f := Qfloor q in
  match Qcompare (q - inject_Z f) (1 # 2) with
  | Lt => f
  | Gt => (f + 1)%Z
  | Eq => if Z.even f then f else (f + 1)%Z
  end.

(** Floor of the binary logarithm of a positive rational. *)
Definition qlog2 (q : Q) : Z :=
  let k := (Z.log2 (Qnum q) - Z.log2 (Zpos (Qden q)))%Z in
  if Qle_bool (2 ^ k) q then k else (k - 1)%Z.

(** Exponent of the unit in the last place of [q]: 53 bits of significand,
    with the subnormal floor. *)
Definition ulp_exp (q : Q) : Z := Z.max (qlog2 q - 52) (-1074).

Definition rnd_pos (q : Q) : Q :=
  let e := ulp_exp q in inject_Z (rne (q * 2 ^ (- e))) * 2 ^ e.

Definition rnd (q : Q) : Q :=
  match Qcompare q 0 with
  | Eq => 0
  | Gt => Qred (rnd_pos q)
  | Lt => - Qred (rnd_pos (- q))
  end.

(** ** Values *)

Inductive f64 : Type :=
| NaN
| Inf (neg : bool)
| Fin (q : Q).

Definition f64_of_Q (q : Q) : f64 :=
  let r := rnd q in
  if Qle_bool (2 ^ 1024) r then Inf false
  else if Qle_bool r (- 2 ^ 1024) then Inf true
  else Fin r.

(** [z as f64] *)
Definition f64_of_i64 (z : Z) : f64 := f64_of_Q (inject_Z z).

Definition Qltb (a b : Q) : bool := negb (Qle_bool b a).

Definition qsign (q : Q) : bool := Qltb q 0.

(** [a * b] *)
Definition f64_mul (a b : f64) : f64 :=
  match a, b with
  | NaN, _ | _, NaN => NaN
  | Fin x, Fin y => f64_of_Q (x * y)
  | Inf s, Inf t => Inf (xorb s t)
  | Inf s, Fin y => if Qeq_bool y 0 then NaN else Inf (xorb s (qsign y))
  | Fin x, Inf t => if Qeq_bool x 0 then NaN else Inf (xorb (qsign x) t)
  end.

(** [a / b] for a finite non-zero divisor or an infinite one; a zero divisor
    gives an infinity of the dividend's sign (positive zero). *)
Definition f64_div (a b : f64) : f64 :=
  match a, b with
  | NaN, _ | _, NaN => NaN
  | Inf _, Inf _ => NaN
  | Inf s, Fin y => Inf (xorb s (qsign y))
  | Fin _, Inf _ => Fin 0
  | Fin x, Fin y =>
      if Qeq_bool y 0 then (if Qeq_bool x 0 then NaN else Inf (qsign x))
      else f64_of_Q (x / y)
  end.

(** [a - b] *)
Definition f64_sub (a b : f64) : f64 :=
  match a, b with
  | NaN, _ | _, NaN => NaN
  | Fin x, Fin y => f64_of_Q (x - y)
  | Inf s, Inf t => if Bool.eqb s t then NaN else Inf s
  | Inf s, Fin _ => Inf s
  | Fin _, Inf t => Inf (negb t)
  end.

(** [a + b] *)
Definition f64_add (a b : f64) : f64 :=
  match a, b with
  | NaN, _ | _, NaN => NaN
  | Fin x, Fin y => f64_of_Q (x + y)
  | Inf s, Inf t => if Bool.eqb s t then Inf s else NaN
  | Inf s, Fin _ => Inf s
  | Fin _, Inf t => Inf t
  end.

(** [f64::abs] and [f64::is_finite] *)
Definition f64_abs (a : f64) : f64 :=
  match a with
  | NaN => NaN
  | Inf _ => Inf false
  | Fin q => Fin (Qabs q)
  end.
Definition f64_is_finite (a : f64) : bool :=
  match a with Fin _ => true | _ => false end.

(** [a <= b], [a < b], [a >= b], [a > b]: all false on a NaN. *)
Definition f64_le (a b : f64) : bool :=
  match a, b with
  | NaN, _ | _, NaN => false
  | Fin x, Fin y => Qle_bool x y
  | Inf true, _ | _, Inf false => true
  | Inf false, _ | _, Inf true => false
  end.
Definition f64_lt (a b : f64) : bool :=
  match a, b with
  | NaN, _ | _, NaN => false
  | _, _ => negb (f64_le b a)
  end.
Definition f64_ge (a b : f64) : bool := f64_le b a.
Definition f64_gt (a b : f64) : bool := f64_lt b a.

(** [f64::clamp]: a NaN stays a NaN. *)
Definition f64_clamp (x lo hi : f64) : f64 :=
  if f64_lt x lo then lo else if f64_gt x hi then hi else x.

(** [f64::max]: the other operand when one is a NaN. *)
Definition f64_max (a b : f64) : f64 :=
  match a, b with
  | NaN, _ => b
  | _, NaN => a
  | _, _ => if f64_lt a b then b else a
  end.

(** [f64::round] (ties away from zero) and [f64::floor]; both exact. *)
Definition f64_round (a : f64) : f64 :=
  match a with
  | Fin q => Fin (inject_Z (if Qle_bool 0 q then Qfloor (q + (1 # 2))
                            else - Qfloor (- q + (1 # 2)))%Z)
  | _ => a
  end.
Definition f64_floor (a : f64) : f64 :=
  match a with Fin q => Fin (inject_Z (Qfloor q)) | _ => a end.

(** [a as i64]: truncation toward zero, saturating, NaN to 0. *)
Definition f64_to_i64 (a : f64) : Z :=
  match a with
  | NaN => 0
  | Inf false => i64_max
  | Inf true => i64_min
  | Fin q => sat_i64 (if Qle_bool 0 q then Qfloor q else - Qfloor (- q))
  end%Z.

(** A decimal literal of the source, [n / 10^k]. *)
Definition f64_dec (n k : Z) : f64 := f64_of_Q (n # Z.to_pos (10 ^ k)).

Example f64_dec_half : f64_dec 5 1 = Fin (1 # 2).
Proof. vm_compute. reflexivity. Qed.

Example f64_dec_tenth : f64_dec 1 1 = Fin (3602879701896397 # 36028797018963968).
Proof. vm_compute. reflexivity. Qed.

Example f64_mul_inexact :
  f64_mul (f64_of_i64 3) (f64_dec 1 1) = Fin (1351079888211149 # 4503599627370496).
Proof. vm_compute. reflexivity. Qed.

(** ** Powers of two *)

Lemma pow2_pos e : 0 < 2 ^ e.
Proof. apply Qpower_0_lt. lra. Qed.
#[export] Hint Resolve pow2_pos : mostro.

Lemma pow2_add a b : 2 ^ (a + b) == 2 ^ a * 2 ^ b.
Proof. apply Qpower_plus. lra. Qed.

Lemma pow2_le a b : (a <= b)%Z -> 2 ^ a <= 2 ^ b.
Proof. intros. apply Qpower_le_compat_l; [done | lra]. Qed.

Lemma pow2_lt_inv a b : 2 ^ a < 2 ^ b -> (a < b)%Z.
Proof. intros. eapply Qpower_lt_compat_l_inv; [eassumption | lra]. Qed.

Lemma pow2_int k : (0 <= k)%Z -> 2 ^ k == inject_Z (2 ^ k).
Proof. intros. rewrite Zpower_Qpower by done. reflexivity. Qed.

(** Scaling by [2 ^ (- e)] and back. *)
Lemma scale_unscale q e : q * 2 ^ (- e) * 2 ^ e == q.
Proof.
  rewrite <- Qmult_assoc, <- pow2_add, Z.add_opp_diag_l. simpl. lra.
Qed.

Lemma scale_le q e k : q <= 2 ^ k -> q * 2 ^ (- e) <= 2 ^ (k - e).
Proof.
  intros. unfold Z.sub. rewrite pow2_add.
  apply Qmult_le_compat_r; [done | apply Qlt_le_weak, pow2_pos].
Qed.

Lemma scale_ge q e k : 2 ^ k <= q -> 2 ^ (k - e) <= q * 2 ^ (- e).
Proof.
  intros. unfold Z.sub. rewrite pow2_add.
  apply Qmult_le_compat_r; [done | apply Qlt_le_weak, pow2_pos].
Qed.

(** ** Round to nearest *)

Lemma rne_cases q : rne q = Qfloor q \/ rne q = (Qfloor q + 1)%Z.
Proof. unfold rne. destruct (Qcompare _ _); [destruct (Z.even _)|..]; auto. Qed.

#[export] Instance rne_comp : Proper (Qeq ==> eq) rne.
Proof.
  intros x y E. unfold rne. rewrite (Qfloor_comp _ _ E).
  by replace (Qcompare (y - inject_Z (Qfloor y)) (1 # 2))
    with (Qcompare (x - inject_Z (Qfloor y)) (1 # 2)) by (by rewrite E).
Qed.

Lemma rne_mono x y : x <= y -> (rne x <= rne y)%Z.
Proof.
  intros Hle. pose proof (Qfloor_resp_le _ _ Hle) as Hf.
  destruct (decide (Qfloor x = Qfloor y)) as [E|].
  - unfold rne. rewrite E.
    destruct (Qcompare_spec (x - inject_Z (Qfloor y)) (1 # 2)),
      (Qcompare_spec (y - inject_Z (Qfloor y)) (1 # 2));
      try destruct (Z.even _); try lia; exfalso; lra.
  - destruct (rne_cases x), (rne_cases y); lia.
Qed.

Lemma rne_int z : rne (inject_Z z) = z.
Proof.
  unfold rne. rewrite Qfloor_Z.
  destruct (Qcompare_spec (inject_Z z - inject_Z z) (1 # 2)); [exfalso; lra | done | exfalso; lra].
Qed.

(** ** The exponent *)

Lemma qlog2_spec q : 0 < q -> 2 ^ (qlog2 q) <= q < 2 ^ (qlog2 q + 1).
Proof.
  intros Hq. unfold qlog2.
  set (n := Qnum q). set (d := Zpos (Qden q)).
  assert (Hn : (0 < n)%Z) by (unfold n, Qlt in *; simpl in *; lia).
  assert (Hd : (0 < d)%Z) by (unfold d; lia).
  assert (Eq : q == inject_Z n / inject_Z d).
  { unfold n, d. destruct q as [a b]. simpl. rewrite <- Qmake_Qdiv. reflexivity. }
  pose proof (Z.log2_nonneg n). pose proof (Z.log2_nonneg d).
  destruct (Z.log2_spec _ Hn) as [Hn1 Hn2], (Z.log2_spec _ Hd) as [Hd1 Hd2].
  rewrite Zle_Qle in Hn1, Hd1. rewrite Zlt_Qlt in Hn2, Hd2.
  rewrite <- pow2_int in Hn1, Hd1, Hn2, Hd2 by lia.
  assert (Hdq : 0 < inject_Z d) by (change 0 with (inject_Z 0); by rewrite <- Zlt_Qlt).
  assert (Enq : inject_Z n == q * inject_Z d) by (rewrite Eq; field; lra).
  rewrite Enq in Hn1, Hn2.
  assert (Hlo : 2 ^ (Z.log2 n - Z.log2 d - 1) < q).
  { apply (Qmult_lt_r _ _ (2 ^ Z.succ (Z.log2 d))); [apply pow2_pos|].
    rewrite <- pow2_add.
    replace (Z.log2 n - Z.log2 d - 1 + Z.succ (Z.log2 d))%Z with (Z.log2 n) by lia.
    eapply Qle_lt_trans; [exact Hn1|]. by apply Qmult_lt_l. }
  assert (Hhi : q < 2 ^ (Z.log2 n - Z.log2 d + 1)).
  { apply (Qmult_lt_r _ _ (2 ^ Z.log2 d)); [apply pow2_pos|].
    rewrite <- pow2_add.
    replace (Z.log2 n - Z.log2 d + 1 + Z.log2 d)%Z with (Z.succ (Z.log2 n)) by lia.
    eapply Qle_lt_trans; [|exact Hn2]. by apply Qmult_le_l. }
  destruct (Qle_bool _ _) eqn:E.
  - apply Qle_bool_iff in E. by split.
  - split; [by apply Qlt_le_weak|].
    rewrite Z.sub_add. apply Qnot_le_lt. intros Hc.
    apply Qle_bool_iff in Hc. congruence.
Qed.

Lemma qlog2_mono x y : 0 < x -> x <= y -> (qlog2 x <= qlog2 y)%Z.
Proof.
  intros Hx Hle.
  destruct (qlog2_spec x Hx) as [H1 _].
  destruct (qlog2_spec y ltac:(lra)) as [_ H2].
  enough (qlog2 x < qlog2 y + 1)%Z by lia. apply pow2_lt_inv. lra.
Qed.

Lemma ulp_exp_mono x y : 0 < x -> x <= y -> (ulp_exp x <= ulp_exp y)%Z.
Proof. intros Hx Hle. pose proof (qlog2_mono x y Hx Hle). unfold ulp_exp. lia. Qed.

Lemma ulp_exp_comp x y : 0 < x -> x == y -> ulp_exp x = ulp_exp y.
Proof.
  intros Hx E. apply Z.le_antisymm; apply ulp_exp_mono; lra.
Qed.

Lemma ulp_exp_bound q : 0 < q -> q <= 2 ^ (ulp_exp q + 53).
Proof.
  intros Hq. destruct (qlog2_spec q Hq) as [_ H].
  apply Qlt_le_weak in H. eapply Qle_trans; [exact H|].
  apply pow2_le. unfold ulp_exp. lia.
Qed.

(** ** Rounding of a positive value *)

Lemma rnd_pos_le q k : (ulp_exp q <= k)%Z -> q <= 2 ^ k -> rnd_pos q <= 2 ^ k.
Proof.
  intros Hk Hq. unfold rnd_pos. set (e := ulp_exp q) in *.
  apply Qle_trans with (inject_Z (2 ^ (k - e)) * 2 ^ e).
  - apply Qmult_le_compat_r; [|apply Qlt_le_weak, pow2_pos].
    rewrite <- Zle_Qle. rewrite <- (rne_int (2 ^ (k - e))).
    apply rne_mono. rewrite <- pow2_int by lia. by apply scale_le.
  - rewrite <- pow2_int, <- pow2_add by lia. rewrite Z.sub_add. apply Qle_refl.
Qed.

Lemma rnd_pos_ge q k : (ulp_exp q <= k)%Z -> 2 ^ k <= q -> 2 ^ k <= rnd_pos q.
Proof.
  intros Hk Hq. unfold rnd_pos. set (e := ulp_exp q) in *.
  apply Qle_trans with (inject_Z (2 ^ (k - e)) * 2 ^ e).
  - rewrite <- pow2_int, <- pow2_add by lia. rewrite Z.sub_add. apply Qle_refl.
  - apply Qmult_le_compat_r; [|apply Qlt_le_weak, pow2_pos].
    rewrite <- Zle_Qle. rewrite <- (rne_int (2 ^ (k - e))) at 1.
    apply rne_mono. rewrite <- pow2_int by lia. by apply scale_ge.
Qed.

Lemma rnd_pos_mono x y : 0 < x -> x <= y -> rnd_pos x <= rnd_pos y.
Proof.
  intros Hx Hle. assert (Hy : 0 < y) by lra.
  pose proof (ulp_exp_mono x y Hx Hle) as He.
  destruct (decide (ulp_exp x = ulp_exp y)) as [E|NE].
  - unfold rnd_pos. rewrite E. apply Qmult_le_compat_r; [|apply Qlt_le_weak, pow2_pos].
    rewrite <- Zle_Qle. apply rne_mono.
    apply Qmult_le_compat_r; [done | apply Qlt_le_weak, pow2_pos].
  - destruct (qlog2_spec y Hy) as [Hl _].
    assert (ulp_exp y = qlog2 y - 52)%Z by (unfold ulp_exp in *; lia).
    apply Qle_trans with (2 ^ (ulp_exp x + 53)).
    + apply rnd_pos_le; [lia | by apply ulp_exp_bound].
    + apply Qle_trans with (2 ^ (qlog2 y)); [apply pow2_le; lia|].
      apply rnd_pos_ge; [lia | done].
Qed.

Lemma rnd_pos_nonneg q : 0 < q -> 0 <= rnd_pos q.
Proof.
  intros Hq. unfold rnd_pos.
  apply Qmult_le_0_compat; [|apply Qlt_le_weak, pow2_pos].
  change 0 with (inject_Z 0). rewrite <- Zle_Qle, <- (rne_int 0).
  apply rne_mono. apply Qmult_le_0_compat; apply Qlt_le_weak; [done | apply pow2_pos].
Qed.

(** ** Representable values *)

(** [q] is a binary64 value (overflow aside): a significand of at most 53
    bits times a power of two no smaller than the subnormal unit. *)
Definition repr (q : Q) : Prop :=
  exists m e, q == inject_Z m * 2 ^ e /\ (Z.abs m <= 2 ^ 53)%Z /\ (-1074 <= e)%Z.

Lemma repr_int z : (Z.abs z <= 2 ^ 53)%Z -> repr (inject_Z z).
Proof. intros H. exists z, 0%Z. simpl. split_and!; [lra | done | done]. Qed.

#[export] Instance repr_comp : Proper (Qeq ==> iff) repr.
Proof.
  assert (forall x y, x == y -> repr x -> repr y) as H.
  { intros x y E (m & e & H1 & H2). exists m, e. by rewrite <- E. }
  intros x y E. split; apply H; [done | by symmetry].
Qed.

Lemma repr_opp q : repr q -> repr (- q).
Proof.
  intros (m & e & E & H1 & H2). exists (- m)%Z, e.
  rewrite Z.abs_opp. split_and!; try done. rewrite E, inject_Z_opp. ring.
Qed.

Lemma repr_rnd_pos q : 0 < q -> repr (rnd_pos q).
Proof.
  intros Hq. exists (rne (q * 2 ^ (- ulp_exp q))), (ulp_exp q).
  split_and!; [reflexivity | | unfold ulp_exp; lia].
  assert (0 <= rne (q * 2 ^ (- ulp_exp q)))%Z.
  { rewrite <- (rne_int 0). apply rne_mono.
    apply Qmult_le_0_compat; apply Qlt_le_weak; [done | apply pow2_pos]. }
  enough (rne (q * 2 ^ (- ulp_exp q)) <= 2 ^ 53)%Z by lia.
  rewrite <- (rne_int (2 ^ 53)). apply rne_mono. rewrite <- pow2_int by lia.
  pose proof (scale_le q (ulp_exp q) _ (ulp_exp_bound q Hq)) as H1.
  by replace (ulp_exp q + 53 - ulp_exp q)%Z with 53%Z in H1 by lia.
Qed.

Lemma rnd_pos_repr q : 0 < q -> repr q -> rnd_pos q == q.
Proof.
  intros Hq (m & e & E & Hm & He).
  assert (Hint : forall k, q * 2 ^ (- ulp_exp q) == inject_Z k -> rnd_pos q == q).
  { intros k Hk. unfold rnd_pos. rewrite Hk, rne_int, <- Hk. apply scale_unscale. }
  destruct (Z.le_gt_cases (ulp_exp q) e) as [Hle|Hgt].
  - apply (Hint (m * 2 ^ (e - ulp_exp q))%Z). generalize dependent (ulp_exp q). intros u _ Hu.
    rewrite E, inject_Z_mult, <- pow2_int, <- Qmult_assoc, <- pow2_add by lia.
    by rewrite <- Z.add_opp_r.
  - destruct (qlog2_spec q Hq) as [Hl _].
    assert (ulp_exp q = qlog2 q - 52)%Z as Hu by (unfold ulp_exp in *; lia).
    assert (Hup : q <= 2 ^ (e + 53)).
    { rewrite E, Z.add_comm, pow2_add.
      apply Qmult_le_compat_r; [|apply Qlt_le_weak, pow2_pos].
      rewrite pow2_int, <- Zle_Qle by lia. lia. }
    assert (qlog2 q = e + 53)%Z as Hq2.
    { enough (qlog2 q < e + 53 + 1)%Z by lia. apply pow2_lt_inv.
      eapply Qle_lt_trans; [exact Hl|]. eapply Qle_lt_trans; [exact Hup|].
      apply Qpower_lt_compat_l; [lia | lra]. }
    apply (Hint (2 ^ 52)%Z). rewrite <- pow2_int by lia.
    rewrite Hq2 in Hl. assert (Eq : q == 2 ^ (e + 53)) by lra.
    rewrite Hu, Hq2, Eq, <- pow2_add.
    by replace (e + 53 + - (e + 53 - 52))%Z with 52%Z by lia.
Qed.

(** ** Rounding *)

Lemma rnd_zero q : q == 0 -> rnd q == 0.
Proof. intros E. unfold rnd. destruct (Qcompare_spec q 0); [done | exfalso; lra..]. Qed.

Lemma rnd_gt q : 0 < q -> rnd q == rnd_pos q.
Proof.
  intros H. unfold rnd. destruct (Qcompare_spec q 0); [exfalso; lra.. | apply Qred_correct].
Qed.

Lemma rnd_lt q : q < 0 -> rnd q == - rnd_pos (- q).
Proof.
  intros H. unfold rnd.
  destruct (Qcompare_spec q 0); [exfalso; lra | by rewrite Qred_correct | exfalso; lra].
Qed.

Ltac rnd_sign q :=
  destruct (Qcompare_spec q 0);
  [rewrite (rnd_zero q) by done | rewrite (rnd_lt q) by done | rewrite (rnd_gt q) by done].

(** Rounding preserves the order of the exact values. *)
Lemma rnd_mono x y : x <= y -> rnd x <= rnd y.
Proof.
  intros Hle. rnd_sign x; rnd_sign y; try (exfalso; lra).
  - lra.
  - apply rnd_pos_nonneg. lra.
  - pose proof (rnd_pos_nonneg (- x)). lra.
  - pose proof (rnd_pos_mono (- y) (- x)). lra.
  - pose proof (rnd_pos_nonneg (- x)). pose proof (rnd_pos_nonneg y). lra.
  - by apply rnd_pos_mono.
Qed.

#[export] Instance rnd_comp : Proper (Qeq ==> Qeq) rnd.
Proof. intros x y E. apply Qle_antisym; apply rnd_mono; lra. Qed.

(** A representable value is not changed by rounding. *)
Lemma rnd_repr q : repr q -> rnd q == q.
Proof.
  intros Hr. rnd_sign q.
  - by symmetry.
  - rewrite rnd_pos_repr; [lra | lra | by apply repr_opp].
  - by apply rnd_pos_repr.
Qed.

Lemma repr_rnd q : repr (rnd q).
Proof.
  rnd_sign q.
  - by apply (repr_int 0).
  - apply repr_opp, repr_rnd_pos. lra.
  - by apply repr_rnd_pos.
Qed.

Lemma rnd_integer z : (Z.abs z <= 2 ^ 53)%Z -> rnd (inject_Z z) == inject_Z z.
Proof. intros. by apply rnd_repr, repr_int. Qed.

(** The integer part of a non-negative representable value is representable. *)
Lemma repr_floor q : 0 <= q -> repr q -> repr (inject_Z (Qfloor q)).
Proof.
  intros Hq (m & e & E & Hm & He).
  destruct (Z.le_gt_cases 0 e) as [Hle|Hgt].
  - assert (E' : q == inject_Z (m * 2 ^ e)) by (rewrite inject_Z_mult, <- pow2_int by done; done).
    rewrite (Qfloor_comp _ _ E'), Qfloor_Z, <- E'. by exists m, e.
  - apply repr_int. pose proof (Qfloor_resp_le 0 q Hq) as H0. change (Qfloor 0) with 0%Z in H0.
    enough (Qfloor q <= 2 ^ 53)%Z by lia.
    rewrite <- (Qfloor_Z (2 ^ 53)). apply Qfloor_resp_le. rewrite E.
    apply Qle_trans with (inject_Z (2 ^ 53) * 2 ^ e).
    + apply Qmult_le_compat_r; [rewrite <- Zle_Qle; lia | apply Qlt_le_weak, pow2_pos].
    + pose proof (pow2_le e 0 ltac:(lia)) as H1. simpl in H1.
      rewrite <- (Qmult_1_r (inject_Z (2 ^ 53))) at 2.
      by apply Qmult_le_l.
Qed.

(** An integer strictly below the rounding of [z] that is itself
    representable does not exceed [z]. *)
Lemma repr_below_rnd k z : repr (inject_Z k) -> inject_Z k < rnd (inject_Z z) -> (k <= z)%Z.
Proof.
  intros Hr Hlt. destruct (Z.le_gt_cases k z) as [|Hgt]; [done|]. exfalso.
  assert (Hle : rnd (inject_Z z) <= rnd (inject_Z k)) by (apply rnd_mono; rewrite <- Zle_Qle; lia).
  rewrite (rnd_repr (inject_Z k)) in Hle by done. lra.
Qed.

(** ** Order of the values *)

Lemma Qle_bool_false x y : Qle_bool x y = false <-> y < x.
Proof.
  split.
  - intros H. apply Qnot_le_lt. intros Hc%Qle_bool_iff. congruence.
  - intros H. destruct (Qle_bool x y) eqn:E; [|done]. apply Qle_bool_iff in E. lra.
Qed.

Ltac qbool :=
  repeat match goal with
  | H : Qle_bool _ _ = true |- _ => apply Qle_bool_iff in H
  | H : Qle_bool _ _ = false |- _ => apply Qle_bool_false in H
  | H : Qltb _ _ = true |- _ => unfold Qltb in H; apply negb_true_iff in H
  | H : Qltb _ _ = false |- _ => unfold Qltb in H; apply negb_false_iff in H
  end.

Lemma f64_of_Q_mono x y : x <= y -> f64_le (f64_of_Q x) (f64_of_Q y) = true.
Proof.
  intros Hle%rnd_mono. unfold f64_of_Q.
  destruct (Qle_bool (2 ^ 1024) (rnd x)) eqn:E1, (Qle_bool (rnd x) (- 2 ^ 1024)) eqn:E2,
    (Qle_bool (2 ^ 1024) (rnd y)) eqn:E3, (Qle_bool (rnd y) (- 2 ^ 1024)) eqn:E4;
    simpl; qbool; try done; try (by apply Qle_bool_iff); exfalso;
    pose proof (pow2_pos 1024); lra.
Qed.

Lemma Qtrunc_mono x y :
  x <= y ->
  ((if Qle_bool 0 x then Qfloor x else - Qfloor (- x)) <=
   (if Qle_bool 0 y then Qfloor y else - Qfloor (- y)))%Z.
Proof.
  intros Hle.
  destruct (Qle_bool 0 x) eqn:E1, (Qle_bool 0 y) eqn:E2; qbool.
  - by apply Qfloor_resp_le.
  - exfalso; lra.
  - pose proof (Qfloor_resp_le 0 y E2) as H1. pose proof (Qfloor_resp_le 0 (- x) ltac:(lra)) as H2.
    change (Qfloor 0) with 0%Z in *. lia.
  - pose proof (Qfloor_resp_le (- y) (- x) ltac:(lra)). lia.
Qed.

Lemma f64_to_i64_mono a b : f64_le a b = true -> (f64_to_i64 a <= f64_to_i64 b)%Z.
Proof.
  assert (forall z, i64_min <= sat_i64 z <= i64_max)%Z as Hr by (intros; apply sat_i64_range).
  assert (i64_min <= i64_max)%Z by (unfold i64_min, i64_max; lia).
  destruct a as [|[]|x], b as [|[]|y]; cbn [f64_le f64_to_i64]; try done;
    try (intros _; apply Hr).
  intros Hle. qbool. pose proof (Qtrunc_mono x y Hle) as Ht. revert Ht.
  generalize (if Qle_bool 0 x then Qfloor x else - Qfloor (- x))%Z.
  generalize (if Qle_bool 0 y then Qfloor y else - Qfloor (- y))%Z.
  intros u v Huv. unfold sat_i64, clampZ. lia.
Qed.

Lemma f64_to_i64_range a : in_i64 (f64_to_i64 a).
Proof.
  unfold f64_to_i64, in_i64, i64_min, i64_max. destruct a as [|[]|]; try lia.
  apply sat_i64_range.
Qed.

Lemma f64_round_mono a b : f64_le a b = true -> f64_le (f64_round a) (f64_round b) = true.
Proof.
  destruct a as [|[]|x], b as [|[]|y]; cbn [f64_le f64_round]; try done.
  intros Hle. qbool. apply Qle_bool_iff. rewrite <- Zle_Qle.
  destruct (Qle_bool 0 x) eqn:E1, (Qle_bool 0 y) eqn:E2; qbool.
  - apply Qfloor_resp_le. lra.
  - exfalso; lra.
  - pose proof (Qfloor_resp_le 0 (y + (1 # 2)) ltac:(lra)) as H1.
    pose proof (Qfloor_resp_le 0 (- x + (1 # 2)) ltac:(lra)) as H2.
    change (Qfloor 0) with 0%Z in *. lia.
  - pose proof (Qfloor_resp_le (- y + (1 # 2)) (- x + (1 # 2)) ltac:(lra)). lia.
Qed.

(** An [i64] never overflows the range of [f64]. *)
Lemma rnd_i64_bound z : in_i64 z -> - 2 ^ 63 <= rnd (inject_Z z) <= 2 ^ 63.
Proof.
  unfold in_i64, i64_min, i64_max. intros [H1 H2].
  assert (Hr : repr (2 ^ 63)).
  { exists 1%Z, 63%Z. split_and!; [by rewrite Qmult_1_l | done | done]. }
  split.
  - rewrite <- (rnd_repr _ (repr_opp _ Hr)). apply rnd_mono.
    rewrite (pow2_int 63) by lia. rewrite <- inject_Z_opp, <- Zle_Qle. lia.
  - rewrite <- (rnd_repr _ Hr). apply rnd_mono.
    rewrite (pow2_int 63) by lia. rewrite <- Zle_Qle. lia.
Qed.

Lemma f64_of_i64_fin z : in_i64 z -> f64_of_i64 z = Fin (rnd (inject_Z z)).
Proof.
  intros Hz. destruct (rnd_i64_bound z Hz) as [H1 H2]. unfold f64_of_i64, f64_of_Q.
  pose proof (Qpower_lt_compat_l 2 63 1024 ltac:(lia) ltac:(lra)).
  destruct (Qle_bool (2 ^ 1024) (rnd (inject_Z z))) eqn:E1; [qbool; exfalso; lra|].
  destruct (Qle_bool (rnd (inject_Z z)) (- 2 ^ 1024)) eqn:E2; [qbool; exfalso; lra|].
  done.
Qed.

Lemma rnd_nonneg q : 0 <= q -> 0 <= rnd q.
Proof. intros H. pose proof (rnd_mono 0 q H) as H1. by rewrite (rnd_zero 0) in H1. Qed.

Lemma f64_of_Q_cases q :
  0 <= q -> f64_of_Q q = Inf false \/ (f64_of_Q q = Fin (rnd q) /\ 0 <= rnd q /\ repr (rnd q)).
Proof.
  intros Hq. pose proof (rnd_nonneg q Hq). pose proof (pow2_pos 1024). unfold f64_of_Q.
  destruct (Qle_bool (2 ^ 1024) (rnd q)); [by left|]. right.
  destruct (Qle_bool (rnd q) (- 2 ^ 1024)) eqn:E; [qbool; exfalso; lra|].
  split_and!; [done | done | apply repr_rnd].
Qed.

Example f64_dec_zero : f64_dec 0 1 = Fin 0.
Proof. vm_compute. reflexivity. Qed.

(** ** Well-formed values

    A finite value is kept in lowest terms and is representable, so that
    equal numbers are the same term. *)
Definition f64_wf (a : f64) : Prop :=
  match a with
  | Fin q => Qred q = q /\ repr q /\ - 2 ^ 1024 < q < 2 ^ 1024
  | _ => True
  end.

Lemma Qred_opp q : Qred q = q -> Qred (- q) = - q.
Proof.
  intros E. rewrite <- E at 2.
  destruct q as [n d]. unfold Qopp, Qred in *. simpl in *.
  pose proof (Z.ggcd_opp n (Zpos d)) as H.
  destruct (Z.ggcd n (Zpos d)) as (g & aa & bb). by rewrite H.
Qed.

Lemma Qred_idem q : Qred (Qred q) = Qred q.
Proof. apply Qred_complete, Qred_correct. Qed.

Lemma rnd_reduced q : Qred (rnd q) = rnd q.
Proof.
  unfold rnd. destruct (Qcompare q 0); [done | | apply Qred_idem].
  apply Qred_opp, Qred_idem.
Qed.

Lemma f64_of_Q_wf q : f64_wf (f64_of_Q q).
Proof.
  unfold f64_of_Q.
  destruct (Qle_bool (2 ^ 1024) (rnd q)) eqn:E1; [done|].
  destruct (Qle_bool (rnd q) (- 2 ^ 1024)) eqn:E2; [done|].
  qbool. split_and!; [apply rnd_reduced | apply repr_rnd | done | done].
Qed.

Lemma f64_wf_eq x y : f64_wf (Fin x) -> f64_wf (Fin y) -> x == y -> x = y.
Proof. intros [Hx _] [Hy _] E. rewrite <- Hx, <- Hy. by apply Qred_complete. Qed.

Lemma f64_mul_wf a b : f64_wf (f64_mul a b).
Proof. destruct a, b; simpl; try case_match; try done; apply f64_of_Q_wf. Qed.

Lemma f64_add_wf a b : f64_wf (f64_add a b).
Proof. destruct a, b; simpl; try case_match; try done; apply f64_of_Q_wf. Qed.

Lemma f64_div_wf a b : f64_wf (f64_div a b).
Proof.
  destruct a, b; cbn [f64_div]; repeat case_match; try done; try apply f64_of_Q_wf.
  split_and!; [done | by apply (repr_int 0) | ..];
    pose proof (pow2_pos 1024); lra.
Qed.
#[export] Hint Resolve f64_of_Q_wf f64_mul_wf f64_add_wf f64_div_wf : mostro.

(** ** Accuracy of one rounding *)

Lemma rne_err q : Qabs (inject_Z (rne q) - q) <= 1 # 2.
Proof.
  pose proof (Qfloor_le q) as H1. pose proof (Qlt_floor q) as H2.
  rewrite inject_Z_plus in H2. change (inject_Z 1) with 1 in H2.
  apply Qabs_Qle_condition. unfold rne.
  destruct (Qcompare_spec (q - inject_Z (Qfloor q)) (1 # 2)); [destruct (Z.even _)|..];
    rewrite ?inject_Z_plus; change (inject_Z 1) with 1; lra.
Qed.

Lemma rnd_pos_err q : 0 < q -> Qabs (rnd_pos q - q) <= q * 2 ^ (-53) + 2 ^ (-1074).
Proof.
  intros Hq. unfold rnd_pos. set (e := ulp_exp q).
  assert (E : inject_Z (rne (q * 2 ^ (- e))) * 2 ^ e - q ==
              (inject_Z (rne (q * 2 ^ (- e))) - q * 2 ^ (- e)) * 2 ^ e).
  { pose proof (scale_unscale q e). lra. }
  rewrite E, Qabs_Qmult. pose proof (pow2_pos e) as He.
  rewrite (Qabs_pos (2 ^ e)) by lra.
  apply Qle_trans with ((1 # 2) * 2 ^ e).
  { apply Qmult_le_compat_r; [apply rne_err | lra]. }
  pose proof (pow2_pos (-1074)). pose proof (pow2_pos (-53)).
  destruct (Z.max_spec (qlog2 q - 52) (-1074)) as [[_ Hm]|[_ Hm]];
    unfold e, ulp_exp; rewrite Hm.
  - assert (0 <= q * 2 ^ (-53)) by (apply Qmult_le_0_compat; lra). lra.
  - destruct (qlog2_spec q Hq) as [Hl _].
    assert (E2 : (1 # 2) * 2 ^ (qlog2 q - 52) == 2 ^ (qlog2 q) * 2 ^ (-53)).
    { change (1 # 2) with (2 ^ (-1)). rewrite <- !pow2_add.
      by replace (-1 + (qlog2 q - 52))%Z with (qlog2 q + -53)%Z by lia. }
    rewrite E2.
    assert (2 ^ qlog2 q * 2 ^ (-53) <= q * 2 ^ (-53)) by (apply Qmult_le_compat_r; lra).
    lra.
Qed.

(** Rounding errs by at most one part in 2^53, or the subnormal unit. *)
Lemma rnd_err q : 0 <= q -> Qabs (rnd q - q) <= q * 2 ^ (-53) + 2 ^ (-1074).
Proof.
  intros Hq. pose proof (pow2_pos (-1074)).
  destruct (Qcompare_spec q 0) as [E|Hlt|Hgt]; [|exfalso; lra|].
  - rewrite (rnd_zero q E), E. unfold Qabs. simpl. done.
  - rewrite rnd_gt by done. by apply rnd_pos_err.
Qed.

(** A value that rounds below the overflow threshold stays finite. *)
Lemma f64_of_Q_fin q : 0 <= q -> q <= 2 ^ 1023 -> f64_of_Q q = Fin (rnd q).
Proof.
  intros H0 H1. pose proof (rnd_nonneg q H0) as Hn.
  assert (Hr : repr (2 ^ 1023)).
  { exists 1%Z, 1023%Z. split_and!; [by rewrite Qmult_1_l | done | done]. }
  apply rnd_mono in H1. rewrite (rnd_repr _ Hr) in H1.
  pose proof (Qpower_lt_compat_l 2 1023 1024 ltac:(lia) ltac:(lra)).
  pose proof (pow2_pos 1024). unfold f64_of_Q.
  destruct (Qle_bool (2 ^ 1024) (rnd q)) eqn:E1; [qbool; exfalso; lra|].
  destruct (Qle_bool (rnd q) (- 2 ^ 1024)) eqn:E2; [qbool; exfalso; lra|].
  done.
Qed.

(** A check of well-formedness: rounding leaves the value alone. *)
Definition f64_wfb (a : f64) : bool :=
  match a with
  | Fin q =>
      Z.eqb (Qnum (Qred q)) (Qnum q) && Pos.eqb (Qden (Qred q)) (Qden q) &&
      Qeq_bool (rnd q) q && Qltb (- 2 ^ 1024) q && Qltb q (2 ^ 1024)
  | _ => true
  end.

Lemma f64_wfb_sound a : f64_wfb a = true -> f64_wf a.
Proof.
  destruct a as [|s|q]; [done..|]. unfold f64_wfb, f64_wf.
  intros [[[[H1%Z.eqb_eq H2%Pos.eqb_eq]%andb_true_iff H3%Qeq_bool_iff]%andb_true_iff
    H4]%andb_true_iff H5]%andb_true_iff.
  qbool. split_and!; [|rewrite <- H3; apply repr_rnd|done|done].
  destruct (Qred q), q. simpl in *. by subst.
Qed.
