(* ===== verification/Effects.v ===== *)
(** * Handlers as effect trees, and their interleavings

    A handler or background job of the daemon is an [async fn]: a sequence of
    atomic interactions (one SQL statement or transaction, one call to an
    external service, one read of the clock) separated by [.await] points at
    which any other task may run.  [prog] is the tree of those interactions;
    between two of them nothing is assumed about the database.

    - [run] executes a program alone, against a fixed environment that decides
      every external answer and every SQL failure from the history so far;
    - [sys_step] interleaves the scheduler and any number of handlers, one
      interaction at a time, with arbitrary answers allowed by a [law] on the
      history, and with crashes;
    - [wp] is the rely/guarantee specification of a program: every
      interaction it performs satisfies its guarantee whatever the other tasks
      did in between; [sys_safe] lifts it to all interleavings. *)

From S2P Require Import Prelude.

Section Programs.
(** The database state and the family of external requests, indexed by the
    type of their answer. *)
Context {DB : Type} {ext : Type -> Type}.

Inductive prog (A : Type) : Type :=
| Ret (a : A)
| Sql {R : Type} (stmt : DB -> DB * R) (k : result R string -> prog A)
| Ext {R : Type} (e : ext R) (k : R -> prog A).
Arguments Ret {A} _.
Arguments Sql {A R} _ _.
Arguments Ext {A R} _ _.

Fixpoint bind {A B} (p : prog A) (f : A -> prog B) : prog B :=
  match p with
  | Ret a => f a
  | Sql stmt k => Sql stmt (fun r => bind (k r) f)
  | Ext e k => Ext e (fun r => bind (k r) f)
  end.

Definition sql {R} (stmt : DB -> DB * R) : prog (result R string) := Sql stmt Ret.
Definition call {R} (e : ext R) : prog R := Ext e Ret.

(** Rust's [?] operator. *)
Definition try {A B E} (p : prog (result A E)) (f : A -> prog (result B E)) :
    prog (result B E) :=
  bind p (fun r => match r with Ok v => f v | Err e => Ret (Err e) end).

(** A [for] loop whose body cannot leave it. *)
Fixpoint for_each {X} (l : list X) (body : X -> prog unit) : prog unit :=
  match l with
  | [] => Ret tt
  | x :: l' => bind (body x) (fun _ => for_each l' body)
  end.

(** A loop carrying an accumulator whose body may leave with [?]. *)
Fixpoint try_fold {X S E} (l : list X) (s : S) (body : S -> X -> prog (result S E)) :
    prog (result S E) :=
  match l with
  | [] => Ret (Ok s)
  | x :: l' => try (body s x) (fun s' => try_fold l' s' body)
  end.

(** ** Observations and sequential execution *)

Inductive obs : Type :=
| ObsSql {R : Type} (stmt : DB -> DB * R) (r : result R string)
| ObsExt {R : Type} (e : ext R) (r : R).

(** Newest first. *)
Abbreviation trace := (list obs).

Record Env : Type := mkEnv {
  sql_error : trace -> option string;
  answer : forall R, ext R -> trace -> R
}.

Fixpoint run {A} (env : Env) (p : prog A) (db : DB) (tr : trace) : A * DB * trace :=
  match p with
  | Ret a => (a, db, tr)
  | Sql stmt k =>
      match sql_error env tr with
      | Some e => run env (k (Err e)) db (ObsSql stmt (Err e) :: tr)
      | None =>
          let '(db', r) := stmt db in
          run env (k (Ok r)) db' (ObsSql stmt (Ok r) :: tr)
      end
  | Ext e k =>
      let r := answer env _ e tr in run env (k r) db (ObsExt e r :: tr)
  end.

Definition run_val {A} env (p : prog A) db tr : A := (run env p db tr).1.1.
Definition run_db {A} env (p : prog A) db tr : DB := (run env p db tr).1.2.
Definition run_trace {A} env (p : prog A) db tr : trace := (run env p db tr).2.

Lemma run_bind {A B} env (p : prog A) (f : A -> prog B) db tr :
  run env (bind p f) db tr =
  let '(a, db', tr') := run env p db tr in run env (f a) db' tr'.
Proof.
  revert db tr. induction p as [a|R stmt k IH|R e k IH]; intros db tr; simpl.
  - done.
  - destruct (sql_error env tr); [apply IH|]. destruct (stmt db). apply IH.
  - apply IH.
Qed.

(** ** Interleaving *)

Inductive pstep {A} : prog A -> DB -> obs -> prog A -> DB -> Prop :=
| pstep_sql R (stmt : DB -> DB * R) k db :
    pstep (Sql stmt k) db (ObsSql stmt (Ok (stmt db).2)) (k (Ok (stmt db).2)) (stmt db).1
| pstep_sql_err R (stmt : DB -> DB * R) k db e :
    pstep (Sql stmt k) db (ObsSql stmt (Err e)) (k (Err e)) db
| pstep_ext R (e : ext R) k db r :
    pstep (Ext e k) db (ObsExt e r) (k r) db.

(** The daemon: one background scheduler, the handlers in flight, the
    database and the history of everything that happened. *)
Record Sys : Type := mkSys {
  sched : prog unit;
  threads : list (prog unit);
  s_db : DB;
  s_trace : trace
}.

(** Handlers come from [tasks] and may start at any time; the outside world
    may answer anything [law] permits; a crash drops every task at its
    current [.await] and restarts the scheduler. *)
Inductive sys_step (tasks scheds : prog unit -> Prop) (law : trace -> Prop) :
    Sys -> Sys -> Prop :=
| sys_spawn sc ts db tr p :
    tasks p ->
    sys_step tasks scheds law (mkSys sc ts db tr) (mkSys sc (ts ++ [p]) db tr)
| sys_thread sc ts db tr i p o p' db' :
    ts !! i = Some p -> pstep p db o p' db' -> law (o :: tr) ->
    sys_step tasks scheds law (mkSys sc ts db tr) (mkSys sc (<[i:=p']> ts) db' (o :: tr))
| sys_sched sc ts db tr o sc' db' :
    pstep sc db o sc' db' -> law (o :: tr) ->
    sys_step tasks scheds law (mkSys sc ts db tr) (mkSys sc' ts db' (o :: tr))
| sys_crash sc ts db tr sc' :
    scheds sc' ->
    sys_step tasks scheds law (mkSys sc ts db tr) (mkSys sc' [] db tr).

(** ** A program run alone is one interleaving *)

Lemma run_trace_suffix {A} env (p : prog A) db tr :
  exists l, run_trace env p db tr = (l ++ tr)%list.
Proof.
  unfold run_trace. revert db tr.
  induction p as [a|R stmt k IH|R e k IH]; intros db tr; cbn [run].
  - by exists [].
  - destruct (sql_error env tr) as [e|].
    + destruct (IH (Err e) db (ObsSql stmt (Err e) :: tr)) as [l ->].
      exists (l ++ [ObsSql stmt (Err e)])%list. by rewrite <- app_assoc.
    + destruct (stmt db) as [db' r].
      destruct (IH (Ok r) db' (ObsSql stmt (Ok r) :: tr)) as [l ->].
      exists (l ++ [ObsSql stmt (Ok r)])%list. by rewrite <- app_assoc.
  - destruct (IH (answer env _ e tr) db (ObsExt e (answer env _ e tr) :: tr)) as [l ->].
    eexists (l ++ [_])%list. by rewrite <- app_assoc.
Qed.

Section RunAlone.
Context (tasks scheds : prog unit -> Prop) (law : trace -> Prop).
Hypothesis law_suffix : forall l tr, law (l ++ tr)%list -> law tr.

Lemma law_of_run {A} env (p : prog A) db tr : law (run_trace env p db tr) -> law tr.
Proof. destruct (run_trace_suffix env p db tr) as [l ->]. apply law_suffix. Qed.

Lemma run_thread env p : forall sc ts i db tr,
  ts !! i = Some p -> law (run_trace env p db tr) ->
  rtc (sys_step tasks scheds law) (mkSys sc ts db tr)
    (mkSys sc (<[i := Ret tt]> ts) (run_db env p db tr) (run_trace env p db tr)).
Proof.
  unfold run_db. induction p as [a|R stmt k IH|R e k IH]; intros sc ts i db tr Hi Hl.
  - destruct a. rewrite list_insert_id by done. done.
  - assert (Hlen : (i < length ts)%nat) by (by eapply lookup_lt_Some).
    unfold run_trace in *. cbn [run] in *. destruct (sql_error env tr) as [e|].
    + eapply rtc_l.
      * apply (sys_thread _ _ _ sc ts db tr i _ _ _ _ Hi (pstep_sql_err _ stmt k db e)).
        by apply law_of_run in Hl.
      * rewrite <- (list_insert_insert_eq ts i (Ret tt) (k (Err e))).
        apply IH; [by apply list_lookup_insert_eq|done].
    + pose proof (pstep_sql _ stmt k db) as Hstep. destruct (stmt db) as [db' r].
      eapply rtc_l.
      * apply (sys_thread _ _ _ sc ts db tr i _ _ _ _ Hi Hstep). by apply law_of_run in Hl.
      * rewrite <- (list_insert_insert_eq ts i (Ret tt) (k (Ok r))).
        apply IH; [by apply list_lookup_insert_eq|done].
  - assert (Hlen : (i < length ts)%nat) by (by eapply lookup_lt_Some).
    unfold run_trace in *. cbn [run] in *. eapply rtc_l.
    + apply (sys_thread _ _ _ sc ts db tr i _ _ _ _ Hi (pstep_ext _ e k db (answer env _ e tr))).
      by apply law_of_run in Hl.
    + rewrite <- (list_insert_insert_eq ts i (Ret tt) (k (answer env _ e tr))).
      apply IH; [by apply list_lookup_insert_eq|done].
Qed.

(** Start a task and run it to its end. *)
Lemma run_task env p sc ts db tr :
  tasks p -> law (run_trace env p db tr) ->
  rtc (sys_step tasks scheds law) (mkSys sc ts db tr)
    (mkSys sc (ts ++ [Ret tt])%list (run_db env p db tr) (run_trace env p db tr)).
Proof.
  intros Hp Hl. eapply rtc_l; [by apply sys_spawn|].
  pose proof (run_thread env p sc (ts ++ [p]) (length ts) db tr) as Hr.
  rewrite insert_app_r_alt, Nat.sub_diag in Hr by lia. apply Hr; [|done].
  rewrite lookup_app_r, Nat.sub_diag by lia. done.
Qed.

Lemma run_sched env p : forall ts db tr,
  law (run_trace env p db tr) ->
  rtc (sys_step tasks scheds law) (mkSys p ts db tr)
    (mkSys (Ret tt) ts (run_db env p db tr) (run_trace env p db tr)).
Proof.
  unfold run_db. induction p as [a|R stmt k IH|R e k IH]; intros ts db tr Hl.
  - by destruct a.
  - unfold run_trace in *. cbn [run] in *. destruct (sql_error env tr) as [e|].
    + eapply rtc_l; [|by apply IH].
      apply (sys_sched _ _ _ _ ts db tr _ _ _ (pstep_sql_err _ stmt k db e)).
      by apply law_of_run in Hl.
    + pose proof (pstep_sql _ stmt k db) as Hstep. destruct (stmt db) as [db' r].
      eapply rtc_l; [|by apply IH].
      apply (sys_sched _ _ _ _ ts db tr _ _ _ Hstep). by apply law_of_run in Hl.
  - unfold run_trace in *. cbn [run] in *. eapply rtc_l; [|by apply IH].
    apply (sys_sched _ _ _ _ ts db tr _ _ _ (pstep_ext _ e k db (answer env _ e tr))).
    by apply law_of_run in Hl.
Qed.

(** The first [n] interactions of a task, and what is left of it. *)
Fixpoint advance {A} (env : Env) (n : nat) (p : prog A) (db : DB) (tr : trace) :
    prog A * DB * trace :=
  match n, p with
  | S n', Sql stmt k =>
      match sql_error env tr with
      | Some e => advance env n' (k (Err e)) db (ObsSql stmt (Err e) :: tr)
      | None =>
          let '(db', r) := stmt db in
          advance env n' (k (Ok r)) db' (ObsSql stmt (Ok r) :: tr)
      end
  | S n', Ext e k =>
      let r := answer env _ e tr in advance env n' (k r) db (ObsExt e r :: tr)
  | _, _ => (p, db, tr)
  end.

Lemma advance_suffix {A} env n (p : prog A) db tr :
  exists l, (advance env n p db tr).2 = (l ++ tr)%list.
Proof.
  revert p db tr. induction n as [|n IH]; intros p db tr; [by exists []|].
  assert (forall (q : prog A) d o, exists l, (advance env n q d (o :: tr)).2 = (l ++ tr)%list) as Hs.
  { intros q d o. destruct (IH q d (o :: tr)) as [l ->]. exists (l ++ [o])%list.
    by rewrite <- app_assoc. }
  destruct p as [a|R stmt k|R e k]; cbn [advance]; [by exists []| |apply Hs].
  destruct (sql_error env tr); [apply Hs|]. destruct (stmt db). apply Hs.
Qed.

Lemma advance_thread env n : forall p sc ts i db tr,
  ts !! i = Some p -> law (advance env n p db tr).2 ->
  rtc (sys_step tasks scheds law) (mkSys sc ts db tr)
    (mkSys sc (<[i := (advance env n p db tr).1.1]> ts)
       (advance env n p db tr).1.2 (advance env n p db tr).2).
Proof.
  induction n as [|n IH]; intros p sc ts i db tr Hi Hl; [by rewrite list_insert_id|].
  assert (Hlen : (i < length ts)%nat) by (by eapply lookup_lt_Some).
  assert (forall q d o, pstep p db o q d -> law (advance env n q d (o :: tr)).2 ->
    rtc (sys_step tasks scheds law) (mkSys sc ts db tr)
      (mkSys sc (<[i := (advance env n q d (o :: tr)).1.1]> ts)
         (advance env n q d (o :: tr)).1.2 (advance env n q d (o :: tr)).2)) as Hs.
  { intros q d o Hq Hlq. eapply rtc_l.
    - apply (sys_thread _ _ _ sc ts db tr i p o q d Hi Hq).
      destruct (advance_suffix env n q d (o :: tr)) as [l E]. rewrite E in Hlq. by apply law_suffix in Hlq.
    - pose proof (IH q sc (<[i:=q]> ts) i d (o :: tr) (list_lookup_insert_eq ts i q Hlen) Hlq) as Hr.
      by rewrite list_insert_insert_eq in Hr. }
  destruct p as [a|R stmt k|R e k]; cbn [advance] in Hl |- *; [by rewrite list_insert_id| |].
  - destruct (sql_error env tr) as [e|]; [by apply (Hs _ _ _ (pstep_sql_err _ stmt k db e))|].
    pose proof (pstep_sql _ stmt k db) as Hq. destruct (stmt db) as [d r]. by apply (Hs _ _ _ Hq).
  - by apply (Hs _ _ _ (pstep_ext _ e k db (answer env _ e tr))).
Qed.

(** The same of the scheduler. *)
Lemma advance_sched env n : forall p ts db tr,
  law (advance env n p db tr).2 ->
  rtc (sys_step tasks scheds law) (mkSys p ts db tr)
    (mkSys (advance env n p db tr).1.1 ts (advance env n p db tr).1.2 (advance env n p db tr).2).
Proof.
  induction n as [|n IH]; intros p ts db tr Hl; [done|].
  assert (forall q d o, pstep p db o q d -> law (advance env n q d (o :: tr)).2 ->
    rtc (sys_step tasks scheds law) (mkSys p ts db tr)
      (mkSys (advance env n q d (o :: tr)).1.1 ts
         (advance env n q d (o :: tr)).1.2 (advance env n q d (o :: tr)).2)) as Hs.
  { intros q d o Hq Hlq. eapply rtc_l; [|by apply IH]. apply (sys_sched _ _ _ p ts db tr o q d Hq).
    destruct (advance_suffix env n q d (o :: tr)) as [l E]. rewrite E in Hlq. by apply law_suffix in Hlq. }
  destruct p as [a|R stmt k|R e k]; cbn [advance] in Hl |- *; [done| |].
  - destruct (sql_error env tr) as [e|]; [by apply (Hs _ _ _ (pstep_sql_err _ stmt k db e))|].
    pose proof (pstep_sql _ stmt k db) as Hq. destruct (stmt db) as [d r]. by apply (Hs _ _ _ Hq).
  - by apply (Hs _ _ _ (pstep_ext _ e k db (answer env _ e tr))).
Qed.
End RunAlone.

(** ** Rely/guarantee specifications *)

Abbreviation assertion := (trace -> DB -> Prop).
Abbreviation transition := (trace -> DB -> obs -> DB -> Prop).

(** What a task and the rest of the daemon agree on: the behaviour of the
    outside world, the shared invariant, the steps the others may take and
    the steps the task itself may take. *)
Record Spec : Type := mkSpec {
  law : trace -> Prop;
  inv : assertion;
  rely : transition;
  guar : transition
}.

(** [K] survives every step of [T]. *)
Definition kept (S : Spec) (T : transition) (K : assertion) : Prop :=
  forall tr db o db',
    inv S tr db -> law S (o :: tr) -> T tr db o db' -> K tr db -> K (o :: tr) db'.

(** An assertion the other tasks cannot falsify. *)
Definition stable (S : Spec) (K : assertion) : Prop := kept S (rely S) K.

(** The same agreement for a task that restricts its own steps to [T]. *)
Definition restrict (S : Spec) (T : transition) : Spec :=
  mkSpec (law S) (inv S) (rely S) (fun tr db o db' => guar S tr db o db' /\ T tr db o db').

Section Wp.
Context (S : Spec).

Lemma kept_and T K F :
  kept S T K -> kept S T F -> kept S T (fun tr db => K tr db /\ F tr db).
Proof. intros HK HF tr db o db' Hv Hl Hr [H1 H2]. split; [by eapply HK | by eapply HF]. Qed.

Lemma kept_pure T (Q : Prop) : kept S T (fun _ _ => Q).
Proof. by intros tr db o db' _ _ _. Qed.

Lemma kept_all {X} T (K : X -> assertion) :
  (forall x, kept S T (K x)) -> kept S T (fun tr db => forall x, K x tr db).
Proof. intros HK tr db o db' Hv Hl Hr H x. eapply HK; eauto. Qed.

Lemma kept_impl T (Q : Prop) K : kept S T K -> kept S T (fun tr db => Q -> K tr db).
Proof. intros HK tr db o db' Hv Hl Hr H HQ. eapply HK; eauto. Qed.

Lemma kept_obs T o : kept S T (fun tr _ => In o tr).
Proof. intros tr db o' db' _ _ _ H. by right. Qed.
End Wp.

(** [wp S K p Post]: a task that knows [K] and continues as [p] keeps the
    agreement whatever the other tasks do in between, and what it returns
    satisfies [Post].  After each interaction the task knows some stable
    [K'] that the answer justifies. *)
Fixpoint wp {A} (S : Spec) (K : assertion) (p : prog A) (Post : A -> assertion) : Prop :=
  match p with
  | Ret a => forall tr db, inv S tr db -> K tr db -> Post a tr db
  | Sql stmt k =>
      (forall r, exists K', stable S K' /\
         (forall tr db, inv S tr db -> K tr db -> (stmt db).2 = r ->
            law S (ObsSql stmt (Ok r) :: tr) ->
            guar S tr db (ObsSql stmt (Ok r)) (stmt db).1 /\
            K' (ObsSql stmt (Ok r) :: tr) (stmt db).1) /\
         wp S K' (k (Ok r)) Post) /\
      (forall e, exists K', stable S K' /\
         (forall tr db, inv S tr db -> K tr db -> law S (ObsSql stmt (Err e) :: tr) ->
            guar S tr db (ObsSql stmt (Err e)) db /\ K' (ObsSql stmt (Err e) :: tr) db) /\
         wp S K' (k (Err e)) Post)
  | Ext e k =>
      forall r, exists K', stable S K' /\
        (forall tr db, inv S tr db -> K tr db -> law S (ObsExt e r :: tr) ->
           guar S tr db (ObsExt e r) db /\ K' (ObsExt e r :: tr) db) /\
        wp S K' (k r) Post
  end.

Section Rules.
Context (S : Spec).

(** Consequence. *)
Lemma wp_mono {A} (K K' : assertion) (p : prog A) (Post Post' : A -> assertion) :
  (forall tr db, inv S tr db -> K' tr db -> K tr db) ->
  (forall a tr db, inv S tr db -> Post a tr db -> Post' a tr db) ->
  wp S K p Post -> wp S K' p Post'.
Proof.
  intros HK HP. revert K K' HK.
  induction p as [a|R stmt k IH|R e k IH]; intros K K' HK; simpl.
  - intros H tr db Hv HK'. apply HP, H; auto.
  - intros (H1 & H2). split; intros r.
    + destruct (H1 r) as (K2 & Hs & HL & Hw). exists K2. split_and!; eauto.
    + destruct (H2 r) as (K2 & Hs & HL & Hw). exists K2. split_and!; eauto.
  - intros H1 r. destruct (H1 r) as (K2 & Hs & HL & Hw). exists K2. split_and!; eauto.
Qed.

Lemma wp_post {A} (K : assertion) (p : prog A) (Post Post' : A -> assertion) :
  (forall a tr db, inv S tr db -> Post a tr db -> Post' a tr db) ->
  wp S K p Post -> wp S K p Post'.
Proof. apply wp_mono. auto. Qed.

Lemma wp_pre {A} (K K' : assertion) (p : prog A) (Post : A -> assertion) :
  (forall tr db, inv S tr db -> K' tr db -> K tr db) -> wp S K p Post -> wp S K' p Post.
Proof. intros H. apply wp_mono; auto. Qed.

Lemma wp_ret {A} (K : assertion) (a : A) (Post : A -> assertion) :
  (forall tr db, inv S tr db -> K tr db -> Post a tr db) -> wp S K (Ret a) Post.
Proof. done. Qed.

Lemma wp_bind {A B} K (p : prog A) (f : A -> prog B) (Mid : A -> assertion) Post :
  wp S K p Mid -> (forall a, wp S (Mid a) (f a) Post) -> wp S K (bind p f) Post.
Proof.
  intros Hp Hf. revert K Hp.
  induction p as [a|R stmt k IH|R e k IH]; intros K; simpl.
  - intros H. eapply wp_pre; [|apply Hf]. exact H.
  - intros (H1 & H2). split; intros r.
    + destruct (H1 r) as (K2 & Hs & HL & Hw). exists K2. auto.
    + destruct (H2 r) as (K2 & Hs & HL & Hw). exists K2. auto.
  - intros H1 r. destruct (H1 r) as (K2 & Hs & HL & Hw). exists K2. auto.
Qed.

Lemma wp_try {A B E} K (p : prog (result A E)) (f : A -> prog (result B E))
    (Mid : A -> assertion) (Post : result B E -> assertion) :
  wp S K p (fun r tr db =>
    match r with Ok v => Mid v tr db | Err e => Post (Err e) tr db end) ->
  (forall v, wp S (Mid v) (f v) Post) -> wp S K (try p f) Post.
Proof.
  intros Hp Hf. eapply wp_bind; [exact Hp|]. intros [v|e]; simpl; auto.
Qed.

Lemma wp_union {A X} (K : X -> assertion) (p : prog A) (Post : A -> assertion) :
  (forall x, wp S (K x) p Post) -> wp S (fun tr db => exists x, K x tr db) p Post.
Proof.
  revert X K. induction p as [a|R stmt k IH|R e k IH]; intros X K Hw; simpl in *.
  - intros tr db Hv [x Hx]. by eapply Hw.
  - split; intros r.
    + exists (fun tr db => exists K0 : {K0 | stable S K0 /\ wp S K0 (k (Ok r)) Post}, `K0 tr db).
      split_and!; [intros tr db o db' Hv Hl Hg [[K0 [Hs Hw0]] H0];
                   exists (exist _ K0 (conj Hs Hw0)); by eapply Hs| |apply IH; by intros [K0 []]].
      intros tr db Hv [x Hx] Er Hl. destruct (Hw x) as [H1 _].
      destruct (H1 r) as (K0 & Hs & HL & Hw0). destruct (HL tr db Hv Hx Er Hl). split; [done|].
      by exists (exist _ K0 (conj Hs Hw0)).
    + exists (fun tr db => exists K0 : {K0 | stable S K0 /\ wp S K0 (k (Err r)) Post}, `K0 tr db).
      split_and!; [intros tr db o db' Hv Hl Hg [[K0 [Hs Hw0]] H0];
                   exists (exist _ K0 (conj Hs Hw0)); by eapply Hs| |apply IH; by intros [K0 []]].
      intros tr db Hv [x Hx] Hl. destruct (Hw x) as [_ H1].
      destruct (H1 r) as (K0 & Hs & HL & Hw0). destruct (HL tr db Hv Hx Hl). split; [done|].
      by exists (exist _ K0 (conj Hs Hw0)).
  - intros r.
    exists (fun tr db => exists K0 : {K0 | stable S K0 /\ wp S K0 (k r) Post}, `K0 tr db).
    split_and!; [intros tr db o db' Hv Hl Hg [[K0 [Hs Hw0]] H0];
                 exists (exist _ K0 (conj Hs Hw0)); by eapply Hs| |apply IH; by intros [K0 []]].
    intros tr db Hv [x Hx] Hl. destruct (Hw x r) as (K0 & Hs & HL & Hw0).
    destruct (HL tr db Hv Hx Hl). split; [done|]. by exists (exist _ K0 (conj Hs Hw0)).
Qed.

(** A fact about no state moves to the context. *)
Lemma wp_fact {A} (Q : Prop) K (p : prog A) (Post : A -> assertion) :
  (Q -> wp S K p Post) -> wp S (fun tr db => Q /\ K tr db) p Post.
Proof.
  intros Hw. eapply wp_pre; [|apply (wp_union (fun _ : Q => K)); exact Hw].
  intros tr db _ [HQ HK]. by exists HQ.
Qed.

(** What the task knows, and neither the others nor its own steps falsify,
    survives. *)
Lemma wp_frame {A} (K F : assertion) (p : prog A) (Post : A -> assertion) :
  stable S F -> kept S (guar S) F -> wp S K p Post ->
  wp S (fun tr db => K tr db /\ F tr db) p (fun a tr db => Post a tr db /\ F tr db).
Proof.
  intros HF HG. revert K.
  induction p as [a|R stmt k IH|R e k IH]; intros K; simpl.
  - intros H tr db Hv [HK Hf]. auto.
  - intros (H1 & H2). split; intros r.
    + destruct (H1 r) as (K2 & Hs & HL & Hw). exists (fun tr db => K2 tr db /\ F tr db).
      split_and!; [by apply kept_and| |by apply IH].
      intros tr db Hv [HK Hf] Hr Hl. destruct (HL tr db Hv HK Hr Hl) as [Hg HK2].
      split_and!; [done|done|]. by eapply HG.
    + destruct (H2 r) as (K2 & Hs & HL & Hw). exists (fun tr db => K2 tr db /\ F tr db).
      split_and!; [by apply kept_and| |by apply IH].
      intros tr db Hv [HK Hf] Hl. destruct (HL tr db Hv HK Hl) as [Hg HK2].
      split_and!; [done|done|]. by eapply HG.
  - intros H1 r. destruct (H1 r) as (K2 & Hs & HL & Hw).
    exists (fun tr db => K2 tr db /\ F tr db).
    split_and!; [by apply kept_and| |by apply IH].
    intros tr db Hv [HK Hf] Hl. destruct (HL tr db Hv HK Hl) as [Hg HK2].
    split_and!; [done|done|]. by eapply HG.
Qed.

(** One statement: the task keeps a framed [K] and learns [L r] from the
    answer. *)
Lemma wp_sql {R} (stmt : DB -> DB * R) K (Post : result R string -> assertion) :
  (forall r, stable S (Post r)) ->
  (forall tr db, inv S tr db -> K tr db -> law S (ObsSql stmt (Ok (stmt db).2) :: tr) ->
     guar S tr db (ObsSql stmt (Ok (stmt db).2)) (stmt db).1 /\
     Post (Ok (stmt db).2) (ObsSql stmt (Ok (stmt db).2) :: tr) (stmt db).1) ->
  (forall e tr db, inv S tr db -> K tr db -> law S (ObsSql stmt (Err e) :: tr) ->
     guar S tr db (ObsSql stmt (Err e)) db /\ Post (Err e) (ObsSql stmt (Err e) :: tr) db) ->
  wp S K (sql stmt) Post.
Proof.
  intros HP Hok Herr. simpl. split; intros r.
  - exists (Post (Ok r)). split_and!; [done| |done]. intros tr db Hv HK <- Hl. auto.
  - exists (Post (Err r)). split_and!; [done| |done]. intros tr db Hv HK Hl. auto.
Qed.

Lemma wp_call {R} (e : ext R) K (Post : R -> assertion) :
  (forall r, stable S (Post r)) ->
  (forall r tr db, inv S tr db -> K tr db -> law S (ObsExt e r :: tr) ->
     guar S tr db (ObsExt e r) db /\ Post r (ObsExt e r :: tr) db) ->
  wp S K (call e) Post.
Proof. intros HP H r. exists (Post r). split_and!; [done| |by simpl]. auto. Qed.

(** A loop: [K] of the elements still to come. *)
Lemma wp_for_each {X} (body : X -> prog unit) (K : list X -> assertion) l :
  (forall x l', wp S (K (x :: l')) (body x) (fun _ => K l')) ->
  wp S (K l) (for_each l body) (fun _ => K []).
Proof.
  intros Hb. induction l as [|x l IH]; simpl; [auto|].
  eapply (wp_bind _ _ _ (fun _ => K l)); [apply Hb|]. intros []. apply IH.
Qed.

Lemma wp_try_fold {X T E} (body : T -> X -> prog (result T E))
    (K : list X -> T -> assertion) (Post : result T E -> assertion) l s :
  (forall x l' s',
     wp S (K (x :: l') s') (body s' x)
        (fun r tr db => match r with Ok s'' => K l' s'' tr db | Err e => Post (Err e) tr db end)) ->
  (forall s' tr db, K [] s' tr db -> Post (Ok s') tr db) ->
  wp S (K l s) (try_fold l s body) Post.
Proof.
  intros Hb HP. revert s. induction l as [|x l IH]; intros s; simpl; [auto|].
  eapply wp_try; [apply Hb|]. intros s'. apply IH.
Qed.

Lemma wp_pstep {A} K (p : prog A) Post db o p' db' tr :
  stable S K -> wp S K p Post -> K tr db -> inv S tr db -> pstep p db o p' db' ->
  law S (o :: tr) ->
  guar S tr db o db' /\ exists K', stable S K' /\ K' (o :: tr) db' /\ wp S K' p' Post.
Proof.
  intros HsK Hw HK Hv Hs Hl. destruct Hs; simpl in Hw.
  - destruct Hw as (H1 & _). destruct (H1 (stmt db).2) as (K' & Hs' & HL & Hw).
    destruct (HL tr db Hv HK eq_refl Hl). eauto.
  - destruct Hw as (_ & H2). destruct (H2 e) as (K' & Hs' & HL & Hw).
    destruct (HL tr db Hv HK Hl). eauto.
  - destruct (Hw r) as (K' & Hs' & HL & Hw'). destruct (HL tr db Hv HK Hl). eauto.
Qed.
End Rules.

(** A task that restricts its own steps keeps the weaker agreement too. *)
Lemma wp_restrict {A} S T K (p : prog A) Post :
  wp (restrict S T) K p Post -> wp S K p Post.
Proof.
  revert K. induction p as [a|R stmt k IH|R e k IH]; intros K; simpl; [done|..].
  - intros (H1 & H2). split; intros r.
    + destruct (H1 r) as (K2 & Hs & HL & Hw). exists K2. split_and!; [done| |by apply IH].
      intros tr db Hv HK Hr Hl. destruct (HL tr db Hv HK Hr Hl) as [[? _] ?]. done.
    + destruct (H2 r) as (K2 & Hs & HL & Hw). exists K2. split_and!; [done| |by apply IH].
      intros tr db Hv HK Hl. destruct (HL tr db Hv HK Hl) as [[? _] ?]. done.
  - intros H1 r. destruct (H1 r) as (K2 & Hs & HL & Hw). exists K2.
    split_and!; [done| |by apply IH].
    intros tr db Hv HK Hl. destruct (HL tr db Hv HK Hl) as [[? _] ?]. done.
Qed.

(** ** From tasks to the whole daemon *)

Section Daemon.
Context (L : trace -> Prop) (I : assertion) (Gh Gs : transition).

(** Handlers interfere with everything; the scheduler is alone of its
    kind, so it only has to survive handlers. *)
Definition handler_spec : Spec :=
  mkSpec L I (fun tr db o db' => Gh tr db o db' \/ Gs tr db o db') Gh.
Definition sched_spec : Spec := mkSpec L I Gh Gs.

Definition anything : assertion := fun _ _ => True.

Context (tasks scheds : prog unit -> Prop).
Hypothesis inv_kept : kept handler_spec (rely handler_spec) I.
Hypothesis tasks_ok : forall p, tasks p -> wp handler_spec anything p (fun _ => anything).
Hypothesis scheds_ok : forall p, scheds p -> wp sched_spec anything p (fun _ => anything).

Definition knows (S : Spec) (tr : trace) (db : DB) (p : prog unit) : Prop :=
  exists K, stable S K /\ K tr db /\ wp S K p (fun _ => anything).

Definition sys_ok (s : Sys) : Prop :=
  I (s_trace s) (s_db s) /\
  knows sched_spec (s_trace s) (s_db s) (sched s) /\
  Forall (knows handler_spec (s_trace s) (s_db s)) (threads s).

Lemma fresh_knows S tr db p : wp S anything p (fun _ => anything) -> knows S tr db p.
Proof. intros Hw. exists anything. split_and!; [apply kept_pure|done|done]. Qed.

Lemma knows_step S tr db o db' p :
  knows S tr db p -> inv S tr db -> law S (o :: tr) -> rely S tr db o db' ->
  knows S (o :: tr) db' p.
Proof.
  intros (K & Hs & HK & Hw) Hv Hl Hr. exists K. split_and!; [done|by eapply Hs|done].
Qed.

Lemma sys_step_ok s s' :
  sys_ok s -> sys_step tasks scheds L s s' ->
  sys_ok s' /\ ((s_trace s' = s_trace s /\ s_db s' = s_db s) \/
                exists o, s_trace s' = o :: s_trace s /\ L (o :: s_trace s) /\
                          rely handler_spec (s_trace s) (s_db s) o (s_db s')).
Proof.
  intros (Hv & Hc & Ht) Hs.
  destruct Hs as [sc ts db tr p Hp|sc ts db tr i p o p' db' Hi Hs Hl
                 |sc ts db tr o sc' db' Hs Hl|sc ts db tr sc' Hp];
    unfold sys_ok; simpl in *.
  - split; [|by left]. split_and!; [done|done|]. apply Forall_app. split; [done|].
    constructor; [|done]. by apply fresh_knows, tasks_ok.
  - pose proof (Forall_lookup_1 _ _ _ _ Ht Hi) as (K & HsK & HK & Hw).
    destruct (wp_pstep _ K p _ db o p' db' tr HsK Hw HK Hv Hs Hl) as (Hg & HK').
    assert (rely handler_spec tr db o db') as Hr by by left.
    split; [|by eauto]. split_and!; [by eapply inv_kept|by eapply knows_step|].
    apply Forall_insert; [|done]. eapply Forall_impl; [exact Ht|].
    intros q Hq. by eapply knows_step.
  - destruct Hc as (K & HsK & HK & Hw).
    destruct (wp_pstep _ K sc _ db o sc' db' tr HsK Hw HK Hv Hs Hl) as (Hg & HK').
    assert (rely handler_spec tr db o db') as Hr by by right.
    split; [|by eauto]. split_and!; [by eapply inv_kept|done|].
    eapply Forall_impl; [exact Ht|]. intros q Hq. by eapply knows_step.
  - split; [|by left]. split_and!; [done|by apply fresh_knows, scheds_ok|constructor].
Qed.

(** Every reachable state of any interleaving satisfies the invariant, and
    an assertion no task can falsify, once true, stays true. *)
Lemma sys_safe s s' :
  sys_ok s -> rtc (sys_step tasks scheds L) s s' -> sys_ok s'.
Proof. intros Hs Hr. induction Hr; [done|]. apply IHHr. by eapply sys_step_ok. Qed.

Lemma sys_stable K s s' :
  stable handler_spec K -> sys_ok s -> rtc (sys_step tasks scheds L) s s' ->
  K (s_trace s) (s_db s) -> K (s_trace s') (s_db s').
Proof.
  intros HK Hs Hr. induction Hr as [|s1 s2 s3 H12 _ IH]; [done|]. intros H1.
  destruct (sys_step_ok _ _ Hs H12) as [H2 [[Ht Hd]|(o & Ho & Hl & Hrl)]].
  - apply IH; [done|]. by rewrite Ht, Hd.
  - apply IH; [done|]. rewrite Ho. destruct Hs. by eapply HK.
Qed.

Lemma sys_start sc db tr :
  I tr db -> scheds sc -> sys_ok (mkSys sc [] db tr).
Proof.
  intros HI Hsc. split_and!; [done|by apply fresh_knows, scheds_ok|constructor].
Qed.
End Daemon.
End Programs.

Arguments prog DB ext A : clear implicits.
Arguments obs DB ext : clear implicits.
Arguments Env DB ext : clear implicits.
Arguments Spec DB ext : clear implicits.
Arguments Sys DB ext : clear implicits.
Arguments Ret {DB ext A} _.
Arguments Sql {DB ext A R} _ _.
Arguments Ext {DB ext A R} _ _.

Declare Scope prog_scope.
Delimit Scope prog_scope with prog.
Notation "x <- p ;; q" := (bind p (fun x => q))
  (at level 60, p at next level, right associativity) : prog_scope.
Notation "p ;;; q" := (bind p (fun _ => q))
  (at level 60, right associativity) : prog_scope.
Notation "x <-? p ;; q" := (try p (fun x => q))
  (at level 60, p at next level, right associativity) : prog_scope.
