(* ===== verification/BondTypes.v ===== *)
(** * The anti-abuse bond: enumerations and the row type

    [src/app/bond/types.rs] and [src/app/bond/model.rs]: the string-backed
    enumerations of the [bonds] table and the row itself.  The table stores
    strings, so the row does too; the daemon goes through [Display] and
    [FromStr], whose round trip is what makes the two views agree. *)

From S2P Require Import Prelude.

Open Scope Z_scope.
Open Scope string_scope.

(** ** Enumerations *)

Inductive BondRole : Type := Maker | Taker.

Inductive BondState : Type :=
| Requested | Locked | Released | PendingPayout | Slashed | Forfeited | Failed.

Inductive BondSlashReason : Type := LostDispute | Timeout.

Inductive BondParseError : Type :=
| UnknownRole (v : string)
| UnknownState (v : string)
| UnknownSlashReason (v : string).

#[export] Instance BondRole_eq_dec : EqDecision BondRole.
Proof. solve_decision. Defined.
#[export] Instance BondState_eq_dec : EqDecision BondState.
Proof. solve_decision. Defined.
#[export] Instance BondSlashReason_eq_dec : EqDecision BondSlashReason.
Proof. solve_decision. Defined.

(** [Display] and [FromStr] of a string-backed enumeration, and the law the
    database relies on. *)
Class StrEnum (T : Type) := {
  to_str : T -> string;
  from_str : string -> result T BondParseError;
  from_to_str : forall x, from_str (to_str x) = Ok x;
  to_from_str : forall s x, from_str s = Ok x -> to_str x = s
}.

Definition role_to_string (r : BondRole) : string :=
  match r with Maker => "maker" | Taker => "taker" end.

Definition role_from_str (s : string) : result BondRole BondParseError :=
  if str_eqb s "maker" then Ok Maker
  else if str_eqb s "taker" then Ok Taker
  else Err (UnknownRole s).

Definition state_to_string (s : BondState) : string :=
  match s with
  | Requested => "requested"
  | Locked => "locked"
  | Released => "released"
  | PendingPayout => "pending-payout"
  | Slashed => "slashed"
  | Forfeited => "forfeited"
  | Failed => "failed"
  end.

Definition state_from_str (s : string) : result BondState BondParseError :=
  if str_eqb s "requested" then Ok Requested
  else if str_eqb s "locked" then Ok Locked
  else if str_eqb s "released" then Ok Released
  else if str_eqb s "pending-payout" then Ok PendingPayout
  else if str_eqb s "slashed" then Ok Slashed
  else if str_eqb s "forfeited" then Ok Forfeited
  else if str_eqb s "failed" then Ok Failed
  else Err (UnknownState s).

Definition reason_to_string (r : BondSlashReason) : string :=
  match r with LostDispute => "lost-dispute" | Timeout => "timeout" end.

Definition reason_from_str (s : string) : result BondSlashReason BondParseError :=
  if str_eqb s "lost-dispute" then Ok LostDispute
  else if str_eqb s "timeout" then Ok Timeout
  else Err (UnknownSlashReason s).

Definition parse_error_to_string (e : BondParseError) : string :=
  match e with
  | UnknownRole v => "unknown bond role: " ++ v
  | UnknownState v => "unknown bond state: " ++ v
  | UnknownSlashReason v => "unknown bond slash reason: " ++ v
  end.

(** The parser compares against each spelling in turn: follow it. *)
Ltac solve_from_str :=
  let H := fresh in
  intros s x H; revert H;
  repeat match goal with
  | |- context [str_eqb s ?lit] =>
      let E := fresh in
      destruct (str_eqb s lit) eqn:E;
      [apply str_eqb_eq in E; subst; intros; by simplify_eq|]
  end; intros; by simplify_eq.

#[export] Instance BondRole_str : StrEnum BondRole.
Proof.
  refine {| to_str := role_to_string; from_str := role_from_str |}.
  - by intros [].
  - unfold role_from_str. solve_from_str.
Defined.

#[export] Instance BondState_str : StrEnum BondState.
Proof.
  refine {| to_str := state_to_string; from_str := state_from_str |}.
  - by intros [].
  - unfold state_from_str. solve_from_str.
Defined.

#[export] Instance BondSlashReason_str : StrEnum BondSlashReason.
Proof.
  refine {| to_str := reason_to_string; from_str := reason_from_str |}.
  - by intros [].
  - unfold reason_from_str. solve_from_str.
Defined.

Lemma to_str_inj {T} `{StrEnum T} (x y : T) : to_str x = to_str y -> x = y.
Proof.
  intros E. pose proof (from_to_str x) as Hx. rewrite E, from_to_str in Hx. congruence.
Qed.

Lemma state_to_string_inj (s t : BondState) : state_to_string s = state_to_string t -> s = t.
Proof. exact (to_str_inj s t). Qed.

Lemma state_eqb (s t : BondState) :
  str_eqb (state_to_string s) (state_to_string t) = bool_decide (s = t).
Proof. destruct s, t; reflexivity. Qed.
#[export] Hint Rewrite state_eqb : mostro.

(** ** Classification of the states *)

Definition is_terminal (s : BondState) : bool :=
  match s with
  | Released | Slashed | Forfeited | Failed => true
  | _ => false
  end.

Definition is_active (s : BondState) : bool :=
  match s with Requested | Locked => true | _ => false end.

(** ** The row *)

Abbreviation Uuid := N.

Record Bond : Type := mkBond {
  id : Uuid;
  order_id : Uuid;
  parent_bond_id : option Uuid;
  child_order_id : option Uuid;
  pubkey : string;
  role : string;
  amount_sats : Z;
  slashed_share_sats : Z;
  state : string;
  slashed_reason : option string;
  hash : option string;
  preimage : option string;
  payment_request : option string;
  payout_invoice : option string;
  payout_routing_fee_sats : option Z;
  payout_payment_hash : option string;
  node_share_sats : option Z;
  payout_attempts : Z;
  invoice_request_attempts : Z;
  last_invoice_request_at : option Z;
  locked_at : option Z;
  released_at : option Z;
  slashed_at : option Z;
  created_at : Z;
  taker_identity : option string;
  taker_trade_index : option Z;
  taker_invoice : option string;
  taker_fiat_amount : option Z;
  taker_amount : option Z;
  taker_fee : option Z;
  taker_dev_fee : option Z
}.

#[export] Instance Bond_eta : Eta Bond := fun b =>
  mkBond (id b) (order_id b) (parent_bond_id b) (child_order_id b) (pubkey b)
    (role b) (amount_sats b) (slashed_share_sats b) (state b) (slashed_reason b)
    (hash b) (preimage b) (payment_request b) (payout_invoice b)
    (payout_routing_fee_sats b) (payout_payment_hash b) (node_share_sats b)
    (payout_attempts b) (invoice_request_attempts b) (last_invoice_request_at b)
    (locked_at b) (released_at b) (slashed_at b) (created_at b)
    (taker_identity b) (taker_trade_index b) (taker_invoice b)
    (taker_fiat_amount b) (taker_amount b) (taker_fee b) (taker_dev_fee b).

#[export] Instance Bond_eq_dec : EqDecision Bond.
Proof. solve_decision. Defined.

(** [Bond::new_requested]; the fresh id and the clock are its effects. *)
Definition new_requested (uuid : Uuid) (now : Z)
    (order_id : Uuid) (pubkey : string) (role : BondRole) (amount_sats : Z) : Bond :=
  mkBond uuid order_id None None pubkey (role_to_string role) amount_sats 0
    (state_to_string Requested) None None None None None None None None 0 0 None
    None None None now None None None None None None None.

(** The row's state as the enumeration, for statements about it. *)
Definition state_is (s : BondState) (b : Bond) : bool := str_eqb (state b) (state_to_string s).
Definition role_is (r : BondRole) (b : Bond) : bool := str_eqb (role b) (role_to_string r).

Lemma state_is_eq s b : state_is s b = true <-> state b = state_to_string s.
Proof. apply str_eqb_eq. Qed.

Lemma state_is_excl s t b : state_is s b = true -> state_is t b = true -> s = t.
Proof.
  intros Hs%state_is_eq Ht%state_is_eq. apply state_to_string_inj. congruence.
Qed.

(** The text columns and the enumerations agree. Every role, state and
    slash reason parses back from its text, and a text that parses is the one
    the parsed value prints. *)
Theorem bond_enums_roundtrip :
  (forall r s, role_from_str s = Ok r <-> s = role_to_string r) /\
  (forall st s, state_from_str s = Ok st <-> s = state_to_string st) /\
  (forall r s, reason_from_str s = Ok r <-> s = reason_to_string r).
Proof.
  split_and!; intros x s; split.
  - intros E. symmetry. exact (to_from_str (T := BondRole) s x E).
  - intros ->. exact (from_to_str (T := BondRole) x).
  - intros E. symmetry. exact (to_from_str (T := BondState) s x E).
  - intros ->. exact (from_to_str (T := BondState) x).
  - intros E. symmetry. exact (to_from_str (T := BondSlashReason) s x E).
  - intros ->. exact (from_to_str (T := BondSlashReason) x).
Qed.
