(* ===== verification/CashuTypes.v ===== *)
(** * Ecash

    The data of the Cashu protocol that the escrow code takes apart: tokens
    and their proofs, spending conditions, and what a mint answers.  The types
    are declared by the cdk crate; only the fields and constructors the sources
    read appear.  A secp256k1 key or point is its compressed hex text. *)

From S2P Require Import Prelude.

Open Scope Z_scope.

Inductive CurrencyUnit : Type := Sat | Msat | Usd | Eur | CustomUnit (name : string).

#[export] Instance CurrencyUnit_eq_dec : EqDecision CurrencyUnit.
Proof. solve_decision. Defined.

(** A proof: its amount, the short id of its keyset, its secret, and the mint's
    signature with its DLEQ proof, which the sources only pass on. *)
Record CashuProof : Type := mkProof {
  cp_amount : Z;
  cp_keyset_id : string;
  cp_secret : string;
  cp_signature : string
}.

(** [Token]: version 3 groups the proofs by mint, version 4 by keyset. *)
Inductive CashuToken : Type :=
| TokenV3 (entries : list (string * list CashuProof)) (unit_of : option CurrencyUnit)
| TokenV4 (mint : string) (unit_of : CurrencyUnit) (entries : list (string * list CashuProof)).

(** [nut10::Secret]: the kind, its data and the raw tags. *)
Record Nut10Secret : Type := mkNut10 {
  n10_kind : string;
  n10_data : string;
  n10_tags : option (list (list string))
}.

Inductive TagKind : Type :=
| TagSigFlag | TagNSigs | TagLocktime | TagRefund | TagPubkeys | TagNSigsRefund
| TagCustom (name : string).

#[export] Instance TagKind_eq_dec : EqDecision TagKind.
Proof. solve_decision. Defined.

Inductive SigFlag : Type := SigInputs | SigAll.

#[export] Instance SigFlag_eq_dec : EqDecision SigFlag.
Proof. solve_decision. Defined.

(** [nut11::Conditions]. *)
Record Conditions : Type := mkConditions {
  locktime : option Z;
  cond_pubkeys : option (list string);
  refund_keys : option (list string);
  num_sigs : option Z;
  sig_flag : SigFlag;
  num_sigs_refund : option Z
}.

Inductive SpendingConditions : Type :=
| P2PKConditions (data : string) (conditions : option Conditions)
| HTLCConditions (data : string) (conditions : option Conditions).

(** [nut07::State]. *)
Inductive ProofState : Type := Unspent | Spent | ProofPending | Reserved | PendingSpent.

#[export] Instance ProofState_eq_dec : EqDecision ProofState.
Proof. solve_decision. Defined.

(** An active keyset with its public keys by amount, and the listing of a
    keyset. *)
Record KeySet : Type := mkKeySet {
  ks_id : string;
  ks_unit : CurrencyUnit;
  ks_keys : list (Z * string)
}.

Record KeySetInfo : Type := mkKeySetInfo { ki_active : bool; ki_unit : CurrencyUnit }.

(** Which NUTs a mint supports. *)
Record MintInfo : Type := mkMintInfo { nut07 : bool; nut11 : bool; nut12 : bool }.

(** [mostro_core::message::CashuLockProof]. *)
Record CashuLockProof : Type := mkLockProof {
  lp_mint_url : string;
  lp_token : string;
  lp_buyer_pubkey : string;
  lp_seller_pubkey : string;
  lp_mostro_pubkey : string
}.
