(* ===== verification/Config.v ===== *)
(** * Operator settings

    [src/config/types.rs], [src/config/constants.rs]: the settings that the
    modelled components read, with their defaults and the validation done
    when the file is loaded.  A percentage is the [f64] the configuration
    parser produced. *)

From Stdlib Require Import QArith.
From S2P Require Import Prelude Float64.

Open Scope Z_scope.

Inductive BondApplyTo : Type := Take | Make | Both.

Definition applies_to_taker (a : BondApplyTo) : bool :=
  match a with Take | Both => true | Make => false end.

Definition applies_to_maker (a : BondApplyTo) : bool :=
  match a with Make | Both => true | Take => false end.

Record AntiAbuseBondSettings : Type := mkBondSettings {
  enabled : bool;
  amount_pct : f64;
  base_amount_sats : Z;
  apply_to : BondApplyTo;
  slash_on_waiting_timeout : bool;
  slash_node_share_pct : f64;
  payout_invoice_window_seconds : Z;
  payout_max_retries : Z;
  payout_claim_window_days : Z
}.

(** [impl Default for AntiAbuseBondSettings]. *)
Definition default_bond_settings : AntiAbuseBondSettings :=
  mkBondSettings false (f64_dec 1 2) 1000 Take false (f64_dec 5 1) 300 5 15.

(** [deserialize_slash_node_share_pct]: the accepted values. *)
Definition valid_slash_node_share_pct (v : f64) : bool :=
  f64_le (Fin 0) v && f64_le v (Fin 1).

(** [mostro_core::transport::Transport]: gift wraps, or direct messages
    encrypted with NIP-44, and the event kind and protocol version of each. *)
Inductive Transport : Type := GiftWrap | Nip44Direct.

Definition DM_EVENT_KIND : Z := 14.
Definition GIFT_WRAP_KIND : Z := 1059.

Definition transport_event_kind (t : Transport) : Z :=
  match t with GiftWrap => GIFT_WRAP_KIND | Nip44Direct => DM_EVENT_KIND end.

Definition protocol_version (t : Transport) : Z := match t with GiftWrap => 1 | Nip44Direct => 2 end.

(** The fields of [MostroSettings] and [LightningSettings] the modelled code
    reads. *)
Record MostroSettings : Type := mkMostroSettings {
  mostro_fee : f64;
  max_routing_fee : f64;
  min_payment_amount : Z;
  dev_fee_percentage : f64;
  max_order_amount : Z;
  fiat_currencies_accepted : list string;
  max_expiration_days : Z;
  expiration_hours : Z;
  pow : Z;
  pow_first_contact : option Z;
  expiration_seconds : Z;
  max_orders_per_response : Z;
  node_name : option string;
  transport : Transport
}.

(** [MostroSettings::effective_pow_first_contact]. *)
Definition effective_pow_first_contact (s : MostroSettings) : Z :=
  default (pow s) (pow_first_contact s).

Record LightningSettings : Type := mkLightningSettings {
  invoice_expiration_window : Z;
  hold_invoice_cltv_delta : Z;
  max_final_cltv_expiry_delta : Z;
  payment_attempts : Z;
  payment_retries_interval : Z;
  escrow_deadline_margin_blocks : Z;
  hold_invoice_expiration_window : Z
}.

Inductive Currency : Type :=
| Bitcoin | BitcoinTestnet | Regtest | Simnet | Signet.

#[export] Instance Currency_eq_dec : EqDecision Currency.
Proof. solve_decision. Defined.

(** The Cashu escrow: a [u32] number of days. *)
Record CashuSettings : Type := mkCashuSettings {
  cashu_enabled : bool;
  mint_url : string;
  escrow_locktime_days : Z
}.

Definition default_escrow_locktime_days : Z := 15.

Definition default_cashu_settings : CashuSettings :=
  mkCashuSettings false "" default_escrow_locktime_days.

(** Days an event of a kind is kept, where configured. *)
Record ExpirationSettings : Type := mkExpirationSettings {
  order_days : option Z;
  rating_days : option Z;
  dispute_days : option Z;
  fee_audit_days : option Z;
  dm_days : option Z
}.

(** The event kinds of mostro-core. *)
Definition NOSTR_ORDER_EVENT_KIND : Z := 38383.
Definition NOSTR_RATING_EVENT_KIND : Z := 38384.
Definition NOSTR_INFO_EVENT_KIND : Z := 38385.
Definition NOSTR_DISPUTE_EVENT_KIND : Z := 38386.
Definition DEV_FEE_AUDIT_EVENT_KIND : Z := 8383.

Definition get_expiration_for_kind (e : ExpirationSettings) (kind : Z) : option Z :=
  if kind =? NOSTR_ORDER_EVENT_KIND then Some (default 30 (order_days e))
  else if kind =? NOSTR_RATING_EVENT_KIND then Some (default 90 (rating_days e))
  else if kind =? NOSTR_DISPUTE_EVENT_KIND then Some (default 90 (dispute_days e))
  else if kind =? DEV_FEE_AUDIT_EVENT_KIND then Some (default 365 (fee_audit_days e))
  else if kind =? DM_EVENT_KIND then Some (default 30 (dm_days e))
  else None.

(** Process-wide configuration: [Settings::get_bond], [get_mostro], [get_ln],
    the network names LND reported at startup ([LN_STATUS]), and
    [Settings::get_cashu], [get_expiration] and the relays of [get_nostr]. *)
Record Settings : Type := mkSettings {
  get_bond : option AntiAbuseBondSettings;
  get_mostro : MostroSettings;
  get_ln : LightningSettings;
  ln_networks : option (list string);
  get_cashu : option CashuSettings;
  get_expiration : option ExpirationSettings;
  nostr_relays : list string
}.

Definition is_cashu_enabled (s : Settings) : bool :=
  match get_cashu s with Some cfg => cashu_enabled cfg | None => false end.

Inductive EscrowMode : Type := EscrowLightning | EscrowCashu.

Definition escrow_mode (s : Settings) : EscrowMode :=
  if is_cashu_enabled s then EscrowCashu else EscrowLightning.

(** [util::get_expiration_timestamp_for_kind], at [now]. *)
Definition get_expiration_timestamp_for_kind (s : Settings) (kind now : Z) : option Z :=
  let after days := Some (now + days * 86400) in
  match match get_expiration s with
        | Some exp_config => get_expiration_for_kind exp_config kind
        | None => None
        end with
  | Some days => after days
  | None =>
      if (kind =? NOSTR_ORDER_EVENT_KIND) || (kind =? NOSTR_RATING_EVENT_KIND) ||
         (kind =? NOSTR_DISPUTE_EVENT_KIND) || (kind =? DEV_FEE_AUDIT_EVENT_KIND)
      then after (max_expiration_days (get_mostro s))
      else if kind =? DM_EVENT_KIND then after 30
      else None
  end.

Definition MIN_DEV_FEE_PERCENTAGE : f64 := f64_dec 10 2.
Definition MAX_DEV_FEE_PERCENTAGE : f64 := f64_dec 10 1.
