(* ===== verification/BondMath.v ===== *)
(** * Amounts: bond size, slash split, fees

    [src/app/bond/math.rs] and the fee arithmetic of [src/util.rs] and
    [src/lightning/mod.rs], on [i64] sats and [f64] percentages.  The
    theorems hold for every value of the percentages, NaN and infinities
    included, unless a hypothesis says otherwise. *)

From Stdlib Require Import QArith Qround Lqa.
From S2P Require Import Prelude Float64 Config.

Open Scope Z_scope.

(** ** Bond size *)

Definition compute_bond_amount (order_amount_sats : Z) (cfg : AntiAbuseBondSettings) : Z :=
  let base := Z.max (base_amount_sats cfg) 0 in
  if (order_amount_sats <=? 0) || f64_le (amount_pct cfg) (Fin 0) then base
  else
    let pct_raw := f64_mul (f64_of_i64 order_amount_sats) (amount_pct cfg) in
    let pct_rounded := f64_round pct_raw in
    let pct_sats :=
      if f64_ge pct_rounded (f64_of_i64 i64_max) then i64_max
      else if f64_le pct_rounded (Fin 0) then 0
      else f64_to_i64 pct_rounded in
    Z.max pct_sats base.

(** ** Split of a slashed bond *)

Definition compute_node_share (amount_sats : Z) (pct : f64) : Z :=
  if amount_sats <=? 0 then 0
  else
    let pct := f64_clamp pct (Fin 0) (Fin 1) in
    let raw := f64_mul (f64_of_i64 amount_sats) pct in
    let floored := f64_floor raw in
    if f64_le floored (Fin 0) then 0
    else if f64_ge floored (f64_of_i64 amount_sats) then amount_sats
    else f64_to_i64 floored.

(** ** Fees *)

Definition get_fee (mostro : MostroSettings) (amount : Z) : Z :=
  let split_fee := f64_div (f64_mul (mostro_fee mostro) (f64_of_i64 amount)) (f64_of_i64 2) in
  f64_to_i64 (f64_round split_fee).

Definition calculate_dev_fee (total_mostro_fee : Z) (percentage : f64) : Z :=
  let dev_fee := f64_mul (f64_of_i64 total_mostro_fee) percentage in
  f64_to_i64 (f64_round dev_fee).

Definition get_dev_fee (mostro : MostroSettings) (total_mostro_fee : Z) : Z :=
  calculate_dev_fee total_mostro_fee (dev_fee_percentage mostro).

(** Sats for a fiat amount at a price, less a premium in percent: the
    arithmetic of [get_market_quote]. *)
Definition market_sats (price : f64) (fiat_amount premium : Z) : Z :=
  let sats := f64_mul (f64_div (f64_of_i64 fiat_amount) price) (f64_of_i64 100000000) in
  let sats :=
    if negb (premium =? 0)
    then f64_sub sats (f64_mul (f64_div (f64_of_i64 premium) (f64_of_i64 100)) sats)
    else sats in
  f64_to_i64 sats.

Definition routing_fee_cap_sats (mostro : MostroSettings) (amount : Z) : Z :=
  let max_fee :=
    match amount ?= 1000 with
    | Lt | Eq => f64_max (f64_mul (f64_of_i64 amount) (f64_dec 1 2)) (f64_of_i64 10)
    | Gt => f64_mul (f64_of_i64 amount) (max_routing_fee mostro)
    end in
  f64_to_i64 max_fee.

(** ** Bounds *)

Lemma f64_clamp_01 pct :
  f64_clamp pct (Fin 0) (Fin 1) = NaN \/
  exists p, f64_clamp pct (Fin 0) (Fin 1) = Fin p /\ (0 <= p <= 1)%Q.
Proof.
  unfold f64_clamp, f64_gt, f64_lt. destruct pct as [|[]|p]; cbn [f64_le negb].
  - by left.
  - right. exists 0%Q. split; [done | lra].
  - right. exists 1%Q. split; [done | lra].
  - right. destruct (Qle_bool 0 p) eqn:E1; cbn [negb]; qbool.
    + destruct (Qle_bool p 1) eqn:E2; cbn [negb]; qbool; eexists; split; try done; lra.
    + exists 0%Q. split; [done | lra].
Qed.

(** Product of a positive amount and a fraction of one: a representable value
    between 0 and the amount as an [f64]. *)
Lemma f64_mul_fraction amount p :
  in_i64 amount -> 0 < amount -> (0 <= p <= 1)%Q ->
  exists r, f64_mul (f64_of_i64 amount) (Fin p) = Fin r /\ (0 <= r)%Q /\ repr r /\
            (r <= rnd (inject_Z amount))%Q.
Proof.
  intros Hi Hpos [Hp0 Hp1]. rewrite f64_of_i64_fin by done. cbn [f64_mul].
  set (a := rnd (inject_Z amount)).
  assert (Ha : (0 <= a)%Q).
  { apply rnd_nonneg. change 0%Q with (inject_Z 0). rewrite <- Zle_Qle. lia. }
  assert (Hle : (a * p <= a)%Q).
  { rewrite <- (Qmult_1_r a) at 2. rewrite !(Qmult_comm a). by apply Qmult_le_compat_r. }
  assert (Ha2 : (rnd (a * p) <= a)%Q).
  { rewrite <- (rnd_repr a) at 2 by apply repr_rnd. by apply rnd_mono. }
  destruct (f64_of_Q_cases (a * p)) as [Hinf|(E & H0 & Hr)].
  - by apply Qmult_le_0_compat.
  - exfalso. unfold f64_of_Q in Hinf. destruct (Qle_bool (2 ^ 1024) _) eqn:E; [|by case_match].
    qbool. destruct (rnd_i64_bound amount Hi) as [_ Hb]. fold a in Hb.
    pose proof (Qpower.Qpower_lt_compat_l 2 63 1024 ltac:(lia) ltac:(lra)). lra.
  - by exists (rnd (a * p)).
Qed.

Lemma compute_node_share_bounds amount pct :
  in_i64 amount -> 0 <= compute_node_share amount pct <= Z.max 0 amount.
Proof.
  intros Hi. unfold compute_node_share. case_match; bool_prop; [lia|].
  destruct (f64_clamp_01 pct) as [->|(p & -> & Hp)].
  - rewrite f64_of_i64_fin by done. cbn. lia.
  - destruct (f64_mul_fraction amount p Hi ltac:(lia) Hp) as (r & -> & Hr0 & Hrr & Hra).
    rewrite f64_of_i64_fin by done. cbn [f64_floor f64_le f64_ge f64_to_i64].
    destruct (Qle_bool (inject_Z (Qfloor r)) 0) eqn:E1; [lia|].
    destruct (Qle_bool (rnd (inject_Z amount)) (inject_Z (Qfloor r))) eqn:E2; [lia|].
    qbool. assert (Hf : 0 < Qfloor r) by (rewrite Zlt_Qlt; exact E1).
    assert (Hk : Qfloor r <= amount) by (apply repr_below_rnd; [by apply repr_floor | done]).
    replace (Qle_bool 0 (inject_Z (Qfloor r))) with true
      by (symmetry; apply Qle_bool_iff; lra).
    rewrite Qfloor_Z. rewrite sat_i64_id; [lia|]. unfold in_i64, i64_min, i64_max in *. lia.
Qed.

Lemma compute_bond_amount_floor amount cfg :
  Z.max (base_amount_sats cfg) 0 <= compute_bond_amount amount cfg.
Proof. unfold compute_bond_amount. case_match; [lia|]. apply Z.le_max_r. Qed.

Lemma f64_mul_mono_l x y p :
  in_i64 x -> in_i64 y -> x <= y -> (0 <= p)%Q ->
  f64_le (f64_mul (f64_of_i64 x) (Fin p)) (f64_mul (f64_of_i64 y) (Fin p)) = true.
Proof.
  intros Hx Hy Hle Hp. rewrite !f64_of_i64_fin by done. cbn [f64_mul].
  apply f64_of_Q_mono. apply Qmult_le_compat_r; [|done].
  apply rnd_mono. by rewrite <- Zle_Qle.
Qed.

Lemma f64_le_trans a b c : f64_le a b = true -> f64_le b c = true -> f64_le a c = true.
Proof.
  destruct a as [|[]|x], b as [|[]|y], c as [|[]|z]; cbn [f64_le]; try done.
  intros ??. qbool. apply Qle_bool_iff. lra.
Qed.

(** The saturating conversion the bond computation writes out by hand. *)
Definition sat_pct (r : f64) : Z :=
  if f64_ge r (f64_of_i64 i64_max) then i64_max
  else if f64_le r (Fin 0) then 0 else f64_to_i64 r.

Lemma sat_pct_mono a b : f64_le a b = true -> sat_pct a <= sat_pct b.
Proof.
  intros Hle. unfold sat_pct, f64_ge. generalize (f64_of_i64 i64_max) as top. intros top.
  destruct (f64_le top a) eqn:E1.
  { by rewrite (f64_le_trans _ _ _ E1 Hle). }
  assert (Ha : f64_to_i64 a <= i64_max) by apply f64_to_i64_range.
  assert (0 <= i64_max) by done.
  destruct (f64_le a (Fin 0)) eqn:E2.
  - case_match; [done|]. case_match; [done|].
    destruct b as [|[]|y]; [done|done|done|].
    cbn [f64_le] in *. qbool. cbn [f64_to_i64].
    replace (Qle_bool 0 y) with true by (symmetry; apply Qle_bool_iff; lra).
    pose proof (Qfloor_resp_le 0 y ltac:(lra)) as Hfl. change (Qfloor 0) with 0 in Hfl.
    unfold sat_i64, clampZ, i64_min, i64_max. lia.
  - case_match; [done|].
    destruct (f64_le b (Fin 0)) eqn:E3.
    + rewrite (f64_le_trans _ _ _ Hle E3) in E2. discriminate E2.
    + exact (f64_to_i64_mono _ _ Hle).
Qed.

Lemma sat_pct_nonneg r : 0 <= sat_pct r.
Proof.
  unfold sat_pct. generalize (f64_of_i64 i64_max) as top. intros top.
  case_match; [done|]. case_match; [done|].
  destruct r as [|[]|y]; [done|done|done|]. cbn [f64_le f64_to_i64] in *. qbool.
  replace (Qle_bool 0 y) with true by (symmetry; apply Qle_bool_iff; lra).
  pose proof (Qfloor_resp_le 0 y ltac:(lra)) as Hfl. change (Qfloor 0) with 0 in Hfl.
  unfold sat_i64, clampZ, i64_min, i64_max. lia.
Qed.

Lemma compute_bond_amount_eq amount cfg :
  compute_bond_amount amount cfg =
  if (amount <=? 0) || f64_le (amount_pct cfg) (Fin 0) then Z.max (base_amount_sats cfg) 0
  else Z.max (sat_pct (f64_round (f64_mul (f64_of_i64 amount) (amount_pct cfg))))
             (Z.max (base_amount_sats cfg) 0).
Proof. reflexivity. Qed.

(** Any rounding [f64_to_i64 . f64_round] of a product with a non-negative
    finite factor is monotone in the amount. *)
Lemma rounded_product_mono x y p :
  in_i64 x -> in_i64 y -> x <= y -> (0 <= p)%Q ->
  f64_to_i64 (f64_round (f64_mul (f64_of_i64 x) (Fin p))) <=
  f64_to_i64 (f64_round (f64_mul (f64_of_i64 y) (Fin p))).
Proof. intros. by apply f64_to_i64_mono, f64_round_mono, f64_mul_mono_l. Qed.

Lemma routing_fee_cap_small mostro amount :
  amount <= 1000 -> 10 <= routing_fee_cap_sats mostro amount.
Proof.
  intros Ha. unfold routing_fee_cap_sats.
  replace (match amount ?= 1000 with
           | Lt | Eq => f64_max (f64_mul (f64_of_i64 amount) (f64_dec 1 2)) (f64_of_i64 10)
           | Gt => f64_mul (f64_of_i64 amount) (max_routing_fee mostro)
           end)
    with (f64_max (f64_mul (f64_of_i64 amount) (f64_dec 1 2)) (f64_of_i64 10))
    by (destruct (Z.compare_spec amount 1000); [done | done | lia]).
  change 10 with (f64_to_i64 (f64_of_i64 10)) at 1. apply f64_to_i64_mono.
  replace (f64_of_i64 10) with (Fin 10) by (vm_compute; reflexivity).
  generalize (f64_mul (f64_of_i64 amount) (f64_dec 1 2)). intros v.
  unfold f64_max, f64_lt. destruct v as [|[]|q]; cbn [f64_le negb]; try done.
  destruct (Qle_bool 10 q) eqn:E; cbn [negb]; [done|]. done.
Qed.

Lemma compute_bond_amount_range amount cfg :
  base_amount_sats cfg <= i64_max -> 0 <= compute_bond_amount amount cfg <= i64_max.
Proof.
  intros Hb. pose proof (compute_bond_amount_floor amount cfg) as Hf.
  rewrite compute_bond_amount_eq in *. assert (0 <= i64_max) by done. case_match; [lia|].
  set (r := f64_round _) in *. clearbody r.
  assert (sat_pct r <= i64_max); [|lia].
  unfold sat_pct. generalize (f64_of_i64 i64_max) as top. intros top.
  case_match; [done|]. case_match; [done|]. apply f64_to_i64_range.
Qed.

(** ** Theorems *)

(** The size of a bond. Whatever the configured percentage (NaN and
    infinities included), the bond is at least the configured floor, fits an
    [i64], and never shrinks when the order grows. *)
Theorem compute_bond_amount_spec x y cfg :
  in_i64 x -> in_i64 y -> x <= y -> base_amount_sats cfg <= i64_max ->
  Z.max (base_amount_sats cfg) 0 <= compute_bond_amount x cfg <= i64_max /\
  compute_bond_amount x cfg <= compute_bond_amount y cfg.
Proof.
  intros Hx Hy Hle Hb. split.
  - split; [apply compute_bond_amount_floor|by apply compute_bond_amount_range].
  - destruct (x <=? 0) eqn:E0.
    + rewrite (compute_bond_amount_eq x), E0. apply compute_bond_amount_floor.
    + bool_prop. rewrite !compute_bond_amount_eq.
      rewrite (proj2 (Z.leb_gt x 0)), (proj2 (Z.leb_gt y 0)) by lia. cbn [orb].
      destruct (amount_pct cfg) as [|[]|p]; cbn [f64_le].
      * rewrite !f64_of_i64_fin by done. cbn. lia.
      * lia.
      * assert (Hs : forall z, in_i64 z -> 0 < z ->
          sat_pct (f64_round (f64_mul (f64_of_i64 z) (Inf false))) = i64_max).
        { intros z Hz Hp. rewrite f64_of_i64_fin by done. cbn [f64_mul].
          assert (0 < rnd (inject_Z z))%Q as Hr.
          { assert (inject_Z 1 <= rnd (inject_Z z))%Q.
            { rewrite <- (rnd_integer 1) by done. apply rnd_mono. rewrite <- Zle_Qle. lia. }
            change (inject_Z 1) with 1%Q in *. lra. }
          unfold qsign, Qltb. rewrite (proj2 (Qle_bool_iff _ _) (Qlt_le_weak _ _ Hr)).
          destruct (Qeq_bool (rnd (inject_Z z)) 0) eqn:E; [|done].
          apply Qeq_bool_iff in E. lra. }
        rewrite !Hs by (done || lia). lia.
      * destruct (Qle_bool p 0) eqn:Ep; [lia|]. qbool.
        pose proof (sat_pct_mono _ _ (f64_round_mono _ _ (f64_mul_mono_l x y p Hx Hy Hle ltac:(lra)))).
        lia.
Qed.

Lemma f64_of_Q_zero q : (q == 0)%Q -> exists r, f64_of_Q q = Fin r /\ (r == 0)%Q.
Proof.
  intros E. unfold f64_of_Q. assert (rnd q == 0)%Q as E0 by by apply rnd_zero.
  exists (rnd q). split; [|done].
  rewrite (proj2 (Qle_bool_false _ _)), (proj2 (Qle_bool_false _ _)); [done|..].
  - rewrite E0. pose proof (pow2_pos 1024). lra.
  - rewrite E0. apply pow2_pos.
Qed.

Lemma f64_mul_zero_l amount q :
  in_i64 amount -> (q == 0)%Q -> f64_floor (f64_mul (f64_of_i64 amount) (Fin q)) = Fin 0.
Proof.
  intros Hi E. rewrite f64_of_i64_fin by done. cbn [f64_mul].
  destruct (f64_of_Q_zero (rnd (inject_Z amount) * q)) as (r & -> & Hr); [rewrite E; ring|].
  cbn [f64_floor]. by rewrite Hr.
Qed.

(** the split of a slashed bond. The node share is within [0, amount] for
    every configured percentage, so the counterparty never gets more than the
    bond nor less than nothing; a percentage that is negative, zero or not a
    number leaves everything to the counterparty. *)
Theorem compute_node_share_spec amount pct :
  in_i64 amount ->
  0 <= compute_node_share amount pct <= Z.max 0 amount /\
  (f64_gt pct (Fin 0) = false -> compute_node_share amount pct = 0).
Proof.
  intros Hi. split; [by apply compute_node_share_bounds|]. intros Hp.
  unfold compute_node_share. case_match; [done|]. bool_prop.
  destruct (f64_clamp_01 pct) as [->|(q & Eq & Hq)].
  - rewrite f64_of_i64_fin by done. reflexivity.
  - rewrite Eq. rewrite f64_mul_zero_l; [done|done|].
    unfold f64_clamp, f64_gt, f64_lt in *. destruct pct as [|[]|p]; cbn [f64_le negb] in *; try done.
    + injection Eq as <-. reflexivity.
    + apply negb_false_iff in Hp. destruct (Qle_bool 0 p) eqn:E1; cbn [negb] in Eq.
      * destruct (Qle_bool p 1) eqn:E2; cbn [negb] in Eq; injection Eq as <-; qbool; lra.
      * injection Eq as <-. reflexivity.
Qed.

(** The development fee is a part of the fee. For a percentage within
    [0, 1] and a fee of at most 2^53 sats, the share sent to the development
    fund is between 0 and the whole fee. *)
Theorem calculate_dev_fee_bounded total p :
  0 <= total <= 2 ^ 53 -> (0 <= p <= 1)%Q ->
  0 <= calculate_dev_fee total (Fin p) <= total.
Proof.
  intros Ht Hp. assert (in_i64 total) as Hi by (unfold in_i64, i64_min, i64_max; lia).
  unfold calculate_dev_fee. destruct (Z.eq_dec total 0) as [->|Hne].
  - assert (f64_round (f64_mul (f64_of_i64 0) (Fin p)) = Fin 0) as ->; [|by vm_compute].
    change (f64_of_i64 0) with (Fin 0). cbn [f64_mul].
    destruct (f64_of_Q_zero (0 * p)) as (r & -> & Hr); [ring|].
    cbn [f64_round]. rewrite (proj2 (Qle_bool_iff _ _)) by (rewrite Hr; lra). by rewrite Hr.
  - destruct (f64_mul_fraction total p Hi ltac:(lia) Hp) as (r & -> & Hr0 & Hrr & Hra).
    rewrite rnd_integer in Hra by lia.
    assert (f64_le (f64_round (Fin 0)) (f64_round (Fin r)) = true) as H1
      by (apply f64_round_mono; cbn [f64_le]; by apply Qle_bool_iff).
    assert (f64_le (f64_round (Fin r)) (f64_round (Fin (inject_Z total))) = true) as H2
      by (apply f64_round_mono; cbn [f64_le]; by apply Qle_bool_iff).
    apply f64_to_i64_mono in H1, H2. split; [exact H1|]. etrans; [exact H2|].
    cbn [f64_round f64_to_i64].
    rewrite (proj2 (Qle_bool_iff 0 (inject_Z total)))
      by (change 0%Q with (inject_Z 0); rewrite <- Zle_Qle; lia).
    assert (Qfloor (inject_Z total + (1 # 2)) = total) as ->.
    { apply Z.le_antisymm.
      - enough (Qfloor (inject_Z total + (1 # 2)) < total + 1) by lia. rewrite Zlt_Qlt.
        pose proof (Qfloor_le (inject_Z total + (1 # 2))). rewrite inject_Z_plus.
        change (inject_Z 1) with 1%Q. lra.
      - rewrite <- (Qfloor_Z total) at 1. apply Qfloor_resp_le. lra. }
    rewrite (proj2 (Qle_bool_iff 0 (inject_Z total)))
      by (change 0%Q with (inject_Z 0); rewrite <- Zle_Qle; lia).
    rewrite Qfloor_Z, sat_i64_id by done. lia.
Qed.

(** Below 1000 sats the routing budget is flat. For every payment of at
    most 1000 sats the cap on the routing fee is exactly 10 sats, the one
    percent branch never exceeding the floor. *)
Theorem routing_fee_cap_flat mostro amount :
  i64_min <= amount <= 1000 -> routing_fee_cap_sats mostro amount = 10.
Proof.
  intros Ha. assert (in_i64 amount) as Hi by (unfold in_i64, i64_max in *; lia).
  apply Z.le_antisymm; [|apply routing_fee_cap_small; lia].
  unfold routing_fee_cap_sats.
  replace (match amount ?= 1000 with
           | Lt | Eq => f64_max (f64_mul (f64_of_i64 amount) (f64_dec 1 2)) (f64_of_i64 10)
           | Gt => f64_mul (f64_of_i64 amount) (max_routing_fee mostro)
           end)
    with (f64_max (f64_mul (f64_of_i64 amount) (f64_dec 1 2)) (f64_of_i64 10))
    by (destruct (Z.compare_spec amount 1000); [done | done | lia]).
  assert (f64_le (f64_mul (f64_of_i64 amount) (f64_dec 1 2))
                 (f64_mul (f64_of_i64 1000) (f64_dec 1 2)) = true) as Hle.
  { destruct (f64_dec 1 2) as [|[]|p] eqn:E; [vm_compute in E; discriminate E..|].
    apply f64_mul_mono_l; [exact Hi|unfold in_i64, i64_min, i64_max; lia|lia|].
    vm_compute in E. injection E as <-. done. }
  replace (f64_mul (f64_of_i64 1000) (f64_dec 1 2)) with (Fin 10) in Hle by (vm_compute; reflexivity).
  replace (f64_of_i64 10) with (Fin 10) by (vm_compute; reflexivity).
  change 10 with (f64_to_i64 (Fin 10)) at 2. apply f64_to_i64_mono.
  revert Hle. generalize (f64_mul (f64_of_i64 amount) (f64_dec 1 2)). intros v Hle.
  unfold f64_max, f64_lt. destruct v as [|[]|q]; cbn [f64_le negb] in *; try done.
  by destruct (negb (Qle_bool 10 q)).
Qed.

(** ** The theorems at concrete amounts *)

Lemma compute_bond_amount_spec_witness :
  Z.max 1000 0 <= compute_bond_amount 100000 default_bond_settings <= i64_max /\
  compute_bond_amount 100000 default_bond_settings <=
  compute_bond_amount 300000 default_bond_settings.
Proof. apply (compute_bond_amount_spec 100000 300000 default_bond_settings); by vm_compute. Defined.

