(* ===== verification/Model.v ===== *)
(** * The daemon's world

    The tables the handlers work on, the requests they send to the
    outside (LND, the clock, the outbound message queue) and the third-party
    functions they call.  Rows are kept in insertion (rowid) order, as SQLite
    scans them; a statement is a function of the whole database, executed
    atomically.

    - [Order] is the [orders] table of [src/migrations]; the row type itself
      and the [Status], [Kind], [Action], error and payload enumerations are
      declared in the mostro-core crate, so only the constructors the sources
      name appear here, and every function of that crate is a field of [Lib].
    - [DB] holds the tables [orders], [bonds], [users] and [disputes]; [ext]
      lists the external requests. *)

From S2P Require Import Prelude Float64 Config CashuTypes BondTypes Effects.

Open Scope Z_scope.

(** ** Vocabulary of mostro-core named by the sources *)

Inductive Kind : Type := Buy | Sell.

Inductive Status : Type :=
| Active | Canceled | CanceledByAdmin | SettledByAdmin | CompletedByAdmin | Dispute
| Expired | FiatSent | SettledHoldInvoice | Pending | Success | WaitingBuyerInvoice
| WaitingPayment | CooperativelyCanceled | InProgress | WaitingTakerBond
| WaitingMakerBond.

#[export] Instance Kind_eq_dec : EqDecision Kind.
Proof. solve_decision. Defined.
#[export] Instance Status_eq_dec : EqDecision Status.
Proof. solve_decision. Defined.

Inductive ServiceError : Type :=
| DbAccessError (s : string)
| UnexpectedError (s : string)
| HoldInvoiceError (s : string)
| LnNodeError (s : string)
| LnPaymentError (s : string)
| InvoiceInvalidError
| NostrError (s : string)
| InvalidPubkey
| UpdateOrderStatusError
| LnAddressParseError
| InvalidOrderStatus
| NoAPIResponse
| PriceTooStale
| DisputeAlreadyExists | DisputeEventError | InvalidDisputeId
| InvalidPayloadError
| WrongAmountError
| MalformedAPIRes
| IOError (s : string)
| MessageSerializationError
| OtherServiceError (s : string).

Inductive CantDoReason : Type :=
| InvalidPayload | InvalidInvoice | NotAllowedByStatus | InvalidOrderKind
| InvalidAmount
| InvalidSignature | InvalidTradeIndex | CantCreateUser | InvalidAction
| CantDoInvalidPubkey | CantDoInvalidOrderStatus | CantDoPriceTooStale
| PendingOrderExists | OutOfRangeSatsAmount | NotFound
| InvalidPeer | IsNotYourOrder | OrderAlreadyCanceled | IsNotYourDispute
| DisputeTakenByAdmin | NotAuthorized | InvalidRating
| InvalidTextMessage | InvalidParameters | TooManyRequests
| InvalidCashuToken | CantDoInvalidMintUrl | CashuMintUnavailable
| OtherCantDo (s : string).

Inductive MostroError : Type :=
| MostroInternalErr (e : ServiceError)
| MostroCantDo (r : CantDoReason).

Inductive Action : Type :=
| AddBondInvoice | BondInvoiceAccepted | BondPayoutCompleted | BondSlashed
| PayBondInvoice | ActionCanceled | PayInvoice | WaitingSellerToPay | AddInvoice
| ActionWaitingBuyerInvoice | NewOrder | PaymentFailed | PurchaseCompleted | Rate
| InvoiceUpdated
| TakeSell | TakeBuy | Release | Cancel | AdminCancel | AdminSettle | ActionFiatSent
| LastTradeIndex | ActionDispute | RateUser | AdminAddSolver | AdminTakeDispute
| TradePubkey | RestoreSession | Orders | AddCashuEscrow | CashuEscrowLocked
| BuyerTookOrder | HoldInvoicePaymentAccepted | HoldInvoicePaymentSettled
| HoldInvoicePaymentCanceled | FiatSentOk | ActionReleased
| CooperativeCancelInitiatedByYou | CooperativeCancelInitiatedByPeer
| CooperativeCancelAccepted | DisputeInitiatedByYou | DisputeInitiatedByPeer
| AdminSettled | AdminCanceled | AdminTookDispute | RateReceived.

#[export] Instance Action_eq_dec : EqDecision Action.
Proof. solve_decision. Defined.

Record SmallOrder : Type := mkSmallOrder {
  so_id : option Uuid;
  so_kind : option Kind;
  so_status : option Status;
  so_amount : Z;
  so_fiat_code : string;
  so_min_amount : option Z;
  so_max_amount : option Z;
  so_fiat_amount : Z;
  so_payment_method : string;
  so_premium : Z;
  so_buyer_trade_pubkey : option string;
  so_seller_trade_pubkey : option string;
  so_buyer_invoice : option string;
  so_created_at : option Z;
  so_expires_at : option Z
}.

#[export] Instance SmallOrder_eta : Eta SmallOrder := fun o =>
  mkSmallOrder (so_id o) (so_kind o) (so_status o) (so_amount o) (so_fiat_code o)
    (so_min_amount o) (so_max_amount o) (so_fiat_amount o) (so_payment_method o)
    (so_premium o) (so_buyer_trade_pubkey o) (so_seller_trade_pubkey o)
    (so_buyer_invoice o) (so_created_at o) (so_expires_at o).

(** [SmallOrder::new] with its last five arguments [None], as the bond
    messages call it. *)
Definition small_order (i : option Uuid) (kind : option Kind) (status : option Status)
    (amount : Z) (fiat_code : string) (min max : option Z) (fiat : Z) (method : string)
    (premium : Z) : SmallOrder :=
  mkSmallOrder i kind status amount fiat_code min max fiat method premium
    None None None None None.

(** ** The [users] table *)

Record User : Type := mkUser {
  u_pubkey : string;
  is_admin : Z;
  admin_password : option string;
  is_solver : Z;
  is_banned : Z;
  category : Z;
  last_trade_index : Z;
  total_reviews : Z;
  total_rating : f64;
  last_rating : Z;
  max_rating : Z;
  min_rating : Z;
  user_created_at : Z
}.

#[export] Instance User_eta : Eta User := fun u =>
  mkUser (u_pubkey u) (is_admin u) (admin_password u) (is_solver u) (is_banned u) (category u)
    (last_trade_index u) (total_reviews u) (total_rating u) (last_rating u) (max_rating u)
    (min_rating u) (user_created_at u).

(** ** The [orders] table *)

Record Order : Type := mkOrder {
  o_id : Uuid;
  o_kind : string;
  o_event_id : string;
  o_hash : option string;
  o_preimage : option string;
  o_creator_pubkey : string;
  o_cancel_initiator_pubkey : option string;
  o_dispute_initiator_pubkey : option string;
  o_buyer_pubkey : option string;
  o_master_buyer_pubkey : option string;
  o_seller_pubkey : option string;
  o_master_seller_pubkey : option string;
  o_status : string;
  o_price_from_api : bool;
  o_premium : Z;
  o_payment_method : string;
  o_amount : Z;
  o_min_amount : option Z;
  o_max_amount : option Z;
  o_buyer_dispute : bool;
  o_seller_dispute : bool;
  o_buyer_cooperativecancel : bool;
  o_seller_cooperativecancel : bool;
  o_fee : Z;
  o_routing_fee : Z;
  o_fiat_code : string;
  o_fiat_amount : Z;
  o_buyer_invoice : option string;
  o_range_parent_id : option Uuid;
  o_invoice_held_at : Z;
  o_taken_at : Z;
  o_created_at : Z;
  o_buyer_sent_rate : bool;
  o_seller_sent_rate : bool;
  o_payment_attempts : Z;
  o_failed_payment : bool;
  o_expires_at : Z;
  o_trade_index_seller : option Z;
  o_trade_index_buyer : option Z;
  o_next_trade_pubkey : option string;
  o_next_trade_index : option Z;
  o_dev_fee : Z;
  o_dev_fee_paid : bool;
  o_dev_fee_payment_hash : option string;
  o_cashu_mint_url : option string;
  o_cashu_escrow_token : option string;
  o_cashu_escrow_locked_at : option Z;
  o_payout_payment_hash : option string;
  o_payout_claimed_at : option Z
}.

#[export] Instance Order_eta : Eta Order := fun o =>
  mkOrder (o_id o) (o_kind o) (o_event_id o) (o_hash o) (o_preimage o)
    (o_creator_pubkey o) (o_cancel_initiator_pubkey o) (o_dispute_initiator_pubkey o)
    (o_buyer_pubkey o) (o_master_buyer_pubkey o) (o_seller_pubkey o)
    (o_master_seller_pubkey o) (o_status o) (o_price_from_api o) (o_premium o)
    (o_payment_method o) (o_amount o) (o_min_amount o) (o_max_amount o)
    (o_buyer_dispute o) (o_seller_dispute o) (o_buyer_cooperativecancel o)
    (o_seller_cooperativecancel o) (o_fee o) (o_routing_fee o) (o_fiat_code o)
    (o_fiat_amount o) (o_buyer_invoice o) (o_range_parent_id o) (o_invoice_held_at o)
    (o_taken_at o) (o_created_at o) (o_buyer_sent_rate o) (o_seller_sent_rate o)
    (o_payment_attempts o) (o_failed_payment o) (o_expires_at o)
    (o_trade_index_seller o) (o_trade_index_buyer o) (o_next_trade_pubkey o)
    (o_next_trade_index o) (o_dev_fee o) (o_dev_fee_paid o) (o_dev_fee_payment_hash o)
    (o_cashu_mint_url o) (o_cashu_escrow_token o) (o_cashu_escrow_locked_at o)
    (o_payout_payment_hash o) (o_payout_claimed_at o).

(** ** The [disputes] table *)

Record DisputeRow : Type := mkDispute {
  d_id : Uuid;
  d_order_id : Uuid;
  d_status : string;
  d_order_previous_status : string;
  d_solver_pubkey : option string;
  d_created_at : Z;
  d_taken_at : Z
}.

#[export] Instance DisputeRow_eta : Eta DisputeRow := fun d =>
  mkDispute (d_id d) (d_order_id d) (d_status d) (d_order_previous_status d)
    (d_solver_pubkey d) (d_created_at d) (d_taken_at d).

Inductive DisputeStatus : Type :=
| DInitiated | DInProgress | DSellerRefunded | DSettled | DReleased.

#[export] Instance DisputeStatus_eq_dec : EqDecision DisputeStatus.
Proof. solve_decision. Defined.

(** ** Messages *)

(** [mostro_core::message::BondResolution]. *)
Record BondResolution : Type := mkBondResolution { slash_seller : bool; slash_buyer : bool }.

Record UserInfo : Type := mkUserInfo { ui_rating : f64; ui_reviews : Z; ui_operating_days : Z }.

(** [RestoredDisputesInfo]. *)
Record RestoredDispute : Type := mkRestoredDispute {
  rd_dispute_id : Uuid;
  rd_order_id : Uuid;
  rd_trade_index : Z;
  rd_status : string;
  rd_initiator : option string;
  rd_solver_pubkey : option string
}.

(** What [SolverDisputeInfo::new] is built from. *)
Record SolverDisputeInfo : Type := mkSolverInfo {
  si_order : Order;
  si_dispute : DisputeRow;
  si_initiator_pubkey : string;
  si_counterpart : option User;
  si_initiator : option User
}.

Inductive Payload : Type :=
| PlOrder (o : SmallOrder)
| PlBondPayoutRequest (o : SmallOrder) (slashed_at : Z)
| PlPaymentRequest (o : option SmallOrder) (invoice : string) (amount : option Z)
| PlPaymentFailed (attempts interval : Z)
| PlPeer (pubkey : string) (reputation : option UserInfo)
| PlDispute (dispute : Uuid) (info : option SolverDisputeInfo)
| PlBondResolution (r : BondResolution)
| PlRatingUser (rating : Z)
| PlTextMessage (text : string)
| PlIds (ids : list Uuid)
| PlOrders (l : list SmallOrder)
| PlCashuLockProof (p : CashuLockProof)
| PlRestoreData (restored_orders : list (Uuid * option Z * string))
    (restored_disputes : list RestoredDispute).

(** An entry of [MESSAGE_QUEUES.queue_order_msg]. *)
Record QueuedMsg : Type := mkQueuedMsg {
  q_request_id : option Z;
  q_order_id : option Uuid;
  q_action : Action;
  q_payload : option Payload;
  q_destination : string;
  q_trade_index : option Z
}.

(** An entry of [MESSAGE_QUEUES.queue_order_cantdo]. *)
Record CantDoMsg : Type := mkCantDo {
  cd_request_id : option Z;
  cd_order_id : option Uuid;
  cd_reason : CantDoReason;
  cd_destination : string
}.

(** A client message: the fields of [MessageKind] the sources read, and what
    the daemon learns of its sender when it unwraps the event. *)
Record Message : Type := mkMessage {
  m_id : option Uuid;
  m_request_id : option Z;
  m_trade_index : option Z;
  m_action : Action;
  m_payload : option Payload
}.

Record UnwrappedMessage : Type := mkUnwrapped {
  u_message : Message;
  u_signature : option string;
  u_sender : string;
  u_identity : string;
  u_created_at : Z
}.

(** ** The database *)

Record DB : Type := mkDB {
  orders : list Order;
  bonds : list Bond;
  users : list User;
  disputes : list DisputeRow
}.

(** ** External requests *)

Record GrpcStatus : Type := mkGrpc { grpc_code : string; grpc_message : string }.

Inductive PaymentStatus : Type := PUnknown | PInFlight | PSucceeded | PFailed.

#[export] Instance PaymentStatus_eq_dec : EqDecision PaymentStatus.
Proof. solve_decision. Defined.

(** One update of a payment stream: the status after
    [PaymentStatus::try_from] ([None] when it is not a known value), the
    failure reason and the hash, in hex. *)
Record PaymentUpdate : Type := mkPaymentUpdate {
  pu_status : option PaymentStatus;
  pu_failure_reason : string;
  pu_payment_hash : string
}.

(** The stream of a [send_payment_v2] call as the client saw it: the updates
    delivered, and whether the caller's time bound elapsed before the stream
    ended. *)
Record PaymentStream : Type := mkPaymentStream {
  ps_updates : list PaymentUpdate;
  ps_elapsed : bool
}.

(** [lnrpc::invoice::InvoiceState]. *)
Inductive InvoiceState : Type := InvoiceOpen | InvoiceSettled | InvoiceCanceled | InvoiceAccepted.

(** An HTLC of an invoice: whether its state is [Accepted], and its expiry
    height. *)
Record InvoiceHtlc : Type := mkHtlc { htlc_accepted : bool; htlc_expiry_height : Z }.

(** [nostr_sdk::Event]. *)
Record NostrEvent : Type := mkNostrEvent {
  ne_id : string;
  ne_pubkey : string;
  ne_created_at : Z;
  ne_kind : Z;
  ne_tags : list (list string);
  ne_content : string;
  ne_sig : string
}.

(** A request of the operator's gRPC interface; the last carries the address
    of the client, when the transport knows it. *)
Inductive RpcRequest : Type :=
| CancelOrderRequest (order_id : string) (request_id : option string)
| SettleOrderRequest (order_id : string) (request_id : option string)
| AddSolverRequest (solver_pubkey : string) (request_id : option string)
| TakeDisputeRequest (dispute_id : string) (request_id : option string)
| GetVersionRequest
| ValidateDbPasswordRequest (remote_addr : option string) (password : string).

(** The clock, randomness, LND, the Nostr side and the message queue.  An
    [ext] that stands for a daemon function (publishing an order event) is one
    that writes no table.  [Elapsed secs] asks whether the time bound put on
    the work just done was exceeded, so that its result is lost.  The requests
    to the mint carry their time bound: [None] is a time-out. *)
Inductive ext : Type -> Type :=
| Now : ext Z
| NewUuid : ext Uuid
| RandomBytes32 : ext (list Z)
| LndConnect : ext (result unit string)
| LndSettleInvoice (preimage : list Z) : ext (result unit string)
| LndCancelInvoice (hash : list Z) : ext (result unit GrpcStatus)
| LndAddHoldInvoice (hash : list Z) (memo : string) (value cltv_expiry : Z) :
    ext (result string string)
| LndSubscribe (hash : list Z) : ext unit
| LndInvoiceUpdate (hash : list Z) : ext (option InvoiceState)
| LndTrackPayment (hash : list Z) :
    ext (result (option (option PaymentStatus)) GrpcStatus)
| LndTrackPaymentBounded (hash : list Z) (secs : Z) :
    ext (option (result (option (option PaymentStatus)) GrpcStatus))
| LndSendPaymentV2 (payment_request : string) (amt : option Z) (fee_limit : Z)
    (timeout_secs : Z) : ext (result PaymentStream string)
| LnExists (address : string) : ext bool
| ResolvLnAddress (address : string) (amount : Z) : ext (result string MostroError)
| GetKeys : ext (result unit MostroError)
| DbConnect : ext (result unit string)
| PublishOrderEvent (status : Status) (order : Order) (created_at : option Z) :
    ext (result (option string) MostroError)
| NewOrderEvent (order : Order) (identity trade : string) : ext (result string MostroError)
| GetBitcoinPrice (currency : string) : ext (result f64 MostroError)
| SendNewOrderEvent (order_id : Uuid) (event_id : string) : ext (result unit MostroError)
| Enqueue (m : QueuedMsg) : ext unit
| EnqueueCantDo (m : CantDoMsg) : ext unit
| EnqueueRestore (payload : option Payload) (destination : string) : ext unit
| SendDm (receiver message : string) : ext (result unit string)
| NewDisputeEvent (dispute : Uuid) (status initiator : string) (opened_at : Z) :
    ext (result string string)
| SendDisputeEvent (dispute : Uuid) (event : string) : ext (result unit string)
| NewChildOrderEvent (order : Order) (reputation : f64 * Z * Z) : ext (result string MostroError)
| SendOrderEvent (order_id : Uuid) (event_id : string) : ext bool
| MarkPublishFailed (order_id : Uuid) : ext unit
| NewRatingEvent (trade_pubkey : string) (user : User) (days : Z) : ext (result unit MostroError)
| LndChainHeight : ext (result Z string)
| LndLookupInvoice (hash : list Z) : ext (result (list InvoiceHtlc) string)
| NextEvent : ext NostrEvent
| NextRpc : ext RpcRequest
| InstantNow : ext Z
| GetNostrClient : ext (result unit MostroError)
| ResolvLnAddressBounded (address : string) (amount : Z) (comment : string) (secs : Z) :
    ext (option (result string MostroError))
| Elapsed (secs : Z) : ext bool
| PublishDevFeeAudit (order : Order) (payment_hash : string) : ext (result unit MostroError)
| GetMintInfo : ext (option (result MintInfo string))
| GetMintKeysets : ext (option (result (list KeySetInfo) string))
| GetMintKeys : ext (option (result (list KeySet) string))
| PostCheckState (ys : list string) : ext (option (result (list ProofState) string)).

Abbreviation M := (prog DB ext).
Abbreviation ask e := (@call DB ext _ e).

(** ** Third-party functions *)

Record Bolt11 : Type := mkBolt11 {
  payment_hash : list Z;
  amount_milli_satoshis : option Z;
  bolt11_currency : Currency;
  min_final_cltv_expiry_delta : Z;
  bolt11_expires_at : Z
}.

(** mostro-core, nostr-sdk, lightning-invoice, lnurl-rs, uuid, the hex decoder
    and SHA-256: pure functions the daemon calls and this development does not
    define. *)
Class Lib : Type := {
  status_to_string : Status -> string;
  status_from_str : string -> result Status ServiceError;
  kind_from_str : string -> result Kind ServiceError;
  error_to_string : MostroError -> string;
  pubkey_from_str : string -> result string string;
  from_hex : string -> result (list Z) string;
  raw_sha256 : list Z -> list Z;
  uuid_to_string : Uuid -> string;
  uuid_parse_str : string -> result Uuid string;
  pubkey_to_bech32 : string -> option string;
  i64_to_string : Z -> string;
  get_buyer_pubkey : Order -> result string ServiceError;
  get_seller_pubkey : Order -> result string ServiceError;
  get_master_buyer_pubkey : Order -> result string ServiceError;
  get_master_seller_pubkey : Order -> result string ServiceError;
  as_new_order : Order -> SmallOrder;
  set_timestamp_now : Z -> Order -> Order;
  bolt11_from_str : string -> option Bolt11;
  is_lightning_address : string -> bool;
  is_lnurl : string -> bool
}.

(** What the daemon relies on of the status spelling: [Display] and [FromStr]
    are inverse. *)
Class LibLaws `{Lib} : Prop := {
  status_from_to : forall s, status_from_str (status_to_string s) = Ok s
}.

(** Functions of mostro-core and of the lnurl crate that the payout of
    an order uses. *)
Class PayoutLib : Type := {
  count_failed_payment : Z -> Order -> Order;
  small_order_from : Order -> SmallOrder;
  ln_address_to_string : string -> string
}.

Section Accessors.
Context `{Lib}.

(** [Order::get_order_kind] and [Order::get_order_status]. *)
Definition get_order_kind (o : Order) : result Kind ServiceError := kind_from_str (o_kind o).
Definition get_order_status (o : Order) : result Status ServiceError :=
  status_from_str (o_status o).
End Accessors.

(** ** SQL on a table *)

Section Tables.
Context {Row : Type}.

(** [UPDATE t SET f WHERE p]: the rows and [rows_affected]. *)
Definition update_where (p : Row -> bool) (f : Row -> Row) (t : list Row) : list Row :=
  map (fun r => if p r then f r else r) t.
Definition count_where (p : Row -> bool) (t : list Row) : Z :=
  Z.of_nat (length (List.filter p t)).

(** [SELECT * FROM t WHERE p LIMIT 1]. *)
Definition select_one (p : Row -> bool) (t : list Row) : option Row := List.find p t.

(** [SELECT * FROM t WHERE p ORDER BY key ASC]. *)
Definition select_ordered (p : Row -> bool) (key : Row -> Z) (t : list Row) : list Row :=
  sort_by key (List.filter p t).

Definition exists_row (p : Row -> bool) (t : list Row) : bool := existsb p t.

Lemma in_update_where p f (t : list Row) r' :
  In r' (update_where p f t) <->
  exists r, In r t /\ r' = if p r then f r else r.
Proof.
  unfold update_where. rewrite in_map_iff. split; intros (r & H1 & H2); exists r; auto.
Qed.

Lemma select_one_spec p (t : list Row) r :
  select_one p t = Some r -> In r t /\ p r = true.
Proof. apply find_some. Qed.

Lemma insert_by_in key (x y : Row) l : In y (insert_by key x l) <-> y = x \/ In y l.
Proof.
  induction l as [|z l IH]; simpl; [intuition congruence|].
  case_match; simpl; rewrite ?IH; intuition congruence.
Qed.

Lemma sort_by_in key (l : list Row) y : In y (sort_by key l) <-> In y l.
Proof.
  unfold sort_by. enough (forall acc, In y (foldl (fun acc x => insert_by key x acc) acc l) <->
    In y acc \/ In y l) as ->; [simpl; tauto|].
  induction l as [|x l IH]; intros acc; simpl; [tauto|].
  rewrite IH, insert_by_in. intuition congruence.
Qed.

Lemma insert_by_perm key (x : Row) l : insert_by key x l ≡ₚ x :: l.
Proof.
  induction l as [|z l IH]; simpl; [done|]. case_match; [done|].
  rewrite IH. apply Permutation_swap.
Qed.

Lemma sort_by_perm key (l : list Row) : sort_by key l ≡ₚ l.
Proof.
  unfold sort_by. enough (forall acc,
    foldl (fun acc x => insert_by key x acc) acc l ≡ₚ acc ++ l) as E by apply E.
  induction l as [|x l IH]; intros acc; simpl; [by rewrite app_nil_r|].
  rewrite IH, insert_by_perm. apply Permutation_middle.
Qed.

Lemma select_ordered_nodup {K} (f : Row -> K) p key (t : list Row) :
  NoDup (map f t) -> NoDup (map f (select_ordered p key t)).
Proof.
  intros Hnd. unfold select_ordered.
  assert (map f (sort_by key (List.filter p t)) ≡ₚ map f (List.filter p t)) as ->
    by (apply fmap_Permutation, sort_by_perm).
  induction t as [|x t IH]; simpl in *; [constructor|].
  apply NoDup_cons in Hnd as [Hx Hnd]. destruct (p x); simpl; [|by apply IH].
  apply NoDup_cons. split; [|by apply IH]. intros Hin. apply Hx.
  apply list_elem_of_In in Hin. apply list_elem_of_In.
  apply in_map_iff in Hin as (y & E & Hy%filter_In). apply in_map_iff. exists y. tauto.
Qed.

Lemma select_ordered_in p key (t : list Row) r :
  In r (select_ordered p key t) <-> In r t /\ p r = true.
Proof. unfold select_ordered. rewrite sort_by_in. apply filter_In. Qed.
End Tables.

(** [UPDATE bonds SET f WHERE p], returning [rows_affected]. *)
Definition update_bonds (p : Bond -> bool) (f : Bond -> Bond) (db : DB) : DB * Z :=
  (mkDB (orders db) (update_where p f (bonds db)) (users db) (disputes db), count_where p (bonds db)).

Definition update_orders (p : Order -> bool) (f : Order -> Order) (db : DB) : DB * Z :=
  (mkDB (update_where p f (orders db)) (bonds db) (users db) (disputes db), count_where p (orders db)).

Definition update_users (p : User -> bool) (f : User -> User) (db : DB) : DB * Z :=
  (mkDB (orders db) (bonds db) (update_where p f (users db)) (disputes db), count_where p (users db)).

Definition update_disputes (p : DisputeRow -> bool) (f : DisputeRow -> DisputeRow) (db : DB) :
    DB * Z :=
  (mkDB (orders db) (bonds db) (users db) (update_where p f (disputes db)),
   count_where p (disputes db)).

Definition insert_order (o : Order) (db : DB) : DB := mkDB (orders db ++ [o]) (bonds db) (users db) (disputes db).

Definition insert_bond (b : Bond) (db : DB) : DB := mkDB (orders db) (bonds db ++ [b]) (users db) (disputes db).

(** A [SELECT]: no effect on the database. *)
Definition query {R} (f : DB -> R) (db : DB) : DB * R := (db, f db).

(** [sqlx::Error] mapped to the service error, as every caller does. *)
Definition sql_or_db_error {R} (stmt : DB -> DB * R) : M (result R MostroError) :=
  bind (sql stmt)
    (fun r => Ret (map_err (fun e => MostroInternalErr (DbAccessError e)) r)).

(** [WHERE id = i AND state = s]. *)
Definition with_id_state (i : Uuid) (s : BondState) (b : Bond) : bool :=
  N.eqb (id b) i && state_is s b.

Definition opt_uuid_eqb (o : option Uuid) (i : Uuid) : bool :=
  match o with Some j => N.eqb j i | None => false end.
