(* ===== verification/Messages.v ===== *)
(** * Client messages and the library functions that read them

    A client talks to the daemon in Nostr events that wrap a [Message].  The
    event and message types, their signature and proof-of-work checks, and the
    validations of an order's fields belong to the nostr-sdk and mostro-core
    crates: [Core] lists the functions of theirs that the message handlers
    call, under the crates' names. *)

From S2P Require Import Prelude Float64 Config BondTypes Effects Model.

Open Scope Z_scope.

Class Core : Type := {
  (** nostr-sdk *)
  check_pow : NostrEvent -> Z -> bool;
  event_verify : NostrEvent -> bool;
  (** mostro-core: the transport *)
  unwrap_incoming : NostrEvent -> result (option UnwrappedMessage) string;
  (** mostro-core: messages *)
  msg_trade_index : Message -> Z;
  msg_as_json : Message -> result string string;
  verify_signature : string -> string -> string -> bool;
  msg_verify : Message -> bool;
  inner_action : Message -> option Action;
  msg_order : Message -> option SmallOrder;
  msg_payment_request : Message -> option string;
  msg_amount : Message -> option Z;
  (** mostro-core: orders *)
  order_from : SmallOrder -> Order;
  order_default : Order;
  user_default : User;
  kind_to_string : Kind -> string;
  check_fiat_currency : SmallOrder -> list string -> result unit CantDoReason;
  check_fiat_amount : SmallOrder -> result unit CantDoReason;
  check_amount : SmallOrder -> result unit CantDoReason;
  check_range_order_limits : SmallOrder -> list Z -> result (list Z) CantDoReason;
  check_zero_amount_with_premium : SmallOrder -> result unit CantDoReason;
  is_sell_order : Order -> result unit CantDoReason;
  is_buy_order : Order -> result unit CantDoReason;
  check_status : Order -> Status -> result unit CantDoReason;
  not_sent_from_maker : Order -> string -> result unit CantDoReason;
  has_no_amount : Order -> bool;
  is_range_order : Order -> bool;
  sent_from_maker : Order -> string -> result unit CantDoReason;
  get_creator_pubkey : Order -> result string ServiceError;
  is_full_privacy_order : Order -> result (option string * option string) ServiceError;
  setup_dispute : Order -> bool -> result Order CantDoReason;
  get_next_trade_key : Message -> result (option (string * Z)) ServiceError;
  get_rating : Message -> result Z ServiceError;
  (** mostro-core: disputes and ratings *)
  dispute_status_to_string : DisputeStatus -> string;
  dispute_status_from_str : string -> result DisputeStatus ServiceError;
  dispute_new : Uuid -> Z -> Uuid -> string -> DisputeRow;
  update_rating : User -> Z -> User;
  (** mostro-core: [User::new]; nostr-sdk: [PublicKey::from_bech32] *)
  user_new : string -> Z -> Z -> Z -> Z -> Z -> User;
  from_bech32 : string -> option string;
  (** mostro-core: [ServiceError::to_string] *)
  service_error_to_string : ServiceError -> string;
  (** mostro-core: the range of a rating *)
  MIN_RATING : Z;
  MAX_RATING : Z
}.

(** What the handlers rely on: [MessageKind::trade_index] is the index of the
    message, 0 when it has none, and [Message::inner_action] returns the action
    of the message. *)
Class MessageLaws `{Core} : Prop := {
  msg_trade_index_default : forall m, msg_trade_index m = default 0 (m_trade_index m);
  inner_action_is : forall m a, inner_action m = Some a -> a = m_action m
}.

(** [enqueue_cant_do_msg] ([src/util.rs]). *)
Definition enqueue_cant_do_msg (request_id : option Z) (order_id : option Uuid)
    (reason : CantDoReason) (destination : string) : M unit :=
  ask (EnqueueCantDo (mkCantDo request_id order_id reason destination)).
