(* ===== verification/Lightning.v ===== *)
(** * The LND connector and payment-request validation

    [src/lightning/mod.rs] and [src/lightning/invoice.rs]: what the daemon
    does around each LND call.  The gRPC calls themselves are the requests of
    [Model.ext]; a bounded [await] is a request whose answer says whether the
    bound elapsed. *)

From S2P Require Import Prelude Float64 Config BondMath BondTypes Effects Model.

Open Scope Z_scope.
Open Scope prog_scope.

(** ** Bytes as hexadecimal text ([src/util.rs], [bytes_to_string]) *)

Definition hex_digit (n : Z) : ascii :=
  Ascii.ascii_of_nat (Z.to_nat (if n <? 10 then 48 + n else 87 + n)).

Definition hex_byte (b : Z) : string :=
  String (hex_digit (b / 16)) (String (hex_digit (b mod 16)) EmptyString).

Definition bytes_to_string (bytes : list Z) : string :=
  foldl (fun out b => String.append out (hex_byte b)) "" bytes.

(** ** The connector *)

Definition LND_PAYMENT_ROUTE_TIMEOUT_SECS : Z := 60.
Definition PAYOUT_SEND_PAYMENT_TIMEOUT : Z := LND_PAYMENT_ROUTE_TIMEOUT_SECS + 15.
Definition DUPLICATE_GUARD_LOOKUP_TIMEOUT : Z := 2.
Definition HASH_LEN : nat := 32.

Section Connector.
Context `{Lib} (settings : Settings).

Definition decode_hash32 (field value : string) : result (list Z) MostroError :=
  match from_hex value with
  | Err e =>
      Err (MostroInternalErr (HoldInvoiceError
        ("invalid " +:+ field +:+ ": not valid hex (" +:+ e +:+ ")")))
  | Ok bytes =>
      if bool_decide (length bytes = HASH_LEN) then Ok bytes
      else Err (MostroInternalErr (HoldInvoiceError
        ("invalid " +:+ field +:+ ": expected 32 bytes")))
  end.

(** [LndConnector::new]. *)
Definition lnd_new : M (result unit MostroError) :=
  r <- ask LndConnect ;;
  Ret (map_err (fun e => MostroInternalErr (LnNodeError e)) r).

Definition settle_hold_invoice (preimage : string) : M (result unit MostroError) :=
  preimage <-? Ret (decode_hash32 "preimage" preimage) ;;
  settle <- ask (LndSettleInvoice preimage) ;;
  Ret (map_err (fun e => MostroInternalErr (LnNodeError e)) settle).

Definition cancel_hold_invoice (hash : string) : M (result unit MostroError) :=
  payment_hash <-? Ret (decode_hash32 "payment hash" hash) ;;
  cancel <- ask (LndCancelInvoice payment_hash) ;;
  Ret (map_err (fun st => MostroInternalErr (LnNodeError
         ("code=" +:+ grpc_code st +:+ " message=" +:+ grpc_message st))) cancel).

Definition get_chain_height : M (result Z MostroError) :=
  r <- ask LndChainHeight ;;
  Ret (map_err (fun e => MostroInternalErr (LnNodeError e)) r).

(** The earliest expiry height among the accepted HTLCs. *)
Definition earliest_expiry (htlcs : list InvoiceHtlc) : option Z :=
  foldr (fun h acc =>
           if htlc_accepted h
           then Some (match acc with
                      | Some m => Z.min (Z.max (htlc_expiry_height h) 0) m
                      | None => Z.max (htlc_expiry_height h) 0
                      end)
           else acc) None htlcs.

Definition get_hold_invoice_expiry_height (hash : string) : M (result (option Z) MostroError) :=
  r_hash <-? Ret (decode_hash32 "payment hash" hash) ;;
  invoice <- ask (LndLookupInvoice r_hash) ;;
  Ret (match invoice with
       | Ok htlcs => Ok (earliest_expiry htlcs)
       | Err e => Err (MostroInternalErr (LnNodeError e))
       end).

(** [LndConnector::create_hold_invoice]: the payment request, the random
    preimage and its hash. *)
Definition create_hold_invoice (description : string) (amount : Z) :
    M (result (string * list Z * list Z) MostroError) :=
  preimage <- ask RandomBytes32 ;;
  let hash := raw_sha256 preimage in
  let cltv_expiry := hold_invoice_cltv_delta (get_ln settings) in
  r <- ask (LndAddHoldInvoice hash description amount cltv_expiry) ;;
  Ret (match r with
       | Ok payment_request => Ok (payment_request, preimage, hash)
       | Err e => Err (MostroInternalErr (LnNodeError
                        (error_to_string (MostroInternalErr (LnNodeError e)))))
       end).

(** How both lookups read the answer of [track_payment_v2]. *)
Definition track_result (r : result (option (option PaymentStatus)) GrpcStatus) :
    result (option PaymentStatus) MostroError :=
  match r with
  | Ok None => Ok None
  | Ok (Some (Some st)) => Ok (Some st)
  | Ok (Some None) => Err (MostroInternalErr (LnPaymentError "Unknown payment status"))
  | Err st =>
      if str_eqb (grpc_code st) "NotFound" then Ok None
      else Err (MostroInternalErr (LnPaymentError
             ("code=" +:+ grpc_code st +:+ " message=" +:+ grpc_message st)))
  end.

Definition lookup_payment_status (payment_hash : list Z) :
    M (result (option PaymentStatus) MostroError) :=
  r <- ask (LndTrackPayment payment_hash) ;; Ret (track_result r).

Definition decode_invoice (payment_request : string) : result Bolt11 MostroError :=
  ok_or (bolt11_from_str payment_request) (MostroInternalErr InvoiceInvalidError).

(** The [u64] product [amount as u64 * 1000]. *)
Definition msat_of_sat (amount : Z) : Z := ((amount mod 2 ^ 64) * 1000) mod 2 ^ 64.

(** [LndConnector::send_payment] with its listener drained by the caller and
    the caller's time bound on it: the stream returned is what the listener
    received until the payment stream ended or the bound elapsed. *)
Definition send_payment (payment_request : string) (amount : Z) :
    M (result PaymentStream MostroError) :=
  invoice <-? Ret (decode_invoice payment_request) ;;
  let hash := payment_hash invoice in
  let max_fee := routing_fee_cap_sats (get_mostro settings) amount in
  guard <- ask (LndTrackPaymentBounded hash DUPLICATE_GUARD_LOOKUP_TIMEOUT) ;;
  let already :=
    match guard with
    | Some r =>
        match track_result r with
        | Ok (Some PInFlight) | Ok (Some PSucceeded) => true
        | _ => false
        end
    | None => false
    end in
  if already then
    Ret (Err (MostroInternalErr (LnPaymentError "payment already dispatched for this hash")))
  else
    let wrong :=
      match amount_milli_satoshis invoice with
      | Some amt => negb (amt =? msat_of_sat amount)
      | None => false
      end in
    if wrong then Ret (Err (MostroInternalErr (LnPaymentError "Wrong amount")))
    else
      let amt := match amount_milli_satoshis invoice with
                 | Some _ => None
                 | None => Some amount
                 end in
      stream <- ask (LndSendPaymentV2 payment_request amt max_fee
                        LND_PAYMENT_ROUTE_TIMEOUT_SECS) ;;
      Ret (map_err (fun e => MostroInternalErr (LnPaymentError
             (error_to_string (MostroInternalErr (LnPaymentError e))))) stream).

(** ** Validation of a payout request *)

Definition currency_for_network (network : string) : option Currency :=
  if str_eqb network "mainnet" then Some Bitcoin
  else if str_eqb network "testnet" then Some BitcoinTestnet
  else if str_eqb network "regtest" then Some Regtest
  else if str_eqb network "signet" then Some Signet
  else if str_eqb network "simnet" then Some Simnet
  else None.

Definition node_currency : option Currency :=
  match ln_networks settings with
  | Some (network :: _) => currency_for_network network
  | _ => None
  end.

Definition invoice_currency_is_payable (invoice : Bolt11) (expected : option Currency) : bool :=
  match expected with
  | Some c => bool_decide (bolt11_currency invoice = c)
  | None => true
  end.

Definition invalid_invoice {A} : result A MostroError :=
  Err (MostroInternalErr InvoiceInvalidError).

(** The clock counts whole seconds, for [Bolt11Invoice::is_expired] too. *)
Definition validate_payout_invoice (invoice : Bolt11) : M (result unit MostroError) :=
  if negb (invoice_currency_is_payable invoice node_currency) then Ret invalid_invoice
  else if max_final_cltv_expiry_delta (get_ln settings) <? min_final_cltv_expiry_delta invoice
  then Ret invalid_invoice
  else
    now <- ask Now ;;
    if bolt11_expires_at invoice <? now then Ret invalid_invoice else Ret (Ok tt).

Definition validate_bolt11_invoice (payment_request : string) (amount fee : option Z) :
    M (result unit MostroError) :=
  invoice <-? Ret (decode_invoice payment_request) ;;
  let amount_sat := default 0 (amount_milli_satoshis invoice) / 1000 in
  let fee := default 0 fee in
  _ <-? validate_payout_invoice invoice ;;
  let amount_ok :=
    match amount with
    | Some amt =>
        if fee <=? amt then (amount_sat =? amt - fee) || (amount_sat =? 0) else false
    | None => true
    end in
  if negb amount_ok then Ret invalid_invoice
  else if (0 <? amount_sat) && (amount_sat <? min_payment_amount (get_mostro settings))
  then Ret invalid_invoice
  else
    now <- ask Now ;;
    let latest_date := now + invoice_expiration_window (get_ln settings) in
    if bolt11_expires_at invoice <? latest_date then Ret invalid_invoice else Ret (Ok tt).

Definition validate_lightning_address (payment_request : string) :
    M (result unit MostroError) :=
  found <- ask (LnExists payment_request) ;;
  if found then Ret (Ok tt) else Ret invalid_invoice.

Definition is_valid_invoice (payment_request : string) (amount fee : option Z) :
    M (result unit MostroError) :=
  if is_lightning_address payment_request || is_lnurl payment_request
  then validate_lightning_address payment_request
  else validate_bolt11_invoice payment_request amount fee.
End Connector.

(** What the daemon relies on of the hex codec and of SHA-256: decoding what
    [bytes_to_string] printed gives the bytes back, and a digest is 32 bytes. *)
Definition is_byte (b : Z) : Prop := 0 <= b < 256.

Class HexLaws `{Lib} : Prop := {
  from_hex_bytes : forall bs, Forall is_byte bs -> from_hex (bytes_to_string bs) = Ok bs;
  sha256_bytes : forall bs, Forall is_byte (raw_sha256 bs);
  sha256_length : forall bs, length (raw_sha256 bs) = HASH_LEN
}.

(** [enqueue_order_msg] ([src/util.rs]). *)
Definition enqueue_order_msg (request_id : option Z) (order_id : option Uuid)
    (action : Action) (payload : option Payload) (destination : string)
    (trade_index : option Z) : M unit :=
  ask (Enqueue (mkQueuedMsg request_id order_id action payload destination trade_index)).
