(* ===== verification/Demo.v ===== *)
(** * A concrete world

    An instance of the third-party functions, with the laws the development
    assumes of them proved for it, and a small configuration.  The witnesses
    of the theorems run the modelled daemon in this world. *)

From Stdlib Require Import QArith.
From stdpp Require Import pretty.
From S2P Require Import Prelude Float64 Config CashuTypes BondTypes BondMath Effects Model Messages Lightning.

Open Scope Z_scope.

(** ** Hexadecimal text *)

Definition hex_value (c : ascii) : option Z :=
  let n := Z.of_nat (Ascii.nat_of_ascii c) in
  if (48 <=? n) && (n <=? 57) then Some (n - 48)
  else if (97 <=? n) && (n <=? 102) then Some (n - 87)
  else None.

Fixpoint hex_decode (s : string) : result (list Z) string :=
  match s with
  | EmptyString => Ok []
  | String a (String b rest) =>
      match hex_value a, hex_value b, hex_decode rest with
      | Some x, Some y, Ok bs => Ok (16 * x + y :: bs)
      | _, _, _ => Err "invalid hex"
      end
  | String _ EmptyString => Err "odd length"
  end.

Lemma append_nil_r s : s +:+ "" = s.
Proof. induction s as [|a s IH]; [done|]. change (String a (s +:+ "") = String a s). by rewrite IH. Qed.

Lemma append_assoc s t u : s +:+ ("" +:+ t) +:+ u = (s +:+ t) +:+ u.
Proof.
  induction s as [|a s IH]; [done|].
  change (String a (s +:+ ("" +:+ t) +:+ u) = String a ((s +:+ t) +:+ u)). by rewrite IH.
Qed.

Lemma bytes_to_string_cons b bs : bytes_to_string (b :: bs) = hex_byte b +:+ bytes_to_string bs.
Proof.
  unfold bytes_to_string. simpl.
  enough (forall acc, foldl (fun out b => out +:+ hex_byte b) acc bs
                      = acc +:+ foldl (fun out b => out +:+ hex_byte b) "" bs) as -> by done.
  induction bs as [|c bs IH]; intros acc; cbn [foldl].
  - symmetry. apply append_nil_r.
  - rewrite IH, (IH ("" +:+ hex_byte c)). by rewrite append_assoc.
Qed.

Lemma hex_value_digit n : 0 <= n < 16 -> hex_value (hex_digit n) = Some n.
Proof.
  intros Hn. rewrite <- (Z2Nat.id n) by lia.
  assert (Z.to_nat n < 16)%nat as Hk by lia. generalize dependent (Z.to_nat n). intros k Hk.
  do 16 (destruct k as [|k]; [reflexivity|]). lia.
Qed.

Lemma hex_decode_bytes bs : Forall is_byte bs -> hex_decode (bytes_to_string bs) = Ok bs.
Proof.
  induction 1 as [|b bs Hb _ IH]; [done|]. unfold is_byte in Hb.
  rewrite bytes_to_string_cons.
  change (hex_byte b +:+ bytes_to_string bs)
    with (String (hex_digit (b / 16)) (String (hex_digit (b mod 16)) (bytes_to_string bs))).
  cbn [hex_decode]. rewrite !hex_value_digit; [|apply Z.mod_pos_bound; lia|split; [apply Z.div_pos; lia|apply Z.div_lt_upper_bound; lia]].
  rewrite IH. f_equal. f_equal. symmetry. apply Z.div_mod. lia.
Qed.

(** ** The instance *)

Definition demo_sha256 (bs : list Z) : list Z := (sumZ bs mod 256) :: replicate 31 7.

Definition demo_status_to_string (s : Status) : string :=
  match s with
  | Active => "active"
  | Canceled => "canceled"
  | CanceledByAdmin => "canceled-by-admin"
  | SettledByAdmin => "settled-by-admin"
  | CompletedByAdmin => "completed-by-admin"
  | Dispute => "dispute"
  | Expired => "expired"
  | FiatSent => "fiat-sent"
  | SettledHoldInvoice => "settled-hold-invoice"
  | Pending => "pending"
  | Success => "success"
  | WaitingBuyerInvoice => "waiting-buyer-invoice"
  | WaitingPayment => "waiting-payment"
  | CooperativelyCanceled => "cooperatively-canceled"
  | InProgress => "in-progress"
  | WaitingTakerBond => "waiting-taker-bond"
  | WaitingMakerBond => "waiting-maker-bond"
  end.

Definition all_statuses : list Status :=
  [Active; Canceled; CanceledByAdmin; SettledByAdmin; CompletedByAdmin; Dispute; Expired;
   FiatSent; SettledHoldInvoice; Pending; Success; WaitingBuyerInvoice; WaitingPayment;
   CooperativelyCanceled; InProgress; WaitingTakerBond; WaitingMakerBond].

Definition demo_status_from_str (s : string) : result Status ServiceError :=
  match List.find (fun st => str_eqb (demo_status_to_string st) s) all_statuses with
  | Some st => Ok st
  | None => Err (OtherServiceError "invalid status")
  end.

Definition demo_kind_from_str (s : string) : result Kind ServiceError :=
  if str_eqb s "buy" then Ok Buy
  else if str_eqb s "sell" then Ok Sell
  else Err (OtherServiceError "invalid kind").

Definition demo_service_error (e : ServiceError) : string :=
  match e with
  | DbAccessError s | UnexpectedError s | HoldInvoiceError s | LnNodeError s
  | LnPaymentError s | NostrError s | OtherServiceError s | IOError s => s
  | InvoiceInvalidError => "invalid invoice"
  | InvalidPubkey => "invalid pubkey"
  | UpdateOrderStatusError => "update order status error"
  | LnAddressParseError => "ln address parse error"
  | InvalidOrderStatus => "invalid order status"
  | NoAPIResponse => "no api response"
  | PriceTooStale => "price too stale"
  | InvalidPayloadError => "invalid payload"
  | DisputeAlreadyExists => "dispute already exists"
  | DisputeEventError => "dispute event error"
  | InvalidDisputeId => "invalid dispute id"
  | WrongAmountError => "wrong amount"
  | MalformedAPIRes => "malformed api response"
  | MessageSerializationError => "message serialization error"
  end.

Definition demo_error_to_string (e : MostroError) : string :=
  match e with
  | MostroInternalErr e => demo_service_error e
  | MostroCantDo _ => "cant do"
  end.

Definition demo_pubkey (o : option string) : result string ServiceError :=
  match o with Some s => Ok s | None => Err InvalidPubkey end.

Definition demo_hash (b : Z) : list Z := b :: replicate 31 0.

(** ["inv"] is a bolt11 for 500 sats, ["inv-msat"] one for 500.7 sats, ["inv-any"]
    one without an amount; ["joe@x"] is a Lightning address. *)
Definition demo_bolt11 (s : string) : option Bolt11 :=
  if str_eqb s "inv" then Some (mkBolt11 (demo_hash 1) (Some 500000) Regtest 40 9000000000)
  else if str_eqb s "inv-msat" then Some (mkBolt11 (demo_hash 2) (Some 500700) Regtest 40 9000000000)
  else if str_eqb s "inv-any" then Some (mkBolt11 (demo_hash 3) None Regtest 40 9000000000)
  else None.

#[export] Instance demo_lib : Lib := {|
  status_to_string := demo_status_to_string;
  status_from_str := demo_status_from_str;
  kind_from_str := demo_kind_from_str;
  error_to_string := demo_error_to_string;
  pubkey_from_str := fun s => if str_eqb s "" then Err "empty key" else Ok s;
  from_hex := hex_decode;
  raw_sha256 := demo_sha256;
  uuid_to_string := fun _ => "uuid";
  uuid_parse_str := fun s => Ok (N.of_nat (String.length s));
  pubkey_to_bech32 := fun s => Some s;
  i64_to_string := pretty;
  get_buyer_pubkey := fun o => demo_pubkey (o_buyer_pubkey o);
  get_seller_pubkey := fun o => demo_pubkey (o_seller_pubkey o);
  get_master_buyer_pubkey := fun o => demo_pubkey (o_master_buyer_pubkey o);
  get_master_seller_pubkey := fun o => demo_pubkey (o_master_seller_pubkey o);
  as_new_order := fun o =>
    small_order (Some (o_id o)) None None (o_amount o) (o_fiat_code o) (o_min_amount o)
      (o_max_amount o) (o_fiat_amount o) (o_payment_method o) (o_premium o);
  set_timestamp_now := fun now o => o <| o_taken_at := now |>;
  bolt11_from_str := demo_bolt11;
  is_lightning_address := fun s => str_eqb s "joe@x";
  is_lnurl := fun _ => false
|}.

#[export] Instance demo_laws : LibLaws.
Proof. split. by intros []. Qed.

#[export] Instance demo_hex_laws : HexLaws.
Proof.
  split; simpl.
  - apply hex_decode_bytes.
  - intros bs. apply Forall_cons. split; [apply Z.mod_pos_bound; lia|].
    apply Forall_replicate. by unfold is_byte.
  - intros bs. done.
Qed.

(** ** A configuration and an order *)

Definition demo_bond_settings : AntiAbuseBondSettings :=
  mkBondSettings true (f64_dec 1 2) 1000 Both true (f64_dec 5 1) 300 2 15.

Definition demo_settings : Settings :=
  mkSettings (Some demo_bond_settings)
    (mkMostroSettings (f64_dec 6 3) (f64_dec 2 3) 100 (f64_dec 30 2) 1000000 [] 15 24 0
       (Some 8) 900 10 (Some "  demo ") Nip44Direct)
    (mkLightningSettings 3600 144 1000 3 60 24 300) (Some ["regtest"]) None None ["wss://relay"].

(** A sell order [i] of [maker] taken by [taker], in status [st]. *)
Definition demo_order (i : Uuid) (st : Status) : Order :=
  mkOrder i "sell" "" None None "maker" None None (Some "taker") (Some "taker-id")
    (Some "maker") (Some "maker-id") (demo_status_to_string st) false 0 "cash" 100000 None None
    false false false false 300 0 "USD" 50 None None 0 0 0 false false 0 false 0 None None None
    None 0 false None None None None None None.

(** ** Messages

    The proof of work of an event is its number of tags, its signature must
    name its author and id, and its content names the action.  The tags carry
    the identity key and, as its length, the trade index. *)

Definition demo_sig (e : NostrEvent) : string := ne_pubkey e +:+ "/" +:+ ne_id e.

Fixpoint demo_tag (name : string) (tags : list (list string)) : option string :=
  match tags with
  | [k; v] :: tags' => if str_eqb k name then Some v else demo_tag name tags'
  | _ :: tags' => demo_tag name tags'
  | [] => None
  end.

Definition demo_action (content : string) : Action :=
  if str_eqb content "new-order" then NewOrder
  else if str_eqb content "take-sell" then TakeSell
  else if str_eqb content "take-buy" then TakeBuy
  else if str_eqb content "release" then Release
  else if str_eqb content "cancel" then Cancel
  else if str_eqb content "admin-settle" then AdminSettle
  else if str_eqb content "admin-cancel" then AdminCancel
  else if str_eqb content "fiat-sent" then ActionFiatSent
  else if str_eqb content "add-cashu-escrow" then AddCashuEscrow
  else Orders.

(** The keys of a trade with a Cashu escrow, and the proof its seller sends. *)
Definition key_of (c : ascii) : string := String.string_of_list_ascii (replicate 64 c).
Definition demo_seller : string := key_of "a"%char.
Definition demo_buyer : string := key_of "b"%char.
Definition demo_node : string := key_of "c"%char.

Definition demo_payload (content : string) : option Payload :=
  if str_eqb content "add-cashu-escrow"
  then Some (PlCashuLockProof (mkLockProof "https://mint" "cashuB" demo_buyer demo_seller demo_node))
  else None.

Definition demo_message (e : NostrEvent) : Message :=
  mkMessage (Some 7%N) None
    (option_map (fun s => Z.of_nat (String.length s)) (demo_tag "index" (ne_tags e)))
    (demo_action (ne_content e)) (demo_payload (ne_content e)).

Definition demo_unwrap (e : NostrEvent) : UnwrappedMessage :=
  mkUnwrapped (demo_message e) (Some "inner") (ne_pubkey e)
    (default (ne_pubkey e) (demo_tag "identity" (ne_tags e))) (ne_created_at e).

#[export] Instance demo_payout_lib : PayoutLib := {|
  count_failed_payment := fun retries o =>
    o <| o_failed_payment := true |>
      <| o_payment_attempts := Z.min (o_payment_attempts o + 1) retries |>;
  small_order_from := as_new_order;
  ln_address_to_string := fun s => s
|}.

(** The seller of order 7 releases it. *)
Definition demo_release : NostrEvent :=
  let tags := replicate 8 [] in
  let e := mkNostrEvent "id" "maker" 1000 14 tags "release" "" in
  mkNostrEvent "id" "maker" 1000 14 tags "release" (demo_sig e).

Definition demo_small_order : SmallOrder :=
  small_order None (Some Sell) None 100000 "USD" None None 50 "cash" 0.

Definition demo_has_status (o : Order) (s : Status) : result unit CantDoReason :=
  if str_eqb (o_status o) (demo_status_to_string s) then Ok tt else Err CantDoInvalidOrderStatus.

Definition demo_has_kind (k : string) (o : Order) : result unit CantDoReason :=
  if str_eqb (o_kind o) k then Ok tt else Err InvalidOrderKind.

Definition demo_setup_dispute (o : Order) (buyer : bool) : result Order CantDoReason :=
  if if buyer then o_buyer_dispute o else o_seller_dispute o then Err InvalidPayload
  else Ok ((if buyer then o <| o_buyer_dispute := true |> else o <| o_seller_dispute := true |>)
             <| o_status := demo_status_to_string Dispute |>).

Definition demo_dispute_status (s : DisputeStatus) : string :=
  match s with
  | DInitiated => "initiated"
  | DInProgress => "in-progress"
  | DSellerRefunded => "seller-refunded"
  | DSettled => "settled"
  | DReleased => "released"
  end.

#[export] Instance demo_core : Core := {|
  check_pow := fun e d => d <=? Z.of_nat (length (ne_tags e));
  event_verify := fun e => str_eqb (ne_sig e) (demo_sig e);
  unwrap_incoming := fun e => Ok (Some (demo_unwrap e));
  msg_trade_index := fun m => default 0 (m_trade_index m);
  msg_as_json := fun _ => Ok "{}";
  verify_signature := fun _ _ _ => true;
  msg_verify := fun _ => true;
  inner_action := fun m => Some (m_action m);
  msg_order := fun m => if bool_decide (m_action m = NewOrder) then Some demo_small_order else None;
  msg_payment_request := fun _ => None;
  msg_amount := fun m => match m_payload m with Some (PlPaymentRequest _ _ a) => a | _ => None end;
  order_from := fun _ => demo_order 0 Pending;
  order_default := (demo_order 0 Pending) <| o_buyer_pubkey := None |> <| o_master_buyer_pubkey := None |>;
  user_default := mkUser "" 0 None 0 0 0 0 0 (Fin 0) 0 0 0 0;
  kind_to_string := fun k => match k with Buy => "buy" | Sell => "sell" end;
  check_fiat_currency := fun _ _ => Ok tt;
  check_fiat_amount := fun o => if 0 <? so_fiat_amount o then Ok tt else Err InvalidAmount;
  check_amount := fun o => if 0 <=? so_amount o then Ok tt else Err InvalidAmount;
  check_range_order_limits := fun _ l => Ok l;
  check_zero_amount_with_premium := fun _ => Ok tt;
  is_sell_order := demo_has_kind "sell";
  is_buy_order := demo_has_kind "buy";
  check_status := demo_has_status;
  not_sent_from_maker := fun o k => if str_eqb (o_creator_pubkey o) k then Err InvalidPayload else Ok tt;
  has_no_amount := fun o => o_amount o =? 0;
  is_range_order := fun o => is_some (o_min_amount o) && is_some (o_max_amount o);
  sent_from_maker := fun o k => if str_eqb (o_creator_pubkey o) k then Ok tt else Err CantDoInvalidPubkey;
  get_creator_pubkey := fun o => Ok (o_creator_pubkey o);
  is_full_privacy_order := fun o => Ok (o_master_buyer_pubkey o, o_master_seller_pubkey o);
  setup_dispute := demo_setup_dispute;
  get_next_trade_key := fun _ => Ok None;
  get_rating := fun _ => Ok 5;
  dispute_status_to_string := demo_dispute_status;
  dispute_status_from_str := fun s =>
    match List.find (fun st => str_eqb (demo_dispute_status st) s)
            [DInitiated; DInProgress; DSellerRefunded; DSettled; DReleased] with
    | Some st => Ok st
    | None => Err (OtherServiceError "invalid dispute status")
    end;
  dispute_new := fun i now o st => mkDispute i o (demo_dispute_status DInitiated) st None now 0;
  update_rating := fun u r => u <| last_rating := r |> <| total_reviews := total_reviews u + 1 |>
                                <| total_rating := Fin (inject_Z r) |>
                                <| min_rating := r |> <| max_rating := r |>;
  user_new := fun k admin solver banned cat idx =>
    mkUser k admin None solver banned cat idx 0 (Fin 0) 0 0 0 0;
  from_bech32 := fun s => Some s;
  service_error_to_string := demo_service_error;
  MIN_RATING := 1;
  MAX_RATING := 5
|}.

#[export] Instance demo_message_laws : MessageLaws.
Proof. split; [done|]. by intros m a [= <-]. Qed.

(** ** An outside world that cooperates

    The clock stands at [now]; identifiers and preimages are derived from the
    length of the history, so they are fresh; LND accepts, settles, cancels and
    pays what it is asked to; no statement fails. *)

Definition demo_answer (now : Z) (R : Type) (e : ext R) (tr : list (obs DB ext)) : R :=
  match e in ext R' return R' with
  | Now => now
  | NewUuid => N.of_nat (length tr)
  | RandomBytes32 => (Z.of_nat (length tr) mod 256) :: replicate 31 5
  | LndConnect => Ok tt
  | LndSettleInvoice _ => Ok tt
  | LndCancelInvoice _ => Ok tt
  | LndAddHoldInvoice _ _ _ _ => Ok "lnbc-hold"
  | LndSubscribe _ => tt
  | LndInvoiceUpdate _ => Some InvoiceAccepted
  | LndTrackPayment _ => Ok None
  | LndTrackPaymentBounded _ _ => Some (Ok None)
  | LndSendPaymentV2 pr _ _ _ =>
      let hash := match demo_bolt11 pr with
                  | Some inv => bytes_to_string (payment_hash inv)
                  | None => ""
                  end in
      Ok (mkPaymentStream [mkPaymentUpdate (Some PSucceeded) "" hash] false)
  | LnExists _ => true
  | ResolvLnAddress _ _ => Ok "inv-any"
  | GetKeys => Ok tt
  | DbConnect => Ok tt
  | PublishOrderEvent _ _ _ => Ok (Some "event")
  | NewOrderEvent _ _ _ => Ok "event"
  | GetBitcoinPrice _ => Ok (Fin 50000%Q)
  | SendNewOrderEvent _ _ => Ok tt
  | Enqueue _ => tt
  | EnqueueCantDo _ => tt
  | EnqueueRestore _ _ => tt
  | SendDm _ _ => Ok tt
  | NewDisputeEvent _ _ _ _ => Ok "dispute-event"
  | SendDisputeEvent _ _ => Ok tt
  | NewChildOrderEvent _ _ => Ok "child-event"
  | SendOrderEvent _ _ => true
  | MarkPublishFailed _ => tt
  | NewRatingEvent _ _ _ => Ok tt
  | LndChainHeight => Ok 1000
  | LndLookupInvoice _ => Ok [mkHtlc true 2000]
  | NextEvent => demo_release
  | NextRpc => GetVersionRequest
  | InstantNow => 1000 * now
  | GetNostrClient => Ok tt
  | ResolvLnAddressBounded _ _ _ _ => Some (Ok "inv-any")
  | Elapsed _ => false
  | PublishDevFeeAudit _ _ => Ok tt
  | GetMintInfo => Some (Ok (mkMintInfo true true true))
  | GetMintKeysets => Some (Ok [mkKeySetInfo true Sat])
  | GetMintKeys => Some (Ok [mkKeySet "keyset-sat" Sat [(60000, "key-60000"); (40000, "key-40000")]])
  | PostCheckState ys => Some (Ok (map (fun _ => Unspent) ys))
  end.

Definition demo_env (now : Z) : Env DB ext := mkEnv (fun _ => None) (demo_answer now).

(** The same world with another event on the relays, another expiry of the
    escrows, and other answers to direct messages and cancellations. *)
Record World : Type := mkWorld {
  w_now : Z;
  w_event : NostrEvent;
  w_expiry : Z;
  w_dm : result unit string;
  w_cancel : result unit GrpcStatus
}.

Definition world_answer (w : World) (R : Type) (x : ext R) (tr : list (obs DB ext)) : R :=
  match x in ext R' return R' -> R' with
  | NextEvent => fun _ => w_event w
  | LndLookupInvoice _ => fun _ => Ok [mkHtlc true (w_expiry w)]
  | SendDm _ _ => fun _ => w_dm w
  | LndCancelInvoice _ => fun _ => w_cancel w
  | _ => fun d => d
  end (demo_answer (w_now w) R x tr).

Definition world_env (w : World) : Env DB ext := mkEnv (fun _ => None) (world_answer w).

(** [who] sends [content] about order 7 at [now]. *)
Definition signed_event (who content : string) (now : Z) : NostrEvent :=
  let tags := replicate 8 [] in
  let e := mkNostrEvent "id" who now 14 tags content "" in
  mkNostrEvent "id" who now 14 tags content (demo_sig e).

Definition calm (who content : string) (now : Z) : World :=
  mkWorld now (signed_event who content now) 2000 (Ok tt) (Ok tt).

(** Run tasks one after the other. *)
Definition script (env : Env DB ext) (ps : list (M unit)) (s : DB * list (obs DB ext)) :
    DB * list (obs DB ext) :=
  foldl (fun s p => (run_db env p s.1 s.2, run_trace env p s.1 s.2)) s ps.

(** A root bond of 1000 sats in state [st]. *)
Definition demo_bond (i o : Uuid) (pk : string) (r : BondRole) (st : BondState) : Bond :=
  (new_requested i 0 o pk r 1000)
    <| state := state_to_string st |>
    <| hash := Some (bytes_to_string (replicate 32 7)) |>
    <| preimage := Some (bytes_to_string (replicate 32 5)) |>.

(** Order 7 with a locked bond on each side; order 8 with one of its own. *)
Definition trade_db (st : Status) : DB :=
  mkDB [demo_order 7 st; demo_order 8 Pending]
    [demo_bond 1 7 "taker" Taker Locked; demo_bond 2 7 "maker" Maker Locked;
     demo_bond 3 8 "other" Taker Requested] [] [].
