(* ===== verification/LightningSpec.v ===== *)
(** * What the LND connector and the invoice checks promise

    Theorems about [src/lightning/invoice.rs]. *)

From S2P Require Import Prelude Float64 Config BondTypes BondMath Effects Model Lightning Demo.

Open Scope Z_scope.
Open Scope prog_scope.

Section Validation.
Context `{Lib} (settings : Settings) (env : Env DB ext) (now : Z).

(** The whole-sat part of the amount an invoice asks for, 0 when open. *)
Definition invoice_sats (inv : Bolt11) : Z := default 0 (amount_milli_satoshis inv) / 1000.

(** An accepted invoice is payable. [validate_bolt11_invoice] accepts
    exactly the invoices that decode, are for the node's network, do not demand
    more than the allowed final CLTV delta, ask for the expected whole-sat
    amount (less the fee) or leave it open, respect the payment minimum, and
    stay valid for the configured window. *)
Theorem validate_bolt11_invoice_spec pr amt fee db tr :
  (forall tr, answer env _ Now tr = now) -> 0 <= invoice_expiration_window (get_ln settings) ->
  run_val env (validate_bolt11_invoice settings pr (Some amt) (Some fee)) db tr = Ok tt <->
  exists inv, decode_invoice pr = Ok inv /\
    invoice_currency_is_payable inv (node_currency settings) = true /\
    min_final_cltv_expiry_delta inv <= max_final_cltv_expiry_delta (get_ln settings) /\
    fee <= amt /\ (invoice_sats inv = amt - fee \/ invoice_sats inv = 0) /\
    (0 < invoice_sats inv -> min_payment_amount (get_mostro settings) <= invoice_sats inv) /\
    now + invoice_expiration_window (get_ln settings) <= bolt11_expires_at inv.
Proof.
  intros Hnow Hwin. unfold validate_bolt11_invoice, validate_payout_invoice, try, run_val.
  destruct (decode_invoice pr) as [inv|e]; cbn [bind run fst];
    [|split; [done|]; by intros (inv & E & _)].
  fold (invoice_sats inv). change (default 0 (Some fee)) with fee.
  transitivity (invoice_currency_is_payable inv (node_currency settings) = true /\
    min_final_cltv_expiry_delta inv <= max_final_cltv_expiry_delta (get_ln settings) /\
    fee <= amt /\ (invoice_sats inv = amt - fee \/ invoice_sats inv = 0) /\
    (0 < invoice_sats inv -> min_payment_amount (get_mostro settings) <= invoice_sats inv) /\
    now + invoice_expiration_window (get_ln settings) <= bolt11_expires_at inv);
    [|split; [intros Hx; by exists inv|intros (inv' & E & Hx); injection E as <-; exact Hx]].
  destruct (invoice_currency_is_payable inv (node_currency settings)); cbn [negb bind run fst];
    [|split; [done|intros [E _]; discriminate E]].
  destruct (_ <? min_final_cltv_expiry_delta inv) eqn:Ec; bool_prop; cbn [bind run fst];
    [split; [done|lia]|].
  cbn [bind call run]. rewrite Hnow. destruct (bolt11_expires_at inv <? now) eqn:Ee; bool_prop;
    cbn [bind run fst]; [split; [done|lia]|].
  destruct (fee <=? amt) eqn:Ef; bool_prop; cbn [bind run fst negb]; [|split; [done|lia]].
  destruct (invoice_sats inv =? amt - fee) eqn:E1, (invoice_sats inv =? 0) eqn:E2; bool_prop;
    cbn [orb negb bind run fst]; [| | |split; [done|lia]];
    (destruct (0 <? invoice_sats inv) eqn:E3, (invoice_sats inv <? min_payment_amount _) eqn:E4; bool_prop;
       cbn [andb bind call run fst]; [split; [done|lia]|..]);
    rewrite Hnow; (destruct (bolt11_expires_at inv <? _) eqn:E5; bool_prop; cbn [run fst];
      [split; [done|lia]|split; [intros _|done]; split_and!; [done|lia..]]).
Qed.
End Validation.

Lemma validate_bolt11_invoice_spec_witness :
  run_val (demo_env 20) (validate_bolt11_invoice demo_settings "inv" (Some 500) (Some 0)) (mkDB [] [] [] []) []
    = Ok tt <->
  exists inv, decode_invoice "inv" = Ok inv /\
    invoice_currency_is_payable inv (node_currency demo_settings) = true /\
    min_final_cltv_expiry_delta inv <= max_final_cltv_expiry_delta (get_ln demo_settings) /\
    0 <= 500 /\ (invoice_sats inv = 500 - 0 \/ invoice_sats inv = 0) /\
    (0 < invoice_sats inv -> min_payment_amount (get_mostro demo_settings) <= invoice_sats inv) /\
    20 + invoice_expiration_window (get_ln demo_settings) <= bolt11_expires_at inv.
Proof.
  apply (validate_bolt11_invoice_spec demo_settings (demo_env 20) 20 "inv" 500 0 (mkDB [] [] [] []) []);
    [intros tr; reflexivity|by vm_compute].
Defined.
