(* ===== verification/BondDb.v ===== *)
(** * Storage of bonds

    [src/app/bond/crud.rs] and [src/app/bond/db.rs]: the statements on the
    [bonds] table and the two walks over the range tree of orders.  The main
    results: the upward walk ends at the range root, or reports a chain longer
    than its bound ([find_range_root_order]), and the downward recursive query
    decides exactly whether every order reachable from the root is in a
    terminal status ([tree_nonterminal_spec]). *)

From S2P Require Import Prelude Float64 Config BondTypes Effects Model Lightning Demo.

Open Scope Z_scope.
Open Scope prog_scope.

(** ** Row CRUD *)

(** The partial unique index on [(parent_bond_id, child_order_id)]. *)
Definition same_slice (a b : Bond) : bool :=
  match parent_bond_id a, child_order_id a, parent_bond_id b, child_order_id b with
  | Some p, Some c, Some p', Some c' => N.eqb p p' && N.eqb c c'
  | _, _, _, _ => false
  end.

Definition bond_unique_violation (b : Bond) (db : DB) : bool :=
  exists_row (fun r => N.eqb (id r) (id b) || same_slice r b) (bonds db).

(** [INSERT INTO bonds ... RETURNING *]. *)
Definition bond_create (b : Bond) (db : DB) : DB * result Bond string :=
  if bond_unique_violation b db then (db, Err "UNIQUE constraint failed: bonds")
  else (insert_bond b db, Ok b).

(** [UPDATE bonds SET <all columns but id and created_at> WHERE id = ?
    RETURNING *]: the whole row is rewritten from the caller's copy. *)
Definition bond_update (b : Bond) (db : DB) : DB * result Bond string :=
  let overwrite := fun r => b <| created_at := created_at r |> in
  let '(db', n) := update_bonds (fun r => N.eqb (id r) (id b)) overwrite db in
  (db', match select_one (fun r => N.eqb (id r) (id b)) (bonds db') with
        | Some r => Ok r
        | None => Err "no rows returned by a query that expected to return at least one row"
        end).

(** [SELECT * FROM bonds WHERE id = ? LIMIT 1]. *)
Definition bond_by_id (i : Uuid) (db : DB) : option Bond :=
  select_one (fun r => N.eqb (id r) i) (bonds db).

Definition order_by_id (i : Uuid) (db : DB) : option Order :=
  select_one (fun o => N.eqb (o_id o) i) (orders db).

(** Flatten a statement that can itself violate a constraint. *)
Definition sql_row {R} (stmt : DB -> DB * result R string) : M (result R MostroError) :=
  bind (sql stmt) (fun r =>
    Ret (match r with
         | Ok (Ok v) => Ok v
         | Ok (Err e) | Err e => Err (MostroInternalErr (DbAccessError e))
         end)).

Definition create_bond (b : Bond) : M (result Bond MostroError) := sql_row (bond_create b).
Definition update_bond (b : Bond) : M (result Bond MostroError) := sql_row (bond_update b).

Definition find_order_by_id (i : Uuid) : M (result (option Order) MostroError) :=
  sql_or_db_error (query (order_by_id i)).

Definition find_bond_by_id (i : Uuid) : M (result (option Bond) MostroError) :=
  sql_or_db_error (query (bond_by_id i)).

(** ** Lookups *)

Definition active_row (b : Bond) : bool := state_is Requested b || state_is Locked b.

Definition bond_by_order_and_role (o : Uuid) (r : BondRole) (db : DB) : option Bond :=
  select_one (fun b => N.eqb (order_id b) o && role_is r b && is_none (parent_bond_id b))
    (bonds db).

Definition find_bond_by_order_and_role (o : Uuid) (r : BondRole) :
    M (result (option Bond) MostroError) :=
  sql_or_db_error (query (bond_by_order_and_role o r)).

Definition bonds_by_state (s : BondState) (db : DB) : list Bond :=
  select_ordered (state_is s) created_at (bonds db).

Definition find_bonds_by_state (s : BondState) : M (result (list Bond) MostroError) :=
  sql_or_db_error (query (bonds_by_state s)).

Definition bond_by_hash (h : string) (db : DB) : option Bond :=
  select_one (fun b => bool_decide (hash b = Some h)) (bonds db).

Definition find_bond_by_hash (h : string) : M (result (option Bond) MostroError) :=
  sql_or_db_error (query (bond_by_hash h)).

Definition find_active_bonds : M (result (list Bond) MostroError) :=
  sql_or_db_error (query (fun db => select_ordered active_row created_at (bonds db))).

Definition active_bonds_for_order (o : Uuid) (db : DB) : list Bond :=
  select_ordered (fun b => N.eqb (order_id b) o && active_row b) created_at (bonds db).

Definition find_active_bonds_for_order (o : Uuid) : M (result (list Bond) MostroError) :=
  sql_or_db_error (query (active_bonds_for_order o)).

Definition find_active_bond_by_taker (o : Uuid) (taker_pubkey : string) :
    M (result (option Bond) MostroError) :=
  sql_or_db_error (query (fun db =>
    head (select_ordered
      (fun b => N.eqb (order_id b) o && str_eqb (pubkey b) taker_pubkey && active_row b &&
                is_none (parent_bond_id b)) created_at (bonds db)))).

Definition child_slashes (p : Uuid) (db : DB) : list Bond :=
  select_ordered (fun b => opt_uuid_eqb (parent_bond_id b) p) created_at (bonds db).

Definition find_child_slashes_for_parent (p : Uuid) : M (result (list Bond) MostroError) :=
  sql_or_db_error (query (child_slashes p)).

Definition locked_maker_parent_bonds (db : DB) : list Bond :=
  select_ordered (fun b => state_is Locked b && role_is Maker b && is_none (parent_bond_id b))
    created_at (bonds db).

Definition find_locked_maker_parent_bonds : M (result (list Bond) MostroError) :=
  sql_or_db_error (query locked_maker_parent_bonds).

(** ** Up the range chain *)

Definition MAX_RANGE_CHAIN_DEPTH : nat := 1024.

(** The [for _ in 0..MAX_RANGE_CHAIN_DEPTH] loop. *)
Fixpoint walk_to_root (fuel : nat) (current : Order) : M (result Order MostroError) :=
  match fuel with
  | O => Ret (Err (MostroInternalErr (UnexpectedError
           "range_parent_id chain exceeded max depth (possible cycle)")))
  | S fuel' =>
      match o_range_parent_id current with
      | None => Ret (Ok current)
      | Some parent_id =>
          found <-? find_order_by_id parent_id ;;
          match found with
          | Some parent => walk_to_root fuel' parent
          | None => Ret (Ok current)
          end
      end
  end.

Definition find_range_root_order (order : Order) : M (result Order MostroError) :=
  walk_to_root MAX_RANGE_CHAIN_DEPTH order.

Definition find_maker_bond_for_order (order : Order) : M (result (option Bond) MostroError) :=
  root <-? find_range_root_order order ;;
  find_bond_by_order_and_role (o_id root) Maker.

(** ** Down the range tree *)

Definition TERMINAL_ORDER_STATUSES : list Status :=
  [Success; Canceled; CanceledByAdmin; SettledByAdmin; CompletedByAdmin;
   CooperativelyCanceled; Expired].

Section Tree.
Context `{Lib}.

(** One round of the recursive member of the CTE, deduplicated ([UNION]). *)
Definition tree_step (os : list Order) (ids : list Uuid) : list Uuid :=
  ids ++ List.filter (fun i => negb (existsb (N.eqb i) ids))
    (map o_id (List.filter (fun o => match o_range_parent_id o with
                                     | Some p => existsb (N.eqb p) ids
                                     | None => false
                                     end) os)).

Definition tree_ids (os : list Order) (root : Uuid) : list Uuid :=
  Nat.iter (length os) (tree_step os)
    (map o_id (List.filter (fun o => N.eqb (o_id o) root) os)).

Definition status_terminal (o : Order) : bool :=
  existsb (fun s => str_eqb (o_status o) (status_to_string s)) TERMINAL_ORDER_STATUSES.

(** [SELECT COUNT] over the tree of the rows whose status is not terminal. *)
Definition tree_nonterminal (root : Uuid) (db : DB) : Z :=
  count_where (fun o => existsb (N.eqb (o_id o)) (tree_ids (orders db) root) &&
                        negb (status_terminal o)) (orders db).

Definition range_tree_fully_terminal (root : Uuid) : M (result bool MostroError) :=
  non_terminal <-? sql_or_db_error (query (tree_nonterminal root)) ;;
  Ret (Ok (non_terminal =? 0)).
End Tree.

(** ** The upward walk *)

(** [n] parent links lead from an order to the top of its chain: an order
    without a parent, or whose parent is not in the table. *)
Inductive range_chain (db : DB) : nat -> Order -> Order -> Prop :=
| chain_top o :
    match o_range_parent_id o with None => True | Some p => order_by_id p db = None end ->
    range_chain db 0 o o
| chain_up n o p parent r :
    o_range_parent_id o = Some p -> order_by_id p db = Some parent ->
    range_chain db n parent r -> range_chain db (S n) o r.

(** The database answers every statement. *)
Definition sql_up (env : Env DB ext) : Prop := forall tr, sql_error env tr = None.

Lemma run_query {R A} env (f : DB -> R) (k : result R MostroError -> M A) db tr :
  sql_up env ->
  run env (bind (sql_or_db_error (query f)) k) db tr =
  run env (k (Ok (f db))) db (ObsSql (query f) (Ok (f db)) :: tr).
Proof. intros Hup. rewrite run_bind. cbn. by rewrite Hup. Qed.

Lemma walk_to_root_run env fuel o db tr :
  sql_up env ->
  run_db env (walk_to_root fuel o) db tr = db /\
  forall r, run_val env (walk_to_root fuel o) db tr = Ok r <->
            exists n, (n < fuel)%nat /\ range_chain db n o r.
Proof.
  intros Hup. unfold run_db, run_val. revert o tr.
  induction fuel as [|fuel IH]; intros o tr.
  - split; [done|]. intros r. split; [done|]. intros (n & Hn & _). lia.
  - cbn [walk_to_root]. destruct (o_range_parent_id o) as [p|] eqn:Ep.
    2:{ split; [done|]. intros r. cbn. split.
        - intros [= <-]. exists O. split; [lia|]. constructor. by rewrite Ep.
        - intros (n & _ & Hc). destruct Hc; congruence. }
    unfold try, find_order_by_id. rewrite run_query by done. cbv beta iota.
    destruct (order_by_id p db) as [parent|] eqn:Eo.
    + destruct (IH parent (ObsSql (query (order_by_id p)) (Ok (Some parent)) :: tr)) as [Hd Hv].
      split; [exact Hd|]. intros r. rewrite Hv. split.
      * intros (n & Hn & Hc). exists (S n). split; [lia|]. by econstructor.
      * intros (n & Hn & Hc). destruct Hc as [o Ht|n o p' parent' r Hp Ho Hc].
        -- rewrite Ep, Eo in Ht. done.
        -- exists n. split; [lia|]. congruence.
    + split; [done|]. intros r. cbn. split.
      * intros [= <-]. exists O. split; [lia|]. constructor. by rewrite Ep.
      * intros (n & _ & Hc). destruct Hc; congruence.
Qed.

(** The walk up the range chain finds the root. With a responsive
    database, [find_range_root_order] returns [Ok r] exactly when [r] tops a
    chain of fewer than [MAX_RANGE_CHAIN_DEPTH] parent links from the order; a
    longer chain or a cycle is an error, and the tables are left alone. *)
Theorem find_range_root_order_spec env o db tr :
  sql_up env ->
  run_db env (find_range_root_order o) db tr = db /\
  forall r, run_val env (find_range_root_order o) db tr = Ok r <->
            exists n, (n < MAX_RANGE_CHAIN_DEPTH)%nat /\ range_chain db n o r.
Proof. apply walk_to_root_run. Qed.

(** A range of two orders, the second a slice of the first. *)
Definition two_orders : DB :=
  mkDB [demo_order 9 Pending; (demo_order 10 Dispute) <| o_range_parent_id := Some 9%N |>] [] [] [].

(** ** The downward query *)

Section TreeSpec.
Context `{Lib}.

(** The ids of the orders below [root], itself included. *)
Inductive in_tree (os : list Order) (root : Uuid) : Uuid -> Prop :=
| tree_root o : In o os -> o_id o = root -> in_tree os root root
| tree_child o p :
    In o os -> o_range_parent_id o = Some p -> in_tree os root p -> in_tree os root (o_id o).

Lemma existsb_eqb i ids : existsb (N.eqb i) ids = true <-> In i ids.
Proof.
  rewrite existsb_exists. split.
  - intros (j & Hj & E%N.eqb_eq). by subst.
  - intros Hi. exists i. split; [done|]. apply N.eqb_refl.
Qed.

Definition below (ids : list Uuid) (o : Order) : Prop :=
  exists p, o_range_parent_id o = Some p /\ In p ids.

Lemma tree_step_in os ids i :
  In i (tree_step os ids) <-> In i ids \/ exists o, In o os /\ o_id o = i /\ below ids o.
Proof.
  unfold tree_step. rewrite in_app_iff, filter_In, in_map_iff. split.
  - intros [Hi|[(o & E & [Ho Hp]%filter_In) _]]; [by left|right]. exists o.
    split_and!; [done|done|]. destruct (o_range_parent_id o) as [p|] eqn:Ep; [|done].
    exists p. split; [done|]. by apply existsb_eqb.
  - intros [Hi|(o & Ho & E & p & Ep & Hp)]; [by left|].
    destruct (existsb (N.eqb i) ids) eqn:Ei; [left; by apply existsb_eqb|right].
    split; [|done]. exists o. split; [done|]. apply filter_In. split; [done|].
    rewrite Ep. by apply existsb_eqb.
Qed.

(** Nothing is left to add. *)
Definition closed (os : list Order) (ids : list Uuid) : Prop :=
  forall o, In o os -> below ids o -> In (o_id o) ids.

(** How many rows the set covers: the measure of the recursive query. *)
Definition covered (os : list Order) (ids : list Uuid) : nat :=
  length (List.filter (fun o => existsb (N.eqb (o_id o)) ids) os).

Lemma covered_mono os ids ids' :
  (forall i, In i ids -> In i ids') -> (covered os ids <= covered os ids')%nat.
Proof.
  intros Hsub. unfold covered. induction os as [|o os IH]; simpl; [lia|].
  destruct (existsb (N.eqb (o_id o)) ids) eqn:E.
  - apply existsb_eqb, Hsub, existsb_eqb in E. rewrite E. simpl. lia.
  - case_match; simpl; lia.
Qed.

Lemma covered_strict os ids ids' o :
  (forall i, In i ids -> In i ids') -> In o os -> ~ In (o_id o) ids -> In (o_id o) ids' ->
  (covered os ids < covered os ids')%nat.
Proof.
  intros Hsub Ho Hn Hi. unfold covered. induction os as [|o' os IH]; [done|]. simpl.
  pose proof (covered_mono os ids ids' Hsub) as Hm. unfold covered in Hm.
  destruct Ho as [->|Ho].
  - rewrite (proj2 (existsb_eqb _ _) Hi). destruct (existsb (N.eqb (o_id o)) ids) eqn:E.
    + by apply existsb_eqb in E.
    + simpl. lia.
  - specialize (IH Ho). destruct (existsb (N.eqb (o_id o')) ids) eqn:E.
    + apply existsb_eqb, Hsub, existsb_eqb in E. rewrite E. simpl. lia.
    + case_match; simpl; lia.
Qed.

Lemma closed_dec os ids :
  closed os ids \/ exists o, In o os /\ below ids o /\ ~ In (o_id o) ids.
Proof.
  induction os as [|o os IH]; [left; by intros o []|].
  destruct IH as [Hc|(o' & Ho' & Hb & Hn)]; [|right; exists o'; split_and!; [by right|done|done]].
  destruct (existsb (N.eqb (o_id o)) ids) eqn:Ei.
  { left. intros o' [<-|Ho'] Hb; [by apply existsb_eqb|by apply Hc]. }
  assert (~ In (o_id o) ids) as Hni by (intros Hx%existsb_eqb; congruence).
  destruct (o_range_parent_id o) as [p|] eqn:Ep.
  - destruct (existsb (N.eqb p) ids) eqn:Epi.
    + right. exists o. split_and!; [by left| |done]. exists p. split; [done|]. by apply existsb_eqb.
    + left. intros o' [<-|Ho'] Hb; [|by apply Hc]. destruct Hb as (q & Eq & Hq%existsb_eqb). congruence.
  - left. intros o' [<-|Ho'] Hb; [|by apply Hc]. destruct Hb as (q & Eq & _). congruence.
Qed.

Lemma tree_step_sub os ids i : In i ids -> In i (tree_step os ids).
Proof. rewrite tree_step_in. by left. Qed.

Lemma closed_step os ids : closed os ids -> closed os (tree_step os ids).
Proof.
  intros Hc o Ho (p & Ep & Hp). apply tree_step_sub, Hc; [done|]. exists p. split; [done|].
  apply tree_step_in in Hp as [Hp|(o' & Ho' & <- & Hb)]; [done|by apply Hc].
Qed.

(** Each round closes the set or covers one more row. *)
Lemma iter_closed os ids n :
  closed os (Nat.iter n (tree_step os) ids) \/
  (covered os ids + n <= covered os (Nat.iter n (tree_step os) ids))%nat.
Proof.
  induction n as [|n IH]; [right; simpl; lia|].
  change (Nat.iter (S n) (tree_step os) ids) with (tree_step os (Nat.iter n (tree_step os) ids)).
  destruct IH as [Hc|Hc]; [left; by apply closed_step|].
  set (s := Nat.iter n (tree_step os) ids) in *.
  destruct (closed_dec os s) as [Hcl|(o & Ho & Hb & Hn)]; [left; by apply closed_step|right].
  assert (covered os s < covered os (tree_step os s))%nat; [|lia].
  apply (covered_strict _ _ _ o); [apply tree_step_sub|done|done|].
  apply tree_step_in. right. eauto.
Qed.

Lemma covered_le os ids : (covered os ids <= length os)%nat.
Proof. apply List.filter_length_le. Qed.

Lemma covered_all os ids o : (length os <= covered os ids)%nat -> In o os -> In (o_id o) ids.
Proof.
  intros Hc Ho. destruct (in_dec N.eq_dec (o_id o) ids) as [|Hn]; [done|exfalso].
  pose proof (covered_strict os ids (o_id o :: ids) o
    (fun i Hi => or_intror Hi) Ho Hn (or_introl eq_refl)) as Hlt.
  pose proof (covered_le os (o_id o :: ids)). lia.
Qed.

Lemma tree_ids_closed os root : closed os (tree_ids os root).
Proof.
  unfold tree_ids. set (base := map o_id _).
  destruct (iter_closed os base (length os)) as [|Hc]; [done|].
  intros o Ho Hb. apply (covered_all os); [lia|done].
Qed.

Lemma tree_ids_spec os root i : In i (tree_ids os root) <-> in_tree os root i.
Proof.
  split.
  - unfold tree_ids. generalize (length os) at 1. intros n. revert i.
    induction n as [|n IH]; intros i; cbn [Nat.iter].
    + intros (o & <- & [Ho E%N.eqb_eq]%filter_In)%in_map_iff. rewrite E. by apply (tree_root _ _ o).
    + intros [Hi|(o & Ho & <- & p & Ep & Hp)]%tree_step_in; [by apply IH|].
      apply (tree_child _ _ o p); [done|done|by apply IH].
  - induction 1 as [o Ho E|o p Ho Ep _ IH].
    + unfold tree_ids. assert (forall n ids, In root ids -> In root (Nat.iter n (tree_step os) ids)) as Hk.
      { intros n ids Hi. induction n; [done|]. cbn [Nat.iter]. by apply tree_step_sub. }
      apply Hk. apply in_map_iff. exists o. split; [done|]. apply filter_In. split; [done|].
      by apply N.eqb_eq.
    + apply tree_ids_closed; [done|]. exists p. done.
Qed.

(** The recursive query decides closure of a range. The number of
    non-terminal rows it counts is zero exactly when every order reachable from
    the root through [range_parent_id] is in a terminal status, whatever the
    shape of the table (dangling parents and cycles included). *)
Theorem tree_nonterminal_spec root db :
  tree_nonterminal root db = 0 <->
  forall o, In o (orders db) -> in_tree (orders db) root (o_id o) -> status_terminal o = true.
Proof.
  unfold tree_nonterminal, count_where. split.
  - intros E o Ho Ht. destruct (status_terminal o) eqn:Es; [done|exfalso].
    assert (In o (List.filter (fun o => existsb (N.eqb (o_id o)) (tree_ids (orders db) root) &&
                                        negb (status_terminal o)) (orders db))) as Hin.
    { apply filter_In. split; [done|]. rewrite Es. apply andb_true_iff. split; [|done].
      apply existsb_eqb. by apply tree_ids_spec. }
    destruct (List.filter _ _); [done|]. simpl in E. lia.
  - intros Ht. destruct (List.filter _ _) as [|o l] eqn:E; [done|exfalso].
    assert (In o (o :: l)) as Hin by by left. rewrite <- E in Hin.
    apply filter_In in Hin as [Ho [Hi Hs]%andb_true_iff]. apply existsb_eqb, tree_ids_spec in Hi.
    rewrite (Ht o Ho Hi) in Hs. done.
Qed.
End TreeSpec.
