(* ===== verification/BondRelease.v ===== *)
(** * Releasing bonds

    The release half of [src/app/bond/flow.rs]: cancel the hold invoice, then
    mark the row [Released], but only when the HTLC is known to be gone.
    Log lines are not part of the model. *)

From S2P Require Import Prelude Float64 Config BondTypes BondMath Effects Model.
From S2P Require Import Lightning BondDb.

Open Scope Z_scope.
Open Scope prog_scope.

Inductive CancelOutcome : Type := AlreadyDone | Transient.

#[export] Instance CancelOutcome_eq_dec : EqDecision CancelOutcome.
Proof. solve_decision. Defined.

Section Release.
Context `{Lib}.

Definition classify_cancel_error (err : MostroError) : CancelOutcome :=
  let s := to_lowercase (error_to_string err) in
  if str_contains s "code=notfound" || str_contains s "code=alreadyexists" then AlreadyDone
  else if str_contains s "already cancelled"
       || str_contains s "already canceled"
       || str_contains s "unable to locate invoice"
       || str_contains s "invoice not found"
       || str_contains s "no such invoice" then AlreadyDone
  else Transient.

(** The LND half of [release_bond]: [Ok] when the HTLC is no longer
    encumbered. *)
Definition release_htlc (hash : option string) : M (result unit MostroError) :=
  match hash with
  | None => Ret (Ok tt)
  | Some hash =>
      _ <-? lnd_new ;;
      cancelled <- cancel_hold_invoice hash ;;
      match cancelled with
      | Ok _ => Ret (Ok tt)
      | Err e =>
          match classify_cancel_error e with
          | AlreadyDone => Ret (Ok tt)
          | Transient => Ret (Err e)
          end
      end
  end.

Definition release_bond (bond : Bond) : M (result unit MostroError) :=
  match state_from_str (state bond) with
  | Err _ => Ret (Err (MostroInternalErr (UnexpectedError "Bond has unparseable state")))
  | Ok s =>
      if is_terminal s then Ret (Ok tt)
      else
        _ <-? release_htlc (hash bond) ;;
        now <- ask Now ;;
        let updated := bond <| state := state_to_string Released |>
                            <| released_at := Some now |> in
        _ <-? update_bond updated ;;
        Ret (Ok tt)
  end.

Definition release_active_bonds (order_id : Uuid) (retain_makers : bool) :
    M (result unit MostroError) :=
  bonds <-? find_active_bonds_for_order order_id ;;
  for_each bonds (fun bond =>
    if retain_makers && str_eqb (role bond) (role_to_string Maker) then Ret tt
    else release_bond bond ;;; Ret tt) ;;;
  Ret (Ok tt).

Definition release_bonds_for_order (order_id : Uuid) : M (result unit MostroError) :=
  release_active_bonds order_id false.

Definition release_bonds_for_order_or_warn (order_id : Uuid) : M unit :=
  release_bonds_for_order order_id ;;; Ret tt.

Definition release_taker_bonds_for_order_or_warn (order_id : Uuid) : M unit :=
  release_active_bonds order_id true ;;; Ret tt.
End Release.
