(* ===== verification/BondSlash.v ===== *)
(** * Slashing bonds

    [src/app/bond/slash.rs]: the solver-directed and the timeout slash, the
    proportional slash of a range maker bond, and its settlement when the
    range closes.  Every statement the code issues is a definition of its own
    ([*_stmt]), so that theorems can speak about the statement as well as the
    handler that issues it. *)

From S2P Require Import Prelude Float64 Config BondTypes BondMath Effects Model.
From S2P Require Import Lightning BondDb BondRelease.

Open Scope Z_scope.
Open Scope prog_scope.

(** ** Vocabulary *)

Inductive Side : Type := Seller | Buyer.

Definition extract_bond_resolution (msg : Message) : BondResolution :=
  match m_payload msg with
  | Some (PlBondResolution br) => br
  | _ => mkBondResolution false false
  end.

(** ** Statements *)

(** [UPDATE bonds SET state, slashed_reason, slashed_at, node_share_sats WHERE
    id = ? AND state = 'locked']. *)
Definition slash_cas_stmt (i : Uuid) (reason : BondSlashReason) (now node_share : Z) :
    DB -> DB * Z :=
  update_bonds (with_id_state i Locked) (fun b =>
    b <| state := state_to_string PendingPayout |>
      <| slashed_reason := Some (reason_to_string reason) |>
      <| slashed_at := Some now |>
      <| node_share_sats := Some node_share |>).

Definition slice_of (parent slice : Uuid) (b : Bond) : bool :=
  opt_uuid_eqb (parent_bond_id b) parent && opt_uuid_eqb (child_order_id b) slice.

(** A child row of [parent], the maker refund excluded. *)
Definition slice_child_of (parent : Uuid) (b : Bond) : bool :=
  opt_uuid_eqb (parent_bond_id b) parent && is_some (child_order_id b).

(** The row an [INSERT] with the twelve slash columns creates: the others take
    their schema defaults. *)
Definition slash_row (uuid order parent : Uuid) (child : option Uuid) (pubkey : string)
    (amount : Z) (reason : string) (node_share now : Z) : Bond :=
  (new_requested uuid now order pubkey Maker amount)
    <| parent_bond_id := Some parent |>
    <| child_order_id := child |>
    <| state := state_to_string PendingPayout |>
    <| slashed_reason := Some reason |>
    <| node_share_sats := Some node_share |>
    <| slashed_at := Some now |>.

(** [INSERT INTO bonds ... SELECT ... WHERE NOT EXISTS (child of the slice) AND
    EXISTS (parent still locked)], under the table's unique constraints. *)
Definition slice_insert_stmt (b : Bond) (parent slice : Uuid) (db : DB) :
    DB * result Z string :=
  if negb (exists_row (slice_of parent slice) (bonds db)) &&
     exists_row (with_id_state parent Locked) (bonds db)
  then
    if bond_unique_violation b db then (db, Err "UNIQUE constraint failed: bonds")
    else (insert_bond b db, Ok 1)
  else (db, Ok 0).

Definition slice_total (parent : Uuid) (db : DB) : Z :=
  sumZ (map amount_sats (List.filter (slice_child_of parent) (bonds db))).

(** [UPDATE bonds SET slashed_share_sats = (SELECT SUM ...) WHERE id = ? AND
    state = 'locked']. *)
Definition share_total_stmt (parent : Uuid) (db : DB) : DB * Z :=
  update_bonds (with_id_state parent Locked)
    (fun b => b <| slashed_share_sats := slice_total parent db |>) db.

(** [is_unique_violation] on the driver message. *)
Definition is_unique_violation (msg : string) : bool :=
  str_contains (to_lowercase msg) "unique constraint failed".

(** The close transaction: parent [Locked -> Slashed], re-anchor the children,
    insert the maker refund; nothing at all when the compare-and-swap misses or
    a statement of it fails. *)
Definition close_tx (parent : Bond) (root : Uuid) (children_seen : bool) (reason : string)
    (refund_uuid : Uuid) (now : Z) (db : DB) : DB * result Z string :=
  let '(db1, n) := update_bonds (with_id_state (id parent) Locked)
                     (fun b => b <| state := state_to_string Slashed |>) db in
  if negb (n =? 1) then (db, Ok 0)
  else
    let total_slashed := slice_total (id parent) db1 in
    let refund_amount := Z.max (amount_sats parent - total_slashed) 0 in
    let db2 :=
      if children_seen then
        (update_bonds (fun b => slice_child_of (id parent) b && state_is PendingPayout b)
           (fun b => b <| slashed_at := Some now |>) db1).1
      else db1 in
    if 0 <? refund_amount then
      let refund := slash_row refund_uuid root (id parent) None (pubkey parent)
                      refund_amount reason 0 now in
      if bond_unique_violation refund db2 then (db, Err "UNIQUE constraint failed: bonds")
      else (insert_bond refund db2, Ok 1)
    else (db2, Ok 1).

Section Slash.
Context `{Lib} (settings : Settings).

Definition is_already_settled_error (err : MostroError) : bool :=
  let s := to_lowercase (error_to_string err) in
  str_contains s "already settled" || str_contains s "invoice already settled"
  || str_contains s "code=alreadyexists".

Definition internal {A} (r : result A ServiceError) : result A MostroError :=
  map_err MostroInternalErr r.

(** ** Which bond a directive targets *)

Definition resolve_locked_bond (order : Order) (bonds : list Bond) (side : Side) :
    option Bond :=
  let target_pubkey := match side with
                       | Seller => o_seller_pubkey order
                       | Buyer => o_buyer_pubkey order
                       end in
  match target_pubkey with
  | None => None
  | Some pk => List.find (fun b => str_eqb (pubkey b) pk && state_is Locked b) bonds
  end.

Definition side_is_maker (order : Order) (side : Side) : result bool MostroError :=
  match internal (get_order_kind order) with
  | Err e => Err e
  | Ok Sell => Ok (match side with Seller => true | Buyer => false end)
  | Ok Buy => Ok (match side with Buyer => true | Seller => false end)
  end.

Definition order_has_range_maker_bond (order : Order) : M (result bool MostroError) :=
  root <-? find_range_root_order order ;;
  Ret (Ok (is_some (o_max_amount root))).

Definition resolve_slash_target (order : Order) (bonds : list Bond) (side : Side)
    (is_range : bool) : M (result (option Bond) MostroError) :=
  match resolve_locked_bond order bonds side with
  | Some b => Ret (Ok (Some b))
  | None =>
      if is_range then
        maker <-? Ret (side_is_maker order side) ;;
        if maker : bool then
          found <-? find_maker_bond_for_order order ;;
          match found with
          | Some b => if state_is Locked b then Ret (Ok (Some b)) else Ret (Ok None)
          | None => Ret (Ok None)
          end
        else Ret (Ok None)
      else Ret (Ok None)
  end.

Definition validate_bond_resolution (order : Order) (resolution : BondResolution) :
    M (result unit MostroError) :=
  if negb (slash_seller resolution) && negb (slash_buyer resolution) then Ret (Ok tt)
  else
    bonds <-? find_active_bonds_for_order (o_id order) ;;
    is_range <-? order_has_range_maker_bond order ;;
    seller_ok <-? (if slash_seller resolution then
                     t <-? resolve_slash_target order bonds Seller is_range ;;
                     Ret (Ok (is_some t))
                   else Ret (Ok true)) ;;
    if negb seller_ok then Ret (Err (MostroCantDo InvalidPayload))
    else
      buyer_ok <-? (if slash_buyer resolution then
                      t <-? resolve_slash_target order bonds Buyer is_range ;;
                      Ret (Ok (is_some t))
                    else Ret (Ok true)) ;;
      if negb buyer_ok then Ret (Err (MostroCantDo InvalidPayload)) else Ret (Ok tt).

(** ** One bond, in full *)

(** Settle an HTLC, treating "already settled" as success. *)
Definition settle_or_already (preimage : string) : M bool :=
  settled <- settle_hold_invoice preimage ;;
  match settled with
  | Ok _ => Ret true
  | Err e => Ret (is_already_settled_error e)
  end.

Definition slash_one (bond : Bond) (reason : BondSlashReason) (node_share_pct : f64) : M unit :=
  match preimage bond with
  | None => Ret tt
  | Some p =>
      settled <- settle_or_already p ;;
      if negb settled then Ret tt
      else
        let node_share := compute_node_share (amount_sats bond) node_share_pct in
        now <- ask Now ;;
        sql (slash_cas_stmt (id bond) reason now node_share) ;;; Ret tt
  end.

Definition slash_reason_recorded (i : Uuid) (expected : BondSlashReason) :
    M (result bool MostroError) :=
  row <-? sql_or_db_error (query (bond_by_id i)) ;;
  Ret (Ok (bool_decide (row ≫= slashed_reason = Some (reason_to_string expected)))).

Definition timeout_slash_confirmed (i : Uuid) : M (result bool MostroError) :=
  slash_reason_recorded i Timeout.

(** ** One slice of a range maker bond *)

Definition slice_share (parent_amount fiat_amount max_fiat : Z) : Z :=
  f64_to_i64 (f64_round
    (f64_div (f64_mul (f64_of_i64 parent_amount) (f64_of_i64 fiat_amount))
             (f64_of_i64 max_fiat))).

Definition record_maker_slice_slash (slice root : Order) (parent_bond : Bond)
    (reason : BondSlashReason) (node_share_pct : f64) : M (result bool MostroError) :=
  kind <-? Ret (internal (get_order_kind slice)) ;;
  let maker_slice_pubkey := match kind with
                            | Sell => o_seller_pubkey slice
                            | Buy => o_buyer_pubkey slice
                            end in
  match maker_slice_pubkey with
  | None => Ret (Ok false)
  | Some maker_slice_pubkey =>
      match o_max_amount root with
      | None => Ret (Ok false)
      | Some max_fiat =>
          if negb (0 <? max_fiat) then Ret (Ok false)
          else
            let raw := slice_share (amount_sats parent_bond) (o_fiat_amount slice) max_fiat in
            let remaining :=
              Z.max (amount_sats parent_bond - slashed_share_sats parent_bond) 0 in
            let slash_amount := clampZ raw 0 remaining in
            if slash_amount <=? 0 then Ret (Ok false)
            else
              now <- ask Now ;;
              let node_share := compute_node_share slash_amount node_share_pct in
              uuid <- ask NewUuid ;;
              let child := slash_row uuid (o_id slice) (id parent_bond) (Some (o_id slice))
                             maker_slice_pubkey slash_amount (reason_to_string reason)
                             node_share now in
              inserted <- sql (slice_insert_stmt child (id parent_bond) (o_id slice)) ;;
              match inserted with
              | Ok (Err e) | Err e =>
                  if is_unique_violation e then Ret (Ok false)
                  else Ret (Err (MostroInternalErr (DbAccessError e)))
              | Ok (Ok n) =>
                  if n =? 0 then Ret (Ok false)
                  else
                    _ <-? sql_or_db_error (share_total_stmt (id parent_bond)) ;;
                    Ret (Ok true)
              end
      end
  end.

Definition find_slice_slash_child (parent slice : Uuid) :
    M (result (option Bond) MostroError) :=
  sql_or_db_error (query (fun db => select_one (slice_of parent slice) (bonds db))).

(** ** Closing a range *)

Definition resolve_range_maker_bond_at_close (order : Order) : M (result unit MostroError) :=
  found <-? find_maker_bond_for_order order ;;
  match found with
  | None => Ret (Ok tt)
  | Some parent =>
      if negb (str_eqb (state parent) (state_to_string Locked)) then Ret (Ok tt)
      else
        root <-? find_range_root_order order ;;
        slice_children <-?
          (if is_some (o_max_amount root) then
             children <-? find_child_slashes_for_parent (id parent) ;;
             Ret (Ok (List.filter (fun c => is_some (child_order_id c)) children))
           else Ret (Ok [])) ;;
        let snapshot_slashed := sumZ (map amount_sats slice_children) in
        if snapshot_slashed =? 0 then release_bond parent
        else
          match preimage parent with
          | None => Ret (Ok tt)
          | Some p =>
              settled <- settle_or_already p ;;
              if negb settled then Ret (Ok tt)
              else
                now <- ask Now ;;
                refund_uuid <- ask NewUuid ;;
                let reason := default (reason_to_string LostDispute)
                                (head slice_children ≫= slashed_reason) in
                _ <-? sql_row (close_tx parent (o_id root)
                        (negb (bool_decide (slice_children = []))) reason refund_uuid now) ;;
                Ret (Ok tt)
          end
  end.

Definition resolve_range_maker_bond_at_close_or_warn (order : Order) : M unit :=
  found <- find_maker_bond_for_order order ;;
  match found with
  | Ok (Some b) =>
      if str_eqb (state b) (state_to_string Locked) then
        ln <- lnd_new ;;
        match ln with
        | Err _ => Ret tt
        | Ok _ => resolve_range_maker_bond_at_close order ;;; Ret tt
        end
      else Ret tt
  | _ => Ret tt
  end.

(** ** Retrying stranded closes *)

Definition collect_stranded_range_maker_roots : M (result (list Order) MostroError) :=
  bonds <-? find_locked_maker_parent_bonds ;;
  try_fold bonds [] (fun (stranded : list Order) bond =>
    root <- find_order_by_id (order_id bond) ;;
    match root with
    | Ok (Some root) =>
        terminal <- range_tree_fully_terminal (order_id bond) ;;
        match terminal with
        | Ok true => Ret (Ok (stranded ++ [root])%list)
        | _ => Ret (Ok stranded)
        end
    | _ => Ret (Ok stranded)
    end).

Definition reconcile_stranded_range_maker_bonds_with : M nat :=
  roots <- collect_stranded_range_maker_roots ;;
  match roots with
  | Err _ => Ret O
  | Ok roots =>
      resolved <- try_fold (E := MostroError) roots O (fun resolved order =>
        r <- resolve_range_maker_bond_at_close order ;;
        Ret (Ok (if is_ok r then S resolved else resolved))) ;;
      match resolved with Ok n => Ret n | Err _ => Ret O end
  end.

Definition reconcile_stranded_range_maker_bonds : M unit :=
  roots <- collect_stranded_range_maker_roots ;;
  match roots with
  | Err _ | Ok [] => Ret tt
  | Ok _ =>
      ln <- lnd_new ;;
      match ln with
      | Err _ => Ret tt
      | Ok _ => reconcile_stranded_range_maker_bonds_with ;;; Ret tt
      end
  end.

(** [job_reconcile_stranded_maker_bonds] ([src/scheduler.rs]), for [ticks]
    rounds of its endless loop. *)
Fixpoint job_reconcile_stranded_maker_bonds (ticks : nat) : M unit :=
  match ticks with
  | O => Ret tt
  | S ticks' =>
      reconcile_stranded_range_maker_bonds ;;; job_reconcile_stranded_maker_bonds ticks'
  end.

(** ** Applying a solver's resolution *)

Definition node_share_pct : f64 :=
  match get_bond settings with
  | Some c => slash_node_share_pct c
  | None => f64_of_i64 0
  end.

(** One side of the directive: [(slashed_ids, notify_rows)] is threaded. *)
Definition apply_side (order : Order) (active : list Bond) (is_range : bool)
    (reason : BondSlashReason) (acc : list Uuid * list Bond) (fs : bool * Side) :
    M (result (list Uuid * list Bond) MostroError) :=
  let '(slashed_ids, notify_rows) := acc in
  let '(flag, side) := fs in
  if negb flag then Ret (Ok acc)
  else
    target <-? resolve_slash_target order active side is_range ;;
    match target with
    | None => Ret (Ok acc)
    | Some target =>
        maker <-? Ret (if is_range then side_is_maker order side else Ok false) ;;
        if maker : bool then
          root <-? find_range_root_order order ;;
          inserted <-? record_maker_slice_slash order root target reason node_share_pct ;;
          if inserted : bool then
            child <-? find_slice_slash_child (id target) (o_id order) ;;
            match child with
            | Some c => Ret (Ok (slashed_ids, (notify_rows ++ [c])%list))
            | None => Ret (Ok acc)
            end
          else Ret (Ok acc)
        else
          slash_one target reason node_share_pct ;;;
          recorded <-? slash_reason_recorded (id target) reason ;;
          Ret (Ok (id target :: slashed_ids,
                   if recorded : bool then (notify_rows ++ [target])%list else notify_rows))
    end.

Definition apply_bond_resolution (order : Order) (resolution : BondResolution)
    (reason : BondSlashReason) : M (result (list Bond) MostroError) :=
  active <-? find_active_bonds_for_order (o_id order) ;;
  is_range <-? order_has_range_maker_bond order ;;
  acc <-? try_fold [(slash_seller resolution, Seller); (slash_buyer resolution, Buyer)]
            ([], []) (apply_side order active is_range reason) ;;
  let '(slashed_ids, notify_rows) := acc in
  for_each active (fun bond =>
    if existsb (N.eqb (id bond)) slashed_ids then Ret tt
    else if is_range && str_eqb (role bond) (role_to_string Maker) then Ret tt
    else release_bond bond ;;; Ret tt) ;;;
  Ret (Ok notify_rows).

(** ** Waiting-state timeout *)

Definition order_republishes_on_timeout (order : Order) : bool :=
  match get_order_status order, get_order_kind order with
  | Ok WaitingBuyerInvoice, Ok Sell => true
  | Ok WaitingPayment, Ok Buy => true
  | _, _ => false
  end.

Definition release_on_timeout (order_id : Uuid) (republishes : bool) : M unit :=
  if republishes then release_taker_bonds_for_order_or_warn order_id
  else release_bonds_for_order_or_warn order_id.

(** The side responsible for the elapsed waiting state. *)
Definition responsible_side (order : Order) : option Side :=
  match get_order_status order with
  | Ok WaitingBuyerInvoice => Some Buyer
  | Ok WaitingPayment => Some Seller
  | _ => None
  end.

Definition slash_armed (bond_cfg : option AntiAbuseBondSettings)
    (responsible_is_maker : bool) : bool :=
  match bond_cfg with
  | None => false
  | Some c =>
      enabled c && slash_on_waiting_timeout c &&
      (if responsible_is_maker then applies_to_maker (apply_to c)
       else applies_to_taker (apply_to c))
  end.

Definition slash_or_release_on_timeout (order : Order)
    (bond_cfg : option AntiAbuseBondSettings) : M (result (option Bond) MostroError) :=
  match responsible_side order with
  | None =>
      release_bonds_for_order_or_warn (o_id order) ;;; Ret (Ok None)
  | Some side =>
      let republishes := order_republishes_on_timeout order in
      responsible_is_maker <-? Ret (side_is_maker order side) ;;
      if negb (slash_armed bond_cfg responsible_is_maker) then
        release_on_timeout (o_id order) republishes ;;; Ret (Ok None)
      else
        bonds <-? find_active_bonds_for_order (o_id order) ;;
        is_range <-? order_has_range_maker_bond order ;;
        target <-? resolve_slash_target order bonds side is_range ;;
        match target with
        | None => release_on_timeout (o_id order) republishes ;;; Ret (Ok None)
        | Some responsible =>
            slashed_row <-?
              (if responsible_is_maker && is_range then
                 root <-? find_range_root_order order ;;
                 inserted <-? record_maker_slice_slash order root responsible Timeout
                                node_share_pct ;;
                 if inserted : bool then find_slice_slash_child (id responsible) (o_id order)
                 else Ret (Ok None)
               else
                 slash_one responsible Timeout node_share_pct ;;;
                 confirmed <-? timeout_slash_confirmed (id responsible) ;;
                 Ret (Ok (if confirmed : bool then Some responsible else None))) ;;
            for_each bonds (fun bond =>
              if N.eqb (id bond) (id responsible) then Ret tt
              else if str_eqb (role bond) (role_to_string Maker) && (republishes || is_range)
              then Ret tt
              else release_bond bond ;;; Ret tt) ;;;
            Ret (Ok slashed_row)
        end
  end.

(** ** The forfeiture notice *)

Definition notify_bond_slashed (order : Order) (slashed : Bond) : M unit :=
  match pubkey_from_str (pubkey slashed), get_order_kind order with
  | Ok recipient, Ok order_kind =>
      let small := small_order (Some (o_id order)) (Some order_kind) None
        (amount_sats slashed) (o_fiat_code order) (o_min_amount order) (o_max_amount order)
        (o_fiat_amount order) (o_payment_method order) (o_premium order) in
      enqueue_order_msg None (Some (o_id order)) BondSlashed (Some (PlOrder small))
        recipient None
  | _, _ => Ret tt
  end.
End Slash.
