(* ===== verification/Sequential.v ===== *)
(** * Running one handler alone

    Big-step rules for [run] when no other task interferes and the history
    does not influence the answers: [runs env p db v db'] says that [p] started
    on [db] returns [v] and leaves [db'], whatever happened before.  [Coop] is
    the outside world in which LND does what it is asked and every statement
    succeeds; the functional theorems of the handlers are stated in it. *)

From S2P Require Import Prelude Float64 Config BondTypes BondMath Effects Model.
From S2P Require Import Lightning Demo BondDb BondRelease.

Open Scope Z_scope.
Open Scope prog_scope.

Create HintDb runs.

Definition runs {A} (env : Env DB ext) (p : M A) (db : DB) (v : A) (db' : DB) : Prop :=
  forall tr, run_val env p db tr = v /\ run_db env p db tr = db'.

Section Rules.
Context (env : Env DB ext).

Lemma runs_ret {A} (a : A) db : runs env (Ret a) db a db.
Proof. by intros tr. Qed.

Lemma runs_bind {A B} (p : M A) (f : A -> M B) db v db1 w db2 :
  runs env p db v db1 -> runs env (f v) db1 w db2 -> runs env (bind p f) db w db2.
Proof.
  intros Hp Hf tr. unfold runs, run_val, run_db in *. rewrite run_bind.
  destruct (Hp tr) as [Hv Hd]. destruct (run env p db tr) as [[v' d'] tr']. simpl in *. subst.
  apply Hf.
Qed.

Lemma runs_try_ok {A B E} (p : M (result A E)) (f : A -> M (result B E)) db v db1 w db2 :
  runs env p db (Ok v) db1 -> runs env (f v) db1 w db2 -> runs env (try p f) db w db2.
Proof. intros Hp Hf. unfold try. eapply runs_bind; [exact Hp|exact Hf]. Qed.

Lemma runs_try_err {A B E} (p : M (result A E)) (f : A -> M (result B E)) db e db1 :
  runs env p db (Err e) db1 -> runs env (try p f) db (Err e) db1.
Proof. intros Hp. unfold try. eapply runs_bind; [exact Hp|]. apply runs_ret. Qed.

Lemma runs_ask {R} (e : ext R) v db :
  (forall tr, answer env R e tr = v) -> runs env (ask e) db v db.
Proof. intros Ha tr. unfold run_val, run_db. cbn. by rewrite Ha. Qed.

(** A loop: an invariant over the elements still to come. *)
Lemma runs_for_each {X} (body : X -> M unit) (P : list X -> DB -> Prop) l db :
  (forall x l' d, P (x :: l') d -> exists d', runs env (body x) d tt d' /\ P l' d') ->
  P l db -> exists db', runs env (for_each l body) db tt db' /\ P [] db'.
Proof.
  intros Hb. revert db. induction l as [|x l IH]; intros db HP; cbn [for_each].
  - exists db. split; [apply runs_ret|done].
  - destruct (Hb x l db HP) as (d1 & H1 & HP1). destruct (IH d1 HP1) as (d2 & H2 & HP2).
    exists d2. split; [|done]. eapply runs_bind; [exact H1|exact H2].
Qed.

Section Up.
Hypothesis up : sql_up env.

Lemma runs_sql {R} (stmt : DB -> DB * R) db :
  runs env (sql stmt) db (Ok (stmt db).2) (stmt db).1.
Proof. intros tr. unfold run_val, run_db. cbn. rewrite up. by destruct (stmt db). Qed.

Lemma runs_sql_db {R} (stmt : DB -> DB * R) db :
  runs env (sql_or_db_error stmt) db (Ok (stmt db).2) (stmt db).1.
Proof. eapply runs_bind; [apply runs_sql|]. apply runs_ret. Qed.

Lemma runs_query {R} (f : DB -> R) db :
  runs env (sql_or_db_error (query f)) db (Ok (f db)) db.
Proof. apply runs_sql_db. Qed.

Lemma runs_row {R} (stmt : DB -> DB * result R string) db v :
  (stmt db).2 = Ok v -> runs env (sql_row stmt) db (Ok v) (stmt db).1.
Proof. intros E. eapply runs_bind; [apply runs_sql|]. rewrite E. apply runs_ret. Qed.
End Up.
End Rules.

(** ** The cooperating world *)

Record Coop (env : Env DB ext) (now : Z) : Prop := {
  coop_sql : sql_up env;
  coop_now : forall tr, answer env _ Now tr = now;
  coop_connect : forall tr, answer env _ LndConnect tr = Ok tt;
  coop_settle : forall p tr, answer env _ (LndSettleInvoice p) tr = Ok tt;
  coop_cancel : forall h tr, answer env _ (LndCancelInvoice h) tr = Ok tt
}.

Lemma demo_coop now : Coop (demo_env now) now.
Proof. by split. Qed.

(** ** Rows and keys *)

Lemma update_where_id (t : list Bond) p f :
  (forall b, In b t -> p b = true -> f b = b) -> update_where p f t = t.
Proof.
  intros Hf. unfold update_where. rewrite <- (map_id t) at 2. apply map_ext_in.
  intros b Hb. destruct (p b) eqn:E; auto.
Qed.

Lemma update_where_ext (t : list Bond) (p p' : Bond -> bool) (f f' : Bond -> Bond) :
  (forall b, In b t -> (if p b then f b else b) = (if p' b then f' b else b)) ->
  update_where p f t = update_where p' f' t.
Proof. intros Hf. unfold update_where. by apply map_ext_in. Qed.

Lemma nodup_ids_eq (t : list Bond) b1 b2 :
  NoDup (map id t) -> In b1 t -> In b2 t -> id b1 = id b2 -> b1 = b2.
Proof.
  induction t as [|b t IH]; [done|]. cbn [map In]. intros [Hn Hnd]%NoDup_cons [->|H1] [->|H2] E;
    [done| | |by apply IH].
  - destruct Hn. rewrite E. by apply list_elem_of_In, in_map.
  - destruct Hn. rewrite <- E. by apply list_elem_of_In, in_map.
Qed.

Lemma find_id (t : list Bond) b :
  NoDup (map id t) -> In b t -> select_one (fun r => N.eqb (id r) (id b)) t = Some b.
Proof.
  intros Hnd Hb. unfold select_one.
  destruct (List.find (fun r => N.eqb (id r) (id b)) t) as [r|] eqn:E.
  - apply find_some in E as [Hr E%N.eqb_eq]. f_equal. by eapply nodup_ids_eq.
  - pose proof (find_none _ _ E b Hb) as Hx. cbv beta in Hx. by rewrite N.eqb_refl in Hx.
Qed.

(** The row a full-row [UPDATE] leaves, seen as a change of that row alone. *)
Lemma bond_update_row db b b' :
  NoDup (map id (bonds db)) -> In b (bonds db) -> id b' = id b -> created_at b' = created_at b ->
  (bond_update b' db).1 =
    mkDB (orders db) (update_where (fun r => N.eqb (id r) (id b)) (fun _ => b') (bonds db)) (users db) (disputes db) /\
  exists r, (bond_update b' db).2 = Ok r.
Proof.
  intros Hnd Hb Hid Hc.
  assert (E : update_where (fun r => N.eqb (id r) (id b')) (fun r => b' <| created_at := created_at r |>)
            (bonds db) = update_where (fun r => N.eqb (id r) (id b)) (fun _ => b') (bonds db)).
  { apply update_where_ext. intros r Hr. rewrite Hid. destruct (N.eqb (id r) (id b)) eqn:Er; [|done].
    apply N.eqb_eq in Er. rewrite (nodup_ids_eq _ _ _ Hnd Hr Hb Er).
    rewrite <- Hc. by destruct b'. }
  unfold bond_update, update_bonds. rewrite E. split; [done|]. cbn [bonds snd].
  destruct (select_one _ _) as [r|] eqn:Es; [by exists r|]. exfalso.
  unfold select_one in Es.
  assert (In b' (update_where (fun r => N.eqb (id r) (id b)) (fun _ => b') (bonds db))) as Hin.
  { apply in_update_where. exists b. split; [done|]. by rewrite N.eqb_refl. }
  pose proof (find_none _ _ Es b' Hin) as Hx. cbv beta in Hx. by rewrite N.eqb_refl in Hx.
Qed.

(** ** Programs that write nothing *)

Fixpoint read_only {A} (p : M A) : Prop :=
  match p with
  | Ret _ => True
  | Sql stmt k => (forall db, (stmt db).1 = db) /\ forall r, read_only (k r)
  | Ext e k => forall r, read_only (k r)
  end.

Lemma read_only_bind {A B} (p : M A) (f : A -> M B) :
  read_only p -> (forall a, read_only (f a)) -> read_only (bind p f).
Proof.
  intros Hp Hf. induction p as [a|R stmt k IH|R e k IH]; cbn in *; [apply Hf| |auto].
  destruct Hp as [Hs Hk]. auto.
Qed.

Lemma read_only_run {A} env (p : M A) db tr :
  read_only p -> exists a tr', run env p db tr = (a, db, tr').
Proof.
  revert db tr. induction p as [a|R stmt k IH|R e k IH]; intros db tr Hp; cbn in *.
  - eauto.
  - destruct Hp as [Hs Hk]. destruct (sql_error env tr); [by apply IH|].
    specialize (Hs db). destruct (stmt db) as [db' r]. simpl in Hs. subst db'. by apply IH.
  - by apply IH.
Qed.

(** Running a read-only prefix. *)
Lemma run_read_only {A B} env (p : M A) (f : A -> M B) db tr :
  read_only p -> exists a tr', run env p db tr = (a, db, tr') /\
    run env (bind p f) db tr = run env (f a) db tr'.
Proof.
  intros Hp. destruct (read_only_run env p db tr Hp) as (a & tr' & E). exists a, tr'.
  split; [done|]. by rewrite run_bind, E.
Qed.

Ltac read_only :=
  repeat first
    [ done
    | apply read_only_bind; [|intros ?]
    | match goal with |- read_only (match ?x with _ => _ end) => destruct x end
    | progress (cbn; intros; try split; intros) ].

(** An [UPDATE] that hits no row changes nothing. *)
Lemma update_bonds_miss p f db : (update_bonds p f db).2 = 0 -> (update_bonds p f db).1 = db.
Proof.
  destruct db as [os bs]. unfold update_bonds, count_where. cbn [fst snd orders bonds]. intros E.
  f_equal. apply update_where_id. intros b Hb Hp. exfalso.
  assert (In b (List.filter p bs)) as Hin by by apply filter_In.
  destruct (List.filter p bs); [done|]. simpl in E. lia.
Qed.
