(* ===== verification/SlashSpec.v ===== *)
(** * What resolving a trade does to its bonds

    Functional theorems about [src/app/bond/slash.rs] and the release path of
    [src/app/bond/flow.rs], for a handler that runs alone in the cooperating
    world: which row ends in which state, and what is left untouched. *)

From S2P Require Import Prelude Float64 Config BondTypes BondMath Effects Model.
From S2P Require Import Lightning Demo BondDb BondRelease BondSlash Sequential.

Open Scope Z_scope.
Open Scope prog_scope.

(** ** Releasing *)

Section ReleaseRuns.
Context `{Lib} (env : Env DB ext) (now : Z) (HC : Coop env now).

(** The hold invoice of the row can be named to LND. *)
Definition cancellable (b : Bond) : bool :=
  match hash b with
  | None => true
  | Some h => is_ok (decode_hash32 "payment hash" h)
  end.

Definition released_row (b : Bond) : Bond :=
  b <| state := state_to_string Released |> <| released_at := Some now |>.

Lemma runs_lnd_new db : runs env lnd_new db (Ok tt) db.
Proof. eapply runs_bind; [apply runs_ask, HC|]. apply runs_ret. Qed.

Lemma runs_release_htlc b db :
  cancellable b = true -> runs env (release_htlc (hash b)) db (Ok tt) db.
Proof.
  unfold cancellable, release_htlc. destruct (hash b) as [h|]; [|intros _; apply runs_ret].
  destruct (decode_hash32 _ h) as [bs|] eqn:E; [intros _|done].
  eapply runs_try_ok; [apply runs_lnd_new|].
  apply (runs_bind _ _ _ _ (Ok tt) db); [|apply runs_ret].
  unfold cancel_hold_invoice. rewrite E. eapply runs_try_ok; [apply runs_ret|].
  eapply runs_bind; [apply runs_ask, HC|]. apply runs_ret.
Qed.

Lemma active_row_parse b :
  active_row b = true -> exists s, state_from_str (state b) = Ok s /\ is_terminal s = false.
Proof.
  unfold active_row. rewrite orb_true_iff. intros [E|E]; apply state_is_eq in E; rewrite E;
    eexists; split; reflexivity.
Qed.

Lemma runs_release_bond db b :
  NoDup (map id (bonds db)) -> In b (bonds db) -> active_row b = true -> cancellable b = true ->
  runs env (release_bond b) db (Ok tt)
    (mkDB (orders db) (update_where (fun r => N.eqb (id r) (id b)) (fun _ => released_row b) (bonds db)) (users db) (disputes db)).
Proof.
  intros Hnd Hb Ha Hc. unfold release_bond.
  destruct (active_row_parse b Ha) as (s & -> & ->).
  eapply runs_try_ok; [by apply runs_release_htlc|].
  eapply runs_bind; [apply runs_ask, HC|].
  destruct (bond_update_row db b (released_row b) Hnd Hb eq_refl eq_refl) as [Hd (r & Hr)].
  rewrite <- Hd. eapply runs_try_ok; [|apply runs_ret].
  exact (runs_row env (coop_sql _ _ HC) (bond_update (released_row b)) db r Hr).
Qed.

(** The rows a release loop over [l] reaches. *)
Definition reached (skip : Bond -> bool) (l : list Bond) (r : Bond) : bool :=
  existsb (fun b => N.eqb (id r) (id b) && negb (skip b)) l.

Lemma reached_cons skip x l r :
  reached skip (x :: l) r = (N.eqb (id r) (id x) && negb (skip x)) || reached skip l r.
Proof. done. Qed.

Lemma reached_out skip l r : ~ In (id r) (map id l) -> reached skip l r = false.
Proof.
  intros Hn. apply not_true_is_false. intros (b & Hb & [E%N.eqb_eq _]%andb_true_iff)%existsb_exists.
  apply Hn. rewrite E. by apply in_map.
Qed.

(** What is left to release, and what it will come to. *)
Definition releasing (skip : Bond -> bool) (goal : DB) (l : list Bond) (d : DB) : Prop :=
  NoDup (map id (bonds d)) /\ NoDup (map id l) /\
  (forall b, In b l -> skip b = false ->
     In b (bonds d) /\ active_row b = true /\ cancellable b = true) /\
  mkDB (orders d) (update_where (reached skip l) released_row (bonds d)) (users d) (disputes d) = goal.

Lemma update_ids (t : list Bond) (p : Bond -> bool) (f : Bond -> Bond) :
  (forall b, In b t -> p b = true -> id (f b) = id b) ->
  map id (update_where p f t) = map id t.
Proof.
  intros Hf. unfold update_where. rewrite map_map. apply map_ext_in. intros b Hb.
  destruct (p b) eqn:E; auto.
Qed.

(** Releasing the first row of the loop keeps the goal in reach. *)
Lemma releasing_step skip goal x l d :
  skip x = false -> releasing skip goal (x :: l) d ->
  releasing skip goal l (mkDB (orders d)
    (update_where (fun r => N.eqb (id r) (id x)) (fun _ => released_row x) (bonds d)) (users d) (disputes d)).
Proof.
  intros Hx (Hd & Hl & Hs & <-). cbn [map] in Hl. apply NoDup_cons in Hl as [Hn Hl].
  destruct (Hs x (or_introl eq_refl) Hx) as (Hxd & _).
  assert (Hni : ~ In (id x) (map id l)) by (by intros ?%list_elem_of_In).
  split_and!; cbn [bonds orders].
  - rewrite update_ids; [done|]. intros b _ E%N.eqb_eq. by symmetry.
  - done.
  - intros b Hb Hk. destruct (Hs b (or_intror Hb) Hk) as (Hbd & ? & ?). split_and!; [|done|done].
    apply in_update_where. exists b. split; [done|].
    destruct (N.eqb (id b) (id x)) eqn:E; [|done]. apply N.eqb_eq in E.
    destruct Hni. rewrite <- E. by apply in_map.
  - f_equal. unfold update_where. rewrite map_map. apply map_ext_in. intros r Hr.
    rewrite reached_cons, Hx. cbn [negb]. rewrite andb_true_r.
    destruct (N.eqb (id r) (id x)) eqn:E; cbn [orb]; [|done].
    apply N.eqb_eq in E. rewrite (nodup_ids_eq _ _ _ Hd Hr Hxd E).
    by rewrite (reached_out skip l (released_row x) Hni).
Qed.

Lemma runs_release_loop (skip : Bond -> bool) (body : Bond -> M unit) l db :
  (forall b, body b = if skip b then Ret tt else bind (release_bond b) (fun _ => Ret tt)) ->
  NoDup (map id (bonds db)) -> NoDup (map id l) ->
  (forall b, In b l -> skip b = false ->
     In b (bonds db) /\ active_row b = true /\ cancellable b = true) ->
  runs env (for_each l body) db tt
    (mkDB (orders db) (update_where (reached skip l) released_row (bonds db)) (users db) (disputes db)).
Proof.
  intros Hbody Hd Hl Hs.
  set (goal := mkDB (orders db) (update_where (reached skip l) released_row (bonds db)) (users db) (disputes db)).
  destruct (runs_for_each env body (releasing skip goal) l db) as (db' & Hr & (_ & _ & _ & Hg)).
  - intros x l' d HP. rewrite Hbody. destruct (skip x) eqn:Ex.
    + exists d. split; [apply runs_ret|]. destruct HP as (H1 & H2 & H3 & H4).
      cbn [map] in H2. apply NoDup_cons in H2 as [_ H2]. split_and!; [done|done|auto using in_cons|].
      rewrite <- H4. f_equal. apply update_where_ext. intros r _. by rewrite reached_cons, Ex, andb_false_r.
    + pose proof HP as (H1 & _ & H3 & _). destruct (H3 x (or_introl eq_refl) Ex) as (? & ? & ?).
      eexists. split; [|by apply (releasing_step _ _ x)].
      eapply runs_bind; [by apply runs_release_bond|]. apply runs_ret.
  - unfold releasing. split_and!; [exact Hd|exact Hl|exact Hs|reflexivity].
  - rewrite update_where_id in Hg by done. destruct db' as [os bs]. cbn [orders bonds] in Hg. rewrite <- Hg. exact Hr.
Qed.
End ReleaseRuns.

(** ** The rows of one order *)

Lemma active_ids o db :
  NoDup (map id (bonds db)) -> NoDup (map id (active_bonds_for_order o db)).
Proof. apply select_ordered_nodup. Qed.

Lemma active_reached skip o db r :
  NoDup (map id (bonds db)) -> In r (bonds db) ->
  reached skip (active_bonds_for_order o db) r =
  N.eqb (order_id r) o && active_row r && negb (skip r).
Proof.
  intros Hnd Hr. apply eq_true_iff_eq. unfold reached. rewrite existsb_exists, !andb_true_iff. split.
  - intros (b & [Hb Hp]%select_ordered_in & [E%N.eqb_eq Hk]%andb_true_iff).
    rewrite (nodup_ids_eq _ _ _ Hnd Hr Hb E). by apply andb_true_iff in Hp as [].
  - intros [[Ho Ha] Hk]. exists r. split; [|by rewrite N.eqb_refl, Hk].
    apply select_ordered_in. by rewrite Ho, Ha.
Qed.

Section ReleaseTheorems.
Context `{Lib} (env : Env DB ext) (now : Z).

(** The rows of an order a release returns. *)
Definition to_release (o : Uuid) (retain_makers : bool) (b : Bond) : bool :=
  N.eqb (order_id b) o && active_row b &&
  negb (retain_makers && str_eqb (role b) (role_to_string Maker)).

(** Releasing the bonds of an order returns them all. Alone and with LND
    answering, [release_active_bonds] leaves every active row of the order
    [Released] (the maker's kept when asked to), and changes nothing else. *)
Theorem release_active_bonds_outcome o retain db :
  Coop env now -> NoDup (map id (bonds db)) ->
  (forall b, In b (bonds db) -> cancellable b = true) ->
  runs env (release_active_bonds o retain) db (Ok tt)
    (mkDB (orders db) (update_where (to_release o retain) (released_row now) (bonds db)) (users db) (disputes db)).
Proof.
  intros HC Hnd Hcan. unfold release_active_bonds.
  eapply runs_try_ok; [apply runs_query, HC|].
  set (skip := fun b => retain && str_eqb (role b) (role_to_string Maker)).
  eapply runs_bind; [|apply runs_ret].
  replace (update_where (to_release o retain) (released_row now) (bonds db))
    with (update_where (reached skip (active_bonds_for_order o db)) (released_row now) (bonds db)).
  - apply runs_release_loop; [done|done|done|by apply active_ids|].
    intros b [Hb Hp]%select_ordered_in _. apply andb_true_iff in Hp as []. auto.
  - apply update_where_ext. intros r Hr. by rewrite (active_reached skip o db r Hnd Hr).
Qed.
End ReleaseTheorems.

(** ** A solver's resolution *)

Section Resolution.
Context `{Lib} (settings : Settings) (env : Env DB ext) (now : Z) (HC : Coop env now).
Context (reason : BondSlashReason).

Definition settleable (b : Bond) : bool :=
  match preimage b with
  | Some p => is_ok (decode_hash32 "preimage" p)
  | None => false
  end.

Definition slashed_row (b : Bond) : Bond :=
  b <| state := state_to_string PendingPayout |>
    <| slashed_reason := Some (reason_to_string reason) |>
    <| slashed_at := Some now |>
    <| node_share_sats := Some (compute_node_share (amount_sats b) (node_share_pct settings)) |>.

Lemma runs_slash_one b db :
  settleable b = true ->
  runs env (slash_one b reason (node_share_pct settings)) db tt
    (slash_cas_stmt (id b) reason now
       (compute_node_share (amount_sats b) (node_share_pct settings)) db).1.
Proof.
  unfold settleable, slash_one. destruct (preimage b) as [p|]; [|done].
  destruct (decode_hash32 "preimage" p) as [bs|] eqn:E; [intros _|done].
  apply (runs_bind _ _ _ _ true db).
  - apply (runs_bind _ _ _ _ (Ok tt) db); [|apply runs_ret]. unfold settle_hold_invoice. rewrite E.
    eapply runs_try_ok; [apply runs_ret|]. eapply runs_bind; [apply runs_ask, HC|]. apply runs_ret.
  - cbv iota beta zeta. eapply runs_bind; [apply runs_ask, HC|].
    eapply runs_bind; [apply runs_sql, HC|]. apply runs_ret.
Qed.

(** The table once the rows [ids] are slashed. *)
Definition slash_if (ids : list Uuid) (r : Bond) : Bond :=
  if existsb (N.eqb (id r)) ids then slashed_row r else r.

Definition slashed_db (db : DB) (ids : list Uuid) : DB :=
  mkDB (orders db) (map (slash_if ids) (bonds db)) (users db) (disputes db).

Lemma slash_if_id ids r : id (slash_if ids r) = id r.
Proof. unfold slash_if. by case_match. Qed.

Lemma slash_cas_on db ids t :
  NoDup (map id (bonds db)) -> In t (bonds db) -> state_is Locked t = true ->
  (slash_cas_stmt (id t) reason now
     (compute_node_share (amount_sats t) (node_share_pct settings)) (slashed_db db ids)).1 =
  slashed_db db (id t :: ids).
Proof.
  intros Hnd Ht Hl. unfold slash_cas_stmt, update_bonds, slashed_db. cbn [fst orders bonds]. f_equal.
  unfold update_where. rewrite map_map. apply map_ext_in. intros r Hr.
  unfold with_id_state. rewrite slash_if_id. unfold slash_if. cbn [existsb].
  destruct (N.eqb (id r) (id t)) eqn:E; cbn [orb andb]; [|done].
  apply N.eqb_eq in E. rewrite (nodup_ids_eq _ _ _ Hnd Hr Ht E).
  destruct (existsb (N.eqb (id t)) ids); [reflexivity|]. rewrite Hl. reflexivity.
Qed.

Lemma recorded_after db ids t :
  NoDup (map id (bonds db)) -> In t (bonds db) -> In (id t) ids ->
  runs env (slash_reason_recorded (id t) reason) (slashed_db db ids) (Ok true) (slashed_db db ids).
Proof.
  intros Hnd Ht Hi. eapply runs_try_ok; [apply runs_query, HC|].
  assert (bond_by_id (id t) (slashed_db db ids) = Some (slash_if ids t)) as ->.
  { unfold bond_by_id. rewrite <- (slash_if_id ids t). apply find_id.
    - cbn [slashed_db bonds]. rewrite map_map. erewrite map_ext; [exact Hnd|]. apply slash_if_id.
    - by apply in_map. }
  unfold slash_if. rewrite (proj2 (existsb_eqb (id t) ids) Hi). cbn [slashed_reason option_bind mbind].
  unfold slashed_row. cbn. rewrite bool_decide_eq_true_2 by done. apply runs_ret.
Qed.

Context (order : Order).

(** The bond a directive on a side points at: the side's own locked bond. *)
Definition targets_of (db : DB) (fs : bool * Side) : list Bond :=
  match fs.1, resolve_locked_bond order (active_bonds_for_order (o_id order) db) fs.2 with
  | true, Some t => [t]
  | _, _ => []
  end.

Lemma resolved_target db side t :
  resolve_locked_bond order (active_bonds_for_order (o_id order) db) side = Some t ->
  In t (bonds db) /\ state_is Locked t = true /\ order_id t = o_id order.
Proof.
  unfold resolve_locked_bond. destruct (match side with Seller => _ | Buyer => _ end); [|done].
  intros [Hin Hp]%find_some. apply select_ordered_in in Hin as [Hin Hs].
  apply andb_true_iff in Hp as [_ Hp], Hs as [Ho _]. split_and!; [done|done|by apply N.eqb_eq].
Qed.

Lemma runs_target active side db :
  runs env (resolve_slash_target order active side false) db
    (Ok (resolve_locked_bond order active side)) db.
Proof. unfold resolve_slash_target. destruct (resolve_locked_bond _ _ _); apply runs_ret. Qed.

Lemma runs_apply_side db ids rows fs :
  NoDup (map id (bonds db)) ->
  (forall b, In b (bonds db) -> state_is Locked b = true -> settleable b = true) ->
  runs env (apply_side settings order (active_bonds_for_order (o_id order) db) false reason (ids, rows) fs)
    (slashed_db db ids)
    (Ok ((map id (targets_of db fs) ++ ids)%list, (rows ++ targets_of db fs)%list))
    (slashed_db db (map id (targets_of db fs) ++ ids)).
Proof.
  intros Hnd Hset. destruct fs as [flag side]. unfold targets_of, apply_side. cbn [fst snd].
  destruct flag; cbn [negb]; [|cbn; rewrite app_nil_r; apply runs_ret].
  eapply runs_try_ok; [apply runs_target|].
  destruct (resolve_locked_bond _ _ side) as [t|] eqn:Et;
    [|cbn; rewrite app_nil_r; apply runs_ret].
  destruct (resolved_target db side t Et) as (Hin & Hl & _).
  eapply runs_try_ok; [apply runs_ret|]. cbv iota.
  eapply runs_bind; [by apply runs_slash_one, Hset|].
  rewrite slash_cas_on by done. eapply runs_try_ok; [apply recorded_after; [done|done|by left]|].
  apply runs_ret.
Qed.

(** The bonds a resolution slashes. *)
Definition slash_targets (db : DB) (res : BondResolution) : list Bond :=
  (targets_of db (slash_seller res, Seller) ++ targets_of db (slash_buyer res, Buyer))%list.

(** What becomes of a row. *)
Definition resolved_row (slashed : list Bond) (r : Bond) : Bond :=
  if existsb (N.eqb (id r)) (map id slashed) then slashed_row r
  else if N.eqb (order_id r) (o_id order) && active_row r then released_row now r
  else r.

Lemma runs_is_range db root n :
  range_chain db n order root -> (n < MAX_RANGE_CHAIN_DEPTH)%nat ->
  runs env (order_has_range_maker_bond order) db (Ok (is_some (o_max_amount root))) db.
Proof.
  intros Hch Hn. apply (runs_try_ok _ _ _ _ root db); [|apply runs_ret].
  intros tr. destruct (walk_to_root_run env MAX_RANGE_CHAIN_DEPTH order db tr (coop_sql _ _ HC)) as [Hd Hv].
  split; [|exact Hd]. apply Hv. eauto.
Qed.

Lemma slashed_db_nil db : slashed_db db [] = db.
Proof. destruct db as [os bs]. unfold slashed_db. cbn. f_equal. rewrite <- (map_id bs) at 2. done. Qed.

(** The slash of both sides, then the release of the rest, row by row. *)
Lemma resolved_table db ids slashed :
  NoDup (map id (bonds db)) -> (forall i, In i ids <-> In i (map id slashed)) ->
  update_where (reached (fun b => existsb (N.eqb (id b)) ids) (active_bonds_for_order (o_id order) db))
    (released_row now) (map (slash_if ids) (bonds db)) =
  map (resolved_row slashed) (bonds db).
Proof.
  intros Hnd Hids. unfold update_where. rewrite map_map. apply map_ext_in. intros r Hr.
  assert (existsb (N.eqb (id r)) (map id slashed) = existsb (N.eqb (id r)) ids) as E.
  { apply eq_true_iff_eq. by rewrite !existsb_eqb, Hids. }
  assert (reached (fun b => existsb (N.eqb (id b)) ids) (active_bonds_for_order (o_id order) db)
            (slash_if ids r) =
          reached (fun b => existsb (N.eqb (id b)) ids) (active_bonds_for_order (o_id order) db) r) as ->.
  { unfold reached. by rewrite slash_if_id. }
  rewrite active_reached by done. unfold resolved_row, slash_if. rewrite E.
  destruct (existsb (N.eqb (id r)) ids); cbn [negb]; [by rewrite andb_false_r|by rewrite andb_true_r].
Qed.
End Resolution.

Section ResolutionTheorem.
Context `{Lib} (settings : Settings) (env : Env DB ext) (now : Z).

(** C32: a solver's resolution of an order outside any range, row by row. When
    the handler runs alone, its statements and LND answering, and the hashes
    and preimages of the bonds can be decoded, [apply_bond_resolution] moves
    exactly the locked bonds of the flagged sides to [PendingPayout] with their
    reason, time and split recorded, releases every other active bond of the
    order, leaves all other rows alone, and returns the slashed rows for
    notification. *)
Theorem apply_bond_resolution_outcome order root n res reason db :
  Coop env now -> NoDup (map id (bonds db)) ->
  range_chain db n order root -> (n < MAX_RANGE_CHAIN_DEPTH)%nat -> o_max_amount root = None ->
  (forall b, In b (bonds db) -> cancellable b = true) ->
  (forall b, In b (bonds db) -> state_is Locked b = true -> settleable b = true) ->
  runs env (apply_bond_resolution settings order res reason) db
    (Ok (slash_targets order db res))
    (mkDB (orders db)
       (map (resolved_row settings now reason order (slash_targets order db res)) (bonds db)) (users db) (disputes db)).
Proof.
  intros HC Hnd Hch Hn Hmax Hcan Hset. unfold apply_bond_resolution.
  eapply runs_try_ok; [apply runs_query, HC|].
  eapply runs_try_ok; [eapply runs_is_range; [exact HC|exact Hch|exact Hn]|]. rewrite Hmax. cbn [is_some].
  rewrite <- (slashed_db_nil settings now reason db) at 2.
  eapply runs_try_ok.
  { cbn [try_fold]. eapply runs_try_ok; [by apply runs_apply_side|].
    eapply runs_try_ok; [by apply runs_apply_side|]. apply runs_ret. }
  set (ids := (map id (targets_of order db (slash_buyer res, Buyer)) ++
               map id (targets_of order db (slash_seller res, Seller)) ++ [])%list).
  assert (forall i, In i ids <-> In i (map id (slash_targets order db res))) as Hids.
  { intros i. unfold ids, slash_targets. rewrite map_app, !in_app_iff. cbn. tauto. }
  rewrite <- (resolved_table settings now reason order db ids) by done.
  eapply runs_bind; [|apply runs_ret].
  apply (runs_release_loop env now HC (fun b => existsb (N.eqb (id b)) ids)).
  - intros b. cbn [andb]. by destruct (existsb _ _).
  - cbn [slashed_db bonds]. rewrite map_map. erewrite map_ext; [exact Hnd|]. apply slash_if_id.
  - by apply active_ids.
  - intros b [Hb Hp]%select_ordered_in Hk. apply andb_true_iff in Hp as [].
    split_and!; [|done|by apply Hcan]. apply in_map_iff. exists b. split; [|done].
    unfold slash_if. by rewrite Hk.
Qed.
End ResolutionTheorem.

(** ** Range maker bonds: the budget *)

Definition children_of (p : Uuid) (b : Bond) : bool := opt_uuid_eqb (parent_bond_id b) p.

Definition children_total (p : Uuid) (db : DB) : Z :=
  sumZ (map amount_sats (List.filter (children_of p) (bonds db))).

(** The parent's running total is the sum of its slices and stays within it. *)
Definition within_budget (p : Uuid) (db : DB) : Prop :=
  exists b, In b (bonds db) /\ id b = p /\ state_is Locked b = true /\
    parent_bond_id b = None /\
    slashed_share_sats b = slice_total p db /\ slice_total p db <= amount_sats b.

(** A total over rows does not see columns it does not read. *)
Lemma total_update (q p : Bond -> bool) (f : Bond -> Bond) (t : list Bond) :
  (forall b, In b t -> p b = true -> q (f b) = q b /\ amount_sats (f b) = amount_sats b) ->
  sumZ (map amount_sats (List.filter q (update_where p f t))) =
  sumZ (map amount_sats (List.filter q t)).
Proof.
  intros Hf. induction t as [|b t IH]; [done|].
  assert (IH' := IH (fun b Hb => Hf b (or_intror Hb))). unfold update_where in *. cbn [map List.filter].
  assert (q (if p b then f b else b) = q b /\ amount_sats (if p b then f b else b) = amount_sats b)
    as [-> Ha] by (destruct (p b) eqn:E; [apply Hf; [by left|done]|done]).
  destruct (q b); cbn [map sumZ foldr]; rewrite ?Ha; [|done]. unfold sumZ in IH'. by rewrite IH'.
Qed.

Lemma total_insert (q : Bond -> bool) (b : Bond) (t : list Bond) :
  sumZ (map amount_sats (List.filter q (t ++ [b]))) =
  sumZ (map amount_sats (List.filter q t)) + (if q b then amount_sats b else 0).
Proof.
  rewrite List.filter_app, map_app, sumZ_app. cbn. destruct (q b); cbn; lia.
Qed.

Section Slices.
Context `{Lib} (env : Env DB ext).

(** Inserting a slice and refreshing the running total, with a fresh parent. *)
Lemma slice_steps_budget p child db :
  NoDup (map id (bonds db)) -> within_budget p db ->
  parent_bond_id child = Some p -> is_some (child_order_id child) = true ->
  slice_total p db + amount_sats child <=
    match select_one (fun r => N.eqb (id r) p) (bonds db) with Some b => amount_sats b | None => 0 end ->
  within_budget p (share_total_stmt p (insert_bond child db)).1.
Proof.
  intros Hnd (b & Hb & Hid & Hl & Hp & Hs & Hle) Hcp Hcc Hadd.
  rewrite <- Hid in Hadd. rewrite (find_id _ b Hnd Hb) in Hadd.
  assert (slice_total p (insert_bond child db) = slice_total p db + amount_sats child) as Et.
  { unfold slice_total. cbn [insert_bond bonds]. rewrite total_insert. unfold slice_child_of at 2.
    rewrite Hcp, Hcc. cbn [opt_uuid_eqb]. by rewrite N.eqb_refl. }
  assert (slice_total p (share_total_stmt p (insert_bond child db)).1 =
          slice_total p (insert_bond child db)) as Eu.
  { unfold share_total_stmt, update_bonds, slice_total at 1. cbn [fst bonds].
    rewrite total_update; done. }
  exists (b <| slashed_share_sats := slice_total p (insert_bond child db) |>).
  split_and!; [|done|done|done| |].
  - apply in_update_where. exists b. split; [cbn; apply in_or_app; by left|].
    unfold with_id_state. by rewrite Hid, N.eqb_refl, Hl.
  - by rewrite Eu.
  - rewrite Eu, Et, <- Hid. exact Hadd.
Qed.

(** slices never overdraw a bond the handler has just read. From a locked
    maker bond whose running total is the sum of its slices, one
    [record_maker_slice_slash] on that row leaves the total equal to the sum of
    the slices and at most the bond amount, whatever LND, the clock and the id
    generator answer. *)
Theorem record_maker_slice_slash_budget slice root parent reason pct db tr :
  sql_up env -> NoDup (map id (bonds db)) -> In parent (bonds db) ->
  state_is Locked parent = true -> parent_bond_id parent = None ->
  slashed_share_sats parent = slice_total (id parent) db ->
  slice_total (id parent) db <= amount_sats parent ->
  within_budget (id parent) (run_db env (record_maker_slice_slash slice root parent reason pct) db tr).
Proof.
  intros Hup Hnd Hin Hl Hpp Hs Hle.
  assert (within_budget (id parent) db) as Hw by (by exists parent).
  unfold record_maker_slice_slash, run_db, try, sql_or_db_error.
  destruct (internal (get_order_kind slice)) as [kind|e]; cbn [bind run fst snd]; [|done].
  destruct (match kind with Sell => _ | Buy => _ end); [|done].
  destruct (o_max_amount root); [|done]. destruct (negb (0 <? z)); [done|].
  set (amt := clampZ _ _ _). destruct (amt <=? 0); [done|].
  cbn [bind call run sql fst snd]. rewrite Hup.
  set (child := slash_row _ _ _ _ _ _ _ _ _). unfold slice_insert_stmt.
  destruct (_ && _); cbn [bind run fst snd]; [|exact Hw].
  destruct (bond_unique_violation child db); cbn [bind run fst snd].
  { destruct (is_unique_violation "UNIQUE constraint failed: bonds"); exact Hw. }
  cbn [bind run sql fst snd]. change (1 =? 0) with false. cbv iota. cbn [bind run sql fst snd].
  rewrite Hup. destruct (share_total_stmt (id parent) (insert_bond child db)) as [db' n] eqn:E.
  cbn [bind run sql fst snd map_err]. change db' with (db', n).1. rewrite <- E.
  apply slice_steps_budget; [done|done|done|done|].
  rewrite (find_id _ parent Hnd Hin). change (amount_sats child) with amt.
  pose proof (clampZ_bounds (slice_share (amount_sats parent) (o_fiat_amount slice) z) 0
    (Z.max (amount_sats parent - slashed_share_sats parent) 0) ltac:(lia)) as Hb.
  fold amt in Hb. lia.
Qed.
End Slices.

(** ** Closing a range *)

Section Close.

(** The parent row once closed. *)
Definition closed_row (b : Bond) : Bond := b <| state := state_to_string Slashed |>.

Lemma close_cas parent db :
  NoDup (map id (bonds db)) -> In parent (bonds db) -> state_is Locked parent = true ->
  (update_bonds (with_id_state (id parent) Locked) closed_row db).2 = 1.
Proof.
  intros Hnd Hin Hl. unfold update_bonds, count_where. cbn [snd].
  assert (forall t, NoDup (map id t) -> In parent t ->
    length (List.filter (with_id_state (id parent) Locked) t) = 1%nat) as ->; [|done|done|done].
  induction t as [|b t IH]; [done|]. cbn [map In List.filter]. intros [Hn Hnd']%NoDup_cons [->|Hi].
  - unfold with_id_state at 1. rewrite N.eqb_refl, Hl. cbn. f_equal.
    destruct (List.filter _ t) as [|c l] eqn:E; [done|]. exfalso. apply Hn.
    assert (In c (c :: l)) as Hc by by left. rewrite <- E in Hc.
    apply filter_In in Hc as [Hc [Ei%N.eqb_eq _]%andb_true_iff]. rewrite <- Ei.
    by apply list_elem_of_In, in_map.
  - unfold with_id_state at 1. destruct (N.eqb (id b) (id parent)) eqn:E; [|by apply IH].
    exfalso. apply N.eqb_eq in E. apply Hn. rewrite E. by apply list_elem_of_In, in_map.
Qed.

(** Rows that were there before the refund. *)
Definition no_refund_yet (p : Uuid) (db : DB) : Prop :=
  forall b, In b (bonds db) -> children_of p b = true -> is_some (child_order_id b) = true.

Lemma children_are_slices p db :
  no_refund_yet p db -> children_total p db = slice_total p db.
Proof.
  intros Hn. unfold children_total, slice_total. f_equal. f_equal. apply filter_ext_in.
  intros b Hb. unfold slice_child_of. destruct (opt_uuid_eqb (parent_bond_id b) p) eqn:E.
  - by rewrite (Hn b Hb E).
  - unfold children_of. by rewrite E.
Qed.

(** Statements that rewrite neither keys, amounts nor tree columns. *)
Definition keeps_shape (f : Bond -> Bond) : Prop :=
  forall b, id (f b) = id b /\ amount_sats (f b) = amount_sats b /\
            parent_bond_id (f b) = parent_bond_id b /\ child_order_id (f b) = child_order_id b.

Lemma shape_totals p f db k :
  keeps_shape f ->
  let db' := (update_bonds p f db).1 in
  slice_total k db' = slice_total k db /\ children_total k db' = children_total k db /\
  map id (bonds db') = map id (bonds db).
Proof.
  intros Hf. cbn [update_bonds fst bonds]. unfold slice_total, children_total. cbn [bonds].
  split_and!; [apply total_update..|apply update_ids]; intros b _ _;
    destruct (Hf b) as (? & ? & Hp & Hc); [| |done]; split; try done.
  - unfold slice_child_of. by rewrite Hp, Hc.
  - unfold children_of. by rewrite Hp.
Qed.

(** The re-anchoring of the children. *)
Definition reanchor (seen : bool) (p : Uuid) (now : Z) (db : DB) : DB :=
  if seen then
    (update_bonds (fun b => slice_child_of p b && state_is PendingPayout b)
       (fun b => b <| slashed_at := Some now |>) db).1
  else db.

Lemma reanchor_shape seen p now db k :
  slice_total k (reanchor seen p now db) = slice_total k db /\
  children_total k (reanchor seen p now db) = children_total k db /\
  map id (bonds (reanchor seen p now db)) = map id (bonds db).
Proof. destruct seen; [|done]. by apply shape_totals. Qed.

Lemma reanchor_root seen p now db b :
  parent_bond_id b = None -> In b (bonds db) -> In b (bonds (reanchor seen p now db)).
Proof.
  intros Hp Hb. destruct seen; [|done]. apply in_update_where. exists b. split; [done|].
  unfold slice_child_of. by rewrite Hp.
Qed.

(** The table before the refund: the parent closed, the children re-anchored. *)
Definition closing (parent : Bond) (seen : bool) (now : Z) (db : DB) : DB :=
  reanchor seen (id parent) now
    (update_bonds (with_id_state (id parent) Locked) closed_row db).1.

Lemma closing_spec parent seen now db :
  In parent (bonds db) -> state_is Locked parent = true -> parent_bond_id parent = None ->
  no_refund_yet (id parent) db ->
  children_total (id parent) (closing parent seen now db) = slice_total (id parent) db /\
  In (closed_row parent) (bonds (closing parent seen now db)) /\
  map id (bonds (closing parent seen now db)) = map id (bonds db).
Proof.
  intros Hin Hl Hpp Hnr. unfold closing. set (db1 := (update_bonds _ closed_row db).1).
  assert (keeps_shape closed_row) as Hk by done.
  destruct (shape_totals (with_id_state (id parent) Locked) closed_row db (id parent) Hk) as (_ & E1 & I1).
  destruct (reanchor_shape seen (id parent) now db1 (id parent)) as (_ & E2 & I2).
  fold db1 in E1, I1. split_and!.
  - by rewrite E2, E1, children_are_slices.
  - apply reanchor_root; [done|]. apply in_update_where. exists parent. split; [done|].
    unfold with_id_state. by rewrite N.eqb_refl, Hl.
  - by rewrite I2, I1.
Qed.

Lemma close_tx_eq parent root seen reason refund_uuid now db :
  NoDup (map id (bonds db)) -> In parent (bonds db) -> state_is Locked parent = true ->
  let amount := Z.max (amount_sats parent - slice_total (id parent) db) 0 in
  let refund := slash_row refund_uuid root (id parent) None (pubkey parent) amount reason 0 now in
  close_tx parent root seen reason refund_uuid now db =
  if 0 <? amount then
    if bond_unique_violation refund (closing parent seen now db)
    then (db, Err "UNIQUE constraint failed: bonds")
    else (insert_bond refund (closing parent seen now db), Ok 1)
  else (closing parent seen now db, Ok 1).
Proof.
  intros Hnd Hin Hl. unfold close_tx, closing, reanchor.
  change (fun b : Bond => b <| state := state_to_string Slashed |>) with closed_row.
  pose proof (close_cas parent db Hnd Hin Hl) as En.
  assert (keeps_shape closed_row) as Hk by done.
  destruct (shape_totals (with_id_state (id parent) Locked) closed_row db (id parent) Hk) as (Es & _).
  destruct (update_bonds (with_id_state (id parent) Locked) closed_row db) as [db1 n].
  cbn [fst snd] in *. subst n. cbv zeta. by rewrite Es.
Qed.

(** C33: closing a range conserves the bond. When the transaction of
    [resolve_range_maker_bond_at_close] commits on a locked parent, the parent
    becomes [Slashed] and what its slices leave of the bond is recorded as a
    debt to the maker, of which the node keeps nothing; the debts under the
    parent, slices and refund, then add up to exactly the parent's amount. When
    the slices have already overdrawn the bond, which concurrent slashes can
    do ([Findings.slice_race_overdraws]), no refund is recorded and the debts
    are those slices. *)
Theorem close_tx_conserves parent root seen reason refund_uuid now db :
  NoDup (map id (bonds db)) -> In parent (bonds db) -> state_is Locked parent = true ->
  parent_bond_id parent = None -> no_refund_yet (id parent) db ->
  (forall b, In b (bonds db) -> id b <> refund_uuid) ->
  let rest := amount_sats parent - slice_total (id parent) db in
  exists db', close_tx parent root seen reason refund_uuid now db = (db', Ok 1) /\
    In (closed_row parent) (bonds db') /\
    children_total (id parent) db' = Z.max (amount_sats parent) (slice_total (id parent) db) /\
    (0 < rest ->
       In (slash_row refund_uuid root (id parent) None (pubkey parent) rest reason 0 now) (bonds db')) /\
    (rest <= 0 -> map id (bonds db') = map id (bonds db)).
Proof.
  intros Hnd Hin Hl Hpp Hnr Hfresh rest. rewrite close_tx_eq by done.
  destruct (closing_spec parent seen now db Hin Hl Hpp Hnr) as (Ec & Hc & Ei).
  set (db2 := closing parent seen now db) in *. cbv zeta. fold rest.
  destruct (0 <? Z.max rest 0) eqn:Er; bool_prop; [|exists db2; split_and!; [done|done|lia|lia|done]].
  assert (Z.max rest 0 = rest) as -> by lia.
  set (refund := slash_row _ _ _ _ _ _ _ _ _).
  assert (bond_unique_violation refund db2 = false) as ->.
  { apply not_true_is_false. intros (r & Hr & [E|E]%orb_true_iff)%existsb_exists.
    - apply N.eqb_eq in E. apply (in_map id) in Hr. rewrite Ei in Hr.
      apply in_map_iff in Hr as (b & Eb & Hb). apply (Hfresh b Hb). by rewrite Eb, E.
    - unfold same_slice in E. by repeat case_match. }
  exists (insert_bond refund db2). split_and!; [done|cbn; apply in_or_app; by left| | |lia].
  - unfold children_total in *. cbn [insert_bond bonds]. rewrite total_insert, Ec.
    assert (children_of (id parent) refund = true) as -> by apply N.eqb_refl.
    change (amount_sats refund) with rest. lia.
  - intros _. cbn. apply in_or_app. right. by left.
Qed.
End Close.

(** ** Waiting-state timeouts *)

Section TimeoutOutcome.
Context `{Lib} (settings : Settings) (env : Env DB ext) (now : Z).

(** What a timeout does to a row when [t] is the responsible party's bond. *)
Definition timed_out_row (order : Order) (t r : Bond) : Bond :=
  if N.eqb (id r) (id t) then slashed_row settings now Timeout r
  else if N.eqb (order_id r) (o_id order) && active_row r &&
          negb (str_eqb (role r) (role_to_string Maker) && order_republishes_on_timeout order)
  then released_row now r
  else r.

Lemma timed_out_table order t db :
  NoDup (map id (bonds db)) ->
  let skip b := N.eqb (id b) (id t) ||
                str_eqb (role b) (role_to_string Maker) && order_republishes_on_timeout order in
  update_where (reached skip (active_bonds_for_order (o_id order) db)) (released_row now)
    (map (slash_if settings now Timeout [id t]) (bonds db)) =
  map (timed_out_row order t) (bonds db).
Proof.
  intros Hnd skip. unfold update_where. rewrite map_map. apply map_ext_in. intros r Hr.
  assert (reached skip (active_bonds_for_order (o_id order) db) (slash_if settings now Timeout [id t] r) =
          reached skip (active_bonds_for_order (o_id order) db) r) as ->.
  { unfold reached. by rewrite slash_if_id. }
  rewrite active_reached by done. unfold timed_out_row, slash_if, skip. cbn [existsb].
  rewrite orb_false_r. destruct (N.eqb (id r) (id t)); cbn [orb negb]; [by rewrite andb_false_r|done].
Qed.

(** An armed timeout slashes the late party only. Outside a range, when
    the waiting side's bond is locked and slashing is enabled for its role, the
    handler moves exactly that bond to [PendingPayout] for [Timeout], keeps the
    maker bond of an order that goes back to the book, releases the other
    active bonds of the order, and reports the slashed row. *)
Theorem timeout_slash_outcome order root n cfg side maker t db :
  Coop env now -> NoDup (map id (bonds db)) ->
  range_chain db n order root -> (n < MAX_RANGE_CHAIN_DEPTH)%nat -> o_max_amount root = None ->
  (forall b, In b (bonds db) -> cancellable b = true) -> settleable t = true ->
  responsible_side order = Some side -> side_is_maker order side = Ok maker ->
  slash_armed cfg maker = true ->
  resolve_locked_bond order (active_bonds_for_order (o_id order) db) side = Some t ->
  runs env (slash_or_release_on_timeout settings order cfg) db (Ok (Some t))
    (mkDB (orders db) (map (timed_out_row order t) (bonds db)) (users db) (disputes db)).
Proof.
  intros HC Hnd Hch Hn Hmax Hcan Hset Hside Hmaker Harmed Ht.
  destruct (resolved_target order db side t Ht) as (Hin & Hl & _).
  unfold slash_or_release_on_timeout. rewrite Hside. cbv zeta.
  eapply runs_try_ok; [rewrite Hmaker; apply runs_ret|]. rewrite Harmed. cbn [negb].
  eapply runs_try_ok; [apply runs_query, HC|].
  eapply runs_try_ok; [eapply runs_is_range; [exact HC|exact Hch|exact Hn]|]. rewrite Hmax. cbn [is_some].
  eapply runs_try_ok; [apply runs_target|]. rewrite Ht, andb_false_r.
  apply (runs_try_ok _ _ _ _ (Some t) (slashed_db settings now Timeout db [id t])).
  - rewrite <- (slashed_db_nil settings now Timeout db) at 1.
    eapply runs_bind; [by apply runs_slash_one|]. rewrite slash_cas_on by done.
    eapply runs_try_ok; [apply (recorded_after settings env now HC); [done|done|by left]|].
    apply runs_ret.
  - rewrite <- timed_out_table by done. eapply runs_bind; [|apply runs_ret].
    apply (runs_release_loop env now HC (fun b => N.eqb (id b) (id t) ||
             str_eqb (role b) (role_to_string Maker) && order_republishes_on_timeout order) _ _
             (slashed_db settings now Timeout db [id t])).
    + intros b. rewrite orb_false_r.
      by destruct (N.eqb (id b) (id t)), (str_eqb (role b) _ && _).
    + cbn [slashed_db bonds]. rewrite map_map. erewrite map_ext; [exact Hnd|]. apply slash_if_id.
    + by apply active_ids.
    + intros b [Hb Hp]%select_ordered_in Hk. apply andb_true_iff in Hp as [].
      split_and!; [|done|by apply Hcan]. apply in_map_iff. exists b. split; [|done].
      apply orb_false_iff in Hk as [Hk _]. unfold slash_if. cbn [existsb]. by rewrite Hk.
Qed.
End TimeoutOutcome.

(** ** No slash without a cause *)

(** Whatever the outside answers, the program never asks LND to settle. *)
Fixpoint never_settles {A} (p : M A) : Prop :=
  match p with
  | Ret _ => True
  | Sql _ k => forall r, never_settles (k r)
  | Ext e k =>
      match e with LndSettleInvoice _ => False | _ => True end /\ forall r, never_settles (k r)
  end.

Lemma never_bind {A B} (p : M A) (f : A -> M B) :
  never_settles p -> (forall a, never_settles (f a)) -> never_settles (bind p f).
Proof.
  intros Hp Hf. induction p as [a|R stmt k IH|R e k IH]; cbn in *; [apply Hf|..].
  - intros r. auto.
  - destruct Hp as [He Hk]. split; [done|]. intros r. auto.
Qed.

Lemma never_for_each {X} (l : list X) (body : X -> M unit) :
  (forall x, never_settles (body x)) -> never_settles (for_each l body).
Proof. intros Hb. induction l; cbn [for_each]; [done|]. by apply never_bind. Qed.

Ltac never :=
  repeat first
    [ done
    | apply never_bind; [|intros ?]
    | apply never_for_each; intros ?
    | match goal with |- never_settles (match ?x with _ => _ end) => destruct x end
    | progress (cbn; intros; try split; intros) ].

Section NoCause.
Context `{Lib} (settings : Settings).

Lemma never_release b : never_settles (release_bond b).
Proof. unfold release_bond, release_htlc, cancel_hold_invoice, lnd_new, update_bond, sql_row, try. never. Qed.

Lemma never_walk fuel o : never_settles (walk_to_root fuel o).
Proof. revert o. induction fuel; intros o; cbn [walk_to_root]; never. Qed.

(** no slash without a cause. A timeout for which slashing is not armed,
    and a resolution that flags neither side, never ask LND to settle a hold
    invoice, whatever the database and LND answer. *)
Theorem no_slash_without_cause order cfg side maker reason :
  responsible_side order = Some side -> side_is_maker order side = Ok maker ->
  slash_armed cfg maker = false ->
  never_settles (slash_or_release_on_timeout settings order cfg) /\
  never_settles (apply_bond_resolution settings order (mkBondResolution false false) reason).
Proof.
  intros Hs Hm Ha. split.
  - unfold slash_or_release_on_timeout. rewrite Hs, Hm. unfold try. cbn [bind]. rewrite Ha. cbn [negb].
    apply never_bind; [|done]. unfold release_on_timeout, release_taker_bonds_for_order_or_warn,
      release_bonds_for_order_or_warn, release_bonds_for_order, release_active_bonds, try,
      find_active_bonds_for_order, sql_or_db_error.
    destruct (order_republishes_on_timeout order); never; apply never_release.
  - unfold apply_bond_resolution, order_has_range_maker_bond, find_range_root_order, try.
    apply never_bind; [never|]. intros [active|]; [|done].
    apply never_bind; [apply never_bind; [apply never_walk|]; never|]. intros [is_range|]; [|done].
    cbn [try_fold slash_seller slash_buyer apply_side negb bind]. unfold try. cbn [apply_side negb bind].
    apply never_bind; [|done]. apply never_for_each. intros b. never. apply never_release.
Qed.
End NoCause.

(** ** The theorems on a concrete trade *)

Ltac all_rows := apply (proj1 (forallb_forall _ _)); vm_compute; reflexivity.

Lemma trade_ids st : NoDup (map id (bonds (trade_db st))).
Proof. apply (bool_decide_eq_true_1 _). by vm_compute. Qed.

Lemma trade_cancellable st b : In b (bonds (trade_db st)) -> cancellable b = true.
Proof. revert b. destruct st; all_rows. Qed.

Lemma trade_settleable st b : In b (bonds (trade_db st)) -> settleable b = true.
Proof. revert b. destruct st; all_rows. Qed.

Lemma demo_chain st : range_chain (trade_db st) 0 (demo_order 7 st) (demo_order 7 st).
Proof. by constructor. Qed.

Lemma apply_bond_resolution_outcome_witness :
  let res := mkBondResolution false true in
  runs (demo_env 50) (apply_bond_resolution demo_settings (demo_order 7 Dispute) res LostDispute)
    (trade_db Dispute) (Ok [demo_bond 1 7 "taker" Taker Locked])
    (mkDB (orders (trade_db Dispute))
       (map (resolved_row demo_settings 50 LostDispute (demo_order 7 Dispute)
               [demo_bond 1 7 "taker" Taker Locked]) (bonds (trade_db Dispute))) (users (trade_db Dispute)) (disputes (trade_db Dispute))).
Proof.
  apply (apply_bond_resolution_outcome demo_settings (demo_env 50) 50 (demo_order 7 Dispute)
           (demo_order 7 Dispute) 0 (mkBondResolution false true) LostDispute (trade_db Dispute));
    [apply demo_coop|apply trade_ids|apply demo_chain|unfold MAX_RANGE_CHAIN_DEPTH; lia|reflexivity
    |apply trade_cancellable|intros b Hb _; by apply (trade_settleable Dispute)].
Defined.

Lemma timeout_slash_outcome_witness :
  let order := demo_order 7 WaitingBuyerInvoice in
  let t := demo_bond 1 7 "taker" Taker Locked in
  runs (demo_env 50) (slash_or_release_on_timeout demo_settings order (Some demo_bond_settings))
    (trade_db WaitingBuyerInvoice) (Ok (Some t))
    (mkDB (orders (trade_db WaitingBuyerInvoice))
       (map (timed_out_row demo_settings 50 order t) (bonds (trade_db WaitingBuyerInvoice))) (users (trade_db WaitingBuyerInvoice)) (disputes (trade_db WaitingBuyerInvoice))).
Proof.
  apply (timeout_slash_outcome demo_settings (demo_env 50) 50 (demo_order 7 WaitingBuyerInvoice)
           (demo_order 7 WaitingBuyerInvoice) 0 (Some demo_bond_settings) Buyer false
           (demo_bond 1 7 "taker" Taker Locked) (trade_db WaitingBuyerInvoice));
    [apply demo_coop|apply trade_ids|apply demo_chain|unfold MAX_RANGE_CHAIN_DEPTH; lia|reflexivity
    |apply trade_cancellable|reflexivity..].
Defined.

(** A locked range bond of 1000 sats, 300 of them slashed for slice 20. *)
Definition range_parent : Bond :=
  (demo_bond 2 7 "maker" Maker Locked) <| slashed_share_sats := 300 |>.

Definition slashed_range : DB :=
  mkDB [(demo_order 7 Pending) <| o_max_amount := Some 100 |>]
    [range_parent;
     slash_row 5 20 2 (Some 20%N) "maker" 300 (reason_to_string LostDispute) 150 10] [] [].

Lemma slashed_range_ids : NoDup (map id (bonds slashed_range)).
Proof. apply (bool_decide_eq_true_1 _). by vm_compute. Qed.

Lemma close_tx_conserves_witness :
  exists db', close_tx range_parent 7 true "lost-dispute" 99 50 slashed_range = (db', Ok 1) /\
    In (closed_row range_parent) (bonds db') /\ children_total 2 db' = 1000 /\
    (0 < 700 -> In (slash_row 99 7 2 None "maker" 700 "lost-dispute" 0 50) (bonds db')) /\
    (700 <= 0 -> map id (bonds db') = map id (bonds slashed_range)).
Proof.
  apply (close_tx_conserves range_parent 7 true "lost-dispute" 99 50 slashed_range);
    [apply slashed_range_ids|by left|reflexivity|reflexivity|..].
  - intros b Hb. by destruct Hb as [<-|[<-|[]]].
  - intros b Hb. by destruct Hb as [<-|[<-|[]]].
Defined.
