(* ===== verification/OrderDb.v ===== *)
(** * Guarded writes of the [orders] table

    The compare-and-swap writes of [src/db.rs] that move an order through the
    pre-trade window, and [src/util.rs]'s continuation of a take or of a
    deferred publication.  A writer working from a stale snapshot loses: its
    statement affects no row, and the caller undoes what it prepared. *)

From S2P Require Import Prelude Float64 Config BondTypes BondMath Effects Model.
From S2P Require Import Lightning BondDb.

Open Scope Z_scope.
Open Scope prog_scope.

(** ** Statements *)

(** [PRETRADE_STATUSES], as the SQL text spells it. *)
Definition PRETRADE_STATUSES : list string := ["pending"; "waiting-taker-bond"].

Definition status_in (l : list string) (o : Order) : bool :=
  existsb (str_eqb (o_status o)) l.

Definition order_with_status (i : Uuid) (s : string) (o : Order) : bool :=
  N.eqb (o_id o) i && str_eqb (o_status o) s.

Definition cas_pretrade_stmt (i : Uuid) (new_status event_id : string) : DB -> DB * Z :=
  update_orders (fun o => N.eqb (o_id o) i && status_in PRETRADE_STATUSES o)
    (fun o => o <| o_status := new_status |> <| o_event_id := event_id |>).

(** [UPDATE orders SET status = ? WHERE id = ? AND status = ?]. *)
Definition cas_status_stmt (i : Uuid) (new_status old_status : string) : DB -> DB * Z :=
  update_orders (order_with_status i old_status) (fun o => o <| o_status := new_status |>).

(** [UPDATE orders SET event_id = ? WHERE id = ?]. *)
Definition set_event_id_stmt (i : Uuid) (event_id : string) : DB -> DB * Z :=
  update_orders (fun o => N.eqb (o_id o) i) (fun o => o <| o_event_id := event_id |>).

Definition promote_stmt (kind : Kind) (order : Order) : DB -> DB * Z :=
  update_orders (fun o => N.eqb (o_id o) (o_id order) && status_in PRETRADE_STATUSES o)
    (fun o =>
       let o := match kind with
                | Buy => o <| o_seller_pubkey := o_seller_pubkey order |>
                           <| o_master_seller_pubkey := o_master_seller_pubkey order |>
                           <| o_trade_index_seller := o_trade_index_seller order |>
                | Sell => o <| o_buyer_pubkey := o_buyer_pubkey order |>
                            <| o_master_buyer_pubkey := o_master_buyer_pubkey order |>
                            <| o_trade_index_buyer := o_trade_index_buyer order |>
                            <| o_buyer_invoice := o_buyer_invoice order |>
                end in
       o <| o_fiat_amount := o_fiat_amount order |>
         <| o_amount := o_amount order |>
         <| o_fee := o_fee order |>
         <| o_dev_fee := o_dev_fee order |>
         <| o_created_at := o_created_at order |>
         <| o_taken_at := o_taken_at order |>).

Definition complete_take_stmt (order : Order) (allow_waiting_buyer_invoice : bool) :
    DB -> DB * Z :=
  update_orders
    (fun o => N.eqb (o_id o) (o_id order) &&
       status_in (PRETRADE_STATUSES ++
                  (if allow_waiting_buyer_invoice then ["waiting-buyer-invoice"] else [])) o)
    (fun o => o <| o_status := o_status order |>
                <| o_event_id := o_event_id order |>
                <| o_buyer_pubkey := o_buyer_pubkey order |>
                <| o_seller_pubkey := o_seller_pubkey order |>
                <| o_master_buyer_pubkey := o_master_buyer_pubkey order |>
                <| o_master_seller_pubkey := o_master_seller_pubkey order |>
                <| o_trade_index_buyer := o_trade_index_buyer order |>
                <| o_trade_index_seller := o_trade_index_seller order |>
                <| o_fiat_amount := o_fiat_amount order |>
                <| o_amount := o_amount order |>
                <| o_fee := o_fee order |>
                <| o_dev_fee := o_dev_fee order |>
                <| o_created_at := o_created_at order |>
                <| o_buyer_invoice := o_buyer_invoice order |>
                <| o_preimage := o_preimage order |>
                <| o_hash := o_hash order |>
                <| o_taken_at := o_taken_at order |>).

(** [Order::update] of the mostro-core [Crud] trait: the whole row is
    rewritten from the caller's copy. *)
Definition order_update_stmt (order : Order) : DB -> DB * Z :=
  update_orders (fun o => N.eqb (o_id o) (o_id order)) (fun _ => order).

Section Writes.
Context `{Lib} (settings : Settings).

Definition cas_pretrade_order_status (order_id : Uuid) (new_status : Status)
    (event_id : string) : M (result bool MostroError) :=
  n <-? sql_or_db_error (cas_pretrade_stmt order_id (status_to_string new_status) event_id) ;;
  Ret (Ok (0 <? n)).

Definition cas_promote_taker_context (order : Order) : M (result bool MostroError) :=
  kind <-? Ret (map_err MostroInternalErr (get_order_kind order)) ;;
  n <-? sql_or_db_error (promote_stmt kind order) ;;
  Ret (Ok (0 <? n)).

Definition cas_complete_pretrade_take (order : Order) (allow_waiting_buyer_invoice : bool) :
    M (result bool MostroError) :=
  n <-? sql_or_db_error (complete_take_stmt order allow_waiting_buyer_invoice) ;;
  Ret (Ok (0 <? n)).

(** ** Publishing an order revision *)

(** [update_order_event_with_created_at]: the published row carries the new
    status and, when an event was built, its id; nothing is persisted. *)
Definition update_order_event_with_created_at (status : Status) (order : Order)
    (created_at : option Z) : M (result Order MostroError) :=
  r <- ask (PublishOrderEvent status order created_at) ;;
  Ret (match r with
       | Ok (Some event_id) =>
           Ok (order <| o_status := status_to_string status |> <| o_event_id := event_id |>)
       | Ok None => Ok (order <| o_status := status_to_string status |>)
       | Err e => Err e
       end).

Definition update_order_event (status : Status) (order : Order) :
    M (result Order MostroError) :=
  update_order_event_with_created_at status order None.

Definition repair_timestamp (now : Z) : Z := now + 1.

Definition republish_winning_state_after_cas_miss (order_id : Uuid) : M unit :=
  current <- find_order_by_id order_id ;;
  match current with
  | Ok (Some current) =>
      match get_order_status current with
      | Ok status =>
          now <- ask Now ;;
          update_order_event_with_created_at status current (Some (repair_timestamp now)) ;;;
          Ret tt
      | Err _ => Ret tt
      end
  | _ => Ret tt
  end.

(** ** Continuing a take *)

Inductive HoldInvoiceOrigin : Type := OriginTake | OriginBuyerInvoice.

Definition allows_waiting_buyer_invoice (o : HoldInvoiceOrigin) : bool :=
  match o with OriginBuyerInvoice => true | OriginTake => false end.

Definition hold_invoice_description (order_id fiat_code fiat_amount : string) : string :=
  "Escrow amount Order #" +:+ order_id +:+ ": SELL BTC for " +:+ fiat_code +:+ " " +:+
  fiat_amount +:+ " - It WILL FREEZE IN WALLET. It will release once you release. It will return if buyer does not confirm the payment".

(** [map_err(|e| MostroInternalErr(f(e.to_string())))]. *)
Definition wrap_err {A} (f : string -> ServiceError) (r : result A MostroError) :
    result A MostroError :=
  map_err (fun e => MostroInternalErr (f (error_to_string e))) r.

(** [invoice_subscribe]: arming the subscriber of the trade hold invoice. *)
Definition invoice_subscribe (hash : list Z) : M (result unit MostroError) :=
  _ <-? lnd_new ;; ask (LndSubscribe hash) ;;; Ret (Ok tt).

Definition show_hold_invoice (payment_request : option string)
    (buyer_pubkey seller_pubkey : string) (order : Order) (request_id : option Z)
    (origin : HoldInvoiceOrigin) : M (result unit MostroError) :=
  _ <-? lnd_new ;;
  let new_amount := o_amount order + o_fee order in
  created <- create_hold_invoice settings
    (hold_invoice_description (uuid_to_string (o_id order)) (o_fiat_code order)
       (i64_to_string (o_fiat_amount order))) new_amount ;;
  invoice <-? Ret (wrap_err HoldInvoiceError created) ;;
  let '(bolt11, preimage, hash) := invoice in
  now <- ask Now ;;
  let order := match payment_request with
               | Some i => order <| o_buyer_invoice := Some i |>
               | None => order
               end in
  let order := order <| o_preimage := Some (bytes_to_string preimage) |>
                     <| o_hash := Some (bytes_to_string hash) |>
                     <| o_status := status_to_string WaitingPayment |> in
  let order := (set_timestamp_now now order)
                     <| o_buyer_pubkey := Some buyer_pubkey |>
                     <| o_seller_pubkey := Some seller_pubkey |> in
  connected <- ask DbConnect ;;
  _ <-? Ret (map_err (fun e => MostroInternalErr (DbAccessError e)) connected) ;;
  published <- update_order_event WaitingPayment order ;;
  order_updated <-? Ret (wrap_err NostrError published) ;;
  won <-? cas_complete_pretrade_take order_updated (allows_waiting_buyer_invoice origin) ;;
  if negb won then
    cancel_hold_invoice (bytes_to_string hash) ;;;
    republish_winning_state_after_cas_miss (o_id order) ;;;
    Ret (Err (MostroCantDo NotAllowedByStatus))
  else
    let new_order := (as_new_order order) <| so_status := Some WaitingPayment |>
                       <| so_amount := new_amount |> <| so_buyer_invoice := None |> in
    enqueue_order_msg request_id (Some (o_id order)) PayInvoice
      (Some (PlPaymentRequest (Some new_order) bolt11 None)) seller_pubkey
      (o_trade_index_seller order) ;;;
    enqueue_order_msg request_id (Some (o_id order)) WaitingSellerToPay None buyer_pubkey
      (o_trade_index_buyer order) ;;;
    invoice_subscribe hash ;;;
    Ret (Ok tt).

Definition set_waiting_invoice_status (order : Order) (buyer_pubkey : string)
    (request_id : option Z) : M (result Z MostroError) :=
  kind <-? Ret (map_err (fun _ => MostroCantDo InvalidOrderKind) (kind_from_str (o_kind order))) ;;
  let buyer_final_amount := saturating_sub (o_amount order) (o_fee order) in
  let order_data :=
    (small_order (Some (o_id order)) (Some kind) (Some WaitingBuyerInvoice) buyer_final_amount
       (o_fiat_code order) (o_min_amount order) (o_max_amount order) (o_fiat_amount order)
       (o_payment_method order) (o_premium order))
      <| so_created_at := Some (o_created_at order) |> in
  enqueue_order_msg request_id (Some (o_id order)) AddInvoice (Some (PlOrder order_data))
    buyer_pubkey (o_trade_index_buyer order) ;;;
  seller_pubkey <-? Ret (map_err MostroInternalErr (get_seller_pubkey order)) ;;
  enqueue_order_msg request_id (Some (o_id order)) ActionWaitingBuyerInvoice None
    seller_pubkey (o_trade_index_seller order) ;;;
  Ret (Ok (o_amount order)).

(** ** Publishing after the maker bond *)

Definition finalize_order_publication (order : Order) (identity_pubkey trade_pubkey : string)
    (request_id trade_index : option Z) : M (result unit MostroError) :=
  let order := order <| o_status := status_to_string Pending |> in
  event_id <-? ask (NewOrderEvent order identity_pubkey trade_pubkey) ;;
  let order := order <| o_event_id := event_id |> in
  let small := (as_new_order order) <| so_id := Some (o_id order) |> in
  _ <-? sql_or_db_error (order_update_stmt order) ;;
  enqueue_order_msg request_id (Some (o_id order)) NewOrder (Some (PlOrder small))
    trade_pubkey trade_index ;;;
  ask (SendNewOrderEvent (o_id order) event_id).

Definition resume_publish_after_maker_bond (order : Order) (request_id : option Z) :
    M (result unit MostroError) :=
  n <-? sql_or_db_error (cas_status_stmt (o_id order) (status_to_string Pending)
                           (status_to_string WaitingMakerBond)) ;;
  if negb (n =? 1) then Ret (Ok tt)
  else
    kind <-? Ret (map_err MostroInternalErr (get_order_kind order)) ;;
    keys <-? Ret (match kind with
      | Sell => match get_seller_pubkey order, get_master_seller_pubkey order with
                | Ok t, Ok i => Ok (t, i, o_trade_index_seller order)
                | Err e, _ | _, Err e => Err (MostroInternalErr e)
                end
      | Buy => match get_buyer_pubkey order, get_master_buyer_pubkey order with
               | Ok t, Ok i => Ok (t, i, o_trade_index_buyer order)
               | Err e, _ | _, Err e => Err (MostroInternalErr e)
               end
      end) ;;
    let '(trade_pubkey, identity_pubkey, trade_index) := keys in
    finalize_order_publication order identity_pubkey trade_pubkey request_id trade_index.
End Writes.
