(* ===== verification/BondLock.v ===== *)
(** * Requesting and locking bonds

    The lock half of [src/app/bond/flow.rs]: asking a party for a bond, the
    LND subscriber that flips the row to [Locked] or [Released], the
    first-to-lock-wins race between takers, and the continuation of the take
    or of the order's publication once a bond is locked. *)

From S2P Require Import Prelude Float64 Config BondTypes BondMath Effects Model.
From S2P Require Import Lightning BondDb BondRelease OrderDb.

Open Scope Z_scope.
Open Scope prog_scope.

(** ** Statements *)

(** [UPDATE bonds SET state = 'locked', locked_at = ? WHERE id = ? AND state =
    'requested' AND NOT EXISTS (another locked taker bond of the order)]. *)
Definition lock_taker_stmt (i order : Uuid) (now : Z) (db : DB) : DB * Z :=
  let other := exists_row (fun b2 => N.eqb (order_id b2) order && state_is Locked b2 &&
                                     role_is Taker b2 && negb (N.eqb (id b2) i)) (bonds db) in
  update_bonds (fun b => with_id_state i Requested b && negb other)
    (fun b => b <| state := state_to_string Locked |> <| locked_at := Some now |>) db.

Definition lock_maker_stmt (i : Uuid) (now : Z) : DB -> DB * Z :=
  update_bonds (with_id_state i Requested)
    (fun b => b <| state := state_to_string Locked |> <| locked_at := Some now |>).

(** [UPDATE orders SET status = 'pending' WHERE id = ? AND status =
    'waiting-taker-bond' AND NOT EXISTS (active taker bond of the order)]. *)
Definition drop_stmt `{Lib} (i : Uuid) (db : DB) : DB * Z :=
  let racing := exists_row (fun b => N.eqb (order_id b) i && active_row b && role_is Taker b)
                  (bonds db) in
  update_orders (fun o => order_with_status i (status_to_string WaitingTakerBond) o && negb racing)
    (fun o => o <| o_status := status_to_string Pending |>) db.

(** ** Gates *)

Section Gates.
Context (settings : Settings).

Definition taker_bond_required : bool :=
  match get_bond settings with
  | Some cfg => enabled cfg && applies_to_taker (apply_to cfg)
  | None => false
  end.

Definition maker_bond_required : bool :=
  match get_bond settings with
  | Some cfg => enabled cfg && applies_to_maker (apply_to cfg)
  | None => false
  end.
End Gates.

Definition trade_committed_by_locked_taker_bond (bonds : list Bond) : bool :=
  existsb (fun b => str_eqb (state b) (state_to_string Locked) &&
                    str_eqb (role b) (role_to_string Taker)) bonds.

Record TakerContext : Type := mkTakerContext {
  identity : string;
  trade_index : Z;
  buyer_invoice : option string;
  ctx_fiat_amount : Z;
  ctx_amount : Z;
  ctx_fee : Z;
  ctx_dev_fee : Z
}.

Section Lock.
Context `{Lib} (settings : Settings).

(** ** Requesting *)

(** The hold invoice of a new bond and the row that carries it. *)
Definition bond_hold_invoice (order : Order) (pubkey : string) (role : BondRole)
    (notional : Z) (cfg : AntiAbuseBondSettings) :
    M (result (Bond * string * list Z) MostroError) :=
  let amount := compute_bond_amount notional cfg in
  let memo := "mostro bond order_id=" +:+ uuid_to_string (o_id order) in
  _ <-? lnd_new ;;
  created <- create_hold_invoice settings memo amount ;;
  invoice <-? Ret (wrap_err HoldInvoiceError created) ;;
  let '(bolt11, preimage_bytes, hash_bytes) := invoice in
  uuid <- ask NewUuid ;;
  now <- ask Now ;;
  let bond := (new_requested uuid now (o_id order) pubkey role amount)
                <| hash := Some (bytes_to_string hash_bytes) |>
                <| preimage := Some (bytes_to_string preimage_bytes) |>
                <| payment_request := Some bolt11 |> in
  Ret (Ok (bond, bolt11, hash_bytes)).

(** [bond_invoice_subscribe]: connect and spawn the subscriber, whose loop
    is the task [bond_subscriber] below. *)
Definition bond_invoice_subscribe (hash : list Z) : M (result unit MostroError) :=
  _ <-? lnd_new ;; ask (LndSubscribe hash) ;;; Ret (Ok tt).

Definition bond_config (what : string) : result AntiAbuseBondSettings MostroError :=
  ok_or (get_bond settings) (MostroInternalErr (UnexpectedError
    ("anti_abuse_bond block is missing while " +:+ what +:+ " was deemed required"))).

(** Ship the bond's bolt11 once the subscriber is armed; on a subscribe
    failure release the row and report it. *)
Definition ship_bond_invoice (order : Order) (bond : Bond) (bolt11 : string) (hash : list Z)
    (fiat_amount : Z) (destination : string) (request_id trade_index : option Z) :
    M (result unit MostroError) :=
  order_kind <-? Ret (map_err MostroInternalErr (get_order_kind order)) ;;
  let bond_small :=
    small_order (Some (o_id order)) (Some order_kind) (Some Pending) (amount_sats bond)
      (o_fiat_code order) (o_min_amount order) (o_max_amount order) fiat_amount
      (o_payment_method order) (o_premium order) in
  subscribed <- bond_invoice_subscribe hash ;;
  match subscribed with
  | Err e => release_bond bond ;;; Ret (Err e)
  | Ok _ =>
      enqueue_order_msg request_id (Some (o_id order)) PayBondInvoice
        (Some (PlPaymentRequest (Some bond_small) bolt11 None)) destination trade_index ;;;
      Ret (Ok tt)
  end.

Definition request_taker_bond (order : Order) (taker_pubkey : string)
    (request_id : option Z) (ctx : TakerContext) : M (result Bond MostroError) :=
  cfg <-? Ret (bond_config "bond") ;;
  new <-? bond_hold_invoice order taker_pubkey Taker (ctx_amount ctx) cfg ;;
  let '(bond, bolt11, hash) := new in
  bond <-? create_bond
    (bond <| taker_identity := Some (identity ctx) |>
          <| taker_trade_index := Some (trade_index ctx) |>
          <| taker_invoice := buyer_invoice ctx |>
          <| taker_fiat_amount := Some (ctx_fiat_amount ctx) |>
          <| taker_amount := Some (ctx_amount ctx) |>
          <| taker_fee := Some (ctx_fee ctx) |>
          <| taker_dev_fee := Some (ctx_dev_fee ctx) |>) ;;
  _ <-? ship_bond_invoice order bond bolt11 hash (ctx_fiat_amount ctx) taker_pubkey request_id
          (Some (trade_index ctx)) ;;
  cas <- sql (cas_status_stmt (o_id order) (status_to_string WaitingTakerBond)
                (status_to_string Pending)) ;;
  let claimed := match cas with Ok n => n =? 1 | Err _ => false end in
  if claimed then
    _ <-? ask GetKeys ;;
    published <- update_order_event WaitingTakerBond order ;;
    (match published with
     | Ok updated => sql (set_event_id_stmt (o_id order) (o_event_id updated)) ;;; Ret tt
     | Err _ => Ret tt
     end) ;;;
    Ret (Ok bond)
  else Ret (Ok bond).

Definition request_maker_bond (order : Order) (maker_pubkey : string) (notional_sats : Z)
    (request_id trade_index : option Z) : M (result Bond MostroError) :=
  cfg <-? Ret (bond_config "maker bond") ;;
  new <-? bond_hold_invoice order maker_pubkey Maker notional_sats cfg ;;
  let '(bond, bolt11, hash) := new in
  bond <-? create_bond bond ;;
  _ <-? ship_bond_invoice order bond bolt11 hash (o_fiat_amount order) maker_pubkey request_id
          trade_index ;;
  Ret (Ok bond).

Definition resubscribe_active_bonds : M (result unit MostroError) :=
  bonds <-? find_active_bonds ;;
  for_each bonds (fun bond =>
    match hash bond with
    | None => Ret tt
    | Some h =>
        match from_hex h with
        | Ok bytes => bond_invoice_subscribe bytes ;;; Ret tt
        | Err _ => Ret tt
        end
    end) ;;;
  Ret (Ok tt).

(** ** Acceptance *)

Definition notify_loser (bond : Bond) : M unit :=
  match pubkey_from_str (pubkey bond) with
  | Ok taker_pk => enqueue_order_msg None (Some (order_id bond)) ActionCanceled None taker_pk None
  | Err _ => Ret tt
  end.

(** [Order::by_id(..).ok_or_else(..)] on the bond's order. *)
Definition order_of_bond (bond : Bond) : M (result Order MostroError) :=
  found <-? find_order_by_id (order_id bond) ;;
  Ret (ok_or found (MostroInternalErr (UnexpectedError "Bond references missing order"))).

Definition promoted (kind : Kind) (order : Order) (bond : Bond) : Order :=
  let order :=
    match kind with
    | Buy => order <| o_seller_pubkey := Some (pubkey bond) |>
                   <| o_master_seller_pubkey := taker_identity bond |>
                   <| o_trade_index_seller := taker_trade_index bond |>
    | Sell => order <| o_buyer_pubkey := Some (pubkey bond) |>
                    <| o_master_buyer_pubkey := taker_identity bond |>
                    <| o_trade_index_buyer := taker_trade_index bond |>
                    <| o_buyer_invoice := taker_invoice bond |>
    end in
  order <| o_fiat_amount := default (o_fiat_amount order) (taker_fiat_amount bond) |>
        <| o_amount := default (o_amount order) (taker_amount bond) |>
        <| o_fee := default (o_fee order) (taker_fee bond) |>
        <| o_dev_fee := default (o_dev_fee order) (taker_dev_fee bond) |>.

Definition promote_taker_context_to_order (order : Order) (bond : Bond) :
    M (result Order MostroError) :=
  kind <-? Ret (map_err MostroInternalErr (get_order_kind order)) ;;
  now <- ask Now ;;
  let order := set_timestamp_now now (promoted kind order bond) in
  won <-? cas_promote_taker_context order ;;
  if negb won then Ret (Err (MostroCantDo NotAllowedByStatus)) else Ret (Ok order).

Definition resume_take_after_bond (order : Order) (request_id : option Z) :
    M (result unit MostroError) :=
  kind <-? Ret (map_err MostroInternalErr (get_order_kind order)) ;;
  buyer_pubkey <-? Ret (map_err MostroInternalErr (get_buyer_pubkey order)) ;;
  seller_pubkey <-? Ret (map_err MostroInternalErr (get_seller_pubkey order)) ;;
  match kind, o_buyer_invoice order with
  | Buy, _ =>
      show_hold_invoice settings None buyer_pubkey seller_pubkey order request_id OriginTake
  | Sell, Some pr =>
      show_hold_invoice settings (Some pr) buyer_pubkey seller_pubkey order request_id OriginTake
  | Sell, None =>
      asked <- set_waiting_invoice_status order buyer_pubkey request_id ;;
      _ <-? Ret (map_err (fun _ => MostroInternalErr UpdateOrderStatusError) asked) ;;
      published <- update_order_event WaitingBuyerInvoice order ;;
      order_updated <-? Ret (wrap_err NostrError published) ;;
      won <-? cas_pretrade_order_status (o_id order_updated) WaitingBuyerInvoice
                (o_event_id order_updated) ;;
      if negb won then
        republish_winning_state_after_cas_miss (o_id order_updated) ;;;
        Ret (Err (MostroCantDo NotAllowedByStatus))
      else Ret (Ok tt)
  end.

Definition on_maker_bond_accepted (bond : Bond) (hash : string) (request_id : option Z) :
    M (result unit MostroError) :=
  now <- ask Now ;;
  _ <-? sql_or_db_error (lock_maker_stmt (id bond) now) ;;
  found <-? find_bond_by_hash hash ;;
  match found with
  | None => Ret (Ok tt)
  | Some current =>
      match state_from_str (state current) with
      | Ok Locked =>
          order <-? order_of_bond current ;;
          if negb (str_eqb (o_status order) (status_to_string WaitingMakerBond)) then Ret (Ok tt)
          else
            _ <-? ask GetKeys ;;
            resume_publish_after_maker_bond order request_id
      | _ => Ret (Ok tt)
      end
  end.

Definition canceled_status (s : result Status ServiceError) : bool :=
  match s with
  | Ok Canceled | Ok CooperativelyCanceled | Ok CanceledByAdmin => true
  | _ => false
  end.

(** Steps 3 and 4 of the acceptance: tear down the losers when this call won
    the race, then drive the take forward while the order is pre-trade. *)
Definition tear_down_losers (current : Bond) : M unit :=
  losers <- find_active_bonds_for_order (order_id current) ;;
  match losers with
  | Err _ => Ret tt
  | Ok rows =>
      for_each (List.filter (fun b => negb (N.eqb (id b) (id current)) &&
                                      str_eqb (state b) (state_to_string Requested)) rows)
        (fun loser => release_bond loser ;;; notify_loser loser)
  end.

Definition continue_take (current : Bond) (request_id : option Z) :
    M (result unit MostroError) :=
  order <-? order_of_bond current ;;
  if negb (str_eqb (o_status order) (status_to_string Pending)) &&
     negb (str_eqb (o_status order) (status_to_string WaitingTakerBond)) then
    (if canceled_status (get_order_status order) then
       release_bond current ;;; notify_loser current
     else Ret tt) ;;;
    Ret (Ok tt)
  else
    order <-? promote_taker_context_to_order order current ;;
    _ <-? ask GetKeys ;;
    resume_take_after_bond order request_id.

Definition on_bond_invoice_accepted (hash : string) (request_id : option Z) :
    M (result unit MostroError) :=
  found <-? find_bond_by_hash hash ;;
  match found with
  | None => Ret (Ok tt)
  | Some bond =>
      if str_eqb (role bond) (role_to_string Maker) then
        on_maker_bond_accepted bond hash request_id
      else
        now <- ask Now ;;
        rows <-? sql_or_db_error (lock_taker_stmt (id bond) (order_id bond) now) ;;
        reread <-? find_bond_by_hash hash ;;
        match reread with
        | None => Ret (Ok tt)
        | Some current =>
            match state_from_str (state current) with
            | Err _ => Ret (Ok tt)
            | Ok current_state =>
                if (rows =? 0) && negb (bool_decide (current_state = Locked)) then
                  (if negb (is_terminal current_state)
                   then release_bond current ;;; Ret tt else Ret tt) ;;;
                  notify_loser current ;;;
                  Ret (Ok tt)
                else
                  (if rows =? 1 then tear_down_losers current else Ret tt) ;;;
                  if negb (bool_decide (current_state = Locked)) then Ret (Ok tt)
                  else continue_take current request_id
            end
        end
  end.

(** ** Cancellation *)

Definition drop_waiting_taker_bond_to_pending (order_id : Uuid) : M (result bool MostroError) :=
  n <-? sql_or_db_error (drop_stmt order_id) ;; Ret (Ok (n =? 1)).

Definition maybe_drop_waiting_taker_bond (order_id : Uuid) : M (result unit MostroError) :=
  dropped <-? drop_waiting_taker_bond_to_pending order_id ;;
  if negb dropped then Ret (Ok tt)
  else
    fresh <-? find_order_by_id order_id ;;
    match fresh with
    | None => Ret (Ok tt)
    | Some fresh =>
        _ <-? ask GetKeys ;;
        published <- update_order_event Pending fresh ;;
        (match published with
         | Ok updated => sql (set_event_id_stmt order_id (o_event_id updated)) ;;; Ret tt
         | Err _ => Ret tt
         end) ;;;
        Ret (Ok tt)
    end.

Definition on_bond_invoice_canceled (hash : string) : M (result unit MostroError) :=
  found <-? find_bond_by_hash hash ;;
  match found with
  | None => Ret (Ok tt)
  | Some bond =>
      let terminal := match state_from_str (state bond) with
                      | Ok s => is_terminal s
                      | Err _ => false
                      end in
      if terminal then Ret (Ok tt)
      else
        now <- ask Now ;;
        _ <-? update_bond (bond <| state := state_to_string Released |>
                                <| released_at := Some now |>) ;;
        maybe_drop_waiting_taker_bond (order_id bond) ;;;
        Ret (Ok tt)
  end.

(** The subscriber task of one hold invoice, for at most [n] notifications. *)
Fixpoint bond_subscriber (n : nat) (hash : list Z) (request_id : option Z) : M unit :=
  match n with
  | O => Ret tt
  | S n' =>
      msg <- ask (LndInvoiceUpdate hash) ;;
      match msg with
      | None => Ret tt
      | Some st =>
          (match st with
           | InvoiceAccepted => on_bond_invoice_accepted (bytes_to_string hash) request_id ;;; Ret tt
           | InvoiceCanceled => on_bond_invoice_canceled (bytes_to_string hash) ;;; Ret tt
           | InvoiceSettled | InvoiceOpen => Ret tt
           end) ;;;
          bond_subscriber n' hash request_id
      end
  end.
End Lock.
