(* ===== verification/LockSpec.v ===== *)
(** * What the guarded writes of an order promise

    The compare-and-swap writes of [src/db.rs] and the continuations of
    [src/util.rs] and [src/app/bond/flow.rs] that depend on them: a take
    completes once, a loser leaves nothing behind, and an order returns to the
    book only when no taker bond is in play. *)

From S2P Require Import Prelude Float64 Config BondTypes BondMath Effects Model.
From S2P Require Import Lightning Demo BondDb BondRelease OrderDb BondLock Sequential.

Open Scope Z_scope.
Open Scope prog_scope.

(** The spelling of the statuses the SQL text names. *)
Class StatusSpelling `{Lib} : Prop := {
  spell_pending : status_to_string Pending = "pending";
  spell_waiting_taker : status_to_string WaitingTakerBond = "waiting-taker-bond";
  spell_waiting_payment : status_to_string WaitingPayment = "waiting-payment";
  spell_waiting_invoice : status_to_string WaitingBuyerInvoice = "waiting-buyer-invoice"
}.

#[export] Instance demo_spelling : StatusSpelling.
Proof. by split. Qed.

(** ** Orders and keys *)

Lemma update_orders_miss p f db : (update_orders p f db).2 = 0 -> (update_orders p f db).1 = db.
Proof.
  destruct db as [os bs]. unfold update_orders, count_where. cbn [fst snd orders bonds]. intros E.
  f_equal. unfold update_where. rewrite <- (map_id os) at 2. apply map_ext_in. intros o Ho.
  destruct (p o) eqn:Ep; [exfalso|done].
  assert (In o (List.filter p os)) as Hin by by apply filter_In.
  destruct (List.filter p os); [done|]. simpl in E. lia.
Qed.

Lemma update_orders_none p f db :
  (forall o, In o (orders db) -> p o = false) -> update_orders p f db = (db, 0).
Proof.
  intros Hp. assert ((update_orders p f db).2 = 0) as E.
  { unfold update_orders, count_where. cbn [snd].
    destruct (List.filter p (orders db)) as [|o l] eqn:Ef; [done|].
    assert (In o (o :: l)) as Hin by by left. rewrite <- Ef in Hin.
    apply filter_In in Hin as [Hin Ho]. by rewrite (Hp o Hin) in Ho. }
  pose proof (update_orders_miss p f db E) as E'. destruct (update_orders p f db). simpl in *. by subst.
Qed.

(** The statuses a take may leave from, by origin. *)
Definition take_statuses (allow : bool) : list string :=
  (PRETRADE_STATUSES ++ (if allow then ["waiting-buyer-invoice"] else []))%list.


Lemma nodup_orders_eq (t : list Order) o1 o2 :
  NoDup (map o_id t) -> In o1 t -> In o2 t -> o_id o1 = o_id o2 -> o1 = o2.
Proof.
  induction t as [|o t IH]; [done|]. cbn [map In]. intros [Hn Hnd]%NoDup_cons [->|H1] [->|H2] E;
    [done| | |by apply IH].
  - destruct Hn. rewrite E. by apply list_elem_of_In, in_map.
  - destruct Hn. rewrite <- E. by apply list_elem_of_In, in_map.
Qed.

(** A keyed update that hit a row hit the only row with that key. *)
Lemma update_orders_hit p f db i :
  NoDup (map o_id (orders db)) -> (forall o, p o = true -> o_id o = i) ->
  (update_orders p f db).2 <> 0 -> forall o, In o (orders db) -> o_id o = i -> p o = true.
Proof.
  intros Hnd Hp Hc o Ho Ei. unfold update_orders, count_where in Hc. cbn [snd] in Hc.
  destruct (List.filter p (orders db)) as [|h l] eqn:E; [done|].
  assert (In h (h :: l)) as Hh by by left. rewrite <- E in Hh. apply filter_In in Hh as [Hh Hph].
  by rewrite (nodup_orders_eq _ o h Hnd Ho Hh (eq_trans Ei (eq_sym (Hp h Hph)))).
Qed.

Section Race.
Context `{HS : StatusSpelling}.

(** a take completes once. Once a completion has moved the order to
    [WaitingPayment], every later pre-trade write of that order, another
    completion of either origin, a promotion or a status change, affects no
    row and changes nothing. *)
Theorem take_completes_once order order' kind allow allow' status event db :
  o_status order = status_to_string WaitingPayment -> o_id order' = o_id order ->
  NoDup (map o_id (orders db)) -> (complete_take_stmt order allow db).2 <> 0 ->
  let db1 := (complete_take_stmt order allow db).1 in
  complete_take_stmt order' allow' db1 = (db1, 0) /\
  promote_stmt kind order' db1 = (db1, 0) /\
  cas_pretrade_stmt (o_id order) status event db1 = (db1, 0).
Proof.
  intros Hst Hid Hnd Hhit db1.
  assert (forall o, In o (orders db) -> o_id o = o_id order ->
    N.eqb (o_id o) (o_id order) && status_in (take_statuses allow) o = true) as Hall.
  { refine (update_orders_hit _ _ db (o_id order) Hnd _ Hhit).
    intros o [E%N.eqb_eq _]%andb_true_iff. done. }
  assert (forall l o, In o (orders db1) -> o_id o = o_id order ->
    existsb (str_eqb "waiting-payment") l = false -> status_in l o = false) as Hout.
  { intros l o Ho Ei Hl. apply in_update_where in Ho as (o0 & Ho0 & ->).
    destruct (_ && _) eqn:E.
    - unfold status_in. cbn. rewrite Hst, spell_waiting_payment. exact Hl.
    - exfalso. unfold take_statuses in Hall. rewrite (Hall o0 Ho0 Ei) in E. done. }
  split_and!; apply update_orders_none; intros o Ho.
  - destruct (N.eqb (o_id o) (o_id order')) eqn:E; [|done]. apply N.eqb_eq in E.
    rewrite Hid in E. apply Hout; [done|done|by destruct allow'].
  - destruct (N.eqb (o_id o) (o_id order')) eqn:E; [|done]. apply N.eqb_eq in E.
    rewrite Hid in E. by apply Hout.
  - destruct (N.eqb (o_id o) (o_id order)) eqn:E; [|done]. apply N.eqb_eq in E. by apply Hout.
Qed.
End Race.

(** ** Back to the book *)

Section Drop.
Context `{Lib} (env : Env DB ext).

(** A taker bond of the order is requested or locked. *)
Definition taker_in_play (i : Uuid) (db : DB) : bool :=
  exists_row (fun b => N.eqb (order_id b) i && active_row b && role_is Taker b) (bonds db).

(** An order returns to the book only when no taker is in play.
    [drop_waiting_taker_bond_to_pending] changes nothing while a taker bond of
    the order is requested or locked; otherwise it moves the order from
    [WaitingTakerBond] to [Pending] and touches no other order and no bond; it
    answers [true] exactly when it moved one row. *)
Theorem drop_waiting_taker_bond_spec i db tr :
  sql_up env ->
  let v := run_val env (drop_waiting_taker_bond_to_pending i) db tr in
  let db' := run_db env (drop_waiting_taker_bond_to_pending i) db tr in
  (taker_in_play i db = true -> v = Ok false /\ db' = db) /\
  (taker_in_play i db = false ->
     db' = (cas_status_stmt i (status_to_string Pending) (status_to_string WaitingTakerBond) db).1 /\
     v = Ok (count_where (order_with_status i (status_to_string WaitingTakerBond)) (orders db) =? 1)).
Proof.
  intros Hup. unfold drop_waiting_taker_bond_to_pending, try, sql_or_db_error, run_val, run_db.
  cbn [bind sql run]. rewrite Hup. unfold drop_stmt. fold (taker_in_play i db).
  split; intros ->; cbn [negb].
  - rewrite update_orders_none; [done|]. intros o _. apply andb_false_r.
  - unfold cas_status_stmt, update_orders.
    assert (forall t, count_where (fun o => order_with_status i (status_to_string WaitingTakerBond) o && true) t
       = count_where (order_with_status i (status_to_string WaitingTakerBond)) t) as Ec.
    { intros t. unfold count_where. do 2 f_equal. apply filter_ext. intros o. apply andb_true_r. }
    rewrite Ec. cbn [bind run map_err fst snd]. split; [|done]. f_equal. unfold update_where.
    apply map_ext. intros o. by rewrite andb_true_r.
Qed.
End Drop.

(** ** The loser of a take *)

(** [Order::set_timestamp_now] of mostro-core stamps the order: it keeps its
    key. *)
Class TimestampLaw `{Lib} : Prop :=
  stamp_keeps_id : forall now o, o_id (set_timestamp_now now o) = o_id o.

#[export] Instance demo_stamp : TimestampLaw.
Proof. by intros now o. Qed.






Section Loser.
Context `{HL : HexLaws} `{!TimestampLaw} (settings : Settings) (env : Env DB ext).







End Loser.

(** ** The theorems on concrete orders *)

