(* ===== verification/Users.v ===== *)
(** * The [users] table

    The reads and writes of [src/db.rs] on registered users, and the checks of
    a user's open trades.  [pubkey] is the primary key of the table. *)

From S2P Require Import Prelude Float64 Config BondTypes Effects Model BondDb Messages.

Open Scope Z_scope.
Open Scope prog_scope.

Definition has_pubkey (k : string) (u : User) : bool := str_eqb (u_pubkey u) k.

(** [SELECT * FROM users WHERE pubkey == ? LIMIT 1], read with [fetch_one]. *)
Definition user_by_pubkey (k : string) (db : DB) : DB * result User string :=
  (db, match select_one (has_pubkey k) (users db) with
       | Some u => Ok u
       | None => Err "no rows returned by a query that expected to return at least one row"
       end).

Definition insert_user_stmt (u : User) (db : DB) : DB * result unit string :=
  if exists_row (has_pubkey (u_pubkey u)) (users db)
  then (db, Err "UNIQUE constraint failed: users.pubkey")
  else (mkDB (orders db) (bonds db) (users db ++ [u]) (disputes db), Ok tt).

Definition trade_index_stmt (k : string) (index : Z) : DB -> DB * Z :=
  update_users (has_pubkey k) (fun u => u <| last_trade_index := index |>).

Definition is_user_present (public_key : string) : M (result User MostroError) :=
  sql_row (user_by_pubkey public_key).

Definition add_new_user (new_user : User) : M (result string MostroError) :=
  created_at <- ask Now ;;
  _ <-? sql_row (insert_user_stmt (new_user <| user_created_at := created_at |>)) ;;
  Ret (Ok (u_pubkey new_user)).

(** [char::is_ascii_hexdigit]. *)
Definition is_ascii_hexdigit (c : ascii) : bool :=
  let n := Z.of_nat (Ascii.nat_of_ascii c) in
  ((48 <=? n) && (n <=? 57)) || ((65 <=? n) && (n <=? 70)) || ((97 <=? n) && (n <=? 102)).

(** The format check on a public key: 64 hexadecimal characters. *)
Definition is_hex_key (k : string) : bool :=
  forallb is_ascii_hexdigit (String.list_ascii_of_string k) && (String.length k =? 64)%nat.

Definition update_user_trade_index (public_key : string) (trade_index : Z) :
    M (result bool MostroError) :=
  if negb (is_hex_key public_key) then Ret (Err (MostroCantDo CantDoInvalidPubkey))
  else if trade_index <? 0 then Ret (Err (MostroCantDo InvalidTradeIndex))
  else
    n <-? sql_or_db_error (trade_index_stmt public_key trade_index) ;;
    Ret (Ok (0 <? n)).

(** [SELECT EXISTS (SELECT 1 FROM orders WHERE <field> = ? AND status = ?)]. *)
Definition has_order_with_status (field : Order -> option string) (k status : string) (db : DB) :
    bool :=
  exists_row (fun o => bool_decide (field o = Some k) && str_eqb (o_status o) status) (orders db).

Definition has_pending_order_with_status (pubkey : string) (field : Order -> option string)
    (status : string) : M (result bool MostroError) :=
  if negb (is_hex_key pubkey) then Ret (Err (MostroCantDo CantDoInvalidPubkey))
  else sql_or_db_error (query (has_order_with_status field pubkey status)).

Definition buyer_has_pending_order (pubkey : string) : M (result bool MostroError) :=
  has_pending_order_with_status pubkey o_master_buyer_pubkey "waiting-buyer-invoice".

Definition seller_has_pending_order (pubkey : string) : M (result bool MostroError) :=
  has_pending_order_with_status pubkey o_master_seller_pubkey "waiting-payment".
