(* ===== verification/NewOrder.v ===== *)
(** * Creating an order

    [order_action] of [src/app/order.rs] and the functions of [src/util.rs] it
    publishes through: validation of the request, the price check, the trade
    index, the row, and either the publication or the request for the maker's
    bond. *)

From Stdlib Require Import QArith.
From S2P Require Import Prelude Float64 Config BondTypes BondMath Effects Model.
From S2P Require Import Lightning BondDb BondRelease OrderDb BondLock Messages Users.

Open Scope Z_scope.
Open Scope prog_scope.

(** [x as u64] of an [i64]. *)
Definition i64_as_u64 (x : Z) : Z := x mod 2 ^ 64.

(** [Order::create] of the mostro-core [Crud] trait: one [INSERT]; [id] is the
    primary key. *)
Definition order_create_stmt (order : Order) (db : DB) : DB * result Order string :=
  if exists_row (fun o => N.eqb (o_id o) (o_id order)) (orders db)
  then (db, Err "UNIQUE constraint failed: orders.id")
  else (insert_order order db, Ok order).

(** [DELETE FROM orders WHERE id = ? AND status = ?]. *)
Definition delete_parked_stmt (i : Uuid) (status : string) (db : DB) : DB * Z :=
  (mkDB (List.filter (fun o => negb (order_with_status i status o)) (orders db)) (bonds db)
     (users db) (disputes db),
   count_where (order_with_status i status) (orders db)).

Section NewOrder.
Context `{Lib} `{Core} (settings : Settings).

(** [get_bitcoin_price] as a handler calls it: a read of the price store
    ([PriceManager.get_bitcoin_price]) at this moment. *)
Definition current_price (fiat_code : string) : M (result f64 MostroError) :=
  ask (GetBitcoinPrice fiat_code).

Definition get_expiration_date (expire : option Z) : M Z :=
  now <- ask Now ;;
  let expires_at_max := now + max_expiration_days (get_mostro settings) * 86400 in
  match expire with
  | Some exp => Ret (if expires_at_max <? exp then expires_at_max else exp)
  | None =>
      now <- ask Now ;;
      Ret (now + expiration_hours (get_mostro settings) * 3600)
  end.

Definition prepare_new_order (new_order : SmallOrder) (initiator_pubkey : string)
    (trade_index : option Z) (identity_pubkey trade_pubkey : string) :
    M (result Order MostroError) :=
  let fee := if 0 <? so_amount new_order then get_fee (get_mostro settings) (so_amount new_order)
             else 0 in
  expiry_date <- get_expiration_date (so_expires_at new_order) ;;
  uuid <- ask NewUuid ;;
  now <- ask Now ;;
  let order :=
    order_default <| o_id := uuid |>
      <| o_kind := kind_to_string Sell |>
      <| o_status := status_to_string Pending |>
      <| o_creator_pubkey := initiator_pubkey |>
      <| o_payment_method := so_payment_method new_order |>
      <| o_amount := so_amount new_order |>
      <| o_fee := fee |>
      <| o_dev_fee := 0 |>
      <| o_dev_fee_paid := false |>
      <| o_dev_fee_payment_hash := None |>
      <| o_fiat_code := so_fiat_code new_order |>
      <| o_min_amount := so_min_amount new_order |>
      <| o_max_amount := so_max_amount new_order |>
      <| o_fiat_amount := so_fiat_amount new_order |>
      <| o_premium := so_premium new_order |>
      <| o_buyer_invoice := so_buyer_invoice new_order |>
      <| o_created_at := now |>
      <| o_expires_at := expiry_date |> in
  let from_api := so_amount new_order =? 0 in
  Ret (match so_kind new_order with
       | Some Buy =>
           Ok (order <| o_kind := kind_to_string Buy |>
                     <| o_buyer_pubkey := Some trade_pubkey |>
                     <| o_master_buyer_pubkey := Some identity_pubkey |>
                     <| o_trade_index_buyer := trade_index |>
                     <| o_price_from_api := from_api |>)
       | Some Sell =>
           Ok (order <| o_kind := kind_to_string Sell |>
                     <| o_seller_pubkey := Some trade_pubkey |>
                     <| o_master_seller_pubkey := Some identity_pubkey |>
                     <| o_trade_index_seller := trade_index |>
                     <| o_price_from_api := from_api |>)
       | None => Err (MostroCantDo InvalidOrderKind)
       end).

(** Sats for [fiat] at the current price, refusing a price that is not
    positive. *)
Definition sats_at_current_price (fiat_code : string) (fiat : Z) : M (result Z MostroError) :=
  price <-? current_price fiat_code ;;
  if f64_le price (Fin 0) then Ret (Err (MostroInternalErr NoAPIResponse))
  else Ret (Ok (market_sats price fiat 0)).

Definition maker_bond_notional_sats (order : Order) : M (result Z MostroError) :=
  if is_range_order order then
    match o_max_amount order with
    | Some m =>
        if 0 <? m then sats_at_current_price (o_fiat_code order) m
        else Ret (Err (MostroInternalErr (UnexpectedError "range order missing positive max_amount")))
    | None => Ret (Err (MostroInternalErr (UnexpectedError "range order missing positive max_amount")))
    end
  else if 0 <? o_amount order then Ret (Ok (o_amount order))
  else sats_at_current_price (o_fiat_code order) (o_fiat_amount order).

Definition publish_order (new_order : SmallOrder)
    (initiator_pubkey identity_pubkey trade_pubkey : string)
    (request_id trade_index : option Z) : M (result unit MostroError) :=
  new_order_db <-? prepare_new_order new_order initiator_pubkey trade_index identity_pubkey
                     trade_pubkey ;;
  if maker_bond_required settings then
    notional <-? maker_bond_notional_sats new_order_db ;;
    order <-? sql_row (order_create_stmt
                (new_order_db <| o_status := status_to_string WaitingMakerBond |>)) ;;
    requested <- request_maker_bond settings order trade_pubkey notional request_id trade_index ;;
    match requested with
    | Err e =>
        sql (delete_parked_stmt (o_id order) (status_to_string WaitingMakerBond)) ;;;
        Ret (Err e)
    | Ok _ => Ret (Ok tt)
    end
  else
    order <-? sql_row (order_create_stmt new_order_db) ;;
    finalize_order_publication order identity_pubkey trade_pubkey request_id trade_index.

(** ** The handler *)

Definition validate_invoice (msg : Message) (order : Order) :
    M (result (option string) MostroError) :=
  match msg_payment_request msg with
  | Some pr =>
      valid <- is_valid_invoice settings pr (Some (i64_as_u64 (o_amount order)))
                 (Some (i64_as_u64 (o_fee order))) ;;
      Ret (match valid with
           | Err _ => Err (MostroCantDo InvalidInvoice)
           | Ok _ => Ok (Some pr)
           end)
  | None => Ret (Ok None)
  end.

Definition calculate_and_check_quote (order : SmallOrder) (fiat_amount : Z) :
    M (result unit MostroError) :=
  quote <-? (if so_amount order =? 0 then
               price <- current_price (so_fiat_code order) ;;
               Ret (match price with
                    | Ok price => Ok (market_sats price fiat_amount 0)
                    | Err (MostroInternalErr PriceTooStale) =>
                        Err (MostroCantDo CantDoPriceTooStale)
                    | Err _ => Err (MostroInternalErr NoAPIResponse)
                    end)
             else Ret (Ok (so_amount order))) ;;
  if quote <? 0 then Ret (Err (MostroCantDo InvalidAmount))
  else if (max_order_amount (get_mostro settings) <? quote) ||
          (quote <? min_payment_amount (get_mostro settings))
  then Ret (Err (MostroCantDo OutOfRangeSatsAmount))
  else Ret (Ok tt).

(** The index a handler stores: that of the message, 0 when the sender trades
    under its identity key. *)
Definition resolve_trade_index (msg : Message) (event : UnwrappedMessage) :
    result Z MostroError :=
  match m_trade_index msg with
  | Some i => Ok i
  | None => if str_eqb (u_identity event) (u_sender event) then Ok 0
            else Err (MostroInternalErr InvalidPayloadError)
  end.

Definition store_trade_index (event : UnwrappedMessage) (trade_index : Z) :
    M (result unit MostroError) :=
  stored <- update_user_trade_index (u_identity event) trade_index ;;
  _ <-? Ret (wrap_err DbAccessError stored) ;;
  Ret (Ok tt).

Definition order_action (msg : Message) (event : UnwrappedMessage) :
    M (result unit MostroError) :=
  match msg_order msg with
  | None => Ret (Ok tt)
  | Some order =>
      _ <-? validate_invoice msg (order_from order) ;;
      _ <-? Ret (map_err MostroCantDo
              (check_fiat_currency order (fiat_currencies_accepted (get_mostro settings)))) ;;
      _ <-? Ret (if is_none (so_min_amount order) && is_none (so_max_amount order)
                 then map_err MostroCantDo (check_fiat_amount order) else Ok tt) ;;
      _ <-? Ret (map_err MostroCantDo (check_amount order)) ;;
      amount_vec <-? Ret (map_err MostroCantDo
                       (check_range_order_limits order [so_fiat_amount order])) ;;
      _ <-? Ret (map_err MostroCantDo (check_zero_amount_with_premium order)) ;;
      _ <-? try_fold amount_vec tt (fun _ fiat => calculate_and_check_quote order fiat) ;;
      trade_index <-? Ret (resolve_trade_index msg event) ;;
      _ <-? store_trade_index event trade_index ;;
      publish_order order (u_sender event) (u_identity event) (u_sender event)
        (m_request_id msg) (m_trade_index msg)
  end.
End NewOrder.
