(* ===== verification/Take.v ===== *)
(** * Taking an order

    [take_sell_action] ([src/app/take_sell.rs]) and [take_buy_action]
    ([src/app/take_buy.rs]) with the helpers of [src/util.rs] and [src/db.rs]
    they call: the guards on the order and the taker, the amount and fees of
    the trade, the trade index, and then the bond request, the Cashu escrow
    request, the hold invoice or the request for a buyer invoice. *)

From Stdlib Require Import QArith.
From S2P Require Import Prelude Float64 Config BondTypes BondMath Effects Model.
From S2P Require Import Lightning BondDb BondRelease OrderDb BondLock Messages Users NewOrder.

Open Scope Z_scope.
Open Scope prog_scope.

(** [UPDATE orders SET status = ? WHERE id = ? AND status = ? AND
    cashu_escrow_locked_at IS NULL]. *)
Definition claim_status_stmt (i : Uuid) (expected new : string) : DB -> DB * Z :=
  update_orders (fun o => order_with_status i expected o && is_none (o_cashu_escrow_locked_at o))
    (fun o => o <| o_status := new |>).

Definition is_order_take_window_closed (order : Order) (now : Z) : bool :=
  (0 <? o_expires_at order) && (o_expires_at order <=? now).

Section Take.
Context `{Lib} `{Core} (settings : Settings).

Definition claim_order_status (order_id : Uuid) (expected new : Status) :
    M (result bool MostroError) :=
  n <-? sql_or_db_error (claim_status_stmt order_id (status_to_string expected)
                           (status_to_string new)) ;;
  Ret (Ok (0 <? n)).

Definition get_order (msg : Message) : M (result Order MostroError) :=
  order_id <-? Ret (ok_or (m_id msg) (MostroCantDo NotFound)) ;;
  order <-? find_order_by_id order_id ;;
  Ret (ok_or order (MostroCantDo NotFound)).

(** The comparisons are those of [Option<i64>], in which [None] is least. *)
Definition get_fiat_amount_requested (order : Order) (msg : Message) : option Z :=
  if is_range_order order then
    match msg_amount msg with
    | Some amount =>
        let le_max := match o_max_amount order with Some m => amount <=? m | None => false end in
        let ge_min := match o_min_amount order with Some m => m <=? amount | None => true end in
        if le_max && ge_min then Some amount else None
    | None => None
    end
  else Some (o_fiat_amount order).

(** [get_market_quote] at the current price. *)
Definition market_quote (fiat_amount : Z) (fiat_code : string) (premium : Z) :
    M (result Z MostroError) :=
  price <-? current_price fiat_code ;;
  if f64_le price (Fin 0) then Ret (Err (MostroInternalErr NoAPIResponse))
  else Ret (Ok (market_sats price fiat_amount premium)).

Definition get_market_amount_and_fee (fiat_amount : Z) (fiat_code : string) (premium : Z) :
    M (result (Z * Z) MostroError) :=
  amount <-? market_quote fiat_amount fiat_code premium ;;
  Ret (Ok (amount, get_fee (get_mostro settings) amount)).

(** The amount, fee and development fee of the trade: from the market for an
    order without a sats amount, else as stored with the development fee. *)
Definition price_take (order : Order) : M (result Order MostroError) :=
  if has_no_amount order then
    quoted <- get_market_amount_and_fee (o_fiat_amount order) (o_fiat_code order)
                (o_premium order) ;;
    Ret (match quoted with
         | Ok (amount, fee) =>
             Ok (order <| o_amount := amount |> <| o_fee := fee |>
                       <| o_dev_fee := get_dev_fee (get_mostro settings) (fee * 2) |>)
         | Err (MostroInternalErr PriceTooStale) => Err (MostroCantDo CantDoPriceTooStale)
         | Err _ => Err (MostroInternalErr WrongAmountError)
         end)
  else
    Ret (Ok (order <| o_dev_fee := get_dev_fee (get_mostro settings) (o_fee order * 2) |>)).

(** The guards both handlers start with.  [pending] is the check of the
    taker's open trades, [kind_ok] that the order is of the kind taken. *)
Definition take_guards (msg : Message) (event : UnwrappedMessage)
    (pending : string -> M (result bool MostroError))
    (kind_ok : Order -> result unit CantDoReason) : M (result Order MostroError) :=
  order <-? get_order msg ;;
  busy <-? pending (u_identity event) ;;
  if busy then Ret (Err (MostroCantDo PendingOrderExists))
  else
    _ <-? Ret (map_err MostroCantDo (kind_ok order)) ;;
    if negb (is_ok (check_status order Pending)) &&
       negb (is_ok (check_status order WaitingTakerBond))
    then Ret (Err (MostroCantDo CantDoInvalidOrderStatus))
    else
      now <- ask Now ;;
      if is_order_take_window_closed order now
      then Ret (Err (MostroCantDo CantDoInvalidOrderStatus))
      else
        _ <-? Ret (map_err MostroCantDo (not_sent_from_maker order (u_sender event))) ;;
        Ret (Ok order).

(** The bond guards: a locked taker bond refuses the take; a bond of this
    sender repeats its request, which is [Ok true]. *)
Definition taker_bond_guards (order : Order) (event : UnwrappedMessage)
    (request_id : option Z) : M (result bool MostroError) :=
  if negb (taker_bond_required settings) then Ret (Ok false)
  else
    active <-? find_active_bonds_for_order (o_id order) ;;
    if trade_committed_by_locked_taker_bond active
    then Ret (Err (MostroCantDo PendingOrderExists))
    else
      match List.find (fun b => str_eqb (pubkey b) (u_sender event)) active with
      | None => Ret (Ok false)
      | Some existing =>
          match payment_request existing with
          | None => Ret (Ok true)
          | Some bolt11 =>
              order_kind <-? Ret (map_err MostroInternalErr (get_order_kind order)) ;;
              let bond_small :=
                small_order (Some (o_id order)) (Some order_kind) (Some Pending)
                  (amount_sats existing) (o_fiat_code order) (o_min_amount order)
                  (o_max_amount order)
                  (default (o_fiat_amount order) (taker_fiat_amount existing))
                  (o_payment_method order) (o_premium order) in
              enqueue_order_msg request_id (Some (o_id order)) PayBondInvoice
                (Some (PlPaymentRequest (Some bond_small) bolt11 None)) (u_sender event)
                (taker_trade_index existing) ;;;
              Ret (Ok true)
          end
      end.

Definition show_cashu_escrow_request (buyer_pubkey seller_pubkey : string) (order : Order)
    (request_id : option Z) : M (result unit MostroError) :=
  won <-? claim_order_status (o_id order) Pending WaitingPayment ;;
  if negb won then Ret (Err (MostroCantDo NotAllowedByStatus))
  else
    let order := order <| o_status := status_to_string WaitingPayment |>
                       <| o_buyer_pubkey := Some buyer_pubkey |>
                       <| o_seller_pubkey := Some seller_pubkey |> in
    published <- update_order_event WaitingPayment order ;;
    order_updated <-? Ret (wrap_err NostrError published) ;;
    _ <-? sql_or_db_error (order_update_stmt order_updated) ;;
    let new_order := (as_new_order order) <| so_status := Some WaitingPayment |>
                       <| so_amount := o_amount order |>
                       <| so_buyer_trade_pubkey := Some buyer_pubkey |>
                       <| so_seller_trade_pubkey := Some seller_pubkey |>
                       <| so_buyer_invoice := None |> in
    enqueue_order_msg request_id (Some (o_id order)) WaitingSellerToPay
      (Some (PlOrder new_order)) seller_pubkey (o_trade_index_seller order) ;;;
    enqueue_order_msg request_id (Some (o_id order)) WaitingSellerToPay None buyer_pubkey
      (o_trade_index_buyer order) ;;;
    Ret (Ok tt).

(** ** [take_sell.rs] *)

Definition update_order_status (order : Order) (request_id : option Z) :
    M (result unit MostroError) :=
  buyer_pubkey <-? Ret (map_err MostroInternalErr (get_buyer_pubkey order)) ;;
  asked <- set_waiting_invoice_status order buyer_pubkey request_id ;;
  _ <-? Ret (map_err (fun _ => MostroInternalErr UpdateOrderStatusError) asked) ;;
  published <- update_order_event WaitingBuyerInvoice order ;;
  order_updated <-? Ret (map_err (fun _ => MostroInternalErr UpdateOrderStatusError) published) ;;
  won <-? cas_complete_pretrade_take order_updated false ;;
  if negb won then
    republish_winning_state_after_cas_miss (o_id order_updated) ;;;
    Ret (Err (MostroCantDo NotAllowedByStatus))
  else Ret (Ok tt).

Definition validate_buyer_invoice (msg : Message) (order : Order) (cashu_enabled : bool) :
    M (result (option string) MostroError) :=
  if cashu_enabled then Ret (Ok None) else validate_invoice settings msg order.

Definition taker_context (event : UnwrappedMessage) (index : Z) (invoice : option string)
    (order : Order) : TakerContext :=
  mkTakerContext (u_identity event) index invoice (o_fiat_amount order) (o_amount order)
    (o_fee order) (o_dev_fee order).

Definition take_sell_action (msg : Message) (event : UnwrappedMessage) :
    M (result unit MostroError) :=
  let request_id := m_request_id msg in
  order <-? take_guards msg event buyer_has_pending_order is_sell_order ;;
  repeated <-? taker_bond_guards order event request_id ;;
  if repeated then Ret (Ok tt)
  else
    seller_pubkey <-? Ret (map_err MostroInternalErr (get_seller_pubkey order)) ;;
    fiat <-? Ret (ok_or (get_fiat_amount_requested order msg) (MostroCantDo OutOfRangeSatsAmount)) ;;
    order <-? price_take (order <| o_fiat_amount := fiat |>) ;;
    payment_request <-? validate_buyer_invoice msg order (is_cashu_enabled settings) ;;
    trade_index <-? Ret (resolve_trade_index msg event) ;;
    _ <-? store_trade_index event trade_index ;;
    if taker_bond_required settings then
      _ <-? request_taker_bond settings order (u_sender event) request_id
              (taker_context event trade_index payment_request order) ;;
      Ret (Ok tt)
    else
      now <- ask Now ;;
      let order := set_timestamp_now now
                     (order <| o_buyer_pubkey := Some (u_sender event) |>
                            <| o_master_buyer_pubkey := Some (u_identity event) |>
                            <| o_trade_index_buyer := Some trade_index |>) in
      if is_cashu_enabled settings then
        show_cashu_escrow_request (u_sender event) seller_pubkey order request_id
      else
        match payment_request with
        | None => update_order_status order request_id
        | Some _ =>
            show_hold_invoice settings payment_request (u_sender event) seller_pubkey order
              request_id OriginTake
        end.

(** ** [take_buy.rs] *)

Definition take_buy_action (msg : Message) (event : UnwrappedMessage) :
    M (result unit MostroError) :=
  let request_id := m_request_id msg in
  order <-? take_guards msg event seller_has_pending_order is_buy_order ;;
  repeated <-? taker_bond_guards order event request_id ;;
  if repeated then Ret (Ok tt)
  else
    fiat <-? Ret (ok_or (get_fiat_amount_requested order msg) (MostroCantDo OutOfRangeSatsAmount)) ;;
    order <-? price_take (order <| o_fiat_amount := fiat |>) ;;
    let seller_pubkey := u_sender event in
    buyer_pubkey <-? Ret (map_err MostroInternalErr (get_buyer_pubkey order)) ;;
    trade_index <-? Ret (resolve_trade_index msg event) ;;
    _ <-? store_trade_index event trade_index ;;
    if taker_bond_required settings then
      _ <-? request_taker_bond settings order seller_pubkey request_id
              (taker_context event trade_index None order) ;;
      Ret (Ok tt)
    else
      now <- ask Now ;;
      let order := set_timestamp_now now
                     (order <| o_master_seller_pubkey := Some (u_identity event) |>
                            <| o_trade_index_seller := Some trade_index |>) in
      if is_cashu_enabled settings then
        show_cashu_escrow_request buyer_pubkey seller_pubkey order request_id
      else
        shown <- show_hold_invoice settings None buyer_pubkey seller_pubkey order request_id
                   OriginTake ;;
        Ret (wrap_err HoldInvoiceError shown).
End Take.
