(* ===== verification/Gate.v ===== *)
(** * The message gate

    [src/spam_gate.rs] and the event loop of [src/app.rs]: the replay guard
    and the cache of active trade keys, [accept_event] with the trade-index
    check and the registration of new users, and the replies to a message
    that failed.  [EventLoop] routes the accepted ones.

    The gate lives in memory and is used by the event loop, which handles one
    event at a time, and by a scheduler job that replaces the known keys; it
    is threaded through [accept_event] as a value. *)

From stdpp Require Import gmap.
From S2P Require Import Prelude Float64 Config BondTypes Effects Model.
From S2P Require Import BondDb Messages Users.

Open Scope Z_scope.
Open Scope prog_scope.

(** ** [spam_gate.rs] *)

Definition REPLAY_WINDOW_SECS : Z := 60.

(** A lock, or the knowledge that a holder panicked. *)
Inductive lock (A : Type) : Type := Held (a : A) | Poisoned.
Arguments Held {A} _.
Arguments Poisoned {A}.

Record ReplayGuard : Type := mkReplayGuard {
  seen : gmap string Z;
  window_secs : Z
}.

(** Expired sightings are pruned, then the event is recorded; [true] when it
    was there already. *)
Definition check_and_record (g : ReplayGuard) (id : string) (now : Z) : ReplayGuard * bool :=
  let cutoff := now - window_secs g in
  let kept := filter (fun kv : string * Z => cutoff <= kv.2) (seen g) in
  (mkReplayGuard (<[id := now]> kept) (window_secs g),
   match kept !! id with Some _ => true | None => false end).

Record SpamGate : Type := mkSpamGate {
  known : lock (gset string);
  replay : lock ReplayGuard
}.

Definition new_gate (window : Z) : SpamGate :=
  mkSpamGate (Held ∅) (Held (mkReplayGuard ∅ window)).

Definition set_known (keys : list string) (g : SpamGate) : SpamGate :=
  mkSpamGate (match known g with
              | Held _ => Held (list_to_set keys)
              | Poisoned => Poisoned
              end) (replay g).

Definition is_known (g : SpamGate) (pubkey : string) : bool :=
  match known g with Held keys => bool_decide (pubkey ∈ keys) | Poisoned => false end.

Definition is_replay (g : SpamGate) (id : string) (now : Z) : SpamGate * bool :=
  match replay g with
  | Held r => let '(r', b) := check_and_record r id now in (mkSpamGate (known g) (Held r'), b)
  | Poisoned => (g, false)
  end.

(** ** [app.rs]: errors and replies *)

Section Loop.
Context `{Core}.

(** [manage_errors]: a refusal is reported to the trade key, an internal error
    is only logged. *)
Definition manage_errors (e : MostroError) (msg : Message) (event : UnwrappedMessage) : M unit :=
  match e with
  | MostroCantDo cause =>
      enqueue_cant_do_msg (m_request_id msg) (m_id msg) cause (u_sender event)
  | MostroInternalErr _ => Ret tt
  end.

Definition finalize_dispatch (r : result unit MostroError) (msg : Message)
    (event : UnwrappedMessage) : M unit :=
  match r with
  | Ok _ => Ret tt
  | Err e => manage_errors e msg event
  end.

(** ** [app.rs]: the trade index *)

Definition is_trading (a : Action) : bool :=
  match a with NewOrder | TakeBuy | TakeSell => true | _ => false end.

Definition check_trade_index (event : UnwrappedMessage) (msg : Message) :
    M (result unit MostroError) :=
  if negb (is_trading (m_action msg)) then Ret (Ok tt)
  else
    present <- is_user_present (u_identity event) ;;
    match present with
    | Ok user =>
        let index := msg_trade_index msg in
        if 1 <=? index then
          sig <-? Ret (ok_or (u_signature event) (MostroCantDo InvalidSignature)) ;;
          if index <=? last_trade_index user then
            manage_errors (MostroCantDo InvalidTradeIndex) msg event ;;;
            Ret (Err (MostroCantDo InvalidTradeIndex))
          else
            msg_json <-? Ret (map_err (fun _ => MostroInternalErr MessageSerializationError)
                                (msg_as_json msg)) ;;
            if negb (verify_signature msg_json (u_sender event) sig)
            then Ret (Err (MostroCantDo InvalidSignature))
            else Ret (Ok tt)
        else Ret (Ok tt)
    | Err _ =>
        match m_trade_index msg with
        | Some index =>
            if index =? 0 then Ret (Err (MostroCantDo InvalidTradeIndex))
            else if negb (str_eqb (u_identity event) (u_sender event)) then
              created <- add_new_user (user_default <| u_pubkey := u_identity event |>
                                                    <| last_trade_index := index |>) ;;
              Ret (match created with
                   | Err _ => Err (MostroCantDo CantCreateUser)
                   | Ok _ => Ok tt
                   end)
            else Ret (Ok tt)
        | None => Ret (Ok tt)
        end
    end.

(** ** [app.rs]: accepting an event *)

(** Seconds: an event older than this is stale. *)
Definition FRESHNESS_SECS : Z := 10.

(** What the gate says of an authenticated event at [now]. *)
Definition gate_admits (g : SpamGate) (event : NostrEvent) (pow_first_contact now : Z) :
    SpamGate * bool :=
  let '(g', replayed) := is_replay g (ne_id event) now in
  (g', negb replayed && (is_known g' (ne_pubkey event) || check_pow event pow_first_contact)).

(** From decryption on; [None] is a skipped event. *)
Definition accept_unwrapped (event : NostrEvent) :
    M (option (Action * Message * UnwrappedMessage)) :=
  match unwrap_incoming event with
  | Err _ | Ok None => Ret None
  | Ok (Some unwrapped) =>
      now <- ask Now ;;
      let since_time := (now - FRESHNESS_SECS) mod 2 ^ 64 in
      if u_created_at unwrapped <? since_time then Ret None
      else
        let message := u_message unwrapped in
        if negb (str_eqb (u_identity unwrapped) (u_sender unwrapped)) &&
           is_none (u_signature unwrapped)
        then Ret None
        else
          checked <- check_trade_index unwrapped message ;;
          match checked with
          | Err _ => Ret None
          | Ok _ =>
              if negb (msg_verify message) then Ret None
              else Ret (match inner_action message with
                        | Some action => Some (action, message, unwrapped)
                        | None => None
                        end)
          end
  end.

Definition accept_event (event : NostrEvent) (pow pow_first_contact accepted_kind : Z)
    (gate : option SpamGate) :
    M (option SpamGate * option (Action * Message * UnwrappedMessage)) :=
  if negb (check_pow event pow) then Ret (gate, None)
  else if negb (ne_kind event =? accepted_kind) then Ret (gate, None)
  else if negb (event_verify event) then Ret (gate, None)
  else
    match gate with
    | None =>
        accepted <- accept_unwrapped event ;;
        Ret (None, accepted)
    | Some g =>
        now <- ask Now ;;
        let '(g', admitted) := gate_admits g event pow_first_contact now in
        if negb admitted then Ret (Some g', None)
        else
          accepted <- accept_unwrapped event ;;
          Ret (Some g', accepted)
    end.

(** One turn of the loop of [run] or [run_cashu]; [dispatch] routes an accepted
    message to its handler. *)
Definition on_event
    (dispatch : Action -> Message -> UnwrappedMessage -> M (result unit MostroError))
    (pow pow_first_contact accepted_kind : Z) (event : NostrEvent) (gate : option SpamGate) :
    M (option SpamGate) :=
  r <- accept_event event pow pow_first_contact accepted_kind gate ;;
  match r.2 with
  | None => Ret r.1
  | Some (action, message, unwrapped) =>
      result <- dispatch action message unwrapped ;;
      finalize_dispatch result message unwrapped ;;;
      Ret r.1
  end.
End Loop.
