(* ===== verification/Disputes.v ===== *)
(** * Disputes and solvers

    [src/app/dispute.rs], [src/app/admin_take_dispute.rs],
    [src/app/admin_add_solver.rs] and the queries of [src/db.rs] they use: a
    party opens a dispute, a solver or the node's own key takes it, and a
    dispute is closed when the parties settle the order themselves.

    [order_id] is unique in the [disputes] table.  [node_pubkey] is the key of
    the daemon, which acts as the administrator. *)

From S2P Require Import Prelude Float64 Config BondTypes Effects Model.
From S2P Require Import Lightning BondDb OrderDb Messages Users NewOrder Take.

Open Scope Z_scope.
Open Scope prog_scope.

(** ** Statements *)

Definition no_rows : string :=
  "no rows returned by a query that expected to return at least one row".

(** [SELECT * FROM disputes WHERE order_id == ?], read with [fetch_one]. *)
Definition dispute_by_order (i : Uuid) (db : DB) : DB * result DisputeRow string :=
  (db, ok_or (select_one (fun d => N.eqb (d_order_id d) i) (disputes db)) no_rows).

Definition dispute_by_id (i : Uuid) (db : DB) : option DisputeRow :=
  select_one (fun d => N.eqb (d_id d) i) (disputes db).

(** [Dispute::create] and [Dispute::update] of the [Crud] trait. *)
Definition dispute_create_stmt (d : DisputeRow) (db : DB) : DB * result DisputeRow string :=
  if exists_row (fun r => N.eqb (d_id r) (d_id d)) (disputes db)
  then (db, Err "UNIQUE constraint failed: disputes.id")
  else if exists_row (fun r => N.eqb (d_order_id r) (d_order_id d)) (disputes db)
  then (db, Err "UNIQUE constraint failed: disputes.order_id")
  else (mkDB (orders db) (bonds db) (users db) (disputes db ++ [d]), Ok d).

Definition dispute_update_stmt (d : DisputeRow) : DB -> DB * Z :=
  update_disputes (fun r => N.eqb (d_id r) (d_id d)) (fun _ => d).

(** [SELECT EXISTS(SELECT 1 FROM disputes WHERE solver_pubkey = ? AND order_id = ?)]. *)
Definition assigned_to (solver : string) (i : Uuid) (d : DisputeRow) : bool :=
  bool_decide (d_solver_pubkey d = Some solver) && N.eqb (d_order_id d) i.

Definition is_rw_solver (u : User) : bool := (is_solver u =? 1) && (category u =? 2).

(** The join of [disputes] and [users] on the solver's key. *)
Definition assigned_rw_solver (solver : string) (i : Uuid) (db : DB) : bool :=
  exists_row (assigned_to solver i) (disputes db) &&
  exists_row (fun u => has_pubkey solver u && is_rw_solver u) (users db).

Definition in_progress_solver (i : Uuid) (db : DB) : option (option string) :=
  option_map d_solver_pubkey
    (select_one (fun d => N.eqb (d_order_id d) i && str_eqb (d_status d) "in-progress")
       (disputes db)).

Definition solver_by_pubkey (k : string) (db : DB) : DB * result User string :=
  (db, ok_or (select_one (fun u => has_pubkey k u && (is_solver u =? 1)) (users db)) no_rows).

(** ** Queries of [db.rs] *)

Definition find_dispute_by_order_id (order_id : Uuid) : M (result DisputeRow MostroError) :=
  sql_row (dispute_by_order order_id).

Definition is_assigned_solver (solver_pubkey : string) (order_id : Uuid) :
    M (result bool MostroError) :=
  sql_or_db_error (query (fun db => exists_row (assigned_to solver_pubkey order_id) (disputes db))).

Definition solver_has_write_permission (solver_pubkey : string) (order_id : Uuid) :
    M (result bool MostroError) :=
  sql_or_db_error (query (assigned_rw_solver solver_pubkey order_id)).

Definition user_has_solver_write_permission (pubkey : string) : M (result bool MostroError) :=
  sql_or_db_error (query (fun db =>
    exists_row (fun u => has_pubkey pubkey u && is_rw_solver u) (users db))).

Definition find_solver_pubkey (solver_npub : string) : M (result User MostroError) :=
  sql_row (solver_by_pubkey solver_npub).

Definition is_dispute_taken_by_admin (order_id : Uuid) (admin_pubkey : string) :
    M (result bool MostroError) :=
  row <-? sql_or_db_error (query (in_progress_solver order_id)) ;;
  Ret (Ok (match row with
           | Some (Some solver_pubkey) => str_eqb solver_pubkey admin_pubkey
           | _ => false
           end)).

Definition ensure_dispute_finalize_permission (caller_pubkey admin_pubkey : string)
    (order_id : Uuid) : M (result unit MostroError) :=
  assigned <-? is_assigned_solver caller_pubkey order_id ;;
  if negb assigned then Ret (Err (MostroCantDo IsNotYourDispute))
  else if str_eqb caller_pubkey admin_pubkey then Ret (Ok tt)
  else
    may_write <-? solver_has_write_permission caller_pubkey order_id ;;
    if may_write : bool then Ret (Ok tt) else Ret (Err (MostroCantDo NotAuthorized)).

(** ** Direct messages and dispute events *)

Definition send_dm (receiver message : string) : M (result unit string) :=
  ask (SendDm receiver message).

(** The tag that names who opened the dispute, from the flags of the order. *)
Definition dispute_initiator (order : Order) : option string :=
  match o_seller_dispute order, o_buyer_dispute order with
  | true, false => Some "seller"
  | false, true => Some "buyer"
  | _, _ => None
  end.

Section Disputes.
Context `{Lib} `{Core} (node_pubkey : string).

(** [get_dispute] ([src/util.rs]). *)
Definition get_dispute (msg : Message) : M (result DisputeRow MostroError) :=
  dispute_id <-? Ret (ok_or (m_id msg) (MostroInternalErr InvalidDisputeId)) ;;
  dispute <-? sql_or_db_error (query (dispute_by_id dispute_id)) ;;
  Ret (ok_or dispute (MostroInternalErr InvalidDisputeId)).

(** ** [dispute.rs] *)

Definition publish_dispute_event (dispute : DisputeRow) (is_buyer_dispute : bool) :
    M (result unit MostroError) :=
  let initiator := if is_buyer_dispute then "buyer" else "seller" in
  built <- ask (NewDisputeEvent (d_id dispute) (d_status dispute) initiator (d_created_at dispute)) ;;
  event <-? Ret (map_err (fun _ => MostroInternalErr DisputeEventError) built) ;;
  sent <- ask (SendDisputeEvent (d_id dispute) event) ;;
  Ret (map_err (fun e => MostroInternalErr (NostrError e)) sent).

Definition get_counterpart_info (sender buyer seller : string) : result bool CantDoReason :=
  if str_eqb sender buyer then Ok true
  else if str_eqb sender seller then Ok false
  else Err CantDoInvalidPubkey.

Definition get_valid_order (msg : Message) : M (result Order MostroError) :=
  order <-? get_order msg ;;
  if negb (is_ok (check_status order Active)) && negb (is_ok (check_status order FiatSent))
  then Ret (Err (MostroCantDo NotAllowedByStatus))
  else Ret (Ok order).

Definition notify_dispute_to_users (dispute : DisputeRow) (msg : Message) (order_id : Uuid)
    (counterpart_pubkey initiator_pubkey : string) : M unit :=
  enqueue_order_msg (m_request_id msg) (Some order_id) DisputeInitiatedByPeer
    (Some (PlDispute (d_id dispute) None)) counterpart_pubkey None ;;;
  enqueue_order_msg (m_request_id msg) (Some order_id) DisputeInitiatedByYou
    (Some (PlDispute (d_id dispute) None)) initiator_pubkey None.

(** The public keys of the two parties, the one that opened the dispute first. *)
Definition dispute_parties (order : Order) (is_buyer_dispute : bool) :
    result (string * string) MostroError :=
  match get_buyer_pubkey order, get_seller_pubkey order with
  | Ok buyer, Ok seller => Ok (if is_buyer_dispute then (buyer, seller) else (seller, buyer))
  | _, _ => Err (MostroInternalErr InvalidPubkey)
  end.

Definition dispute_action (msg : Message) (event : UnwrappedMessage) :
    M (result unit MostroError) :=
  order_id <-? Ret (ok_or (m_id msg) (MostroCantDo NotFound)) ;;
  existing <- find_dispute_by_order_id order_id ;;
  if is_ok existing then Ret (Err (MostroInternalErr DisputeAlreadyExists))
  else
    order <-? get_valid_order msg ;;
    parties <-? Ret (match o_seller_pubkey order, o_buyer_pubkey order with
                     | Some seller, Some buyer => Ok (seller, buyer)
                     | _, _ => Err (MostroInternalErr InvalidPubkey)
                     end) ;;
    let '(seller, buyer) := parties in
    is_buyer_dispute <-? Ret (map_err MostroCantDo
                                (get_counterpart_info (u_sender event) buyer seller)) ;;
    uuid <- ask NewUuid ;;
    now <- ask Now ;;
    let dispute := dispute_new uuid now order_id (o_status order) in
    order <-? Ret (map_err MostroCantDo (setup_dispute order is_buyer_dispute)) ;;
    _ <-? sql_or_db_error (order_update_stmt order) ;;
    dispute <-? sql_row (dispute_create_stmt dispute) ;;
    keys <-? Ret (dispute_parties order is_buyer_dispute) ;;
    let '(initiator_pubkey, counterpart_pubkey) := keys in
    notify_dispute_to_users dispute msg order_id counterpart_pubkey initiator_pubkey ;;;
    published <- publish_dispute_event dispute is_buyer_dispute ;;
    Ret (map_err (fun _ => MostroInternalErr DisputeEventError) published).

(** Best effort: what fails is logged. *)
Definition close_dispute_after_user_resolution (order : Order) (new_status : DisputeStatus) :
    M unit :=
  found <- find_dispute_by_order_id (o_id order) ;;
  match found with
  | Err _ => Ret tt
  | Ok dispute =>
      let dispute := dispute <| d_status := dispute_status_to_string new_status |> in
      updated <- sql (dispute_update_stmt dispute) ;;
      match updated with
      | Err _ => Ret tt
      | Ok _ =>
          let initiator := default "unknown" (dispute_initiator order) in
          built <- ask (NewDisputeEvent (d_id dispute) (dispute_status_to_string new_status)
                          initiator (d_created_at dispute)) ;;
          match built with
          | Ok event => ask (SendDisputeEvent (d_id dispute) event) ;;; Ret tt
          | Err _ => Ret tt
          end
      end
  end.

(** ** [admin_take_dispute.rs] *)

Definition SOLVER_CATEGORY_READ_ONLY : Z := 1.
Definition SOLVER_CATEGORY_READ_WRITE : Z := 2.

(** The user row of a party, when it trades under its identity key. *)
Definition rated_user (idkey : option string) : M (result (option User) MostroError) :=
  match idkey with
  | Some key => user <-? is_user_present key ;; Ret (Ok (Some user))
  | None => Ret (Ok None)
  end.

Definition prepare_solver_info_message (order : Order) (dispute : DisputeRow) :
    M (result SolverDisputeInfo MostroError) :=
  keys <-? Ret (map_err (fun _ => MostroInternalErr InvalidPubkey) (is_full_privacy_order order)) ;;
  let '(normal_buyer_idkey, normal_seller_idkey) := keys in
  buyer <-? rated_user normal_buyer_idkey ;;
  seller <-? rated_user normal_seller_idkey ;;
  match o_seller_dispute order, o_buyer_dispute order with
  | true, false =>
      initiator <-? Ret (map_err MostroInternalErr (get_seller_pubkey order)) ;;
      Ret (Ok (mkSolverInfo order dispute initiator buyer seller))
  | false, true =>
      initiator <-? Ret (map_err MostroInternalErr (get_buyer_pubkey order)) ;;
      Ret (Ok (mkSolverInfo order dispute initiator seller buyer))
  | _, _ => Ret (Err (MostroInternalErr DisputeEventError))
  end.

Definition pubkey_event_can_solve (ev_pubkey : string) (status : DisputeStatus)
    (current_solver_pubkey : option string) : M bool :=
  if str_eqb ev_pubkey node_pubkey &&
     (bool_decide (status = DInProgress) || bool_decide (status = DInitiated))
  then Ret true
  else
    solver <- find_solver_pubkey ev_pubkey ;;
    if negb (is_ok solver) then Ret false
    else if bool_decide (status = DInitiated) then Ret true
    else if negb (bool_decide (status = DInProgress)) then Ret false
    else
      match current_solver_pubkey with
      | None => Ret false
      | Some current =>
          if str_eqb current ev_pubkey then Ret true
          else
            can_write <- user_has_solver_write_permission ev_pubkey ;;
            match can_write with
            | Ok true =>
                current_solver <- find_solver_pubkey current ;;
                Ret (match current_solver with
                     | Ok u => negb (is_solver u =? 0) && (category u =? SOLVER_CATEGORY_READ_ONLY)
                     | Err _ => false
                     end)
            | _ => Ret false
            end
      end.

(** [Message::new_order] or [Message::new_dispute], as JSON. *)
Definition message_json (id : option Uuid) (request_id trade_index : option Z) (action : Action)
    (payload : option Payload) : result string string :=
  msg_as_json (mkMessage id request_id trade_index action payload).

Definition admin_take_dispute_action (msg : Message) (event : UnwrappedMessage) :
    M (result unit MostroError) :=
  let request_id := m_request_id msg in
  dispute <-? get_dispute msg ;;
  status <-? Ret (map_err (fun _ => MostroInternalErr InvalidDisputeId)
                    (dispute_status_from_str (d_status dispute))) ;;
  can_solve <- pubkey_event_can_solve (u_identity event) status (d_solver_pubkey dispute) ;;
  if negb can_solve then Ret (Err (MostroCantDo CantDoInvalidPubkey))
  else
    row <-? find_order_by_id (d_order_id dispute) ;;
    order <-? Ret (ok_or row (MostroCantDo NotFound)) ;;
    now <- ask Now ;;
    let dispute := dispute <| d_status := status_to_string InProgress |>
                           <| d_solver_pubkey := Some (u_identity event) |>
                           <| d_taken_at := now |> in
    _ <-? sql_or_db_error (dispute_update_stmt dispute) ;;
    initiator <-? Ret (ok_or (dispute_initiator order) (MostroInternalErr DisputeEventError)) ;;
    built <- ask (NewDisputeEvent (d_id dispute) (status_to_string InProgress) initiator
                    (d_created_at dispute)) ;;
    dispute_event <-? Ret (map_err (fun e => MostroInternalErr (NostrError e)) built) ;;
    dispute_info <-? prepare_solver_info_message order dispute ;;
    message <-? Ret (map_err (fun _ => MostroInternalErr MessageSerializationError)
                  (message_json (Some (d_id dispute)) request_id None AdminTookDispute
                     (Some (PlDispute (d_id dispute) (Some dispute_info))))) ;;
    told <- send_dm (u_identity event) message ;;
    _ <-? Ret (map_err (fun e => MostroInternalErr (NostrError e)) told) ;;
    msg_to_users <-? Ret (map_err (fun _ => MostroInternalErr MessageSerializationError)
                       (message_json (Some (o_id order)) request_id None AdminTookDispute
                          (Some (PlPeer (u_identity event) None)))) ;;
    buyer_pubkey <-? Ret (map_err MostroInternalErr (get_buyer_pubkey order)) ;;
    told <- send_dm buyer_pubkey msg_to_users ;;
    _ <-? Ret (map_err (fun e => MostroInternalErr (NostrError e)) told) ;;
    seller_pubkey <-? Ret (map_err MostroInternalErr (get_seller_pubkey order)) ;;
    told <- send_dm seller_pubkey msg_to_users ;;
    _ <-? Ret (map_err (fun e => MostroInternalErr (NostrError e)) told) ;;
    sent <- ask (SendDisputeEvent (d_id dispute) dispute_event) ;;
    Ret (map_err (fun e => MostroInternalErr (NostrError e)) sent).

(** ** [admin_add_solver.rs] *)

(** [str::trim], on ASCII white space. *)
Definition is_space (c : ascii) : bool :=
  let n := Ascii.nat_of_ascii c in (n =? 32)%nat || ((9 <=? n)%nat && (n <=? 13)%nat).

Fixpoint trim_start (s : list ascii) : list ascii :=
  match s with
  | c :: s' => if is_space c then trim_start s' else s
  | [] => []
  end.

Definition trim_chars (s : list ascii) : list ascii := rev (trim_start (rev (trim_start s))).

Definition trim (s : string) : string :=
  String.string_of_list_ascii (trim_chars (String.list_ascii_of_string s)).

(** [str::split(':')]: never empty. *)
Fixpoint split_colon (s : string) : list string :=
  match s with
  | EmptyString => [EmptyString]
  | String c s' =>
      if Ascii.eqb c ":" then EmptyString :: split_colon s'
      else match split_colon s' with
           | part :: parts => String c part :: parts
           | [] => [String c EmptyString]
           end
  end.

Definition solver_category (part : option string) : result Z MostroError :=
  match option_map trim part with
  | None => Ok SOLVER_CATEGORY_READ_WRITE
  | Some p =>
      if str_eqb p "read" then Ok SOLVER_CATEGORY_READ_ONLY
      else if str_eqb p "read-write" || str_eqb p "write" then Ok SOLVER_CATEGORY_READ_WRITE
      else Err (MostroCantDo InvalidParameters)
  end.

Definition parse_solver_payload (payload : Payload) : result (string * Z) MostroError :=
  match payload with
  | PlTextMessage p =>
      let raw := trim p in
      if str_eqb raw "" then Err (MostroCantDo InvalidTextMessage)
      else
        let parts := split_colon raw in
        let npub := trim (default "" (head parts)) in
        if str_eqb npub "" then Err (MostroCantDo InvalidTextMessage)
        else
          match solver_category (parts !! 1%nat) with
          | Err e => Err e
          | Ok category =>
              if is_some (parts !! 2%nat) then Err (MostroCantDo InvalidParameters)
              else Ok (npub, category)
          end
  | _ => Err (MostroCantDo InvalidTextMessage)
  end.

Definition admin_add_solver_action (msg : Message) (event : UnwrappedMessage) :
    M (result unit MostroError) :=
  payload <-? Ret (ok_or (m_payload msg) (MostroCantDo InvalidTextMessage)) ;;
  if negb (str_eqb (u_identity event) node_pubkey) then Ret (Err (MostroInternalErr InvalidPubkey))
  else
    let trade_index := default 0 (m_trade_index msg) in
    parsed <-? Ret (parse_solver_payload payload) ;;
    let '(npubkey, category) := parsed in
    public_key <-? Ret (ok_or (from_bech32 npubkey) (MostroInternalErr InvalidPubkey)) ;;
    created <- add_new_user (user_new public_key 0 1 0 category trade_index) ;;
    _ <-? Ret (wrap_err DbAccessError created) ;;
    message <-? Ret (map_err (fun _ => MostroInternalErr MessageSerializationError)
                  (message_json None (m_request_id msg) None AdminAddSolver None)) ;;
    told <- send_dm (u_sender event) message ;;
    Ret (map_err (fun e => MostroInternalErr (NostrError e)) told).
End Disputes.
