(* ===== verification/BondPayout.v ===== *)
(** * Paying out slashed bonds

    [src/app/bond/payout.rs]: the scheduler cycle over [PendingPayout] rows
    and the handler of the winner's [AddBondInvoice] reply.  Each guarded
    [UPDATE] is a definition of its own ([*_stmt]). *)

From S2P Require Import Prelude Float64 Config BondTypes BondMath Effects Model.
From S2P Require Import Lightning BondDb.

Open Scope Z_scope.
Open Scope prog_scope.

(** ** Vocabulary *)

Inductive StreamOutcome : Type :=
| StreamSucceeded
| StreamFailed (reason : string)
| StreamEnded.

Inductive PaymentFailureKind : Type := Terminal | Indeterminate.

Inductive SendVerdict : Type :=
| Settled
| Failure (kind : PaymentFailureKind) (cause : string).

Inductive InvoiceApplyOutcome : Type := Persisted | Resurrected | Rejected.

#[export] Instance PaymentFailureKind_eq_dec : EqDecision PaymentFailureKind.
Proof. solve_decision. Defined.

Definition SLASH_CAS_MAX_ATTEMPTS : nat := 5.

Definition missing {A} (what : string) : result A MostroError :=
  Err (MostroInternalErr (UnexpectedError ("bond in PendingPayout missing " +:+ what))).

(** ** Statements *)

(** [UPDATE bonds SET state = 'forfeited' WHERE id = ? AND state =
    'pending-payout' AND payout_invoice IS NULL]. *)
Definition forfeit_stmt (i : Uuid) : DB -> DB * Z :=
  update_bonds (fun b => with_id_state i PendingPayout b && is_none (payout_invoice b))
    (fun b => b <| state := state_to_string Forfeited |>).

(** [UPDATE bonds SET state = 'slashed' WHERE id = ? AND state =
    'pending-payout']. *)
Definition finalize_stmt (i : Uuid) : DB -> DB * Z :=
  update_bonds (with_id_state i PendingPayout)
    (fun b => b <| state := state_to_string Slashed |>).

Definition request_bump_stmt (i : Uuid) (now : Z) : DB -> DB * Z :=
  update_bonds (with_id_state i PendingPayout)
    (fun b => b <| invoice_request_attempts := invoice_request_attempts b + 1 |>
                <| last_invoice_request_at := Some now |>).

Definition persist_hash_stmt (i : Uuid) (fee_cap : Z) (hash : string) : DB -> DB * Z :=
  update_bonds (with_id_state i PendingPayout)
    (fun b => b <| payout_routing_fee_sats := Some fee_cap |>
                <| payout_payment_hash := Some hash |>).

Definition attempts_stmt (i : Uuid) (n : Z) : DB -> DB * Z :=
  update_bonds (with_id_state i PendingPayout) (fun b => b <| payout_attempts := n |>).

Definition rearm_stmt (i : Uuid) : DB -> DB * Z :=
  update_bonds (with_id_state i PendingPayout)
    (fun b => b <| payout_invoice := None |>
                <| payout_routing_fee_sats := None |>
                <| payout_payment_hash := None |>
                <| payout_attempts := 0 |>
                <| last_invoice_request_at := None |>).

Definition fail_stmt (i : Uuid) : DB -> DB * Z :=
  update_bonds (with_id_state i PendingPayout)
    (fun b => b <| state := state_to_string Failed |>).

Definition persist_invoice_stmt (i : Uuid) (invoice : string) : DB -> DB * Z :=
  update_bonds (fun b => with_id_state i PendingPayout b && is_none (payout_invoice b))
    (fun b => b <| payout_invoice := Some invoice |>
                <| invoice_request_attempts := 0 |>).

Definition resurrect_stmt (i : Uuid) (invoice : string) : DB -> DB * Z :=
  update_bonds (with_id_state i Failed)
    (fun b => b <| state := state_to_string PendingPayout |>
                <| payout_invoice := Some invoice |>
                <| payout_attempts := 0 |>
                <| invoice_request_attempts := 0 |>
                <| payout_payment_hash := None |>).

(** [SELECT * FROM bonds WHERE order_id = ? AND (state = 'pending-payout' OR
    state = 'failed') ORDER BY slashed_at DESC]: NULLs sort last. *)
Definition recoverable_bonds (o : Uuid) (db : DB) : list Bond :=
  select_ordered (fun b => N.eqb (order_id b) o && (state_is PendingPayout b || state_is Failed b))
    (fun b => match slashed_at b with Some t => - t | None => 2 ^ 63 end) (bonds db).

(** ** Pure parts *)

Definition counterparty_share_sats (bond : Bond) : result Z MostroError :=
  match node_share_sats bond with
  | None => missing "node_share_sats"
  | Some node_share =>
      if (0 <=? node_share) && (node_share <=? amount_sats bond)
      then Ok (amount_sats bond - node_share)
      else Err (MostroInternalErr (UnexpectedError
             "bond in PendingPayout has node_share_sats outside [0, amount] (invariant violation)"))
  end.

(** The drain loop: the first terminal status of the stream. *)
Fixpoint drain (updates : list PaymentUpdate) : StreamOutcome :=
  match updates with
  | [] => StreamEnded
  | u :: rest =>
      match pu_status u with
      | Some PSucceeded => StreamSucceeded
      | Some PFailed => StreamFailed ("payment failed: reason " +:+ pu_failure_reason u)
      | _ => drain rest
      end
  end.

(** [send_outcome]: [Err] is the elapsed bound. *)
Definition classify_send_verdict `{Lib} (send_outcome : result (result unit MostroError) unit)
    (stream : StreamOutcome) : SendVerdict :=
  match stream with
  | StreamSucceeded => Settled
  | StreamFailed msg => Failure Terminal msg
  | StreamEnded =>
      match send_outcome with
      | Err _ => Failure Indeterminate "send_payment reached no terminal state after 75s"
      | Ok (Err e) => Failure Indeterminate (error_to_string e)
      | Ok (Ok _) => Failure Indeterminate "payment stream ended without terminal status"
      end
  end.

Definition parse_reason (bond : Bond) : option BondSlashReason :=
  match slashed_reason bond with
  | None => None
  | Some s => match reason_from_str s with Ok r => Some r | Err _ => None end
  end.

Section Payout.
Context `{Lib} (settings : Settings).

Definition parse_recipient (s : string) : result string MostroError :=
  map_err (fun e => MostroInternalErr (UnexpectedError e)) (pubkey_from_str s).

Definition resolve_recipient (order : Order) (bond : Bond) :
    result (option string) MostroError :=
  let recipient_str :=
    match o_buyer_pubkey order, o_seller_pubkey order with
    | Some b, Some s =>
        if str_eqb (pubkey bond) b then Some s
        else if str_eqb (pubkey bond) s then Some b
        else None
    | _, _ => None
    end in
  match recipient_str with
  | None => Ok None
  | Some s => match parse_recipient s with Ok pk => Ok (Some pk) | Err e => Err e end
  end.

(** A maker-refund row is owed to the maker itself. *)
Definition resolve_payout_recipient (order : Order) (bond : Bond) :
    result (option string) MostroError :=
  if is_some (parent_bond_id bond) && is_none (child_order_id bond) then
    match parse_recipient (pubkey bond) with Ok pk => Ok (Some pk) | Err e => Err e end
  else resolve_recipient order bond.

Definition build_payout_small_order (order : Order) (counterparty_share : Z) :
    result SmallOrder MostroError :=
  match get_order_kind order with
  | Err e => Err (MostroInternalErr e)
  | Ok order_kind =>
      Ok (small_order (Some (o_id order)) (Some order_kind) None counterparty_share
            (o_fiat_code order) (o_min_amount order) (o_max_amount order)
            (o_fiat_amount order) (o_payment_method order) (o_premium order))
  end.

(** ** Notifications *)

Definition enqueue_payout_ack (order : Order) (action : Action) (recipient : string)
    (counterparty_share : Z) : M unit :=
  match build_payout_small_order order counterparty_share with
  | Err _ => Ret tt
  | Ok small =>
      enqueue_order_msg None (Some (o_id order)) action (Some (PlOrder small)) recipient None
  end.

Definition notify_invoice_received (bond : Bond) (recipient : string)
    (counterparty_share : Z) : M unit :=
  order <- find_order_by_id (order_id bond) ;;
  match order with
  | Ok (Some order) =>
      enqueue_payout_ack order BondInvoiceAccepted recipient counterparty_share
  | _ => Ret tt
  end.

Definition notify_payout_completed (bond : Bond) (counterparty_share : Z) : M unit :=
  order <- find_order_by_id (order_id bond) ;;
  match order with
  | Ok (Some order) =>
      match parse_reason bond with
      | None => Ret tt
      | Some _ =>
          match resolve_payout_recipient order bond with
          | Ok (Some recipient) =>
              enqueue_payout_ack order BondPayoutCompleted recipient counterparty_share
          | _ => Ret tt
          end
      end
  | _ => Ret tt
  end.

(** ** The scheduler's steps *)

Definition child_payout_blocked_by_locked_parent (bond : Bond) :
    M (result bool MostroError) :=
  match parent_bond_id bond with
  | None => Ret (Ok false)
  | Some parent_id =>
      parent <-? find_bond_by_id parent_id ;;
      match parent with
      | Some parent => Ret (Ok (str_eqb (state parent) (state_to_string Locked)))
      | None => Ret (Ok true)
      end
  end.

Definition forfeit_bond (bond : Bond) : M (result unit MostroError) :=
  _ <-? sql_or_db_error (forfeit_stmt (id bond)) ;; Ret (Ok tt).

Definition finalize_node_only (bond : Bond) : M (result unit MostroError) :=
  _ <-? sql_or_db_error (finalize_stmt (id bond)) ;; Ret (Ok tt).

Definition request_payout_invoice (bond : Bond) (invoice_window_seconds : Z) :
    M (result unit MostroError) :=
  now <- ask Now ;;
  let too_soon := match last_invoice_request_at bond with
                  | Some last => now - last <? invoice_window_seconds
                  | None => false
                  end in
  if too_soon then Ret (Ok tt)
  else
    order <-? find_order_by_id (order_id bond) ;;
    match order with
    | None => Ret (Ok tt)
    | Some order =>
        _ <-? Ret (ok_or (parse_reason bond) (MostroInternalErr (UnexpectedError
                 "bond in PendingPayout has unparseable slashed_reason"))) ;;
        recipient <-? Ret (resolve_payout_recipient order bond) ;;
        match recipient with
        | None => Ret (Ok tt)
        | Some recipient_pubkey =>
            counterparty_share <-? Ret (counterparty_share_sats bond) ;;
            slashed_at <-? Ret (match slashed_at bond with
                                | Some t => Ok t
                                | None => missing "slashed_at"
                                end) ;;
            small <-? Ret (build_payout_small_order order counterparty_share) ;;
            rows <-? sql_or_db_error (request_bump_stmt (id bond) now) ;;
            if rows =? 0 then Ret (Ok tt)
            else
              enqueue_order_msg None (Some (o_id order)) AddBondInvoice
                (Some (PlBondPayoutRequest small slashed_at)) recipient_pubkey None ;;;
              Ret (Ok tt)
        end
    end.

(** The bounded retry of the success compare-and-swap; the back-off between
    attempts has no effect on the state. *)
Fixpoint slash_after_success_loop (attempts : nat) (last_err : string) (bond : Bond)
    (counterparty_share : Z) : M (result unit MostroError) :=
  match attempts with
  | O => Ret (Err (MostroInternalErr (DbAccessError last_err)))
  | S attempts' =>
      r <- sql (finalize_stmt (id bond)) ;;
      match r with
      | Ok rows =>
          (if rows =? 1 then notify_payout_completed bond counterparty_share else Ret tt) ;;;
          Ret (Ok tt)
      | Err e => slash_after_success_loop attempts' e bond counterparty_share
      end
  end.

Definition slash_after_success (bond : Bond) (counterparty_share : Z) :
    M (result unit MostroError) :=
  slash_after_success_loop SLASH_CAS_MAX_ATTEMPTS "<no underlying error captured>" bond
    counterparty_share.

Definition on_send_payment_failure (bond : Bond) (max_retries claim_window_seconds : Z)
    (kind : PaymentFailureKind) (cause : string) : M (result unit MostroError) :=
  let new_attempts := Z.min (payout_attempts bond + 1) max_retries in
  _ <-? sql_or_db_error (attempts_stmt (id bond) new_attempts) ;;
  if new_attempts <? max_retries then Ret (Ok tt)
  else if bool_decide (kind = Indeterminate) then Ret (Ok tt)
  else
    now <- ask Now ;;
    let within_window := match slashed_at bond with
                         | Some t => now - t <? claim_window_seconds
                         | None => false
                         end in
    if within_window then
      _ <-? sql_or_db_error (rearm_stmt (id bond)) ;; Ret (Ok tt)
    else
      _ <-? sql_or_db_error (fail_stmt (id bond)) ;; Ret (Ok tt).

(** What the entry reconciliation decides for the current invoice. *)
Inductive Reconciled : Type := RPaid | RFailed | RInFlight | RUnknown.

Definition reconcile_payout (bond : Bond) (hash : list Z) : M Reconciled :=
  match payout_payment_hash bond with
  | None => Ret RUnknown
  | Some persisted =>
      if str_eqb persisted (bytes_to_string hash) then
        st <- lookup_payment_status hash ;;
        Ret (match st with
             | Ok (Some PSucceeded) => RPaid
             | Ok (Some PFailed) => RFailed
             | Ok (Some PInFlight) => RInFlight
             | Ok (Some PUnknown) | Ok None | Err _ => RUnknown
             end)
      else Ret RUnknown
  end.

(** The joint outcome of the bounded send and the drain. *)
Definition send_and_drain (invoice : string) (counterparty_share : Z) : M SendVerdict :=
  sent <- send_payment settings invoice counterparty_share ;;
  Ret (match sent with
       | Err e => classify_send_verdict (Ok (Err e)) StreamEnded
       | Ok s =>
           classify_send_verdict (if ps_elapsed s then Err tt else Ok (Ok tt))
             (drain (ps_updates s))
       end).

Definition pay_counterparty (bond : Bond) (invoice : string)
    (max_retries claim_window_seconds : Z) : M (result unit MostroError) :=
  counterparty_share <-? Ret (counterparty_share_sats bond) ;;
  match decode_invoice invoice with
  | Err _ =>
      on_send_payment_failure bond max_retries claim_window_seconds Terminal
        "payout invoice decode failed"
  | Ok decoded =>
      let hash := payment_hash decoded in
      rec <- reconcile_payout bond hash ;;
      match rec with
      | RPaid => slash_after_success bond counterparty_share
      | RFailed =>
          on_send_payment_failure bond max_retries claim_window_seconds Terminal
            "tracked payment reported Failed on reconciliation"
      | RInFlight => Ret (Ok tt)
      | RUnknown =>
          let fee_cap := routing_fee_cap_sats (get_mostro settings) counterparty_share in
          rows <-? sql_or_db_error
                    (persist_hash_stmt (id bond) fee_cap (bytes_to_string hash)) ;;
          if rows =? 0 then Ret (Ok tt)
          else
            verdict <- send_and_drain invoice counterparty_share ;;
            match verdict with
            | Settled => slash_after_success bond counterparty_share
            | Failure kind msg =>
                on_send_payment_failure bond max_retries claim_window_seconds kind msg
            end
      end
  end.

Definition claim_window : Z :=
  match get_bond settings with
  | Some c => payout_claim_window_days c * 86400
  | None => 15 * 86400
  end.
Definition invoice_window : Z :=
  match get_bond settings with
  | Some c => payout_invoice_window_seconds c
  | None => 300
  end.
Definition retries_max : Z :=
  match get_bond settings with Some c => payout_max_retries c | None => 5 end.

Definition process_one_bond (bond : Bond) : M (result unit MostroError) :=
  blocked <-? child_payout_blocked_by_locked_parent bond ;;
  if blocked : bool then Ret (Ok tt)
  else
    now <- ask Now ;;
    slashed_at <-? Ret (match slashed_at bond with
                        | Some t => Ok t
                        | None => missing "slashed_at"
                        end) ;;
    if is_none (payout_invoice bond) && (claim_window <=? now - slashed_at) then
      forfeit_bond bond
    else
      counterparty_share <-? Ret (counterparty_share_sats bond) ;;
      if counterparty_share <=? 0 then finalize_node_only bond
      else
        match payout_invoice bond with
        | None => request_payout_invoice bond invoice_window
        | Some invoice => pay_counterparty bond invoice retries_max claim_window
        end.

Definition run_bond_payout_cycle : M unit :=
  bonds <- find_bonds_by_state PendingPayout ;;
  match bonds with
  | Err _ => Ret tt
  | Ok bonds => for_each bonds (fun bond => process_one_bond bond ;;; Ret tt)
  end.

(** The scheduler's job ([src/scheduler.rs]): connect, then cycle.  The two
    bounds cut the endless loops; the pauses between rounds have no effect on
    the state. *)
Fixpoint job_connect (tries : nat) (k : M unit) : M unit :=
  match tries with
  | O => Ret tt
  | S tries' =>
      client <- lnd_new ;;
      match client with
      | Ok _ => k
      | Err _ => job_connect tries' k
      end
  end.

Fixpoint payout_ticks (ticks : nat) : M unit :=
  match ticks with
  | O => Ret tt
  | S ticks' => run_bond_payout_cycle ;;; payout_ticks ticks'
  end.

Definition job_process_bond_payouts (tries ticks : nat) : M unit :=
  job_connect tries (payout_ticks ticks).

(** ** The winner's reply *)

Definition apply_payout_invoice (bond : Bond) (invoice : string)
    (now claim_window_seconds : Z) : M (result InvoiceApplyOutcome MostroError) :=
  match state_from_str (state bond) with
  | Ok PendingPayout =>
      rows <-? sql_or_db_error (persist_invoice_stmt (id bond) invoice) ;;
      Ret (Ok (if rows =? 0 then Rejected else Persisted))
  | Ok Failed =>
      match slashed_at bond with
      | None => Ret (Ok Rejected)
      | Some t =>
          if claim_window_seconds <=? saturating_sub now t then Ret (Ok Rejected)
          else
            rows <-? sql_or_db_error (resurrect_stmt (id bond) invoice) ;;
            Ret (Ok (if rows =? 0 then Rejected else Resurrected))
      end
  | _ => Ret (Ok Rejected)
  end.

(** The rows of [bonds] whose recipient is [sender]; [Err] as soon as a
    recipient cannot be parsed. *)
Fixpoint recipient_matches (order : Order) (sender : string) (bs : list Bond) :
    result (list Bond) MostroError :=
  match bs with
  | [] => Ok []
  | b :: rest =>
      match parse_reason b with
      | None => recipient_matches order sender rest
      | Some _ =>
          match resolve_payout_recipient order b with
          | Err e => Err e
          | Ok (Some r) =>
              match recipient_matches order sender rest with
              | Ok l => Ok (if str_eqb r sender then b :: l else l)
              | Err e => Err e
              end
          | Ok None => recipient_matches order sender rest
          end
      end
  end.

Definition share_is (target : Z) (b : Bond) : bool :=
  match counterparty_share_sats b with Ok s => s =? target | Err _ => false end.

(** Disambiguation by the invoice amount when several debts share the
    recipient. *)
Definition pick_match (matches : list Bond) (expected : option Z) : option Bond :=
  match matches, expected with
  | _ :: _ :: _, Some target =>
      match List.find (share_is target) matches with
      | Some b => Some b
      | None => head matches
      end
  | _, _ => head matches
  end.

Definition find_recoverable_bond_for_recipient (order_id : Uuid) (sender : string)
    (expected_share_sats : option Z) : M (result (option Bond) MostroError) :=
  bonds <-? sql_or_db_error (query (recoverable_bonds order_id)) ;;
  match bonds with
  | [] => Ret (Ok None)
  | _ =>
      order <-? find_order_by_id order_id ;;
      match order with
      | None => Ret (Ok None)
      | Some order =>
          matches <-? Ret (recipient_matches order sender bonds) ;;
          Ret (Ok (pick_match matches expected_share_sats))
      end
  end.

(** The handler's inputs: the order id and payment request of the message
    and the sender of the event. *)
Definition add_bond_invoice_action (msg_id : option Uuid) (msg_pr : option string)
    (sender : string) : M (result unit MostroError) :=
  order_id <-? Ret (ok_or msg_id (MostroCantDo InvalidPayload)) ;;
  payment_request <-? Ret (match msg_pr with
                           | Some pr => if str_eqb pr "" then Err (MostroCantDo InvalidInvoice)
                                        else Ok pr
                           | None => Err (MostroCantDo InvalidInvoice)
                           end) ;;
  let invoice_share_sats :=
    match decode_invoice payment_request with
    | Ok inv => match amount_milli_satoshis inv with
                | Some msat => Some (msat / 1000)
                | None => None
                end
    | Err _ => None
    end in
  found <-? find_recoverable_bond_for_recipient order_id sender invoice_share_sats ;;
  match found with
  | None => Ret (Err (MostroCantDo NotAllowedByStatus))
  | Some bond =>
      counterparty_share <-? Ret (counterparty_share_sats bond) ;;
      if counterparty_share <=? 0 then Ret (Err (MostroCantDo NotAllowedByStatus))
      else
        valid <- is_valid_invoice settings payment_request (Some counterparty_share) (Some 0) ;;
        if negb (is_ok valid) then Ret (Err (MostroCantDo InvalidInvoice))
        else
          now <- ask Now ;;
          outcome <-? apply_payout_invoice bond payment_request now claim_window ;;
          match outcome with
          | Rejected => Ret (Err (MostroCantDo NotAllowedByStatus))
          | _ =>
              notify_invoice_received bond sender counterparty_share ;;;
              Ret (Ok tt)
          end
  end.
End Payout.
