(* ===== verification/OrderPayout.v ===== *)
(** * Paying the buyer

    [src/app/release.rs], the payout columns of [src/db.rs] and the two payout
    jobs of [src/scheduler.rs].  Once the seller's hold invoice is settled the
    daemon owes the buyer; [do_payment] claims the payout by writing the
    invoice's payment hash and a time stamp on the order, and the task it
    spawns sends the payment.  The claim is released on a verdict of LND only:
    by that task, or by the reconciler once the claim is older than the grace
    window.

    A task spawned by a function is returned by it as a value
    ([PayoutDispatch]), which [dispatch_payout] runs. *)

From S2P Require Import Prelude Float64 Config BondTypes BondMath Effects Model.
From S2P Require Import Lightning BondDb OrderDb.

Open Scope Z_scope.
Open Scope prog_scope.

(** ** Statements *)

Definition SETTLED : string := "settled-hold-invoice".

Definition is_settled (o : Order) : bool := str_eqb (o_status o) SETTLED.

Definition opt_str_eqb (a : option string) (s : string) : bool :=
  match a with Some t => str_eqb t s | None => false end.

(** SQL's [IS]. *)
Definition opt_z_is (a b : option Z) : bool := bool_decide (a = b).

(** [WHERE id = ? AND payout_payment_hash = ? AND payout_claimed_at IS ?]. *)
Definition holds_claim (order_id : Uuid) (payment_hash : string) (claimed_at : option Z)
    (o : Order) : bool :=
  N.eqb (o_id o) order_id && opt_str_eqb (o_payout_payment_hash o) payment_hash &&
  opt_z_is (o_payout_claimed_at o) claimed_at.

Definition claim_payout_stmt (order_id : Uuid) (payment_hash : string) (claimed_at : Z) :
    DB -> DB * Z :=
  update_orders
    (fun o => N.eqb (o_id o) order_id && is_none (o_payout_payment_hash o) && is_settled o)
    (fun o => o <| o_payout_payment_hash := Some payment_hash |>
                <| o_payout_claimed_at := Some claimed_at |>).

Definition touch_payout_stmt (order_id : Uuid) (payment_hash : string)
    (claimed_at : option Z) (refreshed_at : Z) : DB -> DB * Z :=
  update_orders
    (fun o => holds_claim order_id payment_hash claimed_at o && is_settled o)
    (fun o => o <| o_payout_claimed_at := Some refreshed_at |>).

Definition clear_payout_stmt (order_id : Uuid) (payment_hash : string)
    (claimed_at : option Z) : DB -> DB * Z :=
  update_orders (holds_claim order_id payment_hash claimed_at)
    (fun o => o <| o_payout_payment_hash := None |> <| o_payout_claimed_at := None |>).

Definition fail_payout_stmt (order_id : Uuid) (payment_hash : string)
    (claimed_at : option Z) : DB -> DB * Z :=
  update_orders (holds_claim order_id payment_hash claimed_at)
    (fun o => o <| o_payout_payment_hash := None |> <| o_payout_claimed_at := None |>
                <| o_failed_payment := true |>).

(** [UPDATE orders SET failed_payment = ?, payment_attempts = ? WHERE id = ?]. *)
Definition retries_stmt (order : Order) : DB -> DB * Z :=
  update_orders (fun o => N.eqb (o_id o) (o_id order))
    (fun o => o <| o_failed_payment := o_failed_payment order |>
                <| o_payment_attempts := o_payment_attempts order |>).

(** [UPDATE orders SET status = ?, event_id = ? WHERE id = ? AND status = ?]. *)
Definition success_stmt (updated : Order) (from : string) : DB -> DB * Z :=
  update_orders (order_with_status (o_id updated) from)
    (fun o => o <| o_status := o_status updated |> <| o_event_id := o_event_id updated |>).

(** [UPDATE orders SET buyer_invoice = ?, payment_attempts = 0
    WHERE id = ? AND status = ? AND payout_payment_hash IS NULL]. *)
Definition new_invoice_stmt (order : Order) (from : string) : DB -> DB * Z :=
  update_orders (fun o => order_with_status (o_id order) from o && is_none (o_payout_payment_hash o))
    (fun o => o <| o_buyer_invoice := o_buyer_invoice order |> <| o_payment_attempts := 0 |>).

Definition failed_payments (db : DB) : list Order :=
  List.filter (fun o => o_failed_payment o && is_settled o && is_none (o_payout_payment_hash o))
    (orders db).

Definition inflight_payouts (claimed_before : Z) (db : DB) : list (Uuid * string * option Z) :=
  omap (fun o =>
    match o_payout_payment_hash o with
    | Some h =>
        if is_settled o &&
           match o_payout_claimed_at o with Some t => t <=? claimed_before | None => true end
        then Some (o_id o, h, o_payout_claimed_at o) else None
    | None => None
    end) (orders db).

Definition find_failed_payment : M (result (list Order) MostroError) :=
  sql_or_db_error (query failed_payments).

Definition find_inflight_payouts (claimed_before : Z) :
    M (result (list (Uuid * string * option Z)) MostroError) :=
  sql_or_db_error (query (inflight_payouts claimed_before)).

Definition claim_order_payout (order_id : Uuid) (payment_hash : string) :
    M (result (option Z) MostroError) :=
  claimed_at <- ask Now ;;
  n <-? sql_or_db_error (claim_payout_stmt order_id payment_hash claimed_at) ;;
  Ret (Ok (if 0 <? n then Some claimed_at else None)).

Definition touch_order_payout_claim (order_id : Uuid) (payment_hash : string)
    (claimed_at : option Z) : M (result (option Z) MostroError) :=
  refreshed_at <- ask Now ;;
  n <-? sql_or_db_error (touch_payout_stmt order_id payment_hash claimed_at refreshed_at) ;;
  Ret (Ok (if 0 <? n then Some refreshed_at else None)).

Definition clear_order_payout (order_id : Uuid) (payment_hash : string)
    (claimed_at : option Z) : M (result bool MostroError) :=
  n <-? sql_or_db_error (clear_payout_stmt order_id payment_hash claimed_at) ;;
  Ret (Ok (0 <? n)).

Definition fail_order_payout (order_id : Uuid) (payment_hash : string)
    (claimed_at : option Z) : M (result bool MostroError) :=
  n <-? sql_or_db_error (fail_payout_stmt order_id payment_hash claimed_at) ;;
  Ret (Ok (0 <? n)).

(** ** The verdict on a send *)

Inductive DispatchVerdict : Type :=
| SendStreamEnded
| KeepMarker (cause : string)
| ReArm (cause : string).

Definition unwrap_or_false {E} (r : result bool E) : bool :=
  match r with Ok b => b | Err _ => false end.

Section OrderPayout.
Context `{Lib} `{PayoutLib} (settings : Settings).

(** [send_outcome]: the outer [Err] is the elapsed time bound. *)
Definition classify_dispatch (send_outcome : result (result unit MostroError) unit)
    (lookup : option (result (option PaymentStatus) MostroError)) : DispatchVerdict :=
  match send_outcome with
  | Ok (Ok _) => SendStreamEnded
  | Err _ => KeepMarker "no terminal state after 75s"
  | Ok (Err send_err) =>
      match lookup with
      | Some (Ok (Some PInFlight)) | Some (Ok (Some PSucceeded)) =>
          KeepMarker ("send errored (" +:+ error_to_string send_err +:+
            ") but LND reports the payment in flight or settled")
      | Some (Err lookup_err) =>
          KeepMarker ("send errored (" +:+ error_to_string send_err +:+
            ") and the status lookup failed (" +:+ error_to_string lookup_err +:+ ")")
      | Some (Ok _) | None => ReArm (error_to_string send_err)
      end
  end.

(** ** Bookkeeping of a failure *)

Definition check_failure_retries (order : Order) (request_id : option Z) :
    M (result Order MostroError) :=
  let retries_number := payment_attempts (get_ln settings) in
  let is_first_failure := o_payment_attempts order =? 0 in
  let order := count_failed_payment retries_number order in
  buyer_pubkey <-? Ret (map_err MostroInternalErr (get_buyer_pubkey order)) ;;
  _ <-? (if is_first_failure then
           enqueue_order_msg request_id (Some (o_id order)) PaymentFailed
             (Some (PlPaymentFailed (Z.max 0 (payment_attempts (get_ln settings) - 1))
                      (payment_retries_interval (get_ln settings)))) buyer_pubkey None ;;;
           Ret (Ok tt)
         else if retries_number <=? o_payment_attempts order then
           let failed := order <| o_amount := saturating_sub (o_amount order) (o_fee order) |> in
           if o_amount failed <=? 0 then Ret (Err (MostroCantDo InvalidAmount))
           else if negb (is_ok (kind_from_str (o_kind order))) then
             Ret (Err (MostroCantDo InvalidOrderKind))
           else if negb (is_ok (get_order_status failed)) then
             Ret (Err (MostroInternalErr InvalidOrderStatus))
           else
             enqueue_order_msg request_id (Some (o_id order)) AddInvoice
               (Some (PlOrder (small_order_from failed))) buyer_pubkey None ;;;
             Ret (Ok tt)
         else Ret (Ok tt)) ;;
  _ <-? sql_or_db_error (retries_stmt order) ;;
  Ret (Ok order).

Definition check_failure_retries_or_log (order : Order) (request_id : option Z) : M unit :=
  check_failure_retries order request_id ;;; Ret tt.

(** ** Finalization *)

Definition payment_success (order : Order) (buyer_pubkey : string) (request_id : option Z) :
    M (result bool MostroError) :=
  published <- update_order_event Success order ;;
  match published with
  | Err _ => Ret (Ok false)
  | Ok updated =>
      n <-? sql_or_db_error (success_stmt updated (status_to_string SettledHoldInvoice)) ;;
      if n =? 0 then Ret (Ok true)
      else
        enqueue_order_msg None (Some (o_id updated)) PurchaseCompleted None buyer_pubkey None ;;;
        enqueue_order_msg request_id (Some (o_id updated)) Rate None buyer_pubkey None ;;;
        Ret (Ok true)
  end.

(** ** Sending *)

(** What [do_payment] moves into the task it spawns. *)
Record PayoutDispatch : Type := mkDispatch {
  d_order : Order;
  d_request_id : option Z;
  d_payment_request : string;
  d_amount : Z;
  d_payout_hash : string;
  d_claimed_at : Z;
  d_buyer_pubkey : string
}.

(** The wait for a send permit: [beats] heartbeats elapse before it is
    granted.  [None] when the claim was lost, or could not be refreshed. *)
Fixpoint await_permit (beats : nat) (d : PayoutDispatch) (claimed_at : Z) : M (option Z) :=
  match beats with
  | O => Ret (Some claimed_at)
  | S beats' =>
      r <- touch_order_payout_claim (o_id (d_order d)) (d_payout_hash d) (Some claimed_at) ;;
      match r with
      | Ok (Some refreshed_at) => await_permit beats' d refreshed_at
      | Ok None | Err _ => Ret None
      end
  end.

(** The release of a claim after a failure: bookkeeping only by its owner. *)
Definition release_failed (d : PayoutDispatch) (claimed_at : Z) : M unit :=
  owned <- fail_order_payout (o_id (d_order d)) (d_payout_hash d) (Some claimed_at) ;;
  if unwrap_or_false owned then check_failure_retries_or_log (d_order d) (d_request_id d)
  else Ret tt.

(** The watcher's reaction to one update of the stream. *)
Definition watch_update (d : PayoutDispatch) (claimed_at : Z) (u : PaymentUpdate) : M unit :=
  match pu_status u with
  | Some PSucceeded =>
      finalized <- payment_success (d_order d) (d_buyer_pubkey d) (d_request_id d) ;;
      if unwrap_or_false finalized then
        clear_order_payout (o_id (d_order d)) (d_payout_hash d) (Some claimed_at) ;;; Ret tt
      else Ret tt
  | Some PFailed => release_failed d claimed_at
  | _ => Ret tt
  end.

Definition settle_verdict (d : PayoutDispatch) (claimed_at : Z) (v : DispatchVerdict) : M unit :=
  match v with
  | SendStreamEnded | KeepMarker _ => Ret tt
  | ReArm _ => release_failed d claimed_at
  end.

(** The status lookup after a send that errored. *)
Definition lookup_claimed (hash : string) :
    M (option (result (option PaymentStatus) MostroError)) :=
  match from_hex hash with
  | Ok bytes =>
      if bool_decide (length bytes = HASH_LEN) then
        st <- lookup_payment_status bytes ;; Ret (Some st)
      else Ret None
  | Err _ => Ret None
  end.

(** [amount as i64] of a [u64]. *)
Definition u64_as_i64 (a : Z) : Z := if a <? 2 ^ 63 then a else a - 2 ^ 64.

(** The spawned task.  The watcher acts on the updates of a stream that did
    start; the verdict acts on the table only when none did, so the two never
    compete. *)
Definition dispatch_payout (beats : nat) (d : PayoutDispatch) : M unit :=
  permit <- await_permit beats d (d_claimed_at d) ;;
  match permit with
  | None => Ret tt
  | Some claimed_at =>
      r <- touch_order_payout_claim (o_id (d_order d)) (d_payout_hash d) (Some claimed_at) ;;
      match r with
      | Ok (Some claimed_at) =>
          sent <- send_payment settings (d_payment_request d) (u64_as_i64 (d_amount d)) ;;
          match sent with
          | Ok stream =>
              for_each (ps_updates stream) (watch_update d claimed_at) ;;;
              settle_verdict d claimed_at
                (classify_dispatch (if ps_elapsed stream then Err tt else Ok (Ok tt)) None)
          | Err e =>
              lookup <- lookup_claimed (d_payout_hash d) ;;
              settle_verdict d claimed_at (classify_dispatch (Ok (Err e)) lookup)
          end
      | Ok None | Err _ => Ret tt
      end
  end.

(** [(order.amount as u64).saturating_sub(order.fee as u64)]. *)
Definition payout_amount (order : Order) : Z :=
  Z.max 0 (o_amount order mod 2 ^ 64 - o_fee order mod 2 ^ 64).

(** A Lightning address or LNURL is resolved to an invoice of the provider's
    choice, which has to pass the payout rules. *)
Definition resolve_payout_request (order : Order) (request_id : option Z) (amount : Z)
    (payment_request : string) : M (result string MostroError) :=
  let destination :=
    if is_lightning_address payment_request then Some (ln_address_to_string payment_request)
    else if is_lnurl payment_request then Some payment_request
    else None in
  match destination with
  | None => Ret (Ok payment_request)
  | Some destination =>
      outcome <- ask (ResolvLnAddress destination amount) ;;
      match outcome with
      | Ok pr =>
          if str_eqb pr "" then
            check_failure_retries_or_log order request_id ;;;
            Ret (Err (MostroInternalErr LnAddressParseError))
          else
            match decode_invoice pr with
            | Ok invoice =>
                valid <- validate_payout_invoice settings invoice ;;
                match valid with
                | Ok _ => Ret (Ok pr)
                | Err e => check_failure_retries_or_log order request_id ;;; Ret (Err e)
                end
            | Err _ =>
                check_failure_retries_or_log order request_id ;;;
                Ret (Err (MostroInternalErr LnAddressParseError))
            end
      | Err _ =>
          check_failure_retries_or_log order request_id ;;;
          Ret (Err (MostroInternalErr LnAddressParseError))
      end
  end.

(** [do_payment]: the task to spawn, none when another payout holds the
    claim. *)
Definition do_payment (order : Order) (request_id : option Z) :
    M (result (option PayoutDispatch) MostroError) :=
  payment_request <-? Ret (ok_or (o_buyer_invoice order) (MostroInternalErr InvoiceInvalidError)) ;;
  let amount := payout_amount order in
  if amount =? 0 then Ret (Err (MostroInternalErr InvoiceInvalidError))
  else
    payment_request <-? resolve_payout_request order request_id amount payment_request ;;
    buyer_pubkey <-? Ret (map_err MostroInternalErr (get_buyer_pubkey order)) ;;
    _ <-? lnd_new ;;
    payout_hash <-? Ret (match decode_invoice payment_request with
                         | Ok inv => Ok (bytes_to_string (payment_hash inv))
                         | Err _ => Err (MostroInternalErr InvoiceInvalidError)
                         end) ;;
    claimed <-? claim_order_payout (o_id order) payout_hash ;;
    match claimed with
    | None => Ret (Ok None)
    | Some claimed_at =>
        Ret (Ok (Some (mkDispatch order request_id payment_request amount payout_hash
                         claimed_at buyer_pubkey)))
    end.

(** A call of [do_payment] followed through the task it spawns. *)
Definition pay_order (beats : nat) (order : Order) (request_id : option Z) : M unit :=
  r <- do_payment order request_id ;;
  match r with
  | Ok (Some d) => dispatch_payout beats d
  | Ok None | Err _ => Ret tt
  end.

(** ** A replacement invoice ([src/app/add_invoice.rs]) *)

Definition pay_new_invoice (order : Order) (request_id : option Z) : M (result unit MostroError) :=
  n <-? sql_or_db_error (new_invoice_stmt order (status_to_string SettledHoldInvoice)) ;;
  if n =? 0 then Ret (Err (MostroCantDo NotAllowedByStatus))
  else
    buyer_pubkey <-? Ret (map_err MostroInternalErr
                            (get_buyer_pubkey (order <| o_payment_attempts := 0 |>))) ;;
    enqueue_order_msg request_id (Some (o_id order)) InvoiceUpdated None buyer_pubkey None ;;;
    Ret (Ok tt).

(** ** Reconciliation *)

Definition reconcile_inflight_payout (order_id : Uuid) (payout_payment_hash : string)
    (payout_claimed_at : option Z) : M (result unit MostroError) :=
  let hash_bytes := match from_hex payout_payment_hash with
                    | Ok bytes => if bool_decide (length bytes = HASH_LEN) then Some bytes else None
                    | Err _ => None
                    end in
  match hash_bytes with
  | None =>
      _ <-? fail_order_payout order_id payout_payment_hash payout_claimed_at ;; Ret (Ok tt)
  | Some hash_bytes =>
      st <- lookup_payment_status hash_bytes ;;
      match st with
      | Ok (Some PSucceeded) =>
          row <- find_order_by_id order_id ;;
          finalized <- (match row with
                        | Ok (Some order) =>
                            match get_buyer_pubkey order with
                            | Ok buyer_pubkey =>
                                r <- payment_success order buyer_pubkey None ;;
                                Ret (unwrap_or_false r)
                            | Err _ => Ret false
                            end
                        | _ => Ret false
                        end) ;;
          if (finalized : bool) then
            _ <-? clear_order_payout order_id payout_payment_hash payout_claimed_at ;; Ret (Ok tt)
          else Ret (Ok tt)
      | Ok (Some PFailed) | Ok (Some PUnknown) | Ok None =>
          pre <- find_order_by_id order_id ;;
          owned <-? fail_order_payout order_id payout_payment_hash payout_claimed_at ;;
          if (owned : bool) then
            match pre with
            | Ok (Some order) => check_failure_retries_or_log order None ;;; Ret (Ok tt)
            | _ => Ret (Ok tt)
            end
          else Ret (Ok tt)
      | Ok (Some PInFlight) | Err _ => Ret (Ok tt)
      end
  end.

Definition MIN_GRACE_SECS : Z := 30.
Definition PAYOUT_QUEUE_HEARTBEAT : Z := MIN_GRACE_SECS * 2 / 3.

Definition grace_secs : Z := Z.max (payment_retries_interval (get_ln settings)) MIN_GRACE_SECS.

(** One tick of [job_reconcile_inflight_payouts]. *)
Definition reconcile_tick : M unit :=
  now <- ask Now ;;
  found <- find_inflight_payouts (now - grace_secs) ;;
  match found with
  | Ok inflight =>
      for_each inflight (fun claim =>
        reconcile_inflight_payout claim.1.1 claim.1.2 claim.2 ;;; Ret tt)
  | Err _ => Ret tt
  end.

Fixpoint reconcile_ticks (ticks : nat) : M unit :=
  match ticks with
  | O => Ret tt
  | S ticks' => reconcile_tick ;;; reconcile_ticks ticks'
  end.

(** The job: connection attempts with back-off, then the ticks. *)
Fixpoint job_reconcile_inflight_payouts (tries ticks : nat) : M unit :=
  match tries with
  | O => Ret tt
  | S tries' =>
      r <- lnd_new ;;
      match r with
      | Ok _ => reconcile_ticks ticks
      | Err _ => job_reconcile_inflight_payouts tries' ticks
      end
  end.

(** One tick of [job_retry_failed_payments]: the tasks it spawned. *)
Fixpoint retry_payments (failed : list Order) : M (list PayoutDispatch) :=
  match failed with
  | [] => Ret []
  | order :: rest =>
      if o_payment_attempts order <? payment_attempts (get_ln settings) then
        r <- do_payment order None ;;
        spawned <- retry_payments rest ;;
        Ret (match r with Ok (Some d) => d :: spawned | _ => spawned end)
      else retry_payments rest
  end.

Definition job_retry_failed_payments_tick : M (list PayoutDispatch) :=
  found <- find_failed_payment ;;
  match found with
  | Ok failed => retry_payments failed
  | Err _ => Ret []
  end.
End OrderPayout.
