(* ===== verification/TradeFlow.v ===== *)
(** * A running trade

    [src/flow.rs], what the subscriber of a trade's hold invoice does on each
    notification of LND; [src/app/fiat_sent.rs]; [add_invoice_action] of
    [src/app/add_invoice.rs]; and the helpers of [src/util.rs], [src/db.rs]
    and [src/scheduler.rs] they share with the later stages. *)

From Stdlib Require Import QArith_base.
From S2P Require Import Prelude Float64 Config BondTypes BondMath Effects Model.
From S2P Require Import Lightning BondDb OrderDb Messages Users NewOrder Take OrderPayout Disputes.

Open Scope Z_scope.
Open Scope prog_scope.

(** ** Statements of [db.rs] *)

(** [SELECT * FROM orders WHERE hash = ?], read with [fetch_one]. *)
Definition order_by_hash (hash : string) (db : DB) : DB * result Order string :=
  (db, ok_or (select_one (fun o => bool_decide (o_hash o = Some hash)) (orders db)) no_rows).

Definition invoice_held_at_stmt (i : Uuid) (held_at : Z) : DB -> DB * Z :=
  update_orders (fun o => N.eqb (o_id o) i) (fun o => o <| o_invoice_held_at := held_at |>).

Definition find_order_by_hash (hash : string) : M (result Order MostroError) :=
  sql_row (order_by_hash hash).

Definition update_order_invoice_held_at_time (order_id : Uuid) (invoice_held_at : Z) :
    M (result bool MostroError) :=
  n <-? sql_or_db_error (invoice_held_at_stmt order_id invoice_held_at) ;; Ret (Ok (0 <? n)).

(** ** The deadline of an escrow ([util.rs]) *)

Definition SECS_PER_BLOCK : Z := 600.

(** [u32] arguments; the margin stays below the window. *)
Definition escrow_guard_window_secs (cltv_delta_blocks margin_blocks : Z) : Z :=
  let effective_margin :=
    if cltv_delta_blocks <=? margin_blocks then cltv_delta_blocks / 2 else margin_blocks in
  (cltv_delta_blocks - effective_margin) * SECS_PER_BLOCK.

Definition escrow_action_deadline_unix (invoice_held_at cltv_delta_blocks margin_blocks : Z) :
    option Z :=
  if invoice_held_at =? 0 then None
  else Some (invoice_held_at + escrow_guard_window_secs cltv_delta_blocks margin_blocks).

Definition past_deadline (settings : Settings) (order : Order) (now : Z) : bool :=
  match escrow_action_deadline_unix (o_invoice_held_at order)
          (hold_invoice_cltv_delta (get_ln settings))
          (escrow_deadline_margin_blocks (get_ln settings)) with
  | Some deadline => deadline <=? now
  | None => false
  end.

Section TradeFlow.
Context `{Lib} `{Core} `{PayoutLib} (settings : Settings).

(** ** Notices *)

Definition operating_days (now created_at : Z) : Z :=
  ((now - created_at mod 2 ^ 64) mod 2 ^ 64) / 86400.

Definition notify_taker_reputation (order : Order) : M (result unit MostroError) :=
  let is_buy := is_ok (is_buy_order order) in
  master_key <-? Ret (ok_or (if is_buy then o_master_seller_pubkey order
                             else o_master_buyer_pubkey order)
                        (MostroCantDo CantDoInvalidPubkey)) ;;
  user <- is_user_present master_key ;;
  reputation <- (match user with
                 | Ok u => now <- ask Now ;;
                           Ret (mkUserInfo (total_rating u) (total_reviews u)
                                  (operating_days now (user_created_at u)))
                 | Err _ => Ret (mkUserInfo (Fin 0%Q) 0 0)
                 end) ;;
  order_status <-? Ret (map_err MostroInternalErr (get_order_status order)) ;;
  let notify action receiver :=
    enqueue_order_msg None (Some (o_id order)) action (Some (PlPeer "" (Some reputation)))
      receiver None ;;; Ret (Ok tt) in
  match order_status with
  | WaitingBuyerInvoice =>
      if is_buy then Ret (Ok tt)
      else
        seller_pubkey <-? Ret (map_err MostroInternalErr (get_seller_pubkey order)) ;;
        notify PayInvoice seller_pubkey
  | WaitingPayment =>
      if is_buy then
        buyer_pubkey <-? Ret (map_err MostroInternalErr (get_buyer_pubkey order)) ;;
        notify AddInvoice buyer_pubkey
      else Ret (Err (MostroCantDo NotAllowedByStatus))
  | _ => Ret (Err (MostroCantDo NotAllowedByStatus))
  end.

(** [notify_users_canceled_order] ([src/scheduler.rs]). *)
Definition notify_users_canceled_order (updated_order old_order : Order)
    (maker_action : option Action) : M unit :=
  match get_order_kind old_order with
  | Err _ => Ret tt
  | Ok kind =>
      let taker := match kind with
                   | Buy => get_seller_pubkey old_order
                   | Sell => get_buyer_pubkey old_order
                   end in
      match get_creator_pubkey old_order, taker with
      | Ok maker_pubkey, Ok taker_pubkey =>
          let '(payload, maker_action) :=
            if bool_decide (maker_action = Some NewOrder)
            then (Some (PlOrder (small_order_from updated_order)), NewOrder)
            else (None, ActionCanceled) in
          enqueue_order_msg None (Some (o_id updated_order)) maker_action payload maker_pubkey
            None ;;;
          enqueue_order_msg None (Some (o_id updated_order)) ActionCanceled None taker_pubkey None
      | _, _ => Ret tt
      end
  end.

(** ** [flow.rs] *)

(** What both parties are told of the order. *)
Definition held_order_data (order : Order) (kind : Kind) : SmallOrder :=
  mkSmallOrder (Some (o_id order)) (Some kind) None (o_amount order) (o_fiat_code order)
    (o_min_amount order) (o_max_amount order) (o_fiat_amount order) (o_payment_method order)
    (o_premium order) (o_buyer_pubkey order) (o_seller_pubkey order) None
    (Some (o_created_at order)) (Some (o_expires_at order)).

(** The messages of an accepted escrow; the status the order moves to, with
    the order as it is published. *)
Definition announce_held (order : Order) (kind : Kind) (buyer_pubkey seller_pubkey : string)
    (request_id : option Z) : M (result (Status * Order) MostroError) :=
  let order_data := held_order_data order kind in
  match o_buyer_invoice order with
  | Some _ =>
      let order_data := order_data <| so_status := Some Active |> in
      enqueue_order_msg request_id (Some (o_id order)) BuyerTookOrder
        (Some (PlOrder (order_data <| so_amount := saturating_add (o_amount order) (o_fee order) |>)))
        seller_pubkey None ;;;
      enqueue_order_msg request_id (Some (o_id order)) HoldInvoicePaymentAccepted
        (Some (PlOrder (order_data <| so_amount := saturating_sub (o_amount order) (o_fee order) |>)))
        buyer_pubkey None ;;;
      Ret (Ok (Active, order))
  | None =>
      let order_data := order_data <| so_amount := so_amount order_data - o_fee order |>
                                   <| so_status := Some WaitingBuyerInvoice |>
                                   <| so_buyer_trade_pubkey := None |>
                                   <| so_seller_trade_pubkey := None |> in
      now <- ask Now ;;
      let order := set_timestamp_now now order in
      enqueue_order_msg request_id (Some (o_id order)) AddInvoice (Some (PlOrder order_data))
        buyer_pubkey None ;;;
      enqueue_order_msg request_id (Some (o_id order)) ActionWaitingBuyerInvoice None
        seller_pubkey None ;;;
      _ <-? notify_taker_reputation order ;;
      Ret (Ok (WaitingBuyerInvoice, order))
  end.

Definition is_pre_payment (s : Status) : bool :=
  match s with WaitingPayment | WaitingBuyerInvoice => true | _ => false end.

Definition hold_invoice_paid (hash : string) (request_id : option Z) :
    M (result unit MostroError) :=
  found <- find_order_by_hash hash ;;
  order <-? Ret (wrap_err DbAccessError found) ;;
  current_status <-? Ret (map_err MostroInternalErr (get_order_status order)) ;;
  if negb (is_pre_payment current_status) || negb (o_invoice_held_at order =? 0)
  then Ret (Ok tt)
  else
    buyer_pubkey <-? Ret (map_err (fun e => MostroInternalErr (NostrError
                            (service_error_to_string e))) (get_buyer_pubkey order)) ;;
    seller_pubkey <-? Ret (map_err (fun e => MostroInternalErr (NostrError
                             (service_error_to_string e))) (get_seller_pubkey order)) ;;
    order_kind <-? Ret (map_err MostroInternalErr (get_order_kind order)) ;;
    announced <-? announce_held order order_kind buyer_pubkey seller_pubkey request_id ;;
    let '(status, order) := announced in
    published <- update_order_event status order ;;
    (match published with
     | Ok updated_order => sql (order_update_stmt updated_order) ;;; Ret tt
     | Err _ => Ret tt
     end) ;;;
    now <- ask Now ;;
    stored <- update_order_invoice_held_at_time (o_id order) now ;;
    _ <-? Ret (wrap_err DbAccessError stored) ;;
    Ret (Ok tt).

Definition hold_invoice_settlement (hash : string) : M (result unit MostroError) :=
  _ <-? find_order_by_hash hash ;; Ret (Ok tt).

Definition is_escrow_backed (s : Status) : bool :=
  match s with Active | FiatSent | Dispute => true | _ => false end.

Definition hold_invoice_canceled (hash : string) : M (result unit MostroError) :=
  found <- find_order_by_hash hash ;;
  order <-? Ret (wrap_err DbAccessError found) ;;
  status <-? Ret (map_err MostroInternalErr (get_order_status order)) ;;
  now <- ask Now ;;
  if negb (is_escrow_backed status) || negb (past_deadline settings order now) then Ret (Ok tt)
  else
    for_each [get_buyer_pubkey order; get_seller_pubkey order] (fun party =>
      match party with
      | Ok party => enqueue_order_msg None (Some (o_id order)) HoldInvoicePaymentCanceled None
                      party None
      | Err _ => Ret tt
      end) ;;;
    if negb (bool_decide (status = Active)) then Ret (Ok tt)
    else
      published <- update_order_event Canceled order ;;
      match published with
      | Ok updated =>
          _ <-? sql_or_db_error (order_update_stmt updated) ;;
          notify_users_canceled_order updated order (Some ActionCanceled) ;;;
          Ret (Ok tt)
      | Err _ => Ret (Ok tt)
      end.

(** The subscriber spawned by [invoice_subscribe] ([src/util.rs]), for [n]
    notifications. *)
Fixpoint trade_subscriber (n : nat) (hash : list Z) (request_id : option Z) : M unit :=
  match n with
  | O => Ret tt
  | S n' =>
      update <- ask (LndInvoiceUpdate hash) ;;
      match update with
      | None => Ret tt
      | Some state =>
          (match state with
           | InvoiceAccepted =>
               keys <- ask GetKeys ;;
               match keys with
               | Ok _ => hold_invoice_paid (bytes_to_string hash) request_id ;;; Ret tt
               | Err _ => Ret tt
               end
           | InvoiceSettled => hold_invoice_settlement (bytes_to_string hash) ;;; Ret tt
           | InvoiceCanceled =>
               keys <- ask GetKeys ;;
               match keys with
               | Ok _ => hold_invoice_canceled (bytes_to_string hash) ;;; Ret tt
               | Err _ => Ret tt
               end
           | InvoiceOpen => Ret tt
           end) ;;;
          trade_subscriber n' hash request_id
      end
  end.

(** ** [fiat_sent.rs] *)

Definition fiat_sent_action (msg : Message) (event : UnwrappedMessage) :
    M (result unit MostroError) :=
  order <-? get_order msg ;;
  _ <-? Ret (map_err MostroCantDo (check_status order Active)) ;;
  if negb (match get_buyer_pubkey order with
           | Ok buyer => str_eqb buyer (u_sender event)
           | Err _ => false
           end)
  then Ret (Err (MostroCantDo CantDoInvalidPubkey))
  else
    next_trade <-? Ret (map_err MostroInternalErr (get_next_trade_key msg)) ;;
    published <- update_order_event FiatSent order ;;
    order_updated <-? Ret (wrap_err NostrError published) ;;
    seller_pubkey <-? Ret (map_err MostroInternalErr (get_seller_pubkey order)) ;;
    enqueue_order_msg None (Some (o_id order_updated)) FiatSentOk
      (Some (PlPeer (u_sender event) None)) seller_pubkey None ;;;
    enqueue_order_msg (m_request_id msg) (Some (o_id order_updated)) FiatSentOk
      (Some (PlPeer seller_pubkey None)) (u_sender event) None ;;;
    let order_updated :=
      match is_range_order order, next_trade with
      | true, Some (pubkey, index) =>
          order_updated <| o_next_trade_pubkey := Some pubkey |>
                        <| o_next_trade_index := Some index |>
      | _, _ => order_updated
      end in
    _ <-? sql_or_db_error (order_update_stmt order_updated) ;;
    Ret (Ok tt).

(** ** [add_invoice.rs] *)

Definition add_invoice_action (msg : Message) (event : UnwrappedMessage) :
    M (result unit MostroError) :=
  order <-? get_order msg ;;
  ord_status <-? Ret (map_err MostroInternalErr (get_order_status order)) ;;
  _ <-? Ret (map_err MostroInternalErr (get_order_kind order)) ;;
  buyer_pubkey <-? Ret (map_err MostroInternalErr (get_buyer_pubkey order)) ;;
  if negb (str_eqb buyer_pubkey (u_sender event)) then Ret (Err (MostroCantDo InvalidPeer))
  else
    invoice <-? validate_invoice settings msg order ;;
    let order := order <| o_buyer_invoice := invoice |> in
    match ord_status with
    | SettledHoldInvoice => pay_new_invoice order (m_request_id msg)
    | WaitingBuyerInvoice =>
        _ <-? notify_taker_reputation order ;;
        seller_pubkey <-? Ret (map_err MostroInternalErr (get_seller_pubkey order)) ;;
        match o_preimage order with
        | Some _ =>
            active_order <-? update_order_event Active order ;;
            _ <-? sql_or_db_error (order_update_stmt active_order) ;;
            let seller_order :=
              (small_order_from active_order)
                <| so_amount := saturating_add (o_amount active_order) (o_fee active_order) |>
                <| so_buyer_invoice := None |> in
            enqueue_order_msg None (Some (o_id active_order)) BuyerTookOrder
              (Some (PlOrder seller_order)) seller_pubkey None ;;;
            let buyer_order :=
              (small_order_from active_order)
                <| so_amount := saturating_sub (o_amount active_order) (o_fee active_order) |> in
            enqueue_order_msg (m_request_id msg) (Some (o_id active_order))
              HoldInvoicePaymentAccepted (Some (PlOrder buyer_order)) buyer_pubkey None ;;;
            Ret (Ok tt)
        | None =>
            shown <- show_hold_invoice settings None buyer_pubkey seller_pubkey order
                       (m_request_id msg) OriginBuyerInvoice ;;
            Ret (wrap_err HoldInvoiceError shown)
        end
    | _ => Ret (Err (MostroCantDo NotAllowedByStatus))
    end.

(** ** Settling the escrow ([util.rs]) *)

Definition settle_seller_hold_invoice (event : UnwrappedMessage) (is_admin : bool)
    (order : Order) : M (result unit MostroError) :=
  seller_pubkey <-? Ret (map_err (fun _ => MostroCantDo CantDoInvalidPubkey)
                           (get_seller_pubkey order)) ;;
  if negb is_admin && negb (str_eqb (u_sender event) seller_pubkey)
  then Ret (Err (MostroCantDo CantDoInvalidPubkey))
  else
    match o_preimage order with
    | Some preimage => settle_hold_invoice preimage
    | None => Ret (Err (MostroCantDo InvalidInvoice))
    end.
End TradeFlow.
