(* ===== verification/Release.v ===== *)
(** * Releasing the escrow, and the remainder of a range order

    [release_action] of [src/app/release.rs] with the functions that compute,
    store and announce the child of a range order: the part of the range that
    the trade did not use goes back to the book under the maker's next trade
    key. *)

From Stdlib Require Import QArith_base.
From S2P Require Import Prelude Float64 Config BondTypes BondMath Effects Model.
From S2P Require Import Lightning BondDb BondRelease BondSlash OrderDb Messages Users NewOrder Take.
From S2P Require Import OrderPayout Disputes TradeFlow.

Open Scope Z_scope.
Open Scope prog_scope.

(** [i64::checked_sub]. *)
Definition checked_sub (a b : Z) : option Z :=
  if (i64_min <=? a - b) && (a - b <=? i64_max) then Some (a - b) else None.

(** [UPDATE orders SET status = ?, event_id = ? WHERE id = ? AND status IN (...)]. *)
Definition settle_status_stmt (order : Order) (from : list string) : DB -> DB * Z :=
  update_orders (fun o => N.eqb (o_id o) (o_id order) && status_in from o)
    (fun o => o <| o_status := o_status order |> <| o_event_id := o_event_id order |>).

Section Release.
Context `{Lib} `{Core} `{PayoutLib} (settings : Settings).

(** ** Computing the remainder *)

Definition create_base_order (order : Order) : M (result Order MostroError) :=
  uuid <- ask NewUuid ;;
  let new_order := order <| o_id := uuid |>
                         <| o_status := status_to_string Pending |>
                         <| o_amount := 0 |>
                         <| o_hash := None |>
                         <| o_preimage := None |>
                         <| o_buyer_invoice := None |>
                         <| o_taken_at := 0 |>
                         <| o_invoice_held_at := 0 |>
                         <| o_range_parent_id := Some (o_id order) |>
                         <| o_next_trade_index := None |>
                         <| o_next_trade_pubkey := None |> in
  Ret (match get_order_kind new_order with
       | Ok Sell => Ok (new_order <| o_buyer_pubkey := None |>
                                  <| o_master_buyer_pubkey := None |>
                                  <| o_trade_index_buyer := None |>)
       | Ok Buy => Ok (new_order <| o_seller_pubkey := None |>
                                 <| o_master_seller_pubkey := None |>
                                 <| o_trade_index_seller := None |>)
       | Err e => Err (MostroInternalErr e)
       end).

(** The order with the identifier of its event, and that identifier. *)
Definition create_order_event (new_order : Order) : M (result (Order * string) MostroError) :=
  identity_pubkey <-? Ret (map_err MostroInternalErr
                        (if is_ok (is_sell_order new_order) then get_master_seller_pubkey new_order
                         else get_master_buyer_pubkey new_order)) ;;
  user <- is_user_present identity_pubkey ;;
  let reputation := match user with
                    | Ok u => (total_rating u, total_reviews u, user_created_at u)
                    | Err _ => (Fin 0%Q, 0, 0)
                    end in
  event_id <-? ask (NewChildOrderEvent new_order reputation) ;;
  Ret (Ok (new_order <| o_event_id := event_id |>, event_id)).

Definition order_for_equal (new_max : Z) (new_order : Order) :
    M (result (Order * string) MostroError) :=
  create_order_event (new_order <| o_fiat_amount := new_max |>
                                <| o_max_amount := None |> <| o_min_amount := None |>).

Definition order_for_greater (new_max : Z) (new_order : Order) :
    M (result (Order * string) MostroError) :=
  create_order_event (new_order <| o_max_amount := Some new_max |> <| o_fiat_amount := 0 |>).

Definition get_child_order (order : Order) : M (result (option (Order * string)) MostroError) :=
  match o_max_amount order, o_min_amount order with
  | Some max_amount, Some min_amount =>
      match checked_sub max_amount (o_fiat_amount order) with
      | Some new_max =>
          new_order <-? create_base_order order ;;
          if new_max =? min_amount then
            child <-? order_for_equal new_max new_order ;; Ret (Ok (Some child))
          else if min_amount <? new_max then
            child <-? order_for_greater new_max new_order ;; Ret (Ok (Some child))
          else Ret (Ok None)
      | None => Ret (Ok None)
      end
  | _, _ => Ret (Ok None)
  end.

(** ** Storing it *)

Definition handle_buy_child_order (child_order order : Order) (normal_buyer_idkey : option string) :
    result (Order * option string * option Z) MostroError :=
  match o_next_trade_pubkey order with
  | None => Err (MostroInternalErr (UnexpectedError "Next trade buyer pubkey is missing"))
  | Some next_buyer_pubkey =>
      let child_order :=
        child_order <| o_buyer_pubkey := Some next_buyer_pubkey |>
                    <| o_trade_index_buyer := o_next_trade_index order |>
                    <| o_creator_pubkey := next_buyer_pubkey |>
                    <| o_master_buyer_pubkey := Some (default next_buyer_pubkey normal_buyer_idkey) |> in
      Ok (child_order, o_buyer_pubkey child_order, o_trade_index_buyer child_order)
  end.

Definition handle_sell_child_order (child_order : Order) (next_trade : option (string * Z))
    (normal_seller_idkey : option string) : result (Order * option string * option Z) MostroError :=
  match next_trade with
  | None => Err (MostroInternalErr (UnexpectedError "Next trade seller pubkey is missing"))
  | Some (next_trade_pubkey, next_trade_index) =>
      match pubkey_from_str next_trade_pubkey with
      | Err _ => Err (MostroInternalErr InvalidPubkey)
      | Ok next_trade_pubkey =>
          let child_order :=
            child_order <| o_seller_pubkey := Some next_trade_pubkey |>
                        <| o_trade_index_seller := Some next_trade_index |>
                        <| o_creator_pubkey := next_trade_pubkey |>
                        <| o_master_seller_pubkey :=
                             Some (default next_trade_pubkey normal_seller_idkey) |> in
          Ok (child_order, o_seller_pubkey child_order, o_trade_index_seller child_order)
      end
  end.

Definition is_creator (k : option string) (order : Order) : bool :=
  bool_decide (k = Some (o_creator_pubkey order)).

Definition handle_child_order (child_order order : Order) (next_trade : option (string * Z))
    (request_id : option Z) : M (result unit MostroError) :=
  keys <-? Ret (map_err (fun _ => MostroInternalErr (UnexpectedError "Error creating order event"))
                  (is_full_privacy_order order)) ;;
  let '(normal_buyer_idkey, normal_seller_idkey) := keys in
  handled <-? Ret (
    if is_ok (is_buy_order order) && is_creator (o_buyer_pubkey order) order
    then handle_buy_child_order child_order order normal_buyer_idkey
    else if is_ok (is_sell_order order) && is_creator (o_seller_pubkey order) order
    then handle_sell_child_order child_order next_trade normal_seller_idkey
    else Err (MostroInternalErr (UnexpectedError "Invalid order type or creator"))) ;;
  let '(child_order, notification_pubkey, new_trade_index) := handled in
  let new_order := as_new_order child_order in
  destination <-? Ret (ok_or notification_pubkey (MostroInternalErr (UnexpectedError
    "Next trade index or pubkey is missing - user cannot be notified"))) ;;
  destination_pubkey <-? Ret (map_err (fun _ => MostroInternalErr (NostrError "Invalid pubkey"))
                                (pubkey_from_str destination)) ;;
  _ <-? sql_row (order_create_stmt child_order) ;;
  enqueue_order_msg request_id (so_id new_order) NewOrder (Some (PlOrder new_order))
    destination_pubkey new_trade_index ;;;
  Ret (Ok tt).

(** The remainder of the range goes to the book, or the range is over and its
    maker bond is resolved. *)
Definition spawn_child_or_close (order : Order) (next_trade : option (string * Z))
    (request_id : option Z) : M unit :=
  child <- get_child_order order ;;
  match child with
  | Ok (Some (child_order, event)) =>
      handled <- handle_child_order child_order order next_trade request_id ;;
      match handled with
      | Ok _ =>
          accepted <- ask (SendOrderEvent (o_id child_order) event) ;;
          if accepted : bool then Ret tt else ask (MarkPublishFailed (o_id child_order))
      | Err _ => resolve_range_maker_bond_at_close_or_warn order
      end
  | Ok None | Err _ => resolve_range_maker_bond_at_close_or_warn order
  end.

(** ** Releasing *)

(** The result carries the payout task to spawn. *)
Definition release_action (msg : Message) (event : UnwrappedMessage) :
    M (result (option PayoutDispatch) MostroError) :=
  let request_id := m_request_id msg in
  order <-? get_order msg ;;
  seller_pubkey <-? Ret (map_err MostroInternalErr (get_seller_pubkey order)) ;;
  buyer_pubkey <-? Ret (map_err MostroInternalErr (get_buyer_pubkey order)) ;;
  if negb (str_eqb seller_pubkey (u_sender event)) then Ret (Err (MostroCantDo InvalidPeer))
  else if negb (is_ok (check_status order FiatSent)) && negb (is_ok (check_status order Dispute))
  then Ret (Err (MostroCantDo NotAllowedByStatus))
  else
    next_trade <-? Ret (map_err MostroInternalErr (get_next_trade_key msg)) ;;
    _ <-? settle_seller_hold_invoice event false order ;;
    published <- update_order_event SettledHoldInvoice order ;;
    order <-? Ret (wrap_err NostrError published) ;;
    n <-? sql_or_db_error (settle_status_stmt order
            [status_to_string FiatSent; status_to_string Dispute]) ;;
    if n =? 0 then Ret (Ok None)
    else
      close_dispute_after_user_resolution order DSettled ;;;
      enqueue_order_msg None (Some (o_id order)) ActionReleased None buyer_pubkey None ;;;
      spawn_child_or_close order next_trade request_id ;;;
      enqueue_order_msg request_id (Some (o_id order)) HoldInvoicePaymentSettled None
        seller_pubkey None ;;;
      enqueue_order_msg None (Some (o_id order)) Rate None seller_pubkey None ;;;
      release_taker_bonds_for_order_or_warn (o_id order) ;;;
      paid <- do_payment settings order request_id ;;
      Ret (Ok (match paid with Ok d => d | Err _ => None end)).
End Release.
