(* ===== verification/CancelOrder.v ===== *)
(** * Cancelling an order

    [src/app/cancel.rs]: the maker or a taker backs out before the trade is
    active; in an active trade both parties have to ask. *)

From S2P Require Import Prelude Float64 Config BondTypes BondMath Effects Model.
From S2P Require Import Lightning BondDb BondRelease BondSlash OrderDb Messages Users NewOrder Take.
From S2P Require Import OrderPayout Disputes TradeFlow.

Open Scope Z_scope.
Open Scope prog_scope.

(** ** Statements of [db.rs] *)

Definition initial_state_stmt (i : Uuid) (pending : string) (amount fee dev_fee : Z) :
    DB -> DB * Z :=
  update_orders (fun o => N.eqb (o_id o) i)
    (fun o => o <| o_status := pending |>
                <| o_amount := amount |>
                <| o_fee := fee |>
                <| o_dev_fee := dev_fee |>
                <| o_hash := None |>
                <| o_preimage := None |>
                <| o_buyer_invoice := None |>
                <| o_taken_at := 0 |>
                <| o_invoice_held_at := 0 |>).

Definition clear_taker_stmt (kind : Kind) (i : Uuid) : DB -> DB * Z :=
  update_orders (fun o => N.eqb (o_id o) i)
    (fun o => match kind with
              | Buy => o <| o_seller_pubkey := None |> <| o_master_seller_pubkey := None |>
              | Sell => o <| o_buyer_pubkey := None |> <| o_master_buyer_pubkey := None |>
              end).

(** [SELECT * FROM orders WHERE id = ?], read with [fetch_one]. *)
Definition order_row (i : Uuid) (db : DB) : DB * result Order string :=
  (db, ok_or (order_by_id i db) no_rows).

Section CancelOrder.
Context `{Lib} `{Core} `{PayoutLib}.

Definition update_order_to_initial_state (order_id : Uuid) (amount fee dev_fee : Z) :
    M (result bool MostroError) :=
  n <-? sql_or_db_error (initial_state_stmt order_id (status_to_string Pending) amount fee dev_fee) ;;
  Ret (Ok (0 <? n)).

Definition edit_pubkeys_order (order : Order) : M (result Order MostroError) :=
  match get_order_kind order with
  | Err _ => Ret (Err (MostroInternalErr (DbAccessError "Order kind not found")))
  | Ok kind =>
      n <-? sql_or_db_error (clear_taker_stmt kind (o_id order)) ;;
      if n =? 0 then Ret (Err (MostroInternalErr (DbAccessError "No order updated")))
      else sql_row (order_row (o_id order))
  end.

(** ** [cancel.rs] *)

Definition reset_api_quotes (order : Order) : Order :=
  if o_price_from_api order
  then order <| o_amount := 0 |> <| o_fee := 0 |> <| o_dev_fee := 0 |>
  else order.

Definition notify_creator (order : Order) (request_id : option Z) : M (result unit MostroError) :=
  creator_pubkey <-? Ret (map_err MostroInternalErr (get_creator_pubkey order)) ;;
  enqueue_order_msg request_id (Some (o_id order)) NewOrder
    (Some (PlOrder (small_order_from order))) creator_pubkey None ;;;
  Ret (Ok tt).

(** [cancel_hold_invoice(hash)?] when the order has one. *)
Definition return_escrow (order : Order) : M (result unit MostroError) :=
  match o_hash order with
  | Some hash => cancel_hold_invoice hash
  | None => Ret (Ok tt)
  end.

Definition cancel_cooperative_execution_step_2 (event : UnwrappedMessage)
    (request_id : option Z) (order : Order) (counterparty_pubkey : string) :
    M (result unit MostroError) :=
  if bool_decide (o_cancel_initiator_pubkey order = Some (u_sender event))
  then Ret (Err (MostroCantDo CantDoInvalidPubkey))
  else
    _ <-? return_escrow order ;;
    let order := order <| o_status := status_to_string CooperativelyCanceled |> in
    _ <-? sql_or_db_error (order_update_stmt order) ;;
    published <- update_order_event CooperativelyCanceled order ;;
    _ <-? Ret (wrap_err NostrError published) ;;
    enqueue_order_msg request_id (Some (o_id order)) CooperativeCancelAccepted None
      (u_sender event) None ;;;
    counterparty_pubkey <-? Ret (map_err (fun _ => MostroInternalErr InvalidPubkey)
                                   (pubkey_from_str counterparty_pubkey)) ;;
    enqueue_order_msg None (Some (o_id order)) CooperativeCancelAccepted None
      counterparty_pubkey None ;;;
    close_dispute_after_user_resolution order DSellerRefunded ;;;
    release_taker_bonds_for_order_or_warn (o_id order) ;;;
    resolve_range_maker_bond_at_close_or_warn order ;;;
    Ret (Ok tt).

Definition cancel_cooperative_execution_step_1 (event : UnwrappedMessage) (order : Order)
    (counterparty_pubkey : string) (request_id : option Z) : M (result unit MostroError) :=
  let order := order <| o_cancel_initiator_pubkey := Some (u_sender event) |> in
  _ <-? sql_or_db_error (order_update_stmt order) ;;
  enqueue_order_msg request_id (Some (o_id order)) CooperativeCancelInitiatedByYou None
    (u_sender event) None ;;;
  counterparty_pubkey <-? Ret (map_err (fun _ => MostroInternalErr InvalidPubkey)
                                 (pubkey_from_str counterparty_pubkey)) ;;
  enqueue_order_msg None (Some (o_id order)) CooperativeCancelInitiatedByPeer None
    counterparty_pubkey None ;;;
  Ret (Ok tt).

Definition cancel_order_by_taker_inner (event : UnwrappedMessage) (order : Order)
    (request_id : option Z) : M (result unit MostroError) :=
  _ <-? return_escrow order ;;
  enqueue_order_msg request_id (Some (o_id order)) ActionCanceled None (u_sender event) None ;;;
  let order := reset_api_quotes order in
  reset <- update_order_to_initial_state (o_id order) (o_amount order) (o_fee order)
             (o_dev_fee order) ;;
  _ <-? Ret (wrap_err DbAccessError reset) ;;
  edited <- edit_pubkeys_order order ;;
  order <-? Ret (wrap_err DbAccessError edited) ;;
  published <- update_order_event Pending order ;;
  order_updated <-? Ret (wrap_err NostrError published) ;;
  notify_creator order_updated request_id.

Definition cancel_order_by_taker (event : UnwrappedMessage) (order : Order)
    (request_id : option Z) : M (result unit MostroError) :=
  sender_bond <-? find_active_bond_by_taker (o_id order) (u_sender event) ;;
  (match sender_bond with
   | Some bond => release_bond bond ;;; Ret tt
   | None => Ret tt
   end) ;;;
  remaining <-? find_active_bonds_for_order (o_id order) ;;
  if existsb (fun b => negb (str_eqb (pubkey b) (u_sender event)) &&
                       str_eqb (role b) (role_to_string Taker)) remaining
  then
    enqueue_order_msg request_id (Some (o_id order)) ActionCanceled None (u_sender event) None ;;;
    Ret (Ok tt)
  else cancel_order_by_taker_inner event order request_id.

Definition cancel_order_by_maker (event : UnwrappedMessage) (order : Order)
    (taker_pubkey : string) (request_id : option Z) : M (result unit MostroError) :=
  published <- update_order_event Canceled order ;;
  _ <-? (match published with
         | Ok order_updated =>
             _ <-? sql_or_db_error (order_update_stmt order_updated) ;; Ret (Ok tt)
         | Err _ => Ret (Ok tt)
         end) ;;
  _ <-? return_escrow order ;;
  enqueue_order_msg request_id (Some (o_id order)) ActionCanceled None (u_sender event) None ;;;
  enqueue_order_msg None (Some (o_id order)) ActionCanceled None taker_pubkey None ;;;
  release_taker_bonds_for_order_or_warn (o_id order) ;;;
  resolve_range_maker_bond_at_close_or_warn order ;;;
  Ret (Ok tt).

Definition cancel_pending_order_from_maker (event : UnwrappedMessage) (order : Order)
    (request_id : option Z) : M (result unit MostroError) :=
  _ <-? Ret (map_err (fun _ => MostroCantDo IsNotYourOrder) (sent_from_maker order (u_sender event))) ;;
  published <- update_order_event Canceled order ;;
  order_updated <-? Ret (wrap_err DbAccessError published) ;;
  won <-? cas_pretrade_order_status (o_id order_updated) Canceled (o_event_id order_updated) ;;
  if negb won then
    republish_winning_state_after_cas_miss (o_id order_updated) ;;;
    Ret (Err (MostroCantDo NotAllowedByStatus))
  else
    enqueue_order_msg request_id (Some (o_id order)) ActionCanceled None (u_sender event) None ;;;
    active <- find_active_bonds_for_order (o_id order) ;;
    (match active with
     | Ok active_bonds =>
         for_each active_bonds (fun b =>
           match pubkey_from_str (pubkey b) with
           | Ok taker_pk =>
               if str_eqb taker_pk (u_sender event) then Ret tt
               else enqueue_order_msg None (Some (o_id order)) ActionCanceled None taker_pk None
           | Err _ => Ret tt
           end)
     | Err _ => Ret tt
     end) ;;;
    release_taker_bonds_for_order_or_warn (o_id order) ;;;
    resolve_range_maker_bond_at_close_or_warn order ;;;
    Ret (Ok tt).

Definition cancel_active_order (event : UnwrappedMessage) (order : Order)
    (request_id : option Z) : M (result unit MostroError) :=
  seller_pubkey <-? Ret (map_err MostroInternalErr (get_seller_pubkey order)) ;;
  buyer_pubkey <-? Ret (map_err MostroInternalErr (get_buyer_pubkey order)) ;;
  if negb (str_eqb (u_sender event) buyer_pubkey) && negb (str_eqb (u_sender event) seller_pubkey)
  then Ret (Err (MostroCantDo CantDoInvalidPubkey))
  else
    let '(order, counterparty_pubkey) :=
      if str_eqb buyer_pubkey (u_sender event)
      then (order <| o_buyer_cooperativecancel := true |>, seller_pubkey)
      else (order <| o_seller_cooperativecancel := true |>, buyer_pubkey) in
    match o_cancel_initiator_pubkey order with
    | Some initiator =>
        if negb (str_eqb initiator counterparty_pubkey)
        then Ret (Err (MostroCantDo CantDoInvalidPubkey))
        else cancel_cooperative_execution_step_2 event request_id order counterparty_pubkey
    | None => cancel_cooperative_execution_step_1 event order counterparty_pubkey request_id
    end.

Definition cancel_not_active_order (event : UnwrappedMessage) (order : Order)
    (request_id : option Z) : M (result unit MostroError) :=
  seller_pubkey <-? Ret (map_err MostroInternalErr (get_seller_pubkey order)) ;;
  buyer_pubkey <-? Ret (map_err MostroInternalErr (get_buyer_pubkey order)) ;;
  taker_pubkey <-? Ret (
    if str_eqb (o_creator_pubkey order) seller_pubkey then Ok buyer_pubkey
    else if str_eqb (o_creator_pubkey order) buyer_pubkey then Ok seller_pubkey
    else Err (MostroInternalErr InvalidPubkey)) ;;
  if is_ok (sent_from_maker order (u_sender event))
  then cancel_order_by_maker event order taker_pubkey request_id
  else if str_eqb (u_sender event) taker_pubkey
  then cancel_order_by_taker event order request_id
  else Ret (Err (MostroCantDo CantDoInvalidPubkey)).

(** A key of the order other than its creator's. *)
Definition order_taker_match (order : Order) (sender : string) : bool :=
  let is_taker k := match k with
                    | Some p => str_eqb p sender && negb (str_eqb p (o_creator_pubkey order))
                    | None => false
                    end in
  is_taker (o_buyer_pubkey order) || is_taker (o_seller_pubkey order).

Definition cancel_action (msg : Message) (event : UnwrappedMessage) :
    M (result unit MostroError) :=
  let request_id := m_request_id msg in
  let has_status order s := is_ok (check_status order s) in
  order <-? get_order msg ;;
  if has_status order Canceled || has_status order CooperativelyCanceled ||
     has_status order CanceledByAdmin
  then Ret (Err (MostroCantDo OrderAlreadyCanceled))
  else if has_status order Pending || has_status order WaitingTakerBond then
    if is_ok (sent_from_maker order (u_sender event))
    then cancel_pending_order_from_maker event order request_id
    else
      found <- find_active_bonds_for_order (o_id order) ;;
      let bond_match := match found with
                        | Ok active_bonds =>
                            existsb (fun b => str_eqb (pubkey b) (u_sender event)) active_bonds
                        | Err _ => false
                        end in
      if bond_match || order_taker_match order (u_sender event)
      then cancel_order_by_taker event order request_id
      else Ret (Err (MostroCantDo IsNotYourOrder))
  else
    status <-? Ret (map_err MostroInternalErr (get_order_status order)) ;;
    match status with
    | WaitingPayment | WaitingBuyerInvoice => cancel_not_active_order event order request_id
    | Active | FiatSent | Dispute => cancel_active_order event order request_id
    | _ => Ret (Err (MostroCantDo NotAllowedByStatus))
    end.
End CancelOrder.
