(* ===== verification/AdminOrder.v ===== *)
(** * A solver's verdict

    [src/app/admin_settle.rs] and [src/app/admin_cancel.rs]: the solver a
    dispute is assigned to pays the buyer or refunds the seller, and says which
    bonds are slashed. *)

From S2P Require Import Prelude Float64 Config BondTypes BondMath Effects Model.
From S2P Require Import Lightning BondDb BondRelease BondSlash OrderDb Messages Users NewOrder Take.
From S2P Require Import OrderPayout Disputes TradeFlow Release CancelOrder.

Open Scope Z_scope.
Open Scope prog_scope.

Section AdminOrder.
Context `{Lib} `{Core} `{PayoutLib} (settings : Settings) (node_pubkey : string).

(** The check both handlers start with: the sender is the assigned solver. *)
Definition check_assigned (event : UnwrappedMessage) (order : Order) :
    M (result unit MostroError) :=
  assigned <- is_assigned_solver (u_identity event) (o_id order) ;;
  match assigned with
  | Ok false =>
      by_admin <-? is_dispute_taken_by_admin (o_id order) node_pubkey ;;
      Ret (Err (MostroCantDo (if by_admin : bool then DisputeTakenByAdmin else IsNotYourDispute)))
  | Err e => Ret (Err (MostroInternalErr (DbAccessError (error_to_string e))))
  | Ok true => ensure_dispute_finalize_permission (u_identity event) node_pubkey (o_id order)
  end.

(** [PublicKey::from_str(k)?] for a key that may be absent. *)
Definition notify_settled (order : Order) (key : option string) (trade_index : option Z) :
    M (result unit MostroError) :=
  match key with
  | None => Ret (Ok tt)
  | Some k =>
      pk <-? Ret (map_err (fun _ => MostroInternalErr InvalidPubkey) (pubkey_from_str k)) ;;
      enqueue_order_msg None (Some (o_id order)) AdminSettled None pk trade_index ;;;
      Ret (Ok tt)
  end.

(** The dispute row takes its final status and the event is published. *)
Definition finalize_dispute (dispute : DisputeRow) (status : DisputeStatus)
    (initiator : result string MostroError) : M (result unit MostroError) :=
  let dispute := dispute <| d_status := dispute_status_to_string status |> in
  _ <-? sql_or_db_error (dispute_update_stmt dispute) ;;
  initiator <-? Ret initiator ;;
  built <- ask (NewDisputeEvent (d_id dispute) (dispute_status_to_string status) initiator
                  (d_created_at dispute)) ;;
  event <-? Ret (map_err (fun e => MostroInternalErr (NostrError e)) built) ;;
  ask (SendDisputeEvent (d_id dispute) event) ;;;
  Ret (Ok tt).

Definition initiator_of (order : Order) : result string MostroError :=
  ok_or (dispute_initiator order) (MostroInternalErr DisputeEventError).

(** The bonds follow the directive; failures are logged. *)
Definition settle_bonds (order : Order) (resolution : BondResolution) : M unit :=
  applied <- apply_bond_resolution settings order resolution LostDispute ;;
  (match applied with
   | Ok slashed_rows => for_each slashed_rows (notify_bond_slashed order)
   | Err _ => Ret tt
   end) ;;;
  resolve_range_maker_bond_at_close order ;;;
  Ret tt.

(** ** [admin_settle.rs] *)

(** The result carries the payout task to spawn. *)
Definition admin_settle_action (msg : Message) (event : UnwrappedMessage) :
    M (result (option PayoutDispatch) MostroError) :=
  let request_id := m_request_id msg in
  order <-? get_order msg ;;
  _ <-? check_assigned event order ;;
  if is_ok (check_status order CooperativelyCanceled) then
    enqueue_order_msg request_id (Some (o_id order)) CooperativeCancelAccepted None
      (u_identity event) (m_trade_index msg) ;;;
    Ret (Ok None)
  else
    _ <-? Ret (map_err MostroCantDo (check_status order Dispute)) ;;
    let bond_resolution := extract_bond_resolution msg in
    _ <-? validate_bond_resolution order bond_resolution ;;
    settled <- settle_seller_hold_invoice event true order ;;
    _ <-? Ret (wrap_err LnNodeError settled) ;;
    published <- update_order_event SettledHoldInvoice order ;;
    order_updated <-? Ret (wrap_err DbAccessError published) ;;
    n <-? sql_or_db_error (settle_status_stmt order_updated [status_to_string Dispute]) ;;
    if n =? 0 then Ret (Ok None)
    else
      dispute <- find_dispute_by_order_id (o_id order) ;;
      _ <-? (match dispute with
             | Ok d => finalize_dispute d DSettled (initiator_of order)
             | Err _ => Ret (Ok tt)
             end) ;;
      enqueue_order_msg request_id (Some (o_id order_updated)) AdminSettled None
        (u_sender event) (m_trade_index msg) ;;;
      _ <-? notify_settled order_updated (o_seller_pubkey order_updated) (m_trade_index msg) ;;
      _ <-? notify_settled order_updated (o_buyer_pubkey order_updated) (m_trade_index msg) ;;
      settle_bonds order_updated bond_resolution ;;;
      paid <- do_payment settings order_updated request_id ;;
      Ret (Ok (match paid with Ok d => d | Err _ => None end)).

(** ** [admin_cancel.rs] *)

Definition parse_party (k : string) : result string MostroError :=
  map_err (fun _ => MostroInternalErr InvalidPubkey) (pubkey_from_str k).

Definition cancel_parties (order : Order) : result (string * string) MostroError :=
  match o_seller_pubkey order, o_buyer_pubkey order with
  | Some seller, Some buyer =>
      match parse_party seller, parse_party buyer with
      | Ok s, Ok b => Ok (s, b)
      | _, _ => Err (MostroInternalErr InvalidPubkey)
      end
  | _, _ => Err (MostroInternalErr InvalidPubkey)
  end.

Definition admin_cancel_action (msg : Message) (event : UnwrappedMessage) :
    M (result unit MostroError) :=
  let request_id := m_request_id msg in
  order <-? get_order msg ;;
  _ <-? check_assigned event order ;;
  if is_ok (check_status order CooperativelyCanceled) then
    enqueue_order_msg request_id (Some (o_id order)) CooperativeCancelAccepted None
      (u_identity event) (m_trade_index msg) ;;;
    Ret (Ok tt)
  else if negb (is_ok (check_status order Dispute)) then Ret (Err (MostroCantDo NotAllowedByStatus))
  else
    let bond_resolution := extract_bond_resolution msg in
    _ <-? validate_bond_resolution order bond_resolution ;;
    _ <-? return_escrow order ;;
    dispute <- find_dispute_by_order_id (o_id order) ;;
    initiator <-? Ret (initiator_of order) ;;
    _ <-? (match dispute with
           | Ok d => finalize_dispute d DSellerRefunded (Ok initiator)
           | Err _ => Ret (Ok tt)
           end) ;;
    published <- update_order_event CanceledByAdmin order ;;
    order_updated <-? Ret (wrap_err DbAccessError published) ;;
    _ <-? sql_or_db_error (order_update_stmt order_updated) ;;
    message <-? Ret (map_err (fun e => MostroInternalErr (DbAccessError e))
                  (message_json (Some (o_id order)) request_id (m_trade_index msg) AdminCanceled None)) ;;
    told <- send_dm (u_sender event) message ;;
    _ <-? Ret (map_err (fun e => MostroInternalErr (DbAccessError e)) told) ;;
    parties <-? Ret (cancel_parties order) ;;
    let '(seller_pubkey, buyer_pubkey) := parties in
    told <- send_dm seller_pubkey message ;;
    _ <-? Ret (map_err (fun e => MostroInternalErr (NostrError e)) told) ;;
    told <- send_dm buyer_pubkey message ;;
    _ <-? Ret (map_err (fun e => MostroInternalErr (NostrError e)) told) ;;
    settle_bonds order bond_resolution ;;;
    Ret (Ok tt).
End AdminOrder.
