(* ===== verification/Ratings.v ===== *)
(** * Ratings

    [src/app/rate_user.rs] with [claim_order_rating_flag] and
    [update_user_rating] of [src/db.rs]: each party of a finished trade rates
    the other once.  The flag of the order and the aggregate of the rated user
    are written in one transaction. *)

From Stdlib Require Import QArith_base.
From S2P Require Import Prelude Float64 Config BondTypes Effects Model.
From S2P Require Import Lightning BondDb OrderDb Messages Users NewOrder Take.

Open Scope Z_scope.
Open Scope prog_scope.

Section Ratings.
Context `{Lib} `{Core}.

(** The sender's own trade key, and which side it is on. *)
Definition prepare_variables_for_vote (message_sender : string) (order : Order) :
    result (string * bool * bool) MostroError :=
  match o_seller_pubkey order, o_buyer_pubkey order with
  | Some seller, Some buyer =>
      if str_eqb message_sender buyer then
        match get_buyer_pubkey order with
        | Ok k => Ok (k, true, false)
        | Err e => Err (MostroInternalErr e)
        end
      else if str_eqb message_sender seller then
        match get_seller_pubkey order with
        | Ok k => Ok (k, false, true)
        | Err e => Err (MostroInternalErr e)
        end
      else Ok ("", false, false)
  | _, _ => Err (MostroInternalErr InvalidPubkey)
  end.

(** [claim_order_rating_flag]: the rows it takes and what it sets. *)
Definition claimable (i : Uuid) (buyer_side : bool) (o : Order) : bool :=
  N.eqb (o_id o) i &&
  (if buyer_side
   then negb (o_buyer_sent_rate o) && str_eqb (o_status o) (status_to_string Success)
   else negb (o_seller_sent_rate o) &&
        (str_eqb (o_status o) (status_to_string Success) ||
         str_eqb (o_status o) (status_to_string SettledHoldInvoice))).

Definition claim_order_rating_flag (i : Uuid) (buyer_side : bool) (db : DB) : DB * bool :=
  let '(db', n) :=
    update_orders (claimable i buyer_side)
      (fun o => if buyer_side then o <| o_buyer_sent_rate := true |>
                else o <| o_seller_sent_rate := true |>) db in
  (db', n =? 1).

(** The checks of [update_user_rating] before it writes. *)
Definition rating_problem (u : User) : option CantDoReason :=
  let in_scale r := (0 <=? r) && (r <=? 5) in
  if negb (is_hex_key (u_pubkey u)) then Some CantDoInvalidPubkey
  else if negb (in_scale (last_rating u)) then Some InvalidRating
  else if negb (in_scale (min_rating u)) || negb (in_scale (max_rating u)) then Some InvalidRating
  else if (last_rating u <? MIN_RATING) || (MAX_RATING <? last_rating u) then Some InvalidRating
  else if total_reviews u <? 0 then Some InvalidRating
  else if f64_lt (total_rating u) (Fin 0%Q) ||
          f64_lt (f64_of_i64 (total_reviews u * 5)) (total_rating u)
  then Some InvalidRating
  else if negb ((min_rating u <=? last_rating u) && (last_rating u <=? max_rating u))
  then Some InvalidRating
  else None.

Definition update_user_rating (u : User) (db : DB) : DB :=
  (update_users (has_pubkey (u_pubkey u))
     (fun r => r <| last_rating := last_rating u |>
                 <| min_rating := min_rating u |>
                 <| max_rating := max_rating u |>
                 <| total_reviews := total_reviews u |>
                 <| total_rating := total_rating u |>) db).1.

(** The transaction; [Ok None] is a lost claim.  What is not committed is
    rolled back. *)
Definition rating_tx (i : Uuid) (buyer_side : bool) (rated_pubkey : string) (new_rating : Z)
    (db : DB) : DB * result (option User) MostroError :=
  let '(db', claimed) := claim_order_rating_flag i buyer_side db in
  if negb claimed then (db, Ok None)
  else
    match select_one (has_pubkey rated_pubkey) (users db') with
    | None =>
        (db, Err (MostroInternalErr (DbAccessError
               "no rows returned by a query that expected to return at least one row")))
    | Some user =>
        let user := update_rating user new_rating in
        match rating_problem user with
        | Some reason => (db, Err (MostroCantDo reason))
        | None => (update_user_rating user db', Ok (Some user))
        end
    end.

Definition calculate_days_since_creation (now created_at : Z) : Z :=
  if 0 <? created_at then Z.max 0 (now - created_at) / 86400 else 0.

Definition update_user_reputation_action (msg : Message) (event : UnwrappedMessage) :
    M (result unit MostroError) :=
  order <-? get_order msg ;;
  vote <-? Ret (prepare_variables_for_vote (u_sender event) order) ;;
  let '(counterpart_trade_pubkey, buyer_rating, seller_rating) := vote in
  if negb (is_ok (check_status order Success) ||
           (is_ok (check_status order SettledHoldInvoice) && seller_rating))
  then Ret (Err (MostroCantDo CantDoInvalidOrderStatus))
  else
    let update_seller_rate := seller_rating && negb (o_seller_sent_rate order) in
    let update_buyer_rate :=
      negb update_seller_rate && buyer_rating && negb (o_buyer_sent_rate order) in
    if negb update_buyer_rate && negb update_seller_rate then Ret (Ok tt)
    else
      new_rating <-? Ret (map_err MostroInternalErr (get_rating msg)) ;;
      keys <-? Ret (map_err (fun _ => MostroInternalErr InvalidPubkey) (is_full_privacy_order order)) ;;
      let '(normal_buyer_idkey, normal_seller_idkey) := keys in
      match (if buyer_rating then normal_seller_idkey else normal_buyer_idkey) with
      | None => Ret (Ok tt)
      | Some rated_pubkey =>
          committed <- sql (rating_tx (o_id order) update_buyer_rate rated_pubkey new_rating) ;;
          outcome <-? Ret (match committed with
                           | Ok r => r
                           | Err e => Err (MostroInternalErr (DbAccessError e))
                           end) ;;
          match outcome with
          | None => Ret (Ok tt)
          | Some user =>
              now <- ask Now ;;
              _ <-? ask (NewRatingEvent counterpart_trade_pubkey user
                           (calculate_days_since_creation now (user_created_at user))) ;;
              enqueue_order_msg (m_request_id msg) (Some (o_id order)) RateReceived
                (Some (PlRatingUser new_rating)) (u_sender event) None ;;;
              Ret (Ok tt)
          end
      end.
End Ratings.
