(* ===== verification/TradeJobs.v ===== *)
(** * Deadlines of a trade

    The jobs of [src/scheduler.rs] that end what the parties leave open:
    [job_cancel_orders] (a waiting state expired), [job_enforce_escrow_deadline]
    (the HTLC of the escrow nears its expiry height) and
    [job_expire_pending_older_orders] (an offer nobody took).  One tick of each
    is a definition of its own; the endless loops take their number of ticks. *)

From S2P Require Import Prelude Float64 Config BondTypes BondMath Effects Model.
From S2P Require Import Lightning BondDb BondRelease BondSlash OrderDb Messages Users NewOrder Take.
From S2P Require Import OrderPayout Disputes TradeFlow CancelOrder.

Open Scope Z_scope.
Open Scope prog_scope.

(** ** Queries of [db.rs], as the SQL text spells them *)

Definition waiting_since (t : Z) (db : DB) : list Order :=
  List.filter (fun o => (o_taken_at o <? t) &&
                        (str_eqb (o_status o) "waiting-buyer-invoice" ||
                         str_eqb (o_status o) "waiting-payment")) (orders db).

Definition expired_offers (t : Z) (db : DB) : list Order :=
  List.filter (fun o => (o_expires_at o <? t) &&
                        status_in ["pending"; "waiting-taker-bond"; "waiting-maker-bond"] o)
    (orders db).

Definition held_escrows (held_before : Z) (db : DB) : list Order :=
  List.filter (fun o => status_in ["active"; "fiat-sent"] o &&
                        negb (o_invoice_held_at o =? 0) &&
                        (o_invoice_held_at o <=? held_before) &&
                        is_some (o_hash o)) (orders db).

Section TradeJobs.
Context `{Lib} `{Core} `{PayoutLib} (settings : Settings).

Definition find_order_by_seconds : M (result (list Order) MostroError) :=
  now <- ask Now ;;
  sql_or_db_error (query (waiting_since (now - expiration_seconds (get_mostro settings)))).

Definition find_order_by_date : M (result (list Order) MostroError) :=
  now <- ask Now ;; sql_or_db_error (query (expired_offers now)).

Definition find_escrow_deadline_orders (held_before : Z) : M (result (list Order) MostroError) :=
  sql_or_db_error (query (held_escrows held_before)).

(** ** [job_cancel_orders] *)

Definition is_status (order : Order) (s : Status) : bool :=
  str_eqb (o_status order) (status_to_string s).

Definition is_waiting (order : Order) : bool :=
  is_status order WaitingBuyerInvoice || is_status order WaitingPayment.

Definition reconfirm_timeout_eligibility (order_id : Uuid) (exp_seconds : Z) : M (option Order) :=
  row <- find_order_by_id order_id ;;
  match row with
  | Ok (Some fresh) =>
      now <- ask Now ;;
      Ret (if is_waiting fresh && (o_taken_at fresh <? now - exp_seconds) then Some fresh else None)
  | _ => Ret None
  end.

(** What the elapsed state leads to: the taker's fault returns the order to
    the book, the maker's cancels it. *)
Definition timeout_outcome (status : Status) (kind : Kind) : option (Action * Status) :=
  match status, kind with
  | WaitingBuyerInvoice, Sell | WaitingPayment, Buy => Some (NewOrder, Pending)
  | WaitingBuyerInvoice, Buy | WaitingPayment, Sell => Some (ActionCanceled, Canceled)
  | _, _ => None
  end.

Definition without_quote (order : Order) : Order :=
  let order := order <| o_dev_fee := 0 |> in
  if o_price_from_api order then order <| o_amount := 0 |> <| o_fee := 0 |> else order.

(** From the moment the escrow is void. *)
Definition close_timed_out (order : Order) : M unit :=
  let order := without_quote order in
  match get_order_status order, get_order_kind order with
  | Ok order_status, Ok order_kind =>
      slashed <- slash_or_release_on_timeout settings order (get_bond settings) ;;
      match slashed with
      | Err _ => Ret tt
      | Ok slashed =>
          (match slashed with Some b => notify_bond_slashed order b | None => Ret tt end) ;;;
          match timeout_outcome order_status order_kind with
          | None => Ret tt
          | Some (maker_action, new_status) =>
              (if bool_decide (new_status = Pending)
               then update_order_to_initial_state (o_id order) (o_amount order) (o_fee order)
                      (o_dev_fee order) ;;; Ret tt
               else Ret tt) ;;;
              edited <- edit_pubkeys_order order ;;
              match edited with
              | Err _ => Ret tt
              | Ok edited_order =>
                  published <- update_order_event new_status edited_order ;;
                  match published with
                  | Err _ => Ret tt
                  | Ok order_updated =>
                      notify_users_canceled_order order_updated order (Some maker_action) ;;;
                      persisted <- sql (order_update_stmt order_updated) ;;
                      match persisted with
                      | Ok _ => if bool_decide (new_status = Canceled)
                                then resolve_range_maker_bond_at_close_or_warn order
                                else Ret tt
                      | Err _ => Ret tt
                      end
                  end
              end
          end
      end
  | _, _ => Ret tt
  end.

Definition cancel_timed_out (candidate : Order) : M unit :=
  fresh <- reconfirm_timeout_eligibility (o_id candidate) (expiration_seconds (get_mostro settings)) ;;
  match fresh with
  | None => Ret tt
  | Some order =>
      if is_waiting order then
        returned <- return_escrow order ;;
        match returned with
        | Ok _ => close_timed_out order
        | Err _ => Ret tt
        end
      else Ret tt
  end.

Definition cancel_orders_tick : M unit :=
  older <- find_order_by_seconds ;;
  match older with
  | Ok older_orders_list => for_each older_orders_list cancel_timed_out
  | Err _ => Ret tt
  end.

(** An endless loop, for [ticks] rounds. *)
Fixpoint forever (ticks : nat) (tick : M unit) : M unit :=
  match ticks with
  | O => Ret tt
  | S ticks' => tick ;;; forever ticks' tick
  end.

Definition job_cancel_orders (ticks : nat) : M unit :=
  ln_client <- lnd_new ;;
  if is_ok ln_client then forever ticks cancel_orders_tick else Ret tt.

(** ** [job_enforce_escrow_deadline] *)

(** Whether the guardian must act, and whether the HTLC is known to be gone. *)
Definition escrow_due (chain_height : option Z) (order : Order) (hash : string) (now : Z) :
    M (bool * bool) :=
  let margin := escrow_deadline_margin_blocks (get_ln settings) in
  let nominal := (past_deadline settings order now, false) in
  match chain_height with
  | None => Ret nominal
  | Some chain =>
      expiry <- get_hold_invoice_expiry_height hash ;;
      Ret (match expiry with
           | Ok (Some expiry) => (expiry <=? Z.min (chain + margin) (2 ^ 32 - 1), expiry <=? chain)
           | Ok None => (true, true)
           | Err _ => nominal
           end)
  end.

Definition guard_active (order : Order) (hash : string) (escrow_gone : bool) : M unit :=
  cancelled <- cancel_hold_invoice hash ;;
  let retry := match cancelled with
               | Ok _ => false
               | Err e => match classify_cancel_error e with
                          | AlreadyDone => false
                          | Transient => negb escrow_gone
                          end
               end in
  if retry then Ret tt
  else
    published <- update_order_event Canceled order ;;
    match published with
    | Err _ => Ret tt
    | Ok updated =>
        persisted <- sql (order_update_stmt updated) ;;
        match persisted with
        | Err _ => Ret tt
        | Ok _ =>
            notify_users_canceled_order updated order (Some ActionCanceled) ;;;
            resolve_range_maker_bond_at_close_or_warn order
        end
    end.

(** The dispute of the order: the open one, the closed one reopened, or a new
    one; [None] when the row could not be written. *)
Definition open_deadline_dispute (order : Order) : M (option DisputeRow) :=
  found <- find_dispute_by_order_id (o_id order) ;;
  match found with
  | Ok dispute =>
      match dispute_status_from_str (d_status dispute) with
      | Ok DInitiated | Ok DInProgress => Ret (Some dispute)
      | _ =>
          let dispute := dispute <| d_status := dispute_status_to_string DInitiated |>
                                 <| d_solver_pubkey := None |>
                                 <| d_taken_at := 0 |>
                                 <| d_order_previous_status := o_status order |> in
          updated <- sql (dispute_update_stmt dispute) ;;
          Ret (match updated with Ok _ => Some dispute | Err _ => None end)
      end
  | Err _ =>
      uuid <- ask NewUuid ;;
      now <- ask Now ;;
      created <- sql_row (dispute_create_stmt (dispute_new uuid now (o_id order) (o_status order))) ;;
      Ret (match created with Ok d => Some d | Err _ => None end)
  end.

Definition guard_fiat_sent (order : Order) : M unit :=
  opened <- open_deadline_dispute order ;;
  match opened with
  | None => Ret tt
  | Some dispute =>
      let disputed := if o_buyer_dispute order
                      then Ok (order <| o_status := status_to_string Dispute |>)
                      else setup_dispute order true in
      match disputed with
      | Err _ => Ret tt
      | Ok disputed =>
          persisted <- sql (order_update_stmt disputed) ;;
          match persisted with
          | Err _ => Ret tt
          | Ok _ =>
              for_each [(get_buyer_pubkey order, DisputeInitiatedByYou);
                        (get_seller_pubkey order, DisputeInitiatedByPeer)] (fun pa =>
                match pa.1 with
                | Ok party => enqueue_order_msg None (Some (o_id order)) pa.2
                                (Some (PlDispute (d_id dispute) None)) party None
                | Err _ => Ret tt
                end) ;;;
              publish_dispute_event dispute true ;;;
              Ret tt
          end
      end
  end.

Definition guard_order (chain_height : option Z) (now : Z) (order : Order) : M unit :=
  match get_order_status order, o_hash order with
  | Ok status, Some hash =>
      due <- escrow_due chain_height order hash now ;;
      if negb due.1 then Ret tt
      else
        match status with
        | Active => guard_active order hash due.2
        | FiatSent => guard_fiat_sent order
        | _ => Ret tt
        end
  | _, _ => Ret tt
  end.

Definition enforce_escrow_deadline_pass : M (result unit MostroError) :=
  now <- ask Now ;;
  let cutoff := now - escrow_guard_window_secs (hold_invoice_cltv_delta (get_ln settings))
                        (escrow_deadline_margin_blocks (get_ln settings)) / 2 in
  due_orders <-? find_escrow_deadline_orders cutoff ;;
  height <- get_chain_height ;;
  let chain_height := match height with Ok h => Some h | Err _ => None end in
  for_each due_orders (guard_order chain_height now) ;;;
  Ret (Ok tt).

Definition job_enforce_escrow_deadline (ticks : nat) : M unit :=
  ln_client <- lnd_new ;;
  if is_ok ln_client then forever ticks (enforce_escrow_deadline_pass ;;; Ret tt) else Ret tt.

(** ** [job_expire_pending_older_orders] *)

Definition expire_offer (order : Order) : M unit :=
  if is_status order WaitingMakerBond then
    persisted <- sql (order_update_stmt (order <| o_status := status_to_string Expired |>)) ;;
    match persisted with
    | Ok _ => if is_cashu_enabled settings then Ret tt
              else release_bonds_for_order_or_warn (o_id order)
    | Err _ => Ret tt
    end
  else
    published <- update_order_event Expired order ;;
    match published with
    | Err _ => Ret tt
    | Ok order_updated =>
        persisted <- sql (order_update_stmt order_updated) ;;
        match persisted with
        | Ok _ =>
            if is_cashu_enabled settings then Ret tt
            else
              release_taker_bonds_for_order_or_warn (o_id order_updated) ;;;
              resolve_range_maker_bond_at_close_or_warn order_updated
        | Err _ => Ret tt
        end
    end.

Definition expire_orders_tick : M unit :=
  older <- find_order_by_date ;;
  match older with
  | Ok older_orders_list => for_each older_orders_list expire_offer
  | Err _ => Ret tt
  end.

Definition job_expire_pending_older_orders (ticks : nat) : M unit :=
  forever ticks expire_orders_tick.
End TradeJobs.
