(* ===== verification/Sessions.v ===== *)
(** * Questions of a client

    The handlers that answer a user without touching a trade:
    [last_trade_index.rs], [orders.rs] and [restore_session.rs] of [src/app],
    with the queries of [src/db.rs] and [src/util.rs]; the rotation of the
    maker's trade key ([trade_pubkey.rs]); and the keys the spam gate knows
    ([find_active_trade_pubkeys]). *)

From S2P Require Import Prelude Float64 Config BondTypes Effects Model.
From S2P Require Import Lightning BondDb OrderDb Messages Users NewOrder Take OrderPayout Disputes.

Open Scope Z_scope.
Open Scope prog_scope.

(** ** Queries *)

(** [SELECT * FROM orders WHERE id IN (...) AND (master_buyer_pubkey = ? OR
    master_seller_pubkey = ?)], in the order of [ids]. *)
Definition is_party (k : string) (o : Order) : bool :=
  bool_decide (o_master_buyer_pubkey o = Some k) || bool_decide (o_master_seller_pubkey o = Some k).

(** [CASE id WHEN ...]: the position of the first occurrence. *)
Fixpoint position (i : Uuid) (ids : list Uuid) : Z :=
  match ids with
  | [] => 0
  | j :: ids' => if N.eqb j i then 0 else 1 + position i ids'
  end.

Definition user_orders_by_id (ids : list Uuid) (k : string) (db : DB) : list Order :=
  select_ordered (fun o => existsb (N.eqb (o_id o)) ids && is_party k o)
    (fun o => position (o_id o) ids) (orders db).

(** The status lists of [db.rs], as the SQL text spells them. *)
Definition EXCLUDED_ORDER_STATUSES : list string :=
  ["expired"; "success"; "canceled"; "dispute"; "canceledbyadmin"; "completedbyadmin";
   "settledbyadmin"; "cooperativelycanceled"].

Definition ACTIVE_DISPUTE_STATUSES : list string := ["initiated"; "in-progress"].

Definition TERMINAL_STATUSES : list string :=
  ["expired"; "success"; "canceled"; "canceledbyadmin"; "completedbyadmin"; "settledbyadmin";
   "cooperativelycanceled"].

Definition user_orders_by_master_key (k : string) (db : DB) : list (Uuid * option Z * string) :=
  let open o := negb (status_in EXCLUDED_ORDER_STATUSES o) in
  (map (fun o => (o_id o, o_trade_index_buyer o, o_status o))
     (List.filter (fun o => bool_decide (o_master_buyer_pubkey o = Some k) && open o) (orders db)) ++
   map (fun o => (o_id o, o_trade_index_seller o, o_status o))
     (List.filter (fun o => bool_decide (o_master_seller_pubkey o = Some k) && open o) (orders db)))%list.

Definition restored_dispute (k : string) (o : Order) (d : DisputeRow) : RestoredDispute :=
  mkRestoredDispute (d_id d) (d_order_id d)
    (default 0 (if bool_decide (o_master_buyer_pubkey o = Some k) then o_trade_index_buyer o
                else if bool_decide (o_master_seller_pubkey o = Some k) then o_trade_index_seller o
                else Some 0))
    (d_status d) (dispute_initiator o) (d_solver_pubkey d).

(** The join of [disputes] and [orders]. *)
Definition user_disputes_by_master_key (k : string) (db : DB) : list RestoredDispute :=
  concat (map (fun d =>
    map (fun o => restored_dispute k o d)
      (List.filter (fun o => N.eqb (o_id o) (d_order_id d) && is_party k o &&
                             existsb (str_eqb (d_status d)) ACTIVE_DISPUTE_STATUSES) (orders db)))
    (disputes db)).

(** The non-empty keys of a row. *)
Definition present_keys (l : list (option string)) : list string :=
  concat (map (fun k => match k with
                        | Some k => if str_eqb k "" then [] else [k]
                        | None => []
                        end) l).

Definition order_keys (db : DB) : list string :=
  concat (map (fun o => present_keys [o_buyer_pubkey o; o_seller_pubkey o; Some (o_creator_pubkey o)])
            (List.filter (fun o => negb (status_in TERMINAL_STATUSES o)) (orders db))).

Definition solver_keys (db : DB) : list string :=
  concat (map (fun d => present_keys [d_solver_pubkey d])
            (List.filter (fun d => existsb (str_eqb (d_status d)) ACTIVE_DISPUTE_STATUSES)
               (disputes db))).

(** The set the gate fast-paths, as a list. *)
Definition find_active_trade_pubkeys : M (result (list string) MostroError) :=
  orders <-? sql_or_db_error (query order_keys) ;;
  solvers <-? sql_or_db_error (query solver_keys) ;;
  Ret (Ok (orders ++ solvers)%list).

Section Sessions.
Context `{Lib} `{Core} `{PayoutLib} (settings : Settings).

Definition get_user_orders_by_id (ids : list Uuid) (user_pubkey : string) :
    M (result (list Order) MostroError) :=
  match ids with
  | [] => Ret (Ok [])
  | _ => sql_or_db_error (query (user_orders_by_id ids user_pubkey))
  end.

Definition find_user_orders_by_master_key (master_key : string) :
    M (result (list (Uuid * option Z * string)) MostroError) :=
  if negb (is_hex_key master_key) then Ret (Err (MostroCantDo CantDoInvalidPubkey))
  else sql_or_db_error (query (user_orders_by_master_key master_key)).

Definition find_user_disputes_by_master_key (master_key : string) :
    M (result (list RestoredDispute) MostroError) :=
  if negb (is_hex_key master_key) then Ret (Err (MostroCantDo CantDoInvalidPubkey))
  else sql_or_db_error (query (user_disputes_by_master_key master_key)).

(** ** Handlers *)

Definition last_trade_index_action (msg : Message) (event : UnwrappedMessage) :
    M (result unit MostroError) :=
  present <- is_user_present (u_identity event) ;;
  user <-? Ret (map_err (fun _ => MostroCantDo NotFound) present) ;;
  if last_trade_index user =? 0 then Ret (Err (MostroCantDo InvalidTradeIndex))
  else
    message_json <-? Ret (map_err (fun _ => MostroInternalErr MessageSerializationError)
                       (message_json None (m_request_id msg) (Some (last_trade_index user))
                          LastTradeIndex None)) ;;
    send_dm (u_sender event) message_json ;;;
    Ret (Ok tt).

Definition orders_action (msg : Message) (event : UnwrappedMessage) :
    M (result unit MostroError) :=
  match m_payload msg with
  | Some (PlIds []) => Ret (Err (MostroCantDo InvalidParameters))
  | Some (PlIds ids) =>
      if max_orders_per_response (get_mostro settings) <? Z.of_nat (length ids)
      then Ret (Err (MostroCantDo TooManyRequests))
      else
        orders <-? get_user_orders_by_id ids (u_identity event) ;;
        match orders with
        | [] => Ret (Err (MostroCantDo NotFound))
        | _ =>
            let small_orders :=
              map (fun o => (small_order_from o) <| so_buyer_invoice := None |>) orders in
            enqueue_order_msg (m_request_id msg) None Orders (Some (PlOrders small_orders))
              (u_sender event) None ;;;
            Ret (Ok tt)
        end
  | _ => Ret (Err (MostroCantDo InvalidParameters))
  end.

Definition process_restore_session_work (master_key : string) :
    M (result (list (Uuid * option Z * string) * list RestoredDispute) MostroError) :=
  restore_orders <-? find_user_orders_by_master_key master_key ;;
  restore_disputes <-? find_user_disputes_by_master_key master_key ;;
  Ret (Ok (restore_orders, restore_disputes)).

(** The request and the background task that answers it; a task that fails
    leaves the waiting side to its time-out notice. *)
Definition restore_session_action (event : UnwrappedMessage) : M (result unit MostroError) :=
  work <- process_restore_session_work (u_identity event) ;;
  (match pubkey_from_str (u_sender event), work with
   | Ok trade_pubkey, Ok (os, ds) => ask (EnqueueRestore (Some (PlRestoreData os ds)) trade_pubkey)
   | Ok trade_pubkey, Err _ => ask (EnqueueRestore None trade_pubkey)
   | Err _, _ => Ret tt
   end) ;;;
  Ret (Ok tt).

(** ** The maker's trade key *)

Definition trade_pubkey_action (msg : Message) (event : UnwrappedMessage) :
    M (result unit MostroError) :=
  order <-? get_order msg ;;
  if negb (is_ok (check_status order Pending)) && negb (is_ok (check_status order WaitingTakerBond))
  then Ret (Err (MostroCantDo CantDoInvalidOrderStatus))
  else
    kind <-? Ret (map_err MostroInternalErr (get_order_kind order)) ;;
    maker_master_key <-? Ret (map_err MostroInternalErr
      match kind with
      | Sell => get_master_seller_pubkey order
      | Buy => get_master_buyer_pubkey order
      end) ;;
    if negb (str_eqb maker_master_key (u_identity event))
    then Ret (Err (MostroInternalErr InvalidPubkey))
    else
      let order := match kind with
                   | Sell => order <| o_seller_pubkey := Some (u_sender event) |>
                   | Buy => order <| o_buyer_pubkey := Some (u_sender event) |>
                   end in
      let order := order <| o_creator_pubkey := u_sender event |> in
      enqueue_order_msg (m_request_id msg) (Some (o_id order)) TradePubkey None
        (u_sender event) None ;;;
      _ <-? sql_or_db_error (order_update_stmt order) ;;
      Ret (Ok tt).
End Sessions.
