(* ===== verification/Cashu.v ===== *)
(** * The Cashu mint client

    [src/cashu/mod.rs]: the checks on an escrow token (its 2-of-3 spending
    condition with the seller's recovery path, the floor on the locktime, mint,
    unit and value, the mint's signatures, the unspent state) and the
    connection to the mint.  The cdk crate parses tokens and conditions and
    does the elliptic-curve work: its functions are the class [Cdk]. *)

From stdpp Require Import gmap.
From S2P Require Import Prelude Float64 Config CashuTypes BondTypes Effects Model.

Open Scope Z_scope.
Open Scope prog_scope.

Class Cdk : Type := {
  mint_url_from_str : string -> result string string;
  token_from_str : string -> result CashuToken string;
  token_secrets : CashuToken -> list string;
  token_mint_url : CashuToken -> result string string;
  token_unit : CashuToken -> option CurrencyUnit;
  token_value : CashuToken -> result Z string;
  nut10_from_secret : string -> result Nut10Secret string;
  tag_kind_from : string -> TagKind;
  conditions_from_nut10 : Nut10Secret -> result SpendingConditions string;
  conditions_from_secret : string -> result SpendingConditions string;
  hash_to_curve : string -> result string string;
  short_keyset_id : string -> string;
  (** a proof, the full id of its keyset, the mint's key for its amount *)
  verify_dleq : CashuProof -> string -> string -> bool;
  cashu_key_from_hex : string -> result string string
}.

Definition token_proofs (t : CashuToken) : list CashuProof :=
  match t with TokenV3 entries _ | TokenV4 _ _ entries => concat (map snd entries) end.

(** What the code relies on: the secrets of a token are those of its proofs,
    its value is the sum of their amounts, and the conditions of a secret are
    those of its NUT-10 form. *)
Class CdkLaws `{Cdk} : Prop := {
  token_secrets_are : forall t, token_secrets t = map cp_secret (token_proofs t);
  token_value_is : forall t v, token_value t = Ok v -> v = foldr Z.add 0 (map cp_amount (token_proofs t));
  conditions_via_nut10 : forall s, conditions_from_secret s = (let? n := nut10_from_secret s in conditions_from_nut10 n)
}.

Inductive CashuError : Type :=
| InvalidMintUrl (s : string)
| MintConnection (s : string)
| TokenError (s : string)
| ConditionError (s : string)
| ClientError (s : string).

Definition cashu_error_to_string (e : CashuError) : string :=
  match e with
  | InvalidMintUrl s => "Invalid mint URL: " +:+ s
  | MintConnection s => "Mint connection error: " +:+ s
  | TokenError s => "Token error: " +:+ s
  | ConditionError s => "Condition error: " +:+ s
  | ClientError s => "Client error: " +:+ s
  end.

(** The client is bound to one mint. *)
Record CashuClient : Type := mkCashuClient { client_mint_url : string }.

Section Cashu.
Context `{Lib} `{Cdk}.

(** ** The connection *)

Definition bounded {T} (timeout : string) (err : string -> CashuError)
    (r : option (result T string)) : result T CashuError :=
  match r with
  | None => Err (MintConnection timeout)
  | Some r => map_err err r
  end.

Definition connect (url : string) : M (result CashuClient CashuError) :=
  url <-? Ret (map_err InvalidMintUrl (mint_url_from_str url)) ;;
  info <- ask GetMintInfo ;;
  info <-? Ret (bounded "timed out fetching mint info" MintConnection info) ;;
  if negb (nut11 info) then Ret (Err (MintConnection "Mint does not support NUT-11 P2PK"))
  else if negb (nut07 info)
  then Ret (Err (MintConnection "Mint does not support NUT-07 token state check"))
  else if negb (nut12 info)
  then Ret (Err (MintConnection "Mint does not support NUT-12 DLEQ proofs"))
  else
    keysets <- ask GetMintKeysets ;;
    keysets <-? Ret (bounded "timed out fetching mint keysets" MintConnection keysets) ;;
    if negb (existsb (fun ks => ki_active ks && bool_decide (ki_unit ks = Sat)) keysets)
    then Ret (Err (MintConnection "Mint has no active sat keyset"))
    else Ret (Ok (mkCashuClient url)).

(** ** The spending condition *)

Definition is_custom (k : TagKind) : bool := match k with TagCustom _ => true | _ => false end.

(** The loop of [reject_duplicate_standard_tags]; [seen] are the kinds so far. *)
Fixpoint duplicate_tag (seen : list TagKind) (tags : list (list string)) : option string :=
  match tags with
  | [] => None
  | tag :: tags' =>
      match tag with
      | [] => duplicate_tag seen tags'
      | key :: _ =>
          let kind := tag_kind_from key in
          if is_custom kind then duplicate_tag seen tags'
          else if bool_decide (kind ∈ seen) then Some key
          else duplicate_tag (kind :: seen) tags'
      end
  end.

Definition reject_duplicate_standard_tags (secret : Nut10Secret) : result unit CashuError :=
  match n10_tags secret with
  | None => Ok tt
  | Some tags =>
      match duplicate_tag [] tags with
      | Some key => Err (ConditionError
          ("duplicate NUT-11 `" +:+ key +:+ "` tag (malformed per NUT-11)"))
      | None => Ok tt
      end
  end.

(** One NUT-11 condition against the escrow's shape. *)
Definition check_conditions (data : string) (c : Conditions) (expected : gset string) (p_s : string) :
    result unit CashuError :=
  if negb (bool_decide (sig_flag c = SigInputs))
  then Err (ConditionError "escrow sig flag SigAll is not SIG_INPUTS")
  else if negb (bool_decide (num_sigs c = Some 2))
  then Err (ConditionError "Spending condition must require exactly 2 signatures")
  else
    let extra_pubkeys := default [] (cond_pubkeys c) in
    let stated_len := (1 + length extra_pubkeys)%nat in
    let signing_set : gset string := {[data]} ∪ list_to_set extra_pubkeys in
    if negb (size signing_set =? stated_len)%nat
    then Err (ConditionError "Spending condition repeats a pubkey")
    else if negb (bool_decide (signing_set = expected))
    then Err (ConditionError
      "Spending condition pubkeys do not match the expected {buyer, seller, mostro}")
    else if is_none (locktime c)
    then Err (ConditionError "Spending condition must carry a locktime (seller-recovery pathway)")
    else if negb (bool_decide (refund_keys c = Some [p_s]))
    then Err (ConditionError "Refund keys must be exactly [seller]")
    else
      match num_sigs_refund c with
      | Some n =>
          if negb (n =? 1)
          then Err (ConditionError ("n_sigs_refund must be 1, got " +:+ i64_to_string n))
          else Ok tt
      | None => Ok tt
      end.

Definition check_secret (expected : gset string) (p_s : string) (secret : string) :
    result unit CashuError :=
  let? nut10_secret := map_err ConditionError (nut10_from_secret secret) in
  let? _ := reject_duplicate_standard_tags nut10_secret in
  let? spending_conditions := map_err ConditionError (conditions_from_nut10 nut10_secret) in
  match spending_conditions with
  | HTLCConditions _ _ => Err (ConditionError "Spending condition kind HTLC is not P2PK")
  | P2PKConditions data conditions =>
      let? conditions := ok_or conditions (ConditionError "P2PK condition carries no NUT-11 tags") in
      check_conditions data conditions expected p_s
  end.

Definition verify_2of3_condition (token p_b p_s p_m : string) : result CashuToken CashuError :=
  let? token := map_err TokenError (token_from_str token) in
  match token_secrets token with
  | [] => Err (TokenError "Token contains no secrets")
  | secrets =>
      let expected : gset string := list_to_set [p_b; p_s; p_m] in
      if negb (size expected =? 3)%nat
      then Err (ConditionError "Buyer, seller and Mostro pubkeys must be distinct")
      else let? _ := check_each secrets (check_secret expected p_s) in Ok token
  end.

(** The floor on one secret's locktime; [None] is the [unreachable!] or the
    [expect] of the source. *)
Definition check_floor (min_locktime : Z) (secret : string) : option (result unit CashuError) :=
  match conditions_from_secret secret with
  | Ok (P2PKConditions _ (Some c)) =>
      match locktime c with
      | Some t =>
          Some (if t <? min_locktime
                then Err (ConditionError ("locktime " +:+ i64_to_string t +:+
                       " is below the required floor " +:+ i64_to_string min_locktime))
                else Ok tt)
      | None => None
      end
  | _ => None
  end.

Fixpoint check_floors (min_locktime : Z) (secrets : list string) : option (result unit CashuError) :=
  match secrets with
  | [] => Some (Ok tt)
  | s :: secrets' =>
      match check_floor min_locktime s with
      | None => None
      | Some (Err e) => Some (Err e)
      | Some (Ok _) => check_floors min_locktime secrets'
      end
  end.

(** [None] is a panic. *)
Definition verify_escrow_conditions (token_str p_b p_s p_m : string) (min_locktime : Z) :
    option (result CashuToken CashuError) :=
  match verify_2of3_condition token_str p_b p_s p_m with
  | Err e => Some (Err e)
  | Ok token =>
      match check_floors min_locktime (token_secrets token) with
      | None => None
      | Some (Err e) => Some (Err e)
      | Some (Ok _) => Some (Ok token)
      end
  end.

(** ** The mint's view of a token *)

Definition reject_duplicate_proofs (token : CashuToken) : result unit CashuError :=
  if bool_decide (NoDup (token_secrets token)) then Ok tt
  else Err (TokenError "token repeats a proof (duplicate secret)").

Definition check_state (ys : list string) : M (result (list ProofState) CashuError) :=
  response <- ask (PostCheckState ys) ;;
  Ret (bounded "timed out checking proof state" ClientError response).

Definition find_keyset (keysets : list KeySet) (short_id : string) : result KeySet CashuError :=
  let? keyset := ok_or (List.find (fun k => str_eqb (short_keyset_id (ks_id k)) short_id) keysets)
                   (TokenError "Unknown keyset") in
  if bool_decide (ks_unit keyset = Sat) then Ok keyset
  else Err (TokenError "proof keyset unit is not sat").

Definition key_for_amount (keyset : KeySet) (amount : Z) : option string :=
  option_map snd (List.find (fun ak => ak.1 =? amount) (ks_keys keyset)).

Definition check_proof (keyset : KeySet) (proof : CashuProof) : result unit CashuError :=
  let? mint_pubkey := ok_or (key_for_amount keyset (cp_amount proof))
                        (TokenError "Unknown amount for keyset") in
  if verify_dleq proof (ks_id keyset) mint_pubkey then Ok tt
  else Err (TokenError "Invalid DLEQ proof").

Definition check_dleqs (keysets : list KeySet) (token : CashuToken) : result unit CashuError :=
  match token with
  | TokenV3 entries _ =>
      check_each (concat (map snd entries)) (fun proof =>
        let? keyset := find_keyset keysets (cp_keyset_id proof) in check_proof keyset proof)
  | TokenV4 _ _ entries =>
      check_each entries (fun entry =>
        let? keyset := find_keyset keysets entry.1 in
        check_each entry.2 (check_proof keyset))
  end.

Definition verify_token_dleq (token : CashuToken) : M (result unit CashuError) :=
  keysets <- ask GetMintKeys ;;
  keysets <-? Ret (bounded "timed out fetching mint keys" ClientError keysets) ;;
  Ret (check_dleqs keysets token).

(** [collect] into a [Result]. *)
Fixpoint points_of (secrets : list string) : result (list string) string :=
  match secrets with
  | [] => Ok []
  | s :: secrets' =>
      let? y := hash_to_curve s in
      let? ys := points_of secrets' in
      Ok (y :: ys)
  end.

(** The checks between the condition and the mint. *)
Definition check_value (client : CashuClient) (token : CashuToken) (expected_amount : Z) :
    result unit CashuError :=
  let? token_mint := map_err (fun e => TokenError ("token mint url: " +:+ e)) (token_mint_url token) in
  if negb (str_eqb token_mint (client_mint_url client))
  then Err (TokenError ("token mint " +:+ token_mint +:+ " does not match configured mint " +:+
              client_mint_url client))
  else
    let? _ := reject_duplicate_proofs token in
    if negb (bool_decide (token_unit token = Some Sat))
    then Err (TokenError "token unit is not sat")
    else
      let? value := map_err (fun e => TokenError ("token value: " +:+ e)) (token_value token) in
      if negb (value =? expected_amount)
      then Err (TokenError ("token amount " +:+ i64_to_string value +:+ " does not match expected " +:+
                  i64_to_string expected_amount))
      else Ok tt.

(** A panic of the two [unreachable!]s would abort the turn; the conditions are
    the ones checked before, so there is none ([verify_escrow_conditions] is
    never [None]) and the default is never used. *)
Definition verify_escrow_token (client : CashuClient) (token_str p_b p_s p_m : string)
    (expected_amount min_locktime : Z) : M (result CashuToken CashuError) :=
  token <-? Ret (default (Err (ConditionError "panic"))
                   (verify_escrow_conditions token_str p_b p_s p_m min_locktime)) ;;
  _ <-? Ret (check_value client token expected_amount) ;;
  _ <-? verify_token_dleq token ;;
  ys <-? Ret (map_err (fun e => TokenError ("proof Y: " +:+ e)) (points_of (token_secrets token))) ;;
  states <-? check_state ys ;;
  if negb (length states =? length ys)%nat
  then Ret (Err (TokenError "checkstate returned a wrong number of states"))
  else if existsb (fun s => negb (bool_decide (s = Unspent))) states
  then Ret (Err (TokenError "one or more proofs are not unspent"))
  else Ret (Ok token).

(** A Nostr key becomes the compressed key of even parity. *)
Definition cashu_pubkey_from_xonly_hex (xonly_hex : string) : result string CashuError :=
  if negb (String.length xonly_hex =? 64)%nat
  then Err (ConditionError ("expected 64-char x-only hex, got " +:+
              i64_to_string (Z.of_nat (String.length xonly_hex))))
  else map_err (fun e => ConditionError ("pubkey convert: " +:+ e))
         (cashu_key_from_hex ("02" +:+ xonly_hex)).
End Cashu.
