(* ===== verification/CashuEscrow.v ===== *)
(** * The Cashu escrow

    [src/app/add_cashu_escrow.rs]: a seller funds a trade with an ecash token
    in place of a hold invoice.  The token is checked in full, then stored with
    the new status of the order in one guarded statement ([src/db.rs]), then
    both parties are told.  [src/escrow.rs]: the seam between the two kinds of
    escrow. *)

From S2P Require Import Prelude Float64 Config CashuTypes BondTypes Effects Model.
From S2P Require Import Lightning BondDb OrderDb Messages Users NewOrder Take Cashu.

Open Scope Z_scope.
Open Scope prog_scope.

(** ** [escrow.rs] *)

(** The trait; the two heights have default methods. *)
Record EscrowBackend : Type := mkEscrowBackend {
  eb_create_hold_invoice : string -> Z -> M (result (string * list Z * list Z) MostroError);
  eb_settle_hold_invoice : string -> M (result unit MostroError);
  eb_cancel_hold_invoice : string -> M (result unit MostroError);
  eb_chain_height : M (result Z MostroError);
  eb_hold_invoice_expiry_height : string -> M (result (option Z) MostroError)
}.

Definition no_chain_height : M (result Z MostroError) :=
  Ret (Err (MostroInternalErr (LnNodeError "chain height not available for this escrow backend"))).

Definition no_expiry_height (hash : string) : M (result (option Z) MostroError) :=
  Ret (Err (MostroInternalErr (LnNodeError
    "HTLC expiry height not available for this escrow backend"))).

Definition lnd_backend `{Lib} (settings : Settings) : EscrowBackend :=
  mkEscrowBackend (create_hold_invoice settings) settle_hold_invoice cancel_hold_invoice
    get_chain_height get_hold_invoice_expiry_height.

Definition cashu_not_implemented (op : string) : MostroError :=
  MostroInternalErr (HoldInvoiceError
    ("cashu escrow backend: " +:+ op +:+ " not implemented (foundation stub)")).

Definition cashu_backend : EscrowBackend :=
  mkEscrowBackend
    (fun _ _ => Ret (Err (cashu_not_implemented "create_hold_invoice")))
    (fun _ => Ret (Err (cashu_not_implemented "settle_hold_invoice")))
    (fun _ => Ret (Err (cashu_not_implemented "cancel_hold_invoice")))
    no_chain_height no_expiry_height.

(** ** Statements *)

Definition holds_token (token : string) (o : Order) : bool :=
  bool_decide (o_cashu_escrow_token o = Some token).

(** Whether an order other than [i] holds the token. *)
Definition token_elsewhere (token : string) (i : Uuid) (db : DB) : bool :=
  exists_row (fun o => holds_token token o && negb (N.eqb (o_id o) i)) (orders db).

Definition cashu_lock_stmt (i : Uuid) (mint token : string) (at_time : Z)
    (expected new : string) (db : DB) : DB * Z :=
  update_orders
    (fun o => order_with_status i expected o && is_none (o_cashu_escrow_locked_at o) &&
              negb (token_elsewhere token i db))
    (fun o => o <| o_cashu_mint_url := Some mint |>
                <| o_cashu_escrow_token := Some token |>
                <| o_cashu_escrow_locked_at := Some at_time |>
                <| o_status := new |>) db.

Definition locked_orders (db : DB) : list Order :=
  select_ordered (fun o => is_some (o_cashu_escrow_locked_at o))
    (fun o => default 0 (o_cashu_escrow_locked_at o)) (orders db).

(** [str::trim_end_matches('/')]. *)
Fixpoint trim_end_slashes (s : string) : string :=
  match s with
  | EmptyString => EmptyString
  | String c s' =>
      match trim_end_slashes s' with
      | EmptyString => if Ascii.eqb c "/"%char then EmptyString else String c EmptyString
      | t => String c t
      end
  end.

Definition SECONDS_PER_DAY : Z := 86400.
Definition U64_MAX : Z := 2 ^ 64 - 1.

(** [u64::saturating_mul] and [saturating_add]. *)
Definition min_locktime_of (now days : Z) : Z :=
  Z.min U64_MAX (now mod 2 ^ 64 + Z.min U64_MAX (days * SECONDS_PER_DAY)).

(** ** The handler *)

Section CashuEscrow.
Context `{Lib} `{Core} `{Cdk} (settings : Settings) (node_pubkey : string).
Context (cashu_client : option CashuClient).

Definition cashu_escrow_token_in_use (token : string) (exclude : Uuid) :
    M (result bool MostroError) :=
  sql_or_db_error (query (token_elsewhere token exclude)).

Definition update_order_cashu_escrow (order_id : Uuid) (mint token : string) (locked_at : Z)
    (expected new : Status) : M (result bool MostroError) :=
  n <-? sql_or_db_error (cashu_lock_stmt order_id mint token locked_at
                           (status_to_string expected) (status_to_string new)) ;;
  Ret (Ok (0 <? n)).

Definition find_locked_cashu_orders : M (result (list Order) MostroError) :=
  sql_or_db_error (query locked_orders).

Definition cashu_reason (e : CashuError) : CantDoReason :=
  match e with
  | InvalidMintUrl _ => CantDoInvalidMintUrl
  | MintConnection _ | ClientError _ => CashuMintUnavailable
  | TokenError _ | ConditionError _ => InvalidCashuToken
  end.

Definition notify_escrow_locked (order_id : Uuid) (buyer_pubkey seller_pubkey : string)
    (request_id : option Z) : M unit :=
  enqueue_order_msg None (Some order_id) CashuEscrowLocked None buyer_pubkey None ;;;
  enqueue_order_msg request_id (Some order_id) CashuEscrowLocked None seller_pubkey None.

Definition classify_zero_row_cas (order_id : Uuid) (token : string) : M (result unit MostroError) :=
  in_use <-? cashu_escrow_token_in_use token order_id ;;
  if in_use then Ret (Err (MostroCantDo InvalidCashuToken))
  else
    fresh <- find_order_by_id order_id ;;
    Ret (match fresh with
         | Ok (Some fresh) =>
             if is_some (o_cashu_escrow_locked_at fresh) && negb (holds_token token fresh)
             then Err (MostroCantDo InvalidCashuToken)
             else Ok tt
         | _ => Ok tt
         end).

(** Step 9: the new state is published and the row written back. *)
Definition publish_locked (order_id : Uuid) : M unit :=
  row <- find_order_by_id order_id ;;
  match row with
  | Ok (Some fresh) =>
      published <- update_order_event Active fresh ;;
      match published with
      | Ok updated => sql (order_update_stmt updated) ;;; Ret tt
      | Err _ => Ret tt
      end
  | _ => Ret tt
  end.

(** Steps 5 to 10, for an order that is not locked yet. *)
Definition lock_escrow (order : Order) (proof : CashuLockProof) (buyer_pubkey seller_pubkey : string)
    (request_id : option Z) : M (result unit MostroError) :=
  configured_mint <-? Ret (ok_or (option_map mint_url (get_cashu settings))
    (MostroInternalErr (UnexpectedError "cashu mode without [cashu] settings"))) ;;
  if negb (str_eqb (trim_end_slashes (lp_mint_url proof)) (trim_end_slashes configured_mint))
  then Ret (Err (MostroCantDo CantDoInvalidMintUrl))
  else if negb (str_eqb (lp_buyer_pubkey proof) buyer_pubkey) ||
          negb (str_eqb (lp_seller_pubkey proof) seller_pubkey) ||
          negb (str_eqb (lp_mostro_pubkey proof) node_pubkey)
  then Ret (Err (MostroCantDo InvalidCashuToken))
  else
    let to_cashu hex :=
      map_err (fun _ => MostroCantDo InvalidCashuToken) (cashu_pubkey_from_xonly_hex hex) in
    p_b <-? Ret (to_cashu buyer_pubkey) ;;
    p_s <-? Ret (to_cashu seller_pubkey) ;;
    p_m <-? Ret (to_cashu node_pubkey) ;;
    let expected_amount := o_amount order in
    if expected_amount <=? 0 then Ret (Err (MostroCantDo InvalidAmount))
    else
      in_use <-? cashu_escrow_token_in_use (lp_token proof) (o_id order) ;;
      if in_use then Ret (Err (MostroCantDo InvalidCashuToken))
      else
        client <-? Ret (ok_or cashu_client (MostroInternalErr (UnexpectedError
                          "cashu client not connected"))) ;;
        now <- ask Now ;;
        let locktime_days := default 15 (option_map escrow_locktime_days (get_cashu settings)) in
        verified <- verify_escrow_token client (lp_token proof) p_b p_s p_m expected_amount
                      (min_locktime_of now locktime_days) ;;
        _ <-? Ret (map_err (fun e => MostroCantDo (cashu_reason e)) verified) ;;
        locked <-? update_order_cashu_escrow (o_id order) configured_mint (lp_token proof) now
                     WaitingPayment Active ;;
        if negb locked then
          _ <-? classify_zero_row_cas (o_id order) (lp_token proof) ;;
          Ret (Ok tt)
        else
          publish_locked (o_id order) ;;;
          notify_escrow_locked (o_id order) buyer_pubkey seller_pubkey request_id ;;;
          Ret (Ok tt).

Definition add_cashu_escrow_action (msg : Message) (event : UnwrappedMessage) :
    M (result unit MostroError) :=
  order <-? get_order msg ;;
  let request_id := m_request_id msg in
  seller_pubkey <-? Ret (map_err MostroInternalErr (get_seller_pubkey order)) ;;
  if negb (str_eqb seller_pubkey (u_sender event)) then Ret (Err (MostroCantDo InvalidPeer))
  else
    buyer_pubkey <-? Ret (map_err MostroInternalErr (get_buyer_pubkey order)) ;;
    let replayable := is_some (o_cashu_escrow_locked_at order) &&
                      str_eqb (o_status order) (status_to_string Active) in
    _ <-? Ret (if replayable then Ok tt
               else map_err MostroCantDo (check_status order WaitingPayment)) ;;
    proof <-? Ret (match m_payload msg with
                   | Some (PlCashuLockProof p) => Ok p
                   | _ => Err (MostroCantDo InvalidCashuToken)
                   end) ;;
    if replayable then
      if negb (holds_token (lp_token proof) order) then Ret (Err (MostroCantDo InvalidCashuToken))
      else
        notify_escrow_locked (o_id order) buyer_pubkey seller_pubkey request_id ;;;
        Ret (Ok tt)
    else lock_escrow order proof buyer_pubkey seller_pubkey request_id.
End CashuEscrow.
