(* ===== verification/CashuDemo.v ===== *)
(** * A concrete mint

    An instance of the cdk functions with one token, for the witnesses: two
    proofs, 100000 sats together, locked to the keys of order 7's parties and
    of the daemon. *)

From S2P Require Import Prelude Float64 Config CashuTypes BondTypes Effects Model Demo Cashu CashuEscrow.

Open Scope Z_scope.
Open Scope prog_scope.

Definition demo_token : CashuToken :=
  TokenV4 "https://mint" Sat
    [("short-sat", [mkProof 60000 "short-sat" "secret-1" "sig"; mkProof 40000 "short-sat" "secret-2" "sig"])].

Definition demo_secret : Nut10Secret :=
  mkNut10 "P2PK" ("02" +:+ demo_buyer)
    (Some [["pubkeys"; "02" +:+ demo_seller; "02" +:+ demo_node]; ["n_sigs"; "2"];
           ["locktime"; "5000000"]; ["refund"; "02" +:+ demo_seller]; ["memo"]; ["memo"]]).

(** The values of a tag, and the conditions of a secret. *)
Fixpoint tag_values (key : string) (tags : list (list string)) : option (list string) :=
  match tags with
  | [] => None
  | (k :: vs) :: tags' => if str_eqb k key then Some vs else tag_values key tags'
  | [] :: tags' => tag_values key tags'
  end.

Definition tag_number (key : string) (tags : list (list string)) : option Z :=
  match tag_values key tags with Some [v] => parse_u64 v | _ => None end.

Definition demo_conditions (n : Nut10Secret) : result SpendingConditions string :=
  if str_eqb (n10_kind n) "P2PK" then
    Ok (P2PKConditions (n10_data n) (option_map (fun tags =>
      mkConditions (tag_number "locktime" tags) (tag_values "pubkeys" tags)
        (tag_values "refund" tags) (tag_number "n_sigs" tags) SigInputs
        (tag_number "n_sigs_refund" tags)) (n10_tags n)))
  else Err "unknown kind".

Definition demo_tag_kind (key : string) : TagKind :=
  if str_eqb key "sigflag" then TagSigFlag
  else if str_eqb key "n_sigs" then TagNSigs
  else if str_eqb key "locktime" then TagLocktime
  else if str_eqb key "refund" then TagRefund
  else if str_eqb key "pubkeys" then TagPubkeys
  else if str_eqb key "n_sigs_refund" then TagNSigsRefund
  else TagCustom key.

Definition demo_nut10 (s : string) : result Nut10Secret string :=
  if String.prefix "secret" s then Ok demo_secret else Err "not a NUT-10 secret".

Definition token_sum (t : CashuToken) : Z := foldr Z.add 0 (map cp_amount (token_proofs t)).

#[export] Instance demo_cdk : Cdk := {|
  mint_url_from_str := fun s => Ok s;
  token_from_str := fun s => if str_eqb s "cashuB" then Ok demo_token else Err "invalid token";
  token_secrets := fun t => map cp_secret (token_proofs t);
  token_mint_url := fun t => match t with TokenV4 m _ _ => Ok m | TokenV3 _ _ => Err "multiple mints" end;
  token_unit := fun t => match t with TokenV4 _ u _ => Some u | TokenV3 _ u => u end;
  token_value := fun t => Ok (token_sum t);
  nut10_from_secret := demo_nut10;
  tag_kind_from := demo_tag_kind;
  conditions_from_nut10 := demo_conditions;
  conditions_from_secret := fun s => (let? n := demo_nut10 s in demo_conditions n);
  hash_to_curve := fun s => Ok ("Y-" +:+ s);
  short_keyset_id := fun s => if str_eqb s "keyset-sat" then "short-sat" else s;
  verify_dleq := fun p _ key => str_eqb (cp_signature p) "sig" && negb (str_eqb key "");
  cashu_key_from_hex := fun s => Ok s
|}.

#[export] Instance demo_cdk_laws : CdkLaws.
Proof. split; [done| |done]. by intros t v [= <-]. Qed.

Definition demo_cashu_settings : Settings :=
  mkSettings None (get_mostro demo_settings) (get_ln demo_settings) (ln_networks demo_settings)
    (Some (mkCashuSettings true "https://mint/" 15)) None ["wss://relay"].
