(* ===== verification/Lnurl.v ===== *)
(** * LNURL

    [src/lnurl.rs]: Lightning addresses and LNURLs become invoices.  The
    daemon fetches URLs that other people choose, so each request is checked
    against a policy on addresses and pinned to the address checked.

    Its programs have requests of their own, the DNS lookup and the HTTP GET;
    they are the answers to [LnExists] and [ResolvLnAddress] that the handlers
    of the other files ask for.  The url crate, the bech32 decoder and the JSON
    parser are parameters. *)

From stdpp Require Import pretty.
From S2P Require Import Prelude BondTypes Effects Model.

Open Scope Z_scope.
Open Scope prog_scope.

(** ** Addresses: [std::net] *)

Record Ipv4Addr : Type := mkV4 { oct0 : Z; oct1 : Z; oct2 : Z; oct3 : Z }.
Record Ipv6Addr : Type := mkV6 {
  seg0 : Z; seg1 : Z; seg2 : Z; seg3 : Z; seg4 : Z; seg5 : Z; seg6 : Z; seg7 : Z }.
Inductive IpAddr : Type := V4 (a : Ipv4Addr) | V6 (a : Ipv6Addr).
Record SocketAddr : Type := mkSocket { sock_ip : IpAddr; sock_port : Z }.

Definition v4_octets (a : Ipv4Addr) : list Z := [oct0 a; oct1 a; oct2 a; oct3 a].
Definition v6_segments (a : Ipv6Addr) : list Z :=
  [seg0 a; seg1 a; seg2 a; seg3 a; seg4 a; seg5 a; seg6 a; seg7 a].

Definition between (lo hi x : Z) : bool := (lo <=? x) && (x <=? hi).

(** The predicates of [Ipv4Addr]. *)
Definition v4_unspecified (a : Ipv4Addr) : bool := forallb (Z.eqb 0) (v4_octets a).
Definition v4_broadcast (a : Ipv4Addr) : bool := forallb (Z.eqb 255) (v4_octets a).
Definition v4_multicast (a : Ipv4Addr) : bool := between 224 239 (oct0 a).
Definition v4_link_local (a : Ipv4Addr) : bool := (oct0 a =? 169) && (oct1 a =? 254).
Definition v4_documentation (a : Ipv4Addr) : bool :=
  ((oct0 a =? 192) && (oct1 a =? 0) && (oct2 a =? 2)) ||
  ((oct0 a =? 198) && (oct1 a =? 51) && (oct2 a =? 100)) ||
  ((oct0 a =? 203) && (oct1 a =? 0) && (oct2 a =? 113)).
Definition v4_loopback (a : Ipv4Addr) : bool := oct0 a =? 127.
Definition v4_private (a : Ipv4Addr) : bool :=
  (oct0 a =? 10) || ((oct0 a =? 172) && between 16 31 (oct1 a)) ||
  ((oct0 a =? 192) && (oct1 a =? 168)).

(** Those of [Ipv6Addr]. *)
Definition v6_unspecified (a : Ipv6Addr) : bool := forallb (Z.eqb 0) (v6_segments a).
Definition v6_loopback (a : Ipv6Addr) : bool :=
  forallb (Z.eqb 0) [seg0 a; seg1 a; seg2 a; seg3 a; seg4 a; seg5 a; seg6 a] && (seg7 a =? 1).
Definition v6_multicast (a : Ipv6Addr) : bool := Z.land (seg0 a) 0xff00 =? 0xff00.
Definition v6_unicast_link_local (a : Ipv6Addr) : bool := Z.land (seg0 a) 0xffc0 =? 0xfe80.
Definition v6_unique_local (a : Ipv6Addr) : bool := Z.land (seg0 a) 0xfe00 =? 0xfc00.
Definition to_ipv4_mapped (a : Ipv6Addr) : option Ipv4Addr :=
  if forallb (Z.eqb 0) [seg0 a; seg1 a; seg2 a; seg3 a; seg4 a] && (seg5 a =? 0xffff)
  then Some (mkV4 (Z.shiftr (seg6 a) 8) (Z.land (seg6 a) 255)
               (Z.shiftr (seg7 a) 8) (Z.land (seg7 a) 255))
  else None.

(** ** The policy *)

Definition private_hosts_allowed : bool := false.

Definition ipv4_is_cgnat (a : Ipv4Addr) : bool := (oct0 a =? 100) && between 64 127 (oct1 a).

Definition ipv4_is_always_forbidden (a : Ipv4Addr) : bool :=
  v4_unspecified a || v4_broadcast a || v4_multicast a || v4_link_local a ||
  v4_documentation a || ipv4_is_cgnat a.

Definition ipv6_is_nat64_well_known (a : Ipv6Addr) : bool :=
  (seg0 a =? 0x64) && (seg1 a =? 0xff9b) && (seg2 a =? 0) && (seg3 a =? 0) && (seg4 a =? 0) &&
  (seg5 a =? 0).

Definition mapped (p : Ipv4Addr -> bool) (a : Ipv6Addr) : bool :=
  match to_ipv4_mapped a with Some v4 => p v4 | None => false end.

Definition ip_is_forbidden (ip : IpAddr) : bool :=
  match ip with
  | V4 a =>
      if ipv4_is_always_forbidden a then true
      else if private_hosts_allowed then false
      else v4_loopback a || v4_private a
  | V6 a =>
      if v6_unspecified a || v6_multicast a || v6_unicast_link_local a ||
         ipv6_is_nat64_well_known a || mapped ipv4_is_always_forbidden a then true
      else if private_hosts_allowed then false
      else v6_loopback a || v6_unique_local a || mapped (fun v4 => v4_loopback v4 || v4_private v4) a
  end.

(** ** Text: [str] and the [FromStr] of [IpAddr] *)

Fixpoint split_once (c : ascii) (s : string) : option (string * string) :=
  match s with
  | EmptyString => None
  | String d s' =>
      if Ascii.eqb d c then Some (EmptyString, s')
      else option_map (fun p => (String d p.1, p.2)) (split_once c s')
  end.

(** At the first ["::"]. *)
Fixpoint split_double (s : string) : option (string * string) :=
  match s with
  | String ":" (String ":" rest) => Some (EmptyString, rest)
  | String d s' => option_map (fun p => (String d p.1, p.2)) (split_double s')
  | EmptyString => None
  end.

(** One to three digits, at most 255, without a leading zero. *)
Definition parse_octet (s : string) : option Z :=
  match s with
  | EmptyString | String _ (String _ (String _ (String _ _))) => None
  | String "0" (String _ _) => None
  | _ => match parse_digits 0 s with
         | Some n => if n <=? 255 then Some n else None
         | None => None
         end
  end.

Definition parse_ipv4 (s : string) : option Ipv4Addr :=
  match map parse_octet (split_on "." s) with
  | [Some a; Some b; Some c; Some d] => Some (mkV4 a b c d)
  | _ => None
  end.

Definition hex_value (c : ascii) : option Z :=
  let n := Z.of_nat (Ascii.nat_of_ascii c) in
  if between 48 57 n then Some (n - 48)
  else if between 97 102 n then Some (n - 87)
  else if between 65 70 n then Some (n - 55)
  else None.

Fixpoint parse_hex (acc : Z) (s : string) : option Z :=
  match s with
  | EmptyString => Some acc
  | String c s' => match hex_value c with Some d => parse_hex (16 * acc + d) s' | None => None end
  end.

(** One to four hexadecimal digits. *)
Definition parse_group (s : string) : option Z :=
  if (1 <=? String.length s)%nat && (String.length s <=? 4)%nat then parse_hex 0 s else None.

(** Groups between colons; the last may be an IPv4 address, two segments. *)
Fixpoint parse_groups (allow_v4 : bool) (l : list string) : option (list Z) :=
  match l with
  | [] => Some []
  | [s] =>
      match parse_group s, (if allow_v4 then parse_ipv4 s else None) with
      | Some n, _ => Some [n]
      | None, Some a => Some [oct0 a * 256 + oct1 a; oct2 a * 256 + oct3 a]
      | None, None => None
      end
  | s :: l' =>
      match parse_group s, parse_groups allow_v4 l' with
      | Some n, Some ns => Some (n :: ns)
      | _, _ => None
      end
  end.

Definition groups_of (allow_v4 : bool) (s : string) : option (list Z) :=
  match s with EmptyString => Some [] | _ => parse_groups allow_v4 (split_on ":" s) end.

Definition v6_of (l : list Z) : option Ipv6Addr :=
  match l with
  | [a; b; c; d; e; f; g; h] => Some (mkV6 a b c d e f g h)
  | _ => None
  end.

Definition parse_ipv6 (s : string) : option Ipv6Addr :=
  match split_double s with
  | None => match groups_of true s with Some l => v6_of l | None => None end
  | Some (hd, tl) =>
      match groups_of false hd, groups_of true tl with
      | Some l, Some l' =>
          let n := (length l + length l')%nat in
          if (n <=? 7)%nat then v6_of (l ++ replicate (8 - n) 0 ++ l')%list else None
      | _, _ => None
      end
  end.

Definition parse_ip (s : string) : option IpAddr :=
  match parse_ipv4 s with
  | Some a => Some (V4 a)
  | None => option_map V6 (parse_ipv6 s)
  end.

(** [chars().count()]: the bytes that do not continue a UTF-8 sequence. *)
Fixpoint chars_count (s : string) : Z :=
  match s with
  | EmptyString => 0
  | String c s' =>
      (if between 128 191 (Z.of_nat (Ascii.nat_of_ascii c)) then 0 else 1) + chars_count s'
  end.

(** ** URLs and JSON *)

(** What the code reads of a parsed URL, and its decoded query pairs. *)
Record Url : Type := mkUrl {
  url_scheme : string;
  url_username : string;
  url_password : option string;
  host_str : option string;
  url_port : option Z;
  url_path : string;
  query_pairs : list (string * string)
}.

#[export] Instance Url_eta : Eta Url := fun u =>
  mkUrl (url_scheme u) (url_username u) (url_password u) (host_str u) (url_port u) (url_path u)
    (query_pairs u).

Definition port_or_known_default (u : Url) : option Z :=
  match url_port u with
  | Some p => Some p
  | None =>
      if str_eqb (url_scheme u) "http" || str_eqb (url_scheme u) "ws" then Some 80
      else if str_eqb (url_scheme u) "https" || str_eqb (url_scheme u) "wss" then Some 443
      else if str_eqb (url_scheme u) "ftp" then Some 21
      else None
  end.

(** [serde_json::Value]; the value of a number that is not an integer is not
    read. *)
Inductive Json : Type :=
| JNull
| JBool (b : bool)
| JInt (n : Z)
| JFloat
| JString (s : string)
| JArray (l : list Json)
| JObject (fields : list (string * Json)).

Definition json_get (key : string) (j : Json) : Json :=
  match j with
  | JObject fields =>
      match List.find (fun f => str_eqb f.1 key) fields with Some f => f.2 | None => JNull end
  | _ => JNull
  end.

Definition as_str (j : Json) : option string := match j with JString s => Some s | _ => None end.
Definition as_u64 (j : Json) : option Z :=
  match j with JInt n => if between 0 (2 ^ 64 - 1) n then Some n else None | _ => None end.

Class WebLib : Type := {
  url_parse : string -> result Url string;
  lnurl_decode : string -> result string string;
  json_from_str : string -> result Json string
}.

Record Response : Type := mkResponse { http_status : Z; http_text : result string string }.

Definition is_success (r : Response) : bool := between 200 299 (http_status r).

(** ** Requests *)

(** A lookup of at most [secs] seconds ([None]: it timed out) and a GET of the
    URL whose host is pinned to an address, without redirects; its failures
    include those of building the client. *)
Inductive net : Type -> Type :=
| LookupHost (host : string) (port secs : Z) : net (option (result (list SocketAddr) string))
| HttpGet (url : Url) (host : string) (pinned : SocketAddr) (timeout connect_timeout : Z) :
    net (result Response string).

Abbreviation Web := (prog unit net).
Abbreviation fetch e := (@call unit net _ e).

Definition LNURL_REQUEST_TIMEOUT : Z := 4.
Definition LNURL_CONNECT_TIMEOUT : Z := 2.
Definition LNURL_DNS_TIMEOUT : Z := 2.

Definition parse_error {A} : result A MostroError := Err (MostroInternalErr LnAddressParseError).
Definition no_response {A} : result A MostroError := Err (MostroInternalErr NoAPIResponse).

(** [util::is_http_or_https]. *)
Definition is_http_or_https (u : Url) : bool :=
  str_eqb (url_scheme u) "http" || str_eqb (url_scheme u) "https".

Definition is_ipv4 (a : SocketAddr) : bool := match sock_ip a with V4 _ => true | V6 _ => false end.

(** An IPv4 address if there is one, else the first. *)
Definition preferred (first : SocketAddr) (rest : list SocketAddr) : SocketAddr :=
  default first (List.find is_ipv4 (first :: rest)).

Definition or_else {A} (o : option A) (e : ServiceError) : Web (result A MostroError) :=
  Ret (ok_or o (MostroInternalErr e)).

Definition assert_url_host_safe (url : Url) : Web (result SocketAddr MostroError) :=
  if negb (is_http_or_https url) then Ret parse_error
  else if negb (str_eqb (url_username url) "") || is_some (url_password url) then Ret parse_error
  else
    host <-? or_else (host_str url) LnAddressParseError ;;
    port <-? or_else (port_or_known_default url) LnAddressParseError ;;
    match parse_ip host with
    | Some ip => if ip_is_forbidden ip then Ret parse_error else Ret (Ok (mkSocket ip port))
    | None =>
        found <- fetch (LookupHost host port LNURL_DNS_TIMEOUT) ;;
        Ret (match found with
             | None | Some (Err _) | Some (Ok []) => no_response
             | Some (Ok (first :: rest)) =>
                 if existsb (fun a => ip_is_forbidden (sock_ip a)) (first :: rest) then parse_error
                 else Ok (preferred first rest)
             end)
    end.

Definition lnurl_get (url : Url) : Web (result Response MostroError) :=
  pinned <-? assert_url_host_safe url ;;
  host <-? or_else (host_str url) LnAddressParseError ;;
  got <- fetch (HttpGet url host pinned LNURL_REQUEST_TIMEOUT LNURL_CONNECT_TIMEOUT) ;;
  Ret (map_err (fun _ => MostroInternalErr NoAPIResponse) got).

(** ** Resolution *)

Section Resolution.
Context `{WebLib}.

Definition parse_http_url (s : string) : result Url MostroError :=
  let? u := map_err (fun _ => MostroInternalErr LnAddressParseError) (url_parse s) in
  if is_http_or_https u then Ok u else parse_error.

Definition extract_lnurl (address : string) : result Url MostroError :=
  let? url :=
    (if String.prefix "lnurl" (to_lowercase address)
     then map_err (fun _ => MostroInternalErr LnAddressParseError) (lnurl_decode address)
     else match split_once "@" address with
          | Some (user, domain) => Ok ("https://" +:+ domain +:+ "/.well-known/lnurlp/" +:+ user)
          | None => parse_error
          end) in
  parse_http_url url.

(** The body of an answer, as JSON. *)
Definition body_of (res : Response) (on_text on_json : ServiceError) : result Json MostroError :=
  let? text := map_err (fun _ => MostroInternalErr on_text) (http_text res) in
  map_err (fun _ => MostroInternalErr on_json) (json_from_str text).

Definition text_of (key : string) (body : Json) : string := default "" (as_str (json_get key body)).
Definition number_of (key : string) (body : Json) : Z := default 0 (as_u64 (json_get key body)).

Definition ln_exists (address : string) : Web (result unit MostroError) :=
  url <-? Ret (extract_lnurl address) ;;
  res <-? lnurl_get url ;;
  if is_success res then
    body <-? Ret (body_of res NoAPIResponse MalformedAPIRes) ;;
    Ret (if str_eqb (text_of "tag" body) "payRequest" then Ok tt else parse_error)
  else Ret parse_error.

Definition fit_comment (comment : option string) (max_len : Z) : option string :=
  match comment with
  | Some c => if (0 <? max_len) && (chars_count c <=? max_len) then Some c else None
  | None => None
  end.

(** The parameters the callback gets from the daemon. *)
Definition is_own_param (kv : string * string) : bool :=
  str_eqb kv.1 "amount" || str_eqb kv.1 "comment".

Definition build_callback_url (callback : string) (amount_msat : Z) (comment : option string)
    (comment_allowed : Z) : result Url MostroError :=
  let? url := parse_http_url callback in
  let kept_pairs := List.filter (fun kv => negb (is_own_param kv)) (query_pairs url) in
  let url := url <| query_pairs := (kept_pairs ++ [("amount", pretty (Z.to_N amount_msat))])%list |> in
  Ok (match fit_comment comment comment_allowed with
      | Some value => url <| query_pairs := (query_pairs url ++ [("comment", value)])%list |>
      | None => url
      end).

(** A document of the server, unless it reports an error. *)
Definition document (res : Response) : result Json MostroError :=
  if negb (is_success res) then Err (MostroInternalErr MalformedAPIRes)
  else
    let? body := body_of res MessageSerializationError MessageSerializationError in
    if bool_decide (as_str (json_get "status" body) = Some "ERROR") then parse_error else Ok body.

Definition resolv_ln_address (address : string) (amount : Z) (comment : option string) :
    Web (result string MostroError) :=
  url <-? Ret (extract_lnurl address) ;;
  let amount_msat := amount * 1000 in
  if 2 ^ 64 <=? amount_msat then Ret (Err (MostroInternalErr WrongAmountError))
  else
    res <-? lnurl_get url ;;
    body <-? Ret (document res) ;;
    if negb (str_eqb (text_of "tag" body) "payRequest") then Ret parse_error
    else if (amount_msat <? number_of "minSendable" body) || (number_of "maxSendable" body <? amount_msat)
    then Ret parse_error
    else
      callback <-? Ret (build_callback_url (text_of "callback" body) amount_msat comment
                          (number_of "commentAllowed" body)) ;;
      res <-? lnurl_get callback ;;
      body <-? Ret (document res) ;;
      let pr := text_of "pr" body in
      if str_eqb pr "" then Ret parse_error else Ret (Ok pr).
End Resolution.
