(* ===== verification/Validation.v ===== *)
(** * The settings a node starts with

    [src/config/util.rs]: the checks on the configuration that refuse to
    start a node.  The texts a float and a quoted string are shown as are
    parameters. *)

From S2P Require Import Prelude Float64 Config BondTypes Effects Model BondLock Lnurl.

Open Scope Z_scope.
Open Scope prog_scope.

Section Validation.
Context `{Lib} `{WebLib} (show_f64 : f64 -> string) (show_quoted : string -> string).

Definition refuse {A} (why : string) : result A MostroError := Err (MostroInternalErr (IOError why)).

Definition validate_cashu_settings (cashu : option CashuSettings) (bond_enabled : bool) :
    result unit MostroError :=
  match cashu with
  | None => Ok tt
  | Some cashu =>
      if negb (cashu_enabled cashu) then Ok tt
      else if bond_enabled
      then refuse "cashu.enabled and anti_abuse_bond.enabled are mutually exclusive: a node runs bonds or Cashu escrow, never both"
      else
        let? url := map_err (fun e => MostroInternalErr (IOError
          ("cashu.mint_url (" +:+ show_quoted (mint_url cashu) +:+ ") is not a valid URL: " +:+ e)))
          (url_parse (mint_url cashu)) in
        if negb (is_http_or_https url)
        then refuse ("cashu.mint_url must use http or https, got scheme " +:+
               show_quoted (url_scheme url))
        else if escrow_locktime_days cashu <? 1
        then refuse ("cashu.escrow_locktime_days (" +:+ i64_to_string (escrow_locktime_days cashu) +:+
               ") must be >= 1")
        else Ok tt
  end.

Definition validate_mostro_settings (settings : Settings) : result unit MostroError :=
  let dev_fee := dev_fee_percentage (get_mostro settings) in
  if f64_lt dev_fee MIN_DEV_FEE_PERCENTAGE
  then refuse ("dev_fee_percentage (" +:+ show_f64 dev_fee +:+ ") is below minimum (" +:+
         show_f64 MIN_DEV_FEE_PERCENTAGE +:+ ")")
  else if f64_lt MAX_DEV_FEE_PERCENTAGE dev_fee
  then refuse ("dev_fee_percentage (" +:+ show_f64 dev_fee +:+ ") exceeds maximum (" +:+
         show_f64 MAX_DEV_FEE_PERCENTAGE +:+ ")")
  else
    let? _ := validate_cashu_settings (get_cashu settings)
                (match get_bond settings with Some bond => enabled bond | None => false end) in
    Ok tt.

(** A node that runs Cashu escrows asks for no bonds. *)
Lemma cashu_no_bonds settings :
  validate_mostro_settings settings = Ok tt -> is_cashu_enabled settings = true ->
  taker_bond_required settings = false /\ maker_bond_required settings = false.
Proof.
  unfold validate_mostro_settings, validate_cashu_settings, is_cashu_enabled, taker_bond_required,
    maker_bond_required.
  destruct (f64_lt _ MIN_DEV_FEE_PERCENTAGE); [done|]. destruct (f64_lt MAX_DEV_FEE_PERCENTAGE _); [done|].
  destruct (get_cashu settings) as [c|]; [|done]. intros Hv Hc. rewrite Hc in Hv. cbn in Hv.
  destruct (get_bond settings) as [b|]; [|done]. by destruct (enabled b).
Qed.
End Validation.
