(* ===== verification/EventLoop.v ===== *)
(** * The event loop

    [src/app.rs]: the routing of an accepted message to its handler, in
    Lightning and in Cashu mode, and one turn of the loop.  With the handlers
    of the other files this is the daemon as its users see it: an event comes
    in, is admitted or dropped, and one handler runs. *)

From S2P Require Import Prelude Float64 Config BondTypes Effects Model.
From S2P Require Import Lightning BondDb BondPayout Messages Users NewOrder Take Gate Disputes.
From S2P Require Import OrderPayout TradeFlow Release CancelOrder AdminOrder Ratings Sessions.
From S2P Require Import Cashu CashuEscrow.

Open Scope Z_scope.
Open Scope prog_scope.

Section EventLoop.
Context `{Lib} `{Core} `{PayoutLib} (settings : Settings) (node_pubkey : string).

(** A handler that also spawns the payment of the buyer: the loop does not
    wait for it. *)
Definition spawning {A} (p : M (result A MostroError)) : M (result unit MostroError) :=
  _ <-? p ;; Ret (Ok tt).

Definition handle_message_action_no_ln (action : Action) (msg : Message)
    (event : UnwrappedMessage) : M (result unit MostroError) :=
  match action with
  | NewOrder => order_action settings msg event
  | TakeSell => take_sell_action settings msg event
  | TakeBuy => take_buy_action settings msg event
  | ActionFiatSent => fiat_sent_action msg event
  | AddInvoice => add_invoice_action settings msg event
  | AddBondInvoice =>
      add_bond_invoice_action settings (m_id msg) (msg_payment_request msg) (u_sender event)
  | PayInvoice => Ret (Err (MostroCantDo InvalidAction))
  | LastTradeIndex => last_trade_index_action msg event
  | ActionDispute => dispute_action msg event
  | RateUser => update_user_reputation_action msg event
  | AdminAddSolver => admin_add_solver_action node_pubkey msg event
  | AdminTakeDispute => admin_take_dispute_action node_pubkey msg event
  | TradePubkey => trade_pubkey_action msg event
  | RestoreSession => restore_session_action event
  | Orders => orders_action settings msg event
  | _ => Ret (Ok tt)
  end.

Definition handle_message_action (action : Action) (msg : Message) (event : UnwrappedMessage) :
    M (result unit MostroError) :=
  match action with
  | Release => spawning (release_action settings msg event)
  | Cancel => cancel_action msg event
  | AdminCancel => admin_cancel_action settings node_pubkey msg event
  | AdminSettle => spawning (admin_settle_action settings node_pubkey msg event)
  | _ => handle_message_action_no_ln action msg event
  end.

(** [cashu_client] is the connection to the mint. *)
Definition dispatch_cashu `{Cdk} (cashu_client : option CashuClient) (action : Action)
    (msg : Message) (event : UnwrappedMessage) : M (result unit MostroError) :=
  match action with
  | Orders | LastTradeIndex | RestoreSession | TradePubkey
  | NewOrder | TakeBuy | TakeSell => handle_message_action_no_ln action msg event
  | AddCashuEscrow => add_cashu_escrow_action settings node_pubkey cashu_client msg event
  | _ => Ret (Err (MostroCantDo InvalidAction))
  end.

(** The next event of the relays, then one turn on it. *)
Definition turn (dispatch : Action -> Message -> UnwrappedMessage -> M (result unit MostroError))
    (accepted_kind : Z) (gate : option SpamGate) : M (option SpamGate) :=
  event <- ask NextEvent ;;
  on_event dispatch (pow (get_mostro settings))
    (effective_pow_first_contact (get_mostro settings)) accepted_kind event gate.

(** The first [turns] turns of the endless loop of [run] or [run_cashu]. *)
Fixpoint event_loop (turns : nat)
    (dispatch : Action -> Message -> UnwrappedMessage -> M (result unit MostroError))
    (accepted_kind : Z) (gate : option SpamGate) : M unit :=
  match turns with
  | O => Ret tt
  | S n => gate <- turn dispatch accepted_kind gate ;; event_loop n dispatch accepted_kind gate
  end.

(** The spam gate of the loop: none for gift wraps, whose author is a
    throw-away key, else the one installed at startup, if any. *)
Definition gate_for (is_v2 : bool) (global : option SpamGate) : option SpamGate :=
  if is_v2 then global else None.

(** [run] and [run_cashu], with the gate installed at startup. *)
Definition run_loop (global : option SpamGate) (turns : nat)
    (dispatch : Action -> Message -> UnwrappedMessage -> M (result unit MostroError)) : M unit :=
  let accepted_kind := transport_event_kind (transport (get_mostro settings)) in
  event_loop turns dispatch accepted_kind (gate_for (accepted_kind =? DM_EVENT_KIND) global).
End EventLoop.
