(* ===== verification/RateLimiter.v ===== *)
(** * The rate limiter of the operator interface

    [src/rpc/rate_limiter.rs]: failed attempts per client address, with an
    exponential delay between them and a lockout after five.  Every call takes
    the lock once, so a call is one step; its readings of the monotonic clock
    are one instant [now].  Times are milliseconds. *)

From stdpp Require Import gmap.
From S2P Require Import Prelude.

Open Scope Z_scope.

Definition MAX_ATTEMPTS : Z := 5.
Definition LOCKOUT_DURATION : Z := 300 * 1000.
Definition BASE_DELAY_MS : Z := 1000.
Definition DEFAULT_RETENTION : Z := 3600 * 1000.

Record ClientState : Type := mkClientState {
  failed_attempts : Z;
  last_attempt : Z;
  locked_until : option Z
}.

Definition client_new (now : Z) : ClientState := mkClientState 0 now None.

Record RateLimiter : Type := mkRateLimiter {
  clients : gmap string ClientState;
  retention : Z
}.

Definition limiter_new (retention : Z) : RateLimiter := mkRateLimiter ∅ retention.

Definition still_locked (now : Z) (s : ClientState) : bool :=
  match locked_until s with Some u => now <? u | None => false end.

Definition retained (retention now : Z) (s : ClientState) : bool :=
  (now - last_attempt s <=? retention) || still_locked now s.

Definition evict_stale (retention now : Z) (cs : gmap string ClientState) :
    gmap string ClientState :=
  filter (fun kv : string * ClientState => retained retention now kv.2 = true) cs.

(** [clients.entry(key).or_insert_with(ClientState::new)]. *)
Definition entry (key : string) (now : Z) (cs : gmap string ClientState) : ClientState :=
  default (client_new now) (cs !! key).

Definition backoff_delay (failed : Z) : Z := BASE_DELAY_MS * 2 ^ Z.max 0 (failed - 1).

(** A lockout that is over is forgotten. *)
Definition unlock (s : ClientState) : ClientState :=
  match locked_until s with
  | Some _ => mkClientState 0 (last_attempt s) None
  | None => s
  end.

(** [None] when the client may go on, the message otherwise; [show] prints a
    number of seconds. *)
Definition refusal (show : Z -> string) (now : Z) (s : ClientState) : option string :=
  let deadline := last_attempt s + backoff_delay (failed_attempts s) in
  if (0 <? failed_attempts s) && (now <? deadline)
  then Some ("Rate limited. Try again in " +:+ show ((deadline - now) / 1000 + 1) +:+ " seconds.")
  else None.

Definition check_rate_limit (show : Z -> string) (key : string) (now : Z) (l : RateLimiter) :
    RateLimiter * result unit string :=
  let cs := evict_stale (retention l) now (clients l) in
  let s := entry key now cs in
  if still_locked now s then
    (mkRateLimiter (<[key := s]> cs) (retention l),
     Err ("Too many failed attempts. Locked out for " +:+
          show ((default now (locked_until s) - now) / 1000) +:+ " seconds."))
  else
    let s := unlock s in
    (mkRateLimiter (<[key := s]> cs) (retention l),
     match refusal show now s with Some m => Err m | None => Ok tt end).

(** The second component is how long the caller then sleeps. *)
Definition record_failure (key : string) (now : Z) (l : RateLimiter) : RateLimiter * Z :=
  let cs := evict_stale (retention l) now (clients l) in
  let s := entry key now cs in
  let failed := failed_attempts s + 1 in
  let locked := if MAX_ATTEMPTS <=? failed then Some (now + LOCKOUT_DURATION) else locked_until s in
  (mkRateLimiter (<[key := mkClientState failed now locked]> cs) (retention l),
   if MAX_ATTEMPTS <=? failed then 0 else backoff_delay failed).

Definition record_success (key : string) (now : Z) (l : RateLimiter) : RateLimiter :=
  mkRateLimiter (delete key (evict_stale (retention l) now (clients l))) (retention l).

(** ** Histories

    What one client [k] and all the others do to the limiter.  [k] waits for
    the verdict on one guess before it makes the next, and is never right;
    [failures] are the times of its wrong guesses, newest first, and [pending]
    says that it has been let through and its guess is being checked. *)

Section Histories.
Context (show : Z -> string) (k : string) (r : Z).

Inductive history : RateLimiter -> bool -> list Z -> Z -> Prop :=
| starts c : history (limiter_new r) false [] c
| admitted l h c t l' :
    history l false h c -> c <= t -> check_rate_limit show k t l = (l', Ok tt) ->
    history l' true h t
| refused l h c t l' m :
    history l false h c -> c <= t -> check_rate_limit show k t l = (l', Err m) ->
    history l' false h t
| wrong l h c t :
    history l true h c -> c <= t -> history (record_failure k t l).1 false (t :: h) t
| others_check l p h c t key :
    history l p h c -> c <= t -> key <> k ->
    history (check_rate_limit show key t l).1 p h t
| others_wrong l p h c t key :
    history l p h c -> c <= t -> key <> k -> history (record_failure key t l).1 p h t
| others_right l p h c t key :
    history l p h c -> c <= t -> key <> k -> history (record_success key t l) p h t.

(** The last failure is a lockout ago. *)
Definition quiet (h : list Z) (c : Z) : Prop :=
  match h with [] => True | t :: _ => t + LOCKOUT_DURATION <= c end.

(** What the entry of [k] says of its failures: how many belong to the current
    run, the one before that run being a lockout older. *)
Definition accounted (p : bool) (h : list Z) (c : Z) (s : option ClientState) : Prop :=
  match s with
  | None => quiet h c
  | Some s =>
      (failed_attempts s = 0 /\ locked_until s = None /\ quiet h c) \/
      exists f : nat, failed_attempts s = Z.of_nat f /\ (1 <= f <= if p then 4 else 5)%nat /\
        h !! 0%nat = Some (last_attempt s) /\
        (forall b, h !! f = Some b -> exists a, h !! (f - 1)%nat = Some a /\ b + LOCKOUT_DURATION <= a) /\
        locked_until s = if bool_decide (f = 5%nat) then Some (last_attempt s + LOCKOUT_DURATION)
                         else None
  end.

(** Six failures in a row span a lockout. *)
Definition spaced (h : list Z) : Prop :=
  forall i a b, h !! i = Some a -> h !! (i + 5)%nat = Some b -> b + LOCKOUT_DURATION <= a.

Definition past (h : list Z) (c : Z) : Prop :=
  (forall i j a b, (i <= j)%nat -> h !! i = Some a -> h !! j = Some b -> b <= a) /\
  forall i a, h !! i = Some a -> a <= c.

Lemma quiet_later h c t : c <= t -> quiet h c -> quiet h t.
Proof. destruct h; cbn; [done|lia]. Qed.

Lemma accounted_later p h c t s : c <= t -> accounted p h c s -> accounted p h t s.
Proof.
  intros Ht. destruct s as [s|]; cbn; [|by apply quiet_later].
  intros [(? & ? & Hq)|?]; [left; eauto using quiet_later|by right].
Qed.

Lemma past_later h c t : c <= t -> past h c -> past h t.
Proof. intros Ht [Hs Hp]. split; [done|]. intros i a Hi. apply Hp in Hi. lia. Qed.

(** A forgotten entry was a lockout old. *)
Lemma accounted_evict p h t cs :
  LOCKOUT_DURATION <= r -> accounted p h t (cs !! k) ->
  accounted p h t (evict_stale r t cs !! k).
Proof.
  intros Hr Ha. unfold evict_stale. destruct (cs !! k) as [s|] eqn:E.
  - destruct (retained r t s) eqn:Hk.
    + by rewrite (map_lookup_filter_Some_2 _ cs k s E Hk).
    + assert (filter (fun kv : string * ClientState => retained r t kv.2 = true) cs !! k = None) as ->.
      { apply map_lookup_filter_None_2. right. intros s' Hs'. rewrite E in Hs'. injection Hs' as <-.
        cbn. by rewrite Hk. }
      unfold retained in Hk. apply orb_false_iff in Hk as [Hold _]. apply Z.leb_gt in Hold.
      destruct Ha as [(_ & _ & Hq)|(f & _ & _ & Hl & _)]; [done|].
      destruct h as [|a h]; [done|]. injection Hl as ->. cbn. lia.
  - rewrite map_lookup_filter, E. done.
Qed.

Definition bounded (l : RateLimiter) (p : bool) (h : list Z) (c : Z) : Prop :=
  retention l = r /\ past h c /\ spaced h /\ accounted p h c (clients l !! k).

(** Another client's call leaves the entry of [k] to the eviction. *)
Lemma others_bounded l l' p h c t :
  LOCKOUT_DURATION <= r -> bounded l p h c -> c <= t -> retention l' = retention l ->
  clients l' !! k = evict_stale (retention l) t (clients l) !! k -> bounded l' p h t.
Proof.
  intros Hr (Hl & Hp & Hs & Ha) Ht Hl' Hc. split_and!; [congruence|by eapply past_later|done|].
  rewrite Hc, Hl. apply accounted_evict; [done|]. by eapply accounted_later.
Qed.

(** A check reads the entry, resets it after a lockout and keeps it. *)
Lemma check_accounted l h t :
  LOCKOUT_DURATION <= r -> retention l = r -> accounted false h t (clients l !! k) ->
  let '(l', res) := check_rate_limit show k t l in
  retention l' = r /\ accounted (is_ok res) h t (clients l' !! k).
Proof.
  intros Hr Hl Ha. unfold check_rate_limit. rewrite Hl.
  apply (accounted_evict _ _ _ _ Hr) in Ha. cbv zeta. set (cs := evict_stale r t (clients l)) in *.
  assert (accounted false h t (Some (entry k t cs))) as He.
  { unfold entry. destruct (cs !! k); [done|]. by left. }
  clear Ha. set (s := entry k t cs) in *.
  destruct (still_locked t s) eqn:Ek; cbn [is_ok clients retention];
    rewrite lookup_insert_eq; [done|]. split; [done|].
  assert (accounted true h t (Some (unlock s))) as Hu.
  { unfold unlock, still_locked in *.
    destruct He as [(Hf & Hn & Hq)|(f & Hf & Hb & Hh & Hrun & Hn)].
    - rewrite Hn. by left.
    - rewrite Hn in Ek |- *. case_bool_decide as H5.
      + left. split_and!; [done..|]. destruct h as [|a h]; [done|]. injection Hh as ->. cbn. simpl in Ek. lia.
      + right. exists f. rewrite Hn, bool_decide_eq_false_2 by done. split_and!; eauto; lia. }
  destruct (refusal show t (unlock s)); cbn [is_ok]; [|done].
  destruct Hu as [?|(f & Hf & Hb & Hrest)]; [by left|]. right. exists f.
  split; [done|]. split; [lia|done].
Qed.

(** A wrong guess extends the run, or starts one. *)
Lemma wrong_accounted l h t :
  LOCKOUT_DURATION <= r -> bounded l true h t -> bounded (record_failure k t l).1 false (t :: h) t.
Proof.
  intros Hr (Hl & [Hsort Hp] & Hs & Ha). unfold record_failure. rewrite Hl. cbv zeta.
  apply (accounted_evict _ _ _ _ Hr) in Ha. set (cs := evict_stale r t (clients l)) in *.
  assert (accounted true h t (Some (entry k t cs))) as He.
  { unfold entry. destruct (cs !! k); [done|]. by left. }
  clear Ha. set (s := entry k t cs) in *. cbn [fst].
  assert (past (t :: h) t) as Hpast.
  { split.
    - intros [|i] [|j] a b Hij; cbn; intros Hi Hj; simplify_eq/=; try lia; eauto.
      eapply (Hsort i j); [lia|done..].
    - intros [|i] a; cbn; [intros [= <-]; lia|apply Hp]. }
  assert (forall b, h !! 4%nat = Some b -> b + LOCKOUT_DURATION <= t) as Hnew.
  { intros b Hb. destruct He as [(_ & _ & Hq)|(f & _ & Hf & _ & Hrun & _)].
    - destruct h as [|a h]; [done|]. cbn in Hq. pose proof (Hsort 0%nat 4%nat a b). specialize (H ltac:(lia) eq_refl Hb). lia.
    - destruct (h !! f) as [b'|] eqn:Ef; [|apply lookup_ge_None_1 in Ef; apply lookup_lt_Some in Hb; lia].
      destruct (Hrun b' eq_refl) as (a & Ha & Hle). apply Hp in Ha.
      pose proof (Hsort f 4%nat b' b ltac:(lia) Ef Hb). lia. }
  split; [done|]. split; [done|]. split.
  - intros [|i] a b; [intros [= <-]; cbn; apply Hnew|apply (Hs i a b)].
  - cbn [clients]. rewrite lookup_insert_eq. right.
    destruct He as [(Hf & Hn & Hq)|(f & Hf & Hb & Hh & Hrun & Hn)].
    + exists 1%nat. rewrite Hf, Hn. split; [done|]. split; [lia|]. split; [done|]. split; [|done].
      intros b Hb. exists t. split; [done|]. destruct h; [done|]. injection Hb as ->. done.
    + exists (S f). rewrite Hf, Hn. cbn [failed_attempts last_attempt locked_until].
      split; [lia|]. split; [lia|]. split; [done|]. split.
      * intros b Hb'. cbn in Hb'. destruct (Hrun b Hb') as (a & Ha & Hle). exists a. split; [|done].
        replace (S f - 1)%nat with (S (f - 1)) by lia. done.
      * unfold MAX_ATTEMPTS. destruct (Z.leb_spec 5 (Z.of_nat f + 1)).
        -- by rewrite bool_decide_eq_true_2 by lia.
        -- rewrite !bool_decide_eq_false_2 by lia. done.
Qed.

Lemma history_bounded l p h c : LOCKOUT_DURATION <= r -> history l p h c -> bounded l p h c.
Proof.
  intros Hr. induction 1 as [c|l h c t l' _ IH Ht Hc|l h c t l' m _ IH Ht Hc|l h c t _ IH Ht
    |l p h c t key _ IH Ht Hk|l p h c t key _ IH Ht Hk|l p h c t key _ IH Ht Hk].
  - split_and!; [done|split; [by intros ? [|]|done]|done|done].
  - destruct IH as (Hl & Hp & Hs & Ha). pose proof (check_accounted l h t Hr Hl) as Hx.
    rewrite Hc in Hx. destruct Hx as [? ?]; [by eapply accounted_later|].
    split_and!; try done. by eapply past_later.
  - destruct IH as (Hl & Hp & Hs & Ha). pose proof (check_accounted l h t Hr Hl) as Hx.
    rewrite Hc in Hx. destruct Hx as [? ?]; [by eapply accounted_later|].
    split_and!; try done. by eapply past_later.
  - apply wrong_accounted; [done|]. destruct IH as (Hl & Hp & Hs & Ha).
    split_and!; [done|by eapply past_later|done|by eapply accounted_later].
  - eapply others_bounded; [done|exact IH|done|..]; unfold check_rate_limit; cbv zeta;
      destruct (still_locked _ _); cbn; [done|done|..]; by rewrite lookup_insert_ne.
  - eapply others_bounded; [done|exact IH|done|done|]. cbn. by rewrite lookup_insert_ne.
  - eapply others_bounded; [done|exact IH|done|done|]. cbn. by rewrite lookup_delete_ne.
Qed.

(** C31: A client that guesses one password after the other makes at most five
    wrong guesses in any five minutes: whatever the other clients do, any six
    wrong guesses in a row span at least [LOCKOUT_DURATION], provided entries
    are retained at least as long. *)
Theorem guesses_bounded l p h c :
  LOCKOUT_DURATION <= r -> history l p h c ->
  forall i a b, h !! i = Some a -> h !! (i + 5)%nat = Some b -> b + LOCKOUT_DURATION <= a.
Proof. intros Hr Hh. apply (history_bounded l p h c Hr Hh). Qed.
End Histories.

(** ** Six guesses *)

Definition guess (t : Z) (l : RateLimiter) : RateLimiter :=
  (record_failure "client" t (check_rate_limit (fun _ => "") "client" t l).1).1.

Lemma guess_history l h c t :
  history (fun _ => "") "client" DEFAULT_RETENTION l false h c -> c <= t ->
  (check_rate_limit (fun _ => "") "client" t l).2 = Ok tt ->
  history (fun _ => "") "client" DEFAULT_RETENTION (guess t l) false (t :: h) t.
Proof.
  intros Hh Ht Hc. unfold guess. destruct (check_rate_limit _ "client" t l) as [l' res] eqn:E.
  cbn in Hc. subst res. eapply wrong; [|apply Z.le_refl]. by eapply admitted.
Qed.

Definition six_guesses : RateLimiter :=
  foldl (fun l t => guess t l) (limiter_new DEFAULT_RETENTION) [0; 1000; 3000; 7000; 15000; 315000].

Lemma guesses_bounded_witness :
  history (fun _ => "") "client" DEFAULT_RETENTION six_guesses false
    [315000; 15000; 7000; 3000; 1000; 0] 315000 /\ 0 + LOCKOUT_DURATION <= 315000.
Proof.
  assert (history (fun _ => "") "client" DEFAULT_RETENTION six_guesses false
    [315000; 15000; 7000; 3000; 1000; 0] 315000) as Hh.
  { assert (forall l h c t, history (fun _ => "") "client" DEFAULT_RETENTION l false h c ->
      (c <=? t) = true -> is_ok (check_rate_limit (fun _ => "") "client" t l).2 = true ->
      history (fun _ => "") "client" DEFAULT_RETENTION (guess t l) false (t :: h) t) as Hg.
    { intros l h c t Hh Ht Hc. apply (guess_history l h c t Hh); [by apply Z.leb_le|].
      by destruct (check_rate_limit _ _ t l) as [? [[]|]]. }
    pose proof (starts (fun _ => "") "client" DEFAULT_RETENTION 0) as H0.
    apply (Hg _ _ _ 0) in H0; [|vm_compute; reflexivity..].
    apply (Hg _ _ _ 1000) in H0; [|vm_compute; reflexivity..].
    apply (Hg _ _ _ 3000) in H0; [|vm_compute; reflexivity..].
    apply (Hg _ _ _ 7000) in H0; [|vm_compute; reflexivity..].
    apply (Hg _ _ _ 15000) in H0; [|vm_compute; reflexivity..].
    apply (Hg _ _ _ 315000) in H0; [|vm_compute; reflexivity..].
    exact H0. }
  split; [exact Hh|].
  apply (guesses_bounded (fun _ => "") "client" DEFAULT_RETENTION six_guesses false
    [315000; 15000; 7000; 3000; 1000; 0] 315000) with (i := 0%nat);
    [apply Z.leb_le; reflexivity|exact Hh|reflexivity|reflexivity].
Defined.
