(* ===== verification/Rpc.v ===== *)
(** * The operator interface

    [src/rpc/service.rs]: the gRPC calls by which the operator of the node
    closes a dispute, appoints a solver or takes a dispute over.  Each builds
    the message a solver would have sent, in the name of the node itself, and
    calls the handler of that message.  The transport authenticates the
    operator; the settings are initialised before the server starts. *)

From S2P Require Import Prelude Float64 Config BondTypes Effects Model.
From S2P Require Import Lightning Messages Disputes OrderPayout AdminOrder RateLimiter.

Open Scope Z_scope.
Open Scope prog_scope.

(** The version of the crate, from [Cargo.toml]. *)
Definition CARGO_PKG_VERSION : string := "0.18.5".

(** The four admin responses have the same fields, as has the one to a password. *)
Inductive RpcResponse : Type :=
| RpcOutcome (success : bool) (error_message : option string)
| VersionResponse (version : string).

(** [tonic::Status]: its code and its message. *)
Record RpcStatus : Type := mkRpcStatus { rpc_code : string; rpc_message : string }.

Section Rpc.
Context `{Lib} `{Core} `{PayoutLib} (settings : Settings) (node_pubkey : string).

(** The message of a request in the name of the operator, if it has one. *)
Definition operator_message (req : RpcRequest) : option (result Message string) :=
  let message id request_id action payload := mkMessage id request_id None action payload in
  let with_id id request_id action :=
    match uuid_parse_str id with
    | Ok i => Ok (message (Some i) request_id action None)
    | Err e => Err e
    end in
  let parsed request_id := request_id ≫= parse_u64 in
  match req with
  | CancelOrderRequest order_id request_id =>
      Some (with_id order_id (option_map (fun s => default 1 (parse_u64 s)) request_id) AdminCancel)
  | SettleOrderRequest order_id request_id => Some (with_id order_id (parsed request_id) AdminSettle)
  | TakeDisputeRequest dispute_id request_id =>
      Some (with_id dispute_id (parsed request_id) AdminTakeDispute)
  | AddSolverRequest solver_pubkey request_id =>
      Some (Ok (message None (parsed request_id) AdminAddSolver (Some (PlTextMessage solver_pubkey))))
  | GetVersionRequest | ValidateDbPasswordRequest _ _ => None
  end.

(** The event the handler is given: the node signs for the operator. *)
Definition operator_event (msg : Message) (now : Z) : UnwrappedMessage :=
  mkUnwrapped msg None node_pubkey node_pubkey now.

(** The common part of the four calls; [failed] starts the error message. *)
Definition call_admin {A} (failed : string) (msg : Message)
    (action : Message -> UnwrappedMessage -> M (result A MostroError)) : M (result unit string) :=
  now <- ask Now ;;
  client <- ask GetNostrClient ;;
  match client with
  | Err e => Ret (Err ("Failed to get Nostr client: " +:+ error_to_string e))
  | Ok _ =>
      done <- action msg (operator_event msg now) ;;
      Ret (match done with Ok _ => Ok tt | Err e => Err (failed +:+ error_to_string e) end)
  end.

Definition call_admin_cancel (msg : Message) : M (result unit string) :=
  call_admin "Admin cancel failed: " msg (admin_cancel_action settings node_pubkey).

(** The payment of the buyer is spawned by the handler. *)
Definition call_admin_settle (msg : Message) : M (result unit string) :=
  call_admin "Admin settle failed: " msg (admin_settle_action settings node_pubkey).

Definition call_admin_add_solver (msg : Message) : M (result unit string) :=
  call_admin "Admin add solver failed: " msg (admin_add_solver_action node_pubkey).

Definition call_admin_take_dispute (msg : Message) : M (result unit string) :=
  call_admin "Admin take dispute failed: " msg (admin_take_dispute_action node_pubkey).

Definition admin_call (req : RpcRequest) (msg : Message) : M (result unit string) :=
  match req with
  | CancelOrderRequest _ _ => call_admin_cancel msg
  | SettleOrderRequest _ _ => call_admin_settle msg
  | AddSolverRequest _ _ => call_admin_add_solver msg
  | TakeDisputeRequest _ _ => call_admin_take_dispute msg
  | _ => Ret (Ok tt)
  end.

(** A failed call is an answer, not an error of the transport. *)
Definition outcome (done : result unit string) : result RpcResponse RpcStatus :=
  Ok (match done with Ok _ => RpcOutcome true None | Err e => RpcOutcome false (Some e) end).

(** Passwords are no longer used: a request the limiter lets through succeeds. *)
Definition validate_db_password (remote_addr : option string) (limiter : RateLimiter) :
    M (RateLimiter * result RpcResponse RpcStatus) :=
  match remote_addr with
  | None => Ret (limiter, Err (mkRpcStatus "Internal" "Unable to determine client address"))
  | Some addr =>
      now <- ask InstantNow ;;
      let '(limiter, checked) := check_rate_limit i64_to_string addr now limiter in
      match checked with
      | Err _ =>
          Ret (limiter, Err (mkRpcStatus "ResourceExhausted" "Too many requests, try again later"))
      | Ok _ =>
          now <- ask InstantNow ;;
          Ret (record_success addr now limiter, Ok (RpcOutcome true None))
      end
  end.

(** The methods of the service. *)
Definition serve (req : RpcRequest) (limiter : RateLimiter) :
    M (RateLimiter * result RpcResponse RpcStatus) :=
  match req with
  | GetVersionRequest => Ret (limiter, Ok (VersionResponse CARGO_PKG_VERSION))
  | ValidateDbPasswordRequest addr _ => validate_db_password addr limiter
  | _ =>
      match operator_message req with
      | Some (Ok msg) => done <- admin_call req msg ;; Ret (limiter, outcome done)
      | Some (Err e) => Ret (limiter, outcome (Err e))
      | None => Ret (limiter, outcome (Ok tt))
      end
  end.

(** The next request, served. *)
Definition rpc_turn (limiter : RateLimiter) : M RateLimiter :=
  req <- ask NextRpc ;;
  served <- serve req limiter ;;
  Ret served.1.
End Rpc.
