(* ===== verification/DevFee.v ===== *)
(** * The development fee

    [src/app/dev_fee.rs]: a job pays a share of the fee of every completed
    order to the developers.  A cycle resets stale claims, looks at the paid
    orders once per start of the daemon, recovers payments interrupted by a
    crash, and pays what is unpaid: it claims the order with a marker, resolves
    an invoice, stores the invoice's hash in place of the marker and only then
    sends.  [confirmed] is the set of orders seen paid since the start. *)

From S2P Require Import Prelude Float64 Config BondTypes BondMath Effects Model.
From S2P Require Import Lightning BondDb OrderDb Disputes CancelOrder.

Open Scope Z_scope.
Open Scope prog_scope.

Definition DEV_FEE_LIGHTNING_ADDRESS : string := "pivotaldeborah52@walletofsatoshi.com".

(** ** Markers *)

(** SQL's [LIKE 'PENDING-%'], which ignores the case of letters, and Rust's
    [starts_with]. *)
Definition like_pending (s : string) : bool := String.prefix "PENDING-" (to_uppercase s).
Definition starts_pending (s : string) : bool := String.prefix "PENDING-" s.

Definition drop (n : nat) (s : string) : string := String.substring n (String.length s - n) s.

Definition parse_pending_timestamp (marker : string) : option Z :=
  if negb (starts_pending marker) then None
  else
    let stripped := drop 8 marker in
    if (String.length stripped <=? 37)%nat then None
    else
      match String.get 36 stripped with
      | Some c =>
          if Ascii.eqb c "-"%char then
            match parse_u64 (drop 37 stripped) with
            | Some ts => if 1000000000 <? ts then Some ts else None
            | None => None
            end
          else None
      | None => None
      end.

(** ** Statements *)

Definition has_fee_hash (h : string) (o : Order) : bool :=
  bool_decide (o_dev_fee_payment_hash o = Some h).

Definition is_completed (o : Order) : bool := status_in ["settled-hold-invoice"; "success"] o.

(** A hash that is neither absent nor a marker. *)
Definition real_hash (o : Order) : bool :=
  match o_dev_fee_payment_hash o with Some h => negb (like_pending h) | None => false end.

Definition unclaimed (o : Order) : bool :=
  match o_dev_fee_payment_hash o with Some h => str_eqb h "" | None => true end.

Definition unpaid_fee (o : Order) : bool :=
  is_completed o && (0 <? o_dev_fee o) && negb (o_dev_fee_paid o).

Definition pending_markers (db : DB) : list Order :=
  List.filter (fun o => match o_dev_fee_payment_hash o with
                        | Some h => like_pending h
                        | None => false
                        end) (orders db).

Definition paid_fees (db : DB) : list Order :=
  List.filter (fun o => o_dev_fee_paid o && real_hash o && is_completed o) (orders db).

Definition partial_payments (db : DB) : list Order :=
  List.filter (fun o => unpaid_fee o && negb (has_fee_hash "" o) && real_hash o) (orders db).

Definition unpaid_fees (db : DB) : list Order :=
  List.filter (fun o => unpaid_fee o && unclaimed o) (orders db).

Definition reset_marker_stmt (i : Uuid) (marker : string) : DB -> DB * Z :=
  update_orders (fun o => N.eqb (o_id o) i && has_fee_hash marker o)
    (fun o => o <| o_dev_fee_paid := false |> <| o_dev_fee_payment_hash := None |>).

Definition mark_paid_stmt (i : Uuid) (h : string) : DB -> DB * Z :=
  update_orders (fun o => N.eqb (o_id o) i && negb (o_dev_fee_paid o) && has_fee_hash h o)
    (fun o => o <| o_dev_fee_paid := true |>).

Definition clear_failed_stmt (i : Uuid) (h : string) : DB -> DB * Z :=
  update_orders (fun o => N.eqb (o_id o) i && negb (o_dev_fee_paid o) && has_fee_hash h o)
    (fun o => o <| o_dev_fee_payment_hash := None |>).

Definition claim_fee_stmt (i : Uuid) (marker : string) : DB -> DB * Z :=
  update_orders (fun o => N.eqb (o_id o) i && unpaid_fee o && unclaimed o)
    (fun o => o <| o_dev_fee_payment_hash := Some marker |>).

Definition release_marker_stmt (i : Uuid) (marker : string) : DB -> DB * Z :=
  update_orders (fun o => N.eqb (o_id o) i && has_fee_hash marker o)
    (fun o => o <| o_dev_fee_payment_hash := None |>).

Definition store_hash_stmt (i : Uuid) (h marker : string) : DB -> DB * Z :=
  update_orders (fun o => N.eqb (o_id o) i && negb (o_dev_fee_paid o) && has_fee_hash marker o)
    (fun o => o <| o_dev_fee_payment_hash := Some h |>).

Definition fee_paid_stmt (i : Uuid) (h : string) : DB -> DB * Z :=
  update_orders (fun o => N.eqb (o_id o) i && negb (o_dev_fee_paid o))
    (fun o => o <| o_dev_fee_paid := true |> <| o_dev_fee_payment_hash := Some h |>).

Definition keep_unpaid_stmt (i : Uuid) : DB -> DB * Z :=
  update_orders (fun o => N.eqb (o_id o) i && negb (o_dev_fee_paid o))
    (fun o => o <| o_dev_fee_paid := false |>).

Definition reset_failed_stmt (i : Uuid) (h : string) : DB -> DB * Z :=
  update_orders (fun o => N.eqb (o_id o) i && negb (o_dev_fee_paid o) && has_fee_hash h o)
    (fun o => o <| o_dev_fee_paid := false |> <| o_dev_fee_payment_hash := None |>).

(** [SELECT dev_fee_paid FROM orders WHERE id = ?], read with [fetch_one]. *)
Definition fee_paid_row (i : Uuid) (db : DB) : DB * result bool string :=
  (db, ok_or (option_map o_dev_fee_paid (order_by_id i db)) no_rows).

(** A loop that carries a value. *)
Fixpoint fold_each {X S} (l : list X) (s : S) (body : S -> X -> M S) : M S :=
  match l with
  | [] => Ret s
  | x :: l' => s' <- body s x ;; fold_each l' s' body
  end.

Definition confirmed_set : Type := list Uuid.

Section DevFee.
Context `{Lib} (settings : Settings) (node_pubkey : string).

Definition find_unpaid_dev_fees : M (result (list Order) MostroError) :=
  sql_or_db_error (query unpaid_fees).

(** ** What LND says of a payment *)

Inductive DevFeePaymentState : Type := DevSucceeded | DevInFlight | DevFailed | DevUnknown.

(** [check_payment_status] ([src/lightning/mod.rs]) under its time bound: the
    first status LND reports, [None] for every failure. *)
Definition first_status (r : option (result (option (option PaymentStatus)) GrpcStatus)) :
    option PaymentStatus :=
  match r with Some (Ok (Some st)) => st | _ => None end.

Definition dev_fee_state (st : option PaymentStatus) : DevFeePaymentState :=
  match st with
  | Some PSucceeded => DevSucceeded
  | Some PInFlight => DevInFlight
  | Some PFailed => DevFailed
  | _ => DevUnknown
  end.

Definition check_dev_fee_payment_status (order : Order) : M DevFeePaymentState :=
  match o_dev_fee_payment_hash order with
  | Some h =>
      if starts_pending h then Ret DevUnknown
      else
        match from_hex h with
        | Err _ => Ret DevUnknown
        | Ok payment_hash =>
            r <- ask (LndTrackPaymentBounded payment_hash 10) ;;
            Ret (dev_fee_state (first_status r))
        end
  | None => Ret DevUnknown
  end.

(** ** Phase 1: stale markers *)

Definition CLEANUP_TTL_SECS : Z := 300.

Definition is_stale (now : Z) (marker : string) : bool :=
  match parse_pending_timestamp marker with
  | Some ts => CLEANUP_TTL_SECS <=? Z.max 0 (now - ts)
  | None => true
  end.

Definition cleanup_stale_pending_markers : M unit :=
  now <- ask Now ;;
  found <- sql (query pending_markers) ;;
  match found with
  | Err _ => Ret tt
  | Ok pending_orders =>
      for_each pending_orders (fun pending_order =>
        let marker := default "" (o_dev_fee_payment_hash pending_order) in
        if is_stale now marker
        then sql (reset_marker_stmt (o_id pending_order) marker) ;;; Ret tt
        else Ret tt)
  end.

(** ** Phase 2: orders marked as paid *)

Definition contains (i : Uuid) (confirmed : confirmed_set) : bool := existsb (N.eqb i) confirmed.

Definition verify_confirmed_orders (confirmed : confirmed_set) : M confirmed_set :=
  found <- sql (query paid_fees) ;;
  match found with
  | Err _ => Ret confirmed
  | Ok real_hash_orders =>
      fold_each real_hash_orders confirmed (fun confirmed order =>
        if contains (o_id order) confirmed then Ret confirmed
        else
          st <- check_dev_fee_payment_status order ;;
          Ret (match st with DevSucceeded => o_id order :: confirmed | _ => confirmed end))
  end.

(** ** Phase 3: payments interrupted by a crash *)

(** The order is published as paid, when its row can be read. *)
Definition audit (i : Uuid) (payment_hash : string) : M unit :=
  row <- sql (order_row i) ;;
  match row with
  | Ok (Ok order) => ask (PublishDevFeeAudit order payment_hash) ;;; Ret tt
  | _ => Ret tt
  end.

(** Another writer was first: the order counts when it is paid. *)
Definition confirm_if_paid (i : Uuid) (confirmed : confirmed_set) : M confirmed_set :=
  row <- sql (fee_paid_row i) ;;
  Ret (match row with Ok (Ok true) => i :: confirmed | _ => confirmed end).

Definition recover_payment (confirmed : confirmed_set) (hash_order : Order) : M confirmed_set :=
  let i := o_id hash_order in
  let existing_hash := default "" (o_dev_fee_payment_hash hash_order) in
  st <- check_dev_fee_payment_status hash_order ;;
  match st with
  | DevSucceeded =>
      marked <- sql (mark_paid_stmt i existing_hash) ;;
      match marked with
      | Ok n => if 0 <? n then audit i existing_hash ;;; Ret (i :: confirmed)
                else confirm_if_paid i confirmed
      | Err _ => Ret confirmed
      end
  | DevFailed => sql (clear_failed_stmt i existing_hash) ;;; Ret confirmed
  | DevInFlight | DevUnknown => Ret confirmed
  end.

Definition recover_partial_payments (confirmed : confirmed_set) : M confirmed_set :=
  found <- sql (query partial_payments) ;;
  match found with
  | Err _ => Ret confirmed
  | Ok hash_orders => fold_each hash_orders confirmed recover_payment
  end.

(** ** Phase 4: new payments *)

Definition try_claim_order_for_dev_fee (i : Uuid) (pending_marker : string) :
    M (result bool MostroError) :=
  n <-? sql_or_db_error (claim_fee_stmt i pending_marker) ;; Ret (Ok (0 <? n)).

Definition release_pending_claim (i : Uuid) (pending_marker : string) : M unit :=
  sql (release_marker_stmt i pending_marker) ;;; Ret tt.

Definition dev_fee_comment (i : Uuid) (node : string) : string :=
  "mostro-dev-fee order=" +:+ uuid_to_string i +:+ " node=" +:+
  default node (pubkey_to_bech32 node).

Definition resolve_dev_fee_invoice (order : Order) : M (result (string * string) MostroError) :=
  if o_dev_fee order <=? 0 then Ret (Err (MostroInternalErr WrongAmountError))
  else
    resolved <- ask (ResolvLnAddressBounded DEV_FEE_LIGHTNING_ADDRESS (o_dev_fee order)
                       (dev_fee_comment (o_id order) node_pubkey) 15) ;;
    payment_request <-? Ret (match resolved with
                             | None => Err (MostroInternalErr LnAddressParseError)
                             | Some r => r
                             end) ;;
    if str_eqb payment_request "" then Ret (Err (MostroInternalErr LnAddressParseError))
    else
      invoice <-? Ret (decode_invoice payment_request) ;;
      _ <-? validate_payout_invoice settings invoice ;;
      Ret (Ok (payment_request, bytes_to_string (payment_hash invoice))).

(** The first final status of the stream. *)
Fixpoint final_update (updates : list PaymentUpdate) : result string MostroError :=
  match updates with
  | [] => Err (MostroInternalErr (LnPaymentError "channel closed"))
  | u :: updates' =>
      match pu_status u with
      | Some PSucceeded => Ok (pu_payment_hash u)
      | Some PFailed =>
          Err (MostroInternalErr (LnPaymentError
                 ("payment failed: reason " +:+ pu_failure_reason u)))
      | _ => final_update updates'
      end
  end.

Definition send_dev_fee_payment (order : Order) (payment_request : string) :
    M (result string MostroError) :=
  if o_dev_fee order <=? 0 then Ret (Err (MostroInternalErr WrongAmountError))
  else
    stream <-? send_payment settings payment_request (o_dev_fee order) ;;
    Ret (if ps_elapsed stream
         then Err (MostroInternalErr (LnPaymentError "send_payment timeout"))
         else final_update (ps_updates stream)).

Definition handle_payment_success (order : Order) (confirmed : confirmed_set)
    (payment_hash : string) : M confirmed_set :=
  let i := o_id order in
  marked <- sql (fee_paid_stmt i payment_hash) ;;
  match marked with
  | Err _ => Ret confirmed
  | Ok n => if n =? 0 then confirm_if_paid i confirmed
            else audit i payment_hash ;;; Ret (i :: confirmed)
  end.

Definition handle_payment_failure (i : Uuid) : M unit :=
  sql (keep_unpaid_stmt i) ;;; Ret tt.

Definition handle_payment_timeout (order : Order) (confirmed : confirmed_set) : M confirmed_set :=
  let i := o_id order in
  let h := default "" (o_dev_fee_payment_hash order) in
  st <- check_dev_fee_payment_status order ;;
  match st with
  | DevSucceeded => sql (mark_paid_stmt i h) ;;; Ret (i :: confirmed)
  | DevFailed => sql (reset_failed_stmt i h) ;;; Ret confirmed
  | DevInFlight | DevUnknown => Ret confirmed
  end.

(** From the moment the hash is stored. *)
Definition pay_stored (i : Uuid) (payment_request : string) (confirmed : confirmed_set) :
    M confirmed_set :=
  row <- sql (order_row i) ;;
  match row with
  | Ok (Ok order) =>
      sent <- send_dev_fee_payment order payment_request ;;
      elapsed <- ask (Elapsed 50) ;;
      if elapsed then handle_payment_timeout order confirmed
      else
        match sent with
        | Ok payment_hash => handle_payment_success order confirmed payment_hash
        | Err _ => handle_payment_failure i ;;; Ret confirmed
        end
  | _ => Ret confirmed
  end.

Definition pay_dev_fee (confirmed : confirmed_set) (order : Order) : M confirmed_set :=
  let i := o_id order in
  now <- ask Now ;;
  uuid <- ask NewUuid ;;
  let pending_marker := "PENDING-" +:+ uuid_to_string uuid +:+ "-" +:+ i64_to_string now in
  claimed <- try_claim_order_for_dev_fee i pending_marker ;;
  match claimed with
  | Ok true =>
      resolved <- resolve_dev_fee_invoice order ;;
      elapsed <- ask (Elapsed 20) ;;
      match (if elapsed : bool then None else Some resolved) with
      | Some (Ok (payment_request, payment_hash_hex)) =>
          stored <- sql (store_hash_stmt i payment_hash_hex pending_marker) ;;
          match stored with
          | Err _ => release_pending_claim i pending_marker ;;; Ret confirmed
          | Ok n => if n =? 0 then Ret confirmed else pay_stored i payment_request confirmed
          end
      | _ => release_pending_claim i pending_marker ;;; Ret confirmed
      end
  | _ => Ret confirmed
  end.

Definition process_new_dev_fee_payments (confirmed : confirmed_set) : M confirmed_set :=
  found <- find_unpaid_dev_fees ;;
  match found with
  | Err _ => Ret confirmed
  | Ok unpaid_orders => fold_each unpaid_orders confirmed pay_dev_fee
  end.

(** ** The job *)

Definition run_dev_fee_cycle (confirmed : confirmed_set) : M confirmed_set :=
  cleanup_stale_pending_markers ;;;
  confirmed <- verify_confirmed_orders confirmed ;;
  confirmed <- recover_partial_payments confirmed ;;
  process_new_dev_fee_payments confirmed.

Fixpoint dev_fee_ticks (ticks : nat) (confirmed : confirmed_set) : M unit :=
  match ticks with
  | O => Ret tt
  | S ticks' => confirmed <- run_dev_fee_cycle confirmed ;; dev_fee_ticks ticks' confirmed
  end.

(** [job_process_dev_fee_payment] ([src/scheduler.rs]), for [ticks] rounds. *)
Definition job_process_dev_fee_payment (ticks : nat) : M unit :=
  ln_client <- lnd_new ;;
  if is_ok ln_client then dev_fee_ticks ticks [] else Ret tt.
End DevFee.
