(* ===== verification/PayoutSpec.v ===== *)
(** * What a payout cycle and a submitted invoice do

    Functional theorems about [src/app/bond/payout.rs] and the send path of
    [src/lightning/mod.rs]: who is paid, what is asked of LND, what each
    outcome leaves in the table, and what a rejected message cannot do. *)

From S2P Require Import Prelude Float64 Config BondTypes BondMath Effects Model.
From S2P Require Import Lightning Demo BondDb BondRelease BondPayout Sequential.

Open Scope Z_scope.
Open Scope prog_scope.

(** ** Who is paid *)

Section Recipient.
Context `{Lib}.

(** the payout goes to the other party. A recipient is resolved only when
    both parties are known; for a slash row it is the key of the party that was
    not slashed, for a maker refund it is the maker's own key. *)
Theorem payout_recipient_is_counterparty order b r :
  resolve_payout_recipient order b = Ok (Some r) ->
  (is_some (parent_bond_id b) = true /\ child_order_id b = None /\
   pubkey_from_str (pubkey b) = Ok r) \/
  exists buyer seller other,
    o_buyer_pubkey order = Some buyer /\ o_seller_pubkey order = Some seller /\
    (pubkey b = buyer /\ other = seller \/ pubkey b = seller /\ pubkey b <> buyer /\ other = buyer) /\
    pubkey_from_str other = Ok r.
Proof.
  unfold resolve_payout_recipient, resolve_recipient, parse_recipient.
  destruct (is_some (parent_bond_id b) && is_none (child_order_id b)) eqn:Ek.
  - apply andb_true_iff in Ek as [Hp Hc]. destruct (pubkey_from_str (pubkey b)) eqn:E; [|done].
    intros [= ->]. left. split_and!; [done| |done]. by destruct (child_order_id b).
  - destruct (o_buyer_pubkey order) as [buyer|], (o_seller_pubkey order) as [seller|]; try done.
    unfold str_eqb. case_bool_decide as Eb; [|case_bool_decide as Es; [|done]];
      (destruct (pubkey_from_str _) eqn:E; [|done]); intros [= ->]; right.
    + exists buyer, seller, seller. split_and!; auto.
    + exists buyer, seller, buyer. split_and!; auto.
Qed.
End Recipient.

(** ** What LND is asked *)

Section Dispatch.
Context `{Lib} (settings : Settings).

(** The payments a history asks LND to make: request, explicit amount, fee
    limit. *)
Definition dispatch (o : obs DB ext) : option (string * option Z * Z) :=
  match o with
  | ObsExt e _ =>
      match e with LndSendPaymentV2 pr amt fee _ => Some (pr, amt, fee) | _ => None end
  | ObsSql _ _ => None
  end.
Definition dispatches (l : list (obs DB ext)) : list (string * option Z * Z) := omap dispatch l.

(** LND's answer to the duplicate guard allows a dispatch. *)
Definition guard_allows (r : option (result (option (option PaymentStatus)) GrpcStatus)) : Prop :=
  match r with
  | Some r => track_result r <> Ok (Some PInFlight) /\ track_result r <> Ok (Some PSucceeded)
  | None => True
  end.

(** one payment, of the right amount, never a duplicate. A run of
    [send_payment] asks LND for at most one payment; it is the given invoice,
    for exactly the given amount (carried by the invoice, or made explicit when
    the invoice carries none), within the routing cap, and only after LND did
    not report the same hash in flight or succeeded. *)
Theorem send_payment_dispatch env pr amount db tr :
  exists l, run_trace env (send_payment settings pr amount) db tr = (l ++ tr)%list /\
    (dispatches l = [] \/
     exists inv, decode_invoice pr = Ok inv /\
       dispatches l = [(pr, match amount_milli_satoshis inv with Some _ => None | None => Some amount end,
                        routing_fee_cap_sats (get_mostro settings) amount)] /\
       match amount_milli_satoshis inv with Some m => m = msat_of_sat amount | None => True end /\
       guard_allows (answer env _ (LndTrackPaymentBounded (payment_hash inv)
                                     DUPLICATE_GUARD_LOOKUP_TIMEOUT) tr)).
Proof.
  unfold send_payment, try, run_trace. destruct (decode_invoice pr) as [inv|e]; cbn [bind run snd];
    [|exists []; auto].
  cbn [bind call run]. set (guard := answer env _ (LndTrackPaymentBounded _ _) tr).
  assert (forall b : bool, b = match guard with
     | Some r => match track_result r with Ok (Some PInFlight) | Ok (Some PSucceeded) => true | _ => false end
     | None => false end -> b = false -> guard_allows guard) as Hg.
  { intros b -> Hb. unfold guard_allows. destruct guard as [r|]; [|done].
    destruct (track_result r) as [[[]|]|]; try done; by split. }
  specialize (Hg _ eq_refl). destruct (match guard with Some _ => _ | None => _ end);
    [exists [ObsExt (LndTrackPaymentBounded (payment_hash inv) DUPLICATE_GUARD_LOOKUP_TIMEOUT) guard]; auto|].
  destruct (amount_milli_satoshis inv) as [m|] eqn:Em.
  - destruct (m =? msat_of_sat amount) eqn:E; cbn [negb bind call run snd].
    + eexists [_; _]. split; [done|]. right. exists inv. rewrite Em. bool_prop. split_and!; auto.
    + eexists [_]. split; [done|]. by left.
  - cbn [bind call run snd]. eexists [_; _]. split; [done|]. right. exists inv. rewrite Em.
    split_and!; auto.
Qed.

(** ** Failures *)

(** LND gives no verdict on any payment. *)
Record Undecided (env : Env DB ext) : Prop := {
  ud_track : forall h tr st, track_result (answer env _ (LndTrackPayment h) tr) = Ok (Some st) ->
    st <> PSucceeded /\ st <> PFailed;
  ud_send : forall pr amt fee secs tr s,
    answer env _ (LndSendPaymentV2 pr amt fee secs) tr = Ok s -> drain (ps_updates s) = StreamEnded
}.

(** What the table says about who is owed what. *)
Definition debts (db : DB) : list (Uuid * string * option string) :=
  map (fun b => (id b, state b, payout_invoice b)) (bonds db).

Lemma debts_update p f db :
  (forall b, id (f b) = id b /\ state (f b) = state b /\ payout_invoice (f b) = payout_invoice b) ->
  debts (update_bonds p f db).1 = debts db.
Proof.
  intros Hf. unfold debts, update_bonds, update_where. cbn [fst bonds]. rewrite map_map.
  apply map_ext. intros b. destruct (p b); [|done]. by destruct (Hf b) as (-> & -> & ->).
Qed.

Lemma failure_keeps_debts env b retries window cause db tr :
  sql_up env ->
  debts (run_db env (on_send_payment_failure b retries window Indeterminate cause) db tr) = debts db.
Proof.
  intros Hup. unfold on_send_payment_failure, try, sql_or_db_error, run_db. cbn [bind sql run].
  rewrite Hup. destruct (attempts_stmt _ _ db) as [db1 n] eqn:E. cbn [bind run map_err].
  assert (debts db1 = debts db) as <-; [|by case_match].
  replace db1 with (attempts_stmt (id b) (Z.min (payout_attempts b + 1) retries) db).1 by (by rewrite E).
  by apply debts_update.
Qed.

Lemma send_undecided env pr share db tr :
  Undecided env ->
  run_db env (send_and_drain settings pr share) db tr = db /\
  exists cause, run_val env (send_and_drain settings pr share) db tr = Failure Indeterminate cause.
Proof.
  intros Hud. unfold send_and_drain, send_payment, try, run_db, run_val.
  destruct (decode_invoice pr) as [inv|e]; cbn [bind call run fst snd]; [|eauto].
  destruct (match answer env _ (LndTrackPaymentBounded _ _) tr with Some _ => _ | None => _ end);
    cbn [bind call run fst snd]; [eauto|].
  destruct (match amount_milli_satoshis inv with Some _ => negb _ | None => _ end);
    cbn [bind call run fst snd]; [eauto|].
  destruct (answer env _ (LndSendPaymentV2 _ _ _ _) _) as [s|e] eqn:E; cbn [map_err].
  - rewrite (ud_send _ Hud _ _ _ _ _ _ E). destruct (ps_elapsed s); cbn; eauto.
  - cbn. eauto.
Qed.

(** no verdict, no decision. While LND reports neither success nor
    failure of a payment, an attempt to pay a decodable invoice leaves every
    row's state and invoice as they were: the payout is neither recorded as
    made nor abandoned, whatever the retry budget and the claim window. *)
Theorem undecided_payout_keeps_debts env b pr inv retries window db tr :
  sql_up env -> Undecided env -> decode_invoice pr = Ok inv ->
  debts (run_db env (pay_counterparty settings b pr retries window) db tr) = debts db.
Proof.
  intros Hup Hud Hinv. unfold pay_counterparty, try, run_db.
  destruct (counterparty_share_sats b) as [share|e]; cbn [bind run fst snd]; [|done].
  rewrite Hinv. cbv zeta. rewrite run_bind.
  assert (exists rec tr', run env (reconcile_payout b (payment_hash inv)) db tr = (rec, db, tr') /\
            (rec = RInFlight \/ rec = RUnknown)) as (rec & tr' & -> & Hrec).
  { unfold reconcile_payout. destruct (payout_payment_hash b); [|cbn; eauto].
    destruct (str_eqb _ _); [|cbn; eauto]. unfold lookup_payment_status. cbn [bind call run].
    destruct (track_result _) as [[[]|]|] eqn:E; cbn; eauto;
      destruct (ud_track _ Hud _ _ _ E); done. }
  destruct Hrec as [->| ->]; [done|]. unfold sql_or_db_error. cbn [bind sql run]. rewrite Hup.
  destruct (persist_hash_stmt _ _ _ db) as [db1 n] eqn:E. cbn [bind run map_err].
  assert (debts db1 = debts db) as Hd.
  { replace db1 with (persist_hash_stmt (id b) (routing_fee_cap_sats (get_mostro settings) share)
      (bytes_to_string (payment_hash inv)) db).1 by (by rewrite E). by apply debts_update. }
  destruct (n =? 0); [done|]. rewrite run_bind.
  match goal with |- context [run env (send_and_drain _ _ _) db1 ?t] =>
    destruct (send_undecided env pr share db1 t Hud) as [Ed (cause & Ev)];
    unfold run_db, run_val in Ed, Ev;
    destruct (run env (send_and_drain settings pr share) db1 t) as [[v d] t'] end.
  cbn [fst snd] in Ed, Ev. subst. rewrite <- Hd. by apply failure_keeps_debts.
Qed.
End Dispatch.

(** ** A cycle that pays *)

(** LND pays: it has not seen the hash, and the payment succeeds. *)
Record Pays (env : Env DB ext) : Prop := {
  pay_guard : forall h secs tr, answer env _ (LndTrackPaymentBounded h secs) tr = Some (Ok None);
  pay_track : forall h tr, answer env _ (LndTrackPayment h) tr = Ok None;
  pay_send : forall pr amt fee secs tr, exists s,
    answer env _ (LndSendPaymentV2 pr amt fee secs) tr = Ok s /\
    drain (ps_updates s) = StreamSucceeded
}.

Lemma demo_pays now : Pays (demo_env now).
Proof. split; [done|done|]. intros. by eexists. Qed.

Section Paying.
Context `{Lib} (settings : Settings) (env : Env DB ext) (now : Z) (HC : Coop env now).

Lemma runs_enqueue rid oid act pl dest idx db :
  runs env (enqueue_order_msg rid oid act pl dest idx) db tt db.
Proof. apply runs_ask. intros tr. by destruct (answer env _ _ tr). Qed.

Lemma runs_notify_completed b share db : runs env (notify_payout_completed b share) db tt db.
Proof.
  unfold notify_payout_completed. eapply runs_bind; [apply runs_query, HC|].
  destruct (order_by_id (order_id b) db) as [order|]; [|apply runs_ret].
  destruct (parse_reason b); [|apply runs_ret].
  destruct (resolve_payout_recipient order b) as [[r|]|]; [|apply runs_ret..].
  unfold enqueue_payout_ack. case_match; [apply runs_enqueue|apply runs_ret].
Qed.

Lemma runs_success b share db :
  runs env (slash_after_success b share) db (Ok tt) (finalize_stmt (id b) db).1.
Proof.
  unfold slash_after_success, SLASH_CAS_MAX_ATTEMPTS. cbn [slash_after_success_loop].
  eapply runs_bind; [apply runs_sql, HC|]. cbv iota beta.
  apply (runs_bind _ _ _ _ tt (finalize_stmt (id b) db).1); [|apply runs_ret].
  case_match; [apply runs_notify_completed|apply runs_ret].
Qed.

(** Two updates of the row [b], seen as one. *)
Lemma two_updates db b (f g : Bond -> Bond) :
  NoDup (map id (bonds db)) -> In b (bonds db) -> state_is PendingPayout b = true ->
  (forall r, id (f r) = id r /\ state (f r) = state r) ->
  (update_bonds (with_id_state (id b) PendingPayout) g
     (update_bonds (with_id_state (id b) PendingPayout) f db).1).1 =
  mkDB (orders db) (update_where (fun r => N.eqb (id r) (id b)) (fun r => g (f r)) (bonds db)) (users db) (disputes db).
Proof.
  intros Hnd Hb Hs Hf. cbn [update_bonds fst orders bonds]. f_equal.
  unfold update_where. rewrite map_map. apply map_ext_in. intros r Hr. unfold with_id_state.
  destruct (N.eqb (id r) (id b)) eqn:E; cbn [andb]; [|by rewrite E].
  apply N.eqb_eq in E. rewrite (nodup_ids_eq _ _ _ Hnd Hr Hb E), Hs.
  destruct (Hf b) as [Ei Es]. rewrite Ei, N.eqb_refl. unfold state_is in *. by rewrite Es, Hs.
Qed.

Lemma pending_count db b :
  In b (bonds db) -> state_is PendingPayout b = true ->
  (count_where (with_id_state (id b) PendingPayout) (bonds db) =? 0) = false.
Proof.
  intros Hb Hs. apply Z.eqb_neq. unfold count_where.
  assert (In b (List.filter (with_id_state (id b) PendingPayout) (bonds db))) as Hin.
  { apply filter_In. unfold with_id_state. by rewrite N.eqb_refl, Hs. }
  destruct (List.filter _ _); [done|]. simpl. lia.
Qed.

Lemma runs_send_ok pr inv share db :
  Pays env -> decode_invoice pr = Ok inv ->
  match amount_milli_satoshis inv with Some m => m = msat_of_sat share | None => True end ->
  runs env (send_and_drain settings pr share) db Settled db.
Proof.
  intros HP Hinv Hamt. unfold send_and_drain, send_payment. rewrite Hinv. intros tr.
  unfold run_val, run_db, try. cbn [bind call run]. rewrite (pay_guard _ HP). cbn [track_result].
  assert (match amount_milli_satoshis inv with Some amt => negb (amt =? msat_of_sat share) | None => false end
          = false) as ->.
  { destruct (amount_milli_satoshis inv); [|done]. subst. by rewrite Z.eqb_refl. }
  cbn [bind call run].
  match goal with |- context [answer env _ (LndSendPaymentV2 ?a ?b ?c ?d) ?t] =>
    destruct (pay_send _ HP a b c d t) as (s & -> & Hs) end.
  cbn [map_err]. rewrite Hs. by destruct (ps_elapsed s).
Qed.

(** The row once paid. *)
Definition paid_row (inv : Bolt11) (share : Z) (r : Bond) : Bond :=
  r <| payout_routing_fee_sats := Some (routing_fee_cap_sats (get_mostro settings) share) |>
    <| payout_payment_hash := Some (bytes_to_string (payment_hash inv)) |>
    <| state := state_to_string Slashed |>.

Lemma runs_pay b pr inv share retries window db :
  Pays env -> NoDup (map id (bonds db)) -> In b (bonds db) -> state_is PendingPayout b = true ->
  counterparty_share_sats b = Ok share -> decode_invoice pr = Ok inv ->
  match amount_milli_satoshis inv with Some m => m = msat_of_sat share | None => True end ->
  runs env (pay_counterparty settings b pr retries window) db (Ok tt)
    (mkDB (orders db) (update_where (fun r => N.eqb (id r) (id b)) (paid_row inv share) (bonds db)) (users db) (disputes db)).
Proof.
  intros HP Hnd Hb Hs Hsh Hinv Hamt. unfold pay_counterparty. rewrite Hsh.
  eapply runs_try_ok; [apply runs_ret|]. rewrite Hinv. cbv zeta.
  apply (runs_bind _ _ _ _ RUnknown db).
  { unfold reconcile_payout. destruct (payout_payment_hash b); [|apply runs_ret].
    destruct (str_eqb _ _); [|apply runs_ret].
    apply (runs_bind _ _ _ _ (Ok None) db); [|apply runs_ret].
    eapply runs_bind; [apply runs_ask, HP|]. apply runs_ret. }
  eapply runs_try_ok; [apply runs_sql_db, HC|]. unfold persist_hash_stmt at 1. cbn [update_bonds snd].
  rewrite pending_count by done. eapply runs_bind; [by eapply runs_send_ok|]. cbv iota.
  unfold paid_row. rewrite <- two_updates with (g := fun r => r <| state := state_to_string Slashed |>)
    (f := fun r => r <| payout_routing_fee_sats := Some (routing_fee_cap_sats (get_mostro settings) share) |>
                     <| payout_payment_hash := Some (bytes_to_string (payment_hash inv)) |>) by done.
  apply runs_success.
Qed.
End Paying.

Section Cycle.
Context `{Lib} (settings : Settings) (env : Env DB ext) (now : Z).

(** C34: a payable debt is paid. With LND able to pay, one pass of the payout
    job over a root row in [PendingPayout] that carries a matching invoice ends
    with the row [Slashed], the payment hash and the fee cap recorded, and
    every other row untouched. *)
Theorem process_one_bond_pays b t pr inv share db :
  Coop env now -> Pays env -> NoDup (map id (bonds db)) -> In b (bonds db) ->
  state_is PendingPayout b = true -> parent_bond_id b = None ->
  slashed_at b = Some t -> payout_invoice b = Some pr ->
  counterparty_share_sats b = Ok share -> 0 < share -> decode_invoice pr = Ok inv ->
  match amount_milli_satoshis inv with Some m => m = msat_of_sat share | None => True end ->
  runs env (process_one_bond settings b) db (Ok tt)
    (mkDB (orders db)
       (update_where (fun r => N.eqb (id r) (id b)) (paid_row settings inv share) (bonds db)) (users db) (disputes db)).
Proof.
  intros HC HP Hnd Hb Hs Hroot Ht Hpr Hsh Hpos Hinv Hamt. unfold process_one_bond.
  eapply runs_try_ok; [unfold child_payout_blocked_by_locked_parent; rewrite Hroot; apply runs_ret|].
  cbv iota. eapply runs_bind; [apply runs_ask, HC|]. rewrite Ht.
  eapply runs_try_ok; [apply runs_ret|]. rewrite Hpr. cbn [is_none andb]. rewrite Hsh.
  eapply runs_try_ok; [apply runs_ret|]. rewrite (proj2 (Z.leb_gt share 0)) by lia.
  by eapply runs_pay.
Qed.

(** An unclaimed debt is forfeited, and only then. Over a root row in
    [PendingPayout] without an invoice, the payout job marks it [Forfeited]
    when the claim window has elapsed since the slash; before that it never
    leaves [PendingPayout] while a share is owed. *)
Theorem process_one_bond_forfeits b t db tr :
  Coop env now -> NoDup (map id (bonds db)) -> In b (bonds db) ->
  state_is PendingPayout b = true -> parent_bond_id b = None ->
  slashed_at b = Some t -> payout_invoice b = None ->
  let db' := run_db env (process_one_bond settings b) db tr in
  (claim_window settings <= now - t ->
     In (b <| state := state_to_string Forfeited |>) (bonds db')) /\
  (now - t < claim_window settings -> (forall s, counterparty_share_sats b = Ok s -> 0 < s) ->
     debts db' = debts db).
Proof.
  intros HC Hnd Hb Hs Hroot Ht Hpr. unfold process_one_bond, child_payout_blocked_by_locked_parent.
  rewrite Hroot. unfold try, run_db. cbn [bind call run]. rewrite (coop_now _ _ HC), Ht, Hpr.
  cbn [bind is_none andb]. split.
  - intros Hw. rewrite (proj2 (Z.leb_le _ _) Hw).
    unfold forfeit_bond, try, sql_or_db_error. cbn [bind sql run]. rewrite (coop_sql _ _ HC).
    cbn [forfeit_stmt update_bonds bind run map_err fst snd bonds].
    apply in_update_where. exists b. split; [done|].
    unfold with_id_state. by rewrite N.eqb_refl, Hs, Hpr.
  - intros Hw Hpos. rewrite (proj2 (Z.leb_gt _ _) Hw).
    destruct (counterparty_share_sats b) as [share|e] eqn:Esh; cbn [bind run fst snd]; [|done].
    rewrite (proj2 (Z.leb_gt share 0)) by (by apply Hpos).
    unfold request_payout_invoice, try, find_order_by_id, sql_or_db_error. cbn [bind call run].
    destruct (match last_invoice_request_at b with Some _ => _ | None => _ end); [done|].
    cbn [bind sql run query]. rewrite (coop_sql _ _ HC). cbn [bind run map_err].
    destruct (order_by_id (order_id b) db) as [order|]; [|done].
    destruct (ok_or (parse_reason b) _); cbn [bind run fst snd]; [|done].
    destruct (resolve_payout_recipient order b) as [[r|]|]; cbn [bind run fst snd]; [|done..].
    rewrite Esh, Ht. cbn [bind run].
    destruct (build_payout_small_order order share); cbn [bind run fst snd]; [|done].
    cbn [bind sql run]. rewrite (coop_sql _ _ HC).
    destruct (request_bump_stmt _ _ db) as [db1 n] eqn:E. cbn [bind run map_err].
    assert (debts db1 = debts db) as <-; [|by destruct (n =? 0)].
    match goal with E : request_bump_stmt ?i ?t db = _ |- _ =>
      replace db1 with (request_bump_stmt i t db).1 by (by rewrite E) end.
    by apply debts_update.
Qed.
End Cycle.

(** ** The winner's invoice *)

Section Invoice.
Context `{Lib} (settings : Settings) (env : Env DB ext).

Lemma recipient_matches_in order sender bs l b :
  recipient_matches order sender bs = Ok l -> In b l ->
  In b bs /\ resolve_payout_recipient order b = Ok (Some sender).
Proof.
  revert l. induction bs as [|c bs IH]; intros l; cbn [recipient_matches]; [by intros [= <-]|].
  destruct (parse_reason c); [|intros Hl Hb; destruct (IH l Hl Hb); split; [by right|done]].
  destruct (resolve_payout_recipient order c) as [[r|]|] eqn:Er; [| |done].
  2:{ intros Hl Hb. destruct (IH l Hl Hb). split; [by right|done]. }
  destruct (recipient_matches order sender bs) as [l'|] eqn:El; [|done]. intros [= <-].
  unfold str_eqb. case_bool_decide as E; [|intros Hb; destruct (IH l' eq_refl Hb); split; [by right|done]].
  intros [<-|Hb]; [split; [by left|by rewrite <- E]|]. destruct (IH l' eq_refl Hb). split; [by right|done].
Qed.

Lemma pick_match_in l e b : pick_match l e = Some b -> In b l.
Proof.
  unfold pick_match. destruct l as [|b1 [|b2 l]]; destruct e as [t|]; cbn [head];
    try (intros [= <-]; by left); try done.
  destruct (List.find (share_is t) (b1 :: b2 :: l)) as [c|] eqn:E.
  - intros [= <-]. by apply find_some in E as [].
  - intros [= <-]. by left.
Qed.

(** A row found for a sender is one whose payout the sender is owed. *)
Lemma recoverable_run oid sender share db tr :
  sql_up env ->
  exists v tr', run env (find_recoverable_bond_for_recipient oid sender share) db tr = (v, db, tr') /\
    forall b, v = Ok (Some b) -> exists order,
      order_by_id oid db = Some order /\ In b (bonds db) /\ order_id b = oid /\
      (state_is PendingPayout b = true \/ state_is Failed b = true) /\
      resolve_payout_recipient order b = Ok (Some sender).
Proof.
  intros Hup. unfold find_recoverable_bond_for_recipient, try, find_order_by_id.
  rewrite run_query by done. destruct (recoverable_bonds oid db) as [|c bs] eqn:Ebs; [by eexists _, _|].
  rewrite run_query by done. destruct (order_by_id oid db) as [order|]; [|by eexists _, _].
  destruct (recipient_matches order sender (c :: bs)) as [l|e] eqn:El; cbn [bind run]; [|by eexists _, _].
  eexists _, _. split; [done|]. intros b [= Hb]. exists order. apply pick_match_in in Hb.
  destruct (recipient_matches_in _ _ _ _ _ El Hb) as [Hin Hr]. rewrite <- Ebs in Hin.
  apply select_ordered_in in Hin as [Hin [Ho%N.eqb_eq Hst%orb_true_iff]%andb_true_iff].
  split_and!; auto.
Qed.

(** The row [b] replaced by [b']. *)
Definition put_row (b b' : Bond) (db : DB) : DB :=
  mkDB (orders db) (update_where (fun r => N.eqb (id r) (id b)) (fun _ => b') (bonds db))
    (users db) (disputes db).

(** A keyed update that hits a row hits the one row with that key. *)
Lemma keyed_update p f db b :
  NoDup (map id (bonds db)) -> In b (bonds db) -> (forall r, p r = true -> id r = id b) ->
  (update_bonds p f db).2 <> 0 -> p b = true /\ (update_bonds p f db).1 = put_row b (f b) db.
Proof.
  intros Hnd Hb Hp Hn.
  assert (p b = true) as Hpb.
  { unfold update_bonds, count_where in Hn. cbn [snd] in Hn.
    destruct (List.filter p (bonds db)) as [|h l] eqn:E; [done|].
    assert (In h (h :: l)) as Hh by by left. rewrite <- E in Hh. apply filter_In in Hh as [Hh Hph].
    by rewrite (nodup_ids_eq _ b h Hnd Hb Hh (eq_sym (Hp h Hph))). }
  split; [done|]. unfold put_row, update_bonds. cbn [fst]. f_equal. apply map_ext_in. intros r Hr.
  destruct (N.eqb (id r) (id b)) eqn:E.
  - apply N.eqb_eq in E. by rewrite (nodup_ids_eq _ r b Hnd Hr Hb E), Hpb.
  - destruct (p r) eqn:Er; [|done]. apply N.eqb_neq in E. by destruct (E (Hp r Er)).
Qed.

(** The invoice [pr] is recorded at [b], which becomes [b'] and is to be paid:
    [b] waited for an invoice, or its payout had failed within the window for
    claims. *)
Inductive recorded (window now : Z) (pr : string) (b b' : Bond) : Prop :=
| on_pending :
    state_is PendingPayout b = true -> payout_invoice b = None ->
    b' = b <| payout_invoice := Some pr |> <| invoice_request_attempts := 0 |> ->
    recorded window now pr b b'
| on_failed t :
    state_is Failed b = true -> slashed_at b = Some t -> saturating_sub now t < window ->
    b' = b <| state := state_to_string PendingPayout |> <| payout_invoice := Some pr |>
           <| payout_attempts := 0 |> <| invoice_request_attempts := 0 |>
           <| payout_payment_hash := None |> ->
    recorded window now pr b b'.

Lemma apply_invoice_run b pr now window db tr :
  sql_up env -> NoDup (map id (bonds db)) -> In b (bonds db) ->
  exists v db' tr', run env (apply_payout_invoice b pr now window) db tr = (v, db', tr') /\
    ((v = Ok Persisted \/ v = Ok Resurrected) /\
       (exists b', recorded window now pr b b' /\ db' = put_row b b' db) \/
     v = Ok Rejected /\ db' = db).
Proof.
  intros Hup Hnd Hb. unfold apply_payout_invoice, try, sql_or_db_error.
  destruct (state_from_str (state b)) as [[]|]; cbn [bind run]; try (eexists _, _, _; by eauto).
  - cbn [bind sql run]. rewrite Hup.
    pose proof (update_bonds_miss (fun r => with_id_state (id b) PendingPayout r && is_none (payout_invoice r))
      (fun r => r <| payout_invoice := Some pr |> <| invoice_request_attempts := 0 |>) db) as Hmiss.
    pose proof (keyed_update (fun r => with_id_state (id b) PendingPayout r && is_none (payout_invoice r))
      (fun r => r <| payout_invoice := Some pr |> <| invoice_request_attempts := 0 |>) db b Hnd Hb) as Hhit.
    fold (persist_invoice_stmt (id b) pr db) in Hmiss, Hhit.
    destruct (persist_invoice_stmt _ _ db) as [d n]. cbn [bind run map_err fst snd] in *.
    eexists _, _, _. split; [done|]. destruct (Z.eqb_spec n 0) as [->|En]; [right; auto|left].
    split; [by left|]. destruct Hhit as [Hp ->]; [|done|].
    { intros r [[E%N.eqb_eq _]%andb_true_iff _]%andb_true_iff. done. }
    apply andb_true_iff in Hp as [[_ Hs]%andb_true_iff Hi]. eexists. split; [|done].
    apply on_pending; [done| |done]. by destruct (payout_invoice b).
  - destruct (slashed_at b) as [t|] eqn:Et; [|eexists _, _, _; by eauto].
    destruct (Z.leb_spec window (saturating_sub now t)) as [|Hw]; [eexists _, _, _; by eauto|].
    cbn [bind sql run]. rewrite Hup.
    set (f := fun r : Bond => r <| state := state_to_string PendingPayout |> <| payout_invoice := Some pr |>
           <| payout_attempts := 0 |> <| invoice_request_attempts := 0 |> <| payout_payment_hash := None |>).
    change (resurrect_stmt (id b) pr db) with (update_bonds (with_id_state (id b) Failed) f db).
    pose proof (update_bonds_miss (with_id_state (id b) Failed) f db) as Hmiss.
    pose proof (keyed_update (with_id_state (id b) Failed) f db b Hnd Hb) as Hhit.
    destruct (update_bonds _ f db) as [d n]. cbn [bind run map_err fst snd] in *.
    eexists _, _, _. split; [done|]. destruct (Z.eqb_spec n 0) as [->|En]; [right; auto|left].
    split; [by right|]. destruct Hhit as [Hp ->]; [|done|].
    { intros r [E%N.eqb_eq _]%andb_true_iff. done. }
    apply andb_true_iff in Hp as [_ Hs]. eexists. split; [|done]. by eapply on_failed.
Qed.

Lemma valid_read_only pr amount fee : read_only (is_valid_invoice settings pr amount fee).
Proof.
  unfold is_valid_invoice, validate_lightning_address, validate_bolt11_invoice,
    validate_payout_invoice, try. read_only.
Qed.

Lemma notify_received_read_only b r share : read_only (notify_invoice_received b r share).
Proof.
  unfold notify_invoice_received, find_order_by_id, sql_or_db_error, enqueue_payout_ack. read_only.
Qed.

(** C35: only the party that is owed can claim, and a claim that is
    acknowledged is stored. [add_bond_invoice_action] either fails and leaves
    the tables untouched, or acknowledges a submitted request that passed
    [is_valid_invoice] for the share; then one row of the named order, owed a
    positive share to the sender of the message, has been replaced by the same
    row with that request recorded and due to be paid.  The row waited for an
    invoice and had none, or its payout had failed and the window for claims
    was still open. *)
Theorem add_bond_invoice_effect msg_id msg_pr sender db tr :
  sql_up env -> NoDup (map id (bonds db)) ->
  let v := run_val env (add_bond_invoice_action settings msg_id msg_pr sender) db tr in
  let db' := run_db env (add_bond_invoice_action settings msg_id msg_pr sender) db tr in
  (exists e, v = Err e) /\ db' = db \/
  v = Ok tt /\ exists oid pr order b b' share tr1 tr2,
    msg_id = Some oid /\ msg_pr = Some pr /\ order_by_id oid db = Some order /\
    In b (bonds db) /\ order_id b = oid /\
    resolve_payout_recipient order b = Ok (Some sender) /\
    counterparty_share_sats b = Ok share /\ 0 < share /\
    is_ok (run_val env (is_valid_invoice settings pr (Some share) (Some 0)) db tr1) = true /\
    recorded (claim_window settings) (answer env _ Now tr2) pr b b' /\
    db' = put_row b b' db.
Proof.
  intros Hup Hnd. cbv zeta. unfold add_bond_invoice_action, run_val, run_db, try.
  destruct msg_id as [oid|]; cbn [ok_or bind run fst snd]; [|by left; eauto].
  destruct msg_pr as [pr|]; cbn [bind run fst snd]; [|by left; eauto].
  destruct (str_eqb pr ""); cbn [bind run fst snd]; [by left; eauto|].
  rewrite run_bind.
  match goal with |- context [run env (find_recoverable_bond_for_recipient oid sender ?s) db tr] =>
    destruct (recoverable_run oid sender s db tr Hup) as (found & tr1 & -> & Hfound) end.
  destruct found as [[b|]|e]; cbn [bind run fst snd]; [|by left; eauto..].
  destruct (Hfound b eq_refl) as (order & Ho & Hb & Hoid & _ & Hr).
  destruct (counterparty_share_sats b) as [share|e] eqn:Es; cbn [bind run fst snd]; [|by left; eauto].
  destruct (share <=? 0) eqn:Epos; cbn [bind run fst snd]; [by left; eauto|]. bool_prop.
  match goal with |- context [run env (bind ?p ?f) db tr1] =>
    destruct (run_read_only env p f db tr1 (valid_read_only _ _ _)) as (valid & tr2 & Ev & ->) end.
  destruct (is_ok valid) eqn:Eok; cbn [negb bind call run fst snd]; [|by left; eauto].
  match goal with |- context [run env (bind (apply_payout_invoice b pr ?n ?w) _) db ?t] =>
    rewrite run_bind; destruct (apply_invoice_run b pr n w db t Hup Hnd Hb) as (out & db' & tr3 & -> & Hout) end.
  destruct Hout as [[Hv (b' & Hrec & ->)]|[-> ->]]; [|by left; cbn; eauto].
  right. destruct Hv as [->| ->];
    match goal with |- context [run env (bind ?p ?f) ?d tr3] =>
      destruct (run_read_only env p f d tr3 (notify_received_read_only _ _ _)) as (u & tr4 & _ & ->) end;
    cbn [run fst snd]; (split; [done|]); exists oid, pr, order, b, b', share, tr1; eexists;
    split_and!; try done; by rewrite Ev.
Qed.
End Invoice.

(** ** The theorems on a concrete debt *)

(** The taker's bond of order 7, slashed at time 10; half goes to the node. *)
Definition demo_debt (invoice : option string) : Bond :=
  (demo_bond 1 7 "taker" Taker PendingPayout)
    <| slashed_reason := Some (reason_to_string LostDispute) |>
    <| slashed_at := Some 10 |>
    <| node_share_sats := Some 500 |>
    <| payout_invoice := invoice |>.

Definition debt_db (invoice : option string) : DB :=
  mkDB [demo_order 7 SettledByAdmin] [demo_debt invoice; demo_bond 3 8 "other" Taker Requested] [] [].

Lemma debt_ids invoice : NoDup (map id (bonds (debt_db invoice))).
Proof. apply (bool_decide_eq_true_1 _). by vm_compute. Qed.

(** LND unreachable for payments. *)
Definition stalled_answer (R : Type) (e : ext R) (tr : list (obs DB ext)) : R :=
  match e in ext R' return R' with
  | LndSendPaymentV2 _ _ _ _ => Err "unavailable"
  | e' => demo_answer 20 _ e' tr
  end.
Definition stalled_env : Env DB ext := mkEnv (fun _ => None) stalled_answer.

Lemma stalled_undecided : Undecided stalled_env.
Proof. by split. Qed.

Lemma process_one_bond_pays_witness :
  let inv := mkBolt11 (demo_hash 1) (Some 500000) Regtest 40 9000000000 in
  runs (demo_env 20) (process_one_bond demo_settings (demo_debt (Some "inv"))) (debt_db (Some "inv"))
    (Ok tt)
    (mkDB (orders (debt_db (Some "inv")))
       (update_where (fun r => N.eqb (id r) 1) (paid_row demo_settings inv 500)
          (bonds (debt_db (Some "inv")))) (users (debt_db (Some "inv"))) (disputes (debt_db (Some "inv")))).
Proof.
  apply (process_one_bond_pays demo_settings (demo_env 20) 20 (demo_debt (Some "inv")) 10 "inv"
           (mkBolt11 (demo_hash 1) (Some 500000) Regtest 40 9000000000) 500 (debt_db (Some "inv")));
    [apply demo_coop|apply demo_pays|apply debt_ids|by left|reflexivity|reflexivity|reflexivity
    |reflexivity|reflexivity|lia|reflexivity|reflexivity].
Defined.

Lemma process_one_bond_forfeits_witness :
  let now := 10 + 15 * 86400 in
  let db' := run_db (demo_env now) (process_one_bond demo_settings (demo_debt None)) (debt_db None) [] in
  (claim_window demo_settings <= now - 10 ->
     In ((demo_debt None) <| state := state_to_string Forfeited |>) (bonds db')) /\
  (now - 10 < claim_window demo_settings ->
     (forall s, counterparty_share_sats (demo_debt None) = Ok s -> 0 < s) ->
     debts db' = debts (debt_db None)).
Proof.
  apply (process_one_bond_forfeits demo_settings (demo_env (10 + 15 * 86400)) (10 + 15 * 86400)
           (demo_debt None) 10 (debt_db None) []);
    [apply demo_coop|apply debt_ids|by left|reflexivity..].
Defined.

Lemma add_bond_invoice_effect_witness :
  let act := add_bond_invoice_action demo_settings (Some 7%N) (Some "inv") "maker" in
  let v := run_val (demo_env 20) act (debt_db None) [] in
  let db' := run_db (demo_env 20) act (debt_db None) [] in
  v = Ok tt /\
  exists b b', In b (bonds (debt_db None)) /\
    recorded (claim_window demo_settings) 20 "inv" b b' /\ db' = put_row b b' (debt_db None).
Proof.
  intros act v db'.
  destruct (add_bond_invoice_effect demo_settings (demo_env 20) (Some 7%N) (Some "inv") "maker"
    (debt_db None) []) as [[[e He] _]|(Hv & oid & pr & order & b & b' & share & tr1 & tr2 & Ei & Ep & _ & Hb & _ & _ & _ & _ & _ & Hr & Hd)].
  - intros tr. reflexivity.
  - apply debt_ids.
  - exfalso. vm_compute in He. discriminate He.
  - split; [exact Hv|]. injection Ep as <-. exists b, b'. split; [exact Hb|]. split; [exact Hr|exact Hd].
Defined.
