(* ===== verification/BondInv.v ===== *)
(** * What every interleaving of the bond tasks keeps

    The shared invariant of the [bonds] table, the evidence the daemon has
    observed about each hold invoice and each payout, and the steps a task may
    take.  The last part shows, statement by statement, that what the handlers
    and the payout scheduler write are such steps. *)

From S2P Require Import Prelude Float64 Config BondTypes BondMath Effects Model.
From S2P Require Import Lightning BondDb BondRelease BondSlash OrderDb BondLock BondPayout.

Open Scope Z_scope.

Abbreviation obs' := (obs DB ext).

(** ** Evidence *)

Section Evidence.
Context `{Lib}.

(** The answers [release_htlc] and [settle_or_already] take for "the HTLC is
    gone" and "the HTLC is ours". *)
Definition cancel_done (r : result unit GrpcStatus) : bool :=
  match r with
  | Ok _ => true
  | Err st =>
      bool_decide (classify_cancel_error (MostroInternalErr (LnNodeError
        ("code=" +:+ grpc_code st +:+ " message=" +:+ grpc_message st))) = AlreadyDone)
  end.

Definition settle_done (r : result unit string) : bool :=
  match r with
  | Ok _ => true
  | Err e => is_already_settled_error (MostroInternalErr (LnNodeError e))
  end.

(** A predicate on the external observations. *)
Definition on_ext (f : forall R, ext R -> R -> bool) (o : obs') : bool :=
  match o with ObsExt e r => f _ e r | ObsSql _ _ => false end.

Definition obs_settled (h : list Z) : obs' -> bool :=
  on_ext (fun R (e : ext R) =>
    match e in ext R' return R' -> bool with
    | LndSettleInvoice p => fun r => bool_decide (raw_sha256 p = h) && settle_done r
    | _ => fun _ => false
    end).

Definition obs_cancelled (h : list Z) : obs' -> bool :=
  on_ext (fun R (e : ext R) =>
    match e in ext R' return R' -> bool with
    | LndCancelInvoice h' => fun r => bool_decide (h' = h) && cancel_done r
    | LndInvoiceUpdate h' => fun r =>
        bool_decide (h' = h) && match r with Some InvoiceCanceled => true | _ => false end
    | _ => fun _ => false
    end).

(** The payment hash LND identifies a payout by. *)
Definition pays (pr : string) (h : list Z) : bool :=
  match bolt11_from_str pr with
  | Some inv => bool_decide (payment_hash inv = h)
  | None => false
  end.

Definition tracked (r : result (option (option PaymentStatus)) GrpcStatus)
    (st : PaymentStatus) : bool :=
  match r with
  | Ok (Some (Some st')) => bool_decide (st' = st)
  | _ => false
  end.

Definition obs_sent (h : list Z) : obs' -> bool :=
  on_ext (fun R (e : ext R) =>
    match e in ext R' return R' -> bool with
    | LndSendPaymentV2 pr _ _ _ => fun _ => pays pr h
    | _ => fun _ => false
    end).

(** LND reported the payment of [h] in the final status [st]: in the stream
    of a send, or when tracked. *)
Definition obs_final (st : PaymentStatus) (h : list Z) : obs' -> bool :=
  on_ext (fun R (e : ext R) =>
    match e in ext R' return R' -> bool with
    | LndSendPaymentV2 pr _ _ _ => fun r =>
        pays pr h &&
        match r with
        | Ok s => match drain (ps_updates s), st with
                  | StreamSucceeded, PSucceeded | StreamFailed _, PFailed => true
                  | _, _ => false
                  end
        | Err _ => false
        end
    | LndTrackPayment h' => fun r => bool_decide (h' = h) && tracked r st
    | LndTrackPaymentBounded h' _ => fun r =>
        bool_decide (h' = h) && match r with Some r => tracked r st | None => false end
    | _ => fun _ => false
    end).

Definition obs_paid := obs_final PSucceeded.
Definition obs_failed := obs_final PFailed.

Definition seen (f : obs' -> bool) (tr : list obs') : bool := existsb f tr.
Definition settled (h : list Z) := seen (obs_settled h).
Definition cancelled (h : list Z) := seen (obs_cancelled h).
Definition sent (h : list Z) := seen (obs_sent h).
Definition paid (h : list Z) := seen (obs_paid h).

(** The last word on the payment of [h] is "failed". *)
Fixpoint failed_since (h : list Z) (tr : list obs') : bool :=
  match tr with
  | [] => false
  | o :: tr' =>
      if obs_failed h o then true
      else if obs_sent h o then false
      else failed_since h tr'
  end.

Definition is_send (o : obs') : bool :=
  on_ext (fun R (e : ext R) =>
    match e in ext R' return R' -> bool with
    | LndSendPaymentV2 _ _ _ _ => fun _ => true
    | _ => fun _ => false
    end) o.

(** ** What LND and the random source promise *)

Definition random_ok (o : obs') : Prop :=
  match o with
  | ObsExt e r =>
      (match e in ext R return R -> Prop with
       | RandomBytes32 => fun bs => Forall is_byte bs /\ length bs = HASH_LEN
       | _ => fun _ => True
       end) r
  | ObsSql _ _ => True
  end.

(** One more observation on top of a lawful history:
    - a hold invoice is never both settled and cancelled;
    - a payment reported succeeded was sent, is not in the state "failed,
      and not sent again since", and is never reported failed afterwards;
    - the random source returns 32 bytes. *)
Record step_law (o : obs') (tr : list obs') : Prop := {
  law_settled : forall h, obs_settled h o = true -> cancelled h tr = false;
  law_cancelled : forall h, obs_cancelled h o = true -> settled h tr = false;
  law_paid_sent : forall h, obs_paid h o = true -> sent h (o :: tr) = true;
  law_paid_live : forall h, obs_paid h o = true -> obs_sent h o = true \/ failed_since h tr = false;
  law_failed : forall h, obs_failed h o = true -> paid h tr = false;
  law_random : random_ok o
}.

Fixpoint lawful (tr : list obs') : Prop :=
  match tr with
  | [] => True
  | o :: tr' => step_law o tr' /\ lawful tr'
  end.

(** The law is decidable: an observation is about at most one hash. *)
Definition ext_hash (o : obs') : option (list Z) :=
  match o with
  | ObsExt e _ =>
      match e with
      | LndSettleInvoice p => Some (raw_sha256 p)
      | LndCancelInvoice h | LndInvoiceUpdate h | LndTrackPayment h
      | LndTrackPaymentBounded h _ => Some h
      | LndSendPaymentV2 pr _ _ _ =>
          match bolt11_from_str pr with Some inv => Some (payment_hash inv) | None => None end
      | _ => None
      end
  | ObsSql _ _ => None
  end.

Definition random_okb (o : obs') : bool :=
  match o with
  | ObsExt e r =>
      (match e in ext R return R -> bool with
       | RandomBytes32 => fun bs =>
           forallb (fun b => (0 <=? b) && (b <? 256)) bs && bool_decide (length bs = HASH_LEN)
       | _ => fun _ => true
       end) r
  | ObsSql _ _ => true
  end.

Definition step_lawb (o : obs') (tr : list obs') : bool :=
  match ext_hash o with
  | None => true
  | Some h =>
      implb (obs_settled h o) (negb (cancelled h tr)) &&
      implb (obs_cancelled h o) (negb (settled h tr)) &&
      implb (obs_paid h o) (sent h (o :: tr) && (obs_sent h o || negb (failed_since h tr))) &&
      implb (obs_failed h o) (negb (paid h tr))
  end && random_okb o.

Fixpoint lawfulb (tr : list obs') : bool :=
  match tr with
  | [] => true
  | o :: tr' => step_lawb o tr' && lawfulb tr'
  end.

Lemma ext_hash_pays pr h : pays pr h = true ->
  match bolt11_from_str pr with Some inv => Some (payment_hash inv) | None => None end = Some h.
Proof. unfold pays. case_match; [|done]. intros. by bool_prop; subst. Qed.

Lemma about_hash h o :
  obs_settled h o = true \/ obs_cancelled h o = true \/ obs_paid h o = true \/
  obs_failed h o = true -> ext_hash o = Some h.
Proof.
  intros Hx. destruct o as [|R e r]; [by repeat destruct Hx as [Hx|Hx]|].
  destruct e; simpl in *; repeat destruct Hx as [Hx|Hx]; try discriminate Hx;
    bool_prop; subst; auto using ext_hash_pays.
Qed.

Lemma step_lawb_sound o tr : step_lawb o tr = true -> step_law o tr.
Proof.
  unfold step_lawb. intros [Hh Hr]%andb_true_iff.
  assert (Hx : forall h, ext_hash o = Some h ->
    implb (obs_settled h o) (negb (cancelled h tr)) = true /\
    implb (obs_cancelled h o) (negb (settled h tr)) = true /\
    implb (obs_paid h o) (sent h (o :: tr) && (obs_sent h o || negb (failed_since h tr))) = true /\
    implb (obs_failed h o) (negb (paid h tr)) = true).
  { intros h E. rewrite E in Hh. by apply andb_true_iff in Hh as [[[]%andb_true_iff ?]%andb_true_iff ?]. }
  constructor.
  - intros h Ho. destruct (Hx h) as (H1 & _); [apply about_hash; tauto|].
    rewrite Ho in H1. by apply negb_true_iff in H1.
  - intros h Ho. destruct (Hx h) as (_ & H1 & _); [apply about_hash; tauto|].
    rewrite Ho in H1. by apply negb_true_iff in H1.
  - intros h Ho. destruct (Hx h) as (_ & _ & H1 & _); [apply about_hash; tauto|].
    rewrite Ho in H1. by apply andb_true_iff in H1 as [? _].
  - intros h Ho. destruct (Hx h) as (_ & _ & H1 & _); [apply about_hash; tauto|].
    rewrite Ho in H1. apply andb_true_iff in H1 as [_ H1]. apply orb_true_iff in H1 as [|H1];
      [by left|right]. by apply negb_true_iff in H1.
  - intros h Ho. destruct (Hx h) as (_ & _ & _ & H1); [apply about_hash; tauto|].
    rewrite Ho in H1. by apply negb_true_iff in H1.
  - destruct o as [|R e r]; [done|]. destruct e; try done. simpl in *.
    apply andb_true_iff in Hr as [Hb Hl]. split; [|by bool_prop].
    apply Forall_forall. intros b Hin%list_elem_of_In. rewrite forallb_forall in Hb.
    specialize (Hb b Hin). unfold is_byte. bool_prop. lia.
Qed.

Lemma lawfulb_sound tr : lawfulb tr = true -> lawful tr.
Proof.
  induction tr as [|o tr IH]; [done|]. simpl. intros [Ho Ht]%andb_true_iff.
  split; [by apply step_lawb_sound|by apply IH].
Qed.

Lemma lawful_suffix l tr : lawful (l ++ tr)%list -> lawful tr.
Proof. induction l as [|o l IH]; simpl; [done|]. intros [_ Hl]. by apply IH. Qed.

Lemma seen_cons f o tr : seen f tr = true -> seen f (o :: tr) = true.
Proof. simpl. intros ->. apply orb_true_r. Qed.

Lemma settled_not_cancelled h tr :
  lawful tr -> settled h tr = true -> cancelled h tr = true -> False.
Proof.
  induction tr as [|o tr IH]; [done|]. simpl. intros [Hl Htr] Hs Hc.
  apply orb_true_iff in Hs as [Hs|Hs], Hc as [Hc|Hc]; [| | |by apply IH].
  - destruct o as [|R e r]; [done|]. destruct e; done.
  - apply (law_settled _ _ Hl) in Hs. congruence.
  - apply (law_cancelled _ _ Hl) in Hc. congruence.
Qed.

Lemma obs_final_excl st1 st2 h o :
  obs_final st1 h o = true -> obs_final st2 h o = true -> st1 = PSucceeded -> st2 <> PFailed.
Proof.
  destruct o as [|R e r]; [done|]. destruct e; simpl; try done; intros H1 H2 -> ->; bool_prop.
  - unfold tracked in *. destruct r as [[[]|]|]; simpl in *; bool_prop; congruence.
  - unfold tracked in *. destruct r as [[[[]|]|]|]; simpl in *; bool_prop; congruence.
  - destruct r; [|done]. by destruct (drain _).
Qed.

Lemma paid_live h tr : lawful tr -> paid h tr = true -> failed_since h tr = false.
Proof.
  induction tr as [|o tr IH]; [done|]. simpl. intros [Hl Htr] Hp.
  destruct (obs_failed h o) eqn:Ef.
  - exfalso. apply orb_true_iff in Hp as [Hp|Hp].
    + by eapply (obs_final_excl PSucceeded PFailed h o).
    + apply (law_failed _ _ Hl) in Ef. congruence.
  - destruct (obs_sent h o) eqn:Es; [done|].
    apply orb_true_iff in Hp as [Hp|Hp]; [|by apply IH].
    destruct (law_paid_live _ _ Hl h Hp); congruence.
Qed.

Lemma paid_sent h tr : lawful tr -> paid h tr = true -> sent h tr = true.
Proof.
  induction tr as [|o tr IH]; [done|]. simpl. intros [Hl Htr] Hp.
  apply orb_true_iff in Hp as [Hp|Hp].
  - apply (law_paid_sent _ _ Hl h Hp).
  - rewrite (IH Htr Hp). apply orb_true_r.
Qed.

Lemma obs_sent_is_send h o : obs_sent h o = true -> is_send o = true.
Proof. destruct o as [|R e r]; [done|]. by destruct e. Qed.

Lemma failed_since_cons h o tr :
  is_send o = false -> failed_since h tr = true -> failed_since h (o :: tr) = true.
Proof.
  simpl. intros Hs Hf. case_match; [done|]. case_match; [|done].
  apply obs_sent_is_send in H1. congruence.
Qed.
End Evidence.

(** ** The invariant *)

(** States in which the node owns the bond's sats. *)
Definition slashlike (s : BondState) : bool :=
  match s with PendingPayout | Slashed | Forfeited | Failed => true | _ => false end.

(** The documented life cycle. *)
Definition may (s s' : BondState) : bool :=
  match s, s' with
  | Requested, (Requested | Locked | Released)
  | Locked, (Locked | Released | PendingPayout | Slashed)
  | Released, Released
  | PendingPayout, (PendingPayout | Slashed | Forfeited | Failed)
  | Failed, (Failed | PendingPayout)
  | Slashed, Slashed
  | Forfeited, Forfeited => true
  | _, _ => false
  end.

Definition has_state (b : Bond) (s : BondState) : Prop := state b = state_to_string s.

Lemma has_state_fun b s t : has_state b s -> has_state b t -> s = t.
Proof. unfold has_state. intros -> E. symmetry. by apply state_to_string_inj. Qed.

Lemma has_state_is b s : state_is s b = true <-> has_state b s.
Proof. apply state_is_eq. Qed.

Lemma has_state_parse b s : state_from_str (state b) = Ok s <-> has_state b s.
Proof.
  split; intros Hs.
  - symmetry. exact (to_from_str (T := BondState) _ _ Hs).
  - rewrite Hs. exact (from_to_str (T := BondState) s).
Qed.

(** The columns no statement rewrites. *)
Definition fixed_columns (b : Bond) :=
  (id b, order_id b, parent_bond_id b, child_order_id b, pubkey b, role b, amount_sats b,
   hash b, preimage b, created_at b).

Section Invariant.
Context `{Lib}.

Definition hash_bytes (b : Bond) : option (list Z) :=
  match hash b with
  | Some h => match from_hex h with Ok bs => Some bs | Err _ => None end
  | None => None
  end.

(** The hash column is the hash of the preimage column. *)
Definition linked (b : Bond) : Prop :=
  match hash b, preimage b with
  | Some h, Some p => exists pb, from_hex p = Ok pb /\ length pb = HASH_LEN /\
                                 from_hex h = Ok (raw_sha256 pb)
  | None, None => True
  | _, _ => False
  end.

(** A slashed row knows when, why, and how its sats are split. *)
Definition slash_recorded (b : Bond) : Prop :=
  exists t r n, slashed_at b = Some t /\ slashed_reason b = Some (reason_to_string r) /\
                node_share_sats b = Some n /\ 0 <= n <= amount_sats b.

Record row_ok (tr : list obs') (b : Bond) : Prop := {
  ro_state : exists s, has_state b s;
  ro_amount : 0 <= amount_sats b <= i64_max;
  ro_share : 0 <= slashed_share_sats b;
  ro_link : linked b;
  ro_child : is_some (parent_bond_id b) = true ->
    hash b = None /\ exists s, has_state b s /\ slashlike s = true;
  ro_seized : forall s, has_state b s -> slashlike s = true -> parent_bond_id b = None ->
    exists h, hash_bytes b = Some h /\ settled h tr = true;
  ro_released : has_state b Released ->
    hash b = None \/ exists h, hash_bytes b = Some h /\ cancelled h tr = true;
  ro_meta : forall s, has_state b s -> slashlike s = true ->
    s <> Slashed \/ parent_bond_id b <> None -> slash_recorded b;
  ro_invoice : payout_invoice b <> None -> exists s, has_state b s /\ slashlike s = true;
  ro_paid : forall pr, has_state b Slashed -> payout_invoice b = Some pr ->
    exists n, node_share_sats b = Some n /\
      (amount_sats b - n <= 0 \/ exists h, pays pr h = true /\ paid h tr = true)
}.

(** The payment of [h] is on record at a live row. *)
Definition attached (h : list Z) (db : DB) : Prop :=
  exists b pr, In b (bonds db) /\ payout_invoice b = Some pr /\ pays pr h = true /\
               (has_state b PendingPayout \/ has_state b Slashed).

Record bonds_ok (tr : list obs') (db : DB) : Prop := {
  bo_ids : NoDup (map id (bonds db));
  bo_rows : forall b, In b (bonds db) -> row_ok tr b;
  bo_locked : forall b1 b2, In b1 (bonds db) -> In b2 (bonds db) ->
    order_id b1 = order_id b2 -> has_state b1 Locked -> has_state b2 Locked ->
    role_is Taker b1 = true -> role_is Taker b2 = true -> id b1 = id b2;
  bo_slices : forall b1 b2, In b1 (bonds db) -> In b2 (bonds db) ->
    same_slice b1 b2 = true -> id b1 = id b2;
  bo_payments : forall h, sent h tr = true -> attached h db \/ failed_since h tr = true
}.

(** ** Steps *)

(** How one row may change. *)
Record row_step (b b' : Bond) : Prop := {
  rs_fixed : fixed_columns b' = fixed_columns b;
  rs_may : exists s s', has_state b s /\ has_state b' s' /\ may s s' = true;
  rs_seized : forall s, has_state b s -> slashlike s = true ->
    node_share_sats b' = node_share_sats b /\ slashed_reason b' = slashed_reason b
}.

Definition rows_step (db db' : DB) : Prop :=
  forall b, In b (bonds db) -> exists b', In b' (bonds db') /\ row_step b b'.

(** Handlers leave a row with a pending payout invoice alone. *)
Definition quiet (db db' : DB) : Prop :=
  forall b pr, In b (bonds db) -> has_state b PendingPayout -> payout_invoice b = Some pr ->
    exists b', In b' (bonds db') /\ id b' = id b /\ has_state b' PendingPayout /\
               payout_invoice b' = Some pr.

Definition G_sched (tr : list obs') (db : DB) (o : obs') (db' : DB) : Prop :=
  bonds_ok (o :: tr) db' /\ rows_step db db'.

Definition G_handler (tr : list obs') (db : DB) (o : obs') (db' : DB) : Prop :=
  G_sched tr db o db' /\ quiet db db' /\ is_send o = false.

Lemma row_ok_cons tr o b : row_ok tr b -> row_ok (o :: tr) b.
Proof.
  intros []. constructor; auto.
  - intros s Hs Hl Hp. destruct (ro_seized0 s Hs Hl Hp) as (h & ? & ?).
    exists h. split; [done|]. by apply seen_cons.
  - intros Hs. destruct (ro_released0 Hs) as [|(h & ? & ?)]; [by left|].
    right. exists h. split; [done|]. by apply seen_cons.
  - intros pr Hs Hp. destruct (ro_paid0 pr Hs Hp) as (n & ? & Hn). exists n.
    split; [done|]. destruct Hn as [|(h & ? & ?)]; [by left|].
    right. exists h. split; [done|]. by apply seen_cons.
Qed.

(** A history that grows by anything but a payout send keeps the invariant. *)
Lemma bonds_ok_cons tr o db : is_send o = false -> bonds_ok tr db -> bonds_ok (o :: tr) db.
Proof.
  intros Hs []. constructor; auto.
  - intros b Hb. by apply row_ok_cons, bo_rows0.
  - intros h Hh. simpl in Hh. apply orb_true_iff in Hh as [Hh|Hh].
    + apply obs_sent_is_send in Hh. congruence.
    + destruct (bo_payments0 h Hh); [by left|]. right. by apply failed_since_cons.
Qed.

Lemma may_refl s : may s s = true.
Proof. by destruct s. Qed.

Lemma may_slashlike s s' : may s s' = true -> slashlike s = true -> slashlike s' = true.
Proof. by destruct s, s'. Qed.

Lemma row_step_refl tr b : row_ok tr b -> row_step b b.
Proof.
  intros Hb. destruct (ro_state _ _ Hb) as [s Hs].
  constructor; [done| |done]. exists s, s. auto using may_refl.
Qed.

Lemma rows_step_refl tr db : bonds_ok tr db -> rows_step db db.
Proof. intros Hdb b Hb. exists b. split; [done|]. by eapply row_step_refl, bo_rows. Qed.

Lemma quiet_refl db : quiet db db.
Proof. intros b pr Hb Hs Hp. exists b. auto. Qed.

Lemma row_step_id b b' : row_step b b' -> id b' = id b.
Proof. intros []. unfold fixed_columns in *. by simplify_eq. Qed.
End Invariant.

(** Read a fixed column off [fixed_columns b' = fixed_columns b]. *)
Ltac fixed H :=
  let E := fresh in
  pose proof H as E; unfold fixed_columns in E; injection E as ? ? ? ? ? ? ? ? ? ?.

(** Rewrite with the column equations in the context. *)
Ltac columns := repeat match goal with E : _ _ = _ _ |- _ => rewrite E; clear E end.

(** ** Statements as steps *)

Section Steps.
Context `{Lib}.

(** A row whose payout is on record keeps it there, or the payment is known
    to have failed. *)
Definition keeps_payout (tr : list obs') (b b' : Bond) : Prop :=
  forall pr h, payout_invoice b = Some pr -> pays pr h = true ->
    has_state b PendingPayout \/ has_state b Slashed ->
    (payout_invoice b' = Some pr /\ (has_state b' PendingPayout \/ has_state b' Slashed)) \/
    failed_since h tr = true.

Record row_change (tr : list obs') (b b' : Bond) : Prop := {
  rc_step : row_step b b';
  rc_ok : row_ok tr b';
  rc_payout : keeps_payout tr b b'
}.

Definition quiet_row (b b' : Bond) : Prop :=
  forall pr, has_state b PendingPayout -> payout_invoice b = Some pr ->
    has_state b' PendingPayout /\ payout_invoice b' = Some pr.

(** A row an [INSERT] may add. *)
Record row_fresh (tr : list obs') (l : list Bond) (n : Bond) : Prop := {
  rf_ok : row_ok tr n;
  rf_unlocked : ~ has_state n Locked;
  rf_id : forall b, In b l -> id b <> id n;
  rf_slice : forall b, In b l -> same_slice b n = false
}.

Lemma row_change_refl tr b : row_ok tr b -> row_change tr b b.
Proof.
  intros Hb. constructor; [by eapply row_step_refl|done|].
  intros pr h Hp _ Hs. by left.
Qed.

Lemma same_slice_fixed a a' b b' :
  fixed_columns a' = fixed_columns a -> fixed_columns b' = fixed_columns b ->
  same_slice a' b' = same_slice a b.
Proof.
  intros Ha Hb. fixed Ha. fixed Hb. unfold same_slice. by columns.
Qed.

Lemma same_slice_sym a b : same_slice a b = same_slice b a.
Proof.
  unfold same_slice.
  destruct (parent_bond_id a), (child_order_id a), (parent_bond_id b), (child_order_id b);
    try done. rewrite (N.eqb_sym n), (N.eqb_sym n0). done.
Qed.

Lemma same_slice_refl_id b c : same_slice b c = true -> exists p s,
  parent_bond_id b = Some p /\ child_order_id b = Some s /\
  parent_bond_id c = Some p /\ child_order_id c = Some s.
Proof.
  unfold same_slice.
  destruct (parent_bond_id b), (child_order_id b), (parent_bond_id c), (child_order_id c);
    try done. intros [E1%N.eqb_eq E2%N.eqb_eq]%andb_true_iff. subst. eauto 10.
Qed.

Definition locked_taker (b : Bond) : Prop := has_state b Locked /\ role_is Taker b = true.

(** The rows change by [g] and the rows [new] are appended: a step. *)
Lemma change_ok tr db db' (g : Bond -> Bond) (new : list Bond) :
  bonds_ok tr db ->
  bonds db' = (map g (bonds db) ++ new)%list ->
  (forall b, In b (bonds db) -> row_change tr b (g b)) ->
  (forall b1 b2, In b1 (bonds db) -> In b2 (bonds db) -> order_id b1 = order_id b2 ->
     locked_taker (g b1) -> locked_taker (g b2) -> id b1 = id b2) ->
  (new = [] \/ exists n, new = [n] /\ row_fresh tr (bonds db) n) ->
  bonds_ok tr db' /\ rows_step db db'.
Proof.
  intros Hdb E Hg Hlock Hnew.
  assert (Hfix : forall b, In b (bonds db) -> fixed_columns (g b) = fixed_columns b)
    by (intros b Hb; apply (Hg b Hb)).
  assert (Hid : forall b, In b (bonds db) -> id (g b) = id b)
    by (intros b Hb; fixed (Hfix b Hb); done).
  assert (Hids : map id (map g (bonds db)) = map id (bonds db)).
  { rewrite map_map. apply map_ext_in. auto. }
  assert (Hin : forall b', In b' (bonds db') <->
            (exists b, In b (bonds db) /\ b' = g b) \/ In b' new).
  { intros b'. rewrite E, in_app_iff, in_map_iff.
    split; intros [(b & H1 & H2)|]; eauto. }
  split.
  2:{ intros b Hb. exists (g b). split; [apply Hin; eauto | apply (Hg b Hb)]. }
  constructor.
  - rewrite E, map_app, Hids. destruct Hnew as [->|(n & -> & Hn)].
    + rewrite app_nil_r. apply Hdb.
    + simpl. apply NoDup_app. split_and!; [apply Hdb| |apply NoDup_singleton].
      intros i Hi%list_elem_of_In Hi'%list_elem_of_In. apply in_map_iff in Hi as (b & <- & Hb).
      destruct Hi' as [Hi'|[]]. by eapply (rf_id _ _ _ Hn b Hb).
  - intros b' [(b & Hb & ->)|Hb']%Hin; [apply (Hg b Hb)|].
    destruct Hnew as [->|(n & -> & Hn)]; [done|]. destruct Hb' as [<-|[]]. apply Hn.
  - intros b1 b2 H1%Hin H2%Hin Ho Hs1 Hs2 Hr1 Hr2.
    destruct Hnew as [->|(n & -> & Hn)].
    + destruct H1 as [(a1 & Ha1 & ->)|[]], H2 as [(a2 & Ha2 & ->)|[]].
      rewrite !Hid by done. apply Hlock; [done|done| |by split|by split].
      fixed (Hfix a1 Ha1). fixed (Hfix a2 Ha2). congruence.
    + destruct H1 as [(a1 & Ha1 & ->)|[<-|[]]]; [|by destruct (rf_unlocked _ _ _ Hn)].
      destruct H2 as [(a2 & Ha2 & ->)|[<-|[]]]; [|by destruct (rf_unlocked _ _ _ Hn)].
      rewrite !Hid by done. apply Hlock; [done|done| |by split|by split].
      fixed (Hfix a1 Ha1). fixed (Hfix a2 Ha2). congruence.
  - intros b1 b2 H1%Hin H2%Hin Hsl.
    destruct Hnew as [->|(n & -> & Hn)];
      [destruct H1 as [(a1 & Ha1 & ->)|[]], H2 as [(a2 & Ha2 & ->)|[]]
      |destruct H1 as [(a1 & Ha1 & ->)|[<-|[]]], H2 as [(a2 & Ha2 & ->)|[<-|[]]]].
    + rewrite (same_slice_fixed a1 _ a2) in Hsl by auto. rewrite !Hid by done.
      by apply (bo_slices _ _ Hdb).
    + rewrite (same_slice_fixed a1 _ a2) in Hsl by auto. rewrite !Hid by done.
      by apply (bo_slices _ _ Hdb).
    + exfalso. rewrite (same_slice_fixed a1 _ n n) in Hsl by auto.
      rewrite (rf_slice _ _ _ Hn a1 Ha1) in Hsl. done.
    + exfalso. rewrite same_slice_sym, (same_slice_fixed a2 _ n n) in Hsl by auto.
      rewrite (rf_slice _ _ _ Hn a2 Ha2) in Hsl. done.
    + done.
  - intros h Hh. destruct (bo_payments _ _ Hdb h Hh) as [(b & pr & Hb & Hp & Hph & Hs)|]; [|by right].
    destruct (rc_payout _ _ _ (Hg b Hb) pr h Hp Hph Hs) as [[Hp' Hs']|]; [|by right].
    left. exists (g b), pr. split_and!; [apply Hin; eauto|done|done|done].
Qed.

Lemma change_quiet db db' (g : Bond -> Bond) (new : list Bond) :
  bonds db' = (map g (bonds db) ++ new)%list ->
  (forall b, In b (bonds db) -> id (g b) = id b /\ quiet_row b (g b)) ->
  quiet db db'.
Proof.
  intros E Hg b pr Hb Hs Hp. destruct (Hg b Hb) as [Hi Hq].
  destruct (Hq pr Hs Hp) as [Hs' Hp']. exists (g b). split_and!; [|done|done|done].
  rewrite E. apply in_or_app. left. by apply in_map.
Qed.

(** [UPDATE bonds SET f WHERE p] without new locks. *)
Definition upd (p : Bond -> bool) (f : Bond -> Bond) (b : Bond) : Bond :=
  if p b then f b else b.

Lemma update_ok tr db p f :
  bonds_ok tr db ->
  (forall b, In b (bonds db) -> p b = true ->
     row_change tr b (f b) /\ (has_state (f b) Locked -> has_state b Locked)) ->
  bonds_ok tr (update_bonds p f db).1 /\ rows_step db (update_bonds p f db).1.
Proof.
  intros Hdb Hf. apply (change_ok tr db _ (upd p f) []); [done| | | |by left].
  - by rewrite app_nil_r.
  - intros b Hb. unfold upd. destruct (p b) eqn:Ep; [by apply Hf|].
    by apply row_change_refl, Hdb.
  - intros b1 b2 Hb1 Hb2 Ho [Hs1 Hr1] [Hs2 Hr2].
    assert (Hl : forall b, In b (bonds db) -> has_state (upd p f b) Locked ->
              role_is Taker (upd p f b) = true -> has_state b Locked /\ role_is Taker b = true).
    { intros b Hb. unfold upd. destruct (p b) eqn:Ep; [|done].
      destruct (Hf b Hb Ep) as [Hc Hl]. intros Hs Hr. split; [by apply Hl|].
      pose proof (rs_fixed _ _ (rc_step _ _ _ Hc)) as Hfx. fixed Hfx.
      unfold role_is in *. congruence. }
    destruct (Hl b1 Hb1 Hs1 Hr1), (Hl b2 Hb2 Hs2 Hr2). by eapply (bo_locked _ _ Hdb).
Qed.

Lemma update_quiet db p f :
  (forall b, In b (bonds db) -> p b = true -> id (f b) = id b /\ quiet_row b (f b)) ->
  quiet db (update_bonds p f db).1.
Proof.
  intros Hf. apply (change_quiet db _ (upd p f) []).
  - by rewrite app_nil_r.
  - intros b Hb. unfold upd. destruct (p b) eqn:Ep; [by apply Hf|].
    split; [done|]. by intros pr.
Qed.

Lemma insert_ok tr db n :
  bonds_ok tr db -> row_fresh tr (bonds db) n ->
  bonds_ok tr (insert_bond n db) /\ rows_step db (insert_bond n db) /\ quiet db (insert_bond n db).
Proof.
  intros Hdb Hn.
  destruct (change_ok tr db (insert_bond n db) (fun b => b) [n]) as [H1 H2].
  - done.
  - by rewrite map_id.
  - intros b Hb. by apply row_change_refl, Hdb.
  - intros b1 b2 Hb1 Hb2 Ho [] []. by eapply (bo_locked _ _ Hdb).
  - right. eauto.
  - split_and!; [done|done|]. intros b pr Hb Hs Hp. exists b. split_and!; [|done|done|done].
    simpl. apply in_or_app. by left.
Qed.
End Steps.

(** ** The statements of the bond tasks *)

(** A step on the tables alone: what [G_handler] and [G_sched] ask of the
    database part. *)
Definition db_step `{Lib} (tr : list obs') (db db' : DB) : Prop :=
  bonds_ok tr db' /\ rows_step db db'.
Definition db_step_quiet `{Lib} (tr : list obs') (db db' : DB) : Prop :=
  db_step tr db db' /\ quiet db db'.

Section Statements.
Context `{Lib}.

(** What a task that once read [b0] may rely on ever after. *)
Definition snap (b0 : Bond) (tr : list obs') (db : DB) : Prop :=
  row_ok tr b0 /\
  exists b, In b (bonds db) /\ fixed_columns b = fixed_columns b0 /\
    (forall s, has_state b0 s -> slashlike s = true ->
       (exists s', has_state b s' /\ slashlike s' = true) /\
       node_share_sats b = node_share_sats b0).

(** The hold invoice of the row is known to be gone. *)
Definition gone (b : Bond) (tr : list obs') : Prop :=
  hash b = None \/ exists h, hash_bytes b = Some h /\ cancelled h tr = true.

Lemma ids_inj tr db b1 b2 :
  bonds_ok tr db -> In b1 (bonds db) -> In b2 (bonds db) -> id b1 = id b2 -> b1 = b2.
Proof.
  intros Hdb H1 H2 E. pose proof (bo_ids _ _ Hdb) as Hnd. revert H1 H2 Hnd.
  generalize (bonds db). induction l as [|b l IH]; [done|]. simpl.
  intros [->|H1] [->|H2] [Hn Hnd]%NoDup_cons; [done| | |by apply IH].
  - destruct Hn. apply list_elem_of_In. rewrite E. by apply in_map.
  - destruct Hn. apply list_elem_of_In. rewrite <- E. by apply in_map.
Qed.

Lemma snap_row b0 tr db b :
  bonds_ok tr db -> snap b0 tr db -> In b (bonds db) -> id b = id b0 ->
  fixed_columns b = fixed_columns b0 /\
  (forall s, has_state b0 s -> slashlike s = true ->
     (exists s', has_state b s' /\ slashlike s' = true) /\
     node_share_sats b = node_share_sats b0).
Proof.
  intros Hdb (Hok & b' & Hb' & Hf & Hs) Hb E.
  assert (b = b') as ->; [|done]. eapply ids_inj; [done..|]. fixed Hf. congruence.
Qed.

Lemma snap_read tr db b : bonds_ok tr db -> In b (bonds db) -> snap b tr db.
Proof.
  intros Hdb Hb. split; [by apply Hdb|]. exists b. split_and!; [done|done|]. eauto.
Qed.

Lemma hash_bytes_fixed b b' : fixed_columns b' = fixed_columns b -> hash_bytes b' = hash_bytes b.
Proof. intros Hf. fixed Hf. unfold hash_bytes. by columns. Qed.

Lemma gone_not_seized tr b s :
  lawful tr -> row_ok tr b -> parent_bond_id b = None -> gone b tr ->
  has_state b s -> slashlike s = false.
Proof.
  intros Hl Hok Hp Hg Hs. destruct (slashlike s) eqn:E; [exfalso|done].
  destruct (ro_seized _ _ Hok s Hs E Hp) as (h & Hh & Hset).
  destruct Hg as [Hn|(h' & Hh' & Hc)].
  - unfold hash_bytes in Hh. by rewrite Hn in Hh.
  - simplify_eq. by eapply settled_not_cancelled.
Qed.

Lemma linked_fixed b b' : fixed_columns b' = fixed_columns b -> linked b -> linked b'.
Proof.
  intros Hf. fixed Hf. unfold linked. by columns.
Qed.

(** A row that moves from [s] to [s']. *)
Lemma row_ok_move tr b b' s s' :
  row_ok tr b -> has_state b s -> has_state b' s' -> fixed_columns b' = fixed_columns b ->
  0 <= slashed_share_sats b' ->
  (slashlike s = true -> slashlike s' = true) ->
  (slashlike s = false -> slashlike s' = true ->
     exists h, hash_bytes b = Some h /\ settled h tr = true) ->
  (s' = Released -> s = Released \/ gone b tr) ->
  (slashlike s' = true -> s' <> Slashed \/ parent_bond_id b <> None -> slash_recorded b') ->
  (payout_invoice b' <> None -> slashlike s' = true) ->
  (s' = Slashed -> forall pr, payout_invoice b' = Some pr -> exists n,
     node_share_sats b' = Some n /\
     (amount_sats b - n <= 0 \/ exists h, pays pr h = true /\ paid h tr = true)) ->
  row_ok tr b'.
Proof.
  intros Hok Hs Hs' Hf Hsh Hmono Hseize Hrel Hmeta Hinv Hpaid. pose proof Hf as Hf'. fixed Hf'.
  assert (Hst : forall t, has_state b' t -> t = s') by (intros t Ht; by eapply has_state_fun).
  constructor.
  - eauto.
  - destruct Hok. congruence.
  - done.
  - by eapply linked_fixed, Hok.
  - intros Hp. destruct (ro_child _ _ Hok) as (Hn & t & Ht & Hl); [congruence|].
    split; [congruence|]. exists s'. split; [done|]. apply Hmono.
    by rewrite (has_state_fun b s t).
  - intros t Ht Hl Hp. rewrite (Hst t Ht) in Hl. rewrite (hash_bytes_fixed b) by done.
    destruct (slashlike s) eqn:E; [|by apply Hseize].
    apply (ro_seized _ _ Hok s); [done..|congruence].
  - intros Ht. rewrite (hash_bytes_fixed b) by done.
    destruct (Hrel (eq_sym (Hst _ Ht))) as [->|[Hg|Hg]].
    + destruct (ro_released _ _ Hok Hs); [left; congruence|by right].
    + left. congruence.
    + by right.
  - intros t Ht Hl Hn. rewrite (Hst t Ht) in Hl, Hn. apply Hmeta; [done|].
    destruct Hn; [by left|right; congruence].
  - intros Hp. exists s'. auto.
  - intros pr Ht Hp. destruct (Hpaid (eq_sym (Hst _ Ht)) pr Hp) as (n & Hn & Hd).
    exists n. split; [done|]. destruct Hd; [left; by replace (amount_sats b') with (amount_sats b)|by right].
Qed.

Lemma row_step_move b b' s s' :
  has_state b s -> has_state b' s' -> fixed_columns b' = fixed_columns b -> may s s' = true ->
  (slashlike s = true ->
     node_share_sats b' = node_share_sats b /\ slashed_reason b' = slashed_reason b) ->
  row_step b b'.
Proof.
  intros Hs Hs' Hf Hm Hk. constructor; [done|eauto|].
  intros t Ht Hl. apply Hk. by rewrite (has_state_fun b s t).
Qed.

(** A row change that touches only bookkeeping columns. *)
Definition inert (b b' : Bond) : Prop :=
  fixed_columns b' = fixed_columns b /\ state b' = state b /\
  payout_invoice b' = payout_invoice b /\ node_share_sats b' = node_share_sats b /\
  slashed_reason b' = slashed_reason b /\
  (slashed_at b' = slashed_at b \/ slashed_at b' <> None) /\ 0 <= slashed_share_sats b'.

Lemma inert_change tr b b' :
  row_ok tr b -> inert b b' ->
  row_change tr b b' /\ (has_state b' Locked -> has_state b Locked) /\ quiet_row b b'.
Proof.
  intros Hok (Hf & Est & Epi & Ens & Esr & Esa & Hsh).
  destruct (ro_state _ _ Hok) as [s Hs].
  assert (Hs' : has_state b' s) by (unfold has_state in *; congruence).
  assert (Hany : forall t, has_state b' t <-> has_state b t)
    by (intros t; unfold has_state; by rewrite Est).
  pose proof Hf as Hf'. fixed Hf'.
  split_and!.
  - constructor.
    + eapply row_step_move; eauto using may_refl.
    + eapply (row_ok_move tr b b' s s); eauto.
      * congruence.
      * intros Hl Hn. destruct (ro_meta _ _ Hok s Hs Hl Hn) as (t & r & n & M1 & M2 & M3 & M4).
        assert (exists t', slashed_at b' = Some t') as [t' Ht'].
        { destruct Esa as [->|Hne]; [eauto|]. destruct (slashed_at b') eqn:E; [eauto|done]. }
        exists t', r, n. split_and!; congruence || lia.
      * rewrite Epi. intros Hp. destruct (ro_invoice _ _ Hok Hp) as (t & Ht & Hl).
        by rewrite (has_state_fun b s t).
      * intros -> pr Hp. rewrite Ens. apply (ro_paid _ _ Hok pr Hs). congruence.
    + intros pr h Hp Hph Hst. left. rewrite !Hany. split; [congruence|done].
  - apply Hany.
  - intros pr Ht Hp. rewrite Hany. split; [done|congruence].
Qed.

Lemma update_inert tr db p f :
  bonds_ok tr db ->
  (forall b, In b (bonds db) -> p b = true -> inert b (f b)) ->
  db_step_quiet tr db (update_bonds p f db).1.
Proof.
  intros Hdb Hf. split; [split|].
  - apply update_ok; [done|]. intros b Hb Hp.
    edestruct (inert_change tr b (f b)) as (? & ? & ?); [by apply Hdb|auto|done].
  - apply (update_ok tr); [done|]. intros b Hb Hp.
    edestruct (inert_change tr b (f b)) as (? & ? & ?); [by apply Hdb|auto|done].
  - apply update_quiet. intros b Hb Hp. pose proof (Hf b Hb Hp) as Hi.
    edestruct (inert_change tr b (f b)) as (? & ? & ?); [by apply Hdb|done|].
    destruct Hi as [Hfx _]. by fixed Hfx.
Qed.
End Statements.

Section HandlerStatements.
Context `{Lib}.

(** Statements that leave the [bonds] table alone. *)
Lemma same_bonds_step tr db db' :
  bonds_ok tr db -> bonds db' = bonds db -> db_step_quiet tr db db'.
Proof.
  intros Hdb E. destruct db as [os bs], db' as [os' bs']. simpl in *. subst bs'.
  split; [split|].
  - destruct Hdb. by constructor.
  - intros b Hb. exists b. split; [done|]. by eapply row_step_refl, Hdb.
  - intros b pr Hb Hs Hp. exists b. auto.
Qed.

(** A change of the rows matching [p], each a quiet row change. *)
Lemma update_step tr db p f :
  bonds_ok tr db ->
  (forall b, In b (bonds db) -> p b = true ->
     row_change tr b (f b) /\ (has_state (f b) Locked -> has_state b Locked)) ->
  (forall b, In b (bonds db) -> p b = true -> quiet_row b (f b)) ->
  db_step_quiet tr db (update_bonds p f db).1.
Proof.
  intros Hdb Hf Hq. split; [by apply update_ok|]. apply update_quiet.
  intros b Hb Hp. split; [|by apply Hq].
  destruct (Hf b Hb Hp) as [Hc _]. by eapply row_step_id, Hc.
Qed.

Lemma release_stmt_ok tr db b0 now :
  bonds_ok tr db -> lawful tr -> snap b0 tr db -> parent_bond_id b0 = None -> gone b0 tr ->
  db_step_quiet tr db
    (bond_update (b0 <| state := state_to_string Released |> <| released_at := Some now |>) db).1.
Proof.
  intros Hdb Hlaw Hsnap Hpar Hgone.
  set (u := b0 <| state := state_to_string Released |> <| released_at := Some now |>).
  pose (b1 := fun r : Bond => u <| created_at := created_at r |>).
  change ((bond_update u db).1)
    with (update_bonds (fun r => N.eqb (id r) (id b0)) b1 db).1.
  assert (Hb1 : forall r, has_state (b1 r) Released) by done.
  assert (Hrow : forall b, In b (bonds db) -> N.eqb (id b) (id b0) = true ->
            fixed_columns (b1 b) = fixed_columns b /\ parent_bond_id b = None /\ gone b tr).
  { intros b Hb E%N.eqb_eq. destruct (snap_row b0 tr db b Hdb Hsnap Hb E) as [Hf _].
    unfold gone. rewrite (hash_bytes_fixed b0 b Hf). pose proof Hf as Hf'. fixed Hf'. split_and!.
    - unfold b1, fixed_columns. simpl. by columns.
    - congruence.
    - destruct Hgone; [left; congruence|by right]. }
  assert (Hbefore : forall b, In b (bonds db) -> N.eqb (id b) (id b0) = true ->
            exists s, has_state b s /\ slashlike s = false).
  { intros b Hb E. destruct (Hrow b Hb E) as (Hf & Hp & Hg).
    destruct (ro_state tr b) as [s Hs]; [by apply Hdb|]. exists s. split; [done|].
    eapply gone_not_seized; eauto. by apply Hdb. }
  apply update_step; [done| |].
  - intros b Hb E. destruct (Hrow b Hb E) as (Hf & Hp & Hg).
    destruct (Hbefore b Hb E) as (s & Hs & Hn). split; [|].
    2:{ intros Hl. by pose proof (has_state_fun _ _ _ (Hb1 b) Hl). }
    constructor.
    + eapply (row_step_move _ _ s Released); [done|done|done| |congruence]. by destruct s.
    + eapply (row_ok_move tr b _ s Released); [by apply Hdb|done|done|done|..].
      * apply Hsnap.
      * congruence.
      * done.
      * by right.
      * done.
      * intros Hpi. destruct (ro_invoice tr b0) as (t & Ht & Hl); [apply Hsnap|done|].
        rewrite <- Hl. symmetry. eapply gone_not_seized; [done|apply Hsnap|done|done|done].
      * done.
    + intros pr h _ _ [Ht|Ht]; pose proof (has_state_fun _ _ _ Hs Ht); by subst s.
  - intros b Hb E pr Ht Hpi. destruct (Hbefore b Hb E) as (s & Hs & Hn).
    pose proof (has_state_fun _ _ _ Hs Ht). by subst s.
Qed.

Lemma slash_cas_ok tr db b0 reason now ns h :
  bonds_ok tr db -> snap b0 tr db -> hash_bytes b0 = Some h -> settled h tr = true ->
  0 <= ns <= amount_sats b0 ->
  db_step_quiet tr db (slash_cas_stmt (id b0) reason now ns db).1.
Proof.
  intros Hdb Hsnap Hh Hset Hns. apply update_step; [done| |].
  - intros b Hb [E%N.eqb_eq Hs%has_state_is]%andb_true_iff.
    destruct (snap_row b0 tr db b Hdb Hsnap Hb E) as [Hf _].
    assert (Hok : row_ok tr b) by by apply Hdb. split; [|done]. constructor.
    + by eapply (row_step_move _ _ Locked PendingPayout).
    + eapply (row_ok_move tr b _ Locked PendingPayout); try done.
      * apply Hok.
      * intros _ _. rewrite <- (hash_bytes_fixed b0 b) in Hh by done. eauto.
      * intros _ _. exists now, reason, ns. fixed Hf. simpl. split_and!; [done..|lia|lia].
    + intros pr h' _ _ [Ht|Ht]; by pose proof (has_state_fun _ _ _ Hs Ht).
  - intros b Hb [E%N.eqb_eq Hs%has_state_is]%andb_true_iff pr Ht.
    by pose proof (has_state_fun _ _ _ Hs Ht).
Qed.

Lemma unique_violation_false b db :
  bond_unique_violation b db = false ->
  (forall r, In r (bonds db) -> id r <> id b) /\
  (forall r, In r (bonds db) -> same_slice r b = false).
Proof.
  intros Hu. unfold bond_unique_violation, exists_row in Hu.
  split; intros r Hr; (destruct (N.eqb (id r) (id b) || same_slice r b) eqn:E;
    [exfalso; rewrite <- not_true_iff_false in Hu; apply Hu, existsb_exists; eauto|]);
    apply orb_false_iff in E as [E1 E2]; [by apply N.eqb_neq|done].
Qed.

Lemma slash_row_ok tr uuid order parent child pk amount reason ns now :
  0 <= amount <= i64_max -> 0 <= ns <= amount ->
  row_ok tr (slash_row uuid order parent child pk amount (reason_to_string reason) ns now).
Proof.
  intros Ha Hns. set (b := slash_row _ _ _ _ _ _ _ _ _).
  assert (Hs : has_state b PendingPayout) by done.
  constructor.
  - eauto.
  - done.
  - done.
  - done.
  - intros _. split; [done|]. eauto.
  - by intros s _ _ Hp.
  - intros Ht. by pose proof (has_state_fun _ _ _ Hs Ht).
  - intros s _ _ _. by exists now, reason, ns.
  - by intros Hp.
  - by intros pr _ Hp.
Qed.

Lemma slice_insert_ok tr db uuid order parent slice pk amount reason ns now :
  bonds_ok tr db -> 0 <= amount <= i64_max -> 0 <= ns <= amount ->
  db_step_quiet tr db
    (slice_insert_stmt (slash_row uuid order parent (Some slice) pk amount
       (reason_to_string reason) ns now) parent slice db).1.
Proof.
  intros Hdb Ha Hns. unfold slice_insert_stmt.
  destruct (_ && _); [|by apply same_bonds_step].
  destruct (bond_unique_violation _ db) eqn:Hu; simpl; [by apply same_bonds_step|].
  apply unique_violation_false in Hu as [Hid Hsl].
  destruct (insert_ok tr db (slash_row uuid order parent (Some slice) pk amount
    (reason_to_string reason) ns now)) as (? & ? & ?); [done| |by split].
  constructor; [by apply slash_row_ok|done|done|done].
Qed.

Lemma slice_total_nonneg tr db parent : bonds_ok tr db -> 0 <= slice_total parent db.
Proof.
  intros Hdb. apply sumZ_nonneg, Forall_forall. intros z Hz%list_elem_of_In.
  apply in_map_iff in Hz as (b & <- & [Hb _]%filter_In).
  apply (ro_amount tr b). by apply Hdb.
Qed.

Lemma share_total_ok tr db parent :
  bonds_ok tr db -> db_step_quiet tr db (share_total_stmt parent db).1.
Proof.
  intros Hdb. apply update_inert; [done|]. intros b Hb _.
  repeat split; [by left|]. by eapply slice_total_nonneg.
Qed.
End HandlerStatements.

Section MoreStatements.
Context `{Lib}.

(** [Locked -> Slashed] of the parent at close. *)
Lemma close_parent_change tr b h :
  row_ok tr b -> has_state b Locked -> hash_bytes b = Some h -> settled h tr = true ->
  row_change tr b (b <| state := state_to_string Slashed |>).
Proof.
  intros Hok Hs Hh Hset.
  assert (Hnone : payout_invoice b = None).
  { destruct (payout_invoice b) eqn:E; [|done].
    destruct (ro_invoice _ _ Hok) as (t & Ht & Hl); [congruence|].
    pose proof (has_state_fun _ _ _ Hs Ht). by subst t. }
  assert (Hroot : parent_bond_id b = None).
  { destruct (parent_bond_id b) eqn:E; [|done].
    destruct (ro_child _ _ Hok) as (_ & t & Ht & Hl); [by rewrite E|].
    pose proof (has_state_fun _ _ _ Hs Ht). by subst t. }
  constructor.
  - by eapply (row_step_move _ _ Locked Slashed).
  - eapply (row_ok_move tr b _ Locked Slashed); try done.
    + apply Hok.
    + eauto.
    + intros _ [?|?]; done.
    + simpl. intros _ pr. by rewrite Hnone.
  - intros pr h' Hp. congruence.
Qed.

(** The two updates of the close transaction on one row. *)
Definition close_row (i : Uuid) (seen : bool) (now : Z) (b : Bond) : Bond :=
  let b1 := upd (with_id_state i Locked) (fun b => b <| state := state_to_string Slashed |>) b in
  if seen
  then upd (fun b => slice_child_of i b && state_is PendingPayout b)
         (fun b => b <| slashed_at := Some now |>) b1
  else b1.

Lemma close_row_change tr db b0 seen now h b :
  bonds_ok tr db -> snap b0 tr db -> hash_bytes b0 = Some h -> settled h tr = true ->
  In b (bonds db) ->
  row_change tr b (close_row (id b0) seen now b) /\
  (has_state (close_row (id b0) seen now b) Locked -> has_state b Locked) /\
  quiet_row b (close_row (id b0) seen now b).
Proof.
  intros Hdb Hsnap Hh Hset Hb. unfold close_row, upd.
  assert (Hok : row_ok tr b) by by apply Hdb.
  destruct (with_id_state (id b0) Locked b) eqn:E1.
  - apply andb_true_iff in E1 as [E1%N.eqb_eq Hs%has_state_is].
    destruct (snap_row b0 tr db b Hdb Hsnap Hb E1) as [Hf _].
    assert (Hc : row_change tr b (b <| state := state_to_string Slashed |>)).
    { apply (close_parent_change tr b h); [done|done| |done]. by rewrite (hash_bytes_fixed b0). }
    destruct seen; simpl; rewrite ?andb_false_r; (split_and!; [done|done|]);
      intros pr Ht; by pose proof (has_state_fun _ _ _ Hs Ht).
  - destruct (seen && (slice_child_of (id b0) b && state_is PendingPayout b)) eqn:E2.
    + apply andb_true_iff in E2 as [-> ->]. apply inert_change; [done|].
      repeat split; [by right|]. apply Hok.
    + replace (if seen then _ else b) with b
        by (destruct seen; [by rewrite andb_true_l in E2; rewrite E2|done]).
      split_and!; [by apply row_change_refl|done|by intros pr].
Qed.

Lemma close_step tr db db' b0 seen now h new :
  bonds_ok tr db -> snap b0 tr db -> hash_bytes b0 = Some h -> settled h tr = true ->
  bonds db' = (map (close_row (id b0) seen now) (bonds db) ++ new)%list ->
  (new = [] \/ exists n, new = [n] /\ row_fresh tr (bonds db) n) ->
  db_step_quiet tr db db'.
Proof.
  intros Hdb Hsnap Hh Hset E Hnew. set (g := close_row (id b0) seen now) in *.
  assert (Hg := fun b => close_row_change tr db b0 seen now h b Hdb Hsnap Hh Hset). fold g in Hg.
  assert (Hfx : forall b, In b (bonds db) -> fixed_columns (g b) = fixed_columns b)
    by (intros b Hb; apply (Hg b Hb)).
  split.
  - apply (change_ok tr db db' g new); [done|done| | |done].
    + intros b Hb. apply (Hg b Hb).
    + intros b1 b2 Hb1 Hb2 Ho [Hs1 Hr1] [Hs2 Hr2]. apply (bo_locked _ _ Hdb); try done.
      * by apply (Hg b1 Hb1).
      * by apply (Hg b2 Hb2).
      * pose proof (Hfx b1 Hb1) as F. fixed F. unfold role_is in *. congruence.
      * pose proof (Hfx b2 Hb2) as F. fixed F. unfold role_is in *. congruence.
  - apply (change_quiet db db' g new); [done|]. intros b Hb.
    split; [|by apply Hg]. pose proof (Hfx b Hb) as F. by fixed F.
Qed.

Lemma close_tx_ok tr db b0 root seen reason uuid now h :
  bonds_ok tr db -> snap b0 tr db -> hash_bytes b0 = Some h -> settled h tr = true ->
  db_step_quiet tr db (close_tx b0 root seen (reason_to_string reason) uuid now db).1.
Proof.
  intros Hdb Hsnap Hh Hset. unfold close_tx.
  set (u1 := update_bonds _ _ db). rewrite (surjective_pairing u1).
  destruct (negb (u1.2 =? 1)); [by apply same_bonds_step|].
  assert (Hstep := fun db' new => close_step tr db db' b0 seen now h new Hdb Hsnap Hh Hset).
  set (total := slice_total (id b0) u1.1).
  assert (0 <= total).
  { eapply slice_total_nonneg, (close_step tr db u1.1 b0 false now h []); try done; [|by left].
    by rewrite app_nil_r. }
  set (db2 := if seen then _ else _).
  assert (Eg : bonds db2 = map (close_row (id b0) seen now) (bonds db)).
  { unfold db2, u1, close_row. destruct seen; simpl; [|done].
    unfold update_where. by rewrite map_map. }
  destruct (0 <? _) eqn:Epos; bool_prop;
    [|apply (Hstep _ []); [by rewrite app_nil_r|by left]].
  destruct (bond_unique_violation _ db2) eqn:Hu; [by apply same_bonds_step|].
  apply unique_violation_false in Hu as [Hid Hsl].
  set (n := slash_row _ _ _ _ _ _ _ _ _) in *.
  apply (Hstep _ [n]); [simpl; by rewrite Eg|]. right. exists n. split; [done|].
  constructor.
  - apply slash_row_ok; [|lia]. destruct Hsnap as [Hok _]. pose proof (ro_amount _ _ Hok). lia.
  - done.
  - intros b Hb. destruct (close_row_change tr db b0 seen now h b) as (Hc & _); [done..|].
    rewrite <- (row_step_id _ _ (rc_step _ _ _ Hc)). apply Hid. rewrite Eg. by apply in_map.
  - intros b Hb. unfold same_slice. simpl. by repeat case_match.
Qed.

(** [Requested -> Locked]. *)
Lemma lock_change tr b now :
  row_ok tr b -> has_state b Requested ->
  row_change tr b (b <| state := state_to_string Locked |> <| locked_at := Some now |>).
Proof.
  intros Hok Hs. constructor.
  - by eapply (row_step_move _ _ Requested Locked).
  - eapply (row_ok_move tr b _ Requested Locked); try done; [apply Hok|].
    simpl. intros Hpi. destruct (ro_invoice _ _ Hok Hpi) as (t & Ht & Hl).
    pose proof (has_state_fun _ _ _ Hs Ht). by subst t.
  - intros pr h _ _ [Ht|Ht]; by pose proof (has_state_fun _ _ _ Hs Ht).
Qed.

Lemma lock_taker_ok tr db b0 now :
  bonds_ok tr db -> snap b0 tr db ->
  db_step_quiet tr db (lock_taker_stmt (id b0) (order_id b0) now db).1.
Proof.
  intros Hdb Hsnap. unfold lock_taker_stmt.
  set (other := exists_row _ _).
  set (p := fun b => with_id_state (id b0) Requested b && negb other).
  set (f := fun b : Bond => b <| state := state_to_string Locked |> <| locked_at := Some now |>).
  assert (Hrow : forall b, In b (bonds db) -> p b = true ->
            has_state b Requested /\ fixed_columns b = fixed_columns b0 /\ other = false).
  { intros b Hb Hp. unfold p in Hp. bool_prop.
    match goal with E : with_id_state _ _ _ = true |- _ =>
      apply andb_true_iff in E as [E%N.eqb_eq Hs%has_state_is] end.
    split_and!; [done| |done]. by eapply (snap_row b0 tr db b). }
  assert (Hc : forall b, In b (bonds db) -> p b = true -> row_change tr b (f b)).
  { intros b Hb Hp. apply lock_change; [by apply Hdb|by apply Hrow]. }
  assert (Hself : forall b, In b (bonds db) -> p b = true ->
    forall c, In c (bonds db) -> order_id c = order_id b -> has_state c Locked ->
              role_is Taker c = true -> id c = id b).
  { intros b Hb Hp c Hcin Ho Hsc Hrc. destruct (Hrow b Hb Hp) as (Hs & Hf & Hoth).
    fixed Hf. destruct (N.eqb (id c) (id b0)) eqn:E; [apply N.eqb_eq in E; congruence|].
    exfalso. unfold other, exists_row in Hoth. rewrite <- not_true_iff_false in Hoth.
    apply Hoth, existsb_exists. exists c. split; [done|].
    apply has_state_is in Hsc. rewrite Hsc, Hrc, E.
    replace (order_id c) with (order_id b0) by congruence. by rewrite N.eqb_refl. }
  split.
  - apply (change_ok tr db _ (upd p f) []); [done|by rewrite app_nil_r| | |by left].
    + intros b Hb. unfold upd. destruct (p b) eqn:Ep; [by apply Hc|].
      by apply row_change_refl, Hdb.
    + intros b1 b2 Hb1 Hb2 Ho [Hs1 Hr1] [Hs2 Hr2]. unfold upd in *.
      destruct (p b1) eqn:E1, (p b2) eqn:E2.
      * destruct (Hrow b1 Hb1 E1) as (_ & F1 & _), (Hrow b2 Hb2 E2) as (_ & F2 & _).
        fixed F1. fixed F2. congruence.
      * symmetry. by apply (Hself b1).
      * by apply (Hself b2).
      * by apply (bo_locked _ _ Hdb).
  - apply update_quiet. intros b Hb Hp. split; [done|].
    destruct (Hrow b Hb Hp) as (Hs & _ & _). intros pr Ht.
    by pose proof (has_state_fun _ _ _ Hs Ht).
Qed.

Lemma lock_maker_ok tr db b0 now :
  bonds_ok tr db -> snap b0 tr db -> role_is Taker b0 = false ->
  db_step_quiet tr db (lock_maker_stmt (id b0) now db).1.
Proof.
  intros Hdb Hsnap Hrole.
  set (f := fun b : Bond => b <| state := state_to_string Locked |> <| locked_at := Some now |>).
  set (p := with_id_state (id b0) Requested).
  assert (Hrow : forall b, In b (bonds db) -> p b = true ->
            has_state b Requested /\ role_is Taker b = false).
  { intros b Hb [E%N.eqb_eq Hs%has_state_is]%andb_true_iff. split; [done|].
    destruct (snap_row b0 tr db b Hdb Hsnap Hb E) as [Hf _]. fixed Hf.
    unfold role_is in *. congruence. }
  assert (Hc : forall b, In b (bonds db) -> p b = true -> row_change tr b (f b)).
  { intros b Hb Hp. apply lock_change; [by apply Hdb|by apply Hrow]. }
  split.
  - apply (change_ok tr db _ (upd p f) []); [done|by rewrite app_nil_r| | |by left].
    + intros b Hb. unfold upd. destruct (p b) eqn:Ep; [by apply Hc|].
      by apply row_change_refl, Hdb.
    + intros b1 b2 Hb1 Hb2 Ho [Hs1 Hr1] [Hs2 Hr2]. unfold upd in *.
      destruct (p b1) eqn:E1, (p b2) eqn:E2.
      * destruct (Hrow b1 Hb1 E1) as [_ R1]. unfold role_is in *. simpl in *. congruence.
      * destruct (Hrow b1 Hb1 E1) as [_ R1]. unfold role_is in *. simpl in *. congruence.
      * destruct (Hrow b2 Hb2 E2) as [_ R2]. unfold role_is in *. simpl in *. congruence.
      * by apply (bo_locked _ _ Hdb).
  - apply update_quiet. intros b Hb Hp. split; [done|].
    destruct (Hrow b Hb Hp) as [Hs _]. intros pr Ht.
    by pose proof (has_state_fun _ _ _ Hs Ht).
Qed.
End MoreStatements.

Section PayoutStatements.
Context `{Lib}.

(** A new [Requested] row with its hold invoice. *)
Lemma create_ok tr db b :
  bonds_ok tr db -> has_state b Requested -> 0 <= amount_sats b <= i64_max ->
  slashed_share_sats b = 0 -> linked b -> parent_bond_id b = None -> payout_invoice b = None ->
  db_step_quiet tr db (bond_create b db).1.
Proof.
  intros Hdb Hs Ha Hsh Hl Hp Hpi. unfold bond_create.
  destruct (bond_unique_violation b db) eqn:Hu; [by apply same_bonds_step|].
  apply unique_violation_false in Hu as [Hid Hsl].
  destruct (insert_ok tr db b) as (? & ? & ?); [done| |by split].
  assert (Hst : forall s, has_state b s -> s = Requested) by (intros s Ht; by eapply has_state_fun).
  constructor; [|intros Ht; by pose proof (Hst _ Ht)|done|done].
  constructor; try done.
  - eauto.
  - lia.
  - by rewrite Hp.
  - intros s Ht. by rewrite (Hst s Ht).
  - intros Ht. by pose proof (Hst _ Ht).
  - intros s Ht. by rewrite (Hst s Ht).
  - intros pr Ht. by pose proof (Hst _ Ht).
Qed.

Lemma persist_invoice_ok tr db i invoice :
  bonds_ok tr db -> db_step_quiet tr db (persist_invoice_stmt i invoice db).1.
Proof.
  intros Hdb. apply update_step; [done| |].
  - intros b Hb [[_ Hs%has_state_is]%andb_true_iff Hn]%andb_true_iff.
    assert (Hok : row_ok tr b) by by apply Hdb.
    assert (Hnone : payout_invoice b = None) by (by destruct (payout_invoice b)).
    split; [|intros Hl; by pose proof (has_state_fun _ _ _ Hs Hl)]. constructor.
    + by eapply (row_step_move _ _ PendingPayout PendingPayout).
    + eapply (row_ok_move tr b _ PendingPayout PendingPayout); try done; [apply Hok|].
      intros _ _. exact (ro_meta _ _ Hok PendingPayout Hs eq_refl ltac:(by left)).
    + intros pr h Hp. congruence.
  - intros b Hb [_ Hn]%andb_true_iff pr _ Hp. by rewrite Hp in Hn.
Qed.

Lemma resurrect_ok tr db i invoice :
  bonds_ok tr db -> db_step_quiet tr db (resurrect_stmt i invoice db).1.
Proof.
  intros Hdb. apply update_step; [done| |].
  - intros b Hb [_ Hs%has_state_is]%andb_true_iff.
    assert (Hok : row_ok tr b) by by apply Hdb.
    split; [|done]. constructor.
    + by eapply (row_step_move _ _ Failed PendingPayout).
    + eapply (row_ok_move tr b _ Failed PendingPayout); try done; [apply Hok|].
      intros _ _. exact (ro_meta _ _ Hok Failed Hs eq_refl ltac:(by left)).
    + intros pr h _ _ [Ht|Ht]; by pose proof (has_state_fun _ _ _ Hs Ht).
  - intros b Hb [_ Hs%has_state_is]%andb_true_iff pr Ht.
    by pose proof (has_state_fun _ _ _ Hs Ht).
Qed.

(** ** The scheduler's statements *)

(** Only the row [i] may differ. *)
Definition touches (i : Uuid) (db db' : DB) : Prop :=
  forall b, In b (bonds db) -> id b <> i -> In b (bonds db').

Lemma update_touches i p f db :
  (forall b, p b = true -> id b = i) -> touches i db (update_bonds p f db).1.
Proof.
  intros Hp b Hb Hi. simpl. apply in_update_where. exists b. split; [done|].
  destruct (p b) eqn:E; [by apply Hp in E|done].
Qed.

Lemma with_id_state_id i s b : with_id_state i s b = true -> id b = i.
Proof. by intros [E%N.eqb_eq _]%andb_true_iff. Qed.

(** A pending row leaves to [s'], keeping its columns. *)
Lemma leave_pending_ok tr db p s' :
  bonds_ok tr db -> may PendingPayout s' = true ->
  (forall b, In b (bonds db) -> p b = true -> has_state b PendingPayout) ->
  (s' = Slashed -> forall b pr, In b (bonds db) -> p b = true -> payout_invoice b = Some pr ->
     exists n, node_share_sats b = Some n /\
       (amount_sats b - n <= 0 \/ exists h, pays pr h = true /\ paid h tr = true)) ->
  (s' <> Slashed -> forall b pr h, In b (bonds db) -> p b = true -> payout_invoice b = Some pr ->
     pays pr h = true -> s' = PendingPayout \/ failed_since h tr = true) ->
  db_step tr db (update_bonds p (fun b => b <| state := state_to_string s' |>) db).1.
Proof.
  intros Hdb Hm Hp Hpaid Hlost. apply update_ok; [done|]. intros b Hb Hpb.
  assert (Hs := Hp b Hb Hpb). assert (Hok : row_ok tr b) by by apply Hdb.
  assert (Hs' : has_state (b <| state := state_to_string s' |>) s') by done.
  split; [|intros Hl; rewrite <- (has_state_fun _ _ _ Hs' Hl) in *; by destruct s']. constructor.
  - by eapply (row_step_move _ _ PendingPayout s').
  - eapply (row_ok_move tr b _ PendingPayout s'); [done|done|done|done|..].
    + apply Hok.
    + intros _. by destruct s'.
    + done.
    + by intros ->.
    + intros _ Hn. exact (ro_meta _ _ Hok PendingPayout Hs eq_refl ltac:(by left)).
    + intros _. by destruct s'.
    + intros -> pr Hpi. by apply (Hpaid eq_refl b pr Hb Hpb).
  - intros pr h Hpi Hph _. destruct (decide (s' = Slashed)) as [->|Hne].
    + left. split; [done|by right].
    + destruct (Hlost Hne b pr h Hb Hpb Hpi Hph) as [->|]; [|by right].
      left. split; [done|by left].
Qed.

Lemma forfeit_ok tr db i :
  bonds_ok tr db -> db_step tr db (forfeit_stmt i db).1.
Proof.
  intros Hdb. apply leave_pending_ok; [done|done| |done|].
  - intros b Hb [[_ Hs%has_state_is]%andb_true_iff _]%andb_true_iff. done.
  - intros _ b pr h Hb [_ Hn]%andb_true_iff Hpi. by rewrite Hpi in Hn.
Qed.

Lemma finalize_ok tr db i :
  bonds_ok tr db ->
  (forall b pr, In b (bonds db) -> id b = i -> has_state b PendingPayout ->
     payout_invoice b = Some pr ->
     exists n, node_share_sats b = Some n /\
       (amount_sats b - n <= 0 \/ exists h, pays pr h = true /\ paid h tr = true)) ->
  db_step tr db (finalize_stmt i db).1.
Proof.
  intros Hdb Hpaid. apply leave_pending_ok; [done|done| | |done].
  - by intros b Hb [_ Hs%has_state_is]%andb_true_iff.
  - intros _ b pr Hb [E%N.eqb_eq Hs%has_state_is]%andb_true_iff. by apply Hpaid.
Qed.

(** The invoice of row [i] may be dropped. *)
Definition droppable (i : Uuid) (tr : list obs') (db : DB) : Prop :=
  forall b pr h, In b (bonds db) -> id b = i -> has_state b PendingPayout ->
    payout_invoice b = Some pr -> pays pr h = true -> failed_since h tr = true.

Lemma fail_ok tr db i :
  bonds_ok tr db -> droppable i tr db -> db_step tr db (fail_stmt i db).1.
Proof.
  intros Hdb Hd. apply leave_pending_ok; [done|done| |done|].
  - by intros b Hb [_ Hs%has_state_is]%andb_true_iff.
  - intros _ b pr h Hb [E%N.eqb_eq Hs%has_state_is]%andb_true_iff Hpi Hph. right.
    by eapply Hd.
Qed.

Lemma rearm_ok tr db i :
  bonds_ok tr db -> droppable i tr db -> db_step tr db (rearm_stmt i db).1.
Proof.
  intros Hdb Hd. apply update_ok; [done|].
  intros b Hb [E%N.eqb_eq Hs%has_state_is]%andb_true_iff.
  assert (Hok : row_ok tr b) by by apply Hdb.
  split; [|intros Hl; by pose proof (has_state_fun _ _ _ Hs Hl)]. constructor.
  - by eapply (row_step_move _ _ PendingPayout PendingPayout).
  - eapply (row_ok_move tr b _ PendingPayout PendingPayout); try done; [apply Hok|].
    intros _ _. exact (ro_meta _ _ Hok PendingPayout Hs eq_refl ltac:(by left)).
  - intros pr h Hp Hph _. right. by eapply Hd.
Qed.
End PayoutStatements.
