(* ===== verification/Triples.v ===== *)
(** * Specifications of the bond tasks

    The agreement of [BondInv] as [Effects] specifications, and Hoare triples
    over it.  What a handler learns is stable, so a triple keeps everything
    its caller knew: preconditions only ever grow. *)

From S2P Require Import Prelude Float64 Config BondTypes BondMath Effects Model.
From S2P Require Import Lightning BondDb BondRelease BondSlash OrderDb BondLock BondPayout BondInv.

Open Scope Z_scope.

Abbreviation assertion := (list obs' -> DB -> Prop).

Create HintDb stab.

Section Specs.
Context `{Lib}.

Definition bond_handler : Spec DB ext := handler_spec lawful bonds_ok G_handler G_sched.
Definition bond_sched : Spec DB ext := sched_spec lawful bonds_ok G_handler G_sched.

(** The scheduler while it works on row [i]. *)
Definition bond_sched_at (i : Uuid) : Spec DB ext :=
  restrict bond_sched (fun _ db _ db' => touches i db db').

(** What the reads and the harmless requests need of a specification. *)
Class Friendly (S : Spec DB ext) : Prop := {
  fr_law : law S = lawful;
  fr_inv : inv S = bonds_ok;
  fr_rely : forall tr db o db', G_handler tr db o db' -> rely S tr db o db';
  fr_rely_sched : forall tr db o db', rely S tr db o db' -> G_sched tr db o db';
  fr_soft : forall tr db o, G_handler tr db o db -> guar S tr db o db
}.

#[export] Instance friendly_handler : Friendly bond_handler.
Proof.
  split; try done.
  - intros. by left.
  - intros tr db o db' [[]|]; done.
Qed.

#[export] Instance friendly_sched i : Friendly (bond_sched_at i).
Proof.
  split; try done.
  - intros tr db o db' []; done.
  - intros tr db o []. split; [done|]. by intros b.
Qed.

Section Friendly.
Context (S : Spec DB ext) {HS : Friendly S}.

Lemma soft_step tr db o :
  inv S tr db -> law S (o :: tr) -> is_send o = false ->
  guar S tr db o db /\ rely S tr db o db.
Proof.
  rewrite fr_inv, fr_law. intros Hv Hl Hs.
  assert (G_handler tr db o db) as Hg.
  { split_and!; [split; [by apply bonds_ok_cons|by eapply rows_step_refl]|apply quiet_refl|done]. }
  split; [by apply fr_soft|by apply fr_rely].
Qed.

(** ** Stability *)

Lemma stable_snap b : stable S (snap b).
Proof.
  intros tr db o db' Hv Hl Hr (Hok & c & Hc & Hf & Hk).
  apply fr_rely_sched in Hr as [_ Hr]. split; [by apply row_ok_cons|].
  destruct (Hr c Hc) as (c' & Hc' & [Hf' (s & s' & Hs & Hs' & Hm) Hn]).
  exists c'. split_and!; [done|congruence|]. intros t Ht Hl'.
  destruct (Hk t Ht Hl') as [(u & Hu & Hlu) En].
  pose proof (has_state_fun _ _ _ Hs Hu). subst u. split.
  - exists s'. split; [done|]. by eapply may_slashlike.
  - rewrite <- En. by apply (Hn s).
Qed.

Lemma stable_seen f : stable S (fun tr _ => seen f tr = true).
Proof. intros tr db o db' _ _ _ Hs. by apply seen_cons. Qed.

Lemma stable_gone b : stable S (fun tr _ => gone b tr).
Proof.
  intros tr db o db' _ _ _ [Hg|(h & Hh & Hc)]; [by left|]. right. exists h.
  split; [done|]. by apply seen_cons.
Qed.
End Friendly.
End Specs.

Section Triples.
Context `{Lib} (S : Spec DB ext).

Definition triple {A} (Pre : assertion) (p : M A) (Post : A -> assertion) : Prop :=
  forall K, stable S K -> (forall tr db, inv S tr db -> K tr db -> Pre tr db) ->
    wp S K p (fun r tr db => K tr db /\ Post r tr db).

Definition top {A} : A -> assertion := fun _ _ _ => True.
Definition okP {A E} (Post : A -> assertion) : result A E -> assertion :=
  fun r tr db => match r with Ok v => Post v tr db | Err _ => True end.

Lemma triple_pre {A} Pre Pre' (p : M A) Post :
  (forall tr db, inv S tr db -> Pre' tr db -> Pre tr db) ->
  triple Pre p Post -> triple Pre' p Post.
Proof. intros Hp Ht K HK HKP. apply Ht; auto. Qed.

Lemma triple_post {A} Pre (p : M A) Post Post' :
  (forall a tr db, inv S tr db -> Pre tr db -> Post a tr db -> Post' a tr db) ->
  triple Pre p Post -> triple Pre p Post'.
Proof.
  intros Hp Ht K HK HKP. eapply wp_post; [|by apply Ht].
  intros a tr db Hv [Hk Ha]. auto.
Qed.

Lemma triple_ret {A} Pre (a : A) (Post : A -> assertion) :
  (forall tr db, inv S tr db -> Pre tr db -> Post a tr db) -> triple Pre (Ret a) Post.
Proof. intros Hp K HK HKP. apply wp_ret. auto. Qed.

Lemma triple_bind {A B} Pre (p : M A) (f : A -> M B) (Mid : A -> assertion) Post :
  triple Pre p Mid -> (forall a, stable S (Mid a)) ->
  (forall a, triple (fun tr db => Pre tr db /\ Mid a tr db) (f a) Post) ->
  triple Pre (bind p f) Post.
Proof.
  intros Hp Hm Hf K HK HKP. eapply wp_bind; [by apply Hp|]. intros a.
  eapply wp_post; [|apply (Hf a)].
  - simpl. intros b tr db Hv [[? _] ?]. done.
  - apply kept_and; [done|apply Hm].
  - intros tr db Hv [Hk Ha]. auto.
Qed.

Lemma triple_seq {A B} Pre (p : M A) (f : A -> M B) Post :
  triple Pre p top -> (forall a, triple Pre (f a) Post) -> triple Pre (bind p f) Post.
Proof.
  intros Hp Hf. eapply triple_bind; [exact Hp|intros a; apply kept_pure|].
  intros a. eapply triple_pre; [|apply Hf]. by intros tr db _ [].
Qed.

Lemma triple_try {A B E} Pre (p : M (result A E)) (f : A -> M (result B E))
    (Mid : A -> assertion) (Post : B -> assertion) :
  triple Pre p (okP Mid) -> (forall a, stable S (Mid a)) ->
  (forall a, triple (fun tr db => Pre tr db /\ Mid a tr db) (f a) (okP Post)) ->
  triple Pre (try p f) (okP Post).
Proof.
  intros Hp Hm Hf. eapply triple_bind; [exact Hp| |].
  - intros [v|e]; [apply Hm|apply kept_pure].
  - intros [v|e]; [apply Hf|]. by apply triple_ret.
Qed.

(** [?] with nothing learnt on the way. *)
Lemma triple_try_seq {A B E} Pre (p : M (result A E)) (f : A -> M (result B E)) Post :
  triple Pre p top -> (forall a, triple Pre (f a) (okP Post)) ->
  triple Pre (try p f) (okP Post).
Proof.
  intros Hp Hf. apply triple_seq; [done|]. intros [v|e]; [apply Hf|by apply triple_ret].
Qed.

Lemma triple_top {A} Pre (p : M A) Post : triple Pre p Post -> triple Pre p top.
Proof. apply triple_post. done. Qed.

Lemma triple_okP {A E} Pre (p : M (result A E)) : triple Pre p top -> triple Pre p (okP top).
Proof. apply triple_post. by intros [|]. Qed.

Lemma triple_for_each {X} Pre (l : list X) (body : X -> M unit) :
  (forall x, In x l -> triple Pre (body x) top) -> triple Pre (for_each l body) top.
Proof.
  induction l as [|x l IH]; intros Hb; simpl; [by apply triple_ret|].
  apply triple_seq; [by apply Hb; left|]. intros []. apply IH.
  intros y Hy. apply Hb. by right.
Qed.

Lemma triple_try_fold {X T E} Pre (l : list X) (s : T) (body : T -> X -> M (result T E))
    (Mid : T -> assertion) :
  (forall s', stable S (Mid s')) ->
  (forall tr db, inv S tr db -> Pre tr db -> Mid s tr db) ->
  (forall x s', In x l ->
     triple (fun tr db => Pre tr db /\ Mid s' tr db) (body s' x) (okP Mid)) ->
  triple Pre (try_fold l s body) (okP Mid).
Proof.
  intros Hm. revert Pre s.
  induction l as [|x l IH]; intros Pre s Hs Hb; simpl; [by apply triple_ret|].
  eapply triple_try; [|exact Hm|].
  - eapply (triple_pre (fun tr db => Pre tr db /\ Mid s tr db)); [|by apply Hb; left].
    intros tr db Hv Hp. split; auto.
  - intros s'. apply IH; [by intros tr db _ []|].
    intros y s'' Hy. eapply triple_pre; [|apply (Hb y s''); by right].
    intros tr db _ [[? _] ?]. done.
Qed.
End Triples.

(** ** Primitive interactions *)

Section Primitives.
Context `{Lib} (S : Spec DB ext) {HS : Friendly S}.

Lemma triple_query {R} (f : DB -> R) Pre (L : R -> assertion) :
  (forall r, stable S (L r)) ->
  (forall tr db, bonds_ok tr db -> Pre tr db -> L (f db) tr db) ->
  triple S Pre (sql_or_db_error (query f)) (okP L).
Proof.
  intros HL Hl K HK HKP. apply (wp_bind _ _ _ _
    (fun r tr db => K tr db /\ match r with Ok v => L v tr db | Err _ => True end)).
  - apply wp_sql.
    + intros [v|e]; apply kept_and; [done|apply HL|done|apply kept_pure].
    + intros tr db Hv Hk Hlaw. simpl in *.
      destruct (soft_step S tr db _ Hv Hlaw eq_refl) as [Hg Hr].
      split_and!; [done|by eapply HK|]. eapply HL; eauto.
      apply Hl; [by rewrite <- (fr_inv (S := S))|auto].
    + intros e tr db Hv Hk Hlaw.
      destruct (soft_step S tr db _ Hv Hlaw eq_refl) as [Hg Hr].
      split_and!; [done|by eapply HK|done].
  - intros [v|e]; by apply wp_ret.
Qed.

Lemma triple_ask {R} (e : ext R) Pre (L : R -> assertion) :
  (forall r, is_send (ObsExt e r) = false) -> (forall r, stable S (L r)) ->
  (forall r tr db, Pre tr db -> lawful (ObsExt e r :: tr) -> L r (ObsExt e r :: tr) db) ->
  triple S Pre (ask e) L.
Proof.
  intros Hs HL Hl K HK HKP. apply wp_call.
  - intros r. apply kept_and; [done|apply HL].
  - intros r tr db Hv Hk Hlaw. destruct (soft_step S tr db _ Hv Hlaw (Hs r)) as [Hg Hr].
    split_and!; [done|by eapply HK|]. apply Hl; [auto|]. by rewrite <- (fr_law (S := S)).
Qed.

Lemma triple_ask_top {R} (e : ext R) Pre :
  (forall r, is_send (ObsExt e r) = false) -> triple S Pre (ask e) top.
Proof. intros Hs. apply triple_ask; [done|intros r; apply kept_pure|done]. Qed.
End Primitives.

Section Writes.
Context `{Lib}.

Lemma handler_write_step {R} (stmt : DB -> DB * R) r tr db :
  bonds_ok tr db -> db_step_quiet tr db (stmt db).1 ->
  G_handler tr db (ObsSql stmt r) (stmt db).1.
Proof. intros Hv [[Hok Hr] Hq]. split_and!; [split; [by apply bonds_ok_cons|done]|done|done]. Qed.

(** A handler's statement, and what its result tells. *)
Lemma triple_write {R} (stmt : DB -> DB * R) Pre (L : R -> assertion) :
  (forall r, stable bond_handler (L r)) ->
  (forall tr db, bonds_ok tr db -> lawful tr -> Pre tr db -> db_step_quiet tr db (stmt db).1) ->
  (forall tr db, bonds_ok tr db -> Pre tr db -> bonds_ok tr (stmt db).1 ->
     L (stmt db).2 tr (stmt db).1) ->
  triple bond_handler Pre (sql stmt) (okP L).
Proof.
  intros HL Hw Hl K HK HKP. apply wp_sql.
  - intros [v|e]; apply kept_and; [done|apply HL|done|apply kept_pure].
  - intros tr db Hv Hk Hlaw. assert (Hstep := Hw tr db Hv (proj2 Hlaw) (HKP _ _ Hv Hk)).
    assert (Hg := handler_write_step stmt (Ok (stmt db).2) tr db Hv Hstep).
    split_and!; [done|by eapply HK; eauto; left|].
    assert (Hl' : L (stmt db).2 tr (stmt db).1) by (apply Hl; [done|auto|apply Hstep]).
    assert (Hok' : bonds_ok tr (stmt db).1) by apply Hstep.
    assert (Hg' : G_handler tr (stmt db).1 (ObsSql stmt (Ok (stmt db).2)) (stmt db).1).
    { split_and!; [split; [by apply bonds_ok_cons|by eapply rows_step_refl]|apply quiet_refl|done]. }
    eapply HL; [exact Hok'|exact Hlaw|by left|exact Hl'].
  - intros e tr db Hv Hk Hlaw.
    destruct (soft_step bond_handler tr db _ Hv Hlaw eq_refl) as [Hg Hr].
    split_and!; [done|by eapply HK|done].
Qed.

Lemma triple_write_top {R} (stmt : DB -> DB * R) Pre :
  (forall tr db, bonds_ok tr db -> lawful tr -> Pre tr db -> db_step_quiet tr db (stmt db).1) ->
  triple bond_handler Pre (sql stmt) top.
Proof.
  intros Hw. eapply triple_top, (triple_write _ _ top); [intros r; apply kept_pure|done|done].
Qed.

Lemma triple_db_write {R} (stmt : DB -> DB * R) Pre :
  (forall tr db, bonds_ok tr db -> lawful tr -> Pre tr db -> db_step_quiet tr db (stmt db).1) ->
  triple bond_handler Pre (sql_or_db_error stmt) top.
Proof.
  intros Hw. apply triple_seq; [by apply triple_write_top|]. intros r. by apply triple_ret.
Qed.

Lemma triple_row_write {R} (stmt : DB -> DB * result R string) Pre :
  (forall tr db, bonds_ok tr db -> lawful tr -> Pre tr db -> db_step_quiet tr db (stmt db).1) ->
  triple bond_handler Pre (sql_row stmt) top.
Proof.
  intros Hw. apply triple_seq; [by apply triple_write_top|]. intros r. by apply triple_ret.
Qed.

(** Statements on [orders] alone. *)
Lemma update_orders_step tr db p f :
  bonds_ok tr db -> db_step_quiet tr db (update_orders p f db).1.
Proof. intros Hdb. by apply same_bonds_step. Qed.
End Writes.

(** Automation: stability of assertions, entailments between preconditions,
    and the sequencing of interactions that teach nothing. *)
#[export] Hint Extern 1 (kept ?S _ (snap _)) => apply (stable_snap S) : stab.
#[export] Hint Extern 1 (kept ?S _ (fun tr _ => gone _ tr)) => apply (stable_gone S) : stab.
#[export] Hint Extern 2 (kept ?S _ (fun tr _ => _ tr = true)) => apply (stable_seen S) : stab.
Ltac stab_step :=
  match goal with
  | |- kept _ _ _ => solve [auto with stab typeclass_instances]
  | |- kept _ _ (fun _ _ => _) => apply kept_pure
  | |- kept _ _ (fun _ _ => _ /\ _) => apply kept_and
  | |- kept _ _ (fun _ _ => _ -> _) => apply kept_impl
  | |- kept _ _ (fun _ _ => forall _, _) => apply kept_all; intros ?
  | |- kept _ _ (fun _ _ => match ?x with _ => _ end) => destruct x
  end.
Ltac stab := intros; unfold stable, top; cbv beta; repeat stab_step.

Ltac ent :=
  let tr := fresh "tr" in let db := fresh "db" in let Hv := fresh "Hv" in
  let Hp := fresh "Hp" in
  intros tr db Hv Hp; repeat match goal with H : _ /\ _ |- _ => destruct H end; eauto 6.

(** A request that teaches nothing. *)
Ltac ask_top := apply triple_ask_top; [apply _|done].

(** One step of a program whose answer only steers the control flow. *)
Ltac tstep :=
  lazymatch goal with
  | |- triple _ _ (Ret _) _ => apply triple_ret; ent
  | |- triple _ _ (ask _) top => ask_top
  | |- triple _ _ (try _ _) (okP _) => apply triple_try_seq; [|intros ?]
  | |- triple _ _ (try _ _) top =>
      eapply triple_top, (triple_try_seq _ _ _ _ top); [|intros ?; apply triple_okP]
  | |- triple _ _ (bind _ _) _ => apply triple_seq; [|intros ?]
  | |- triple _ _ (for_each _ _) top => apply triple_for_each; intros ? ?
  | |- triple _ _ (enqueue_order_msg _ _ _ _ _ _) _ => ask_top
  | |- triple _ _ (match ?x with _ => _ end) _ => destruct x
  end.
