(* ===== verification/BondHandlers.v ===== *)
(** * Every handler keeps the agreement

    A triple per function of [flow.rs], [slash.rs] and the winner's reply of
    [payout.rs]: whatever the other tasks do between two interactions, what
    the function writes is a step of [BondInv], and what it returns can be
    relied upon. *)

From S2P Require Import Prelude Float64 Config BondTypes BondMath Effects Model.
From S2P Require Import Lightning BondDb BondRelease BondSlash OrderDb BondLock BondPayout BondInv Triples.

Open Scope Z_scope.

(** ** Lookups *)

Section Lookups.
Context `{Lib} (S : Spec DB ext) {HS : Friendly S}.

Definition snaps (l : list Bond) : assertion := fun tr db => forall b, In b l -> snap b tr db.
Definition snap_opt (o : option Bond) : assertion := fun tr db => forall b, o = Some b -> snap b tr db.

Lemma stable_snaps l : stable S (snaps l).
Proof. unfold snaps. stab. Qed.

Lemma stable_snap_opt o : stable S (snap_opt o).
Proof. unfold snap_opt. stab. Qed.

Lemma triple_find_rows (f : DB -> list Bond) (Q : Bond -> Prop) Pre :
  (forall db b, In b (f db) -> In b (bonds db) /\ Q b) ->
  triple S Pre (sql_or_db_error (query f))
    (okP (fun l tr db => snaps l tr db /\ forall b, In b l -> Q b)).
Proof.
  intros Hf. apply triple_query; [done| |].
  - intros l. apply kept_and; [apply stable_snaps|apply kept_pure].
  - intros tr db Hdb _. split; [|by intros b []%Hf].
    intros b [Hb _]%Hf. by apply snap_read.
Qed.

Lemma triple_find_row (f : DB -> option Bond) (Q : Bond -> Prop) Pre :
  (forall db b, f db = Some b -> In b (bonds db) /\ Q b) ->
  triple S Pre (sql_or_db_error (query f))
    (okP (fun o tr db => snap_opt o tr db /\ forall b, o = Some b -> Q b)).
Proof.
  intros Hf. apply triple_query; [done| |].
  - intros l. apply kept_and; [apply stable_snap_opt|apply kept_pure].
  - intros tr db Hdb _. split; [|by intros b []%Hf].
    intros b [Hb _]%Hf. by apply snap_read.
Qed.

Lemma triple_any_query {R} (f : DB -> R) Pre :
  triple S Pre (sql_or_db_error (query f)) top.
Proof.
  eapply triple_top, (triple_query S f Pre top); [intros r; apply kept_pure|done].
Qed.

Definition active (b : Bond) : Prop := has_state b Requested \/ has_state b Locked.

Lemma active_row_spec b : active_row b = true <-> active b.
Proof. unfold active_row, active. by rewrite orb_true_iff, !has_state_is. Qed.

Lemma triple_active_for_order o Pre :
  triple S Pre (find_active_bonds_for_order o)
    (okP (fun l tr db => snaps l tr db /\ forall b, In b l -> active b)).
Proof.
  apply triple_find_rows. intros db b [Hb Hp]%select_ordered_in. bool_prop.
  split; [done|]. by apply active_row_spec.
Qed.

Lemma triple_by_hash h Pre :
  triple S Pre (find_bond_by_hash h)
    (okP (fun o tr db => snap_opt o tr db /\ forall b, o = Some b -> hash b = Some h)).
Proof.
  apply triple_find_row. intros db b [Hb Hp]%select_one_spec. by bool_prop.
Qed.

Lemma triple_by_order_and_role o r Pre :
  triple S Pre (find_bond_by_order_and_role o r)
    (okP (fun o tr db => snap_opt o tr db /\ forall b, o = Some b -> parent_bond_id b = None)).
Proof.
  apply triple_find_row. intros db b [Hb Hp]%select_one_spec. bool_prop.
  split; [done|]. by destruct (parent_bond_id b).
Qed.

Lemma triple_walk fuel order Pre : triple S Pre (walk_to_root fuel order) (okP top).
Proof.
  revert order. induction fuel as [|fuel IH]; intros order; simpl; [by tstep|].
  destruct (o_range_parent_id order); [|by tstep].
  apply triple_try_seq; [apply triple_any_query|]. intros [parent|]; [apply IH|by tstep].
Qed.

Lemma triple_root order Pre : triple S Pre (find_range_root_order order) top.
Proof. eapply triple_top, triple_walk. Qed.

Lemma triple_maker_bond order Pre :
  triple S Pre (find_maker_bond_for_order order)
    (okP (fun o tr db => snap_opt o tr db /\ forall b, o = Some b -> parent_bond_id b = None)).
Proof. apply triple_try_seq; [apply triple_root|]. intros root. apply triple_by_order_and_role. Qed.
End Lookups.
#[export] Hint Extern 1 (kept ?S _ (snaps _)) => apply (stable_snaps S) : stab.
#[export] Hint Extern 1 (kept ?S _ (snap_opt _)) => apply (stable_snap_opt S) : stab.

Lemma active_root `{Lib} tr b : row_ok tr b -> active b -> parent_bond_id b = None.
Proof.
  intros Hok Ha. destruct (parent_bond_id b) eqn:E; [exfalso|done].
  destruct (ro_child _ _ Hok) as (_ & s & Hs & Hl); [by rewrite E|].
  destruct Ha as [Ha|Ha]; by rewrite (has_state_fun _ _ _ Hs Ha) in Hl.
Qed.

(** ** Releasing *)

Section Release.
Context `{HL : HexLaws}.

Lemma triple_lnd_new S `{Friendly S} Pre : triple S Pre lnd_new top.
Proof. unfold lnd_new. tstep; [ask_top|]. by tstep. Qed.

Lemma linked_decode tr b h :
  row_ok tr b -> hash b = Some h ->
  exists hb, hash_bytes b = Some hb /\ decode_hash32 "payment hash" h = Ok hb.
Proof.
  intros Hok Hh. pose proof (ro_link _ _ Hok) as Hl. unfold linked in Hl. rewrite Hh in Hl.
  destruct (preimage b) as [p|]; [|done]. destruct Hl as (pb & _ & _ & Hd).
  exists (raw_sha256 pb). unfold hash_bytes, decode_hash32. rewrite Hh, Hd.
  split; [done|]. by rewrite bool_decide_true by apply sha256_length.
Qed.

Lemma triple_release_htlc b :
  triple bond_handler (snap b) (release_htlc (hash b)) (okP (fun _ tr _ => gone b tr)).
Proof.
  unfold release_htlc. destruct (hash b) as [h|] eqn:Hh;
    [|apply triple_ret; intros tr db _ _; by left].
  apply triple_try_seq; [eapply triple_lnd_new, _|]. intros _.
  unfold cancel_hold_invoice. intros K HK HKP.
  destruct (decode_hash32 "payment hash" h) as [hb|e] eqn:Ed.
  2:{ (* the stored hash always decodes *)
      eapply (wp_pre _ (fun _ _ => False)).
      - intros tr db Hv Hk. destruct (HKP tr db Hv Hk) as [Hok _].
        destruct (linked_decode tr b h Hok Hh) as (hb & _ & E). congruence.
      - simpl. destruct (classify_cancel_error e); by apply wp_ret. }
  revert K HK HKP.
  change (triple bond_handler (snap b)
    (bind (bind (ask (LndCancelInvoice hb)) (fun cancel => Ret (map_err (fun st =>
       MostroInternalErr (LnNodeError ("code=" +:+ grpc_code st +:+ " message=" +:+ grpc_message st)))
       cancel))) (fun cancelled : result unit MostroError => match cancelled with
      | Ok _ => Ret (Ok tt)
      | Err e => match classify_cancel_error e with
                 | AlreadyDone => Ret (Ok tt)
                 | Transient => Ret (Err e)
                 end
      end)) (okP (fun _ tr _ => gone b tr))).
  eapply (triple_bind _ _ _ _ (fun r tr db =>
    match r with Ok _ => true | Err e => bool_decide (classify_cancel_error e = AlreadyDone) end
    = true -> cancelled hb tr = true)).
  - eapply (triple_bind _ _ _ _ (fun r tr db => cancel_done r = true -> cancelled hb tr = true)).
    + apply triple_ask; [apply _|done| |].
      * intros r. apply kept_impl, stable_seen.
      * intros r tr db _ _ Hd. simpl. by rewrite bool_decide_true, Hd by done.
    + intros r. apply kept_impl, stable_seen.
    + intros r. apply triple_ret. intros tr db _ [_ Hc]. by destruct r.
  - intros r. apply kept_impl, stable_seen.
  - intros r. assert (forall tr db, inv bond_handler tr db -> snap b tr db -> cancelled hb tr = true ->
      gone b tr) as Hgone.
    { intros tr db _ [Hok _] Hc. right. exists hb. split; [|done].
      destruct (linked_decode tr b h Hok Hh) as (hb' & Hb' & E). congruence. }
    destruct r as [[]|e]; simpl.
    + apply triple_ret. intros tr db Hv [Hs Hc]. simpl. eauto.
    + destruct (classify_cancel_error e) eqn:Ec.
      * apply triple_ret. intros tr db Hv [Hs Hc]. simpl. eauto.
      * by apply triple_ret.
Qed.

Lemma triple_release_bond b :
  triple bond_handler (fun tr db => snap b tr db /\ parent_bond_id b = None)
    (release_bond b) top.
Proof.
  unfold release_bond. destruct (state_from_str (state b)) as [s|]; [|by tstep].
  destruct (is_terminal s); [by tstep|].
  eapply triple_top, triple_try.
  - eapply triple_pre; [|apply triple_release_htlc]. by intros tr db _ [].
  - intros []. apply stable_gone.
  - intros []. apply triple_okP. tstep; [ask_top|].
    tstep; [|by tstep]. apply triple_row_write.
    intros tr db Hdb Hlaw [[Hs Hp] Hg]. by apply release_stmt_ok.
Qed.

(** [release_bond] on the active rows of a lookup, some of them skipped. *)
Definition releasable (l : list Bond) : assertion :=
  fun tr db => snaps l tr db /\ forall b, In b l -> active b.

Lemma triple_release_each l (skip : Bond -> bool) (f : Bond -> M unit) Pre :
  (forall tr db, bonds_ok tr db -> Pre tr db -> releasable l tr db) ->
  (forall b, f b = if skip b then Ret tt else bind (release_bond b) (fun _ => Ret tt)) ->
  triple bond_handler Pre (for_each l f) top.
Proof.
  intros Hl Hf. apply triple_for_each. intros b Hb. rewrite Hf.
  destruct (skip b); [by tstep|]. tstep; [|by tstep].
  eapply triple_pre; [|apply triple_release_bond]. intros tr db Hv Hp.
  destruct (Hl tr db Hv Hp) as [Hs Ha]. split; [by apply Hs|].
  eapply active_root; [by apply Hs|by apply Ha].
Qed.

Lemma triple_release_active o retain Pre :
  triple bond_handler Pre (release_active_bonds o retain) top.
Proof.
  eapply triple_top, triple_try; [eapply triple_active_for_order, _|stab|].
  intros l. apply triple_okP. tstep; [|by tstep].
  eapply (triple_release_each l (fun b => retain && str_eqb (role b) (role_to_string Maker)));
    [|done]. by intros tr db Hv [_ Hl].
Qed.

Lemma triple_release_or_warn o Pre :
  triple bond_handler Pre (release_bonds_for_order_or_warn o) top.
Proof. apply triple_seq; [apply triple_release_active|intros r; by tstep]. Qed.

Lemma triple_release_takers_or_warn o Pre :
  triple bond_handler Pre (release_taker_bonds_for_order_or_warn o) top.
Proof. apply triple_seq; [apply triple_release_active|intros r; by tstep]. Qed.
End Release.

(** ** Slashing *)

Section Slashing.
Context `{HL : HexLaws} (settings : Settings).

(** The hold invoice of the row is known to be settled. *)
Definition seized (b : Bond) (tr : list obs') : Prop :=
  exists h, hash_bytes b = Some h /\ settled h tr = true.

Lemma stable_seized S b : stable S (fun tr _ => seized b tr).
Proof. intros tr db o db' _ _ _ (h & Hh & Hs). exists h. split; [done|]. by apply seen_cons. Qed.

Lemma linked_preimage tr b p :
  row_ok tr b -> preimage b = Some p ->
  exists pb, decode_hash32 "preimage" p = Ok pb /\ hash_bytes b = Some (raw_sha256 pb).
Proof.
  intros Hok Hp. pose proof (ro_link _ _ Hok) as Hl. unfold linked in Hl. rewrite Hp in Hl.
  destruct (hash b) as [h|] eqn:Hh; [|done]. destruct Hl as (pb & Hd & Hlen & Hd').
  exists pb. unfold hash_bytes, decode_hash32. rewrite Hh, Hd, Hd'. split; [|done].
  by rewrite bool_decide_true.
Qed.

Lemma triple_settle b p :
  preimage b = Some p ->
  triple bond_handler (snap b) (settle_or_already p) (fun ok tr _ => ok = true -> seized b tr).
Proof.
  intros Hp. unfold settle_or_already, settle_hold_invoice.
  destruct (decode_hash32 "preimage" p) as [pb|e] eqn:Ed.
  2:{ intros K HK HKP. eapply (wp_pre _ (fun _ _ => False)); [|by apply wp_ret].
      intros tr db Hv Hk. destruct (HKP tr db Hv Hk) as [Hok _].
      destruct (linked_preimage tr b p Hok Hp) as (pb & E & _). congruence. }
  eapply (triple_bind _ _ _ _ (fun r tr db =>
    match r with Ok _ => true | Err e => is_already_settled_error e end = true -> seized b tr)).
  - eapply (triple_bind _ _ (ask (LndSettleInvoice pb)) _
      (fun r tr db => settle_done r = true -> settled (raw_sha256 pb) tr = true)).
    + apply triple_ask; [apply _|done|stab|].
      intros r tr db _ _ Hd. simpl. by rewrite bool_decide_true, Hd by done.
    + stab.
    + intros r. apply triple_ret. intros tr db _ [[Hok _] Hs] Hd.
      destruct (linked_preimage tr b p Hok Hp) as (pb' & E & Eh).
      exists (raw_sha256 pb). split; [congruence|]. apply Hs. by destruct r.
  - intros r. apply kept_impl, stable_seized.
  - intros [v|e]; apply triple_ret; by intros tr db _ [_ Hs].
Qed.

Lemma triple_slash_one b reason pct :
  triple bond_handler (snap b) (slash_one b reason pct) top.
Proof.
  unfold slash_one. destruct (preimage b) as [p|] eqn:Hp; [|by tstep].
  eapply triple_bind; [by apply triple_settle|intros ok; apply kept_impl, stable_seized|].
  intros [|]; cbn [negb]; [|by tstep]. tstep; [ask_top|]. tstep; [|by tstep].
  apply triple_write_top. intros tr db Hdb _ [Hs Hz].
  destruct (Hz eq_refl) as (h & Hh & Hset). eapply slash_cas_ok; [done|done|done|done|].
  destruct Hs as [Hok _]. pose proof (ro_amount _ _ Hok) as Ha.
  pose proof (compute_node_share_bounds (amount_sats b) pct) as Hb.
  unfold in_i64, i64_min in Hb. lia.
Qed.

Lemma triple_record_slice slice root parent reason pct :
  triple bond_handler (snap parent)
    (record_maker_slice_slash slice root parent reason pct) (okP top).
Proof.
  unfold record_maker_slice_slash. apply triple_okP.
  tstep; [by tstep|]. cbv zeta. tstep; [|by tstep]. tstep; [|by tstep].
  tstep; [by tstep|]. set (amt := clampZ _ _ _). destruct (amt <=? 0) eqn:Epos; [by tstep|].
  bool_prop. tstep; [ask_top|]. tstep; [ask_top|]. tstep.
  - apply triple_write_top. intros tr db Hdb _ [Hok _].
    pose proof (ro_amount _ _ Hok). pose proof (ro_share _ _ Hok).
    assert (0 <= amt <= amount_sats parent) by (unfold amt, clampZ in *; lia).
    pose proof (compute_node_share_bounds amt pct) as Hb. unfold in_i64, i64_min in Hb.
    apply slice_insert_ok; [done|lia|lia].
  - assert (triple bond_handler (snap parent)
      (try (sql_or_db_error (share_total_stmt (id parent))) (fun _ => Ret (Ok (E:=MostroError) true)))
      top) as Hshare.
    { tstep; [|by tstep]. apply triple_db_write. intros tr db Hdb _ _. by apply share_total_ok. }
    repeat case_match; try (by tstep); done.
Qed.

Lemma triple_internal {A} (r : result A ServiceError) S Pre :
  triple S Pre (Ret (internal r)) top.
Proof. by apply triple_ret. Qed.

Lemma triple_is_range order S `{Friendly S} Pre :
  triple S Pre (order_has_range_maker_bond order) top.
Proof. unfold order_has_range_maker_bond. tstep; [apply triple_root, _|by tstep]. Qed.

(** The target of a directive is a locked row that was read. *)
Definition target_ok (o : option Bond) : assertion :=
  fun tr db => snap_opt o tr db /\ forall b, o = Some b -> has_state b Locked.

Lemma stable_target o : stable bond_handler (target_ok o).
Proof. unfold target_ok. stab. Qed.

Lemma triple_target order bonds side is_range :
  triple bond_handler (snaps bonds)
    (resolve_slash_target order bonds side is_range) (okP target_ok).
Proof.
  unfold resolve_slash_target. destruct (resolve_locked_bond order bonds side) as [b|] eqn:Eb.
  - unfold resolve_locked_bond in Eb. destruct (match side with Seller => _ | Buyer => _ end); [|done].
    apply find_some in Eb as [Hin Hp]. bool_prop. apply triple_ret. intros tr db _ Hs.
    split; intros b' [= <-]; [by apply Hs|by apply has_state_is].
  - assert (forall Pre (e : result (option Bond) MostroError), e = Ok None ->
      triple bond_handler Pre (Ret e) (okP target_ok)) as Hnone.
    { intros Pre e ->. apply triple_ret. intros tr db _ _. by split. }
    destruct is_range; [|by apply Hnone].
    apply triple_try_seq; [by tstep|]. intros [|]; [|by apply Hnone].
    eapply triple_try; [apply triple_maker_bond, _|stab|].
    intros [b|]; [|by apply Hnone]. destruct (state_is Locked b) eqn:Es; [|by apply Hnone].
    apply triple_ret. intros tr db _ [_ [Hs _]]. split; [done|].
    intros b' [= <-]. by apply has_state_is.
Qed.
End Slashing.
#[export] Hint Extern 1 (kept ?S _ (fun tr _ => seized _ tr)) => apply (stable_seized S) : stab.
#[export] Hint Extern 1 (kept _ _ (target_ok _)) => apply stable_target : stab.

(** ** Resolutions, timeouts and the close of a range *)

Section Resolutions.
Context `{HL : HexLaws} (settings : Settings).

Definition children_ok (l : list Bond) : assertion :=
  fun tr db => snaps l tr db /\ forall c, In c l -> parent_bond_id c <> None.

Lemma triple_children parent Pre :
  triple bond_handler Pre (find_child_slashes_for_parent parent) (okP children_ok).
Proof.
  apply (triple_find_rows _ _ (fun c => parent_bond_id c <> None)).
  intros db b [Hb Hp]%select_ordered_in. split; [done|]. intros E. unfold opt_uuid_eqb in Hp. by rewrite E in Hp.
Qed.

(** The reason copied to a refund row is one a child row recorded. *)
Lemma child_reason tr db l :
  children_ok l tr db ->
  exists r, default (reason_to_string LostDispute)
              (head (List.filter (fun c => is_some (child_order_id c)) l) ≫= slashed_reason)
            = reason_to_string r.
Proof.
  intros [Hs Hp]. destruct (head _) as [c|] eqn:Eh; [|by exists LostDispute].
  assert (Hin : In c l).
  { destruct (List.filter _ l) as [|c' l'] eqn:Ef; [done|]. injection Eh as ->.
    assert (In c (c :: l')) as Hc by by left. rewrite <- Ef in Hc.
    by apply filter_In in Hc as [? _]. }
  destruct (Hs c Hin) as [Hok _]. specialize (Hp c Hin).
  destruct (ro_child _ _ Hok) as (_ & s & Hst & Hl); [by destruct (parent_bond_id c)|].
  destruct (ro_meta _ _ Hok s Hst Hl) as (t & r & n & _ & Hr & _); [by right|].
  exists r. simpl. by rewrite Hr.
Qed.

(** What [slice_children] holds in the close. *)
Lemma triple_slice_children (range : bool) parent Pre :
  triple bond_handler Pre
    (if range then
       try (find_child_slashes_for_parent parent) (fun children =>
         Ret (Ok (List.filter (fun c => is_some (child_order_id c)) children)))
     else Ret (Ok []))
    (okP (fun l _ _ => exists r, default (reason_to_string LostDispute)
                           (head l ≫= slashed_reason) = reason_to_string r)).
Proof.
  destruct range.
  - eapply triple_try; [apply triple_children|intros l; unfold children_ok; stab|].
    intros l. apply triple_ret. intros tr db _ [_ Hl]. by eapply child_reason.
  - apply triple_ret. intros tr db _ _. by exists LostDispute.
Qed.

Lemma triple_close order Pre :
  triple bond_handler Pre (resolve_range_maker_bond_at_close order) top.
Proof.
  eapply triple_top, triple_try; [eapply triple_maker_bond, _|stab|].
  intros [parent|]; [|apply triple_okP; by tstep]. apply triple_okP.
  destruct (negb _); [by tstep|].
  tstep; [eapply triple_root, _|].
  eapply triple_top, triple_try; [apply triple_slice_children|stab|].
  intros l. apply triple_okP. cbv zeta. destruct (_ =? 0).
  { eapply triple_pre; [|apply triple_release_bond].
    intros tr db _ [[_ [Hs Hp]] _]. split; [by apply Hs|by apply Hp]. }
  destruct (preimage parent) as [p|] eqn:Ep; [|by tstep].
  eapply triple_bind; [| |].
  - eapply triple_pre; [|apply (triple_settle parent p Ep)].
    intros tr db _ [[_ [Hs _]] _]. by apply Hs.
  - intros ok. apply kept_impl, stable_seized.
  - intros [|]; cbn [negb]; [|by tstep]. tstep; [ask_top|]. tstep; [ask_top|].
    tstep; [|by tstep]. apply triple_row_write.
    intros tr db Hdb _ [[[_ [Hs _]] (r & ->)] Hz]. destruct (Hz eq_refl) as (h & Hh & Hset).
    eapply close_tx_ok; [done|by apply Hs|done|done].
Qed.

Lemma triple_close_or_warn order Pre :
  triple bond_handler Pre (resolve_range_maker_bond_at_close_or_warn order) top.
Proof.
  unfold resolve_range_maker_bond_at_close_or_warn.
  tstep; [eapply triple_top, triple_maker_bond, _|].
  repeat (case_match; try by tstep).
  tstep; [eapply triple_lnd_new, _|]. tstep; [|by tstep]. tstep; [apply triple_close|by tstep].
Qed.

Lemma triple_stranded Pre :
  triple bond_handler Pre collect_stranded_range_maker_roots top.
Proof.
  unfold collect_stranded_range_maker_roots.
  tstep; [eapply triple_any_query, _|].
  eapply triple_top, (triple_try_fold _ _ _ _ _ top); [stab|done|].
  intros x s' _. apply triple_okP.
  apply triple_seq; [eapply triple_any_query, _|]. intros [[root|]|]; try by tstep.
  apply triple_seq; [|intros r; by repeat case_match; tstep].
  unfold range_tree_fully_terminal. tstep; [eapply triple_any_query, _|by tstep].
Qed.

Lemma triple_reconcile_with Pre :
  triple bond_handler Pre reconcile_stranded_range_maker_bonds_with top.
Proof.
  unfold reconcile_stranded_range_maker_bonds_with.
  apply triple_seq; [apply triple_stranded|]. intros [roots|]; [|by tstep].
  apply triple_seq; [|intros r; by case_match; tstep].
  eapply triple_top, (triple_try_fold _ _ _ _ _ top); [stab|done|].
  intros x s' _. apply triple_okP. tstep; [apply triple_close|by tstep].
Qed.

Lemma triple_reconcile Pre :
  triple bond_handler Pre reconcile_stranded_range_maker_bonds top.
Proof.
  unfold reconcile_stranded_range_maker_bonds.
  apply triple_seq; [apply triple_stranded|]. intros [[|root roots]|]; try by tstep.
  tstep; [eapply triple_lnd_new, _|]. case_match; [|by tstep].
  tstep; [apply triple_reconcile_with|by tstep].
Qed.

Lemma triple_job_reconcile ticks Pre :
  triple bond_handler Pre (job_reconcile_stranded_maker_bonds ticks) top.
Proof.
  induction ticks as [|n IH]; cbn [job_reconcile_stranded_maker_bonds]; [by tstep|].
  tstep; [apply triple_reconcile|done].
Qed.

Lemma triple_find_child parent slice Pre :
  triple bond_handler Pre (find_slice_slash_child parent slice) top.
Proof. eapply triple_any_query, _. Qed.

Lemma triple_reason_recorded i r Pre :
  triple bond_handler Pre (slash_reason_recorded i r) top.
Proof.
  unfold slash_reason_recorded. tstep; [eapply triple_any_query, _|by tstep].
Qed.

Lemma triple_apply_side order active is_range reason acc fs :
  triple bond_handler (snaps active)
    (apply_side settings order active is_range reason acc fs) top.
Proof.
  unfold apply_side. destruct acc as [ids rows], fs as [flag side].
  destruct flag; cbn [negb]; [|by tstep].
  eapply triple_top, triple_try; [apply triple_target|stab|].
  intros [target|]; apply triple_okP; [|by tstep].
  assert (forall A (p : M A), triple bond_handler (snap target) p top ->
    triple bond_handler (fun tr db => snaps active tr db /\ target_ok (Some target) tr db) p top)
    as Hpre.
  { intros A p. apply triple_pre. intros tr db _ [_ [Hs _]]. by apply Hs. }
  apply Hpre. tstep; [by tstep|]. tstep.
  - tstep; [eapply triple_root, _|].
    tstep; [eapply triple_top, triple_record_slice|]. tstep; [|by tstep].
    tstep; [apply triple_find_child|]. case_match; by tstep.
  - tstep; [apply triple_slash_one|]. tstep; [apply triple_reason_recorded|by tstep].
Qed.

Lemma triple_apply_resolution order resolution reason Pre :
  triple bond_handler Pre (apply_bond_resolution settings order resolution reason) top.
Proof.
  unfold apply_bond_resolution.
  eapply triple_top, triple_try; [eapply triple_active_for_order, _|stab|].
  intros active. apply triple_okP. tstep; [eapply triple_is_range, _|].
  tstep.
  - eapply triple_top, (triple_try_fold _ _ _ _ _ top); [stab|done|].
    intros x s' _. apply triple_okP.
    eapply triple_pre; [|apply triple_apply_side]. by intros tr db _ [[_ [? _]] _].
  - destruct a0 as [ids rows]. tstep; [|by tstep].
    eapply (triple_release_each active (fun b => existsb (N.eqb (id b)) ids ||
      (a && str_eqb (role b) (role_to_string Maker)))).
    + by intros tr db Hv [_ Hl].
    + intros b. by destruct (existsb _ ids), (_ && _).
Qed.

Lemma triple_validate order resolution Pre :
  triple bond_handler Pre (validate_bond_resolution order resolution) top.
Proof.
  unfold validate_bond_resolution. tstep; [by tstep|].
  eapply triple_top, triple_try; [eapply triple_active_for_order, _|stab|].
  intros bonds. apply triple_okP. tstep; [eapply triple_is_range, _|].
  assert (forall side, triple bond_handler
    (fun tr db => Pre tr db /\ snaps bonds tr db /\ (forall b, In b bonds -> active b))
    (resolve_slash_target order bonds side a) top) as Ht.
  { intros side. eapply triple_pre; [|eapply triple_top, triple_target].
    by intros tr db _ [_ [? _]]. }
  tstep; [tstep; [tstep; [apply Ht|by tstep]|by tstep]|].
  tstep; [by tstep|].
  tstep; [tstep; [tstep; [apply Ht|by tstep]|by tstep]|].
  tstep; by tstep.
Qed.

Lemma triple_release_on_timeout o republishes Pre :
  triple bond_handler Pre (release_on_timeout o republishes) top.
Proof.
  unfold release_on_timeout. case_match;
    [apply triple_release_takers_or_warn|apply triple_release_or_warn].
Qed.

Lemma triple_timeout order cfg Pre :
  triple bond_handler Pre (slash_or_release_on_timeout settings order cfg) top.
Proof.
  unfold slash_or_release_on_timeout.
  case_match; [|tstep; [apply triple_release_or_warn|by tstep]].
  cbv zeta. tstep; [by tstep|].
  tstep; [tstep; [apply triple_release_on_timeout|by tstep]|].
  eapply triple_top, triple_try; [eapply triple_active_for_order, _|stab|].
  intros bonds. apply triple_okP. tstep; [eapply triple_is_range, _|].
  eapply triple_top, (triple_try _ _ _ _ target_ok); [|intros t; apply stable_target|].
  { eapply triple_pre; [|apply triple_target]. by intros tr db _ [_ [? _]]. }
  intros [b|]; apply triple_okP; [|tstep; [apply triple_release_on_timeout|by tstep]].
  tstep.
  - eapply (triple_pre _ (snap b)); [intros tr db _ [_ [Hs _]]; by apply Hs|].
    tstep.
    + tstep; [eapply triple_root, _|]. tstep; [eapply triple_top, triple_record_slice|].
      tstep; [apply triple_find_child|by tstep].
    + tstep; [apply triple_slash_one|]. tstep; [apply triple_reason_recorded|by tstep].
  - tstep; [|by tstep].
    eapply (triple_release_each bonds (fun c => N.eqb (id c) (id b) ||
      (str_eqb (role c) (role_to_string Maker) &&
       (order_republishes_on_timeout order || a0)))).
    + by intros tr db Hv [[_ Hl] _].
    + intros c. destruct (N.eqb _ _); [done|]. by destruct (_ && _).
Qed.

Lemma triple_notify_slashed order b Pre :
  triple bond_handler Pre (notify_bond_slashed order b) top.
Proof. unfold notify_bond_slashed. repeat case_match; by tstep. Qed.
End Resolutions.

(** ** Orders: nothing here touches a bond *)

Section OrderHandlers.
Context `{HL : HexLaws} (settings : Settings).

Lemma triple_order_write {R} (stmt : DB -> DB * R) Pre :
  (forall db, bonds (stmt db).1 = bonds db) ->
  triple bond_handler Pre (sql_or_db_error stmt) top.
Proof. intros Hb. apply triple_db_write. intros tr db Hdb _ _. by apply same_bonds_step. Qed.

Lemma triple_order_sql {R} (stmt : DB -> DB * R) Pre :
  (forall db, bonds (stmt db).1 = bonds db) -> triple bond_handler Pre (sql stmt) top.
Proof. intros Hb. apply triple_write_top. intros tr db Hdb _ _. by apply same_bonds_step. Qed.

(** A fresh hold invoice: its hash is the digest of 32 random bytes. *)
Definition fresh_invoice (v : string * list Z * list Z) : Prop :=
  v.2 = raw_sha256 v.1.2 /\ Forall is_byte v.1.2 /\ length v.1.2 = HASH_LEN.

Lemma triple_create_hold_invoice memo amount Pre :
  triple bond_handler Pre (create_hold_invoice settings memo amount)
    (okP (fun v _ _ => fresh_invoice v)).
Proof.
  unfold create_hold_invoice.
  eapply (triple_bind _ _ _ _ (fun bs _ _ => Forall is_byte bs /\ length bs = HASH_LEN)).
  - apply triple_ask; [apply _|done|stab|]. intros bs tr db _ [Hl _]. exact (law_random _ _ Hl).
  - stab.
  - intros bs. apply triple_seq; [ask_top|]. intros [pr|e]; apply triple_ret; [|done].
    intros tr db _ [_ [Hb Hlen]]. done.
Qed.

Lemma triple_update_event status order created Pre :
  triple bond_handler Pre (update_order_event_with_created_at status order created) top.
Proof. unfold update_order_event_with_created_at. tstep; [ask_top|by tstep]. Qed.

Lemma triple_republish i Pre :
  triple bond_handler Pre (republish_winning_state_after_cas_miss i) top.
Proof.
  unfold republish_winning_state_after_cas_miss.
  apply triple_seq; [eapply triple_any_query, _|]. intros [[o|]|]; try by tstep.
  case_match; [|by tstep]. tstep; [ask_top|]. tstep; [apply triple_update_event|by tstep].
Qed.

Lemma triple_cancel_any h Pre : triple bond_handler Pre (cancel_hold_invoice h) top.
Proof.
  unfold cancel_hold_invoice. tstep; [by tstep|]. tstep; [ask_top|by tstep].
Qed.

Lemma triple_show_hold_invoice pr buyer seller order rid origin Pre :
  triple bond_handler Pre (show_hold_invoice settings pr buyer seller order rid origin) top.
Proof.
  unfold show_hold_invoice, update_order_event, cas_complete_pretrade_take.
  tstep; [eapply triple_lnd_new, _|]. cbv zeta.
  tstep; [eapply triple_top, triple_create_hold_invoice|].
  apply triple_top with (Post := okP top), triple_try_seq; [by tstep|].
  intros [[bolt11 preimage] hash]. apply triple_okP.
  tstep; [ask_top|]. tstep; [ask_top|]. tstep; [by tstep|].
  tstep; [apply triple_update_event|]. tstep; [by tstep|].
  tstep; [tstep; [by apply triple_order_write|by tstep]|].
  tstep.
  - tstep; [apply triple_cancel_any|]. tstep; [apply triple_republish|by tstep].
  - tstep; [ask_top|]. tstep; [ask_top|]. tstep; [|by tstep].
    unfold invoice_subscribe. tstep; [eapply triple_lnd_new, _|]. tstep; [ask_top|by tstep].
Qed.

Lemma triple_set_waiting order buyer rid Pre :
  triple bond_handler Pre (set_waiting_invoice_status order buyer rid) top.
Proof.
  unfold set_waiting_invoice_status. tstep; [by tstep|]. cbv zeta.
  tstep; [ask_top|]. tstep; [by tstep|]. tstep; [ask_top|by tstep].
Qed.

Lemma triple_resume_publish order rid Pre :
  triple bond_handler Pre (resume_publish_after_maker_bond order rid) top.
Proof.
  unfold resume_publish_after_maker_bond, finalize_order_publication.
  tstep; [by apply triple_order_write|]. tstep; [by tstep|].
  tstep; [by tstep|]. apply triple_top with (Post := okP top), triple_try_seq; [by tstep|].
  intros [[trade ident] idx]. apply triple_okP. tstep; [ask_top|]. cbv zeta.
  tstep; [by apply triple_order_write|]. tstep; [ask_top|]. ask_top.
Qed.

Lemma triple_resume_take order rid Pre :
  triple bond_handler Pre (resume_take_after_bond settings order rid) top.
Proof.
  unfold resume_take_after_bond, update_order_event, cas_pretrade_order_status.
  tstep; [by tstep|]. tstep; [by tstep|]. tstep; [by tstep|].
  repeat case_match; try apply triple_show_hold_invoice.
  tstep; [apply triple_set_waiting|]. tstep; [by tstep|].
  tstep; [apply triple_update_event|]. tstep; [by tstep|].
  tstep; [tstep; [by apply triple_order_write|by tstep]|].
  tstep; [tstep; [apply triple_republish|by tstep]|by tstep].
Qed.

Lemma triple_promote order b Pre :
  triple bond_handler Pre (promote_taker_context_to_order order b) top.
Proof.
  unfold promote_taker_context_to_order, cas_promote_taker_context.
  tstep; [by tstep|]. tstep; [ask_top|]. cbv zeta. tstep; [|by tstep; tstep].
  tstep; [by tstep|]. tstep; [by apply triple_order_write|by tstep].
Qed.
End OrderHandlers.

(** ** Requesting and locking *)

Section LockHandlers.
Context `{HL : HexLaws} (settings : Settings).

(** The bond floor is an [i64] column of the configuration. *)
Hypothesis floor_i64 : forall cfg, get_bond settings = Some cfg -> base_amount_sats cfg <= i64_max.

(** A row as [Bond::new_requested] builds it, with its hold invoice. *)
Definition new_bond (b : Bond) : Prop :=
  has_state b Requested /\ 0 <= amount_sats b <= i64_max /\ slashed_share_sats b = 0 /\
  linked b /\ parent_bond_id b = None /\ payout_invoice b = None.

Lemma triple_bond_hold_invoice order pk role notional cfg Pre :
  get_bond settings = Some cfg ->
  triple bond_handler Pre (bond_hold_invoice settings order pk role notional cfg)
    (okP (fun v _ _ => new_bond v.1.1)).
Proof.
  intros Hcfg. unfold bond_hold_invoice. cbv zeta.
  apply triple_try_seq; [eapply triple_lnd_new, _|]. intros _.
  eapply triple_bind; [apply triple_create_hold_invoice|unfold okP; stab|]. intros created.
  eapply (triple_try _ _ _ _ (fun v _ _ => fresh_invoice v)); [|stab|].
  { apply triple_ret. intros tr db _ [_ Hf]. by destruct created. }
  intros [[bolt11 pre] h]. apply triple_seq; [ask_top|]. intros uuid.
  apply triple_seq; [ask_top|]. intros now. apply triple_ret.
  intros tr db _ [_ (Hh & Hb & Hlen)]. simpl in *. subst h. split_and!; try done.
  - by apply compute_bond_amount_range, floor_i64.
  - by apply compute_bond_amount_range, floor_i64.
  - unfold linked. simpl. exists pre.
    rewrite !from_hex_bytes by (done || apply sha256_bytes). done.
Qed.

Lemma triple_create_bond b Pre :
  (forall tr db, bonds_ok tr db -> Pre tr db -> new_bond b) ->
  triple bond_handler Pre (create_bond b) (okP (fun v tr db => snap v tr db /\ v = b)).
Proof.
  intros Hnew. unfold create_bond, sql_row.
  eapply (triple_bind _ _ _ _ (okP (fun r tr db =>
    match r with Ok v => snap v tr db /\ v = b | Err _ => True end))).
  - apply triple_write; [stab| |].
    + intros tr db Hdb _ Hp. destruct (Hnew tr db Hdb Hp) as (? & ? & ? & ? & ? & ?).
      by apply create_ok.
    + intros tr db Hdb _. unfold bond_create. destruct (bond_unique_violation b db); [done|].
      simpl. intros Hdb'. split; [|done]. apply snap_read; [done|]. simpl.
      apply in_or_app. right. by left.
  - intros [[v|e]|e]; unfold okP; stab.
  - intros [[v|e]|e]; apply triple_ret; by intros tr db _ [_ Hv].
Qed.

Lemma triple_subscribe h Pre : triple bond_handler Pre (bond_invoice_subscribe h) top.
Proof.
  unfold bond_invoice_subscribe. tstep; [eapply triple_lnd_new, _|]. tstep; [ask_top|by tstep].
Qed.

Lemma triple_ship order b bolt11 h fiat dest rid idx :
  triple bond_handler (fun tr db => snap b tr db /\ parent_bond_id b = None)
    (ship_bond_invoice order b bolt11 h fiat dest rid idx) top.
Proof.
  unfold ship_bond_invoice. tstep; [by tstep|]. cbv zeta.
  apply triple_seq; [apply triple_subscribe|]. intros [[]|e].
  - tstep; [ask_top|by tstep].
  - tstep; [apply triple_release_bond|by tstep].
Qed.

(** The configuration both requests start from. *)
Lemma triple_config {A} what (k : AntiAbuseBondSettings -> M (result A MostroError)) Pre :
  (forall cfg, get_bond settings = Some cfg -> triple bond_handler Pre (k cfg) top) ->
  triple bond_handler Pre (try (Ret (bond_config settings what)) k) top.
Proof.
  intros Hk. unfold bond_config. destruct (get_bond settings) as [cfg|].
  - exact (Hk cfg eq_refl).
  - exact (triple_ret _ Pre (Err _) top (fun _ _ _ _ => I)).
Qed.

Lemma new_root b : new_bond b -> parent_bond_id b = None.
Proof. by intros (_ & _ & _ & _ & ? & _). Qed.

Lemma triple_request_taker order pk rid ctx Pre :
  triple bond_handler Pre (request_taker_bond settings order pk rid ctx) top.
Proof.
  unfold request_taker_bond, update_order_event. apply triple_config. intros cfg Hcfg.
  eapply triple_top, triple_try; [by apply triple_bond_hold_invoice|stab|].
  intros [[b bolt11] h].
  eapply triple_try; [apply triple_create_bond; by intros tr db _ [_ Hn]|stab|].
  intros b'. apply triple_okP.
  eapply (triple_pre _ (fun tr db => snap b' tr db /\ parent_bond_id b' = None)).
  { intros tr db _ [[_ Hn] [Hs ->]]. split; [done|]. by apply new_root in Hn. }
  tstep; [apply triple_ship|]. tstep; [by apply triple_order_sql|]. cbv zeta.
  tstep; [|by tstep]. tstep; [ask_top|]. tstep; [apply triple_update_event|].
  tstep; [|by tstep]. tstep; [|by tstep]. tstep; [by apply triple_order_sql|by tstep].
Qed.

Lemma triple_request_maker order pk notional rid idx Pre :
  triple bond_handler Pre (request_maker_bond settings order pk notional rid idx) top.
Proof.
  unfold request_maker_bond. apply triple_config. intros cfg Hcfg.
  eapply triple_top, triple_try; [by apply triple_bond_hold_invoice|stab|].
  intros [[b bolt11] h].
  eapply triple_try; [apply triple_create_bond; by intros tr db _ [_ Hn]|stab|].
  intros b'. apply triple_okP.
  eapply (triple_pre _ (fun tr db => snap b' tr db /\ parent_bond_id b' = None)).
  { intros tr db _ [[_ Hn] [Hs ->]]. split; [done|]. by apply new_root in Hn. }
  tstep; [apply triple_ship|by tstep].
Qed.

Lemma triple_resubscribe Pre : triple bond_handler Pre resubscribe_active_bonds top.
Proof.
  unfold resubscribe_active_bonds. tstep; [eapply triple_any_query, _|].
  tstep; [|by tstep]. tstep. repeat (case_match; try by tstep).
  tstep; [apply triple_subscribe|by tstep].
Qed.

Lemma triple_notify_loser b Pre : triple bond_handler Pre (notify_loser b) top.
Proof. unfold notify_loser. case_match; by tstep. Qed.

Lemma triple_order_of_bond b Pre : triple bond_handler Pre (order_of_bond b) top.
Proof. unfold order_of_bond. tstep; [eapply triple_any_query, _|by tstep]. Qed.

Lemma has_hash_root tr b h : row_ok tr b -> hash b = Some h -> parent_bond_id b = None.
Proof.
  intros Hok Hh. destruct (parent_bond_id b) eqn:E; [exfalso|done].
  destruct (ro_child _ _ Hok) as [Hn _]; [by rewrite E|]. congruence.
Qed.

(** A row found by its hash. *)
Definition found_by (h : string) (o : option Bond) : assertion :=
  fun tr db => snap_opt o tr db /\ forall b, o = Some b -> hash b = Some h.

Lemma stable_found h o : stable bond_handler (found_by h o).
Proof. unfold found_by. stab. Qed.

Lemma found_releasable h b tr db :
  found_by h (Some b) tr db -> snap b tr db /\ parent_bond_id b = None.
Proof.
  intros [Hs Hh]. split; [by apply Hs|]. eapply has_hash_root; [by apply Hs|by apply Hh].
Qed.

Lemma triple_release_notify b Pre :
  (forall tr db, bonds_ok tr db -> Pre tr db -> snap b tr db /\ parent_bond_id b = None) ->
  triple bond_handler Pre (bind (release_bond b) (fun _ => notify_loser b)) top.
Proof.
  intros Hp. tstep; [|apply triple_notify_loser].
  eapply triple_pre; [|apply triple_release_bond]. auto.
Qed.

Lemma triple_maker_accepted b h rid :
  role_is Taker b = false ->
  triple bond_handler (snap b) (on_maker_bond_accepted b h rid) top.
Proof.
  intros Hr. unfold on_maker_bond_accepted. tstep; [ask_top|].
  tstep.
  - apply triple_db_write. intros tr db Hdb _ Hs. by apply lock_maker_ok.
  - tstep; [eapply triple_any_query, _|]. repeat (case_match; try by tstep).
    tstep; [apply triple_order_of_bond|]. tstep; [by tstep|]. tstep; [ask_top|].
    apply triple_resume_publish.
Qed.

Lemma triple_tear_down b Pre : triple bond_handler Pre (tear_down_losers b) top.
Proof.
  unfold tear_down_losers. eapply triple_bind; [eapply triple_active_for_order, _| |].
  - unfold okP. stab.
  - intros [l|e]; [|by tstep]. apply triple_for_each. intros c [Hin _]%filter_In.
    apply triple_release_notify. intros tr db Hdb [_ [Hs Ha]].
    split; [by apply Hs|]. eapply active_root; [by apply Hs|by apply Ha].
Qed.

Lemma triple_continue b h rid :
  triple bond_handler (found_by h (Some b)) (continue_take settings b rid) top.
Proof.
  unfold continue_take. tstep; [apply triple_order_of_bond|]. tstep.
  - tstep; [|by tstep]. tstep; [|by tstep]. apply triple_release_notify.
    intros tr db _. apply found_releasable.
  - tstep; [apply triple_promote|]. tstep; [ask_top|]. apply triple_resume_take.
Qed.

Lemma triple_accepted h rid Pre :
  triple bond_handler Pre (on_bond_invoice_accepted settings h rid) top.
Proof.
  unfold on_bond_invoice_accepted.
  eapply triple_top, (triple_try _ _ _ _ (found_by h)); [eapply triple_by_hash, _| |].
  { intros o. apply stable_found. }
  intros [b|]; apply triple_okP; [|by tstep].
  destruct (str_eqb (role b) (role_to_string Maker)) eqn:Er.
  { eapply triple_pre; [|apply triple_maker_accepted].
    - intros tr db _ [_ [Hs _]]. by apply Hs.
    - apply str_eqb_eq in Er. unfold role_is. by rewrite Er. }
  tstep; [ask_top|]. tstep.
  { apply triple_db_write. intros tr db Hdb _ [_ [Hs _]]. apply lock_taker_ok; [done|by apply Hs]. }
  eapply triple_top, (triple_try _ _ _ _ (found_by h)); [eapply triple_by_hash, _| |].
  { intros o. apply stable_found. }
  intros [c|]; apply triple_okP; [|by tstep]. case_match; [|by tstep].
  eapply (triple_pre _ (found_by h (Some c))); [by intros tr db _ [_ ?]|]. tstep.
  - tstep; [|tstep; [apply triple_notify_loser|by tstep]]. tstep; [|by tstep].
    tstep; [|by tstep]. eapply triple_pre; [|apply triple_release_bond].
    intros tr db _. apply found_releasable.
  - tstep; [tstep; [apply triple_tear_down|by tstep]|]. tstep; [by tstep|].
    apply triple_continue.
Qed.

Lemma triple_maybe_drop i Pre : triple bond_handler Pre (maybe_drop_waiting_taker_bond i) top.
Proof.
  unfold maybe_drop_waiting_taker_bond, drop_waiting_taker_bond_to_pending, update_order_event.
  tstep; [tstep; [by apply triple_order_write|by tstep]|]. tstep; [by tstep|].
  tstep; [eapply triple_any_query, _|]. tstep; [|by tstep]. tstep; [ask_top|].
  tstep; [apply triple_update_event|]. tstep; [|by tstep].
  tstep; [|by tstep]. tstep; [by apply triple_order_sql|by tstep].
Qed.

(** The cancellation callback runs on LND's word that the invoice is
    cancelled. *)
Lemma triple_canceled hb :
  Forall is_byte hb ->
  triple bond_handler (fun tr _ => cancelled hb tr = true)
    (on_bond_invoice_canceled (bytes_to_string hb)) top.
Proof.
  intros Hb. unfold on_bond_invoice_canceled.
  eapply triple_top, (triple_try _ _ _ _ (found_by (bytes_to_string hb)));
    [eapply triple_by_hash, _|intros o; apply stable_found|].
  intros [b|]; apply triple_okP; [|by tstep]. cbv zeta. tstep; [by tstep|].
  tstep; [ask_top|]. tstep; [|tstep; [apply triple_maybe_drop|by tstep]].
  apply triple_row_write. intros tr db Hdb Hlaw [Hc Hf].
  destruct (found_releasable _ _ _ _ Hf) as [Hs Hp]. apply release_stmt_ok; [done..|].
  right. exists hb. split; [|done]. unfold hash_bytes.
  rewrite (proj2 Hf b eq_refl), from_hex_bytes by done. done.
Qed.

Lemma triple_subscriber n hb rid Pre :
  Forall is_byte hb ->
  triple bond_handler Pre (bond_subscriber settings n hb rid) top.
Proof.
  intros Hb. revert Pre. induction n as [|n IH]; intros Pre; cbn [bond_subscriber]; [by tstep|].
  eapply (triple_bind _ _ _ _ (fun m tr _ => m = Some InvoiceCanceled -> cancelled hb tr = true)).
  - apply triple_ask; [apply _|done|stab|]. intros m tr db _ _ ->. simpl.
    by rewrite bool_decide_true by done.
  - stab.
  - intros [st|]; [|by tstep]. tstep; [|apply IH]. destruct st; try by tstep.
    + tstep; [|by tstep]. eapply triple_pre; [|by apply triple_canceled].
      intros tr db _ [_ Hc]. by apply Hc.
    + tstep; [apply triple_accepted|by tstep].
Qed.
End LockHandlers.

(** ** The winner's reply *)

Section ReplyHandler.
Context `{HL : HexLaws} (settings : Settings).

Lemma triple_ack S `{Friendly S} order action recipient share Pre :
  triple S Pre (enqueue_payout_ack order action recipient share) top.
Proof. unfold enqueue_payout_ack. case_match; by tstep. Qed.

Lemma triple_valid_invoice pr amount fee Pre :
  triple bond_handler Pre (is_valid_invoice settings pr amount fee) top.
Proof.
  unfold is_valid_invoice, validate_lightning_address, validate_bolt11_invoice,
    validate_payout_invoice. tstep.
  - tstep; [ask_top|]. by tstep; tstep.
  - tstep; [by tstep|]. cbv zeta. tstep.
    + tstep; [by tstep|]. tstep; [by tstep|]. tstep; [ask_top|]. by tstep; tstep.
    + tstep; [by tstep|]. tstep; [by tstep|]. tstep; [ask_top|]. by tstep; tstep.
Qed.

Lemma triple_apply_invoice b invoice now window Pre :
  triple bond_handler Pre (apply_payout_invoice b invoice now window) top.
Proof.
  unfold apply_payout_invoice. repeat (case_match; try by tstep).
  - tstep; [|by tstep]. apply triple_db_write. intros tr db Hdb _ _. by apply persist_invoice_ok.
  - tstep; [|by tstep]. apply triple_db_write. intros tr db Hdb _ _. by apply resurrect_ok.
Qed.

Lemma triple_recoverable o sender share Pre :
  triple bond_handler Pre (find_recoverable_bond_for_recipient o sender share) top.
Proof.
  unfold find_recoverable_bond_for_recipient. tstep; [eapply triple_any_query, _|].
  tstep; [by tstep|]. tstep; [eapply triple_any_query, _|]. tstep; [|by tstep].
  tstep; by tstep.
Qed.

Lemma triple_add_bond_invoice oid pr sender Pre :
  triple bond_handler Pre (add_bond_invoice_action settings oid pr sender) top.
Proof.
  unfold add_bond_invoice_action. tstep; [by tstep|]. tstep; [by tstep|]. cbv zeta.
  tstep; [apply triple_recoverable|]. tstep; [|by tstep]. tstep; [by tstep|]. tstep; [by tstep|].
  tstep; [apply triple_valid_invoice|]. tstep; [by tstep|]. tstep; [ask_top|].
  tstep; [apply triple_apply_invoice|]. case_match; try by tstep.
  all: unfold notify_invoice_received; tstep; [|by tstep].
  all: tstep; [eapply triple_any_query, _|]; repeat (case_match; try by tstep).
  all: eapply triple_ack, _.
Qed.
End ReplyHandler.
