(* ===== verification/TradeHandlers.v ===== *)
(** * Creating and taking orders, in the bond system

    Triples for [order_action], [take_sell_action] and [take_buy_action]: run
    among all other tasks, they touch bonds only through the requests of
    [BondLock]. *)

From S2P Require Import Prelude Float64 Config BondTypes BondMath Effects Model.
From S2P Require Import Lightning BondDb BondRelease BondSlash OrderDb BondLock BondPayout BondInv.
From S2P Require Import Triples BondHandlers Messages Users NewOrder Take.

Open Scope Z_scope.
Open Scope prog_scope.

Section TradeHandlers.
Context `{HL : HexLaws} `{Core} (settings : Settings).
Hypothesis floor_i64 :
  forall cfg, get_bond settings = Some cfg -> base_amount_sats cfg <= i64_max.

Lemma triple_other_row {R} (stmt : DB -> DB * result R string) Pre :
  (forall db, bonds (stmt db).1 = bonds db) -> triple bond_handler Pre (sql_row stmt) top.
Proof. intros Hb. unfold sql_row. tstep; [by apply triple_order_sql|by tstep]. Qed.

Lemma triple_store_index event i Pre : triple bond_handler Pre (store_trade_index event i) top.
Proof.
  unfold store_trade_index, update_user_trade_index. tstep; [|tstep; by tstep].
  tstep; [by tstep|]. tstep; [by tstep|]. tstep; [by apply triple_order_write|by tstep].
Qed.

Lemma triple_validate_invoice msg order Pre :
  triple bond_handler Pre (validate_invoice settings msg order) top.
Proof.
  unfold validate_invoice. tstep; [|by tstep]. tstep; [apply triple_valid_invoice|by tstep].
Qed.

Lemma triple_current_price code fiat Pre :
  triple bond_handler Pre (sats_at_current_price code fiat) top.
Proof. unfold sats_at_current_price, current_price. tstep; [ask_top|]. by tstep; tstep. Qed.

Lemma triple_notional order Pre :
  triple bond_handler Pre (maker_bond_notional_sats order) top.
Proof.
  unfold maker_bond_notional_sats. repeat (tstep; try by tstep); apply triple_current_price.
Qed.

Lemma triple_prepare new_order initiator idx ident trade Pre :
  triple bond_handler Pre (prepare_new_order settings new_order initiator idx ident trade) top.
Proof.
  unfold prepare_new_order, get_expiration_date. cbv zeta. tstep.
  - tstep; [ask_top|]. tstep; [by tstep|]. tstep; [ask_top|by tstep].
  - tstep; [ask_top|]. tstep; [ask_top|by tstep].
Qed.

Lemma triple_finalize order ident trade rid idx Pre :
  triple bond_handler Pre (finalize_order_publication order ident trade rid idx) top.
Proof.
  unfold finalize_order_publication. tstep; [ask_top|]. cbv zeta.
  tstep; [by apply triple_order_write|]. tstep; [ask_top|]. ask_top.
Qed.

Lemma order_create_bonds order db : bonds (order_create_stmt order db).1 = bonds db.
Proof. unfold order_create_stmt. by case_match. Qed.

Lemma triple_publish new_order initiator ident trade rid idx Pre :
  triple bond_handler Pre (publish_order settings new_order initiator ident trade rid idx) top.
Proof.
  unfold publish_order. tstep; [apply triple_prepare|]. tstep.
  - tstep; [apply triple_notional|]. tstep; [apply triple_other_row, order_create_bonds|].
    tstep; [by apply triple_request_maker|]. tstep; [by tstep|].
    tstep; [by apply triple_order_sql|by tstep].
  - tstep; [apply triple_other_row, order_create_bonds|]. apply triple_finalize.
Qed.

Lemma triple_quote order fiat Pre :
  triple bond_handler Pre (calculate_and_check_quote settings order fiat) top.
Proof.
  unfold calculate_and_check_quote, current_price. tstep.
  - tstep; [tstep; [ask_top|by tstep]|by tstep].
  - by repeat tstep.
Qed.

Lemma triple_quotes order l Pre :
  triple bond_handler Pre
    (try_fold l tt (fun _ fiat => calculate_and_check_quote settings order fiat)) top.
Proof.
  induction l as [|fiat l IH]; cbn [try_fold]; [by tstep|].
  tstep; [apply triple_quote|]. destruct a. exact IH.
Qed.

Lemma triple_order_action msg event Pre :
  triple bond_handler Pre (order_action settings msg event) top.
Proof.
  unfold order_action. tstep; [|by tstep]. tstep; [apply triple_validate_invoice|].
  do 5 (tstep; [by tstep|]). tstep; [apply triple_quotes|]. tstep; [by tstep|].
  tstep; [apply triple_store_index|]. apply triple_publish.
Qed.

(** ** Taking *)

Lemma triple_pending pk field status Pre :
  triple bond_handler Pre (has_pending_order_with_status pk field status) top.
Proof.
  unfold has_pending_order_with_status. tstep; [by tstep|]. eapply triple_any_query, _.
Qed.

Lemma triple_take_guards msg event pending kind_ok Pre :
  (forall pk P, triple bond_handler P (pending pk) top) ->
  triple bond_handler Pre (take_guards msg event pending kind_ok) top.
Proof.
  intros Hp. unfold take_guards, get_order.
  tstep; [tstep; [by tstep|tstep; [eapply triple_any_query, _|by tstep]]|].
  tstep; [apply Hp|]. tstep; [by tstep|]. tstep; [by tstep|]. tstep; [by tstep|].
  tstep; [ask_top|]. tstep; [by tstep|]. tstep; by tstep.
Qed.

Lemma triple_bond_guards order event rid Pre :
  triple bond_handler Pre (taker_bond_guards settings order event rid) top.
Proof.
  unfold taker_bond_guards. tstep; [by tstep|]. tstep; [eapply triple_any_query, _|].
  tstep; [by tstep|]. tstep; [|by tstep]. tstep; [|by tstep]. tstep; [by tstep|].
  cbv zeta. tstep; [ask_top|by tstep].
Qed.

Lemma triple_price_take order Pre : triple bond_handler Pre (price_take settings order) top.
Proof.
  unfold price_take, get_market_amount_and_fee, market_quote, current_price.
  tstep; [|by tstep]. tstep; [|by tstep]. tstep; [|by tstep]. tstep; [ask_top|].
  by tstep; tstep.
Qed.

Lemma triple_cashu_request buyer seller order rid Pre :
  triple bond_handler Pre (show_cashu_escrow_request buyer seller order rid) top.
Proof.
  unfold show_cashu_escrow_request, claim_order_status, update_order_event.
  tstep; [tstep; [by apply triple_order_write|by tstep]|]. tstep; [by tstep|]. cbv zeta.
  tstep; [apply triple_update_event|]. tstep; [by tstep|].
  tstep; [by apply triple_order_write|]. tstep; [ask_top|]. tstep; [ask_top|by tstep].
Qed.

Lemma triple_update_status order rid Pre :
  triple bond_handler Pre (update_order_status order rid) top.
Proof.
  unfold update_order_status, update_order_event, cas_complete_pretrade_take.
  tstep; [by tstep|]. tstep; [apply triple_set_waiting|]. tstep; [by tstep|].
  tstep; [apply triple_update_event|]. tstep; [by tstep|].
  tstep; [tstep; [by apply triple_order_write|by tstep]|]. tstep; [|by tstep].
  tstep; [apply triple_republish|by tstep].
Qed.

Lemma triple_take_sell msg event Pre :
  triple bond_handler Pre (take_sell_action settings msg event) top.
Proof.
  unfold take_sell_action. cbv zeta.
  tstep; [apply triple_take_guards; intros; apply triple_pending|].
  tstep; [apply triple_bond_guards|]. tstep; [by tstep|]. tstep; [by tstep|].
  tstep; [by tstep|]. tstep; [apply triple_price_take|].
  tstep; [unfold validate_buyer_invoice; tstep; [by tstep|apply triple_validate_invoice]|].
  tstep; [by tstep|]. tstep; [apply triple_store_index|]. tstep.
  - tstep; [by apply triple_request_taker|by tstep].
  - tstep; [ask_top|]. cbv zeta. tstep; [apply triple_cashu_request|].
    tstep; [apply triple_show_hold_invoice|apply triple_update_status].
Qed.

Lemma triple_take_buy msg event Pre :
  triple bond_handler Pre (take_buy_action settings msg event) top.
Proof.
  unfold take_buy_action. cbv zeta.
  tstep; [apply triple_take_guards; intros; apply triple_pending|].
  tstep; [apply triple_bond_guards|]. tstep; [by tstep|]. tstep; [by tstep|].
  tstep; [apply triple_price_take|]. tstep; [by tstep|].
  tstep; [by tstep|]. tstep; [apply triple_store_index|]. tstep.
  - tstep; [by apply triple_request_taker|by tstep].
  - tstep; [ask_top|]. cbv zeta. tstep; [apply triple_cashu_request|].
    tstep; [apply triple_show_hold_invoice|by tstep].
Qed.
End TradeHandlers.
