(* ===== verification/TradeTriples.v ===== *)
(** * The handlers of a running trade, in the bond system

    Most of a trade's messages touch no bond at all: [foreign] says so of a
    program, and [foreign_walk] checks it.  Cancelling, releasing, the solver's
    verdicts and the deadline jobs resolve bonds through the functions of
    [BondRelease] and [BondSlash]; their triples are composed here. *)

From Stdlib Require Import QArith_base.
From S2P Require Import Prelude Float64 Config BondTypes BondMath Effects Model.
From S2P Require Import Lightning BondDb BondRelease BondSlash OrderDb BondLock BondPayout BondInv.
From S2P Require Import Triples BondHandlers Messages Users NewOrder Take TradeHandlers.
From S2P Require Import OrderPayout Disputes TradeFlow Release CancelOrder AdminOrder Ratings TradeJobs.
From S2P Require Import Sessions Gate EventLoop Rpc.

Open Scope Z_scope.
Open Scope prog_scope.

(** ** Programs outside the bond subsystem *)

(** Whatever it is told, it rewrites no bond and sends no payment. *)
Fixpoint foreign {A} (p : M A) : Prop :=
  match p with
  | Ret _ => True
  | Sql stmt k => (forall db, bonds (stmt db).1 = bonds db) /\ forall r, foreign (k r)
  | Ext e k => (forall r, is_send (ObsExt e r) = false) /\ forall r, foreign (k r)
  end.

Lemma foreign_bind {A B} (p : M A) (f : A -> M B) :
  foreign p -> (forall a, foreign (f a)) -> foreign (bind p f).
Proof.
  intros Hp Hf. induction p as [a|R stmt k IH|R e k IH]; cbn in *.
  - apply Hf.
  - destruct Hp. split; auto.
  - destruct Hp. split; auto.
Qed.

Lemma foreign_try {A B E} (p : M (result A E)) (f : A -> M (result B E)) :
  foreign p -> (forall a, foreign (f a)) -> foreign (try p f).
Proof. intros Hp Hf. apply foreign_bind; [done|]. by intros [a|e]. Qed.

Lemma foreign_sql {R} (stmt : DB -> DB * R) :
  (forall db, bonds (stmt db).1 = bonds db) -> foreign (sql stmt).
Proof. done. Qed.

Lemma foreign_ask {R} (e : ext R) : (forall r, is_send (ObsExt e r) = false) -> foreign (ask e).
Proof. done. Qed.

Lemma foreign_each {X} (l : list X) (body : X -> M unit) :
  (forall x, foreign (body x)) -> foreign (for_each l body).
Proof. intros Hb. induction l; cbn; [done|]. by apply foreign_bind. Qed.

Ltac program_head t := lazymatch t with ?f _ => program_head f | _ => t end.

(** A statement on another table than [bonds]. *)
Ltac other_table :=
  intros;
  first [reflexivity
        |lazymatch goal with
         | |- bonds (?s _).1 = _ =>
             let h := program_head s in unfold h; repeat case_match; simplify_eq/=; reflexivity
         end].

Ltac foreign_walk :=
  repeat (intros; cbv zeta;
    lazymatch goal with
    | |- foreign (Ret _) => exact I
    | |- foreign (call _) => apply foreign_ask; reflexivity
    | |- foreign (sql _) => apply foreign_sql; other_table
    | |- foreign (try _ _) => apply foreign_try
    | |- foreign (bind _ _) => apply foreign_bind
    | |- foreign (for_each _ _) => apply foreign_each
    | |- foreign (match ?x with _ => _ end) => destruct x
    | |- foreign ?p => let h := program_head p in unfold h
    end).

Section Foreign.
Context `{Lib} `{Core} `{PayoutLib} (settings : Settings) (node_pubkey : string).

Lemma foreign_update_event s o : foreign (update_order_event s o).
Proof. foreign_walk. Qed.

Lemma foreign_fiat_sent msg event : foreign (fiat_sent_action msg event).
Proof. foreign_walk. Qed.

Lemma foreign_add_invoice msg event : foreign (add_invoice_action settings msg event).
Proof. foreign_walk. Qed.

Lemma foreign_dispute msg event : foreign (dispute_action msg event).
Proof. foreign_walk. Qed.

Lemma foreign_take_dispute msg event : foreign (admin_take_dispute_action node_pubkey msg event).
Proof. foreign_walk. Qed.

Lemma foreign_add_solver msg event : foreign (admin_add_solver_action node_pubkey msg event).
Proof. foreign_walk. Qed.

Lemma rating_tx_bonds i side k r db : bonds (rating_tx i side k r db).1 = bonds db.
Proof. unfold rating_tx, claim_order_rating_flag, update_orders. by repeat case_match. Qed.

Lemma foreign_rating msg event : foreign (update_user_reputation_action msg event).
Proof. foreign_walk. apply foreign_sql. intros. apply rating_tx_bonds. Qed.

Lemma foreign_paid hash rid : foreign (hold_invoice_paid hash rid).
Proof. foreign_walk. Qed.

Lemma foreign_canceled hash : foreign (hold_invoice_canceled settings hash).
Proof. foreign_walk. Qed.

Lemma foreign_trade_subscriber n hash rid : foreign (trade_subscriber settings n hash rid).
Proof.
  induction n as [|n IH]; cbn [trade_subscriber]; [done|].
  apply foreign_bind; [foreign_walk|]. intros [state|]; [|done].
  apply foreign_bind; [|done]. destruct state; foreign_walk.
Qed.

Lemma foreign_last_index msg event : foreign (last_trade_index_action msg event).
Proof. foreign_walk. Qed.

Lemma foreign_orders msg event : foreign (orders_action settings msg event).
Proof. foreign_walk. Qed.

Lemma foreign_restore event : foreign (restore_session_action event).
Proof. foreign_walk. Qed.

Lemma foreign_trade_pubkey msg event : foreign (trade_pubkey_action msg event).
Proof. foreign_walk. Qed.

Lemma foreign_accept e pow pfc kind gate : foreign (accept_event e pow pfc kind gate).
Proof. foreign_walk. Qed.

Lemma foreign_finalize_dispatch r msg event : foreign (finalize_dispatch r msg event).
Proof. foreign_walk. Qed.

(** The parts of the handlers below. *)
Lemma foreign_do_payment order rid : foreign (do_payment settings order rid).
Proof. foreign_walk. Qed.

Lemma foreign_close_dispute order status : foreign (close_dispute_after_user_resolution order status).
Proof. foreign_walk. Qed.

Lemma foreign_settle event admin order : foreign (settle_seller_hold_invoice event admin order).
Proof. foreign_walk. Qed.

Lemma foreign_get_child order : foreign (get_child_order order).
Proof. foreign_walk. Qed.

Lemma foreign_handle_child child order next rid : foreign (handle_child_order child order next rid).
Proof. foreign_walk. Qed.

Lemma foreign_return_escrow order : foreign (return_escrow order).
Proof. foreign_walk. Qed.

Lemma foreign_taker_inner event order rid : foreign (cancel_order_by_taker_inner event order rid).
Proof. foreign_walk. Qed.

Lemma foreign_assigned event order : foreign (check_assigned node_pubkey event order).
Proof. foreign_walk. Qed.

Lemma foreign_finalize d st i : foreign (finalize_dispute d st i).
Proof. foreign_walk. Qed.

Lemma foreign_fiat_guard order : foreign (guard_fiat_sent order).
Proof. foreign_walk. Qed.
End Foreign.

(** ** Handlers that resolve bonds *)

Section Resolving.
Context `{HL : HexLaws} `{Core} `{PayoutLib} (settings : Settings) (node_pubkey : string).

Lemma triple_foreign {A} (p : M A) Pre : foreign p -> triple bond_handler Pre p top.
Proof.
  revert Pre. induction p as [a|R stmt k IH|R e k IH]; intros Pre; cbn [foreign].
  - intros _. by tstep.
  - intros [Hb Hk]. change (Sql stmt k) with (bind (sql stmt) k).
    apply triple_seq; [by apply triple_order_sql|]. intros r. by apply IH.
  - intros [Hs Hk]. change (Ext e k) with (bind (ask e) k).
    apply triple_seq; [by apply triple_ask_top; [apply _|]|]. intros r. by apply IH.
Qed.

(** Sequencing of foreign parts and of bond functions with a known triple;
    [extra] closes further goals. *)
Ltac twalk_with extra :=
  repeat (intros; cbv zeta;
    first
      [ solve [extra]
      | solve [apply triple_ret; done]
      | tstep
      | solve [apply triple_release_takers_or_warn]
      | solve [apply triple_release_or_warn]
      | solve [apply triple_close_or_warn]
      | solve [apply triple_close]
      | solve [apply triple_validate]
      | solve [apply triple_apply_resolution]
      | solve [apply triple_timeout]
      | solve [apply triple_notify_slashed]
      | solve [apply triple_foreign; foreign_walk]
      | lazymatch goal with |- triple _ _ ?p _ => let h := program_head p in unfold h end ]).
Ltac twalk := twalk_with fail.

Lemma triple_release_action msg event Pre :
  triple bond_handler Pre (release_action settings msg event) top.
Proof. twalk. Qed.

Lemma triple_admin_settle msg event Pre :
  triple bond_handler Pre (admin_settle_action settings node_pubkey msg event) top.
Proof. twalk. Qed.

Lemma triple_admin_cancel msg event Pre :
  triple bond_handler Pre (admin_cancel_action settings node_pubkey msg event) top.
Proof. twalk. Qed.

Lemma triple_cancel_by_taker event order rid Pre :
  triple bond_handler Pre (cancel_order_by_taker event order rid) top.
Proof.
  eapply triple_top, triple_try.
  - apply (triple_find_row _ _ (fun b => active b)). intros db b Hb.
    assert (In b (select_ordered (fun b => N.eqb (order_id b) (o_id order) &&
      str_eqb (pubkey b) (u_sender event) && active_row b && is_none (parent_bond_id b))
      created_at (bonds db))) as [Hin Hp]%select_ordered_in.
    { destruct (select_ordered _ _ _); [done|]. injection Hb as ->. by left. }
    bool_prop. split; [done|]. by apply active_row_spec.
  - stab.
  - intros bond. apply triple_okP. tstep; [|twalk].
    destruct bond as [bond|]; [|by tstep]. tstep; [|by tstep].
    eapply triple_pre; [|apply triple_release_bond]. intros tr db _ [_ [Hs Ha]].
    split; [by apply Hs|]. eapply active_root; [by apply Hs|by apply Ha].
Qed.

Lemma triple_cancel_action msg event Pre :
  triple bond_handler Pre (cancel_action msg event) top.
Proof. twalk_with ltac:(apply triple_cancel_by_taker). Qed.

Lemma triple_forever ticks tick Pre :
  triple bond_handler Pre tick top -> triple bond_handler Pre (forever ticks tick) top.
Proof.
  intros Ht. induction ticks as [|n IH]; cbn [forever]; [by tstep|].
  tstep; [exact Ht|]. exact IH.
Qed.

Lemma triple_cancel_job ticks Pre : triple bond_handler Pre (job_cancel_orders settings ticks) top.
Proof. unfold job_cancel_orders. tstep; [twalk|]. tstep; [apply triple_forever|by tstep]. twalk. Qed.

Lemma triple_deadline_job ticks Pre :
  triple bond_handler Pre (job_enforce_escrow_deadline settings ticks) top.
Proof.
  unfold job_enforce_escrow_deadline. tstep; [twalk|]. tstep; [apply triple_forever|by tstep]. twalk.
Qed.

Lemma triple_expire_job ticks Pre :
  triple bond_handler Pre (job_expire_pending_older_orders settings ticks) top.
Proof. apply triple_forever. twalk. Qed.

(** ** The event loop *)

Hypothesis floor_i64 :
  forall cfg, get_bond settings = Some cfg -> base_amount_sats cfg <= i64_max.

(** Every handler, whatever the message says. *)
Lemma triple_handle a msg event Pre :
  triple bond_handler Pre (handle_message_action settings node_pubkey a msg event) top.
Proof.
  destruct a; cbn [handle_message_action handle_message_action_no_ln];
    lazymatch goal with
    | |- triple _ _ (order_action _ _ _) _ => by apply triple_order_action
    | |- triple _ _ (take_sell_action _ _ _) _ => by apply triple_take_sell
    | |- triple _ _ (take_buy_action _ _ _) _ => by apply triple_take_buy
    | |- triple _ _ (add_bond_invoice_action _ _ _ _) _ => apply triple_add_bond_invoice
    | |- triple _ _ (spawning (release_action _ _ _)) _ =>
        unfold spawning; tstep; [apply triple_release_action|by tstep]
    | |- triple _ _ (spawning (admin_settle_action _ _ _ _)) _ =>
        unfold spawning; tstep; [apply triple_admin_settle|by tstep]
    | |- triple _ _ (cancel_action _ _) _ => apply triple_cancel_action
    | |- triple _ _ (admin_cancel_action _ _ _ _) _ => apply triple_admin_cancel
    | |- _ =>
        apply triple_foreign;
        solve [apply foreign_fiat_sent|apply foreign_add_invoice|apply foreign_last_index
              |apply foreign_dispute|apply foreign_rating|apply foreign_add_solver
              |apply foreign_take_dispute|apply foreign_trade_pubkey|apply foreign_restore
              |apply foreign_orders|exact I]
    end.
Qed.

Lemma triple_turn kind gate Pre :
  triple bond_handler Pre
    (turn settings (handle_message_action settings node_pubkey) kind gate) top.
Proof.
  unfold turn, on_event. apply triple_seq; [apply triple_foreign; foreign_walk|intros event].
  apply triple_seq; [apply triple_foreign, foreign_accept|]. intros [g [[[a m] u]|]]; cbn [fst snd]; [|by apply triple_ret].
  apply triple_seq; [apply triple_handle|intros r].
  apply triple_seq; [apply triple_foreign, foreign_finalize_dispatch|]. intros []. by tstep.
Qed.

Lemma triple_call_admin {A} failed msg
    (action : Message -> UnwrappedMessage -> M (result A MostroError)) Pre :
  (forall event, triple bond_handler (fun _ _ => True) (action msg event) top) ->
  triple bond_handler Pre (call_admin node_pubkey failed msg action) top.
Proof.
  intros Ha. unfold call_admin. apply triple_seq; [apply triple_foreign; foreign_walk|intros now].
  apply triple_seq; [apply triple_foreign; foreign_walk|]. intros [[]|]; [|by apply triple_ret].
  apply triple_seq; [apply triple_pre with (fun _ _ => True); [done|apply Ha]|]. intros [|]; by apply triple_ret.
Qed.

Lemma triple_rpc_turn limiter Pre :
  triple bond_handler Pre (rpc_turn settings node_pubkey limiter) top.
Proof.
  unfold rpc_turn. apply triple_seq; [apply triple_foreign; foreign_walk|intros req].
  apply triple_seq; [|intros []; by apply triple_ret].
  destruct req; cbn [serve]; try (by apply triple_ret); [..|apply triple_foreign; foreign_walk];
    (destruct (operator_message _) as [[m|e]|]; [|by apply triple_ret..]);
    (apply triple_seq; [|intros []; by apply triple_ret]); cbn [admin_call];
    apply triple_call_admin; intros event.
  - apply triple_admin_cancel.
  - apply triple_admin_settle.
  - apply triple_foreign, foreign_add_solver.
  - apply triple_foreign, foreign_take_dispute.
Qed.
End Resolving.
