(* ===== verification/BondScheduler.v ===== *)
(** * The payout scheduler keeps the agreement

    [run_bond_payout_cycle] of [src/app/bond/payout.rs].  The scheduler is the
    only task that sends payouts and that takes a payout invoice off a row, so
    it owns the invoice of the row it works on; it drops that invoice only
    when LND has said that the payment failed. *)

From S2P Require Import Prelude Float64 Config BondTypes BondMath Effects Model.
From S2P Require Import Lightning BondDb BondRelease BondSlash OrderDb BondLock BondPayout BondInv Triples.
From S2P Require Import BondHandlers.

Open Scope Z_scope.

(** Case analysis on the test a program is at. *)
Ltac wp_case :=
  lazymatch goal with |- wp _ _ (match ?x with _ => _ end) _ => destruct x eqn:? end.

Section Scheduler.
Context `{HL : HexLaws} (settings : Settings).

(** ** What the scheduler knows of its row *)

Definition owns (i : Uuid) (pr : string) : assertion := fun _ db =>
  exists b, In b (bonds db) /\ id b = i /\ has_state b PendingPayout /\
            payout_invoice b = Some pr.

Definition dropped (pr : string) : assertion := fun tr _ =>
  forall h, pays pr h = true -> failed_since h tr = true.

Definition paid_for (pr : string) : assertion := fun tr _ =>
  exists h, pays pr h = true /\ paid h tr = true.

Lemma stable_owns j i pr : stable (bond_sched_at j) (owns i pr).
Proof.
  intros tr db o db' _ _ [_ [Hq _]] (b & Hb & Hi & Hs & Hp).
  destruct (Hq b pr Hb Hs Hp) as (b' & Hb' & Hi' & Hs' & Hp').
  exists b'. split_and!; [done|congruence|done|done].
Qed.

Lemma stable_dropped j pr : stable (bond_sched_at j) (dropped pr).
Proof.
  intros tr db o db' _ _ [_ [_ Hs]] Hd h Hh. apply failed_since_cons; [done|]. by apply Hd.
Qed.

Lemma stable_paid_for j pr : stable (bond_sched_at j) (paid_for pr).
Proof.
  intros tr db o db' _ _ _ (h & Hh & Hp). exists h. split; [done|]. by apply seen_cons.
Qed.

Lemma owns_row tr db i pr b :
  bonds_ok tr db -> owns i pr tr db -> In b (bonds db) -> id b = i ->
  has_state b PendingPayout /\ payout_invoice b = Some pr.
Proof.
  intros Hdb (b' & Hb' & Hi & Hs & Hp) Hb Hib.
  assert (b = b') as ->; [|done]. eapply ids_inj; [done..|congruence].
Qed.

(** ** Its own statements *)

Lemma wp_sched_write {R} i (stmt : DB -> DB * R) K (K' : result R string -> assertion) :
  (forall r, stable (bond_sched_at i) (K' r)) ->
  (forall tr db, bonds_ok tr db -> K tr db ->
     db_step tr db (stmt db).1 /\ touches i db (stmt db).1 /\
     K' (Ok (stmt db).2) tr (stmt db).1) ->
  (forall e tr db, bonds_ok tr db -> K tr db -> K' (Err e) tr db) ->
  wp (bond_sched_at i) K (sql stmt) K'.
Proof.
  intros HK' Hw He. apply wp_sql; [done| |].
  - intros tr db Hv HK Hl. destruct (Hw tr db Hv HK) as ([Hok Hr] & Ht & Hk).
    split; [split; [split; [by apply bonds_ok_cons|done]|done]|].
    destruct (soft_step (bond_sched_at i) tr (stmt db).1
      (ObsSql stmt (Ok (stmt db).2)) Hok Hl eq_refl) as [_ Hrely].
    by eapply HK'.
  - intros e tr db Hv HK Hl.
    destruct (soft_step (bond_sched_at i) tr db (ObsSql stmt (Err e)) Hv Hl eq_refl) as [Hg Hrely].
    split; [done|]. eapply HK'; eauto.
Qed.

(** A statement after which the scheduler knows nothing more. *)
Lemma wp_sched_last {R} i (stmt : DB -> DB * R) K :
  (forall tr db, bonds_ok tr db -> K tr db ->
     db_step tr db (stmt db).1 /\ touches i db (stmt db).1) ->
  wp (bond_sched_at i) K
    (try (sql_or_db_error stmt) (fun _ => Ret (Ok tt))) (fun _ => anything).
Proof.
  intros Hw. eapply (wp_bind _ _ _ _ (fun _ => anything)).
  - eapply (wp_bind _ _ _ _ (fun _ => anything)); [|intros r; by apply wp_ret].
    apply wp_sched_write; [intros r; apply kept_pure| |done].
    intros tr db Hv HK. destruct (Hw tr db Hv HK). done.
  - intros [v|e]; by apply wp_ret.
Qed.

Lemma wp_of_triple {A} S (p : M A) Pre Post K :
  stable S K -> (forall tr db, inv S tr db -> K tr db -> Pre tr db) ->
  triple S Pre p Post -> wp S K p (fun r tr db => K tr db /\ Post r tr db).
Proof. intros HK HP Ht. by apply Ht. Qed.

(** A program of reads and harmless requests. *)
Lemma wp_harmless {A} S (p : M A) K :
  triple S (fun _ _ => True) p top -> wp S K p (fun _ => anything).
Proof.
  intros Ht. eapply wp_mono; [| |apply (Ht anything)].
  - done.
  - done.
  - apply kept_pure.
  - done.
Qed.

Lemma inert_touches i p f db tr :
  bonds_ok tr db -> (forall b, p b = true -> id b = i) ->
  (forall b, In b (bonds db) -> p b = true -> inert b (f b)) ->
  db_step tr db (update_bonds p f db).1 /\ touches i db (update_bonds p f db).1.
Proof.
  intros Hdb Hp Hf. split; [by apply update_inert|by apply update_touches].
Qed.

(** Bookkeeping on the owned row keeps it owned. *)
Lemma inert_owns i p f db tr pr :
  bonds_ok tr db -> (forall b, In b (bonds db) -> p b = true -> inert b (f b)) ->
  owns i pr tr db -> owns i pr tr (update_bonds p f db).1.
Proof.
  intros Hdb Hf (b & Hb & Hi & Hs & Hp). exists (upd p f b).
  assert (Hin : In (upd p f b) (bonds (update_bonds p f db).1))
    by (simpl; apply in_update_where; eauto).
  unfold upd in *. destruct (p b) eqn:Ep; [|done].
  destruct (Hf b Hb Ep) as (Hfx & Est & Epi & _). fixed Hfx.
  split_and!; [done|congruence|unfold has_state in *; congruence|congruence].
Qed.

Lemma attempts_inert tr db n b :
  bonds_ok tr db -> In b (bonds db) -> inert b (b <| payout_attempts := n |>).
Proof.
  intros Hdb Hb. repeat split; [by left|]. apply (ro_share tr b). by apply Hdb.
Qed.

Lemma hash_inert tr db fee h b :
  bonds_ok tr db -> In b (bonds db) ->
  inert b (b <| payout_routing_fee_sats := fee |> <| payout_payment_hash := h |>).
Proof.
  intros Hdb Hb. repeat split; [by left|]. apply (ro_share tr b). by apply Hdb.
Qed.

(** ** The failed payment *)

Definition giving_up (i : Uuid) (pr : string) (kind : PaymentFailureKind) : assertion :=
  fun tr db => owns i pr tr db /\ (kind = Terminal -> dropped pr tr db).

Lemma stable_giving_up j i pr kind : stable (bond_sched_at j) (giving_up i pr kind).
Proof.
  apply kept_and; [apply stable_owns|]. apply kept_impl, stable_dropped.
Qed.

Lemma giving_up_droppable tr db i pr :
  bonds_ok tr db -> giving_up i pr Terminal tr db -> droppable i tr db.
Proof.
  intros Hdb [Ho Hd] b pr' h Hb Hi Hs Hp Hh.
  destruct (owns_row tr db i pr b) as [_ Hp']; [done..|]. simplify_eq. by apply Hd.
Qed.

Lemma wp_failure b pr max window kind cause :
  wp (bond_sched_at (id b)) (giving_up (id b) pr kind)
    (on_send_payment_failure b max window kind cause) (fun _ => anything).
Proof.
  unfold on_send_payment_failure. cbv zeta.
  eapply (wp_try _ _ _ _ (fun _ => giving_up (id b) pr kind)).
  - eapply (wp_bind _ _ _ _ (fun _ => giving_up (id b) pr kind));
      [|intros [v|e]; by apply wp_ret].
    apply wp_sched_write; [intros r; apply stable_giving_up| |done].
    intros tr db Hdb [Ho Hd]. unfold attempts_stmt.
    destruct (inert_touches (id b) (with_id_state (id b) PendingPayout)
      (fun b0 => b0 <| payout_attempts := Z.min (payout_attempts b + 1) max |>) db tr) as [H1 H2];
      [done|intros c; apply with_id_state_id|intros c Hc _; by eapply attempts_inert|].
    split_and!; [done|done|]. split; [|done].
    apply inert_owns; [done| |done]. intros c Hc _. by eapply attempts_inert.
  - intros _. case_match; [by apply wp_ret|]. case_match; [by apply wp_ret|].
    assert (kind = Terminal) as -> by (by destruct kind).
    eapply wp_bind.
    + eapply wp_of_triple; [apply stable_giving_up|done|].
      apply (triple_ask_top _ Now (giving_up (id b) pr Terminal)). done.
    + intros now. eapply (wp_pre _ (giving_up (id b) pr Terminal)); [by intros ? ? _ []|].
      case_match; apply wp_sched_last; intros tr db Hdb Hg;
        (split; [|apply update_touches; intros c; apply with_id_state_id]).
      * apply rearm_ok; [done|]. by eapply giving_up_droppable.
      * apply fail_ok; [done|]. by eapply giving_up_droppable.
Qed.

(** ** The successful payment *)

Lemma triple_payout_completed S `{Friendly S} b share Pre :
  triple S Pre (notify_payout_completed b share) top.
Proof.
  unfold notify_payout_completed. tstep; [eapply triple_any_query, _|].
  repeat (case_match; try by tstep). eapply triple_ack, _.
Qed.

Definition paying (i : Uuid) (pr : string) : assertion :=
  fun tr db => owns i pr tr db /\ paid_for pr tr db.

Lemma stable_paying j i pr : stable (bond_sched_at j) (paying i pr).
Proof. apply kept_and; [apply stable_owns|apply stable_paid_for]. Qed.

Lemma finalize_paid_ok tr db i pr :
  bonds_ok tr db -> paying i pr tr db ->
  db_step tr db (finalize_stmt i db).1 /\ touches i db (finalize_stmt i db).1.
Proof.
  intros Hdb [Ho Hp]. split; [|apply update_touches; intros c; apply with_id_state_id].
  apply finalize_ok; [done|]. intros b pr' Hb Hi Hs Hpi.
  destruct (owns_row tr db i pr b) as [_ Hpi']; [done..|]. simplify_eq.
  destruct (ro_meta tr b ltac:(by apply Hdb) PendingPayout Hs eq_refl ltac:(by left))
    as (t & r & n & _ & _ & Hn & _).
  exists n. split; [done|]. by right.
Qed.

Lemma wp_success b pr share n err :
  wp (bond_sched_at (id b)) (paying (id b) pr)
    (slash_after_success_loop n err b share) (fun _ => anything).
Proof.
  revert err. induction n as [|n IH]; intros err; cbn [slash_after_success_loop];
    [by apply wp_ret|].
  eapply (wp_bind _ _ _ _ (fun r => match r with
    | Ok _ => anything | Err _ => paying (id b) pr end)).
  - apply wp_sched_write.
    + intros [v|e]; [apply kept_pure|apply stable_paying].
    + intros tr db Hdb Hk. destruct (finalize_paid_ok tr db (id b) pr Hdb Hk). done.
    + done.
  - intros [v|e]; [|apply IH]. apply wp_harmless.
    tstep; [|by tstep]. tstep; [eapply triple_payout_completed, _|by tstep].
Qed.

(** ** Sending *)

Lemma bonds_ok_send tr db pr amt fee secs r :
  bonds_ok tr db -> (forall h, pays pr h = true -> attached h db) ->
  bonds_ok (ObsExt (LndSendPaymentV2 pr amt fee secs) r :: tr) db.
Proof.
  intros Hdb Ha. destruct Hdb. constructor; auto.
  - intros b Hb. by apply row_ok_cons, bo_rows.
  - intros h Hh. destruct (pays pr h) eqn:Ep; [left; by apply Ha|].
    simpl in *. rewrite Ep in Hh |- *. simpl in *. by apply bo_payments.
Qed.

Lemma owns_attached i pr h tr db : owns i pr tr db -> pays pr h = true -> attached h db.
Proof.
  intros (b & Hb & _ & Hs & Hp) Hh. exists b, pr. split_and!; [done|done|done|by left].
Qed.

(** What a verdict tells about the payment of the owned invoice. *)
Definition verdict_ok (i : Uuid) (pr : string) (v : SendVerdict) : assertion :=
  match v with
  | Settled => paying i pr
  | Failure kind _ => giving_up i pr kind
  end.

Lemma stable_verdict j i pr v : stable (bond_sched_at j) (verdict_ok i pr v).
Proof. destruct v; [apply stable_paying|apply stable_giving_up]. Qed.

Lemma pays_decoded pr inv : bolt11_from_str pr = Some inv -> pays pr (payment_hash inv) = true.
Proof. intros E. unfold pays. rewrite E. by apply bool_decide_true. Qed.

Lemma pays_hash pr inv h :
  bolt11_from_str pr = Some inv -> pays pr h = true -> h = payment_hash inv.
Proof. unfold pays. intros -> Hd. by bool_prop. Qed.

Lemma wp_send i pr share :
  wp (bond_sched_at i) (owns i pr) (send_and_drain settings pr share) (verdict_ok i pr).
Proof.
  unfold send_and_drain, send_payment, decode_invoice.
  assert (Hind : forall e tr db, bonds_ok tr db -> owns i pr tr db ->
    verdict_ok i pr (classify_send_verdict (Ok (Err e)) StreamEnded) tr db).
  { intros e tr db _ Ho. simpl. by split. }
  destruct (bolt11_from_str pr) as [inv|] eqn:Ed; [|apply wp_ret; intros tr db; apply Hind].
  eapply (wp_bind _ _ _ _ (fun r tr db => match r with
    | Err _ => owns i pr tr db
    | Ok s => owns i pr tr db /\
        match drain (ps_updates s) with
        | StreamSucceeded => paid_for pr tr db
        | StreamFailed _ => dropped pr tr db
        | StreamEnded => True
        end end)).
  2:{ intros [s|e]; apply wp_ret; intros tr db Hv Hk; [|by apply Hind].
      destruct Hk as [Ho Hk]. unfold classify_send_verdict. destruct (drain _); simpl.
      - by split.
      - by split.
      - destruct (ps_elapsed s); simpl; by split. }
  cbn [ok_or]. unfold try at 1. cbn [bind]. apply (wp_bind _ _ _ _ (fun _ => owns i pr)).
  { eapply wp_post; [|eapply (wp_of_triple _ _ (owns i pr) top)].
    - by intros a tr db _ [].
    - apply stable_owns.
    - done.
    - apply (triple_ask_top (bond_sched_at i)
        (LndTrackPaymentBounded (payment_hash inv) DUPLICATE_GUARD_LOOKUP_TIMEOUT)). done. }
  intros guard. wp_case; [by apply wp_ret|]. wp_case; [by apply wp_ret|].
  set (amt := match amount_milli_satoshis inv with Some _ => _ | None => _ end).
  set (e := LndSendPaymentV2 _ _ _ _).
  apply (wp_bind _ _ _ _ (fun r tr db => owns i pr tr db /\
    match r with
    | Ok s => match drain (ps_updates s) with
        | StreamSucceeded => paid_for pr tr db
        | StreamFailed _ => dropped pr tr db
        | StreamEnded => True
        end
    | Err _ => True end)).
  2:{ intros [s|err]; apply wp_ret; [done|]. by intros tr db _ []. }
  apply wp_call.
  - intros [s|err]; apply kept_and; try apply stable_owns; try apply kept_pure.
    destruct (drain _); [apply stable_paid_for|apply stable_dropped|apply kept_pure].
  - intros r tr db Hv Ho Hl. split_and!.
    + split; [split|].
      * apply bonds_ok_send; [done|]. intros h. by eapply owns_attached.
      * by eapply rows_step_refl.
      * by intros b.
    + done.
    + destruct r as [s|err]; [|done]. destruct (drain (ps_updates s)) eqn:Edr; [| |done].
      * exists (payment_hash inv). split; [by apply pays_decoded|].
        simpl. by rewrite (pays_decoded pr inv Ed), Edr.
      * intros h Hh. apply (pays_hash pr inv h Ed) in Hh. subst h.
        simpl. by rewrite (pays_decoded pr inv Ed), Edr.
Qed.

(** ** One row *)

Definition reconciled_ok (i : Uuid) (pr : string) (r : Reconciled) : assertion :=
  match r with
  | RPaid => paying i pr
  | RFailed => giving_up i pr Terminal
  | RInFlight | RUnknown => owns i pr
  end.

Lemma wp_reconcile b pr inv :
  bolt11_from_str pr = Some inv ->
  wp (bond_sched_at (id b)) (owns (id b) pr) (reconcile_payout b (payment_hash inv))
    (reconciled_ok (id b) pr).
Proof.
  intros Ed. unfold reconcile_payout, lookup_payment_status.
  wp_case; [|by apply wp_ret]. wp_case; [|by apply wp_ret].
  set (h := payment_hash inv).
  apply (wp_bind _ _ _ _ (fun st tr db => owns (id b) pr tr db /\
    (st = Ok (Some PSucceeded) -> paid h tr = true) /\
    (st = Ok (Some PFailed) -> failed_since h tr = true))).
  - apply (wp_bind _ _ _ _ (fun r tr db => owns (id b) pr tr db /\
      (tracked r PSucceeded = true -> paid h tr = true) /\
      (tracked r PFailed = true -> failed_since h tr = true))).
    + eapply (wp_of_triple _ _ (owns (id b) pr)); [apply stable_owns|done|].
      apply triple_ask; [apply _|done| |].
      * intros r. apply kept_and; apply kept_impl; [apply stable_seen|].
        intros tr db o db' _ _ [_ [_ Hs]] Hf. by apply failed_since_cons.
      * intros r tr db _ _. unfold h. split; intros Ht; simpl; by rewrite bool_decide_true, Ht by done.
    + intros r. apply wp_ret. intros tr db _ (Ho & H1 & H2). split_and!; [done| |];
        intros E; [apply H1|apply H2]; destruct r as [[[[]|]|]|]; simpl in *; try done; by case_match.
  - intros st. apply wp_ret. intros tr db _ (Ho & H1 & H2).
    assert (Hpaid : st = Ok (Some PSucceeded) -> paying (id b) pr tr db).
    { intros E. split; [done|]. exists h. split; [by apply pays_decoded|by apply H1]. }
    assert (Hfail : st = Ok (Some PFailed) -> giving_up (id b) pr Terminal tr db).
    { intros E. split; [done|]. intros _ h' Hh. rewrite (pays_hash pr inv h' Ed Hh). by apply H2. }
    destruct st as [[[]|]|]; simpl; auto.
Qed.

Lemma wp_pay b pr max window :
  wp (bond_sched_at (id b)) (owns (id b) pr)
    (pay_counterparty settings b pr max window) (fun _ => anything).
Proof.
  unfold pay_counterparty. destruct (counterparty_share_sats b) as [share|e]; [|by apply wp_ret].
  unfold try at 1. cbn [bind]. unfold decode_invoice.
  destruct (bolt11_from_str pr) as [inv|] eqn:Ed; cbn [ok_or].
  2:{ eapply wp_pre; [|apply wp_failure]. intros tr db _ Ho. split; [done|].
      intros _ h Hh. unfold pays in Hh. by rewrite Ed in Hh. }
  eapply wp_bind; [by apply wp_reconcile|]. intros [].
  - apply wp_success.
  - apply wp_failure.
  - by apply wp_ret.
  - cbn [reconciled_ok].
    eapply (wp_try _ _ _ _ (fun _ => owns (id b) pr)).
    + eapply (wp_bind _ _ _ _ (fun _ => owns (id b) pr)); [|intros [v|e]; by apply wp_ret].
      apply wp_sched_write; [intros r; apply stable_owns| |done].
      intros tr db Hdb Ho. unfold persist_hash_stmt.
      match goal with |- context [update_bonds ?p ?f db] =>
        destruct (inert_touches (id b) p f db tr) as [H1 H2];
        [done|intros c; apply with_id_state_id|intros c Hc _; by eapply hash_inert|];
        pose proof (inert_owns (id b) p f db tr pr) as H3 end.
      split_and!; [done|done|]. apply H3; [done| |done]. intros c Hc _. by eapply hash_inert.
    + intros rows. wp_case; [by apply wp_ret|].
      eapply wp_bind; [apply wp_send|]. intros [|kind cause]; [apply wp_success|apply wp_failure].
Qed.

Lemma wp_try_pure {A B E} S K (r : result A E) (f : A -> M (result B E)) :
  (forall v, r = Ok v -> wp S K (f v) (fun _ => anything)) ->
  wp S K (try (Ret r) f) (fun _ => anything).
Proof. intros Hf. destruct r as [v|e]; [by apply Hf|by apply wp_ret]. Qed.

Lemma wp_request b window K :
  wp (bond_sched_at (id b)) K (request_payout_invoice b window) (fun _ => anything).
Proof.
  unfold request_payout_invoice.
  assert (Hbump : forall now k,
    triple (bond_sched_at (id b)) (fun _ _ => True) k top ->
    wp (bond_sched_at (id b)) anything
      (try (sql_or_db_error (request_bump_stmt (id b) now)) (fun rows =>
         if rows =? 0 then Ret (Ok tt) else k)) (fun _ : result unit MostroError => anything)).
  { intros now k Hk. eapply (wp_try _ _ _ _ (fun _ => anything)).
    - eapply (wp_bind _ _ _ _ (fun _ => anything)); [|intros [v|e]; by apply wp_ret].
      apply wp_sched_write; [intros r; apply kept_pure| |done].
      intros tr db Hdb _. unfold request_bump_stmt.
      match goal with |- context [update_bonds ?p ?f db] =>
        destruct (inert_touches (id b) p f db tr) as [H1 H2];
        [done|intros c; apply with_id_state_id| |done] end.
      intros c Hc _. repeat split; [by left|]. apply (ro_share tr c). by apply Hdb.
    - intros rows. wp_case; [by apply wp_ret|]. by apply wp_harmless. }
  apply (wp_pre _ anything); [done|].
  apply (wp_bind _ _ _ _ (fun _ => anything));
    [apply wp_harmless; apply (triple_ask_top (bond_sched_at (id b)) Now); done|].
  intros now. cbv zeta. wp_case; [by apply wp_ret|].
  apply (wp_try _ _ _ _ (fun _ => anything));
    [eapply wp_post; [|apply wp_harmless, triple_any_query, _]; by intros [|] ? ? _ _|].
  intros [order|]; [|by apply wp_ret].
  apply wp_try_pure. intros _ _. apply wp_try_pure. intros [recipient|] _; [|by apply wp_ret].
  do 3 (apply wp_try_pure; intros ? _).
  apply Hbump. tstep; [ask_top|by tstep].
Qed.

Definition at_row (b : Bond) : assertion := fun tr db =>
  snap b tr db /\ has_state b PendingPayout /\
  forall pr, payout_invoice b = Some pr -> owns (id b) pr tr db.

Lemma stable_at_row j b : stable (bond_sched_at j) (at_row b).
Proof.
  apply kept_and; [apply stable_snap, _|]. apply kept_and; [apply kept_pure|].
  apply kept_all. intros pr. apply kept_impl, stable_owns.
Qed.

Lemma share_nonpositive b s :
  counterparty_share_sats b = Ok s -> s <= 0 ->
  exists n, node_share_sats b = Some n /\ amount_sats b - n <= 0.
Proof.
  unfold counterparty_share_sats. destruct (node_share_sats b) as [n|]; [|done].
  case_match; [|done]. intros [= <-] Hs. eauto.
Qed.

Lemma wp_process b :
  wp (bond_sched_at (id b)) (at_row b) (process_one_bond settings b) (fun _ => anything).
Proof.
  unfold process_one_bond, forfeit_bond, finalize_node_only.
  apply (wp_try _ _ _ _ (fun _ => at_row b)).
  { eapply wp_post; [|eapply (wp_of_triple _ _ (at_row b) top); [apply stable_at_row|done|]].
    - intros [v|e] tr db _ [Hk _]; done.
    - unfold child_payout_blocked_by_locked_parent. tstep; [|by tstep].
      tstep; [eapply triple_any_query, _|by tstep; tstep]. }
  intros blocked. wp_case; [by apply wp_ret|].
  eapply wp_bind.
  { eapply (wp_of_triple _ _ (at_row b) top); [apply stable_at_row|done|].
    apply (triple_ask_top (bond_sched_at (id b)) Now). done. }
  intros now. eapply (wp_pre _ (at_row b)); [by intros ? ? _ []|].
  destruct (slashed_at b) as [t|]; [|by apply wp_ret]. unfold try at 1. cbn [bind].
  wp_case.
  { apply wp_sched_last. intros tr db Hdb _. split; [by apply forfeit_ok|].
    apply update_touches. intros c [Hc _]%andb_true_iff. by eapply with_id_state_id. }
  destruct (counterparty_share_sats b) as [share|e] eqn:Es; [|by apply wp_ret].
  unfold try at 1. cbn [bind]. wp_case.
  - bool_prop. destruct (share_nonpositive b share Es) as (n & Hn & Hle); [done|].
    apply wp_sched_last. intros tr db Hdb (Hs & Hst & _).
    split; [|apply update_touches; intros c; apply with_id_state_id].
    apply finalize_ok; [done|]. intros c pr Hc Hi _ _.
    destruct (snap_row b tr db c Hdb Hs Hc Hi) as [Hf Hk]. destruct (Hk _ Hst eq_refl) as [_ Hns].
    fixed Hf. exists n. split; [congruence|left; lia].
  - destruct (payout_invoice b) as [pr|] eqn:Ep; [|apply wp_request].
    eapply wp_pre; [|apply wp_pay]. intros tr db _ (_ & _ & Ho). by apply Ho.
Qed.

(** ** The cycle *)

#[local] Instance friendly_cycle : Friendly bond_sched.
Proof. split; try done; [by intros tr db o db' []|by intros tr db o []]. Qed.

Definition queue (l : list Bond) : assertion := fun tr db =>
  NoDup (map id l) /\ forall b, In b l -> at_row b tr db.

(** The rows still to come, seen from work on row [i]. *)
Definition others (i : Uuid) (l : list Bond) : assertion := fun tr db =>
  forall b, In b l -> id b <> i -> at_row b tr db.

Lemma others_kept i l : kept (bond_sched_at i) (guar (bond_sched_at i)) (others i l).
Proof.
  intros tr db o db' Hv Hl [Hg Ht] Ho b Hb Hi. destruct (Ho b Hb Hi) as (Hs & Hst & Hown).
  split_and!; [|done|].
  - destruct Hg as [Hok Hr]. destruct Hs as (Hro & c & Hc & Hf & Hk).
    split; [by apply row_ok_cons|]. exists c. split_and!; [|done|done].
    apply Ht; [done|]. fixed Hf. congruence.
  - intros pr Hp. destruct (Hown pr Hp) as (c & Hc & Hci & Hcs & Hcp).
    exists c. split_and!; [|done|done|done]. apply Ht; [done|congruence].
Qed.

Lemma stable_others j i l : stable (bond_sched_at j) (others i l).
Proof.
  apply kept_all. intros b. apply kept_impl, kept_impl, stable_at_row.
Qed.

Lemma wp_cycle_body b l :
  wp bond_sched (queue (b :: l))
    (bind (process_one_bond settings b) (fun _ => Ret tt)) (fun _ => queue l).
Proof.
  apply (wp_restrict _ (fun _ db _ db' => touches (id b) db db')).
  eapply (wp_mono _ (fun tr db => at_row b tr db /\ (others (id b) l tr db /\ NoDup (map id (b :: l)))) _ _
    (fun _ tr db => anything tr db /\ (others (id b) l tr db /\ NoDup (map id (b :: l))))).
  - intros tr db _ [Hnd Hq]. split_and!; [apply Hq; by left| |done].
    intros c Hc _. apply Hq. by right.
  - intros [] tr db _ (_ & Ho & Hnd). simpl in Hnd. apply NoDup_cons in Hnd as [Hx Hnd].
    split; [done|]. intros c Hc. apply Ho; [done|]. intros E. apply Hx.
    apply list_elem_of_In. rewrite <- E. by apply in_map.
  - apply wp_frame.
    + apply kept_and; [apply stable_others|apply kept_pure].
    + apply kept_and; [apply others_kept|apply kept_pure].
    + eapply wp_bind; [apply wp_process|]. intros r. by apply wp_ret.
Qed.

Lemma wp_cycle : wp bond_sched anything (run_bond_payout_cycle settings) (fun _ => anything).
Proof.
  unfold run_bond_payout_cycle, find_bonds_by_state.
  apply (wp_bind _ _ _ _ (okP queue)).
  - eapply wp_post; [|apply (triple_query bond_sched (bonds_by_state PendingPayout) anything queue)].
    + by intros a tr db _ [].
    + intros l. apply kept_and; [apply kept_pure|]. apply kept_all. intros b.
      apply kept_impl, (stable_at_row (id b)).
    + intros tr db Hdb _. split; [by apply select_ordered_nodup, Hdb|].
      intros b [Hb Hs%has_state_is]%select_ordered_in.
      split_and!; [by apply snap_read|done|]. intros pr Hp. by exists b.
    + apply kept_pure.
    + done.
  - intros [l|e]; [|by apply wp_ret]. eapply wp_post; [|apply (wp_for_each _ _ queue)].
    + done.
    + intros b l'. apply wp_cycle_body.
Qed.

Lemma wp_ticks n : wp bond_sched anything (payout_ticks settings n) (fun _ => anything).
Proof.
  induction n as [|n IH]; cbn [payout_ticks]; [by apply wp_ret|].
  eapply wp_bind; [apply wp_cycle|]. by intros [].
Qed.

Lemma wp_job tries ticks :
  wp bond_sched anything (job_process_bond_payouts settings tries ticks) (fun _ => anything).
Proof.
  unfold job_process_bond_payouts. induction tries as [|n IH]; cbn [job_connect]; [by apply wp_ret|].
  apply (wp_bind _ _ _ _ (fun _ => anything)).
  - apply wp_harmless. eapply triple_lnd_new, _.
  - intros [v|e]; [apply wp_ticks|apply IH].
Qed.
End Scheduler.
