(* ===== verification/BondSafety.v ===== *)
(** * Safety of the bond subsystem under every interleaving

    The daemon as a transition system: the payout scheduler, any number of
    concurrent bond handlers and of other tasks, arbitrary lawful answers from
    LND, SQL failures at any statement, crashes at any await point.  The
    theorems speak about every state reachable from an empty [bonds] table. *)

From S2P Require Import Prelude Float64 Config BondTypes BondMath Effects Model.
From S2P Require Import Lightning BondDb BondRelease BondSlash OrderDb BondLock BondPayout BondInv.
From S2P Require Import Messages Users NewOrder Take Gate TradeFlow TradeJobs EventLoop Rpc.
From S2P Require Import Triples BondHandlers TradeHandlers TradeTriples BondScheduler Demo.

Open Scope Z_scope.
Open Scope prog_scope.

(** ** The tasks of the daemon *)

Definition detach {A} (p : M A) : M unit := bind p (fun _ => Ret tt).

Section Tasks.
Context `{Lib} `{Core} `{PayoutLib} (settings : Settings).

(** The entry points: turns of the event loop, operator calls, the two
    subscribers and the jobs, the bond functions by themselves with arbitrary arguments, and
    anything outside the bond subsystem. *)
Inductive bond_task : M unit -> Prop :=
| task_foreign p : foreign p -> bond_task p
| task_turn node kind gate :
    bond_task (detach (turn settings (handle_message_action settings node) kind gate))
| task_rpc node limiter : bond_task (detach (rpc_turn settings node limiter))
| task_trade_subscriber n hash rid : bond_task (trade_subscriber settings n hash rid)
| task_cancel_job ticks : bond_task (job_cancel_orders settings ticks)
| task_deadline_job ticks : bond_task (job_enforce_escrow_deadline settings ticks)
| task_expire_job ticks : bond_task (job_expire_pending_older_orders settings ticks)
| task_request_taker order pk rid ctx :
    bond_task (detach (request_taker_bond settings order pk rid ctx))
| task_request_maker order pk notional rid idx :
    bond_task (detach (request_maker_bond settings order pk notional rid idx))
| task_resubscribe : bond_task (detach resubscribe_active_bonds)
| task_subscriber n hash rid :
    Forall is_byte hash -> bond_task (bond_subscriber settings n hash rid)
| task_maybe_drop i : bond_task (detach (maybe_drop_waiting_taker_bond i))
| task_release order retain : bond_task (detach (release_active_bonds order retain))
| task_close order : bond_task (resolve_range_maker_bond_at_close_or_warn order)
| task_reconcile ticks : bond_task (job_reconcile_stranded_maker_bonds ticks)
| task_validate order resolution : bond_task (detach (validate_bond_resolution order resolution))
| task_resolution order resolution reason :
    bond_task (detach (apply_bond_resolution settings order resolution reason))
| task_timeout order cfg : bond_task (detach (slash_or_release_on_timeout settings order cfg))
| task_notify order bond : bond_task (notify_bond_slashed order bond)
| task_invoice msg_id msg_pr sender :
    bond_task (detach (add_bond_invoice_action settings msg_id msg_pr sender)).

Inductive payout_job : M unit -> Prop :=
| job_running tries ticks : payout_job (job_process_bond_payouts settings tries ticks)
| job_idle : payout_job (Ret tt).

Definition daemon_step : Sys DB ext -> Sys DB ext -> Prop := sys_step bond_task payout_job lawful.

(** From a database without bonds, before anything happened. *)
Definition booted (s : Sys DB ext) : Prop :=
  bonds (s_db s) = [] /\ s_trace s = [] /\ threads s = [] /\ payout_job (sched s).

Definition reachable (s : Sys DB ext) : Prop := exists s0, booted s0 /\ rtc daemon_step s0 s.
End Tasks.

(** ** The invariant holds in every reachable state *)

Section Safety.
Context `{HL : HexLaws} `{HC : Core} `{HP : PayoutLib} (settings : Settings).
Hypothesis floor_i64 :
  forall cfg, get_bond settings = Some cfg -> base_amount_sats cfg <= i64_max.

Lemma triple_wp (p : M unit) :
  triple bond_handler (fun _ _ => True) p top -> wp bond_handler anything p (fun _ => anything).
Proof.
  intros Ht. eapply wp_post; [|apply Ht; [apply kept_pure|done]]. done.
Qed.

Lemma triple_detach {A} (p : M A) :
  triple bond_handler (fun _ _ => True) p top ->
  triple bond_handler (fun _ _ => True) (detach p) top.
Proof. intros Ht. unfold detach. tstep; [exact Ht|]. by tstep. Qed.

Lemma task_ok p : bond_task settings p -> wp bond_handler anything p (fun _ => anything).
Proof.
  intros Hp. apply triple_wp.
  destruct Hp; try apply triple_detach;
    eauto using triple_foreign, foreign_trade_subscriber, triple_turn, triple_rpc_turn, triple_cancel_job,
      triple_deadline_job, triple_expire_job,
      triple_request_taker, triple_request_maker, triple_resubscribe,
      triple_subscriber, triple_maybe_drop, triple_release_active, triple_close_or_warn,
      triple_job_reconcile, triple_validate, triple_apply_resolution, triple_timeout,
      triple_notify_slashed, triple_add_bond_invoice.
Qed.

Lemma job_ok p : payout_job settings p -> wp bond_sched anything p (fun _ => anything).
Proof. destruct 1; [apply wp_job|]. by apply wp_ret. Qed.

Lemma guarantee_keeps_invariant : kept bond_handler (rely bond_handler) bonds_ok.
Proof. intros tr db o db' _ _ [[[] _]|[]]; done. Qed.

Lemma booted_ok s : booted settings s -> sys_ok lawful bonds_ok G_handler G_sched s.
Proof.
  destruct s as [sc ts db tr]. intros (Hb & Ht & Hts & Hsc). simpl in *. subst.
  apply (sys_start _ _ _ _ (payout_job settings)); [exact job_ok| |done].
  constructor; rewrite ?Hb; [constructor|done..].
Qed.

Lemma reachable_sys s : reachable settings s -> sys_ok lawful bonds_ok G_handler G_sched s.
Proof.
  intros (s0 & Hb & Hr).
  eapply sys_safe; [apply guarantee_keeps_invariant|apply task_ok|apply job_ok|
                    by apply booted_ok|exact Hr].
Qed.

Lemma reachable_ok s : reachable settings s -> bonds_ok (s_trace s) (s_db s).
Proof. intros Hr. apply (reachable_sys s Hr). Qed.

Lemma step_lawful s s' :
  daemon_step settings s s' -> lawful (s_trace s) -> lawful (s_trace s').
Proof. by destruct 1. Qed.

Lemma reachable_lawful s : reachable settings s -> lawful (s_trace s).
Proof.
  intros (s0 & (_ & Ht & _) & Hr).
  assert (lawful (s_trace s0)) as Hl by by rewrite Ht. clear Ht.
  induction Hr as [|s1 s2 s3 H12 _ IH]; [done|]. by apply IH, (step_lawful s1).
Qed.

Lemma reachable_step s s' : reachable settings s -> daemon_step settings s s' -> reachable settings s'.
Proof. intros (s0 & Hb & Hr) Hs. exists s0. split; [done|]. by eapply rtc_r. Qed.

Lemma reachable_steps s s' :
  reachable settings s -> rtc (daemon_step settings) s s' -> reachable settings s'.
Proof. intros (s0 & Hb & Hr) Hs. exists s0. split; [done|]. by etrans. Qed.

(** Every row is where it was, one step further. *)
Lemma step_rows s s' :
  reachable settings s -> daemon_step settings s s' -> rows_step (s_db s) (s_db s').
Proof.
  intros Hr Hs.
  destruct (sys_step_ok _ _ _ _ _ _ guarantee_keeps_invariant task_ok job_ok s s'
              (reachable_sys s Hr) Hs) as [_ [[_ ->]|(o & _ & _ & Hrel)]].
  - eapply rows_step_refl, reachable_ok, Hr.
  - destruct Hrel as [[[_ ?] _]|[_ ?]]; done.
Qed.

(** A payout LND reported as made is on record at a row that can carry it. *)
Lemma paid_attached s h :
  reachable settings s -> paid h (s_trace s) = true -> attached h (s_db s).
Proof.
  intros Hr Hp. pose proof (reachable_lawful s Hr) as Hl.
  destruct (bo_payments _ _ (reachable_ok s Hr) h) as [|Hf]; [by apply paid_sent|done|].
  rewrite (paid_live h _ Hl Hp) in Hf. done.
Qed.

Lemma pays_fun pr h1 h2 : pays pr h1 = true -> pays pr h2 = true -> h1 = h2.
Proof. unfold pays. case_match; [|done]. intros. bool_prop. congruence. Qed.

(** The row [b] carries the payout of [h]. *)
Definition carries (db : DB) (h : list Z) (b : Bond) : Prop :=
  In b (bonds db) /\ (exists pr, payout_invoice b = Some pr /\ pays pr h = true) /\
  (has_state b PendingPayout \/ has_state b Slashed).

Lemma carries_fun tr db h1 h2 b1 b2 :
  bonds_ok tr db -> carries db h1 b1 -> carries db h2 b2 -> id b1 = id b2 -> h1 = h2.
Proof.
  intros Hdb (Hb1 & (p1 & Hp1 & Hh1) & _) (Hb2 & (p2 & Hp2 & Hh2) & _) E.
  pose proof (ids_inj _ _ _ _ Hdb Hb1 Hb2 E). subst b2.
  assert (p1 = p2) by congruence. subst p2. by eapply pays_fun.
Qed.

(** C3: no debt is paid twice. In every reachable state, whatever the
    interleaving of handlers, payout cycles, SQL failures and crashes, the
    payments LND reported as succeeded map one to one to bond rows: distinct
    payments are carried by distinct rows, each in [PendingPayout] or
    [Slashed] with the invoice that was paid. *)
Theorem payouts_paid_once s hs :
  reachable settings s -> NoDup hs -> Forall (fun h => paid h (s_trace s) = true) hs ->
  exists rows, Forall2 (carries (s_db s)) hs rows /\ NoDup (map id rows).
Proof.
  intros Hr Hnd Hp. induction Hp as [|h hs Hh Hp IH]; [by exists []; split; constructor|].
  apply NoDup_cons in Hnd as [Hni Hnd]. destruct (IH Hnd) as (rows & Hf & Hrows).
  destruct (paid_attached s h Hr Hh) as (b & pr & Hb & Hpr & Hph & Hs).
  assert (carries (s_db s) h b) as Hc by (repeat split; eauto).
  exists (b :: rows). split; [by constructor|]. cbn [map]. apply NoDup_cons. split; [|done].
  intros Hin%list_elem_of_In. apply in_map_iff in Hin as (b' & E & Hb').
  apply list_elem_of_In, list_elem_of_lookup in Hb' as [i Hi].
  destruct (Forall2_lookup_r _ _ _ _ _ Hf Hi) as (h' & Hh' & Hc').
  apply Hni. rewrite <- (carries_fun _ _ h' h b' b (reachable_ok s Hr) Hc' Hc E).
  apply list_elem_of_lookup. eauto.
Qed.

(** C4: a bond is marked [Slashed] with a payout invoice on record only when
    nothing was owed or LND reported the payment of that very invoice. *)
Theorem slashed_implies_paid s b pr :
  reachable settings s -> In b (bonds (s_db s)) -> has_state b Slashed ->
  payout_invoice b = Some pr ->
  exists n, node_share_sats b = Some n /\
    (amount_sats b - n <= 0 \/ exists h, pays pr h = true /\ paid h (s_trace s) = true).
Proof.
  intros Hr Hb Hs Hp. exact (ro_paid _ _ (bo_rows _ _ (reachable_ok s Hr) b Hb) pr Hs Hp).
Qed.

(** C6: the life cycle. One interaction of any task moves a row only along
    the documented transitions, never rewrites its identity, owner, amount,
    hash or preimage, and never revises the split or the reason of a slash. *)
Theorem bond_lifecycle s s' b :
  reachable settings s -> daemon_step settings s s' -> In b (bonds (s_db s)) ->
  exists b', In b' (bonds (s_db s')) /\ row_step b b'.
Proof. intros Hr Hs. exact (step_rows s s' Hr Hs b). Qed.

Lemma row_step_trans b1 b2 b3 :
  row_step b1 b2 -> row_step b2 b3 -> fixed_columns b3 = fixed_columns b1.
Proof. intros [E1 _ _] [E2 _ _]. congruence. Qed.

(** Final states: no transition leaves them. *)
Definition final (s : BondState) : bool :=
  match s with Released | Slashed | Forfeited => true | _ => false end.

Lemma may_final s s' : final s = true -> may s s' = true -> s' = s.
Proof. by destruct s, s'. Qed.

(** [Released], [Slashed] and [Forfeited] are final: whatever happens
    afterwards, crashes and restarts included, the row stays in that state with
    the same amount, owner and hold invoice. *)
Theorem final_states_stay s s' b st :
  reachable settings s -> rtc (daemon_step settings) s s' -> In b (bonds (s_db s)) ->
  has_state b st -> final st = true ->
  exists b', In b' (bonds (s_db s')) /\ fixed_columns b' = fixed_columns b /\ has_state b' st.
Proof.
  intros Hr Hrtc. revert b. induction Hrtc as [s|s s1 s' Hs _ IH]; intros b Hb Hst Hf; [eauto|].
  destruct (step_rows s s1 Hr Hs b Hb) as (b1 & Hb1 & [Hfix (t & t' & Ht & Ht' & Hm) _]).
  pose proof (has_state_fun _ _ _ Ht Hst). subst t.
  apply may_final in Hm; [subst t'|done].
  destruct (IH (reachable_step _ _ Hr Hs) b1 Hb1 Ht' Hf) as (b' & ? & ? & ?).
  exists b'. split_and!; [done|congruence|done].
Qed.

(** C5: money follows the state. The hold invoice of a bond in
    [PendingPayout], [Slashed], [Forfeited] or [Failed] was settled and never
    cancelled; that of a [Released] bond was cancelled and never settled. *)
Theorem state_matches_htlc s b st h :
  reachable settings s -> In b (bonds (s_db s)) -> parent_bond_id b = None ->
  has_state b st -> hash_bytes b = Some h ->
  (slashlike st = true -> settled h (s_trace s) = true /\ cancelled h (s_trace s) = false) /\
  (st = Released -> cancelled h (s_trace s) = true /\ settled h (s_trace s) = false).
Proof.
  intros Hr Hb Hp Hs Hh. pose proof (bo_rows _ _ (reachable_ok s Hr) b Hb) as Hok.
  pose proof (settled_not_cancelled h _ (reachable_lawful s Hr)) as Hx. split.
  - intros Hl. destruct (ro_seized _ _ Hok st Hs Hl Hp) as (h' & Hh' & Hset).
    assert (h' = h) by congruence. subst h'. split; [done|].
    destruct (cancelled h _) eqn:E; [by destruct Hx|done].
  - intros ->. destruct (ro_released _ _ Hok Hs) as [Hn|(h' & Hh' & Hc)].
    + unfold hash_bytes in Hh. by rewrite Hn in Hh.
    + assert (h' = h) by congruence. subst h'. split; [done|].
      destruct (settled h _) eqn:E; [by destruct Hx|done].
Qed.

(** C7: first to lock wins. An order never has two [Locked] taker bonds,
    however the subscribers of the racing takers interleave. *)
Theorem one_locked_taker_bond s b1 b2 :
  reachable settings s -> In b1 (bonds (s_db s)) -> In b2 (bonds (s_db s)) ->
  order_id b1 = order_id b2 -> has_state b1 Locked -> has_state b2 Locked ->
  role_is Taker b1 = true -> role_is Taker b2 = true -> b1 = b2.
Proof.
  intros Hr H1 H2 Ho Hs1 Hs2 Hr1 Hr2. pose proof (reachable_ok s Hr) as Hok.
  eapply ids_inj; [exact Hok|done|done|]. by eapply (bo_locked _ _ Hok).
Qed.

(** C8: a slice of a range order is slashed at most once, even when a
    dispute and a timeout race on it. *)
Theorem one_slash_per_slice s b1 b2 p o :
  reachable settings s -> In b1 (bonds (s_db s)) -> In b2 (bonds (s_db s)) ->
  parent_bond_id b1 = Some p -> child_order_id b1 = Some o ->
  parent_bond_id b2 = Some p -> child_order_id b2 = Some o -> b1 = b2.
Proof.
  intros Hr H1 H2 Hp1 Hc1 Hp2 Hc2. pose proof (reachable_ok s Hr) as Hok.
  eapply ids_inj; [exact Hok|done|done|]. eapply (bo_slices _ _ Hok); [done|done|].
  unfold same_slice. by rewrite Hp1, Hc1, Hp2, Hc2, !N.eqb_refl.
Qed.

(** C9: a debt can always be computed. Every [PendingPayout] row passes the
    payout cycle's sanity checks: its slash time is set, its reason parses, and
    the counterparty share plus the node share is the bond amount, both within
    [0, amount]. *)
Theorem pending_payout_computable s b :
  reachable settings s -> In b (bonds (s_db s)) -> has_state b PendingPayout ->
  exists t r n share,
    slashed_at b = Some t /\ parse_reason b = Some r /\ node_share_sats b = Some n /\
    counterparty_share_sats b = Ok share /\ share + n = amount_sats b /\
    0 <= share /\ 0 <= n.
Proof.
  intros Hr Hb Hs. pose proof (bo_rows _ _ (reachable_ok s Hr) b Hb) as Hok.
  destruct (ro_meta _ _ Hok _ Hs eq_refl) as (t & r & n & Ht & Hre & Hn & Hle); [by left|].
  exists t, r, n, (amount_sats b - n). unfold parse_reason, counterparty_share_sats.
  rewrite Ht, Hre, Hn, (proj2 (andb_true_iff _ _)) by (split; apply Z.leb_le; lia).
  pose proof (from_to_str r) as E. simpl in E. rewrite E. split_and!; try done; lia.
Qed.
End Safety.

(** ** Scenarios

    The theorems at work on runs of the daemon in the world of [Demo]. *)

Section Script.
Context `{Lib} `{Core} `{PayoutLib} (settings : Settings) (env : Env DB ext).

Lemma script_law ps db tr : lawful (script env ps (db, tr)).2 -> lawful tr.
Proof.
  revert db tr. induction ps as [|q ps IH]; intros db tr Hl; [done|].
  cbn [script foldl fst snd] in Hl. apply IH in Hl. by apply (law_of_run lawful lawful_suffix) in Hl.
Qed.

Lemma script_steps ps sc ts db tr :
  Forall (bond_task settings) ps -> lawful (script env ps (db, tr)).2 ->
  rtc (daemon_step settings) (mkSys sc ts db tr)
    (mkSys sc (ts ++ replicate (length ps) (Ret tt))%list
       (script env ps (db, tr)).1 (script env ps (db, tr)).2).
Proof.
  intros Hps. revert ts db tr. induction Hps as [|p ps Hp Hps IH]; intros ts db tr Hl.
  - by rewrite app_nil_r.
  - cbn [script foldl fst snd] in Hl |- *. fold (script env ps) in *.
    etrans; [apply (run_task _ _ _ lawful_suffix env p); [done|by apply script_law in Hl]|].
    cbn [length replicate].
    change (Ret tt :: replicate (length ps) (Ret tt))
      with ([Ret tt] ++ replicate (length ps) (Ret (DB := DB) (ext := ext) tt))%list.
    rewrite app_assoc. by apply IH.
Qed.

(** Some tasks, then one run of the payout job. *)
Definition script_end (ps : list (M unit)) (job : M unit) (db : DB) : Sys DB ext :=
  let s := script env (ps ++ [job]) (db, []) in
  mkSys (Ret tt) (replicate (length ps) (Ret tt)) s.1 s.2.

Lemma script_reachable ps job db :
  Forall (bond_task settings) ps -> payout_job settings job -> bonds db = [] ->
  lawfulb (s_trace (script_end ps job db)) = true ->
  reachable settings (script_end ps job db).
Proof.
  intros Hps Hj Hb Hl%lawfulb_sound. unfold script_end, script in *.
  rewrite foldl_app in *. cbn [foldl fst snd s_trace] in *. fold (script env ps (db, [])) in *.
  exists (mkSys job [] db []). split; [by repeat split|].
  etrans; [apply (script_steps ps job [] db []); [done|]
          |by apply (run_sched _ _ _ lawful_suffix env job)].
  by apply (law_of_run lawful lawful_suffix) in Hl.
Qed.
End Script.

(** A taker bond of order 7 is requested and locked, the solver slashes the
    buyer, the maker submits an invoice. *)
Definition demo_ctx : TakerContext := mkTakerContext "taker-id" 1 None 50 100000 300 0.

Definition demo_db : DB := mkDB [demo_order 7 Pending] [] [] [].

Definition slash_tasks : list (M unit) :=
  [detach (request_taker_bond demo_settings (demo_order 7 Pending) "taker" None demo_ctx);
   bond_subscriber demo_settings 1 (demo_sha256 (1 :: replicate 31 5)) None;
   detach (apply_bond_resolution demo_settings (demo_order 7 Dispute)
             (mkBondResolution false true) LostDispute);
   detach (add_bond_invoice_action demo_settings (Some 7%N) (Some "inv") "maker")].

Lemma slash_tasks_ok : Forall (bond_task demo_settings) slash_tasks.
Proof.
  unfold slash_tasks. apply Forall_cons. split; [apply task_request_taker|].
  apply Forall_cons. split; [apply task_subscriber, (@sha256_bytes demo_lib demo_hex_laws)|].
  apply Forall_cons. split; [apply task_resolution|].
  apply Forall_cons. split; [apply task_invoice|]. constructor.
Qed.

Definition demo_job : M unit := job_process_bond_payouts demo_settings 1 1.

(** The bond before and after the payout cycle. *)
Definition demo_pending : Sys DB ext := script_end (demo_env 1000) slash_tasks (Ret tt) demo_db.
Definition demo_paid : Sys DB ext := script_end (demo_env 1000) slash_tasks demo_job demo_db.

(** Order 9 is a range whose maker bond is locked; its slice 10 is disputed and
    the seller, the maker of the range, is slashed. *)
Definition range_db : DB :=
  mkDB [(demo_order 9 WaitingMakerBond) <| o_max_amount := Some 100 |> <| o_min_amount := Some 10 |>;
        (demo_order 10 Dispute) <| o_range_parent_id := Some 9%N |>] [] [] [].

Definition slice_10 : Order := (demo_order 10 Dispute) <| o_range_parent_id := Some 9%N |>.

Definition slice_tasks : list (M unit) :=
  [detach (request_maker_bond demo_settings (demo_order 9 WaitingMakerBond) "maker" 100000 None None);
   bond_subscriber demo_settings 1 (demo_sha256 (1 :: replicate 31 5)) None;
   detach (apply_bond_resolution demo_settings slice_10 (mkBondResolution true false) LostDispute)].

Lemma slice_tasks_ok : Forall (bond_task demo_settings) slice_tasks.
Proof.
  unfold slice_tasks. apply Forall_cons. split; [apply task_request_maker|].
  apply Forall_cons. split; [apply task_subscriber, (@sha256_bytes demo_lib demo_hex_laws)|].
  apply Forall_cons. split; [apply task_resolution|]. constructor.
Qed.

Definition demo_slice : Sys DB ext := script_end (demo_env 1000) slice_tasks (Ret tt) range_db.

(** The taker bond of [slash_tasks], locked and then released. *)
Definition release_tasks (n : nat) : list (M unit) :=
  (take 2 slash_tasks ++ take n [detach (release_active_bonds 7 false)])%list.

Lemma release_tasks_ok n : Forall (bond_task demo_settings) (release_tasks n).
Proof.
  apply Forall_app. split; apply Forall_take; [apply slash_tasks_ok|].
  constructor; [apply task_release|constructor].
Qed.

Definition demo_locked : Sys DB ext := script_end (demo_env 1000) (release_tasks 0) (Ret tt) demo_db.
Definition demo_released : Sys DB ext :=
  script_end (demo_env 1000) (release_tasks 1) (Ret tt) demo_db.

(** A row of a scenario's last state. *)
Definition row_of (s : Sys DB ext) (n : nat) : Bond :=
  List.nth n (bonds (s_db s)) (new_requested 0 0 0 "" Taker 0).

Lemma demo_floor cfg : get_bond demo_settings = Some cfg -> base_amount_sats cfg <= i64_max.
Proof. by intros [= <-]. Qed.

(** The end of a scenario is reachable: its history is checked by evaluation. *)
Ltac demo_reachable tasks :=
  apply script_reachable;
  [apply tasks|try constructor; apply job_idle|reflexivity|vm_compute; reflexivity].

Lemma demo_pending_reachable : reachable demo_settings demo_pending.
Proof. demo_reachable slash_tasks_ok. Qed.

Lemma demo_paid_reachable : reachable demo_settings demo_paid.
Proof.
  apply script_reachable; [apply slash_tasks_ok|apply job_running|reflexivity|vm_compute; reflexivity].
Qed.

Lemma demo_slice_reachable : reachable demo_settings demo_slice.
Proof. demo_reachable slice_tasks_ok. Qed.

Lemma demo_locked_reachable : reachable demo_settings demo_locked.
Proof. demo_reachable (release_tasks_ok 0). Qed.

Lemma demo_released_reachable : reachable demo_settings demo_released.
Proof. demo_reachable (release_tasks_ok 1). Qed.

(** Restart of the daemon in the middle of everything. *)
Definition restarted (s : Sys DB ext) : Sys DB ext := mkSys demo_job [] (s_db s) (s_trace s).

Lemma restart_step s : daemon_step demo_settings s (restarted s).
Proof. destruct s. apply sys_crash, job_running. Qed.

(** Membership of a scenario's row, by evaluation. *)
Ltac demo_row := vm_compute; auto.

Lemma payouts_paid_once_witness :
  paid (demo_hash 1) (s_trace demo_paid) = true /\
  exists rows, Forall2 (carries (s_db demo_paid)) [demo_hash 1] rows /\ NoDup (map id rows).
Proof.
  assert (paid (demo_hash 1) (s_trace demo_paid) = true) as Hp by (vm_compute; reflexivity).
  split; [exact Hp|].
  apply (payouts_paid_once demo_settings demo_floor demo_paid [demo_hash 1]);
    [exact demo_paid_reachable|apply NoDup_singleton|]. constructor; [exact Hp|constructor].
Defined.

Lemma slashed_implies_paid_witness :
  has_state (row_of demo_paid 0) Slashed /\
  exists n, node_share_sats (row_of demo_paid 0) = Some n /\
    (amount_sats (row_of demo_paid 0) - n <= 0 \/
     exists h, pays "inv" h = true /\ paid h (s_trace demo_paid) = true).
Proof.
  split; [reflexivity|].
  apply (slashed_implies_paid demo_settings demo_floor demo_paid);
    [exact demo_paid_reachable|demo_row|reflexivity|reflexivity].
Defined.

Lemma bond_lifecycle_witness :
  In (row_of demo_pending 0) (bonds (s_db demo_pending)) /\
  exists b', In b' (bonds (s_db (restarted demo_pending))) /\ row_step (row_of demo_pending 0) b'.
Proof.
  assert (In (row_of demo_pending 0) (bonds (s_db demo_pending))) as Hb by demo_row.
  split; [exact Hb|]. apply (bond_lifecycle demo_settings demo_floor demo_pending);
    [exact demo_pending_reachable|apply restart_step|exact Hb].
Defined.

Lemma state_matches_htlc_witness :
  has_state (row_of demo_released 0) Released /\
  let h := demo_sha256 (1 :: replicate 31 5) in
  (slashlike Released = true ->
     settled h (s_trace demo_released) = true /\ cancelled h (s_trace demo_released) = false) /\
  (Released = Released ->
     cancelled h (s_trace demo_released) = true /\ settled h (s_trace demo_released) = false).
Proof.
  split; [reflexivity|].
  apply (state_matches_htlc demo_settings demo_floor demo_released (row_of demo_released 0));
    [exact demo_released_reachable|demo_row|reflexivity|reflexivity|vm_compute; reflexivity].
Defined.

Lemma one_locked_taker_bond_witness :
  has_state (row_of demo_locked 0) Locked /\ row_of demo_locked 0 = row_of demo_locked 0.
Proof.
  split; [reflexivity|].
  apply (one_locked_taker_bond demo_settings demo_floor demo_locked);
    [exact demo_locked_reachable|demo_row|demo_row|reflexivity..].
Defined.

Lemma one_slash_per_slice_witness :
  child_order_id (row_of demo_slice 1) = Some 10%N /\ row_of demo_slice 1 = row_of demo_slice 1.
Proof.
  split; [reflexivity|].
  apply (one_slash_per_slice demo_settings demo_floor demo_slice _ _ 3 10);
    [exact demo_slice_reachable|demo_row|demo_row|reflexivity..].
Defined.

Lemma pending_payout_computable_witness :
  exists t r n share,
    slashed_at (row_of demo_pending 0) = Some t /\ parse_reason (row_of demo_pending 0) = Some r /\
    node_share_sats (row_of demo_pending 0) = Some n /\
    counterparty_share_sats (row_of demo_pending 0) = Ok share /\
    share + n = amount_sats (row_of demo_pending 0) /\ 0 <= share /\ 0 <= n.
Proof.
  apply (pending_payout_computable demo_settings demo_floor demo_pending);
    [exact demo_pending_reachable|demo_row|reflexivity].
Defined.
