(* ===== verification/Authority.v ===== *)
(** * Authority over hold invoices

    The seller's sats sit in a hold invoice that the node can settle, because
    it knows the preimage, or cancel.  This file says when it may:
    [authorised] and [returnable] are the reasons, in terms of what the acting
    task has itself observed, the events it received and the rows it read.
    [gp tr p Q] says of a program whose observations so far are [tr] that
    every settlement and cancellation it requests is [allowed] by its own
    observations, and that [Q] holds when it ends; [safe_walk] walks through a
    program. *)

From S2P Require Import Prelude Float64 Config BondTypes BondMath Effects Model.
From S2P Require Import Lightning BondDb BondRelease BondSlash OrderDb BondLock BondPayout.
From S2P Require Import Messages Users NewOrder Take Gate Disputes OrderPayout TradeFlow Release.
From S2P Require Import CancelOrder AdminOrder Ratings TradeJobs Sessions EventLoop Rpc BondSafety.
From S2P Require Import Demo.

Open Scope Z_scope.
Open Scope prog_scope.

Abbreviation history := (list (obs DB ext)).

(** ** Authority to settle *)

(** The preimage a request hands to LND. *)
Definition settles (o : obs DB ext) : option (list Z) :=
  match o with
  | ObsExt e _ => match e with LndSettleInvoice p => Some p | _ => None end
  | ObsSql _ _ => None
  end.

(** The hold invoice a request cancels. *)
Definition cancels (o : obs DB ext) : option (list Z) :=
  match o with
  | ObsExt e _ => match e with LndCancelInvoice h => Some h | _ => None end
  | ObsSql _ _ => None
  end.

(** [i] was looked up and [o] is its row. *)
Definition read_order (i : Uuid) (o : Order) (tr : history) : Prop :=
  In (ObsSql (query (order_by_id i)) (Ok (Some o))) tr.

(** A statement that answers with rows of the [bonds] table, [b] among them. *)
Inductive returned (b : Bond) : obs DB ext -> Prop :=
| in_list stmt l :
    (forall db x, In x (stmt db).2 -> In x (bonds (stmt db).1)) ->
    In b l -> returned b (ObsSql stmt (Ok l))
| as_option stmt :
    (forall db x, (stmt db).2 = Some x -> In x (bonds (stmt db).1)) ->
    returned b (ObsSql stmt (Ok (Some b)))
| as_result stmt :
    (forall db x, (stmt db).2 = Ok x -> In x (bonds (stmt db).1)) ->
    returned b (@ObsSql DB ext (result Bond string) stmt (Ok (Ok b))).

Definition read_bond (b : Bond) (tr : history) : Prop := exists o, In o tr /\ returned b o.

Section Authority.
Context `{Core} `{Lib} (settings : Settings) (node_pubkey : string).

(** A genuine event carried [u], whose message asks for [a]. *)
Definition received (a : Action) (u : UnwrappedMessage) (tr : history) : Prop :=
  exists e, In (ObsExt NextEvent e) tr /\ event_verify e = true /\
    unwrap_incoming e = Ok (Some u) /\ inner_action (u_message u) = Some a.

(** The operator's interface asked for [a], and [u] says so for the node. *)
Definition operated (a : Action) (u : UnwrappedMessage) (tr : history) : Prop :=
  exists req m now, In (ObsExt NextRpc req) tr /\ operator_message req = Some (Ok m) /\
    m_action m = a /\ u = operator_event node_pubkey m now.

(** A verdict, from a solver or from the operator. *)
Definition ordered (a : Action) (u : UnwrappedMessage) (tr : history) : Prop :=
  received a u tr \/ operated a u tr.

(** The sender of [u] has taken the dispute on [i] and may close it. *)
Definition assigned_solver (u : UnwrappedMessage) (i : Uuid) (tr : history) : Prop :=
  In (ObsSql (query (fun db => exists_row (assigned_to (u_identity u) i) (disputes db))) (Ok true)) tr /\
  (u_identity u = node_pubkey \/
   In (ObsSql (query (assigned_rw_solver (u_identity u) i)) (Ok true)) tr).

Definition is_preimage (hex : option string) (p : list Z) : Prop :=
  exists s, hex = Some s /\ decode_hash32 "preimage" s = Ok p.

Inductive authorised (p : list Z) (tr : history) : Prop :=
| by_seller u i o :
    received Release u tr -> m_id (u_message u) = Some i -> read_order i o tr ->
    get_seller_pubkey o = Ok (u_sender u) ->
    (check_status o FiatSent = Ok tt \/ check_status o Dispute = Ok tt) ->
    is_preimage (o_preimage o) p -> authorised p tr
| by_solver u i o :
    ordered AdminSettle u tr -> m_id (u_message u) = Some i -> read_order i o tr ->
    check_status o Dispute = Ok tt -> assigned_solver u (o_id o) tr ->
    is_preimage (o_preimage o) p -> authorised p tr
| of_bond b : read_bond b tr -> is_preimage (preimage b) p -> authorised p tr.

Lemma read_bond_mono b tr tr' : incl tr tr' -> read_bond b tr -> read_bond b tr'.
Proof. intros Hi (o & ? & ?). exists o. auto. Qed.

Lemma received_mono a u tr tr' : incl tr tr' -> received a u tr -> received a u tr'.
Proof. intros Hi (e & ? & ?). exists e. auto. Qed.

Lemma ordered_mono a u tr tr' : incl tr tr' -> ordered a u tr -> ordered a u tr'.
Proof.
  intros Hi [Hr|(req & m & now & ? & ?)]; [left; by eapply received_mono|].
  right. exists req, m, now. auto.
Qed.

Lemma authorised_mono p tr tr' : incl tr tr' -> authorised p tr -> authorised p tr'.
Proof.
  intros Hi [u i o Hr Hm Ho|u i o Hr Hm Ho Hs [Ha Hb]|b Hb].
  - eapply by_seller; eauto using received_mono. by apply Hi.
  - eapply by_solver; eauto using ordered_mono; [by apply Hi|]. split; [by apply Hi|].
    destruct Hb; auto.
  - eapply of_bond; eauto using read_bond_mono.
Qed.

(** Before both sides have met their obligations. *)
Definition not_yet_active (o : Order) : Prop :=
  check_status o Pending = Ok tt \/ check_status o WaitingTakerBond = Ok tt \/
  get_order_status o = Ok WaitingPayment \/ get_order_status o = Ok WaitingBuyerInvoice.

Definition is_hash (hex : option string) (h : list Z) : Prop :=
  exists s, hex = Some s /\ decode_hash32 "payment hash" s = Ok h.

(** The sender of [u] made the order, takes part in it, or has a bond on it. *)
Definition involved (u : UnwrappedMessage) (o : Order) (tr : history) : Prop :=
  sent_from_maker o (u_sender u) = Ok tt \/
  get_buyer_pubkey o = Ok (u_sender u) \/ get_seller_pubkey o = Ok (u_sender u) \/
  o_buyer_pubkey o = Some (u_sender u) \/ o_seller_pubkey o = Some (u_sender u) \/
  exists b, read_bond b tr /\ pubkey b = u_sender u.

(** The sender of [u] is one party of [o] and [k] the other. *)
Definition parties (u : UnwrappedMessage) (k : string) (o : Order) : Prop :=
  (get_buyer_pubkey o = Ok (u_sender u) /\ get_seller_pubkey o = Ok k) \/
  (get_seller_pubkey o = Ok (u_sender u) /\ get_buyer_pubkey o = Ok k).

(** LND did not say at which height the escrow of hash [s] expires. *)
Definition height_unknown (s : string) (tr : history) : Prop :=
  (exists e, In (ObsExt LndChainHeight (Err e)) tr) \/
  (exists e, decode_hash32 "payment hash" s = Err e) \/
  exists h e, decode_hash32 "payment hash" s = Ok h /\ In (ObsExt (LndLookupInvoice h) (Err e)) tr.

(** The deadline of the escrow of [o], by the clock reading [now] and LND: the
    margin before its expiry height has begun, or LND holds no payment for it
    any more; or, when LND did not say, the nominal deadline has passed. *)
Inductive deadline_reached (o : Order) (s : string) (now : Z) (tr : history) : Prop :=
| by_height chain h htlcs :
    In (ObsExt LndChainHeight (Ok chain)) tr -> decode_hash32 "payment hash" s = Ok h ->
    In (ObsExt (LndLookupInvoice h) (Ok htlcs)) tr ->
    match earliest_expiry htlcs with
    | Some expiry => expiry <= Z.min (chain + escrow_deadline_margin_blocks (get_ln settings)) (2 ^ 32 - 1)
    | None => True
    end -> deadline_reached o s now tr
| by_clock :
    height_unknown s tr -> past_deadline settings o now = true -> deadline_reached o s now tr.

(** The guardian looks at escrows held for half of the guarded time. *)
Definition guard_cutoff (now : Z) : Z :=
  now - escrow_guard_window_secs (hold_invoice_cltv_delta (get_ln settings))
          (escrow_deadline_margin_blocks (get_ln settings)) / 2.

Inductive returnable (h : list Z) (tr : history) : Prop :=
| by_both u i o k :
    received Cancel u tr -> m_id (u_message u) = Some i -> read_order i o tr ->
    In (get_order_status o) [Ok Active; Ok FiatSent; Ok Dispute] ->
    parties u k o -> o_cancel_initiator_pubkey o = Some k ->
    is_hash (o_hash o) h -> returnable h tr
| by_verdict u i o :
    ordered AdminCancel u tr -> m_id (u_message u) = Some i -> read_order i o tr ->
    check_status o Dispute = Ok tt -> assigned_solver u (o_id o) tr ->
    is_hash (o_hash o) h -> returnable h tr
| by_participant u i o :
    received Cancel u tr -> m_id (u_message u) = Some i -> read_order i o tr ->
    not_yet_active o -> involved u o tr -> is_hash (o_hash o) h -> returnable h tr
| by_timeout i o now :
    read_order i o tr -> is_waiting o = true -> In (ObsExt Now now) tr ->
    o_taken_at o < now - expiration_seconds (get_mostro settings) ->
    is_hash (o_hash o) h -> returnable h tr
| by_deadline now l o s :
    In (ObsExt Now now) tr ->
    In (ObsSql (query (held_escrows (guard_cutoff now))) (Ok l)) tr -> In o l ->
    get_order_status o = Ok Active -> o_hash o = Some s -> deadline_reached o s now tr ->
    is_hash (o_hash o) h -> returnable h tr
| of_released_bond b : read_bond b tr -> is_hash (hash b) h -> returnable h tr
| of_own_invoice p :
    In (ObsExt RandomBytes32 p) tr ->
    is_hash (Some (bytes_to_string (raw_sha256 p))) h -> returnable h tr.

Lemma assigned_mono u i tr tr' :
  incl tr tr' -> assigned_solver u i tr -> assigned_solver u i tr'.
Proof. intros Hi [Ha Hb]. split; [by apply Hi|]. destruct Hb; auto. Qed.

Lemma involved_mono u o tr tr' : incl tr tr' -> involved u o tr -> involved u o tr'.
Proof.
  intros Hi Hv. unfold involved in *. destruct Hv as [?|[?|[?|[?|[?|(b & Hb & ?)]]]]]; [tauto..|].
  do 5 right. exists b. eauto using read_bond_mono.
Qed.

Lemma deadline_mono o s now tr tr' :
  incl tr tr' -> deadline_reached o s now tr -> deadline_reached o s now tr'.
Proof.
  intros Hi [chain h htlcs|Hu Hp]; [eapply by_height; eauto|]. apply by_clock; [|done].
  destruct Hu as [(e & ?)|[?|(h & e & ? & ?)]]; [left; eauto|right; by left|right; right; eauto].
Qed.

Lemma returnable_mono h tr tr' : incl tr tr' -> returnable h tr -> returnable h tr'.
Proof.
  intros Hi [].
  - eapply by_both; eauto using received_mono. by apply Hi.
  - eapply by_verdict; eauto using ordered_mono, assigned_mono. by apply Hi.
  - eapply by_participant; eauto using received_mono, involved_mono. by apply Hi.
  - eapply by_timeout; eauto. by apply Hi.
  - eapply by_deadline; eauto using deadline_mono.
  - eapply of_released_bond; eauto using read_bond_mono.
  - eapply of_own_invoice; eauto.
Qed.

(** What a task that observed [tr] may ask of LND. *)
Definition allowed {R} (tr : history) (e : ext R) : Prop :=
  match e with
  | LndSettleInvoice p => authorised p tr
  | LndCancelInvoice h => returnable h tr
  | _ => True
  end.

(** ** Programs that act with authority *)

Fixpoint gp {A} (tr : history) (p : M A) (Q : A -> history -> Prop) : Prop :=
  match p with
  | Ret a => Q a tr
  | Sql stmt k => forall r, gp (ObsSql stmt r :: tr) (k r) Q
  | Ext e k =>
      allowed tr e /\
      forall r, gp (ObsExt e r :: tr) (k r) Q
  end.

(** What a program has learnt it keeps. *)
Definition safe {A} (tr : history) (p : M A) : Prop := gp tr p (fun _ tr' => incl tr tr').

Lemma incl_cons_r {A} (x : A) l l' : incl l l' -> incl l (x :: l').
Proof. intros Hi y Hy. right. by apply Hi. Qed.

Lemma gp_mono {A} (p : M A) (Q Q' : A -> history -> Prop) tr :
  (forall a tr', incl tr tr' -> Q a tr' -> Q' a tr') -> gp tr p Q -> gp tr p Q'.
Proof.
  revert tr. induction p as [a|R stmt k IH|R e k IH]; intros tr HQ; cbn.
  - apply HQ, incl_refl.
  - intros Hp r. apply IH; [|done]. intros a tr' Hi. apply HQ. by apply incl_cons_inv in Hi as [].
  - intros [He Hp]. split; [done|]. intros r. apply IH; [|done].
    intros a tr' Hi. apply HQ. by apply incl_cons_inv in Hi as [].
Qed.

Lemma gp_bind {A B} (p : M A) (f : A -> M B) Q tr :
  gp tr p (fun a tr' => gp tr' (f a) Q) -> gp tr (bind p f) Q.
Proof.
  revert tr. induction p as [a|R stmt k IH|R e k IH]; intros tr; cbn; [done|..].
  - intros Hp r. by apply IH.
  - intros [He Hp]. split; [done|]. intros r. by apply IH.
Qed.

(** A fact the first program establishes, for the rest. *)
Lemma safe_bind_with {A B} (F : A -> history -> Prop) (p : M A) (f : A -> M B) tr :
  gp tr p (fun a tr' => incl tr tr' /\ F a tr') ->
  (forall a tr', incl tr tr' -> F a tr' -> safe tr' (f a)) -> safe tr (bind p f).
Proof.
  intros Hp Hf. apply gp_bind. eapply gp_mono; [|exact Hp]. intros a tr' _ [Hi Ha].
  eapply gp_mono; [|by apply Hf]. intros b tr2 _ H2. by eapply incl_tran.
Qed.

Lemma safe_bind {A B} (p : M A) (f : A -> M B) tr :
  safe tr p -> (forall a tr', incl tr tr' -> safe tr' (f a)) -> safe tr (bind p f).
Proof.
  intros Hp Hf. apply (safe_bind_with (fun _ _ => True)); [|eauto].
  eapply gp_mono; [|exact Hp]. done.
Qed.

Lemma safe_try {A B E} (p : M (result A E)) (f : A -> M (result B E)) tr :
  safe tr p -> (forall a tr', incl tr tr' -> safe tr' (f a)) -> safe tr (try p f).
Proof.
  intros Hp Hf. apply safe_bind; [done|]. intros [a|e] tr' Hi; [by apply Hf|]. apply incl_refl.
Qed.

Lemma safe_try_with {A B E} (F : A -> history -> Prop) (p : M (result A E))
    (f : A -> M (result B E)) tr :
  gp tr p (fun r tr' => incl tr tr' /\ match r with Ok a => F a tr' | Err _ => True end) ->
  (forall a tr', incl tr tr' -> F a tr' -> safe tr' (f a)) -> safe tr (try p f).
Proof.
  intros Hp Hf. eapply safe_bind_with; [exact Hp|].
  intros [a|e] tr' Hi; [by apply Hf|]. intros _. apply incl_refl.
Qed.

Lemma safe_ret {A} (a : A) tr : safe tr (Ret a).
Proof. apply incl_refl. Qed.

Lemma safe_sql {R} (stmt : DB -> DB * R) tr : safe tr (sql stmt).
Proof. intros r. apply incl_cons_r, incl_refl. Qed.

Lemma safe_call {R} (e : ext R) tr : allowed tr e -> safe tr (ask e).
Proof. intros He. split; [done|]. intros r. apply incl_cons_r, incl_refl. Qed.

Lemma safe_each {X} (l : list X) (body : X -> M unit) tr :
  (forall x tr', In x l -> incl tr tr' -> safe tr' (body x)) -> safe tr (for_each l body).
Proof.
  intros Hb. revert tr Hb. induction l as [|x l IH]; intros tr Hb; cbn [for_each]; [apply safe_ret|].
  apply safe_bind; [apply Hb; [by left|apply incl_refl]|]. intros _ tr' Hi. apply IH.
  intros y tr2 Hy H2. apply Hb; [by right|]. by eapply incl_tran.
Qed.

Lemma safe_fold {X S E} (l : list X) (body : S -> X -> M (result S E)) s tr :
  (forall s x tr', incl tr tr' -> safe tr' (body s x)) -> safe tr (try_fold l s body).
Proof.
  intros Hb. revert s tr Hb. induction l as [|x l IH]; intros s tr Hb; cbn [try_fold]; [apply safe_ret|].
  apply safe_try; [apply Hb, incl_refl|]. intros s' tr' Hi. apply IH.
  intros s2 y tr2 H2. apply Hb. by eapply incl_tran.
Qed.

(** A look-up establishes that its answer was read. *)
Lemma gp_query {R} (f : DB -> R) tr :
  gp tr (sql_or_db_error (query f)) (fun r tr' => incl tr tr' /\
    match r with Ok v => In (ObsSql (query f) (Ok v)) tr' | Err _ => True end).
Proof.
  intros [v|e]; cbn; (split; [apply incl_cons_r, incl_refl|]); [by left|done].
Qed.

Lemma gp_safe {A} (p : M A) tr : safe tr p -> gp tr p (fun _ tr' => incl tr tr' /\ True).
Proof. intros Hp. eapply gp_mono; [|exact Hp]. done. Qed.

Lemma safe_settle s tr :
  (forall p, decode_hash32 "preimage" s = Ok p -> authorised p tr) ->
  safe tr (settle_hold_invoice s).
Proof.
  intros Hp. unfold settle_hold_invoice. destruct (decode_hash32 "preimage" s) as [p|]; [|apply safe_ret].
  split; [by apply Hp|]. intros r. apply incl_cons_r, incl_refl.
Qed.

Lemma safe_cancel s tr :
  (forall h, is_hash (Some s) h -> returnable h tr) -> safe tr (cancel_hold_invoice s).
Proof.
  intros Hh. unfold cancel_hold_invoice.
  destruct (decode_hash32 "payment hash" s) as [h|] eqn:E; [|apply safe_ret].
  split; [apply Hh; by exists s|]. intros r. apply incl_cons_r, incl_refl.
Qed.
End Authority.

(** Programs whose settlements were checked. *)
Create HintDb custody.

Ltac custody_head t := lazymatch t with ?f _ => custody_head f | _ => t end.

(** Walk through a program down to its interactions. *)
Ltac safe_walk :=
  repeat (intros; cbv zeta;
    lazymatch goal with
    | |- safe _ _ _ (Ret _) => apply safe_ret
    | |- safe _ _ _ (call _) => apply safe_call; exact I
    | |- safe _ _ _ (sql _) => apply safe_sql
    | |- safe _ _ _ (try _ _) => apply safe_try
    | |- safe _ _ _ (bind _ _) => apply safe_bind
    | |- safe _ _ _ (for_each _ _) => apply safe_each
    | |- safe _ _ _ (try_fold _ _ _) => apply safe_fold
    | |- safe _ _ _ (match ?x with _ => _ end) => destruct x
    | |- safe _ _ _ ?p =>
        first [solve [auto with custody nocore] | let h := custody_head p in unfold h]
    end).

