(* ===== verification/Custody.v ===== *)
(** * Custody of the escrow

    Every program the daemon runs settles and cancels hold invoices with
    [Authority]: the bond functions, the handlers, the event loop, the
    subscribers and the jobs.  Lifted to the daemon ([custody_sys]), this holds
    in every interleaving, whatever the relays deliver, the database and LND
    answer, and with crashes at any point. *)

From S2P Require Import Prelude Float64 Config BondTypes BondMath Effects Model.
From S2P Require Import Lightning BondDb BondRelease BondSlash OrderDb BondLock BondPayout.
From S2P Require Import Messages Users NewOrder Take Gate Disputes OrderPayout TradeFlow Release.
From S2P Require Import CancelOrder AdminOrder Ratings TradeJobs Sessions EventLoop Rpc BondSafety Demo.
From S2P Require Import Authority.

Open Scope Z_scope.
Open Scope prog_scope.

(** ** Bonds *)

Section Bonds.
Context `{HC : Core} `{HL : Lib} (settings : Settings) (node_pubkey : string).

Abbreviation safe := (safe settings node_pubkey).
Abbreviation gp := (gp settings node_pubkey).

Lemma safe_walk_to_root fuel o tr : safe tr (walk_to_root fuel o).
Proof.
  revert o tr. induction fuel as [|fuel IH]; intros o tr; cbn [walk_to_root]; [apply safe_ret|].
  destruct (o_range_parent_id o); [|apply safe_ret]. apply safe_try; [safe_walk|].
  intros [p|] tr' _; [apply IH|apply safe_ret].
Qed.
#[local] Hint Resolve safe_walk_to_root : custody.

(** Look-ups on the [bonds] table. *)
Lemma read_list (f : DB -> list Bond) l b tr :
  (forall db x, In x (f db) -> In x (bonds db)) ->
  In (ObsSql (query f) (Ok l)) tr -> In b l -> read_bond b tr.
Proof. intros Hf Hi Hb. eexists. split; [exact Hi|]. by constructor. Qed.

Lemma read_option (f : DB -> option Bond) b tr :
  (forall db x, f db = Some x -> In x (bonds db)) ->
  In (ObsSql (query f) (Ok (Some b))) tr -> read_bond b tr.
Proof. intros Hf Hi. eexists. split; [exact Hi|]. by constructor. Qed.

Lemma ordered_rows (p : Bond -> bool) db x : In x (select_ordered p created_at (bonds db)) -> In x (bonds db).
Proof. by intros [? _]%select_ordered_in. Qed.

Lemma head_row (p : Bond -> bool) db x :
  head (select_ordered p created_at (bonds db)) = Some x -> In x (bonds db).
Proof.
  intros Hx. apply (ordered_rows p). destruct (select_ordered _ _ _); [done|].
  injection Hx as ->. by left.
Qed.

Lemma one_row (p : Bond -> bool) db x : select_one p (bonds db) = Some x -> In x (bonds db).
Proof. by intros [? _]%find_some. Qed.

(** A query that finds a row has read it. *)
Lemma gp_find_bond (p : Bond -> bool) tr :
  gp tr (sql_or_db_error (query (fun db => select_one p (bonds db)))) (fun r tr' => incl tr tr' /\
    match r with Ok (Some b) => read_bond b tr' | _ => True end).
Proof.
  eapply gp_mono; [|apply gp_query]. intros [[b|]|] tr' _ [Hi Hin]; (split; [done|]); try done.
  eapply read_option; [|exact Hin]. intros db x. apply one_row.
Qed.

Lemma safe_release_bond b tr : read_bond b tr -> safe tr (release_bond b).
Proof.
  intros Hb. unfold release_bond. destruct (state_from_str (state b)); [|apply safe_ret].
  destruct (is_terminal _); [apply safe_ret|]. apply safe_try; [|safe_walk].
  unfold release_htlc. destruct (hash b) as [s|] eqn:Hs; [|apply safe_ret].
  apply safe_try; [safe_walk|]. intros _ tr1 H1. apply safe_bind; [|safe_walk].
  apply safe_cancel. intros h Hh. eapply of_released_bond; [by eapply read_bond_mono|].
  by rewrite Hs.
Qed.

Lemma safe_settle_bond b s tr :
  read_bond b tr -> preimage b = Some s -> safe tr (settle_or_already s).
Proof.
  intros Hb Hs. apply safe_bind; [|safe_walk].
  apply safe_settle. intros p Hp. eapply of_bond; [exact Hb|]. by exists s.
Qed.

Lemma safe_slash_one b reason pct tr : read_bond b tr -> safe tr (slash_one b reason pct).
Proof.
  intros Hb. unfold slash_one. destruct (preimage b) as [s|] eqn:Hs; [|apply safe_ret].
  apply safe_bind; [by eapply safe_settle_bond|safe_walk].
Qed.

(** The maker bond of a range was read. *)
Lemma gp_maker_bond o tr :
  gp tr (find_maker_bond_for_order o) (fun r tr' => incl tr tr' /\
    match r with Ok (Some b) => read_bond b tr' | _ => True end).
Proof.
  apply gp_bind. eapply gp_mono; [|apply (safe_walk_to_root _ o tr)]. intros [root|e] tr' _ Hi; [|done].
  eapply gp_mono; [|apply gp_find_bond].
  intros r tr2 _ [H2 Hr]. split; [by eapply incl_tran|done].
Qed.

Lemma safe_close o tr : safe tr (resolve_range_maker_bond_at_close o).
Proof.
  apply (safe_try_with _ _ (fun r tr' => match r with Some b => read_bond b tr' | None => True end)).
  { eapply gp_mono; [|apply gp_maker_bond]. by intros [[b|]|]. }
  intros [b|] tr' _ Hb; [|apply safe_ret]. destruct (negb _); [apply safe_ret|].
  apply safe_try; [safe_walk|]. intros root tr2 H2. apply safe_try; [safe_walk|]. intros l tr3 H3.
  assert (read_bond b tr3) as Hb3 by (eapply read_bond_mono; [|exact Hb]; by eapply incl_tran).
  cbv zeta. destruct (_ =? _); [by apply safe_release_bond|]. destruct (preimage b) as [s|] eqn:Hs; [|apply safe_ret].
  apply safe_bind; [by eapply safe_settle_bond|safe_walk].
Qed.
#[local] Hint Resolve safe_close : custody.

(** The target of a slash was read, with the active bonds or on its own. *)
Lemma gp_slash_target order active side is_range tr :
  (forall b, In b active -> read_bond b tr) ->
  gp tr (resolve_slash_target order active side is_range) (fun r tr' => incl tr tr' /\
    match r with Ok (Some b) => read_bond b tr' | _ => True end).
Proof.
  intros Ha. unfold resolve_slash_target. destruct (resolve_locked_bond _ _ _) as [b|] eqn:Hb.
  { split; [apply incl_refl|]. apply Ha. unfold resolve_locked_bond in Hb.
    destruct (match side with Seller => _ | Buyer => _ end); [|done]. by apply find_some in Hb as []. }
  destruct is_range; [|split; [apply incl_refl|done]].
  destruct (side_is_maker order side) as [[|]|]; try (split; [apply incl_refl|done]).
  unfold try at 1. cbn [bind]. apply gp_bind. eapply gp_mono; [|apply gp_maker_bond].
  intros [[b|]|] tr' _ [Hi Hr]; [destruct (state_is Locked b)|..]; by split.
Qed.

(** The rows [l] were read. *)
Definition all_read (l : list Bond) (tr : history) : Prop := forall b, In b l -> read_bond b tr.

Lemma all_read_mono l tr tr' : incl tr tr' -> all_read l tr -> all_read l tr'.
Proof. intros Hi Ha b Hb. eapply read_bond_mono; eauto. Qed.

Lemma gp_active_bonds i tr :
  gp tr (find_active_bonds_for_order i) (fun r tr' => incl tr tr' /\
    match r with Ok l => all_read l tr' | Err _ => True end).
Proof.
  eapply gp_mono; [|apply gp_query]. intros [l|] tr' _ [Hi Hin]; [|done].
  split; [done|]. intros b Hb. eapply read_list; [|exact Hin|exact Hb].
  intros db x. apply ordered_rows.
Qed.

Lemma safe_release_active i retain tr : safe tr (release_active_bonds i retain).
Proof.
  apply (safe_try_with _ _ all_read); [apply gp_active_bonds|]. intros l tr1 _ Ha.
  apply safe_bind; [|safe_walk]. apply safe_each. intros b tr2 Hb H2. destruct (_ && _); [apply safe_ret|].
  apply safe_bind; [|safe_walk]. apply safe_release_bond. eapply read_bond_mono; [exact H2|by apply Ha].
Qed.
#[local] Hint Resolve safe_release_active : custody.

Lemma safe_apply_side order active is_range reason acc fs tr :
  all_read active tr -> safe tr (apply_side settings order active is_range reason acc fs).
Proof.
  intros Ha. unfold apply_side. destruct acc as [ids rows], fs as [flag side].
  destruct (negb flag); [apply safe_ret|].
  apply (safe_try_with _ _ (fun r tr' => match r with Some b => read_bond b tr' | None => True end)).
  { eapply gp_mono; [|by apply gp_slash_target]. by intros [[b|]|]. }
  intros [b|] tr' Hi Hb; [|apply safe_ret]. apply safe_try; [apply safe_ret|].
  intros maker tr2 H2. destruct maker; [safe_walk|].
  apply safe_bind; [|safe_walk]. apply safe_slash_one. by eapply read_bond_mono.
Qed.

Lemma safe_apply_resolution order resolution reason tr :
  safe tr (apply_bond_resolution settings order resolution reason).
Proof.
  apply (safe_try_with _ _ all_read); [apply gp_active_bonds|]. intros active tr' _ Ha.
  apply safe_try; [safe_walk|]. intros is_range tr2 H2.
  apply safe_try.
  { apply safe_fold. intros acc fs tr3 H3.
    apply safe_apply_side. eapply all_read_mono; [|exact Ha]. by eapply incl_tran. }
  intros [ids rows] tr3 H3. apply safe_bind; [|safe_walk]. apply safe_each. intros b tr4 Hb H4.
  destruct (existsb _ _); [apply safe_ret|]. destruct (_ && _); [apply safe_ret|].
  apply safe_bind; [|safe_walk]. apply safe_release_bond.
  eapply read_bond_mono; [|by apply Ha]. eauto using incl_tran.
Qed.

Lemma safe_timeout order cfg tr : safe tr (slash_or_release_on_timeout settings order cfg).
Proof.
  unfold slash_or_release_on_timeout. destruct (responsible_side order) as [side|]; [|safe_walk].
  cbv zeta. apply safe_try; [apply safe_ret|]. intros maker tr1 H1.
  destruct (negb _); [safe_walk|].
  apply (safe_try_with _ _ all_read); [apply gp_active_bonds|]. intros active tr2 _ Ha.
  apply safe_try; [safe_walk|]. intros is_range tr3 H3.
  apply (safe_try_with _ _ (fun r tr' => match r with Some b => read_bond b tr' | None => True end)).
  { eapply gp_mono; [|apply gp_slash_target; by eapply all_read_mono]. by intros [[b|]|]. }
  intros [b|] tr4 H4 Hb; [|safe_walk]. apply safe_try.
  { destruct (maker && is_range); [safe_walk|]. apply safe_bind; [by apply safe_slash_one|safe_walk]. }
  intros row tr5 H5. apply safe_bind; [|safe_walk]. apply safe_each. intros x tr6 Hx H6.
  destruct (N.eqb _ _); [apply safe_ret|]. destruct (_ && _); [apply safe_ret|].
  apply safe_bind; [|safe_walk]. apply safe_release_bond.
  eapply read_bond_mono; [|by apply Ha]. eauto 6 using incl_tran.
Qed.

(** ** Requesting and locking *)

Lemma gp_create_bond b tr :
  gp tr (create_bond b) (fun r tr' => incl tr tr' /\
    match r with Ok b' => read_bond b' tr' | Err _ => True end).
Proof.
  intros [[b'|e]|e]; cbn; (split; [apply incl_cons_r, incl_refl|]); try done.
  eexists. split; [by left|]. constructor. intros db x. unfold bond_create.
  destruct (bond_unique_violation b db); [done|]. cbn. intros [= <-]. apply in_or_app. right. by left.
Qed.

Lemma safe_ship order b bolt11 h fiat dest rid idx tr :
  read_bond b tr -> safe tr (ship_bond_invoice order b bolt11 h fiat dest rid idx).
Proof.
  intros Hb. unfold ship_bond_invoice. apply safe_try; [apply safe_ret|]. intros kind tr1 H1. cbv zeta.
  apply safe_bind; [safe_walk|]. intros [?|e] tr2 H2; [safe_walk|].
  apply safe_bind; [|safe_walk]. apply safe_release_bond. eauto using read_bond_mono, incl_tran.
Qed.

Lemma safe_request_taker order pk rid ctx tr :
  safe tr (request_taker_bond settings order pk rid ctx).
Proof.
  unfold request_taker_bond. apply safe_try; [apply safe_ret|]. intros cfg tr1 _.
  apply safe_try; [safe_walk|]. intros [[b bolt11] h] tr2 _.
  apply (safe_try_with _ _ _ _ _ _ (gp_create_bond _ _)). intros b' tr3 _ Hb.
  apply safe_try; [by apply safe_ship|safe_walk].
Qed.

Lemma safe_request_maker order pk notional rid idx tr :
  safe tr (request_maker_bond settings order pk notional rid idx).
Proof.
  unfold request_maker_bond. apply safe_try; [apply safe_ret|]. intros cfg tr1 _.
  apply safe_try; [safe_walk|]. intros [[b bolt11] h] tr2 _.
  apply (safe_try_with _ _ _ _ _ _ (gp_create_bond _ _)). intros b' tr3 _ Hb.
  apply safe_try; [by apply safe_ship|safe_walk].
Qed.

(** The escrow of a take that lost the race is withdrawn by the task that
    made it. *)
Lemma gp_create_hold memo amount tr :
  gp tr (create_hold_invoice settings memo amount) (fun r tr' => incl tr tr' /\
    match r with
    | Ok (_, p, h) => In (ObsExt RandomBytes32 p) tr' /\ h = raw_sha256 p
    | Err _ => True
    end).
Proof.
  split; [done|]. intros p. split; [done|]. intros [pr|e]; cbn;
    (split; [apply incl_cons_r, incl_cons_r, incl_refl|]); [|done]. split; [by right; left|done].
Qed.

Lemma safe_show_hold pr buyer seller order rid origin tr :
  safe tr (show_hold_invoice settings pr buyer seller order rid origin).
Proof.
  unfold show_hold_invoice. apply safe_try; [safe_walk|]. intros _ tr1 _. cbv zeta.
  eapply safe_bind_with; [apply gp_create_hold|]. intros [[[bolt11 p] h]|e] tr2 _; [|intros _; apply safe_ret].
  intros [Hp ->]. unfold try at 1. cbn [wrap_err map_err bind].
  apply safe_bind; [safe_walk|]. intros now tr3 H3. apply safe_bind; [safe_walk|]. intros c tr4 H4.
  apply safe_try; [apply safe_ret|]. intros _ tr5 H5. apply safe_bind; [safe_walk|]. intros pub tr6 H6.
  apply safe_try; [apply safe_ret|]. intros o tr7 H7. apply safe_try; [safe_walk|]. intros won tr8 H8.
  destruct (negb won); [|safe_walk]. apply safe_bind; [|safe_walk].
  apply safe_cancel. intros h Hh. eapply of_own_invoice; [|exact Hh].
  by apply H8, H7, H6, H5, H4, H3.
Qed.
#[local] Hint Resolve safe_request_taker safe_request_maker safe_show_hold : custody.

Lemma safe_losers b tr : safe tr (tear_down_losers b).
Proof.
  unfold tear_down_losers. eapply safe_bind_with; [apply gp_active_bonds|].
  intros [l|e] tr1 _ Ha; [|apply safe_ret]. apply safe_each. intros x tr2 [Hx _]%filter_In H2.
  apply safe_bind; [|safe_walk]. apply safe_release_bond. eapply read_bond_mono; [exact H2|by apply Ha].
Qed.
#[local] Hint Resolve safe_losers : custody.

Lemma safe_continue b rid tr : read_bond b tr -> safe tr (continue_take settings b rid).
Proof.
  intros Hb. unfold continue_take. apply safe_try; [safe_walk|]. intros o tr1 H1.
  destruct (_ && _); [|safe_walk]. apply safe_bind; [|safe_walk]. destruct (canceled_status _); [|safe_walk].
  apply safe_bind; [|safe_walk]. apply safe_release_bond. by eapply read_bond_mono.
Qed.

Lemma safe_accepted h rid tr : safe tr (on_bond_invoice_accepted settings h rid).
Proof.
  unfold on_bond_invoice_accepted. apply safe_try; [safe_walk|]. intros [b|] tr1 _; [|apply safe_ret].
  destruct (str_eqb _ _); [safe_walk|]. apply safe_bind; [safe_walk|]. intros now tr2 _.
  apply safe_try; [safe_walk|]. intros rows tr3 _.
  apply (safe_try_with _ _ (fun r tr' => match r with Some b => read_bond b tr' | None => True end)).
  { eapply gp_mono; [|apply gp_find_bond]. by intros [[x|]|]. }
  intros [c|] tr4 _ Hc; [|apply safe_ret]. destruct (state_from_str (state c)); [|apply safe_ret].
  destruct (_ && _).
  - apply safe_bind; [|safe_walk]. destruct (negb _); [|safe_walk].
    apply safe_bind; [by apply safe_release_bond|safe_walk].
  - apply safe_bind; [safe_walk|]. intros _ tr5 H5. destruct (negb _); [apply safe_ret|].
    apply safe_continue. by eapply read_bond_mono.
Qed.
End Bonds.

#[export] Hint Resolve safe_walk_to_root safe_close safe_apply_resolution safe_timeout
  safe_release_active safe_request_taker safe_request_maker safe_show_hold safe_accepted : custody.

(** ** Handlers *)

Section Handlers.
Context `{HC : Core} `{HL : Lib} `{HP : PayoutLib} (settings : Settings) (node_pubkey : string).

Abbreviation safe := (safe settings node_pubkey).
Abbreviation gp := (gp settings node_pubkey).

Lemma gp_get_order msg tr :
  gp tr (get_order msg) (fun r tr' => incl tr tr' /\
    match r with Ok o => exists i, m_id msg = Some i /\ read_order i o tr' | Err _ => True end).
Proof.
  unfold get_order. destruct (m_id msg) as [i|]; [|split; [apply incl_refl|done]].
  unfold try at 1. cbn [ok_or bind]. apply gp_bind. eapply gp_mono; [|apply gp_query].
  intros [[o|]|] tr' _ [Hi Hin]; (split; [done|]); try done. by exists i.
Qed.

Lemma safe_settle_escrow event admin o tr :
  (forall p, is_preimage (o_preimage o) p ->
     (admin = false -> get_seller_pubkey o = Ok (u_sender event)) -> authorised node_pubkey p tr) ->
  safe tr (settle_seller_hold_invoice event admin o).
Proof.
  intros Hp. unfold settle_seller_hold_invoice. destruct (get_seller_pubkey o) as [k|]; [|apply safe_ret].
  unfold try at 1. cbn [map_err bind]. destruct (negb admin && _) eqn:Hg; [apply safe_ret|].
  destruct (o_preimage o) as [s|]; [|apply safe_ret]. apply safe_settle. intros p Hs.
  apply Hp; [by exists s|]. intros ->. cbn in Hg. apply negb_false_iff, str_eqb_eq in Hg. by subst.
Qed.

Lemma checked_status o s : is_ok (check_status o s) = true -> check_status o s = Ok tt.
Proof. by destruct (check_status o s) as [[]|]. Qed.

Lemma safe_release u tr :
  received Release u tr -> safe tr (release_action settings (u_message u) u).
Proof.
  intros Hr. unfold release_action. cbv zeta.
  apply (safe_try_with _ _ _ _ _ _ (gp_get_order _ _)). intros o tr1 H1 (i & Hi & Ho).
  apply safe_try; [apply safe_ret|]. intros seller tr2 H2.
  apply safe_try; [apply safe_ret|]. intros buyer tr3 H3.
  destruct (negb (str_eqb _ _)); [apply safe_ret|].
  destruct (negb (is_ok (check_status o FiatSent)) && _) eqn:Hs; [apply safe_ret|].
  apply safe_try; [apply safe_ret|]. intros next tr4 H4.
  apply safe_try; [|safe_walk]. apply safe_settle_escrow. intros p Hp Hk.
  assert (incl tr1 tr4) as Hin by (by eapply incl_tran; [|eapply incl_tran]).
  eapply by_seller; [|exact Hi|by apply Hin| |  |exact Hp]; [|by apply Hk|].
  - eapply received_mono; [|exact Hr]. by eapply incl_tran.
  - apply andb_false_iff in Hs. rewrite !negb_false_iff in Hs.
    destruct Hs; [left|right]; by apply checked_status.
Qed.

Lemma gp_assigned u o tr :
  gp tr (check_assigned node_pubkey u o) (fun r tr' => incl tr tr' /\
    match r with Ok _ => assigned_solver node_pubkey u (o_id o) tr' | Err _ => True end).
Proof.
  unfold check_assigned. apply gp_bind. eapply gp_mono; [|apply gp_query].
  intros [[|]|] tr1 _ [H1 Hin1]; [| |by split].
  - unfold ensure_dispute_finalize_permission. apply gp_bind.
    eapply gp_mono; [|apply gp_query]. intros [[|]|] tr2 _ [H2 Hin2]; cbn [negb];
      [|by split; [eapply incl_tran|]..].
    destruct (str_eqb (u_identity u) node_pubkey) eqn:Hk.
    + apply str_eqb_eq in Hk. split; [by eapply incl_tran|]. split; [done|by left].
    + apply gp_bind. eapply gp_mono; [|apply gp_query].
      intros [[|]|] tr3 _ [H3 Hin3]; (split; [by eapply incl_tran; [|eapply incl_tran]|]); try done.
      split; [by apply H3|by right].
  - apply gp_bind. assert (safe tr1 (is_dispute_taken_by_admin (o_id o) node_pubkey)) as Hs by safe_walk.
    eapply gp_mono; [|exact Hs]. intros [by_admin|] tr2 _ H2; by split; [eapply incl_tran|].
Qed.

Lemma safe_admin_settle u tr :
  ordered node_pubkey AdminSettle u tr ->
  safe tr (admin_settle_action settings node_pubkey (u_message u) u).
Proof.
  intros Hr. unfold admin_settle_action. cbv zeta.
  apply (safe_try_with _ _ _ _ _ _ (gp_get_order _ _)). intros o tr1 H1 (i & Hi & Ho).
  apply (safe_try_with _ _ _ _ _ _ (gp_assigned _ _ _)). intros _ tr2 H2 Ha.
  destruct (is_ok (check_status o CooperativelyCanceled)); [safe_walk|].
  apply (safe_try_with _ _ (fun _ _ => check_status o Dispute = Ok tt)).
  { split; [apply incl_refl|]. by destruct (check_status o Dispute) as [[]|]. }
  intros _ tr3 H3 Hs. apply safe_try; [safe_walk|]. intros _ tr4 H4.
  apply safe_bind; [|safe_walk]. apply safe_settle_escrow. intros p Hp _.
  assert (incl tr2 tr4) as Hin by by eapply incl_tran.
  eapply by_solver; [| exact Hi|by apply Hin, H2|exact Hs| |exact Hp].
  - eapply ordered_mono; [|exact Hr]. by eapply incl_tran; [|eapply incl_tran].
  - destruct Ha as [Ha Hb]. split; [by apply Hin|]. destruct Hb; auto.
Qed.

(** ** Cancelling *)

Lemma safe_return_escrow o tr :
  (forall h, is_hash (o_hash o) h -> returnable settings node_pubkey h tr) -> safe tr (return_escrow o).
Proof.
  intros Hh. unfold return_escrow. destruct (o_hash o) as [s|]; [|apply safe_ret]. by apply safe_cancel.
Qed.

(** The order of a Cancel message, as read. *)
Definition cancel_request (u : UnwrappedMessage) (o : Order) (tr : history) : Prop :=
  received Cancel u tr /\ exists i, m_id (u_message u) = Some i /\ read_order i o tr.

Lemma cancel_request_mono u o tr tr' : incl tr tr' -> cancel_request u o tr -> cancel_request u o tr'.
Proof.
  intros Hi [Hr (i & Hm & Ho)]. split; [by eapply received_mono|]. exists i. split; [done|by apply Hi].
Qed.

Lemma returnable_by_participant u o h tr :
  cancel_request u o tr -> not_yet_active o -> involved u o tr -> is_hash (o_hash o) h ->
  returnable settings node_pubkey h tr.
Proof. intros [Hr (i & Hm & Ho)] ? ? ?. by eapply by_participant. Qed.

Lemma safe_by_taker u o rid tr :
  cancel_request u o tr -> not_yet_active o -> involved u o tr ->
  safe tr (cancel_order_by_taker u o rid).
Proof.
  intros Hc Hn Hv. unfold cancel_order_by_taker.
  apply (safe_try_with _ _ (fun r tr' => match r with Some b => read_bond b tr' | None => True end)).
  { eapply gp_mono; [|apply gp_query]. intros [[b|]|] tr1 _ [H1 Hin]; (split; [done|]); try done.
    eapply read_option; [|exact Hin]. intros db x. apply head_row. }
  intros b tr1 H1 Hb. apply safe_bind.
  { destruct b; [|apply safe_ret]. apply safe_bind; [by apply safe_release_bond|safe_walk]. }
  intros _ tr2 H2. apply safe_try; [safe_walk|]. intros rest tr3 H3. destruct (existsb _ _); [safe_walk|].
  assert (incl tr tr3) as Hi by (by eapply incl_tran; [|eapply incl_tran]).
  apply safe_try; [|safe_walk]. apply safe_return_escrow. intros h Hh.
  eapply returnable_by_participant; eauto using cancel_request_mono, involved_mono.
Qed.

Lemma safe_by_maker u o taker rid tr :
  cancel_request u o tr -> not_yet_active o -> involved u o tr ->
  safe tr (cancel_order_by_maker u o taker rid).
Proof.
  intros Hc Hn Hv. unfold cancel_order_by_maker. apply safe_bind; [safe_walk|]. intros pub tr1 H1.
  apply safe_try; [safe_walk|]. intros _ tr2 H2. assert (incl tr tr2) as Hi by by eapply incl_tran.
  apply safe_try; [|safe_walk]. apply safe_return_escrow. intros h Hh.
  eapply returnable_by_participant; eauto using cancel_request_mono, involved_mono.
Qed.

(** Both parties agree: the sender and the recorded initiator. *)
Lemma safe_cancel_active u o rid tr :
  cancel_request u o tr -> In (get_order_status o) [Ok Active; Ok FiatSent; Ok Dispute] ->
  safe tr (cancel_active_order u o rid).
Proof.
  intros [Hr (i & Hm & Ho)] Hs. unfold cancel_active_order.
  destruct (get_seller_pubkey o) as [seller|] eqn:Es; [|apply safe_ret].
  unfold try at 1. cbn [map_err bind]. destruct (get_buyer_pubkey o) as [buyer|] eqn:Eb; [|apply safe_ret].
  unfold try at 1. cbn [map_err bind]. destruct (_ && _) eqn:Hp; [apply safe_ret|].
  destruct (if str_eqb buyer (u_sender u) then _ else _) as [o' k] eqn:Eo.
  assert (parties u k o /\ o_hash o' = o_hash o /\
    o_cancel_initiator_pubkey o' = o_cancel_initiator_pubkey o) as (Hk & Hh & Hi).
  { destruct (str_eqb buyer (u_sender u)) eqn:E; injection Eo as <- <-; (split; [|done]).
    - apply str_eqb_eq in E. subst. by left.
    - right. split; [|done]. rewrite Es. f_equal. apply andb_false_iff in Hp.
      rewrite !negb_false_iff in Hp. destruct Hp as [Hp|Hp]; apply str_eqb_eq in Hp; [|done].
      rewrite Hp, str_eqb_refl in E. done. }
  rewrite Hi. destruct (o_cancel_initiator_pubkey o) as [k'|] eqn:Ei; [|safe_walk].
  destruct (str_eqb k' k) eqn:E; cbn [negb]; [|apply safe_ret]. apply str_eqb_eq in E. subst k'.
  unfold cancel_cooperative_execution_step_2. destruct (bool_decide _); [apply safe_ret|].
  apply safe_try; [|safe_walk]. apply safe_return_escrow. intros h Hx. rewrite Hh in Hx. by eapply by_both.
Qed.

Lemma safe_cancel_waiting u o rid tr :
  cancel_request u o tr -> not_yet_active o -> safe tr (cancel_not_active_order u o rid).
Proof.
  intros Hc Hn. unfold cancel_not_active_order.
  destruct (get_seller_pubkey o) as [seller|] eqn:Es; [|apply safe_ret].
  unfold try at 1. cbn [map_err bind]. destruct (get_buyer_pubkey o) as [buyer|] eqn:Eb; [|apply safe_ret].
  unfold try at 1. cbn [map_err bind].
  assert (forall taker, taker = buyer \/ taker = seller -> safe tr
    (if is_ok (sent_from_maker o (u_sender u)) then cancel_order_by_maker u o taker rid
     else if str_eqb (u_sender u) taker then cancel_order_by_taker u o rid
     else Ret (Err (MostroCantDo CantDoInvalidPubkey)))) as Hsafe.
  { intros taker Ht. destruct (sent_from_maker o (u_sender u)) as [[]|] eqn:Em; cbn [is_ok].
    - apply safe_by_maker; [done..|by left].
    - destruct (str_eqb (u_sender u) taker) eqn:E; [|apply safe_ret].
      apply str_eqb_eq in E. apply safe_by_taker; [done..|]. unfold involved. rewrite E.
      destruct Ht as [->| ->]; rewrite ?Eb, ?Es; tauto. }
  destruct (str_eqb (o_creator_pubkey o) seller); [apply Hsafe; by left|].
  destruct (str_eqb (o_creator_pubkey o) buyer); [apply Hsafe; by right|apply safe_ret].
Qed.

Lemma taker_match_involved u o tr : order_taker_match o (u_sender u) = true -> involved u o tr.
Proof.
  unfold order_taker_match, involved. cbv zeta. rewrite orb_true_iff.
  destruct (o_buyer_pubkey o) as [b|]; destruct (o_seller_pubkey o) as [s|]; intros [Hm|Hm]; try done;
    apply andb_true_iff in Hm as [E%str_eqb_eq _]; subst; tauto.
Qed.

Lemma safe_cancel_action u tr :
  received Cancel u tr -> safe tr (cancel_action (u_message u) u).
Proof.
  intros Hr. unfold cancel_action. cbv zeta.
  apply (safe_try_with _ _ _ _ _ _ (gp_get_order _ _)). intros o tr1 H1 (i & Hi & Ho).
  assert (cancel_request u o tr1) as Hc by (split; [by eapply received_mono|by exists i]).
  destruct (_ || _ || _); [apply safe_ret|].
  destruct (is_ok (check_status o Pending) || is_ok (check_status o WaitingTakerBond)) eqn:Hp.
  - assert (not_yet_active o) as Hn.
    { apply orb_true_iff in Hp as [?|?]; [left|right; left]; by apply checked_status. }
    destruct (is_ok (sent_from_maker o (u_sender u))); [safe_walk|].
    eapply safe_bind_with; [apply gp_active_bonds|]. intros found tr2 H2 Hf.
    clear Hp. cbv zeta. destruct (_ || _) eqn:Hm; [|apply safe_ret].
    apply safe_by_taker; [by eapply cancel_request_mono|done|].
    apply orb_true_iff in Hm as [Hm|Hm]; [|by apply taker_match_involved].
    destruct found as [l|]; [|done]. apply existsb_exists in Hm as (b & Hb & E%str_eqb_eq).
    do 5 right. exists b. split; [by apply Hf|done].
  - clear Hp. destruct (get_order_status o) as [st|] eqn:Es; [|apply safe_ret].
    unfold try at 1. cbn [map_err bind].
    destruct st; try apply safe_ret;
      first [apply safe_cancel_active; [done|rewrite Es; cbn; tauto]
            |apply safe_cancel_waiting; [done|unfold not_yet_active; rewrite Es; tauto]].
Qed.

Lemma safe_admin_cancel u tr :
  ordered node_pubkey AdminCancel u tr ->
  safe tr (admin_cancel_action settings node_pubkey (u_message u) u).
Proof.
  intros Hr. unfold admin_cancel_action. cbv zeta.
  apply (safe_try_with _ _ _ _ _ _ (gp_get_order _ _)). intros o tr1 H1 (i & Hi & Ho).
  apply (safe_try_with _ _ _ _ _ _ (gp_assigned _ _ _)). intros _ tr2 H2 Ha.
  destruct (is_ok (check_status o CooperativelyCanceled)); [safe_walk|].
  destruct (is_ok (check_status o Dispute)) eqn:Hs; cbn [negb]; [|apply safe_ret].
  apply safe_try; [safe_walk|]. intros _ tr3 H3. apply safe_try; [|safe_walk].
  apply safe_return_escrow. intros h Hh.
  eapply by_verdict; [|exact Hi|by apply H3, H2|by apply checked_status| |exact Hh].
  - eapply ordered_mono; [|exact Hr]. by eapply incl_tran; [|eapply incl_tran].
  - by eapply assigned_mono.
Qed.

Lemma safe_handle a u tr :
  received a u tr ->
  safe tr (handle_message_action settings node_pubkey a (u_message u) u).
Proof.
  intros Hr. destruct a; cbn [handle_message_action handle_message_action_no_ln];
    lazymatch goal with
    | |- context [release_action] => apply safe_try; [by apply safe_release|safe_walk]
    | |- context [admin_settle_action] => apply safe_try; [apply safe_admin_settle; by left|safe_walk]
    | |- context [cancel_action] => by apply safe_cancel_action
    | |- context [admin_cancel_action] => apply safe_admin_cancel; by left
    | |- _ => safe_walk
    end.
Qed.

(** An accepted message comes from a genuine event. *)
Lemma gp_accept e pow pfc kind gate tr :
  In (ObsExt NextEvent e) tr ->
  gp tr (accept_event e pow pfc kind gate) (fun r tr' => incl tr tr' /\
    match r.2 with Some (a, m, u) => m = u_message u /\ received a u tr' | None => True end).
Proof.
  intros He. unfold accept_event. destruct (negb (check_pow e pow)); [split; [apply incl_refl|done]|].
  destruct (negb (ne_kind e =? kind)); [split; [apply incl_refl|done]|].
  destruct (event_verify e) eqn:Hv; [cbn [negb]|split; [apply incl_refl|done]].
  assert (forall tr1, incl tr tr1 -> gp tr1 (accept_unwrapped e) (fun r tr' => incl tr1 tr' /\
    match r with Some (a, m, u) => m = u_message u /\ received a u tr' | None => True end)) as Hu.
  { intros tr1 H1. unfold accept_unwrapped.
    destruct (unwrap_incoming e) as [[u|]|] eqn:Hw; try (split; [apply incl_refl|done]).
    split; [done|]. intros now. cbn [bind]. cbv zeta.
    destruct (_ <? _); [split; [apply incl_cons_r, incl_refl|done]|].
    destruct (_ && _); [split; [apply incl_cons_r, incl_refl|done]|].
    apply gp_bind. assert (safe (@ObsExt DB ext Z Now now :: tr1) (check_trade_index u (u_message u)))
      as Hs by safe_walk.
    eapply gp_mono; [|exact Hs]. intros r tr2 _ [Hn H2]%incl_cons_inv.
    destruct r as [_|e']; [|by split]. destruct (negb _); [by split|].
    split; [done|]. destruct (inner_action (u_message u)) as [a|] eqn:Ha; [|done].
    split; [done|]. exists e. split_and!; [|done..]. by apply H2, H1. }
  destruct gate as [g|].
  - split; [done|]. intros now. cbn [bind]. destruct (gate_admits _ _ _ _) as [g' [|]]; cbn [negb].
    + apply gp_bind. eapply gp_mono; [|apply Hu, incl_cons_r, incl_refl].
      intros r tr' _ [Hi Hr]. split; [by apply incl_cons_inv in Hi as []|done].
    + split; [apply incl_cons_r, incl_refl|done].
  - apply gp_bind. eapply gp_mono; [|apply Hu, incl_refl]. by intros r tr' _ [Hi Hr].
Qed.

Lemma safe_turn kind gate tr :
  safe tr (turn settings (handle_message_action settings node_pubkey) kind gate).
Proof.
  apply (safe_bind_with _ _ (fun e tr' => In (ObsExt NextEvent e) tr')).
  { split; [done|]. intros e. split; [apply incl_cons_r, incl_refl|by left]. }
  intros e tr1 H1 He. eapply safe_bind_with; [by apply gp_accept|].
  intros [g [[[a m] u]|]] tr2 H2; [|intros _; apply safe_ret]. cbn [fst snd]. intros [-> Hr].
  apply safe_bind; [by apply safe_handle|]. safe_walk.
Qed.

(** ** The operator interface *)

Lemma safe_call_admin {A} failed msg (action : Message -> UnwrappedMessage -> M (result A MostroError)) tr :
  (forall now tr', incl tr tr' -> safe tr' (action msg (operator_event node_pubkey msg now))) ->
  safe tr (call_admin node_pubkey failed msg action).
Proof.
  intros Ha. unfold call_admin. apply safe_bind; [safe_walk|]. intros now tr1 H1.
  apply safe_bind; [safe_walk|]. intros [[]|] tr2 H2; [|apply safe_ret].
  apply safe_bind; [|safe_walk]. apply Ha. by eapply incl_tran.
Qed.

Lemma safe_rpc_turn limiter tr : safe tr (rpc_turn settings node_pubkey limiter).
Proof.
  apply (safe_bind_with _ _ (fun req tr' => In (ObsExt NextRpc req) tr')).
  { split; [done|]. intros req. split; [apply incl_cons_r, incl_refl|by left]. }
  intros req tr1 H1 Hreq. apply safe_bind; [|safe_walk].
  assert (forall m tr2, incl tr1 tr2 -> operator_message req = Some (Ok m) -> forall now tr3,
    incl tr2 tr3 -> ordered node_pubkey (m_action m) (operator_event node_pubkey m now) tr3) as Ho.
  { intros m tr2 H2 Hm now tr3 H3. right. exists req, m, now. split_and!; auto. }
  destruct req; cbn [serve]; try apply safe_ret; [..|safe_walk];
    (destruct (operator_message _) as [[m|e]|] eqn:Em; [|apply safe_ret..]);
    (apply safe_bind; [|safe_walk]); cbn [admin_call];
    apply safe_call_admin; intros now tr2 H2;
    specialize (Ho m tr1 (incl_refl _) eq_refl now tr2 H2);
    cbn [operator_message] in Em; try destruct (uuid_parse_str _); simplify_eq/=.
  - by apply (safe_admin_cancel (operator_event node_pubkey _ now)).
  - by apply (safe_admin_settle (operator_event node_pubkey _ now)).
  - safe_walk.
  - safe_walk.
Qed.

(** ** Subscribers and jobs *)

Lemma safe_forever ticks tick tr :
  (forall tr', safe tr' tick) -> safe tr (forever ticks tick).
Proof.
  intros Ht. revert tr. induction ticks as [|n IH]; intros tr; cbn [forever]; [apply safe_ret|].
  apply safe_bind; [apply Ht|]. intros _ tr' _. apply IH.
Qed.

Lemma safe_trade_subscriber n hash rid tr : safe tr (trade_subscriber settings n hash rid).
Proof.
  revert tr. induction n as [|n IH]; intros tr; cbn [trade_subscriber]; [apply safe_ret|].
  apply safe_bind; [safe_walk|]. intros [state|] tr' _; [|apply safe_ret].
  apply safe_bind; [|intros ? ? _; apply IH]. destruct state; safe_walk.
Qed.

Lemma safe_bond_subscriber n hash rid tr : safe tr (bond_subscriber settings n hash rid).
Proof.
  revert tr. induction n as [|n IH]; intros tr; cbn [bond_subscriber]; [apply safe_ret|].
  apply safe_bind; [safe_walk|]. intros [state|] tr' _; [|apply safe_ret].
  apply safe_bind; [|intros ? ? _; apply IH]. destruct state; safe_walk.
Qed.

Lemma safe_job_reconcile ticks tr : safe tr (job_reconcile_stranded_maker_bonds ticks).
Proof.
  revert tr. induction ticks as [|n IH]; intros tr; cbn [job_reconcile_stranded_maker_bonds];
    [apply safe_ret|]. apply safe_bind; [safe_walk|]. intros _ tr' _. apply IH.
Qed.

Lemma safe_timed_out o tr : safe tr (cancel_timed_out settings o).
Proof.
  unfold cancel_timed_out.
  apply (safe_bind_with _ _ (fun r tr' => match r with
    | Some o => exists i now, read_order i o tr' /\ is_waiting o = true /\ In (ObsExt Now now) tr' /\
        o_taken_at o < now - expiration_seconds (get_mostro settings)
    | None => True end)).
  { unfold reconfirm_timeout_eligibility. apply gp_bind. eapply gp_mono; [|apply gp_query].
    intros [[fresh|]|] tr1 _ [H1 Hin]; [|by split..]. split; [done|]. intros now.
    split; [by apply incl_cons_r|]. destruct (is_waiting fresh) eqn:Hw; [|done].
    destruct (o_taken_at fresh <? _) eqn:Ht; [|done]. bool_prop.
    exists (o_id o), now. split_and!; [by right|done|by left|done]. }
  intros [fresh|] tr1 H1 Hf; [|apply safe_ret]. destruct Hf as (i & now & Ho & Hw & Hn & Ht). rewrite Hw.
  apply safe_bind; [|safe_walk]. apply safe_return_escrow. intros h Hh. by eapply by_timeout.
Qed.
#[local] Hint Resolve safe_timed_out : custody.

(** What the guardian knows of the chain. *)
Definition height_known (chain : option Z) (tr : history) : Prop :=
  match chain with
  | Some c => In (ObsExt LndChainHeight (Ok c)) tr
  | None => exists e, In (ObsExt LndChainHeight (Err e)) tr
  end.

Lemma height_known_mono chain tr tr' : incl tr tr' -> height_known chain tr -> height_known chain tr'.
Proof. intros Hi. destruct chain; cbn; [apply Hi|]. intros [e He]. exists e. by apply Hi. Qed.

Lemma gp_escrow_due chain o s now tr :
  height_known chain tr ->
  gp tr (escrow_due settings chain o s now) (fun due tr' => incl tr tr' /\
    (due.1 = true -> deadline_reached settings o s now tr')).
Proof.
  intros Hc. unfold escrow_due. destruct chain as [c|]; cbn in Hc.
  2:{ split; [apply incl_refl|]. intros Hp. apply by_clock; [by left|done]. }
  unfold get_hold_invoice_expiry_height, try. destruct (decode_hash32 "payment hash" s) as [h|e] eqn:Ed.
  2:{ split; [apply incl_refl|]. intros Hp. apply by_clock; [right; left; eauto|done]. }
  cbn. split; [done|]. intros [htlcs|e]; cbn; (split; [apply incl_cons_r, incl_refl|]).
  - intros Hd. eapply by_height; [right; exact Hc|exact Ed|by left|].
    destruct (earliest_expiry htlcs); cbn in Hd; [by apply Z.leb_le in Hd|done].
  - intros Hp. apply by_clock; [|done]. right. right. exists h, e. split; [done|by left].
Qed.

Lemma safe_guard_order chain now l o tr :
  In (ObsExt Now now) tr -> In (ObsSql (query (held_escrows (guard_cutoff settings now))) (Ok l)) tr ->
  In o l -> height_known chain tr -> safe tr (guard_order settings chain now o).
Proof.
  intros Hn Hl Ho Hc. unfold guard_order. destruct (get_order_status o) as [st|] eqn:Es; [|apply safe_ret].
  destruct (o_hash o) as [s|] eqn:Eh; [|apply safe_ret].
  eapply safe_bind_with; [by apply gp_escrow_due|].
  intros [due gone] tr1 H1. cbn [fst snd]. intros Hd. destruct due; [|apply safe_ret]. cbn [negb].
  destruct st; try apply safe_ret; [|safe_walk].
  apply safe_bind; [|safe_walk]. apply safe_cancel. intros h Hh.
  eapply by_deadline; [apply H1, Hn|apply H1, Hl|exact Ho|done|exact Eh|by apply Hd|by rewrite Eh].
Qed.

Lemma safe_deadline_pass tr : safe tr (enforce_escrow_deadline_pass settings).
Proof.
  unfold enforce_escrow_deadline_pass.
  apply (safe_bind_with _ _ (fun now tr' => In (ObsExt Now now) tr')).
  { split; [done|]. intros now. split; [apply incl_cons_r, incl_refl|by left]. }
  intros now tr1 _ Hn. cbv zeta. apply (safe_try_with _ _ _ _ _ _ (gp_query _ _ _ _)). intros l tr2 H2 Hl.
  apply (safe_bind_with _ _ (fun height tr' =>
    height_known (match height with Ok h => Some h | Err _ => None end) tr')).
  { split; [done|]. intros [h|e]; cbn; (split; [apply incl_cons_r, incl_refl|]); [by left|exists e; by left]. }
  intros height tr3 H3 Hc. apply safe_bind; [|safe_walk].
  apply safe_each. intros o tr4 Ho H4. eapply safe_guard_order; [|by apply H4, H3|exact Ho|].
  - by apply H4, H3, H2.
  - by eapply height_known_mono.
Qed.
#[local] Hint Resolve safe_deadline_pass : custody.

Lemma safe_cancel_job ticks tr : safe tr (job_cancel_orders settings ticks).
Proof. apply safe_bind; [safe_walk|]. intros [?|?] tr' _; [apply safe_forever|apply safe_ret]; safe_walk. Qed.

Lemma safe_deadline_job ticks tr : safe tr (job_enforce_escrow_deadline settings ticks).
Proof. apply safe_bind; [safe_walk|]. intros [?|?] tr' _; [apply safe_forever|apply safe_ret]; safe_walk. Qed.

Lemma safe_expire_job ticks tr : safe tr (job_expire_pending_older_orders settings ticks).
Proof. apply safe_forever. safe_walk. Qed.

Lemma safe_await beats d t tr : safe tr (await_permit beats d t).
Proof.
  revert t tr. induction beats as [|n IH]; intros t tr; cbn [await_permit]; [apply safe_ret|].
  apply safe_bind; [safe_walk|]. intros [[t'|]|] tr' _; [apply IH|apply safe_ret..].
Qed.
#[local] Hint Resolve safe_await : custody.

Lemma safe_dispatch beats d tr : safe tr (dispatch_payout settings beats d).
Proof. safe_walk. Qed.

Lemma safe_reconcile_payouts tries ticks tr : safe tr (job_reconcile_inflight_payouts settings tries ticks).
Proof.
  revert tr. induction tries as [|n IH]; intros tr; cbn [job_reconcile_inflight_payouts]; [apply safe_ret|].
  apply safe_bind; [safe_walk|]. intros [?|?] tr' _; [|apply IH].
  clear IH. revert tr'. induction ticks as [|k IH]; intros tr'; cbn [reconcile_ticks]; [apply safe_ret|].
  apply safe_bind; [safe_walk|]. intros _ tr2 _. apply IH.
Qed.

Lemma safe_retry_tick tr : safe tr (job_retry_failed_payments_tick settings).
Proof.
  apply safe_bind; [safe_walk|]. intros [failed|] tr' _; [|apply safe_ret].
  revert tr'. induction failed as [|o l IH]; intros tr'; cbn [retry_payments]; [apply safe_ret|].
  destruct (_ <? _); [|apply IH]. apply safe_bind; [safe_walk|]. intros r tr2 _.
  apply safe_bind; [apply IH|]. safe_walk.
Qed.

Lemma safe_finalize n last b share tr : safe tr (slash_after_success_loop n last b share).
Proof.
  revert last tr. induction n as [|n IH]; intros last tr; cbn [slash_after_success_loop]; [apply safe_ret|].
  apply safe_bind; [safe_walk|]. intros [rows|e] tr' _; [safe_walk|apply IH].
Qed.
#[local] Hint Resolve safe_finalize : custody.

Lemma safe_payout_job p tr : payout_job settings p -> safe tr p.
Proof.
  destruct 1 as [tries ticks|]; [|apply safe_ret]. unfold job_process_bond_payouts.
  revert tr. induction tries as [|n IH]; intros tr; cbn [job_connect]; [apply safe_ret|].
  apply safe_bind; [safe_walk|]. intros [?|?] tr' _; [|apply IH].
  clear IH. revert tr'. induction ticks as [|k IH]; intros tr'; cbn [payout_ticks]; [apply safe_ret|].
  apply safe_bind; [safe_walk|]. intros _ tr2 _. apply IH.
Qed.

(** ** The daemon *)

(** Everything the daemon runs in Lightning mode: the event loop, the
    operator interface, the subscribers of hold invoices, the jobs and the payouts it spawns. *)
Inductive daemon_task : M unit -> Prop :=
| run_turn kind gate :
    daemon_task (detach (turn settings (handle_message_action settings node_pubkey) kind gate))
| run_rpc limiter : daemon_task (detach (rpc_turn settings node_pubkey limiter))
| run_trade_subscriber n hash rid : daemon_task (trade_subscriber settings n hash rid)
| run_bond_subscriber n hash rid : daemon_task (bond_subscriber settings n hash rid)
| run_resubscribe : daemon_task (detach resubscribe_active_bonds)
| run_cancel_job ticks : daemon_task (job_cancel_orders settings ticks)
| run_deadline_job ticks : daemon_task (job_enforce_escrow_deadline settings ticks)
| run_expire_job ticks : daemon_task (job_expire_pending_older_orders settings ticks)
| run_reconcile_job ticks : daemon_task (job_reconcile_stranded_maker_bonds ticks)
| run_dispatch beats d : daemon_task (dispatch_payout settings beats d)
| run_reconcile_payouts tries ticks :
    daemon_task (job_reconcile_inflight_payouts settings tries ticks)
| run_retry_payments : daemon_task (detach (job_retry_failed_payments_tick settings)).

Lemma safe_detach {A} (p : M A) tr : safe tr p -> safe tr (detach p).
Proof. intros Hp. apply safe_bind; [done|]. safe_walk. Qed.

Lemma safe_task p tr : daemon_task p -> safe tr p.
Proof.
  destruct 1; try apply safe_detach;
    auto using safe_turn, safe_rpc_turn, safe_trade_subscriber, safe_bond_subscriber, safe_cancel_job,
      safe_deadline_job, safe_expire_job, safe_job_reconcile, safe_dispatch,
      safe_reconcile_payouts, safe_retry_tick.
  safe_walk.
Qed.

(** Any answers at all: the law is trivial. *)
Definition any_step : Sys DB ext -> Sys DB ext -> Prop :=
  sys_step daemon_task (payout_job settings) (fun _ => True).

(** A freshly started daemon, on any database. *)
Definition fresh (s : Sys DB ext) : Prop :=
  s_trace s = [] /\ threads s = [] /\ payout_job settings (sched s).

(** A task and what it has observed. *)
Definition in_custody (tr : history) (p : M unit) : Prop :=
  exists own, incl own tr /\ safe own p.

(** The request is allowed by what was observed before it. *)
Definition lawful_obs (tr : history) (o : obs DB ext) : Prop :=
  match o with ObsExt e _ => allowed settings node_pubkey tr e | ObsSql _ _ => True end.

Record custody_sys (s : Sys DB ext) : Prop := {
  cs_sched : in_custody (s_trace s) (sched s);
  cs_threads : Forall (in_custody (s_trace s)) (threads s);
  cs_requests : forall later o earlier, s_trace s = (later ++ o :: earlier)%list -> lawful_obs earlier o
}.

Lemma lawful_obs_mono o tr tr' : incl tr tr' -> lawful_obs tr o -> lawful_obs tr' o.
Proof.
  intros Hi. destruct o as [|R e r]; [done|]. unfold lawful_obs, allowed.
  destruct e; try done; [by apply authorised_mono|by apply returnable_mono].
Qed.

Lemma in_custody_mono o tr p : in_custody tr p -> in_custody (o :: tr) p.
Proof. intros (own & Hi & Hs). exists own. split; [by apply incl_cons_r|done]. Qed.

Lemma in_custody_step tr p db o p' db' :
  in_custody tr p -> pstep p db o p' db' -> in_custody (o :: tr) p' /\ lawful_obs tr o.
Proof.
  assert (forall own x (k : M unit), incl own tr ->
    gp (x :: own) k (fun _ tr' => incl own tr') -> in_custody (x :: tr) k) as Hk.
  { intros own x k Hi Hg. exists (x :: own). split.
    - intros y [->|Hy]; [by left|right; by apply Hi].
    - eapply gp_mono; [|exact Hg]. by intros a tr' Hi' _. }
  intros (own & Hi & Hs). destruct 1; cbn in Hs; [split; [by eapply Hk|done]..|].
  destruct Hs as [He Hs]. split; [by eapply Hk|]. by apply (lawful_obs_mono (ObsExt e r) own).
Qed.

Lemma requests_step x tr :
  lawful_obs tr x ->
  (forall later o earlier, tr = (later ++ o :: earlier)%list -> lawful_obs earlier o) ->
  forall later o earlier, x :: tr = (later ++ o :: earlier)%list -> lawful_obs earlier o.
Proof. intros Hx Hr [|y later] o earlier [= -> ->]; [done|]. by eapply Hr. Qed.

Lemma custody_step s s' : custody_sys s -> any_step s s' -> custody_sys s'.
Proof.
  intros [Hsc Hts Hst] Hstep.
  assert (forall o, Forall (in_custody (o :: s_trace s)) (threads s)) as Hts'.
  { intros o. eapply Forall_impl; [exact Hts|]. intros q. apply in_custody_mono. }
  destruct Hstep as [sc ts db tr p Hp|sc ts db tr i p o p' db' Hi Hps _|sc ts db tr o sc' db' Hps _
                    |sc ts db tr sc' Hp]; cbn [sched threads s_trace] in *.
  - split; cbn; [done| |done]. apply Forall_app. split; [done|]. constructor; [|constructor].
    exists []. split; [apply incl_nil_l|by apply safe_task].
  - pose proof (Forall_lookup_1 _ _ _ _ Hts Hi) as Hpi.
    destruct (in_custody_step _ _ _ _ _ _ Hpi Hps) as [Hp' Ho].
    split; cbn; [by apply in_custody_mono| |by apply requests_step]. by apply Forall_insert.
  - destruct (in_custody_step _ _ _ _ _ _ Hsc Hps) as [Hp' Ho].
    split; cbn; [done|done|by apply requests_step].
  - split; cbn; [|constructor|done]. exists []. split; [apply incl_nil_l|by apply safe_payout_job].
Qed.

Lemma fresh_custody s : fresh s -> custody_sys s.
Proof.
  intros (Ht & Hts & Hsc). split; rewrite ?Ht, ?Hts; [|constructor|by intros []].
  exists []. split; [apply incl_nil_l|by apply safe_payout_job].
Qed.

Lemma custody_reachable s0 s later o earlier :
  fresh s0 -> rtc any_step s0 s -> s_trace s = (later ++ o :: earlier)%list -> lawful_obs earlier o.
Proof.
  intros Hf Hr. assert (custody_sys s) as [_ _ Hc]; [|by apply Hc].
  apply fresh_custody in Hf. induction Hr as [|s1 s2 s3 H12 _ IH]; [done|].
  by apply IH, (custody_step s1).
Qed.

(** C1: Custody of the escrow. Whatever the relays deliver and the database
    and LND answer, in any interleaving of event-loop turns, operator calls,
    subscribers, jobs and payouts and with crashes at any point, the daemon asks LND to settle a
    hold invoice only when, before that, a genuine Release of the order's
    seller was received and the order read [fiat-sent] or [dispute], or a
    genuine AdminSettle of the solver its dispute is assigned to, who may write
    or is the node (then the operator may order it too), and it read [dispute], with the preimage of that very
    order; or when the preimage is that of a bond read from the [bonds] table. *)
Theorem escrow_settled_with_authority s0 s later o earlier p :
  fresh s0 -> rtc any_step s0 s -> s_trace s = (later ++ o :: earlier)%list -> settles o = Some p ->
  authorised node_pubkey p earlier.
Proof.
  intros Hf Hr Ho Hp. pose proof (custody_reachable s0 s later o earlier Hf Hr Ho) as Hl.
  destruct o as [|R e r]; [done|]. cbn in Hp, Hl. destruct e; try discriminate Hp.
  by injection Hp as ->.
Qed.

(** C2: Custody of the escrow, the other way. In the same generality, the
    daemon asks LND to cancel a hold invoice, which returns the money to the
    payer, only when, before that: the order read [active], [fiat-sent] or
    [dispute], one party sent a genuine Cancel and the other is on record as
    having asked for it; the assigned solver sent a genuine AdminCancel, or the
    operator ordered it for the node, while it read [dispute]; someone involved
    cancelled it before it was active; it read as waiting, and taken longer ago
    than [expiration_seconds] by the clock; the guardian of deadlines read it
    [active] among the escrows held for half of the guarded time, and its expiry
    height is within the margin of the height LND reports, or LND holds no
    payment for it, or, LND not saying, its nominal deadline has passed; or the
    invoice is that of a bond read from the table, or one the task itself has
    just made.  So neither party alone and no job returns the money of an
    order it has read as [fiat-sent]. *)
Theorem escrow_returned_with_authority s0 s later o earlier h :
  fresh s0 -> rtc any_step s0 s -> s_trace s = (later ++ o :: earlier)%list -> cancels o = Some h ->
  returnable settings node_pubkey h earlier.
Proof.
  intros Hf Hr Ho Hp. pose proof (custody_reachable s0 s later o earlier Hf Hr Ho) as Hl.
  destruct o as [|R e r]; [done|]. cbn in Hp, Hl. destruct e; try discriminate Hp.
  by injection Hp as ->.
Qed.
End Handlers.

(** ** A release *)

(** Order 7, paid in fiat, and the preimage of its escrow. *)
Definition escrow_preimage : list Z := replicate 32 9.

Definition paid_order_db : DB :=
  mkDB [(demo_order 7 FiatSent) <| o_preimage := Some (bytes_to_string escrow_preimage) |>] [] [] [].

Definition demo_loop_turn : M unit :=
  detach (turn demo_settings (handle_message_action demo_settings "node") 14 None).

Definition demo_release_end : Sys DB ext :=
  mkSys (Ret tt) [Ret tt] (run_db (demo_env 1000) demo_loop_turn paid_order_db [])
    (run_trace (demo_env 1000) demo_loop_turn paid_order_db []).

(** The last request of a kind, with the history before it. *)
Definition last_request (req : obs DB ext -> option (list Z)) (tr : history) : option (list Z) :=
  List.find (fun o => is_some (req o)) tr ≫= req.

Lemma last_request_split req tr p :
  last_request req tr = Some p ->
  exists later o earlier, tr = (later ++ o :: earlier)%list /\ req o = Some p.
Proof.
  unfold last_request. destruct (List.find _ tr) as [o|] eqn:E; [|done]. intros Hp.
  apply find_some in E as [(later & earlier & ->)%in_split _]. eauto.
Qed.

Lemma escrow_settled_with_authority_witness :
  exists later o earlier, s_trace demo_release_end = (later ++ o :: earlier)%list /\
    settles o = Some escrow_preimage /\ authorised "node" escrow_preimage earlier.
Proof.
  destruct (last_request_split settles (s_trace demo_release_end) escrow_preimage)
    as (later & o & earlier & Ht & Hs); [vm_compute; reflexivity|].
  exists later, o, earlier. split; [exact Ht|]. split; [exact Hs|].
  apply (escrow_settled_with_authority demo_settings "node" (mkSys (Ret tt) [] paid_order_db [])
    demo_release_end later o earlier); [by split_and!; [..|apply job_idle]| |exact Ht|exact Hs].
  apply (run_task (daemon_task demo_settings "node") _ (fun _ => True)); [done|apply run_turn|done].
Defined.

(** ** A cooperative cancellation *)

Definition escrow_hash : list Z := replicate 32 8.

Definition escrow_db : DB :=
  mkDB [(demo_order 7 FiatSent) <| o_hash := Some (bytes_to_string escrow_hash) |>] [] [] [].

(** First the buyer asks, then the seller agrees. *)
Definition asked_end : Sys DB ext :=
  mkSys (Ret tt) [Ret tt] (run_db (world_env (calm "taker" "cancel" 1000)) demo_loop_turn escrow_db [])
    (run_trace (world_env (calm "taker" "cancel" 1000)) demo_loop_turn escrow_db []).

Definition agree_end : Sys DB ext :=
  mkSys (Ret tt) ([Ret tt] ++ [Ret tt])%list
    (run_db (world_env (calm "maker" "cancel" 1000)) demo_loop_turn (s_db asked_end) (s_trace asked_end))
    (run_trace (world_env (calm "maker" "cancel" 1000)) demo_loop_turn (s_db asked_end) (s_trace asked_end)).

Lemma escrow_returned_with_authority_witness :
  exists later o earlier, s_trace agree_end = (later ++ o :: earlier)%list /\
    cancels o = Some escrow_hash /\ returnable demo_settings "node" escrow_hash earlier.
Proof.
  destruct (last_request_split cancels (s_trace agree_end) escrow_hash)
    as (later & o & earlier & Ht & Hs); [vm_compute; reflexivity|].
  exists later, o, earlier. split; [exact Ht|]. split; [exact Hs|].
  apply (escrow_returned_with_authority demo_settings "node" (mkSys (Ret tt) [] escrow_db [])
    agree_end later o earlier); [by split_and!; [..|apply job_idle]| |exact Ht|exact Hs].
  transitivity asked_end.
  - apply (run_task (daemon_task demo_settings "node") _ (fun _ => True)); [done|apply run_turn|done].
  - apply (run_task (daemon_task demo_settings "node") _ (fun _ => True)
      (fun _ _ _ => I) (world_env (calm "maker" "cancel" 1000)) demo_loop_turn (Ret tt) [Ret tt]
      (s_db asked_end) (s_trace asked_end)); [apply run_turn|done].
Defined.
