(* ===== verification/RangeSpec.v ===== *)
(** * Range orders and ratings

    A range order offers any amount between its minimum and its maximum; a
    trade takes a slice and the release puts the remainder back on the book as
    a new order.  [slices] is the life of such an order, taken and released
    again and again; the theorem bounds what it sells.  The second part is the
    transaction that records a rating. *)

From Stdlib Require Import QArith_base.
From S2P Require Import Prelude Float64 Config BondTypes BondMath Effects Model.
From S2P Require Import Lightning BondDb OrderDb Messages Users NewOrder Take OrderPayout Disputes.
From S2P Require Import TradeFlow Release Ratings Demo.

Open Scope Z_scope.
Open Scope prog_scope.

(** mostro-core: a range order has both limits. *)
Class RangeLaw `{Core} : Prop :=
  is_range_order_spec : forall o, is_range_order o = is_some (o_min_amount o) && is_some (o_max_amount o).

(** The columns that say what an order offers. *)
Definition offer (o : Order) : option Z * option Z * Z :=
  (o_min_amount o, o_max_amount o, o_fiat_amount o).

(** The most an order may sell, and the least in one trade. *)
Definition ceiling (o : Order) : Z :=
  match offer o with (Some _, Some m, _) => m | (_, _, fiat) => fiat end.

Definition floor (o : Order) : Z :=
  match offer o with (Some m, Some _, _) => m | (_, _, fiat) => fiat end.

Section Range.
Context `{Lib} `{Core} `{!RangeLaw}.

(** [slices o l]: [o] is taken for the first amount of [l], the trade is
    released, and the remainder, announced by [get_child_order] in whatever
    state of the world and stored with other keys, goes on with the rest. *)
Inductive slices : Order -> list Z -> Prop :=
| slice_last o msg a : get_fiat_amount_requested o msg = Some a -> slices o [a]
| slice_more o msg a taken env db tr child event stored l :
    get_fiat_amount_requested o msg = Some a ->
    offer taken = (o_min_amount o, o_max_amount o, a) ->
    run_val env (get_child_order taken) db tr = Ok (Some (child, event)) ->
    offer stored = offer child -> slices stored l -> slices o (a :: l).

Lemma requested_within o msg a :
  get_fiat_amount_requested o msg = Some a -> floor o <= a <= ceiling o.
Proof.
  unfold get_fiat_amount_requested, floor, ceiling, offer. rewrite is_range_order_spec.
  destruct (o_min_amount o) as [lo|], (o_max_amount o) as [hi|]; cbn;
    try (intros [= <-]; lia).
  destruct (msg_amount msg) as [x|]; [|done]. destruct (_ && _) eqn:E; [|done].
  intros [= <-]. lia.
Qed.

Lemma event_keeps_offer env o db tr child event :
  run_val env (create_order_event o) db tr = Ok (child, event) -> offer child = offer o.
Proof.
  unfold create_order_event, run_val. destruct (map_err _ _) as [k|]; [|done].
  unfold try at 1. cbn [bind]. rewrite run_bind. destruct (run env _ _ _) as [[u ?] ?].
  cbv zeta. cbn. destruct (answer env _ _ _) as [e|]; cbn; [|done]. by intros [= <- <-].
Qed.

(** What a trade of [a] leaves. *)
Lemma child_offer env taken db tr child event lo hi a :
  run_val env (get_child_order taken) db tr = Ok (Some (child, event)) ->
  offer taken = (lo, hi, a) ->
  exists m h, lo = Some m /\ hi = Some h /\ m <= h - a /\
    (offer child = (None, None, m) /\ h - a = m \/ offer child = (Some m, Some (h - a), 0)).
Proof.
  unfold get_child_order, run_val. intros Hr [= Elo Ehi Ea]. rewrite Elo, Ehi in Hr.
  destruct hi as [h|]; [|done]. destruct lo as [m|]; [|done]. exists m, h.
  unfold checked_sub in Hr. rewrite Ea in Hr. destruct (_ && _); [|done].
  unfold try in Hr. rewrite run_bind in Hr.
  assert (forall d t o d' t', run env (create_base_order taken) d t = (Ok o, d', t') ->
    offer o = offer taken) as Hbase.
  { intros d t o d' t'. unfold create_base_order. cbn. intros Hb.
    destruct (get_order_kind _) as [[|]|]; by simplify_eq. }
  destruct (run env (create_base_order taken) db tr) as [[[o|] d'] t'] eqn:Eb; [|done].
  apply Hbase in Eb. destruct (Z.eqb_spec (h - a) m) as [E|].
  - rewrite run_bind in Hr. pose proof (event_keeps_offer env
      (o <| o_fiat_amount := h - a |> <| o_max_amount := None |> <| o_min_amount := None |>) d' t') as He.
    unfold run_val in He. unfold order_for_equal in Hr.
    destruct (run env (create_order_event _) d' t') as [[[[c ev]|] ?] ?]; [|done].
    cbn in Hr. injection Hr as -> ->. specialize (He child event eq_refl).
    split_and!; [done..|lia|]. left. rewrite He. unfold offer. cbn. by rewrite E.
  - destruct (Z.ltb_spec m (h - a)); [|done]. rewrite run_bind in Hr.
    pose proof (event_keeps_offer env
      (o <| o_max_amount := Some (h - a) |> <| o_fiat_amount := 0 |>) d' t') as He.
    unfold run_val in He. unfold order_for_greater in Hr.
    destruct (run env (create_order_event _) d' t') as [[[[c ev]|] ?] ?]; [|done].
    cbn in Hr. injection Hr as -> ->. specialize (He child event eq_refl).
    split_and!; [done..|lia|]. right. rewrite He. unfold offer. cbn.
    unfold offer in Eb. injection Eb as Emin _ _. by rewrite Emin, Elo.
Qed.

(** C30: A range order never sells more than its maximum, however it is cut:
    the amounts taken from it and from its remainders add up to at most the
    maximum, and every one of them is at least the minimum, so there are at
    most maximum / minimum of them. *)
Theorem range_never_oversold o l :
  slices o l ->
  sumZ l <= ceiling o /\ Forall (fun a => floor o <= a) l /\
  Z.of_nat (length l) * floor o <= ceiling o.
Proof.
  intros Hs. assert (sumZ l <= ceiling o /\ Forall (fun a => floor o <= a) l) as [Hsum Hall].
  { induction Hs as [o msg a Ha|o msg a taken env db tr child event stored l Ha Ht Hr Ho Hs IH].
    - apply requested_within in Ha. split; [unfold sumZ; cbn [foldr]; lia|]. constructor; [lia|constructor].
    - apply requested_within in Ha as [Hlo Hhi].
      destruct (child_offer _ _ _ _ _ _ _ _ _ Hr Ht) as (m & h & Em & Eh & Hle & Hc).
      unfold ceiling, floor in *. unfold offer in Hlo, Hhi |- *. rewrite Em, Eh in *.
      rewrite Ho in IH. destruct IH as [IHs IHl].
      assert (sumZ l <= h - a /\ Forall (fun x => m <= x) l) as [? ?].
      { destruct Hc as [[Hc ?]|Hc]; rewrite Hc in IHs, IHl; split; try done; lia. }
      split; [unfold sumZ in *; cbn [foldr]; lia|by constructor]. }
  split_and!; [done..|]. etrans; [|exact Hsum]. clear Hsum Hs.
  induction Hall as [|a l Ha _ IH]; cbn [length]; [done|]. unfold sumZ in *. cbn [foldr]. lia.
Qed.
End Range.

#[export] Instance demo_range_law : RangeLaw.
Proof. done. Qed.

(** 10 to 100 units, taken for 40, 50 and the last 10. *)
Definition demo_range : Order :=
  (demo_order 7 Pending) <| o_min_amount := Some 10 |> <| o_max_amount := Some 100 |>.

Definition take_amount (a : Z) : Message :=
  mkMessage (Some 7%N) None None TakeSell (Some (PlPaymentRequest None "" (Some a))).

Definition after_take (o : Order) (a : Z) : Order := o <| o_fiat_amount := a |>.

(** The remainder of [o] after a trade of [a]. *)
Definition remainder (o : Order) (a : Z) : Order :=
  match run_val (demo_env 1000) (get_child_order (after_take o a)) (mkDB [] [] [] []) [] with
  | Ok (Some (child, _)) => child
  | _ => o
  end.

Lemma demo_slices : slices demo_range [40; 50; 10].
Proof.
  apply (slice_more demo_range (take_amount 40) 40 (after_take demo_range 40) (demo_env 1000)
    (mkDB [] [] [] []) [] (remainder demo_range 40) "child-event" (remainder demo_range 40));
    [vm_compute; reflexivity..|].
  set (o := remainder demo_range 40).
  apply (slice_more o (take_amount 50) 50 (after_take o 50) (demo_env 1000)
    (mkDB [] [] [] []) [] (remainder o 50) "child-event" (remainder o 50));
    [vm_compute; reflexivity..|].
  apply (slice_last _ (take_amount 10)). vm_compute. reflexivity.
Qed.

Lemma range_never_oversold_witness :
  40 + 50 + 10 <= 100 /\ Forall (fun a => 10 <= a) [40; 50; 10] /\ 3 * 10 <= 100.
Proof. exact (range_never_oversold demo_range [40; 50; 10] demo_slices). Defined.

(** ** Ratings *)

Section Ratings.
Context `{Lib} `{Core}.

(** An update whose result it no longer matches finds nothing to do again. *)
Lemma update_once {Row} (p : Row -> bool) (f : Row -> Row) (t : list Row) :
  (forall r, p (f r) = false) ->
  update_where p f (update_where p f t) = update_where p f t /\
  count_where p (update_where p f t) = 0.
Proof.
  intros Hf. unfold update_where, count_where. induction t as [|r t [IH1 IH2]]; [done|]. cbn.
  destruct (p r) eqn:E; rewrite ?Hf, ?E; split; congruence.
Qed.

Lemma claim_twice i side db db' :
  claim_order_rating_flag i side db = (db', true) ->
  claim_order_rating_flag i side db' = (db', false).
Proof.
  unfold claim_order_rating_flag, update_orders. cbn [orders bonds users disputes].
  intros E. apply (f_equal fst) in E. cbn [fst] in E. subst db'. cbn [orders bonds users disputes].
  match goal with
  | |- context [update_where (claimable i side) ?f (update_where _ _ ?t)] =>
      assert (forall o, claimable i side (f o) = false) as Hf;
      [|destruct (update_once (claimable i side) f t Hf) as [E1 E2]; by rewrite E1, E2]
  end.
  intros o. unfold claimable. destruct side; cbn; by rewrite andb_false_r.
Qed.

(** A rating counts once. When the transaction that records one side's
    rating of an order commits, the flag of the order and the aggregate of the
    rated user change together; any later attempt of that side on that order,
    for whatever user and value, changes nothing and reports no rating.  When
    it does not commit, nothing changed. *)
Theorem rating_counts_once i side k r db db' res :
  rating_tx i side k r db = (db', res) ->
  match res with
  | Ok (Some u) =>
      claim_order_rating_flag i side db = (mkDB (orders db') (bonds db) (users db) (disputes db), true) /\
      (forall k' r', rating_tx i side k' r' db' = (db', Ok None))
  | _ => db' = db
  end.
Proof.
  unfold rating_tx. destruct (claim_order_rating_flag i side db) as [d claimed] eqn:Ec.
  destruct claimed; cbn [negb]; [|by intros [= <- <-]].
  destruct (select_one (has_pubkey k) (users d)) as [u|]; [|by intros [= <- <-]].
  cbv zeta. destruct (rating_problem _); [by intros [= <- <-]|]. intros [= <- <-].
  assert (bonds d = bonds db /\ users d = users db /\ disputes d = disputes db) as (Hb & Hu & Hd).
  { unfold claim_order_rating_flag, update_orders in Ec. by injection Ec as <- _. }
  split.
  - f_equal. destruct d. cbn in *. congruence.
  - intros k' r'. apply claim_twice in Ec.
    assert (forall v, claim_order_rating_flag i side (update_user_rating v d) =
      (update_user_rating v d, false)) as Hc.
    { intros v. unfold claim_order_rating_flag, update_orders, update_user_rating, update_users in *. cbn in *.
      injection Ec as Eo En. rewrite En. f_equal. destruct d. cbn in *. f_equal. by injection Eo. }
    by rewrite Hc.
Qed.
End Ratings.

Definition rated_key : string := "aaaaaaaaaaaaaaaabbbbbbbbbbbbbbbbccccccccccccccccdddddddddddddddd".

(** A finished trade and a user without ratings. *)
Definition rating_db : DB :=
  mkDB [demo_order 7 Success] [] [mkUser rated_key 0 None 0 0 0 1 0 (Fin 0%Q) 0 0 0 0] [].

Definition rated : DB * result (option User) MostroError := rating_tx 7 true rated_key 5 rating_db.

Lemma rating_counts_once_witness :
  is_some (match rated.2 with Ok u => u | Err _ => None end) = true /\
  forall k' r', rating_tx 7 true k' r' rated.1 = (rated.1, Ok None).
Proof.
  assert (is_some (match rated.2 with Ok u => u | Err _ => None end) = true) as Hu
    by (vm_compute; reflexivity).
  split; [exact Hu|]. pose proof (rating_counts_once 7 true rated_key 5 rating_db rated.1 rated.2
    (surjective_pairing _)) as Hr.
  destruct rated.2 as [[u|]|]; [|discriminate Hu..]. apply Hr.
Defined.
