(* ===== verification/Findings.v ===== *)
(** * Behaviours the comments do not promise

    Theorems about runs of the modelled code that differ from what a comment
    next to it says: interleavings of the range close with a slice slash, the
    sub-sat part of an invoice, Lightning addresses, and the resurrection of a
    failed payout.  Each is a statement about the definitions of the other
    files; interleavings are spelled out move by move and are reachable states
    of the daemon of [BondSafety]. *)

From S2P Require Import Prelude Float64 Config BondTypes BondMath Effects Model.
From S2P Require Import Lightning Demo BondDb BondRelease BondSlash OrderDb BondLock BondPayout BondInv.
From S2P Require Import Triples BondHandlers BondScheduler Sequential SlashSpec PayoutSpec BondSafety.

Open Scope Z_scope.
Open Scope prog_scope.

(** ** Interleavings, move by move *)

(** Start a task, or let thread [i] perform up to [n] interactions. *)
Inductive move : Type :=
| Spawn (p : M unit)
| Step (i n : nat).

Section Play.
Context `{Lib} `{Core} `{PayoutLib} (settings : Settings) (env : Env DB ext).

Definition play_one (s : Sys DB ext) (m : move) : Sys DB ext :=
  match m with
  | Spawn p => mkSys (sched s) (threads s ++ [p]) (s_db s) (s_trace s)
  | Step i n =>
      match threads s !! i with
      | Some p =>
          let r := advance env n p (s_db s) (s_trace s) in
          mkSys (sched s) (<[i := r.1.1]> (threads s)) r.1.2 r.2
      | None => s
      end
  end.

Definition play (ms : list move) (s : Sys DB ext) : Sys DB ext := foldl play_one s ms.

Definition move_ok (m : move) : Prop :=
  match m with Spawn p => bond_task settings p | Step _ _ => True end.

Lemma play_law ms s : lawful (s_trace (play ms s)) -> lawful (s_trace s).
Proof.
  revert s. induction ms as [|m ms IH]; intros s Hl; [done|]. cbn [play foldl] in Hl.
  apply IH in Hl. destruct m as [p|i n]; [done|]. cbn [play_one] in Hl.
  destruct (threads s !! i) as [p|]; [|done].
  destruct (advance_suffix env n p (s_db s) (s_trace s)) as [l E]. cbn [s_trace] in Hl.
  rewrite E in Hl. by apply lawful_suffix in Hl.
Qed.

Lemma play_steps ms s :
  Forall move_ok ms -> lawful (s_trace (play ms s)) -> rtc (daemon_step settings) s (play ms s).
Proof.
  intros Hms. revert s. induction Hms as [|m ms Hm Hms IH]; intros s Hl; [done|].
  cbn [play foldl] in Hl |- *. fold (play ms (play_one s m)) in *.
  etrans; [|by apply IH]. apply play_law in Hl. destruct s as [sc ts db tr].
  destruct m as [p|i n]; cbn [play_one] in *; [by apply rtc_once, sys_spawn|].
  cbn [threads s_db s_trace sched] in *. destruct (ts !! i) as [p|] eqn:E; [|done].
  by apply (advance_thread _ _ _ lawful_suffix).
Qed.

Lemma play_reachable ms s :
  booted settings s -> Forall move_ok ms -> lawfulb (s_trace (play ms s)) = true ->
  reachable settings (play ms s).
Proof.
  intros Hb Hms Hl%lawfulb_sound. exists s. split; [done|]. by apply play_steps.
Qed.
End Play.

Definition boot (db : DB) : Sys DB ext := mkSys (Ret tt) [] db [].

Lemma boot_booted db : bonds db = [] -> booted demo_settings (boot db).
Proof. intros Hb. split_and!; [done|done|done|]. apply job_idle. Qed.

(** ** A range closed from a stale snapshot

    The maker bond of range 9 is locked.  Thread 2, the close of the range,
    reads the slices and finds none; before it goes on, thread 3 records the
    slash of slice 10; then the close releases the parent. *)

Definition close_race : list move :=
  [Spawn (detach (request_maker_bond demo_settings (demo_order 9 WaitingMakerBond) "maker" 100000
                    None None));
   Step 0 100;
   Spawn (bond_subscriber demo_settings 1 (demo_sha256 (1 :: replicate 31 5)) None);
   Step 1 100;
   Spawn (resolve_range_maker_bond_at_close_or_warn
            ((demo_order 9 Pending) <| o_max_amount := Some 100 |>));
   Step 2 5;
   Spawn (detach (apply_bond_resolution demo_settings slice_10 (mkBondResolution true false)
                    LostDispute));
   Step 3 100;
   Step 2 100].

Definition close_race_end : Sys DB ext := play (demo_env 1000) close_race (boot range_db).

Lemma play_tasks_ok ms :
  Forall (move_ok demo_settings) ms -> lawfulb (s_trace (play (demo_env 1000) ms (boot range_db))) = true ->
  reachable demo_settings (play (demo_env 1000) ms (boot range_db)).
Proof. intros Hm Hl. apply play_reachable; [by apply boot_booted|done|done]. Qed.

(** The moves of the scenarios start tasks of the daemon. *)
Ltac moves_ok :=
  repeat (apply Forall_cons; split;
    [first [exact I | apply task_request_maker | apply task_close | apply task_resolution
           | apply task_subscriber, (@sha256_bytes demo_lib demo_hex_laws)]|]);
  constructor.

(** A close that decides on a stale snapshot pays the counterparty with
    the node's own sats. There is a reachable state in which a range maker bond
    is [Released], its hold invoice cancelled and never settled, while a slice
    of it is in [PendingPayout] for a positive share and is not blocked by its
    parent, so the payout job goes on to pay it. *)
Theorem close_race_unfunded_child :
  reachable demo_settings close_race_end /\
  exists parent child h,
    In parent (bonds (s_db close_race_end)) /\ In child (bonds (s_db close_race_end)) /\
    parent_bond_id child = Some (id parent) /\ has_state parent Released /\
    has_state child PendingPayout /\ counterparty_share_sats child = Ok 250 /\
    hash_bytes parent = Some h /\ cancelled h (s_trace close_race_end) = true /\
    settled h (s_trace close_race_end) = false /\
    run_val (demo_env 1000) (child_payout_blocked_by_locked_parent child) (s_db close_race_end) [] = Ok false.
Proof.
  split; [apply play_tasks_ok; [moves_ok|vm_compute; reflexivity]|].
  exists (row_of close_race_end 0), (row_of close_race_end 1), (demo_sha256 (1 :: replicate 31 5)).
  split; [demo_row|]. split; [vm_compute; auto|]. by vm_compute.
Qed.

(** ** Two slices slashed from the same snapshot

    Slices 10 and 11 of range 9 cover it exactly; thread 2 has read the parent
    when thread 3 slashes the other slice. *)

Definition odd_slice (i : Uuid) (fiat : Z) : Order :=
  (demo_order i Dispute) <| o_range_parent_id := Some 9%N |> <| o_fiat_amount := fiat |>.

Definition odd_db : DB :=
  mkDB [(demo_order 9 WaitingMakerBond) <| o_max_amount := Some 2000 |>; odd_slice 10 1001; odd_slice 11 999]
    [] [] [].

Definition slash_maker (o : Order) : M unit :=
  detach (apply_bond_resolution demo_settings o (mkBondResolution true false) LostDispute).

Definition slice_race : list move :=
  [Spawn (detach (request_maker_bond demo_settings (demo_order 9 WaitingMakerBond) "maker" 100000
                    None None));
   Step 0 100;
   Spawn (bond_subscriber demo_settings 1 (demo_sha256 (1 :: replicate 31 5)) None);
   Step 1 100;
   Spawn (slash_maker (odd_slice 10 1001));
   Step 2 5;
   Spawn (slash_maker (odd_slice 11 999));
   Step 3 100;
   Step 2 100].

Definition slice_race_end : Sys DB ext := play (demo_env 1000) slice_race (boot odd_db).

(** Concurrent slices can overdraw a bond by the rounding. There is a
    reachable state in which the slices of a locked maker bond add up to one
    sat more than the bond, although their orders cover the range exactly: each
    slash was clamped against the parent row it had read before the other
    committed. *)
Theorem slice_race_overdraws :
  reachable demo_settings slice_race_end /\
  exists parent, In parent (bonds (s_db slice_race_end)) /\ has_state parent Locked /\
    amount_sats parent < slice_total (id parent) (s_db slice_race_end) /\
    sumZ (map o_fiat_amount [odd_slice 10 1001; odd_slice 11 999]) = 2000.
Proof.
  split.
  - apply play_reachable; [by apply boot_booted|moves_ok|vm_compute; reflexivity].
  - exists (row_of slice_race_end 0). split; [demo_row|]. by vm_compute.
Qed.

(** ** Invoices that are accepted and cannot be paid *)

Section Unpayable.
Context `{Lib} (settings : Settings) (env : Env DB ext).

(** A fractional amount is refused by the send path before LND is asked. *)
Lemma subsat_never_sent pr inv m share db tr :
  decode_invoice pr = Ok inv -> amount_milli_satoshis inv = Some m -> m mod 1000 <> 0 ->
  0 <= share -> share * 1000 < 2 ^ 64 ->
  exists cause l, run env (send_and_drain settings pr share) db tr
    = (Failure Indeterminate cause, db, (l ++ tr)%list) /\ dispatches l = [].
Proof.
  intros Hd Hm Hmod H0 Hs.
  assert (msat_of_sat share = share * 1000) as Ems.
  { unfold msat_of_sat. rewrite (Z.mod_small share) by lia. apply Z.mod_small. lia. }
  assert ((m =? msat_of_sat share) = false) as Hne.
  { apply Z.eqb_neq. intros ->. apply Hmod. rewrite Ems. apply Z.mod_mul. lia. }
  unfold send_and_drain, send_payment, try. rewrite Hd. cbn [bind call run]. rewrite Hm, Hne. cbn [negb].
  destruct (match answer env _ (LndTrackPaymentBounded _ _) tr with Some _ => _ | None => _ end);
    cbn [bind run]; by eexists _, [_].
Qed.

(** Whatever the outside answers, the program asks LND for no payment. *)
Fixpoint never_pays {A} (p : M A) : Prop :=
  match p with
  | Ret _ => True
  | Sql _ k => forall r, never_pays (k r)
  | Ext e k => match e with LndSendPaymentV2 _ _ _ _ => False | _ => True end /\
               forall r, never_pays (k r)
  end.

(** A request that is not a bolt11 invoice never reaches LND. *)
Lemma undecodable_never_pays b pr e retries window :
  decode_invoice pr = Err e -> never_pays (pay_counterparty settings b pr retries window).
Proof.
  intros Hd. unfold pay_counterparty, try. destruct (counterparty_share_sats b); [|done]. cbn [bind].
  rewrite Hd. unfold on_send_payment_failure, try, sql_or_db_error. cbn. intros [n|]; [|done]. cbn.
  destruct (_ <? _); [done|]. cbn. split; [done|]. intros now.
  destruct (match slashed_at b with Some t => now - t <? window | None => false end); cbn;
    by intros [].
Qed.
End Unpayable.

(** A fractional invoice is accepted and never paid. The submission of an
    invoice for 500.7 sats against a debt of 500 sats succeeds and is stored;
    every later attempt fails as indeterminate before LND is asked, so the row
    keeps the invoice and is retried for ever. *)
Theorem subsat_invoice_stuck :
  run_val (demo_env 20) (add_bond_invoice_action demo_settings (Some 7%N) (Some "inv-msat") "maker")
    (debt_db None) [] = Ok tt /\
  run_db (demo_env 20) (add_bond_invoice_action demo_settings (Some 7%N) (Some "inv-msat") "maker")
    (debt_db None) [] = debt_db (Some "inv-msat") /\
  forall env db tr, exists cause l,
    run env (send_and_drain demo_settings "inv-msat" 500) db tr
      = (Failure Indeterminate cause, db, (l ++ tr)%list) /\ dispatches l = [].
Proof.
  split; [vm_compute; reflexivity|]. split; [vm_compute; reflexivity|]. intros env db tr.
  by eapply (subsat_never_sent demo_settings env "inv-msat" _ 500700 500).
Qed.

(** A Lightning address is accepted and never paid. The submission of a
    Lightning address succeeds and is acknowledged, and the payout path decodes
    bolt11 only, so no attempt ever asks LND for a payment. *)
Theorem lightning_address_never_paid :
  run_val (demo_env 20) (add_bond_invoice_action demo_settings (Some 7%N) (Some "joe@x") "maker")
    (debt_db None) [] = Ok tt /\
  run_db (demo_env 20) (add_bond_invoice_action demo_settings (Some 7%N) (Some "joe@x") "maker")
    (debt_db None) [] = debt_db (Some "joe@x") /\
  forall b retries window, never_pays (pay_counterparty demo_settings b "joe@x" retries window).
Proof.
  split; [vm_compute; reflexivity|]. split; [vm_compute; reflexivity|]. intros b retries window.
  by eapply (undecodable_never_pays demo_settings).
Qed.

(** ** Failed payouts *)

Section Resurrection.
Context `{Lib}.

Lemma row_after (db : DB) (b r : Bond) p f :
  NoDup (map id (bonds db)) -> In b (bonds db) -> In r (bonds (update_bonds p f db).1) ->
  id r = id b -> (forall x, id (f x) = id x) -> r = (if p b then f b else b).
Proof.
  intros Hnd Hb Hr Ei Hf. apply in_update_where in Hr as (x & Hx & ->).
  assert (x = b) as ->; [|done]. eapply nodup_ids_eq; [exact Hnd|done|done|].
  rewrite <- Ei. destruct (p x); [by rewrite Hf|done].
Qed.

(** A row that a failed attempt moved to [Failed] was past its claim window. *)
Lemma failed_past_window env now b t retries window kind cause db tr r :
  sql_up env -> (forall tr, answer env _ Now tr = now) ->
  NoDup (map id (bonds db)) -> In b (bonds db) -> state_is PendingPayout b = true ->
  slashed_at b = Some t ->
  In r (bonds (run_db env (on_send_payment_failure b retries window kind cause) db tr)) ->
  id r = id b -> state_is Failed r = true ->
  window <= now - t /\ slashed_at r = Some t.
Proof.
  intros Hup Hnow Hnd Hb Hs Ht. unfold on_send_payment_failure, try, sql_or_db_error, run_db.
  cbn [bind sql run]. rewrite Hup.
  set (a := Z.min (payout_attempts b + 1) retries).
  assert (forall r', In r' (bonds (attempts_stmt (id b) a db).1) -> id r' = id b ->
    r' = b <| payout_attempts := a |>) as Hr1.
  { intros r' Hr' Ei. rewrite (row_after db b r' _ _ Hnd Hb Hr' Ei (fun _ => eq_refl)).
    unfold with_id_state. by rewrite N.eqb_refl, Hs. }
  assert (forall r', In r' (bonds (attempts_stmt (id b) a db).1) -> id r' = id b ->
    state_is Failed r' = true -> False) as Hno.
  { intros r' Hr' Ei Hf. rewrite (Hr1 r' Hr' Ei) in Hf.
    pose proof (state_is_excl Failed PendingPayout b Hf Hs). done. }
  assert (NoDup (map id (bonds (attempts_stmt (id b) a db).1)) /\
          In (b <| payout_attempts := a |>) (bonds (attempts_stmt (id b) a db).1)) as [Hnd1 Hb1].
  { cbn [attempts_stmt update_bonds fst bonds]. rewrite update_ids by done. split; [done|].
    apply in_update_where. exists b. split; [done|]. unfold with_id_state. by rewrite N.eqb_refl, Hs. }
  destruct (attempts_stmt (id b) a db) as [db1 n]. cbn [fst] in *. cbn [bind run map_err].
  destruct (a <? retries); [intros Hr Ei Hf; by destruct (Hno r Hr Ei Hf)|].
  destruct (bool_decide _); [intros Hr Ei Hf; by destruct (Hno r Hr Ei Hf)|].
  cbn [bind call run]. rewrite Hnow, Ht. destruct (now - t <? window) eqn:Ew; cbn [bind sql run];
    rewrite Hup; bool_prop.
  - destruct (rearm_stmt (id b) db1) as [db2 m] eqn:E. cbn [bind run map_err fst snd].
    intros Hr Ei Hf. exfalso. replace db2 with (rearm_stmt (id b) db1).1 in Hr by (by rewrite E).
    rewrite (row_after db1 _ r _ _ Hnd1 Hb1 Hr Ei (fun _ => eq_refl)) in Hf.
    destruct (with_id_state _ _ _); pose proof (state_is_excl Failed PendingPayout b Hf Hs); done.
  - destruct (fail_stmt (id b) db1) as [db2 m] eqn:E. cbn [bind run map_err fst snd].
    intros Hr Ei Hf. split; [done|]. replace db2 with (fail_stmt (id b) db1).1 in Hr by (by rewrite E).
    rewrite (row_after db1 _ r _ _ Hnd1 Hb1 Hr Ei (fun _ => eq_refl)).
    by destruct (with_id_state _ _ _).
Qed.

(** A failed payout cannot be resurrected. A row that
    [on_send_payment_failure] moved to [Failed] is past its claim window, and
    [apply_payout_invoice] refuses a [Failed] row past its claim window, so
    with a clock that does not run backwards and an unchanged window every
    invoice submitted for it afterwards is rejected and nothing is written. *)
Theorem failed_payout_never_resurrects env env' now now' b t retries window kind cause db tr r pr db' tr' :
  sql_up env -> (forall tr, answer env _ Now tr = now) ->
  NoDup (map id (bonds db)) -> In b (bonds db) -> state_is PendingPayout b = true ->
  slashed_at b = Some t ->
  In r (bonds (run_db env (on_send_payment_failure b retries window kind cause) db tr)) ->
  id r = id b -> state_is Failed r = true ->
  now <= now' -> in_i64 (now' - t) ->
  run env' (apply_payout_invoice r pr now' window) db' tr' = (Ok Rejected, db', tr').
Proof.
  intros Hup Hnow Hnd Hb Hs Ht Hr Ei Hf Hle Hi.
  destruct (failed_past_window env now b t retries window kind cause db tr r) as [Hw Hrt]; try done.
  unfold apply_payout_invoice. apply state_is_eq in Hf. rewrite Hf.
  change (state_from_str (state_to_string Failed)) with (Ok (E := BondParseError) Failed). cbv iota.
  rewrite Hrt. unfold saturating_sub. rewrite sat_i64_id by done.
  by rewrite (proj2 (Z.leb_le window (now' - t))) by lia.
Qed.
End Resurrection.

(** The debt of order 7 one failed attempt before the limit, after its window. *)
Definition late : Z := 1296010.
Definition tired_debt : Bond := (demo_debt (Some "inv")) <| payout_attempts := 1 |>.
Definition failed_debt : Bond :=
  tired_debt <| payout_attempts := 2 |> <| state := state_to_string Failed |>.

Lemma failed_debt_reached :
  In failed_debt (bonds (run_db (demo_env late)
    (on_send_payment_failure tired_debt 2 1296000 Terminal "no route") (mkDB [] [tired_debt] [] []) [])).
Proof. vm_compute. by left. Qed.

