(* ===== verification/TradeFindings.v ===== *)
(** * What can go wrong in a trade

    Runs of the handlers and jobs of a trade that differ from what the
    comments and documents say: the deadline guardian acting on a stale row,
    cancellations interrupted half-way, the columns a remainder inherits, and
    the spelling of a status.  The worlds are those of [Demo]; the interleaving
    is reachable in the daemon of [Custody]. *)

From S2P Require Import Prelude Float64 Config BondTypes BondMath Effects Model.
From S2P Require Import Lightning Demo BondDb BondRelease BondSlash OrderDb BondLock BondPayout.
From S2P Require Import Messages Users NewOrder Take Gate Disputes OrderPayout TradeFlow Release.
From S2P Require Import CancelOrder AdminOrder TradeJobs Sessions EventLoop BondSafety Authority Custody.
From S2P Require Import BondInv Findings.

Open Scope Z_scope.
Open Scope prog_scope.

(** The status of order 7. *)
Definition status_of (db : DB) : string :=
  match order_by_id 7 db with Some o => o_status o | None => "" end.

(** ** The guardian and the buyer

    Order 7 is active and its escrow close to its deadline.  The guardian
    (thread 0) has read it when the buyer's message that the fiat is sent
    (thread 1) is handled. *)

Definition deadline_world : World :=
  mkWorld 100000 (signed_event "taker" "fiat-sent" 100000) 1010 (Ok tt) (Ok tt).

Definition held_db : DB :=
  mkDB [(demo_order 7 Active) <| o_hash := Some (bytes_to_string escrow_hash) |>
                              <| o_invoice_held_at := 1 |>] [] [] [].

Definition fiat_sent_race : list move :=
  [Spawn (job_enforce_escrow_deadline demo_settings 1); Step 0 5;
   Spawn demo_loop_turn; Step 1 100].

Definition race_state (ms : list move) : Sys DB ext :=
  play (world_env deadline_world) (fiat_sent_race ++ ms)%list (boot held_db).

(** The guardian of deadlines takes back the escrow of a trade whose buyer
    has sent fiat. It decides on the rows it read at the start of its pass and
    does not look again: there is a reachable state in which order 7 is
    [fiat-sent], its parties told so, and its escrow untouched, after which
    the guardian's next steps cancel that escrow and write the order back as
    [canceled]. *)
Theorem guardian_cancels_fiat_sent_escrow :
  let before := race_state [] in
  let after := race_state [Step 0 100] in
  reachable demo_settings before /\ reachable demo_settings after /\
  status_of (s_db before) = "fiat-sent" /\ last_request cancels (s_trace before) = None /\
  status_of (s_db after) = "canceled" /\
  last_request cancels (s_trace after) = Some escrow_hash.
Proof.
  cbv zeta. assert (forall ms, Forall (move_ok demo_settings) (fiat_sent_race ++ ms) ->
    lawfulb (s_trace (race_state ms)) = true -> reachable demo_settings (race_state ms)) as Hr.
  { intros ms Hm Hl. apply play_reachable; [by apply boot_booted|done|done]. }
  split; [|split; [|by vm_compute]]; (apply Hr; [|vm_compute; reflexivity]);
    (apply Forall_app; split;
     [repeat (apply Forall_cons; split; [first [exact I|apply task_deadline_job|apply task_turn]|]);
      constructor|repeat constructor]).
Qed.

(** ** Cancellations interrupted half-way *)

(** Order 7 in status [st], with its escrow, the buyer's bond and a dispute
    assigned to the node. *)
Definition bonded (st : Status) : DB :=
  mkDB [(demo_order 7 st) <| o_hash := Some (bytes_to_string escrow_hash) |> <| o_buyer_dispute := true |>]
    [demo_bond 3 7 "taker" Taker Locked] []
    [mkDispute 5 7 "in-progress" "active" (Some "node") 0 0].

Definition verdict : Message :=
  mkMessage (Some 7%N) None None AdminCancel (Some (PlBondResolution (mkBondResolution false true))).

Definition from_solver : UnwrappedMessage := mkUnwrapped verdict (Some "inner") "node" "node" 1000.

Definition give_verdict : M (result unit MostroError) :=
  admin_cancel_action demo_settings "node" verdict from_solver.

Definition no_dm : World := mkWorld 1000 demo_release 2000 (Err "relay is down") (Ok tt).
Definition no_lnd : World :=
  mkWorld 1000 demo_release 2000 (Ok tt) (Err (mkGrpc "Unavailable" "transport error")).

Definition maker_cancel : Message := mkMessage (Some 7%N) None None Cancel None.

Definition maker_gives_in : M (result unit MostroError) :=
  cancel_action maker_cancel (mkUnwrapped maker_cancel (Some "inner") "maker" "maker-id" 1000).

(** A handler in one world, then again in another. *)
Definition twice {A} (p : M A) (w1 w2 : World) (db : DB) : A * A * DB * list (obs DB ext) :=
  let '(r1, db1, tr1) := run (world_env w1) p db [] in
  let '(r2, db2, tr2) := run (world_env w2) p db1 tr1 in
  (r1, r2, db2, tr2).

(** A solver's cancellation that cannot tell the solver forgets the bonds.
    The escrow is cancelled and the order [canceled-by-admin] before the
    direct message to the solver is sent; when that fails the handler returns
    before it applies the bond directive, and the solver who repeats the
    verdict on a healthy network is refused by the status.  The bond that was
    to be slashed stays [locked]; with the message delivered it is slashed. *)
Theorem undelivered_verdict_strands_bond :
  let '(first, second, db, tr) := twice give_verdict no_dm (calm "" "" 1000) (bonded Dispute) in
  first = Err (MostroInternalErr (DbAccessError "relay is down")) /\
  second = Err (MostroCantDo NotAllowedByStatus) /\
  status_of db = "canceled-by-admin" /\ map state (bonds db) = ["locked"] /\
  last_request cancels tr = Some escrow_hash /\
  map state (bonds (run_db (world_env (calm "" "" 1000)) give_verdict (bonded Dispute) [])) =
    ["pending-payout"].
Proof. vm_compute. split_and!; reflexivity. Qed.

(** A maker's cancellation that LND fails to carry out cannot be repeated: the
    order is written back as [canceled] before the escrow is cancelled, the
    retry is answered that the order is already cancelled, and the escrow and
    the taker's bond stay where they are. *)
Theorem failed_cancel_not_retried :
  let '(first, second, db, tr) := twice maker_gives_in no_lnd (calm "" "" 1000) (bonded WaitingPayment) in
  is_ok first = false /\ second = Err (MostroCantDo OrderAlreadyCanceled) /\
  status_of db = "canceled" /\ map state (bonds db) = ["locked"] /\
  length (List.filter (fun o => is_some (cancels o)) tr) = 1%nat /\
  map state (bonds (run_db (world_env (calm "" "" 1000)) maker_gives_in (bonded WaitingPayment) [])) =
    ["released"].
Proof. vm_compute. split_and!; reflexivity. Qed.

(** ** What a remainder inherits *)

Section Inherited.
Context `{Lib} `{Core} `{PayoutLib}.

(** The columns of a trade's quarrels. *)
Definition quarrel (o : Order) : option string * bool * bool * bool * bool :=
  (o_cancel_initiator_pubkey o, o_buyer_cooperativecancel o, o_seller_cooperativecancel o,
   o_buyer_dispute o, o_seller_dispute o).

Lemma event_keeps_quarrel env o db tr child event :
  run_val env (create_order_event o) db tr = Ok (child, event) -> quarrel child = quarrel o.
Proof.
  unfold create_order_event, run_val. destruct (map_err _ _) as [k|]; [|done].
  unfold try at 1. cbn [bind]. rewrite run_bind. destruct (run env _ _ _) as [[u ?] ?].
  cbv zeta. cbn. destruct (answer env _ _ _) as [e|]; cbn; [|done]. by intros [= <- <-].
Qed.

Lemma child_quarrel env order db tr child event :
  run_val env (get_child_order order) db tr = Ok (Some (child, event)) ->
  quarrel child = quarrel order.
Proof.
  unfold get_child_order, run_val. intros Hr.
  destruct (o_max_amount order) as [h|]; [|done]. destruct (o_min_amount order) as [m|]; [|done].
  destruct (checked_sub _ _) as [n|]; [|done]. unfold try in Hr. rewrite run_bind in Hr.
  assert (forall d t o d' t', run env (create_base_order order) d t = (Ok o, d', t') ->
    quarrel o = quarrel order) as Hbase.
  { intros d t o d' t'. unfold create_base_order. cbn. intros Hb.
    destruct (get_order_kind _) as [[|]|]; by simplify_eq. }
  destruct (run env (create_base_order order) db tr) as [[[o|] d'] t'] eqn:Eb; [|done].
  apply Hbase in Eb. rewrite <- Eb.
  assert (forall o', quarrel o' = quarrel o ->
    (run env (bind (create_order_event o') (fun r => match r with
       | Ok c => Ret (Ok (Some c)) | Err e => Ret (Err e) end)) d' t').1.1 = Ok (Some (child, event)) ->
    quarrel child = quarrel o) as He.
  { intros o' <-. rewrite run_bind. pose proof (event_keeps_quarrel env o' d' t') as He. unfold run_val in He.
    destruct (run env (create_order_event o') d' t') as [[[[c ev]|] ?] ?]; [|done].
    cbn. intros [= <- <-]. by apply (He c ev). }
  destruct (n =? m); [by eapply He in Hr|]. destruct (m <? n); [by eapply He in Hr|done].
Qed.

(** The remainder of a range order inherits the quarrel of the trade
    before it: whether a party had asked to cancel and who, and the dispute
    flags.  A remainder whose parent one party wanted to cancel before the
    seller released it can never be cancelled cooperatively: the new parties,
    who use new keys, are both refused. *)
Theorem remainder_inherits_quarrel env order db tr child event :
  run_val env (get_child_order order) db tr = Ok (Some (child, event)) ->
  quarrel child = quarrel order /\
  forall k seller buyer o u rid env' db' tr',
    o_cancel_initiator_pubkey order = Some k ->
    o_cancel_initiator_pubkey o = o_cancel_initiator_pubkey child ->
    get_seller_pubkey o = Ok seller -> get_buyer_pubkey o = Ok buyer ->
    k <> seller -> k <> buyer ->
    run env' (cancel_active_order u o rid) db' tr' =
      (Err (MostroCantDo CantDoInvalidPubkey), db', tr').
Proof.
  intros Hr. apply child_quarrel in Hr. split; [done|].
  intros k seller buyer o u rid env' db' tr' Hk Ho Hs Hb Hks Hkb.
  assert (o_cancel_initiator_pubkey o = Some k) as Hi by (unfold quarrel in Hr; congruence).
  unfold cancel_active_order. rewrite Hs, Hb. unfold try. cbn [map_err bind].
  destruct (_ && _); [done|].
  destruct (if str_eqb buyer (u_sender u) then _ else _) as [o' c] eqn:E.
  assert (o_cancel_initiator_pubkey o' = Some k /\ (c = seller \/ c = buyer)) as [-> Hc].
  { destruct (str_eqb buyer (u_sender u)); injection E as <- <-; auto. }
  destruct (str_eqb k c) eqn:Ek; [|done]. apply str_eqb_eq in Ek. destruct Hc; congruence.
Qed.
End Inherited.

(** ** The spelling of a status *)

Lemma present_key k l : In (Some k) l -> k <> "" -> In k (present_keys l).
Proof.
  intros Hk Hne. apply in_concat. exists [k]. split; [|by left].
  apply in_map_iff. exists (Some k). split; [|done].
  destruct (str_eqb k "") eqn:E; [by apply str_eqb_eq in E|done].
Qed.

(** Cancelled orders keep their keys known. The status lists of [db.rs]
    spell two statuses without their hyphens, so an order that was cancelled
    cooperatively or by the admin never counts as finished: its trade keys
    stay in the set that the spam gate lets through without the proof of work
    of a first contact, and a restored session lists the order as open. *)
Theorem cancelled_order_keys_stay_known o db :
  In o (orders db) -> o_status o = "cooperatively-canceled" \/ o_status o = "canceled-by-admin" ->
  (forall k, In (Some k) [o_buyer_pubkey o; o_seller_pubkey o; Some (o_creator_pubkey o)] ->
     k <> "" -> In k (order_keys db)) /\
  (forall k, o_master_buyer_pubkey o = Some k ->
     In (o_id o, o_trade_index_buyer o, o_status o) (user_orders_by_master_key k db)) /\
  (forall k, o_master_seller_pubkey o = Some k ->
     In (o_id o, o_trade_index_seller o, o_status o) (user_orders_by_master_key k db)).
Proof.
  intros Ho Hs.
  assert (status_in TERMINAL_STATUSES o = false /\ status_in EXCLUDED_ORDER_STATUSES o = false) as [Ht He]
    by (unfold status_in; destruct Hs as [-> | ->]; done).
  split_and!.
  - intros k Hk Hne. apply in_concat. eexists. split; [|by apply present_key].
    apply (in_map (fun o => present_keys [o_buyer_pubkey o; o_seller_pubkey o; Some (o_creator_pubkey o)])).
    apply filter_In. by rewrite Ht.
  - intros k Hk. apply in_or_app. left.
    apply (in_map (fun o => (o_id o, o_trade_index_buyer o, o_status o))), filter_In.
    by rewrite He, Hk, bool_decide_eq_true_2.
  - intros k Hk. apply in_or_app. right.
    apply (in_map (fun o => (o_id o, o_trade_index_seller o, o_status o))), filter_In.
    by rewrite He, Hk, bool_decide_eq_true_2.
Qed.

(** ** Instances *)

(** Order 7 is a range of which 40 units were traded, after its seller had
    asked to cancel. *)
Definition quarrelled : Order :=
  (demo_order 7 SettledHoldInvoice) <| o_min_amount := Some 10 |> <| o_max_amount := Some 100 |>
    <| o_fiat_amount := 40 |> <| o_cancel_initiator_pubkey := Some "maker" |>.

Definition demo_child : Order :=
  match run_val (demo_env 1000) (get_child_order quarrelled) (mkDB [] [] [] []) [] with
  | Ok (Some (child, _)) => child
  | _ => quarrelled
  end.

Lemma remainder_inherits_quarrel_witness :
  o_id demo_child <> 7%N /\ quarrel demo_child = quarrel quarrelled.
Proof.
  split; [vm_compute; discriminate|].
  apply (remainder_inherits_quarrel (demo_env 1000) quarrelled (mkDB [] [] [] []) [] demo_child
    "child-event"). vm_compute. reflexivity.
Defined.

Lemma cancelled_order_keys_stay_known_witness :
  In "taker" (order_keys (mkDB [demo_order 7 CooperativelyCanceled] [] [] [])).
Proof.
  apply (cancelled_order_keys_stay_known (demo_order 7 CooperativelyCanceled)
    (mkDB [demo_order 7 CooperativelyCanceled] [] [] [])); [by left|by left|by left|done].
Defined.
