(* ===== verification/Nip33.v ===== *)
(** * What the daemon publishes

    [src/nip33.rs] and the helpers of [src/util.rs] it is used with: the tags of
    the public events that announce orders, disputes, development fees and the
    node itself.  An event is modelled up to its signature, as the [Draft] that
    is signed. *)

From Stdlib Require Import QArith_base.
From S2P Require Import Prelude Float64 Config BondTypes Effects Model.
From S2P Require Import BondDb Messages Users Disputes DevFee.

Open Scope Z_scope.
Open Scope prog_scope.

(** A tag: its name and its values. *)
Definition Tag : Type := (string * list string)%type.

Record Draft : Type := mkDraft {
  draft_kind : Z;
  draft_content : string;
  draft_tags : list Tag;
  draft_created_at : option Z
}.

(** Total rating, number of reviews, and the day the user was created. *)
Definition Reputation : Type := (f64 * Z * Z)%type.

(** What [get_info] of LND reports. *)
Record LnStatus : Type := mkLnStatus {
  ln_version : string;
  ln_node_pubkey : string;
  ln_commit_hash : string;
  ln_node_alias : string;
  ln_chains : list string;
  ln_status_networks : list string;
  ln_uris : list string
}.

(** Texts of the standard library, of [serde_json] and of the build: a float, the
    [rating] value of so many reviews, rating and days, the version and the
    commit. *)
Class Texts : Type := {
  f64_to_string : f64 -> string;
  rating_json : Z -> f64 -> Z -> string;
  cargo_pkg_version : string;
  git_hash : string
}.

Definition join (l : list string) : string := String.concat "," l.
Definition bool_to_string (b : bool) : string := if b then "true" else "false".

(** [Vec::insert], within bounds. *)
Definition insert_at {A} (n : nat) (x : A) (l : list A) : list A := (firstn n l ++ x :: skipn n l)%list.

Section Nip33.
Context `{Lib} `{Core} `{Texts} (settings : Settings).

(** ** Events *)

Definition is_expiration (t : Tag) : bool := str_eqb t.1 "expiration".

(** [now] is the clock as [get_expiration_timestamp_for_kind] reads it. *)
Definition create_event (content identifier : string) (extra_tags : list Tag) (kind : Z)
    (created_at : option Z) (now : Z) : Draft :=
  let tags := [("d", [identifier])] in
  let expiration :=
    if existsb is_expiration (tags ++ extra_tags) then []
    else match get_expiration_timestamp_for_kind settings kind now with
         | Some at_time => [("expiration", [i64_to_string at_time])]
         | None => []
         end in
  mkDraft kind content (tags ++ expiration ++ extra_tags) created_at.

Definition new_order_event (content identifier : string) (extra_tags : list Tag) (now : Z) : Draft :=
  create_event content identifier extra_tags NOSTR_ORDER_EVENT_KIND None now.

Definition new_order_event_with_created_at (content identifier : string) (extra_tags : list Tag)
    (created_at now : Z) : Draft :=
  create_event content identifier extra_tags NOSTR_ORDER_EVENT_KIND (Some created_at) now.

Definition new_rating_event (content identifier : string) (extra_tags : list Tag) (now : Z) : Draft :=
  create_event content identifier extra_tags NOSTR_RATING_EVENT_KIND None now.

Definition new_info_event (content identifier : string) (extra_tags : list Tag) (now : Z) : Draft :=
  create_event content identifier extra_tags NOSTR_INFO_EVENT_KIND None now.

(** [created_at] is the stamp the registry of disputes gives. *)
Definition new_dispute_event (content identifier : string) (extra_tags : list Tag)
    (created_at now : Z) : Draft :=
  create_event content identifier extra_tags NOSTR_DISPUTE_EVENT_KIND (Some created_at) now.

Definition create_platform_tag_values (instance_name : option string) : list string :=
  "mostro" ::
  match instance_name with
  | Some s => List.filter (fun s => negb (str_eqb s "")) [trim s]
  | None => []
  end.

Definition platform_tag : Tag := ("y", create_platform_tag_values (node_name (get_mostro settings))).

Definition create_dispute_event_tags (status initiator : string) (created_at : Z)
    (platform_name : option string) : list Tag :=
  [("s", [status]); ("initiator", [initiator]); ("created_at", [i64_to_string created_at]);
   ("y", create_platform_tag_values platform_name); ("z", ["dispute"])].

(** ** Orders *)

(** The days are those of a [u64] subtraction, which wraps around. *)
Definition create_rating_tag (now : Z) (reputation_data : option Reputation) : string :=
  match reputation_data with
  | Some (rating, reviews, since) =>
      let days := if since =? 0 then 0 else ((now - since) mod 2 ^ 64) / 86400 in
      rating_json reviews rating days
  | None => "{}"
  end.

(** The order is offered: pending, or held for a taker's bond. *)
Definition is_offered (order : Order) : bool :=
  str_eqb (o_status order) (status_to_string Pending) ||
  str_eqb (o_status order) (status_to_string WaitingTakerBond).

Definition create_fiat_amt_array (order : Order) : list string :=
  if is_offered order then
    match o_min_amount order, o_max_amount order with
    | Some min, Some max => [i64_to_string min; i64_to_string max]
    | _, _ => [i64_to_string (o_fiat_amount order)]
    end
  else [i64_to_string (o_fiat_amount order)].

(** Whether an order in this status has an event, and under which status it
    is advertised. *)
Definition create_status_tags (order : Order) : result (bool * Status) MostroError :=
  match get_order_status order with
  | Err e => Err (MostroInternalErr e)
  | Ok status =>
      Ok (match status with
          | WaitingBuyerInvoice => (is_ok (is_sell_order order), InProgress)
          | WaitingPayment => (is_ok (is_buy_order order), InProgress)
          | Canceled | CanceledByAdmin | CooperativelyCanceled | Expired => (true, Canceled)
          | Success | CompletedByAdmin => (true, status)
          | Pending => (true, status)
          | WaitingTakerBond => (true, Pending)
          | _ => (false, status)
          end)
  end.

Definition create_source_tag (order : Order) (mostro_relays : list string) (mostro_pubkey : string) :
    option string :=
  if is_offered order
  then Some ("mostro:" +:+ uuid_to_string (o_id order) +:+ "?relays=" +:+ join mostro_relays +:+
             "&mostro=" +:+ mostro_pubkey)
  else None.

(** The default stands for an [expect]; orders always have an expiration. *)
Definition nip40_expiration_for_order (order : Order) (published_status : Status) (now : Z) : Z :=
  if bool_decide (published_status = Pending) && (0 <? o_expires_at order) then o_expires_at order
  else default 0 (get_expiration_timestamp_for_kind settings NOSTR_ORDER_EVENT_KIND now).

Definition ln_network : string :=
  match ln_networks settings with Some networks => join networks | None => "unknown" end.

Definition payment_methods (order : Order) : list string :=
  List.filter (fun s => negb (str_eqb s "")) (split_on "," (o_payment_method order)).

Definition order_tags (order : Order) (status : Status) (expires_from : Z) : list Tag :=
  [("k", [o_kind order]); ("f", [o_fiat_code order]); ("s", [status_to_string status]);
   ("amt", [i64_to_string (o_amount order)]); ("fa", create_fiat_amt_array order);
   ("pm", payment_methods order); ("premium", [i64_to_string (o_premium order)]);
   ("network", [ln_network]); ("layer", ["lightning"]);
   ("expires_at", [i64_to_string (o_expires_at order)]);
   ("expiration", [i64_to_string (nip40_expiration_for_order order status expires_from)]);
   platform_tag; ("z", ["order"])].

Definition RATING_TAG_INDEX : nat := 7.
Definition SOURCE_TAG_INDEX : nat := 8.

(** [rated_at] and [expires_from] are the two readings of the clock. *)
Definition order_to_tags (order : Order) (reputation_data : option Reputation)
    (mostro_pubkey : string) (rated_at expires_from : Z) : result (option (list Tag)) MostroError :=
  let? advertised := create_status_tags order in
  let (create_event, status) := advertised : bool * Status in
  let mostro_link := create_source_tag order (nostr_relays settings) mostro_pubkey in
  if create_event then
    let tags := order_tags order status expires_from in
    let tags :=
      if is_some reputation_data
      then insert_at RATING_TAG_INDEX ("rating", [create_rating_tag rated_at reputation_data]) tags
      else tags in
    Ok (Some (match mostro_link with
              | Some source => insert_at SOURCE_TAG_INDEX ("source", [source]) tags
              | None => tags
              end))
  else Ok None.

(** ** Reputation ([src/util.rs]) *)

(** A user who is not registered has no reputation, and must not hide behind
    a trade key. *)
Definition reputation_of (identity_pubkey trade_pubkey : string) :
    M (result (option Reputation) MostroError) :=
  present <- is_user_present identity_pubkey ;;
  Ret (match present with
       | Ok user => Ok (Some (total_rating user, total_reviews user, user_created_at user))
       | Err _ =>
           if str_eqb identity_pubkey trade_pubkey then Ok (Some (Fin 0%Q, 0, 0))
           else Err (MostroInternalErr InvalidPubkey)
       end).

Definition get_tags_for_new_order (new_order_db : Order) (identity_pubkey trade_pubkey : string)
    (mostro_pubkey : string) : M (result (option (list Tag)) MostroError) :=
  reputation <-? reputation_of identity_pubkey trade_pubkey ;;
  rated_at <- ask Now ;;
  expires_from <- ask Now ;;
  Ret (order_to_tags new_order_db reputation mostro_pubkey rated_at expires_from).

Definition get_ratings_for_pending_order (order_updated : Order) (status : Status) :
    M (result (option Reputation) MostroError) :=
  if bool_decide (status = Pending) || bool_decide (status = WaitingTakerBond) then
    let sells := is_ok (is_sell_order order_updated) in
    identity_pubkey <-? Ret (map_err MostroInternalErr
      (if sells then get_master_seller_pubkey order_updated
       else get_master_buyer_pubkey order_updated)) ;;
    trade_pubkey <-? Ret (map_err MostroInternalErr
      (if sells then get_seller_pubkey order_updated else get_buyer_pubkey order_updated)) ;;
    reputation_of identity_pubkey trade_pubkey
  else Ret (Ok None).

(** ** The audit of a development fee ([src/util.rs]) *)

Definition dev_fee_audit_event (order : Order) (payment_hash : string) (now : Z) : Draft :=
  let tag_list :=
    [("order-id", [uuid_to_string (o_id order)]); ("amount", [i64_to_string (o_dev_fee order)]);
     ("hash", [payment_hash]); ("destination", [DEV_FEE_LIGHTNING_ADDRESS]);
     ("network", [ln_network]); platform_tag; ("z", ["dev-fee-payment"])] in
  let expiration :=
    match get_expiration_timestamp_for_kind settings DEV_FEE_AUDIT_EVENT_KIND now with
    | Some at_time => [("expiration", [i64_to_string at_time])]
    | None => []
    end in
  mkDraft DEV_FEE_AUDIT_EVENT_KIND "" (tag_list ++ expiration) None.

(** ** The node *)

Definition advertised_first_contact_pow (s : MostroSettings) : Z :=
  match transport s with
  | Nip44Direct => Z.max (pow s) (effective_pow_first_contact s)
  | GiftWrap => pow s
  end.

Definition apply_to_string (a : BondApplyTo) : string :=
  match a with Take => "take" | Make => "make" | Both => "both" end.

Definition bond_policy_tags (bond_settings : option AntiAbuseBondSettings) : list Tag :=
  let bond_enabled := match bond_settings with Some b => enabled b | None => false end in
  ("bond_enabled", [bool_to_string bond_enabled]) ::
  match bond_settings with
  | Some bond =>
      if enabled bond then
        [("bond_amount_pct", [f64_to_string (amount_pct bond)]);
         ("bond_base_amount_sats", [i64_to_string (base_amount_sats bond)]);
         ("bond_apply_to", [apply_to_string (apply_to bond)]);
         ("bond_slash_on_waiting_timeout", [bool_to_string (slash_on_waiting_timeout bond)]);
         ("bond_slash_node_share_pct", [f64_to_string (slash_node_share_pct bond)]);
         ("bond_payout_claim_window_days", [i64_to_string (payout_claim_window_days bond)])]
      else []
  | None => []
  end.

Definition info_to_tags (ln_status : LnStatus) : list Tag :=
  let s := get_mostro settings in
  let ln := get_ln settings in
  let number n := [i64_to_string n] in
  [("mostro_version", [cargo_pkg_version]); ("mostro_commit_hash", [git_hash]);
   ("max_order_amount", number (max_order_amount s));
   ("min_order_amount", number (min_payment_amount s));
   ("expiration_hours", number (expiration_hours s));
   ("expiration_seconds", number (expiration_seconds s));
   ("fiat_currencies_accepted", [join (fiat_currencies_accepted s)]);
   ("max_orders_per_response", number (max_orders_per_response s));
   ("fee", [f64_to_string (mostro_fee s)]); ("pow", number (pow s));
   ("pow_first_contact", number (advertised_first_contact_pow s));
   ("protocol_version", number (protocol_version (transport s)));
   ("hold_invoice_expiration_window", number (hold_invoice_expiration_window ln));
   ("hold_invoice_cltv_delta", number (hold_invoice_cltv_delta ln));
   ("invoice_expiration_window", number (hold_invoice_expiration_window ln));
   ("lnd_version", [ln_version ln_status]); ("lnd_node_pubkey", [ln_node_pubkey ln_status]);
   ("lnd_commit_hash", [ln_commit_hash ln_status]); ("lnd_node_alias", [ln_node_alias ln_status]);
   ("lnd_chains", [join (ln_chains ln_status)]);
   ("lnd_networks", [join (ln_status_networks ln_status)]);
   ("lnd_uris", [join (ln_uris ln_status)]); platform_tag; ("z", ["info"])] ++
  bond_policy_tags (get_bond settings).
End Nip33.
