(* ===== verification/Nip33Spec.v ===== *)
(** * What relays and clients learn from the daemon

    An order event read back: which rows of the order book a client sees as
    offers, and what it learns of them.  And the work the info event asks a
    stranger to do, compared with the work the gate demands. *)

From Stdlib Require Import QArith_base.
From stdpp Require Import pretty.
From S2P Require Import Prelude Float64 Config BondTypes Effects Model Lightning Messages Gate.
From S2P Require Import Demo EventLoop Nip33.

Open Scope Z_scope.
Open Scope prog_scope.

(** ** A client *)

(** It reads decimal numbers, which is how [to_string] writes them. *)
Class Decimal `{Lib} : Prop := shown_decimal : forall n, i64_to_string n = pretty n.

Definition digit_value (c : ascii) : Z := Z.of_nat (Ascii.nat_of_ascii c) - 48.

Fixpoint read_digits (acc : Z) (s : string) : Z :=
  match s with
  | EmptyString => acc
  | String c s' => read_digits (10 * acc + digit_value c) s'
  end.

Definition read_i64 (s : string) : option Z :=
  match s with
  | EmptyString => None
  | String "-" s' => Some (- read_digits 0 s')
  | _ => Some (read_digits 0 s)
  end.

Lemma read_digit (d : N) : (d < 10)%N -> digit_value (pretty_N_char d) = Z.of_N d.
Proof.
  intros Hd. destruct d as [|p]; [done|].
  do 4 (destruct p as [p|p|]; [try (exfalso; lia)|try (exfalso; lia)|done]).
Qed.

Lemma read_go (x : N) s : read_digits 0 (pretty_N_go x s) = read_digits (Z.of_N x) s.
Proof.
  revert s. induction (N.lt_wf_0 x) as [x _ IH]. intros s.
  destruct (decide (x = 0)%N) as [->|Hx]; [by rewrite pretty_N_go_0|].
  rewrite pretty_N_go_step by lia. rewrite IH by (apply N.div_lt; lia). cbn [read_digits]. f_equal.
  pose proof (N.div_mod x 10 ltac:(done)) as Hx'. pose proof (N.mod_lt x 10 ltac:(done)) as Hm.
  revert Hx' Hm. generalize (x `div` 10)%N (x `mod` 10)%N. intros q d -> Hd.
  rewrite read_digit by done. lia.
Qed.

Lemma read_pretty (x : N) : read_digits 0 (pretty x) = Z.of_N x.
Proof.
  unfold pretty, pretty_N. case_decide as E; [by rewrite E|]. by rewrite read_go.
Qed.

Lemma read_shown `{Decimal} n : read_i64 (i64_to_string n) = Some n.
Proof.
  rewrite shown_decimal. destruct n as [|p|p]; [done| |].
  - change (pretty (Z.pos p)) with (pretty (N.pos p)).
    pose proof (read_pretty (N.pos p)) as Hr. destruct (pretty (N.pos p)) as [|c s] eqn:E; [done|].
    assert (c <> "-"%char) as Hc.
    { intros ->. revert E. apply (pretty_N_go_ne_dash (N.pos p) "" s). done. }
    cbn [read_i64]. rewrite Hr. by destruct c as [[] [] [] [] [] [] [] []].
  - change (pretty (Z.neg p)) with (String "-" (pretty (N.pos p))).
    cbn [read_i64]. by rewrite (read_pretty (N.pos p)).
Qed.

(** An offer: fiat is an amount or a range, [of_until] the time relays drop it. *)
Record Offer : Type := mkOffer {
  of_id : string;
  of_kind : string;
  of_code : string;
  of_amount : Z;
  of_fiat : list Z;
  of_methods : list string;
  of_premium : Z;
  of_link : string;
  of_expires_at : Z;
  of_until : Z
}.

Section Read.
Context `{Lib}.

Fixpoint values_of (key : string) (tags : list Tag) : option (list string) :=
  match tags with
  | [] => None
  | (k, vs) :: tags' => if str_eqb k key then Some vs else values_of key tags'
  end.

Definition text_tag (key : string) (tags : list Tag) : option string :=
  match values_of key tags with Some [v] => Some v | _ => None end.

Definition number_tag (key : string) (tags : list Tag) : option Z :=
  v ← text_tag key tags; read_i64 v.

(** An offer is an order event that says it is pending. *)
Definition read_offer (event : Draft) : option Offer :=
  let tags := draft_tags event in
  status ← text_tag "s" tags;
  if negb (draft_kind event =? NOSTR_ORDER_EVENT_KIND) || negb (str_eqb status (status_to_string Pending))
  then None
  else
    id ← text_tag "d" tags;
    kind ← text_tag "k" tags;
    code ← text_tag "f" tags;
    amount ← number_tag "amt" tags;
    fiat ← values_of "fa" tags ≫= mapM read_i64;
    methods ← values_of "pm" tags;
    premium ← number_tag "premium" tags;
    link ← text_tag "source" tags;
    expires_at ← number_tag "expires_at" tags;
    until ← number_tag "expiration" tags;
    Some (mkOffer id kind code amount fiat methods premium link expires_at until).
End Read.

(** ** Orders as offers *)

(** Look tags up by name. *)
Ltac read_names :=
  repeat match goal with
  | |- context [str_eqb ?a ?b] =>
      let v := eval vm_compute in (str_eqb a b) in
      first [constr_eq v true | constr_eq v false]; change (str_eqb a b) with v; cbn beta iota
  end.

Section Offers.
Context `{LB : Lib} `{CO : Core} `{TX : Texts} `{!LibLaws} `{!Decimal}.
Context (settings : Settings) (mostro_pubkey : string).

(** The offer a row stands for; [kept] is the retention of its event. *)
Definition offer_of (order : Order) (kept : Z) : Offer :=
  mkOffer (uuid_to_string (o_id order)) (o_kind order) (o_fiat_code order) (o_amount order)
    (match o_min_amount order, o_max_amount order with
     | Some min, Some max => [min; max]
     | _, _ => [o_fiat_amount order]
     end)
    (payment_methods order) (o_premium order)
    ("mostro:" +:+ uuid_to_string (o_id order) +:+ "?relays=" +:+ join (nostr_relays settings) +:+
     "&mostro=" +:+ mostro_pubkey)
    (o_expires_at order) (if 0 <? o_expires_at order then o_expires_at order else kept).

Lemma status_inj s s' : status_to_string s = status_to_string s' -> s = s'.
Proof.
  intros E. apply (f_equal status_from_str) in E. rewrite !status_from_to in E. congruence.
Qed.

Lemma offered_status order :
  is_offered order = true <->
  o_status order = status_to_string Pending \/ o_status order = status_to_string WaitingTakerBond.
Proof. unfold is_offered. by rewrite orb_true_iff, !str_eqb_eq. Qed.

Lemma offered_tags order : is_offered order = true -> create_status_tags order = Ok (true, Pending).
Proof.
  intros [E|E]%offered_status; unfold create_status_tags, get_order_status; by rewrite E, status_from_to.
Qed.

(** An order advertised as pending is offered, if its status is spelled as the
    daemon spells it. *)
Lemma pending_tags order status b st :
  o_status order = status_to_string status -> is_offered order = false ->
  create_status_tags order = Ok (b, st) -> b = true -> st <> Pending.
Proof.
  intros E Ho. unfold create_status_tags, get_order_status. rewrite E, status_from_to.
  unfold is_offered in Ho. rewrite E in Ho. apply orb_false_iff in Ho as [H1 H2].
  destruct status; intros [= <- <-]; try done.
  - by rewrite (proj2 (str_eqb_eq _ _) eq_refl) in H1.
  - by rewrite (proj2 (str_eqb_eq _ _) eq_refl) in H2.
Qed.

(** The tags of the event of an order advertised under [st]. *)
Definition event_tags (order : Order) (st : Status) (reputation : option Reputation) (rated from : Z) :
    list Tag :=
  let tags := order_tags settings order st from in
  let tags :=
    if is_some reputation
    then insert_at RATING_TAG_INDEX ("rating", [create_rating_tag rated reputation]) tags else tags in
  match create_source_tag order (nostr_relays settings) mostro_pubkey with
  | Some source => insert_at SOURCE_TAG_INDEX ("source", [source]) tags
  | None => tags
  end.

Lemma order_to_tags_eq order reputation rated from :
  order_to_tags settings order reputation mostro_pubkey rated from =
  (let? advertised := create_status_tags order in
   Ok (if advertised.1 then Some (event_tags order advertised.2 reputation rated from) else None)).
Proof.
  unfold order_to_tags, event_tags. destruct (create_status_tags order) as [[[] st]|e]; [|done..].
  done.
Qed.

(** The order event adds the id only: its expiration is that of the tags. *)
Lemma order_event_eq order st reputation rated from created now :
  draft_tags (new_order_event_with_created_at settings "" (uuid_to_string (o_id order))
                (event_tags order st reputation rated from) created now) =
  ("d", [uuid_to_string (o_id order)]) :: event_tags order st reputation rated from.
Proof.
  unfold new_order_event_with_created_at, create_event. cbn [draft_tags].
  assert (existsb is_expiration ([("d", [uuid_to_string (o_id order)])] ++
            event_tags order st reputation rated from)%list = true) as ->; [|done].
  apply existsb_exists.
  exists ("expiration", [i64_to_string (nip40_expiration_for_order settings order st from)]).
  split; [|done]. unfold event_tags, insert_at, order_tags.
  destruct (create_source_tag _ _ _), reputation; cbn; tauto.
Qed.

Lemma event_names order st reputation rated from :
  NoDup ("d" :: map fst (event_tags order st reputation rated from)).
Proof.
  unfold event_tags, insert_at, order_tags, platform_tag.
  destruct (create_source_tag _ _ _), reputation; cbn [is_some firstn skipn app map fst
    RATING_TAG_INDEX SOURCE_TAG_INDEX]; apply (bool_decide_unpack _); by vm_compute.
Qed.

Lemma read_status i order st reputation rated from :
  text_tag "s" (("d", i) :: event_tags order st reputation rated from) = Some (status_to_string st).
Proof.
  unfold text_tag, event_tags, insert_at, order_tags, platform_tag.
  destruct (create_source_tag _ _ _), reputation; cbn [is_some firstn skipn app values_of
    RATING_TAG_INDEX SOURCE_TAG_INDEX]; by read_names.
Qed.

Lemma read_fiat order :
  is_offered order = true ->
  mapM read_i64 (create_fiat_amt_array order) =
    Some (match o_min_amount order, o_max_amount order with
          | Some min, Some max => [min; max]
          | _, _ => [o_fiat_amount order]
          end).
Proof.
  intros Ho. unfold create_fiat_amt_array. rewrite Ho.
  destruct (o_min_amount order), (o_max_amount order); cbn; by rewrite !read_shown.
Qed.

Lemma read_pending order reputation rated from :
  is_offered order = true ->
  read_offer (mkDraft NOSTR_ORDER_EVENT_KIND "" (("d", [uuid_to_string (o_id order)]) ::
                event_tags order Pending reputation rated from) None) =
  Some (offer_of order (default 0 (get_expiration_timestamp_for_kind settings NOSTR_ORDER_EVENT_KIND from))).
Proof.
  intros Ho. unfold read_offer. cbn [draft_tags draft_kind]. rewrite read_status.
  unfold event_tags, insert_at, order_tags, platform_tag, create_source_tag. rewrite Ho.
  unfold number_tag, text_tag.
  destruct reputation; cbn [is_some firstn skipn app values_of RATING_TAG_INDEX SOURCE_TAG_INDEX];
    read_names; cbn [mbind option_bind]; rewrite (proj2 (str_eqb_eq _ _) eq_refl); cbn;
    rewrite read_fiat by done; cbn; by rewrite !read_shown.
Qed.

(** C28: The order book shows the offers of the daemon, and nothing else.  An
    order that is pending, or held for a taker's bond, always has an event; a
    client that reads this event finds the id, kind, fiat range or amount,
    payment methods, premium, deadline and link of the row, and relays drop the
    event at the deadline.  The event of an order in any other status, if it has
    one, is not read as an offer.  No tag occurs twice. *)
Theorem book_shows_offers order status reputation rated from created now :
  o_status order = status_to_string status ->
  let event tags :=
    new_order_event_with_created_at settings "" (uuid_to_string (o_id order)) tags created now in
  let kept := default 0 (get_expiration_timestamp_for_kind settings NOSTR_ORDER_EVENT_KIND from) in
  let tags_of := order_to_tags settings order reputation mostro_pubkey rated from in
  (status = Pending \/ status = WaitingTakerBond ->
     exists tags, tags_of = Ok (Some tags) /\ read_offer (event tags) = Some (offer_of order kept)) /\
  (status <> Pending -> status <> WaitingTakerBond ->
     forall tags, tags_of = Ok (Some tags) -> read_offer (event tags) = None) /\
  (forall tags, tags_of = Ok (Some tags) -> NoDup (map fst (draft_tags (event tags)))).
Proof.
  intros Es event kept tags_of. subst tags_of. split_and!.
  - intros Hs. assert (is_offered order = true) as Ho by (apply offered_status; rewrite Es; destruct Hs as [-> | ->]; auto).
    rewrite order_to_tags_eq, (offered_tags _ Ho). eexists. split; [done|]. cbn [snd].
    unfold event, read_offer. rewrite order_event_eq. exact (read_pending order reputation rated from Ho).
  - intros Hp Hw tags. rewrite order_to_tags_eq.
    destruct (create_status_tags order) as [[[] st]|] eqn:Ec; [|done..]. intros [= <-].
    cbn [snd]. unfold event, read_offer. rewrite order_event_eq, read_status. cbn [mbind option_bind].
    assert (is_offered order = false) as Ho.
    { apply not_true_is_false. intros [E|E]%offered_status; rewrite Es in E; by apply status_inj in E. }
    destruct (str_eqb _ _) eqn:E; [|by rewrite orb_true_r].
    apply str_eqb_eq, status_inj in E. by destruct (pending_tags order status true st Es Ho Ec eq_refl).
  - intros tags. rewrite order_to_tags_eq.
    destruct (create_status_tags order) as [[[] st]|]; [|done..]. intros [= <-].
    unfold event. rewrite order_event_eq. apply event_names.
Qed.
End Offers.

(** ** The node *)

(** The info event gives the window of a hold invoice where it names that of
    an invoice: a buyer's invoice that lasts as long as the tag asks for is
    refused on a node whose [invoice_expiration_window] is longer. *)
Lemma info_names_hold_window `{Lib} `{Texts} settings ln_status :
  values_of "invoice_expiration_window" (info_to_tags settings ln_status) =
    Some [i64_to_string (hold_invoice_expiration_window (get_ln settings))].
Proof. unfold info_to_tags. cbn [app values_of]. by read_names. Qed.

(** ** The work of a stranger *)

Section Work.
Context `{LB : Lib} `{CO : Core} (work : NostrEvent -> Z) (settings : Settings) (installed : SpamGate).

(** The event loop, with the gate startup installs in any of its states. *)
Definition loop_kind : Z := transport_event_kind (transport (get_mostro settings)).
Definition loop_gate : option SpamGate := gate_for (loop_kind =? DM_EVENT_KIND) (Some installed).
Definition loop_accepts (event : NostrEvent) :
    M (option SpamGate * option (Action * Message * UnwrappedMessage)) :=
  accept_event event (pow (get_mostro settings)) (effective_pow_first_contact (get_mostro settings))
    loop_kind loop_gate.

(** The same loop, asking for no work. *)
Definition accepts_any_work (event : NostrEvent) :
    M (option SpamGate * option (Action * Message * UnwrappedMessage)) :=
  accept_event event 0 0 loop_kind loop_gate.

(** C29: The info event asks a stranger for exactly the work the node demands.
    When an event has at least the work of [pow_first_contact], the event loop
    treats it as if no work were asked of anyone; when it has less, and its
    author is not a party of a running trade where the node knows authors at
    all, the loop drops it without touching the database.  On a node that
    speaks gift wraps the advertised work is that of every event. *)
Theorem advertised_work_is_demanded event :
  (forall e d, check_pow e d = (d <=? work e)) ->
  0 <= pow (get_mostro settings) -> 0 <= effective_pow_first_contact (get_mostro settings) ->
  let asked := advertised_first_contact_pow (get_mostro settings) in
  (asked <= work event -> loop_accepts event = accepts_any_work event) /\
  (work event < asked -> is_known installed (ne_pubkey event) = false ->
     forall env db tr,
       let '(gate, accepted, db', _) := run env (loop_accepts event) db tr in
       accepted = None /\ db' = db).
Proof.
  intros Hw Hp Hf asked. unfold asked, advertised_first_contact_pow, loop_accepts, accepts_any_work,
    loop_gate, loop_kind. unfold accept_event, gate_admits. rewrite !Hw.
  set (p := pow (get_mostro settings)) in *. set (f := effective_pow_first_contact _) in *.
  destruct (transport (get_mostro settings)); cbn [transport_event_kind].
  - change (GIFT_WRAP_KIND =? DM_EVENT_KIND) with false. cbn [gate_for]. split.
    + intros Hle. assert ((p <=? work event) = true /\ (0 <=? work event) = true) as [-> ->]
        by (rewrite !Z.leb_le; lia). done.
    + intros Hlt _ env db tr. assert ((p <=? work event) = false) as -> by (apply Z.leb_gt; lia). done.
  - rewrite Z.eqb_refl. cbn [gate_for]. split.
    + intros Hle. assert ((p <=? work event) = true /\ (0 <=? work event) = true /\ (f <=? work event) = true)
        as (-> & -> & ->) by (rewrite !Z.leb_le; lia). done.
    + intros Hlt Hk env db tr. destruct (p <=? work event) eqn:Ep; [|done]. bool_prop.
      assert ((f <=? work event) = false) as -> by (apply Z.leb_gt; lia). cbn [negb].
      destruct (negb (ne_kind event =? DM_EVENT_KIND)); [done|].
      destruct (negb (event_verify event)); [done|].
      cbn [bind call run]. destruct (is_replay installed (ne_id event) _) as [g' replayed] eqn:Er.
      assert (is_known g' (ne_pubkey event) = false) as ->.
      { revert Er Hk. unfold is_replay. destruct (replay installed) as [r|]; [|by intros [= <- _]].
        destruct (check_and_record _ _ _) as [r' b]. by intros [= <- _]. }
      by rewrite andb_false_r.
Qed.
End Work.

(** ** Examples *)

#[export] Instance demo_texts : Texts := {|
  f64_to_string := fun _ => "0.006";
  rating_json := fun reviews _ days => "reviews " +:+ pretty reviews +:+ ", days " +:+ pretty days;
  cargo_pkg_version := "0.18.0";
  git_hash := "abcdef"
|}.

#[export] Instance demo_decimal : Decimal.
Proof. done. Qed.

(** Order 7 is a range of 10 to 50 dollars, held for a taker's bond. *)
Definition demo_range (status : Status) : Order :=
  (demo_order 7 status) <| o_min_amount := Some 10 |> <| o_max_amount := Some 50 |>
                        <| o_payment_method := "cash,,sepa" |> <| o_expires_at := 90000 |>.

Lemma demo_range_status status : o_status (demo_range status) = status_to_string status.
Proof. by destruct status. Qed.

Definition demo_offer : Offer :=
  mkOffer "uuid" "sell" "USD" 100000 [10; 50] ["cash"; "sepa"] 0
    ("mostro:uuid?relays=wss://relay&mostro=" +:+ demo_node) 90000 90000.

Definition demo_event (status : Status) : option Draft :=
  match order_to_tags demo_settings (demo_range status) (Some (Fin 0%Q, 3, 0)) demo_node 5000 5000 with
  | Ok (Some tags) => Some (new_order_event_with_created_at demo_settings "" "uuid" tags 5000 5000)
  | _ => None
  end.

Lemma book_shows_offers_witness :
  demo_event WaitingTakerBond ≫= read_offer = Some demo_offer /\
  is_some (demo_event Canceled) = true /\ demo_event Canceled ≫= read_offer = None.
Proof.
  destruct (book_shows_offers demo_settings demo_node (demo_range WaitingTakerBond) WaitingTakerBond
              (Some (Fin 0%Q, 3, 0)) 5000 5000 5000 5000 (demo_range_status _)) as (Ho & _).
  destruct (Ho (or_intror eq_refl)) as (tags & Et & Er).
  destruct (book_shows_offers demo_settings demo_node (demo_range Canceled) Canceled
              (Some (Fin 0%Q, 3, 0)) 5000 5000 5000 5000 (demo_range_status _)) as (_ & Hn & _).
  split; [|split; [by vm_compute|]].
  - unfold demo_event. rewrite Et. exact Er.
  - unfold demo_event. destruct (order_to_tags _ (demo_range Canceled) _ _ _ _) as [[tags'|]|] eqn:E;
      [|done..].
    by apply (Hn ltac:(done) ltac:(done) tags').
Defined.

(** The demonstration's node asks for no work of known keys and 8 of others. *)
Lemma advertised_work_is_demanded_witness :
  let event n := mkNostrEvent "id" demo_seller 1000 14 (replicate n []) "cancel" "" in
  let gate := new_gate 60 in
  advertised_first_contact_pow (get_mostro demo_settings) = 8 /\
  loop_accepts demo_settings gate (event 8%nat) = accepts_any_work demo_settings gate (event 8%nat) /\
  (forall env db tr, let '(g, accepted, db', _) := run env (loop_accepts demo_settings gate (event 7%nat)) db tr in
     accepted = None /\ db' = db).
Proof.
  intros event gate.
  pose proof (fun e => advertised_work_is_demanded (fun e => Z.of_nat (length (ne_tags e))) demo_settings
    gate e (fun _ _ => eq_refl) ltac:(by vm_compute) ltac:(by vm_compute)) as H.
  split; [by vm_compute|]. split.
  - apply (H (event 8%nat)). by vm_compute.
  - apply (H (event 7%nat)); by vm_compute.
Defined.
