(* ===== verification/Orderbook.v ===== *)
(** * Publication of the order book

    The registry behind every kind-38383 event ([src/util.rs]) and the
    reconciler that republishes what failed ([src/scheduler.rs]): the
    [created_at] stamps that keep two revisions of an order from tying, the
    generations that keep an old success from erasing a newer failure, and the
    bounded retry queue.  Each function runs under the lock of the map it
    touches, so it is one atomic step; the network send in between is where
    other tasks run. *)

From stdpp Require Import gmap.
From S2P Require Import Prelude Float64 Config BondTypes Effects Model Messages Nip33.

Open Scope Z_scope.

(** ** The registry *)

(** [ORDERBOOK_REGISTRY].  Seconds and generations are [u64] counters far from
    their maximum. *)
Record OrderbookRegistry : Type := mkRegistry {
  last_ts : gmap Uuid Z;
  generation : Z
}.

Record OrderbookStamp : Type := mkStamp {
  st_created_at : Z;
  st_generation : Z
}.

Definition ORDER_TS_MAX_AGE_SECS : Z := 48 * 3600.
Definition ORDER_TS_PRUNE_THRESHOLD : Z := 16384.

Definition monotonic_created_at `{Countable K} (last_ts : gmap K Z) (key : K) (candidate : Z) :
    gmap K Z * Z :=
  let effective := match last_ts !! key with
                   | Some last => Z.max candidate (last + 1)
                   | None => candidate
                   end in
  let pruned :=
    if ORDER_TS_PRUNE_THRESHOLD <=? Z.of_nat (size last_ts)
    then filter (fun kv => effective < kv.2 + ORDER_TS_MAX_AGE_SECS) last_ts
    else last_ts in
  (<[key := effective]> pruned, effective).

Definition stamp_locked (registry : OrderbookRegistry) (order_id : Uuid) (candidate : Z) :
    OrderbookRegistry * OrderbookStamp :=
  let '(ts, effective) := monotonic_created_at (last_ts registry) order_id candidate in
  let g := generation registry + 1 in
  (mkRegistry ts g, mkStamp effective g).

(** [DISPUTE_EVENT_TIMESTAMPS]: the same rule, keyed by the [d] tag. *)
Definition monotonic_dispute_event_timestamp (d_tag : string) (candidate : Z)
    (last_ts : gmap string Z) : gmap string Z * Z :=
  monotonic_created_at last_ts d_tag candidate.

(** The registry and [PENDING_ORDERBOOK_REPUBLISH], whose entries are
    [(generation, attempts)]. *)
Record Book : Type := mkBook {
  registry : OrderbookRegistry;
  republish : gmap Uuid (Z * Z)
}.

Definition stamp_orderbook_event (order_id : Uuid) (candidate : Z) (b : Book) :
    Book * OrderbookStamp :=
  let '(r, stamp) := stamp_locked (registry b) order_id candidate in
  (mkBook r (republish b), stamp).

(** [u64::saturating_add]. *)
Definition saturating_add_u64 (a b : Z) : Z := Z.min (a + b) (2 ^ 64 - 1).

Definition try_stamp_orderbook_event_quiescent (order_id : Uuid) (candidate quiet_secs : Z)
    (b : Book) : Book * option OrderbookStamp :=
  let recent := match last_ts (registry b) !! order_id with
                | Some last => candidate <? saturating_add_u64 last quiet_secs
                | None => false
                end in
  if recent then (b, None)
  else let '(b', stamp) := stamp_orderbook_event order_id candidate b in (b', Some stamp).

Definition monotonic_order_event_timestamp (order_id : Uuid) (candidate : Z) (b : Book) :
    Book * Z :=
  let '(b', stamp) := stamp_orderbook_event order_id candidate b in (b', st_created_at stamp).

(** ** The queue of failed publications *)

Definition MAX_ORDERBOOK_REPUBLISH_ATTEMPTS : Z := 5.

(** [u8::saturating_add(1)]. *)
Definition bump_u8 (a : Z) : Z := Z.min (a + 1) 255.

Definition with_republish (b : Book) (q : gmap Uuid (Z * Z)) : Book := mkBook (registry b) q.

Definition mark_orderbook_publish_failed_at (order_id : Uuid) (g : Z) (b : Book) : Book :=
  let '(g0, a0) := default (g, 0) (republish b !! order_id) in
  with_republish b (<[order_id := (Z.max g0 g, bump_u8 a0)]> (republish b)).

Definition requeue_orderbook_publish_failure (order_id : Uuid) (g attempts : Z) (b : Book) :
    Book :=
  let '(g0, a0) := default (g, attempts) (republish b !! order_id) in
  with_republish b (<[order_id := (Z.max g0 g, Z.max a0 attempts)]> (republish b)).

Definition fresh_generation (b : Book) : Book * Z :=
  let g := generation (registry b) + 1 in
  (mkBook (mkRegistry (last_ts (registry b)) g) (republish b), g).

Definition mark_orderbook_publish_failed (order_id : Uuid) (b : Book) : Book :=
  let '(b', g) := fresh_generation b in mark_orderbook_publish_failed_at order_id g b'.

Definition clear_orderbook_publish_failure_up_to (order_id : Uuid) (g : Z) (b : Book) : Book :=
  match republish b !! order_id with
  | Some (failed_at, _) =>
      if failed_at <=? g then with_republish b (delete order_id (republish b)) else b
  | None => b
  end.

Definition take_failed_orderbook_publishes (b : Book) : Book * list (Uuid * Z * Z) :=
  (with_republish b ∅,
   map (fun kv => (kv.1, kv.2.1, kv.2.2)) (map_to_list (republish b))).

(** ** Publishing a revision *)

(** How relays answered: [send_event] failed or there was no client, or it
    returned with the relays that refused. *)
Inductive SendOutcome : Type :=
| NoClient
| SendError
| SendReturned (failed : list string).

Definition sent_everywhere (o : SendOutcome) : bool :=
  match o with SendReturned [] => true | _ => false end.

Inductive StampPolicy : Type :=
| Always (created_at : option Z)
| IfQuiescent (quiet_secs : Z).

(** What the outside decides for one publication: the rating lookup, the
    readings of the clock (for the tags and for the stamp), the id of the
    event once it is signed, and the relays. *)
Record Publishing : Type := mkPublishing {
  p_ratings : result (option Reputation) MostroError;
  p_rated_at : Z;
  p_expires_from : Z;
  p_now : Z;
  p_event : Draft -> result string string;
  p_send : SendOutcome
}.

(** The part of a publication before the send: it ended without a stamp, or
    it was stamped and its event was built or not. *)
Inductive Started : Type :=
| Unstamped (r : result (option Order) MostroError)
| Stamped (stamp : OrderbookStamp) (r : result Order MostroError).

Section Publish.
Context `{Lib} `{Core} `{Texts} (settings : Settings) (mostro_pubkey : string).

Definition start_publication (status : Status) (order : Order) (policy : StampPolicy)
    (i : Publishing) (b : Book) : Book * Started :=
  let order_updated := order <| o_status := status_to_string status |> in
  match p_ratings i with
  | Err e => (b, Unstamped (Err e))
  | Ok reputation_data =>
      match order_to_tags settings order_updated reputation_data mostro_pubkey
              (p_rated_at i) (p_expires_from i) with
      | Err e => (b, Unstamped (Err e))
      | Ok None => (b, Unstamped (Ok (Some order_updated)))
      | Ok (Some tags) =>
          let '(b', stamp) :=
            match policy with
            | Always created_at =>
                let '(b', st) :=
                  stamp_orderbook_event (o_id order) (default (p_now i) created_at) b in
                (b', Some st)
            | IfQuiescent quiet_secs =>
                try_stamp_orderbook_event_quiescent (o_id order) (p_now i) quiet_secs b
            end in
          match stamp with
          | None => (b', Unstamped (Ok None))
          | Some st =>
              let event := new_order_event_with_created_at settings "" (uuid_to_string (o_id order))
                             tags (st_created_at st) (p_now i) in
              (b', Stamped st (match p_event i event with
                               | Err e => Err (MostroInternalErr (NostrError e))
                               | Ok event_id => Ok (order_updated <| o_event_id := event_id |>)
                               end))
          end
      end
  end.

(** What the answer of the relays does to the queue. *)
Definition finish_publication (order_id : Uuid) (stamp : OrderbookStamp) (o : SendOutcome)
    (b : Book) : Book :=
  if sent_everywhere o
  then clear_orderbook_publish_failure_up_to order_id (st_generation stamp) b
  else mark_orderbook_publish_failed_at order_id (st_generation stamp) b.

Definition update_order_event_stamped (status : Status) (order : Order) (policy : StampPolicy)
    (i : Publishing) (b : Book) : Book * result (option Order) MostroError :=
  match start_publication status order policy i b with
  | (b', Unstamped r) => (b', r)
  | (b', Stamped _ (Err e)) => (b', Err e)
  | (b', Stamped stamp (Ok updated)) =>
      (finish_publication (o_id order) stamp (p_send i) b', Ok (Some updated))
  end.

(** ** The reconciler *)

Definition ORDERBOOK_QUIESCENT_SECS : Z := 120.

(** One drained entry: given up, kept for a later pass, or handed to a
    publication. *)
Inductive EntryOutcome : Type :=
| GaveUp
| KeptForLater
| Republished (order : Order) (started : Started).

(** The loop body of [reconcile_orderbook_once], up to the send. *)
Definition reconcile_entry (entry : Uuid * Z * Z) (row : result (option Order) string)
    (i : Publishing) (b : Book) : Book * EntryOutcome :=
  let '(order_id, g, attempts) := entry in
  if MAX_ORDERBOOK_REPUBLISH_ATTEMPTS <=? attempts then (b, GaveUp)
  else
    match row with
    | Ok (Some order) =>
        match get_order_status order with
        | Ok status =>
            let b1 := requeue_orderbook_publish_failure order_id g attempts b in
            let '(b2, started) :=
              start_publication status order (IfQuiescent ORDERBOOK_QUIESCENT_SECS) i b1 in
            let b3 := match started with
                      | Unstamped (Err _) | Stamped _ (Err _) =>
                          mark_orderbook_publish_failed_at order_id g b2
                      | _ => b2
                      end in
            (b3, Republished order started)
        | Err _ => (b, GaveUp)
        end
    | Ok None => (b, GaveUp)
    | Err _ => (requeue_orderbook_publish_failure order_id g attempts b, KeptForLater)
    end.

(** A pass running alone: each entry's publication completes before the next;
    the orders whose event was sent are collected. *)
Definition reconcile_one (world : Uuid -> result (option Order) string * Publishing)
    (acc : Book * list Uuid) (entry : Uuid * Z * Z) : Book * list Uuid :=
  let '(b, sent) := acc in
  let '(row, i) := world entry.1.1 in
  match reconcile_entry entry row i b with
  | (b', Republished order (Stamped stamp (Ok _))) =>
      (finish_publication (o_id order) stamp (p_send i) b', sent ++ [entry.1.1])%list
  | (b', _) => (b', sent)
  end.

Definition reconcile_orderbook_once
    (world : Uuid -> result (option Order) string * Publishing) (b : Book) :
    Book * list Uuid :=
  let '(b', entries) := take_failed_orderbook_publishes b in
  foldl (reconcile_one world) (b', []) entries.
End Publish.
