(* ===== verification/OrderbookSpec.v ===== *)
(** * What the order-book registry promises

    The publications of the daemon as a transition system: handlers stamp a
    revision and send it, relays answer later and in any order, the reconciler
    drains the queue of failures and retries.  Revisions of an order never
    tie, a failure is never lost to an older success, and retries are
    bounded. *)

From stdpp Require Import gmap.
From S2P Require Import Prelude Float64 Config BondTypes Effects Model Lightning Messages Demo Nip33 Nip33Spec Orderbook.

Open Scope Z_scope.

(** ** The system *)

Inductive event : Type :=
| EvStamp (o : Uuid) (t g : Z)
| EvFailed (o : Uuid) (g : Z)
| EvSent (o : Uuid) (g : Z)
| EvGaveUp (o : Uuid) (g : Z).

(** The shared maps, the publications whose send is under way, the entries the
    reconciler has drained and not yet handled, and everything that happened,
    newest first. *)
Record System : Type := mkSystem {
  book : Book;
  inflight : list (Uuid * OrderbookStamp);
  drained : list (Uuid * Z * Z);
  history : list event
}.

(** The clock has not fallen 48 hours behind a stamp already issued. *)
Definition steady (candidate : Z) (h : list event) : Prop :=
  forall o t g, In (EvStamp o t g) h -> t < candidate + ORDER_TS_MAX_AGE_SECS.

Definition stamp_events (o : Uuid) (s : Started) : list event :=
  match s with
  | Unstamped _ => []
  | Stamped st _ => [EvStamp o (st_created_at st) (st_generation st)]
  end.

Definition launched (o : Uuid) (s : Started) : list (Uuid * OrderbookStamp) :=
  match s with Stamped st (Ok _) => [(o, st)] | _ => [] end.

Definition entry_events (entry : Uuid * Z * Z) (out : EntryOutcome) : list event :=
  match out with
  | GaveUp => [EvGaveUp entry.1.1 entry.1.2]
  | KeptForLater => []
  | Republished order started => stamp_events (o_id order) started
  end.

Definition entry_launched (out : EntryOutcome) : list (Uuid * OrderbookStamp) :=
  match out with
  | Republished order started => launched (o_id order) started
  | _ => []
  end.

Section System.
Context `{LB : Lib} `{CO : Core} `{TX : Texts} (settings : Settings) (mostro_pubkey : string).

Inductive ob_step : System -> System -> Prop :=
| ob_publish b fl dr h status order created_at i b' started :
    steady (default (p_now i) created_at) h ->
    start_publication settings mostro_pubkey status order (Always created_at) i b =
      (b', started) ->
    ob_step (mkSystem b fl dr h)
      (mkSystem b' (fl ++ launched (o_id order) started) dr
         (stamp_events (o_id order) started ++ h))
| ob_first b fl dr h o candidate b' t :
    steady candidate h ->
    monotonic_order_event_timestamp o candidate b = (b', t) ->
    ob_step (mkSystem b fl dr h)
      (mkSystem b' fl dr (EvStamp o t (generation (registry b')) :: h))
| ob_answer b fl dr h i o st send :
    fl !! i = Some (o, st) ->
    ob_step (mkSystem b fl dr h)
      (mkSystem (finish_publication o st send b) (delete i fl) dr
         ((if sent_everywhere send then EvSent o (st_generation st)
           else EvFailed o (st_generation st)) :: h))
| ob_first_failed b fl dr h o :
    ob_step (mkSystem b fl dr h)
      (mkSystem (mark_orderbook_publish_failed o b) fl dr
         (EvFailed o (generation (registry b) + 1) :: h))
| ob_drain b fl h b' entries :
    take_failed_orderbook_publishes b = (b', entries) ->
    ob_step (mkSystem b fl [] h) (mkSystem b' fl entries h)
| ob_entry b fl entry dr h row i b' out :
    steady (p_now i) h ->
    (forall order, row = Ok (Some order) -> o_id order = entry.1.1) ->
    reconcile_entry settings mostro_pubkey entry row i b = (b', out) ->
    ob_step (mkSystem b fl (entry :: dr) h)
      (mkSystem b' (fl ++ entry_launched out) dr (entry_events entry out ++ h)).

Definition started_empty (s : System) : Prop :=
  s = mkSystem (mkBook (mkRegistry ∅ 0) ∅) [] [] [].

Definition ob_reachable (s : System) : Prop :=
  exists s0, started_empty s0 /\ rtc ob_step s0 s.

(** ** A failure is never lost *)

(** The queue has, for [o], a failure at least as recent as [g]. *)
Definition queued (b : Book) (o : Uuid) (g : Z) : Prop :=
  exists g' a, republish b !! o = Some (g', a) /\ g <= g'.

Definition keeps (b b' : Book) : Prop := forall o g, queued b o g -> queued b' o g.

Lemma keeps_same b b' : republish b' = republish b -> keeps b b'.
Proof. intros E o g (g' & a & Hq & Hg). exists g', a. by rewrite E. Qed.

Lemma keeps_trans b1 b2 b3 : keeps b1 b2 -> keeps b2 b3 -> keeps b1 b3.
Proof. intros H1 H2 o g Hq. by apply H2, H1. Qed.

Lemma mark_at_keeps o g b : keeps b (mark_orderbook_publish_failed_at o g b).
Proof.
  intros o' g' (g0 & a0 & Hq & Hg). unfold mark_orderbook_publish_failed_at, queued.
  destruct (decide (o' = o)) as [->|Hne].
  - rewrite Hq. simpl. rewrite lookup_insert_eq. eexists _, _. split; [done|lia].
  - destruct (default _ _). simpl. rewrite lookup_insert_ne by done. eauto.
Qed.

Lemma mark_at_queued o g b : queued (mark_orderbook_publish_failed_at o g b) o g.
Proof.
  unfold mark_orderbook_publish_failed_at, queued. destruct (default _ _). simpl.
  rewrite lookup_insert_eq. eexists _, _. split; [done|lia].
Qed.

Lemma requeue_keeps o g a b : keeps b (requeue_orderbook_publish_failure o g a b).
Proof.
  intros o' g' (g0 & a0 & Hq & Hg). unfold requeue_orderbook_publish_failure, queued.
  destruct (decide (o' = o)) as [->|Hne].
  - rewrite Hq. simpl. rewrite lookup_insert_eq. eexists _, _. split; [done|lia].
  - destruct (default _ _). simpl. rewrite lookup_insert_ne by done. eauto.
Qed.

Lemma requeue_queued o g a b : queued (requeue_orderbook_publish_failure o g a b) o g.
Proof.
  unfold requeue_orderbook_publish_failure, queued. destruct (default _ _). simpl.
  rewrite lookup_insert_eq. eexists _, _. split; [done|lia].
Qed.

Lemma stamp_republish o c b : republish (stamp_orderbook_event o c b).1 = republish b.
Proof. done. Qed.

Lemma start_republish status order policy i b :
  republish (start_publication settings mostro_pubkey status order policy i b).1 = republish b.
Proof.
  unfold start_publication, try_stamp_orderbook_event_quiescent.
  repeat (case_match; simplify_eq/=; try done).
Qed.

(** A later publication went through, or the reconciler gave the order up. *)
Definition overtaken (h : list event) (o : Uuid) (g : Z) : Prop :=
  exists g', g <= g' /\ (In (EvSent o g') h \/ In (EvGaveUp o g') h).

Definition pending_retry (s : System) (o : Uuid) (g : Z) : Prop :=
  queued (book s) o g \/ exists g' a, In (o, g', a) (drained s) /\ g <= g'.

Definition remembered (s : System) : Prop :=
  forall o g, In (EvFailed o g) (history s) -> overtaken (history s) o g \/ pending_retry s o g.

Lemma overtaken_app h1 h2 o g : overtaken h2 o g -> overtaken (h1 ++ h2) o g.
Proof.
  intros (g' & Hg & Hin). exists g'. split; [done|]. rewrite !in_app_iff. tauto.
Qed.

Lemma overtaken_cons ev h o g : overtaken h o g -> overtaken (ev :: h) o g.
Proof. apply (overtaken_app [ev]). Qed.

Lemma no_failure_stamp o started o' g h :
  In (EvFailed o' g) (stamp_events o started ++ h) -> In (EvFailed o' g) h.
Proof. destruct started; simpl; [done|]. by intros [|]. Qed.

Lemma no_failure_entry entry out o g h :
  In (EvFailed o g) (entry_events entry out ++ h) -> In (EvFailed o g) h.
Proof.
  destruct out; simpl; [by intros [|]|done|]. apply no_failure_stamp.
Qed.

(** The answer to a publication: a success clears only what it overtakes. *)
Lemma answer_remembers o st send b o' g :
  queued b o' g ->
  queued (finish_publication o st send b) o' g \/
  (sent_everywhere send = true /\ o' = o /\ g <= st_generation st).
Proof.
  intros Hq. unfold finish_publication. destruct (sent_everywhere send); [|left; by apply mark_at_keeps].
  unfold clear_orderbook_publish_failure_up_to. destruct (republish b !! o) as [[f a]|] eqn:E; [|by left].
  destruct (f <=? st_generation st) eqn:Hle; [|by left]. bool_prop.
  destruct Hq as (g' & a' & Hq & Hg). destruct (decide (o' = o)) as [->|Hne].
  - right. simplify_eq. split_and!; [done|done|lia].
  - left. exists g', a'. simpl. by rewrite lookup_delete_ne.
Qed.

(** A drained entry goes back to the queue or is given up. *)
Lemma entry_remembers entry row i b b' out :
  reconcile_entry settings mostro_pubkey entry row i b = (b', out) ->
  keeps b b' /\
  (queued b' entry.1.1 entry.1.2 \/ out = GaveUp).
Proof.
  destruct entry as [[o g] a]. unfold reconcile_entry. cbn [fst snd].
  destruct (_ <=? a); [by intros [= <- <-]; auto using keeps_same|].
  destruct row as [[order|]|e].
  - destruct (get_order_status order) as [status|]; [|by intros [= <- <-]; auto using keeps_same].
    set (b1 := requeue_orderbook_publish_failure o g a b).
    destruct (start_publication _ _ _ _ _ _ b1) as [b2 started] eqn:Es. intros [= <- <-].
    assert (keeps b1 b2) as Hk.
    { apply keeps_same. by rewrite <- (start_republish status order
        (IfQuiescent ORDERBOOK_QUIESCENT_SECS) i b1), Es. }
    set (b3 := match started with Unstamped (Err _) | Stamped _ (Err _) => _ | _ => b2 end).
    assert (keeps b2 b3) as Hk3.
    { subst b3. destruct started as [[]|? []]; auto using keeps_same, mark_at_keeps. }
    split; [|left; apply Hk3, Hk, requeue_queued].
    eapply keeps_trans; [apply requeue_keeps|]. by eapply keeps_trans.
  - by intros [= <- <-]; auto using keeps_same.
  - intros [= <- <-]. split; [apply requeue_keeps|left; apply requeue_queued].
Qed.

Lemma drain_remembers b b' entries o g :
  take_failed_orderbook_publishes b = (b', entries) -> queued b o g ->
  exists g' a, In (o, g', a) entries /\ g <= g'.
Proof.
  unfold take_failed_orderbook_publishes. intros [= <- <-] (g' & a & Hq & Hg).
  exists g', a. split; [|done]. apply in_map_iff. exists (o, (g', a)). split; [done|].
  by apply list_elem_of_In, elem_of_map_to_list.
Qed.

Lemma pending_keep b b' fl fl' dr h h' o g :
  keeps b b' -> pending_retry (mkSystem b fl dr h) o g ->
  pending_retry (mkSystem b' fl' dr h') o g.
Proof. intros Hk [Hq|Hd]; [left; by apply Hk|by right]. Qed.

Lemma step_remembers s s' : ob_step s s' -> remembered s -> remembered s'.
Proof.
  intros Hs Hr. unfold remembered in *.
  destruct Hs as [b fl dr h status order created_at i b' started _ Es
                 |b fl dr h o candidate b' t _ Es|b fl dr h i o st send _
                 |b fl dr h o|b fl h b' entries Et|b fl entry dr h row i b' out _ _ Ee];
    cbn [history book drained] in *; intros o1 g1 Hin.
  - apply no_failure_stamp in Hin. destruct (Hr o1 g1 Hin) as [?|Hp]; [by left; apply overtaken_app|].
    right. eapply pending_keep; [|exact Hp]. apply keeps_same.
    by rewrite <- (start_republish status order (Always created_at) i b), Es.
  - destruct Hin as [|Hin]; [done|].
    destruct (Hr o1 g1 Hin) as [?|Hp]; [by left; apply overtaken_cons|].
    right. eapply pending_keep; [|exact Hp]. apply keeps_same.
    unfold monotonic_order_event_timestamp in Es. simpl in Es. by simplify_eq/=.
  - assert (o1 = o /\ g1 = st_generation st /\ sent_everywhere send = false \/
            In (EvFailed o1 g1) h) as [(-> & -> & Hs)|Hold].
    { destruct (sent_everywhere send), Hin as [|]; simplify_eq; auto. }
    + right. left. simpl. unfold finish_publication. rewrite Hs. apply mark_at_queued.
    + destruct (Hr o1 g1 Hold) as [?|[Hq|Hd]]; [by left; apply overtaken_cons| |by right; right].
      destruct (answer_remembers o st send b o1 g1 Hq) as [?|(Hs & -> & Hg)]; [by right; left|].
      left. exists (st_generation st). rewrite Hs. split; [done|]. left. by left.
  - destruct Hin as [E|Hin].
    + injection E as <- <-. right. left. apply mark_at_queued.
    + destruct (Hr o1 g1 Hin) as [?|Hp]; [by left; apply overtaken_cons|]. right.
      eapply pending_keep; [|exact Hp]. intros o' g' Hq. apply mark_at_keeps. exact Hq.
  - destruct (Hr o1 g1 Hin) as [?|[Hq|(? & ? & [] & _)]]; [by left|]. right. right.
    by eapply drain_remembers.
  - apply no_failure_entry in Hin. destruct (entry_remembers _ _ _ _ _ _ Ee) as [Hk Hq].
    destruct (Hr o1 g1 Hin) as [?|[Hold|(g' & a & Hd & Hg)]];
      [by left; apply overtaken_app|by right; left; apply Hk|].
    destruct Hd as [->|Hd]; [|by right; right; eauto]. simpl in Hq.
    destruct Hq as [(g2 & a2 & Hq & Hg2)| ->].
    + right. left. exists g2, a2. split; [done|lia].
    + left. exists g'. split; [done|]. right. by left.
Qed.

(** C38: a failed publication is never forgotten. In every reachable state of
    the publications, the answers and the reconciler, whatever their order, a
    failure of an order's publication is still queued or in the reconciler's
    hands with a generation at least as recent, unless a publication stamped no
    earlier reached every relay, or the reconciler gave the order up. An older
    success never erases a newer failure. *)
Theorem failed_publish_remembered s o g :
  ob_reachable s -> In (EvFailed o g) (history s) ->
  overtaken (history s) o g \/ pending_retry s o g.
Proof.
  intros (s0 & -> & Hs). revert o g. change (remembered s).
  assert (remembered (mkSystem (mkBook (mkRegistry ∅ 0) ∅) [] [] [])) as H0 by (intros ? ? []).
  induction Hs as [|s1 s2 s3 H12 _ IH]; [done|]. by apply IH, (step_remembers s1).
Qed.

End System.

(** ** Revisions never tie *)

Lemma monotonic_spec `{Countable K} (m m' : gmap K Z) k c eff :
  monotonic_created_at m k c = (m', eff) ->
  m' !! k = Some eff /\ c <= eff /\ (forall l, m !! k = Some l -> l < eff) /\
  (forall k' l, m !! k' = Some l -> k' <> k ->
     m' !! k' = Some l \/ l + ORDER_TS_MAX_AGE_SECS <= eff).
Proof.
  unfold monotonic_created_at. set (e := match m !! k with Some _ => _ | None => c end).
  intros [= <- <-]. split; [apply lookup_insert_eq|].
  assert (c <= e /\ forall l, m !! k = Some l -> l < e) as [? ?].
  { subst e. destruct (m !! k); split; intros; simplify_eq; lia. }
  split_and!; [done|done|]. intros k' l Hl Hne. rewrite lookup_insert_ne by done.
  destruct (_ <=? _); [|by left]. destruct (decide (e < l + ORDER_TS_MAX_AGE_SECS)); [left|right; lia].
  by apply map_lookup_filter_Some.
Qed.

(** Everything the registry has issued: it still knows a stamp at least as
    late for the order, or has pruned it because it is two days old. *)
Definition known (r : OrderbookRegistry) (h : list event) : Prop :=
  forall o t g, In (EvStamp o t g) h ->
    g <= generation r /\
    ((exists l, last_ts r !! o = Some l /\ t <= l) \/
     exists o2 t2 g2, In (EvStamp o2 t2 g2) h /\ t + ORDER_TS_MAX_AGE_SECS <= t2).

(** Newest first, every stamp of an order is later than the ones before. *)
Fixpoint strictly (h : list event) : Prop :=
  match h with
  | [] => True
  | ev :: h' =>
      match ev with
      | EvStamp o t g => forall t' g', In (EvStamp o t' g') h' -> t' < t /\ g' < g
      | _ => True
      end /\ strictly h'
  end.

Lemma stamp_strict r o c r' st h :
  stamp_locked r o c = (r', st) -> steady c h -> known r h -> strictly h ->
  known r' (EvStamp o (st_created_at st) (st_generation st) :: h) /\
  strictly (EvStamp o (st_created_at st) (st_generation st) :: h).
Proof.
  unfold stamp_locked. destruct (monotonic_created_at _ _ _) as [m' eff] eqn:Em.
  intros [= <- <-] Hst Hk Hs. apply monotonic_spec in Em as (Hnew & Hc & Hlt & Hold).
  cbn [st_created_at st_generation]. split.
  - intros o1 t1 g1 [[= -> -> ->]|Hin]; cbn [last_ts generation].
    + split; [lia|]. left. exists t1. split; [done|lia].
    + destruct (Hk o1 t1 g1 Hin) as [Hg [(l & Hl & Htl)|(o2 & t2 & g2 & Hin2 & Ht2)]];
        (split; [lia|]); [|right; exists o2, t2, g2; split; [by right|done]].
      destruct (decide (o1 = o)) as [->|Hne];
        [left; exists eff; split; [done|]; specialize (Hlt l Hl); lia|].
      destruct (Hold o1 l Hl Hne) as [?|?]; [left; by exists l|].
      right. exists o, eff, (generation r + 1). split; [by left|lia].
  - split; [|done]. intros t' g' Hin.
    destruct (Hk o t' g' Hin) as [Hg [(l & Hl & Htl)|(o2 & t2 & g2 & Hin2 & Ht2)]];
      (split; [|lia]).
    + specialize (Hlt l Hl). lia.
    + specialize (Hst o2 t2 g2 Hin2). lia.
Qed.

(** The registry moves on without a stamp. *)
Definition advances (r r' : OrderbookRegistry) : Prop :=
  last_ts r' = last_ts r /\ generation r <= generation r'.

Lemma advances_refl r : advances r r.
Proof. split; [done|lia]. Qed.

Lemma known_advance r r' h : advances r r' -> known r h -> known r' h.
Proof.
  intros [El Hg] Hk o t g Hin. destruct (Hk o t g Hin) as [? ?]. rewrite El. split; [lia|done].
Qed.

Lemma known_quiet r ev h :
  (forall o t g, ev <> EvStamp o t g) -> known r h -> known r (ev :: h).
Proof.
  intros Hev Hk o t g [E|Hin]; [by destruct (Hev o t g)|].
  destruct (Hk o t g Hin) as [? [?|(o2 & t2 & g2 & ? & ?)]]; split; [done|by left|done|].
  right. exists o2, t2, g2. split; [by right|done].
Qed.

Lemma mark_at_registry o g b : registry (mark_orderbook_publish_failed_at o g b) = registry b.
Proof. unfold mark_orderbook_publish_failed_at. by destruct (default _ _). Qed.

Lemma requeue_registry o g a b :
  registry (requeue_orderbook_publish_failure o g a b) = registry b.
Proof. unfold requeue_orderbook_publish_failure. by destruct (default _ _). Qed.

Lemma finish_registry o st send b : registry (finish_publication o st send b) = registry b.
Proof.
  unfold finish_publication, clear_orderbook_publish_failure_up_to.
  destruct (sent_everywhere send); [|apply mark_at_registry]. by repeat case_match.
Qed.

Section Stamps.
Context `{LB : Lib} `{CO : Core} `{TX : Texts} (settings : Settings) (mostro_pubkey : string).

Definition candidate_of (policy : StampPolicy) (i : Publishing) : Z :=
  match policy with Always c => default (p_now i) c | IfQuiescent _ => p_now i end.

Lemma start_stamps status order policy i b b' started h :
  start_publication settings mostro_pubkey status order policy i b = (b', started) ->
  steady (candidate_of policy i) h -> known (registry b) h -> strictly h ->
  known (registry b') (stamp_events (o_id order) started ++ h) /\
  strictly (stamp_events (o_id order) started ++ h).
Proof.
  unfold start_publication. destruct (p_ratings i); [|by intros [= <- <-]].
  destruct (order_to_tags _ _ _ _ _ _) as [[tags|]|]; [|by intros [= <- <-]..].
  intros E Hst Hk Hs. destruct policy as [c|q]; cbn [candidate_of] in Hst.
  - unfold stamp_orderbook_event in E. destruct (stamp_locked _ _ _) as [r st] eqn:Es.
    injection E as <- <-. cbn [stamp_events]. by eapply stamp_strict.
  - unfold try_stamp_orderbook_event_quiescent, stamp_orderbook_event in E.
    destruct (stamp_locked _ _ _) as [r st] eqn:Es.
    destruct (match last_ts _ !! _ with Some _ => _ | None => _ end);
      injection E as <- <-; [done|]. cbn [stamp_events]. by eapply stamp_strict.
Qed.

Lemma entry_stamps entry row i b b' out h :
  reconcile_entry settings mostro_pubkey entry row i b = (b', out) ->
  steady (p_now i) h -> known (registry b) h -> strictly h ->
  known (registry b') (entry_events entry out ++ h) /\ strictly (entry_events entry out ++ h).
Proof.
  destruct entry as [[o g] a]. unfold reconcile_entry. intros E Hst Hk Hs.
  assert (b' = b /\ out = GaveUp \/ b' = requeue_orderbook_publish_failure o g a b /\ out = KeptForLater \/
          exists order status b2 started, out = Republished order started /\
            start_publication settings mostro_pubkey status order
              (IfQuiescent ORDERBOOK_QUIESCENT_SECS) i
              (requeue_orderbook_publish_failure o g a b) = (b2, started) /\
            registry b' = registry b2)
    as [(-> & ->)|[(-> & ->)|(order & status & b2 & started & -> & Es & Er)]].
  { repeat (case_match; simplify_eq/=); auto 10;
      right; right; eexists _, _, _, _; split_and!; eauto using mark_at_registry. }
  - split; [|done]. by apply known_quiet.
  - by rewrite requeue_registry.
  - rewrite Er. cbn [entry_events]. eapply start_stamps; [exact Es|done| |done].
    by rewrite requeue_registry.
Qed.

Lemma step_stamps s s' :
  ob_step settings mostro_pubkey s s' ->
  known (registry (book s)) (history s) /\ strictly (history s) ->
  known (registry (book s')) (history s') /\ strictly (history s').
Proof.
  intros Hs [Hk Ho].
  destruct Hs as [b fl dr h status order created_at i b' started Hst Es
                 |b fl dr h o candidate b' t Hst Es|b fl dr h i o st send _
                 |b fl dr h o|b fl h b' entries Et|b fl entry dr h row i b' out Hst _ Ee];
    cbn [history book] in *.
  - by eapply start_stamps.
  - unfold monotonic_order_event_timestamp, stamp_orderbook_event in Es.
    destruct (stamp_locked _ _ _) as [r st] eqn:El. injection Es as <- <-. cbn [registry].
    assert (generation r = st_generation st) as ->; [|by eapply stamp_strict].
    revert El. unfold stamp_locked. destruct (monotonic_created_at _ _ _). by intros [= <- <-].
  - rewrite finish_registry. destruct (sent_everywhere send); (split; [by apply known_quiet|done]).
  - unfold mark_orderbook_publish_failed, fresh_generation. rewrite mark_at_registry.
    split; [|done]. apply known_quiet; [done|]. eapply known_advance; [|exact Hk].
    split; [done|]. simpl. lia.
  - injection Et as <- _. done.
  - by eapply entry_stamps.
Qed.

(** C39: two revisions of an order never tie. In every reachable state, of two
    stamps issued for the same order the later one carries a strictly greater
    [created_at] and a strictly greater generation, whether a handler, the
    first publication or the reconciler asked for it, as long as the clock
    never falls 48 hours behind a stamp already issued; pruning the registry
    does not change that. *)
Theorem revisions_never_tie s h1 h2 o t g t' g' :
  ob_reachable settings mostro_pubkey s ->
  history s = (h1 ++ EvStamp o t g :: h2)%list -> In (EvStamp o t' g') h2 ->
  t' < t /\ g' < g.
Proof.
  intros (s0 & -> & Hs) Eh Hin.
  assert (strictly (history s)) as Ho.
  { set (s0 := mkSystem _ _ _ _) in Hs.
    assert (known (registry (book s0)) (history s0) /\ strictly (history s0)) as H0
      by (split; [intros ? ? ? []|done]).
    clearbody s0. clear Eh Hin.
    induction Hs as [|s1 s2 s3 H12 _ IH]; [apply H0|]. by apply IH, (step_stamps s1). }
  rewrite Eh in Ho. clear Eh. induction h1 as [|ev h1 IH]; simpl in Ho; [|by apply IH, Ho].
  by apply Ho.
Qed.
End Stamps.

(** ** Retries are bounded *)

(** How many times the reconciler may still send the order. *)
Definition budget (b : Book) (o : Uuid) : Z :=
  match republish b !! o with
  | Some (_, a) => Z.max 0 (MAX_ORDERBOOK_REPUBLISH_ATTEMPTS - a)
  | None => 0
  end.

Lemma budget_nonneg b o : 0 <= budget b o.
Proof. unfold budget. repeat case_match; lia. Qed.

Definition sends (o : Uuid) (l : list Uuid) : Z := Z.of_nat (count_occ N.eq_dec l o).

Lemma sends_snoc o l o' : sends o (l ++ [o']) = sends o l + if decide (o' = o) then 1 else 0.
Proof.
  unfold sends. rewrite count_occ_app. simpl. destruct (N.eq_dec o' o), (decide (o' = o)); try done; lia.
Qed.

Lemma mark_at_other o o' g b :
  o' <> o -> republish (mark_orderbook_publish_failed_at o' g b) !! o = republish b !! o.
Proof.
  intros Hne. unfold mark_orderbook_publish_failed_at. destruct (default _ _). simpl.
  by rewrite lookup_insert_ne.
Qed.

Lemma requeue_other o o' g a b :
  o' <> o -> republish (requeue_orderbook_publish_failure o' g a b) !! o = republish b !! o.
Proof.
  intros Hne. unfold requeue_orderbook_publish_failure. destruct (default _ _). simpl.
  by rewrite lookup_insert_ne.
Qed.

Lemma finish_other o o' st send b :
  o' <> o -> republish (finish_publication o' st send b) !! o = republish b !! o.
Proof.
  intros Hne. unfold finish_publication, clear_orderbook_publish_failure_up_to.
  destruct (sent_everywhere send); [|by apply mark_at_other].
  repeat case_match; try done. simpl. by rewrite lookup_delete_ne.
Qed.

Lemma requeue_drained o g a b :
  republish b !! o = None ->
  republish (requeue_orderbook_publish_failure o g a b) !! o = Some (g, a).
Proof.
  intros E. unfold requeue_orderbook_publish_failure. rewrite E. simpl.
  rewrite lookup_insert_eq. by rewrite !Z.max_id.
Qed.

(** A recorded failure takes one attempt off the budget. *)
Lemma mark_at_budget o g g0 a b :
  republish b !! o = Some (g0, a) -> a < MAX_ORDERBOOK_REPUBLISH_ATTEMPTS ->
  budget (mark_orderbook_publish_failed_at o g b) o = MAX_ORDERBOOK_REPUBLISH_ATTEMPTS - a - 1.
Proof.
  intros E Ha. unfold budget, mark_orderbook_publish_failed_at. rewrite E. simpl.
  rewrite lookup_insert_eq. unfold bump_u8, MAX_ORDERBOOK_REPUBLISH_ATTEMPTS in *. lia.
Qed.

Lemma finish_budget o st send g0 a b :
  republish b !! o = Some (g0, a) -> a < MAX_ORDERBOOK_REPUBLISH_ATTEMPTS ->
  g0 <= st_generation st ->
  budget (finish_publication o st send b) o <= MAX_ORDERBOOK_REPUBLISH_ATTEMPTS - a - 1.
Proof.
  intros E Ha Hg. unfold finish_publication. destruct (sent_everywhere send);
    [|by rewrite (mark_at_budget _ _ _ _ _ E Ha)].
  unfold clear_orderbook_publish_failure_up_to, budget. rewrite E, (proj2 (Z.leb_le _ _) Hg). simpl.
  rewrite lookup_delete_eq. lia.
Qed.

(** Every generation on record was issued by the registry. *)
Definition issued (b : Book) : Prop :=
  forall o g a, republish b !! o = Some (g, a) -> g <= generation (registry b).

Lemma issued_insert b o g a q :
  issued b -> g <= generation (registry b) ->
  republish q = <[o := (g, a)]> (republish b) -> registry q = registry b -> issued q.
Proof.
  intros Hb Hg Eq Er o' g' a'. rewrite Eq, Er, lookup_insert. case_decide; intros; simplify_eq;
    [done|by eapply Hb].
Qed.

Lemma issued_mark o g b :
  issued b -> g <= generation (registry b) -> issued (mark_orderbook_publish_failed_at o g b).
Proof.
  intros Hb Hg. unfold mark_orderbook_publish_failed_at.
  destruct (republish b !! o) as [[g0 a0]|] eqn:E; simpl;
    (eapply issued_insert; [exact Hb| |done|done]); [|lia].
  specialize (Hb _ _ _ E). lia.
Qed.

Lemma issued_requeue o g a b :
  issued b -> g <= generation (registry b) -> issued (requeue_orderbook_publish_failure o g a b).
Proof.
  intros Hb Hg. unfold requeue_orderbook_publish_failure.
  destruct (republish b !! o) as [[g0 a0]|] eqn:E; simpl;
    (eapply issued_insert; [exact Hb| |done|done]); [|lia].
  specialize (Hb _ _ _ E). lia.
Qed.

Lemma issued_advance b b' :
  issued b -> republish b' = republish b -> generation (registry b) <= generation (registry b') ->
  issued b'.
Proof. intros Hb Eq Hg o g a. rewrite Eq. intros Hl. specialize (Hb _ _ _ Hl). lia. Qed.

Lemma issued_finish o st send b :
  issued b -> st_generation st <= generation (registry b) -> issued (finish_publication o st send b).
Proof.
  intros Hb Hg. unfold finish_publication. destruct (sent_everywhere send); [|by apply issued_mark].
  unfold clear_orderbook_publish_failure_up_to. repeat case_match; try done.
  intros o' g' a'. simpl. rewrite lookup_delete_Some. intros [_ Hl]. by eapply Hb.
Qed.

Lemma stamp_locked_generation r o c :
  generation (stamp_locked r o c).1 = generation r + 1 /\
  st_generation (stamp_locked r o c).2 = generation r + 1.
Proof. unfold stamp_locked. by destruct (monotonic_created_at _ _ _). Qed.

Section Retries.
Context `{LB : Lib} `{CO : Core} `{TX : Texts} (settings : Settings) (mostro_pubkey : string).

(** The registry after the part of a publication before its send. *)
Lemma start_generation status order policy i b b' started :
  start_publication settings mostro_pubkey status order policy i b = (b', started) ->
  match started with
  | Unstamped _ => registry b' = registry b
  | Stamped st _ => generation (registry b') = generation (registry b) + 1 /\
                    st_generation st = generation (registry b) + 1
  end.
Proof.
  unfold start_publication. destruct (p_ratings i); [|by intros [= <- <-]].
  destruct (order_to_tags _ _ _ _ _ _) as [[tags|]|]; [|by intros [= <- <-]..].
  unfold try_stamp_orderbook_event_quiescent, stamp_orderbook_event. intros E.
  destruct policy as [c|q];
    match type of E with context [stamp_locked ?r ?o ?c] =>
      pose proof (stamp_locked_generation r o c) as Hg; destruct (stamp_locked r o c) as [r' st] end.
  - by injection E as <- <-.
  - destruct (match last_ts _ !! _ with Some _ => _ | None => _ end); by injection E as <- <-.
Qed.

Lemma issued_start status order policy i b b' started :
  start_publication settings mostro_pubkey status order policy i b = (b', started) ->
  issued b -> issued b' /\ generation (registry b) <= generation (registry b').
Proof.
  intros E Hb. pose proof (start_generation _ _ _ _ _ _ _ E) as Hg.
  assert (generation (registry b) <= generation (registry b')) as Hle
    by (destruct started; [by rewrite Hg|lia]).
  split; [|done]. eapply issued_advance; [exact Hb| |done].
  by rewrite <- (start_republish settings mostro_pubkey status order policy i b), E.
Qed.

Lemma issued_entry o g a row i b b' out :
  reconcile_entry settings mostro_pubkey (o, g, a) row i b = (b', out) ->
  issued b -> g <= generation (registry b) ->
  issued b' /\ generation (registry b) <= generation (registry b') /\
  match out with
  | Republished _ (Stamped st _) => st_generation st <= generation (registry b')
  | _ => True
  end.
Proof.
  unfold reconcile_entry. intros E Hb Hg.
  destruct (_ <=? a); [injection E as <- <-; split_and!; [done|lia|done]|].
  destruct row as [[order|]|e]; [|injection E as <- <-; split_and!; [done|lia|done]|].
  - destruct (get_order_status order) as [status|];
      [|injection E as <- <-; split_and!; [done|lia|done]].
    destruct (start_publication _ _ _ _ _ _ _) as [b2 started] eqn:Es. injection E as <- <-.
    destruct (issued_start _ _ _ _ _ _ _ Es) as [Hb2 Hle]; [by apply issued_requeue|].
    pose proof (start_generation _ _ _ _ _ _ _ Es) as Hs. rewrite requeue_registry in *.
    destruct started as [[]|? []]; rewrite ?mark_at_registry; split_and!;
      try done; try lia; apply issued_mark; try done; lia.
  - injection E as <- <-. rewrite requeue_registry.
    split_and!; [by apply issued_requeue|lia|done].
Qed.
(** ** One pass, entry by entry *)

(** The rows a pass reloads are the ones it asked for. *)
Definition rows_match (world : Uuid -> result (option Order) string * Publishing) : Prop :=
  forall o order, (world o).1 = Ok (Some order) -> o_id order = o.

Section Pass.
Context (world : Uuid -> result (option Order) string * Publishing) (Hw : rows_match world).

Abbreviation one := (reconcile_one settings mostro_pubkey world).

Lemma entry_row o row i : world o = (row, i) -> forall order, row = Ok (Some order) -> o_id order = o.
Proof. intros E order ->. apply Hw. by rewrite E. Qed.

Lemma entry_other o' g a row i b b' out o :
  reconcile_entry settings mostro_pubkey (o', g, a) row i b = (b', out) -> o' <> o ->
  republish b' !! o = republish b !! o.
Proof.
  unfold reconcile_entry. intros E Hne. destruct (_ <=? a); [by injection E as <- <-|].
  destruct row as [[order|]|e]; [|by injection E as <- <-|].
  - destruct (get_order_status order) as [status|]; [|by injection E as <- <-].
    destruct (start_publication _ _ _ _ _ _ _) as [b2 started] eqn:Es. injection E as <- <-.
    assert (republish b2 !! o = republish b !! o) as Hb2.
    { rewrite <- (requeue_other o o' g a b Hne).
      by rewrite <- (start_republish settings mostro_pubkey status order
        (IfQuiescent ORDERBOOK_QUIESCENT_SECS) i (requeue_orderbook_publish_failure o' g a b)), Es. }
    by destruct started as [[]|? []]; rewrite ?mark_at_other.
  - injection E as <- <-. by apply requeue_other.
Qed.

Lemma one_other b sent o' g a o :
  o' <> o ->
  republish (one (b, sent) (o', g, a)).1 !! o = republish b !! o /\
  sends o (one (b, sent) (o', g, a)).2 = sends o sent.
Proof.
  intros Hne. unfold reconcile_one. cbn [fst]. destruct (world o') as [row i] eqn:Ew.
  destruct (reconcile_entry _ _ _ _ _ _) as [b' out] eqn:Ee.
  pose proof (entry_other _ _ _ _ _ _ _ _ o Ee Hne) as Hb'.
  destruct out as [| |order [|st []]]; cbn [fst snd]; try done.
  rewrite sends_snoc, decide_False by done. split; [|lia].
  destruct (decide (o_id order = o)) as [Eo|Eo]; [|by rewrite finish_other].
  exfalso. apply Hne. rewrite <- Eo. symmetry. apply (entry_row _ _ _ Ew).
  revert Ee. unfold reconcile_entry. repeat case_match; intros; by simplify_eq/=.
Qed.

Lemma one_issued b sent o g a :
  issued b -> g <= generation (registry b) ->
  issued (one (b, sent) (o, g, a)).1 /\
  generation (registry b) <= generation (registry (one (b, sent) (o, g, a)).1).
Proof.
  intros Hb Hg. unfold reconcile_one. cbn [fst]. destruct (world o) as [row i].
  destruct (reconcile_entry _ _ _ _ _ _) as [b' out] eqn:Ee.
  destruct (issued_entry _ _ _ _ _ _ _ _ Ee Hb Hg) as (Hb' & Hle & Hst).
  destruct out as [| |order [|st []]]; cbn [fst]; try done.
  rewrite finish_registry. split; [by apply issued_finish|done].
Qed.

(** The order's own entry: a send costs one attempt, and nothing is sent
    once the attempts are used up. *)
Lemma one_own b sent o g a :
  republish b !! o = None -> g <= generation (registry b) ->
  sends o (one (b, sent) (o, g, a)).2 + budget (one (b, sent) (o, g, a)).1 o <=
  sends o sent + Z.max 0 (MAX_ORDERBOOK_REPUBLISH_ATTEMPTS - a).
Proof.
  intros En Hg. unfold reconcile_one. cbn [fst]. destruct (world o) as [row i] eqn:Ew.
  assert (budget b o = 0) as E0 by (unfold budget; by rewrite En).
  pose proof (requeue_drained o g a b En) as Eq.
  unfold reconcile_entry. destruct (_ <=? a) eqn:Ea; [simpl; lia|]. bool_prop.
  destruct row as [[order|]|e]; [|simpl; lia|].
  2: { cbn [fst snd]. unfold budget. rewrite Eq. lia. }
  destruct (get_order_status order) as [status|]; [|simpl; lia].
  destruct (start_publication _ _ _ _ _ _ _) as [b2 started] eqn:Es.
  pose proof (start_generation _ _ _ _ _ _ _ Es) as Hgen. rewrite requeue_registry in Hgen.
  assert (republish b2 !! o = Some (g, a)) as Eq2.
  { by rewrite <- Eq, <- (start_republish settings mostro_pubkey status order
      (IfQuiescent ORDERBOOK_QUIESCENT_SECS) i (requeue_orderbook_publish_failure o g a b)), Es. }
  destruct started as [[|]|st [|]]; cbn [fst snd];
    rewrite ?(mark_at_budget _ _ _ _ _ Eq2 Ea); try lia.
  - unfold budget. rewrite Eq2. lia.
  - rewrite sends_snoc, decide_True by done. destruct Hgen as [_ Hst].
    rewrite (entry_row _ _ _ Ew order eq_refl).
    pose proof (finish_budget o st (p_send i) g a b2 Eq2 Ea ltac:(lia)). lia.
Qed.

Lemma pass_other entries b sent o :
  ~ In o (map (fun e => e.1.1) entries) ->
  republish (foldl one (b, sent) entries).1 !! o = republish b !! o /\
  sends o (foldl one (b, sent) entries).2 = sends o sent.
Proof.
  revert b sent. induction entries as [|[[o' g] a] entries IH]; intros b sent Hni; [done|].
  cbn [map In fst] in Hni. cbn [foldl].
  destruct (one_other b sent o' g a o) as [H1 H2]; [tauto|].
  destruct (one (b, sent) (o', g, a)) as [b1 sent1]. cbn [fst snd] in *.
  destruct (IH b1 sent1) as [H3 H4]; [tauto|]. rewrite H3, H4. done.
Qed.

Lemma pass_issued entries b sent :
  issued b -> Forall (fun e => e.1.2 <= generation (registry b)) entries ->
  issued (foldl one (b, sent) entries).1.
Proof.
  revert b sent. induction entries as [|[[o' g] a] entries IH]; intros b sent Hb Hf; [done|].
  apply Forall_cons in Hf as [Hg Hf]. cbn [foldl]. cbn [fst snd] in Hg.
  destruct (one_issued b sent o' g a Hb Hg) as [H1 H2].
  destruct (one (b, sent) (o', g, a)) as [b1 sent1]. apply IH; [done|].
  eapply Forall_impl; [exact Hf|]. intros e. cbn [fst] in *. lia.
Qed.

Lemma pass_own entries b sent o g a :
  NoDup (map (fun e => e.1.1) entries) -> In (o, g, a) entries ->
  republish b !! o = None -> issued b ->
  Forall (fun e => e.1.2 <= generation (registry b)) entries ->
  sends o (foldl one (b, sent) entries).2 + budget (foldl one (b, sent) entries).1 o <=
  sends o sent + Z.max 0 (MAX_ORDERBOOK_REPUBLISH_ATTEMPTS - a).
Proof.
  revert b sent. induction entries as [|[[o' g'] a'] entries IH]; intros b sent Hnd Hin En Hb Hf;
    [done|].
  apply NoDup_cons in Hnd as [Hni Hnd]. apply Forall_cons in Hf as [Hg Hf].
  cbn [foldl]. cbn [fst snd] in *. rewrite list_elem_of_In in Hni.
  destruct (one_issued b sent o' g' a' Hb Hg) as [H1 H2].
  destruct Hin as [[= -> -> ->]|Hin].
  - pose proof (one_own b sent o g a En Hg) as Hown.
    destruct (one (b, sent) (o, g, a)) as [b1 sent1].
    destruct (pass_other entries b1 sent1 o Hni) as [E1 E2].
    unfold budget in *. rewrite E1, E2. exact Hown.
  - assert (o' <> o) as Hne.
    { intros ->. apply Hni. apply in_map_iff. by exists (o, g, a). }
    destruct (one_other b sent o' g' a' o Hne) as [E1 E2].
    destruct (one (b, sent) (o', g', a')) as [b1 sent1]. cbn [fst snd] in *.
    rewrite <- E2. apply IH; [done|done|by rewrite E1|done|].
    eapply Forall_impl; [exact Hf|]. intros e He. cbn [fst] in *. etrans; [exact He|exact H2].
Qed.

Lemma drained_keys b :
  map (fun e => e.1.1) (take_failed_orderbook_publishes b).2 = (map_to_list (republish b)).*1.
Proof. simpl. rewrite map_map. done. Qed.

(** One pass: what is sent for an order is taken off its budget. *)
Lemma once_budget b o :
  issued b ->
  let '(b', sent) := reconcile_orderbook_once settings mostro_pubkey world b in
  issued b' /\ sends o sent + budget b' o <= budget b o.
Proof.
  intros Hb. unfold reconcile_orderbook_once.
  pose proof (drained_keys b) as Hkeys.
  assert (Forall (fun e => e.1.2 <= generation (registry b)) (take_failed_orderbook_publishes b).2) as Hf.
  { apply Forall_forall. intros [[o' g] a] Hin%list_elem_of_In. simpl in Hin.
    apply in_map_iff in Hin as ([o1 [g1 a1]] & [= -> -> ->] & Hin).
    apply list_elem_of_In, elem_of_map_to_list in Hin. by eapply Hb. }
  assert (forall g a, republish b !! o = Some (g, a) ->
            In (o, g, a) (take_failed_orderbook_publishes b).2) as Hin.
  { intros g a E. apply in_map_iff. exists (o, (g, a)). split; [done|].
    by apply list_elem_of_In, elem_of_map_to_list. }
  destruct (take_failed_orderbook_publishes b) as [b0 entries] eqn:Et. cbn [snd] in *.
  assert (republish b0 = ∅ /\ registry b0 = registry b) as [E0 Er] by by injection Et as <- _.
  assert (issued b0) as Hb0 by (intros ? ? ?; by rewrite E0).
  rewrite <- Er in Hf.
  pose proof (pass_issued entries b0 [] Hb0 Hf) as Hi.
  destruct (republish b !! o) as [[g a]|] eqn:E.
  - pose proof (pass_own entries b0 [] o g a) as Hown.
    destruct (foldl one (b0, []) entries) as [b' sent]. cbn [fst snd] in *. split; [done|].
    unfold budget at 2. rewrite E. apply Hown; auto; [|by rewrite E0].
    rewrite Hkeys. apply NoDup_fst_map_to_list.
  - destruct (pass_other entries b0 [] o) as [H1 H2].
    { rewrite Hkeys, <- list_elem_of_In, list_elem_of_fmap. intros ([o1 [g1 a1]] & -> & Hm).
      apply elem_of_map_to_list in Hm. simpl in E. congruence. }
    destruct (foldl one (b0, []) entries) as [b' sent]. cbn [fst snd] in *. split; [done|].
    unfold budget. rewrite H1, H2, E, E0. done.
Qed.
End Pass.

(** ** Passes in sequence *)

Fixpoint passes (worlds : list (Uuid -> result (option Order) string * Publishing)) (b : Book) :
    Book * list Uuid :=
  match worlds with
  | [] => (b, [])
  | w :: rest =>
      let '(b1, sent) := reconcile_orderbook_once settings mostro_pubkey w b in
      let '(b2, more) := passes rest b1 in
      (b2, sent ++ more)%list
  end.

Lemma sends_app o l1 l2 : sends o (l1 ++ l2) = sends o l1 + sends o l2.
Proof. unfold sends. rewrite count_occ_app. lia. Qed.

(** Stamps under way and drained entries were issued too. *)
Definition system_issued (s : System) : Prop :=
  issued (book s) /\
  Forall (fun p => st_generation p.2 <= generation (registry (book s))) (inflight s) /\
  Forall (fun e => e.1.2 <= generation (registry (book s))) (drained s).

Lemma le_forall {A} (f : A -> Z) (x y : Z) l :
  x <= y -> Forall (fun a => f a <= x) l -> Forall (fun a => f a <= y) l.
Proof. intros Hxy Hf. eapply Forall_impl; [exact Hf|]. simpl. lia. Qed.

Lemma step_issued s s' :
  ob_step settings mostro_pubkey s s' -> system_issued s -> system_issued s'.
Proof.
  intros Hs (Hb & Hfl & Hdr).
  destruct Hs as [b fl dr h status order created_at i b' started _ Es
                 |b fl dr h o candidate b' t _ Es|b fl dr h i o st send Hi
                 |b fl dr h o|b fl h b' entries Et|b fl [[o g] a] dr h row i b' out _ _ Ee];
    unfold system_issued; cbn [book inflight drained] in *.
  - destruct (issued_start _ _ _ _ _ _ _ Es Hb) as [Hb' Hle].
    pose proof (start_generation _ _ _ _ _ _ _ Es) as Hst.
    split_and!; [done| |by eapply le_forall]. apply Forall_app. split; [by eapply le_forall|].
    destruct started as [|st []]; repeat constructor. simpl. lia.
  - unfold monotonic_order_event_timestamp, stamp_orderbook_event in Es.
    pose proof (stamp_locked_generation (registry b) o candidate) as [Hg _].
    destruct (stamp_locked _ _ _) as [r st]. injection Es as <- <-. cbn [registry fst] in *.
    split_and!; [|eapply le_forall; [|done]; lia..].
    eapply issued_advance; [exact Hb|done|]. simpl. lia.
  - apply Forall_lookup_1 with (1 := Hfl) in Hi as Hst. simpl in Hst.
    rewrite finish_registry. split_and!; [by apply issued_finish|by apply Forall_delete|done].
  - unfold mark_orderbook_publish_failed, fresh_generation. rewrite mark_at_registry. simpl.
    split_and!; [|eapply le_forall; [|done]; lia..].
    apply issued_mark; [|simpl; lia]. eapply issued_advance; [exact Hb|done|]. simpl. lia.
  - injection Et as <- <-. split_and!; [intros ? ? ? E; simpl in E; by rewrite lookup_empty in E|done|].
    apply Forall_map, Forall_forall. intros [o [g a]] Hin%elem_of_map_to_list. simpl. by eapply Hb.
  - apply Forall_cons in Hdr as [Hg Hdr]. simpl in Hg.
    destruct (issued_entry _ _ _ _ _ _ _ _ Ee Hb Hg) as (Hb' & Hle & Hst).
    split_and!; [done| |by eapply le_forall]. apply Forall_app. split; [by eapply le_forall|].
    destruct out as [| |order [|st []]]; repeat constructor. done.
Qed.

Lemma reachable_issued s : ob_reachable settings mostro_pubkey s -> issued (book s).
Proof.
  intros (s0 & -> & Hs). set (s0 := mkSystem _ _ _ _) in Hs.
  assert (system_issued s0) as H0
    by (split_and!; [intros ? ? ? E; simpl in E; by rewrite lookup_empty in E|constructor..]).
  clearbody s0. enough (system_issued s) as [? _] by done.
  induction Hs as [|s1 s2 s3 H12 _ IH]; [done|]. by apply IH, (step_issued s1).
Qed.

(** C40: retries are bounded. However many passes the reconciler makes, with
    whatever answers from the database, the clock and the relays, the events it
    sends for an order plus the attempts that remain never exceed the attempts
    that were left when it started, at most five for a failure recorded
    once: a relay that refuses every event cannot make the daemon republish an
    order for ever, and an order that is not queued is not sent at all. *)
Theorem republish_budget s worlds o :
  ob_reachable settings mostro_pubkey s -> Forall rows_match worlds ->
  sends o (passes worlds (book s)).2 + budget (passes worlds (book s)).1 o <= budget (book s) o.
Proof.
  intros Hr%reachable_issued Hf. revert Hr. generalize (book s). clear s.
  induction Hf as [|w rest Hw Hf IH]; intros b Hb; cbn [passes]; [change (0 + budget b o <= budget b o); lia|].
  pose proof (once_budget w Hw b o Hb) as Hp.
  destruct (reconcile_orderbook_once _ _ w b) as [b1 sent]. destruct Hp as [Hb1 Hp].
  specialize (IH b1 Hb1). destruct (passes rest b1) as [b2 more]. cbn [fst snd] in *.
  rewrite sends_app. lia.
Qed.

(** ** Statuses without an event *)

Definition unadvertised (status : Status) : bool :=
  match status with
  | Active | FiatSent | Dispute | SettledHoldInvoice | SettledByAdmin | InProgress
  | WaitingMakerBond => true
  | _ => false
  end.

(** The order is in such a status and nothing else is wrong with it. *)
Definition silent_row (o : Uuid) (w : Uuid -> result (option Order) string * Publishing) : Prop :=
  exists order status,
    (w o).1 = Ok (Some order) /\ get_order_status order = Ok status /\
    unadvertised status = true /\ is_ok (p_ratings (w o).2) = true.

Context `{!LibLaws}.

Lemma silent_start order status i policy b :
  unadvertised status = true -> is_ok (p_ratings i) = true ->
  start_publication settings mostro_pubkey status order policy i b =
    (b, Unstamped (Ok (Some (order <| o_status := status_to_string status |>)))).
Proof.
  intros Hu Hr. unfold start_publication. destruct (p_ratings i); [|done].
  unfold order_to_tags, create_status_tags, get_order_status. cbn [o_status with_field].
  rewrite status_from_to. by destruct status.
Qed.

Lemma silent_own w b sent o g a :
  silent_row o w -> a < MAX_ORDERBOOK_REPUBLISH_ATTEMPTS -> republish b !! o = None ->
  reconcile_one settings mostro_pubkey w (b, sent) (o, g, a) =
    (requeue_orderbook_publish_failure o g a b, sent).
Proof.
  intros (order & status & Hw & Hst & Hu & Hr) Ha En. unfold reconcile_one. cbn [fst].
  destruct (w o) as [row i]. cbn [fst snd] in *. subst row. unfold reconcile_entry.
  rewrite (proj2 (Z.leb_gt _ _) Ha), Hst. by rewrite silent_start.
Qed.

Lemma silent_pass w entries b sent o g a :
  rows_match w -> silent_row o w -> a < MAX_ORDERBOOK_REPUBLISH_ATTEMPTS ->
  NoDup (map (fun e => e.1.1) entries) -> In (o, g, a) entries -> republish b !! o = None ->
  let r := foldl (reconcile_one settings mostro_pubkey w) (b, sent) entries in
  republish r.1 !! o = Some (g, a) /\ sends o r.2 = sends o sent.
Proof.
  intros Hw Hs Ha. revert b sent.
  induction entries as [|[[o' g'] a'] entries IH]; intros b sent Hnd Hin En; [done|].
  apply NoDup_cons in Hnd as [Hni Hnd]. rewrite list_elem_of_In in Hni. cbn [foldl fst] in *.
  destruct Hin as [[= -> -> ->]|Hin].
  - rewrite silent_own by done.
    destruct (pass_other w Hw entries (requeue_orderbook_publish_failure o g a b) sent o Hni) as [E1 E2].
    cbn zeta. rewrite E1, E2. split; [by apply requeue_drained|done].
  - assert (o' <> o) as Hne.
    { intros ->. apply Hni. apply in_map_iff. by exists (o, g, a). }
    destruct (one_other w Hw b sent o' g' a' o Hne) as [E1 E2].
    destruct (reconcile_one _ _ w (b, sent) (o', g', a')) as [b1 sent1]. cbn [fst snd] in *.
    rewrite <- E2. apply IH; [done|done|by rewrite E1].
Qed.

(** A failed publication of an order that has since moved to a status
    without an event ([Active], [FiatSent], a dispute, ...) is never repaired
    while the order stays there: every pass sends nothing for it, consumes no
    attempt and leaves its entry as it was. *)
Theorem unadvertised_never_repaired b worlds o g a :
  republish b !! o = Some (g, a) -> a < MAX_ORDERBOOK_REPUBLISH_ATTEMPTS ->
  Forall rows_match worlds -> Forall (silent_row o) worlds ->
  republish (passes worlds b).1 !! o = Some (g, a) /\ sends o (passes worlds b).2 = 0.
Proof.
  intros Hq Ha Hw. revert b Hq. induction Hw as [|w rest Hw _ IH]; intros b Hq Hs; [done|].
  apply Forall_cons in Hs as [Hs Hrest]. cbn [passes]. unfold reconcile_orderbook_once.
  pose proof (drained_keys b) as Hkeys.
  assert (In (o, g, a) (take_failed_orderbook_publishes b).2) as Hin.
  { apply in_map_iff. exists (o, (g, a)). split; [done|].
    by apply list_elem_of_In, elem_of_map_to_list. }
  destruct (take_failed_orderbook_publishes b) as [b0 entries] eqn:Et. cbn [snd] in *.
  assert (republish b0 !! o = None) as E0 by (injection Et as <- _; apply lookup_empty).
  destruct (silent_pass w entries b0 [] o g a Hw Hs Ha) as [E1 E2]; [|done|done|].
  { rewrite Hkeys. apply NoDup_fst_map_to_list. }
  destruct (foldl _ (b0, []) entries) as [b1 sent]. cbn [fst snd] in *.
  destruct (IH b1 E1 Hrest) as [E3 E4]. destruct (passes rest b1) as [b2 more]. cbn [fst snd] in *.
  rewrite sends_app, E2, E4. done.
Qed.
End Retries.

(** ** A run *)

Definition demo_publishing (now : Z) (send : SendOutcome) : Publishing :=
  mkPublishing (Ok None) now now now (fun _ => Ok "event") send.

(** Two revisions in the same second; the newer is refused by a relay before
    the older reaches every relay. *)
Lemma demo_publications :
  exists s, ob_reachable demo_settings demo_node s /\ budget (book s) 7%N = 4 /\
    history s = ([EvSent 7 1; EvFailed 7 2] ++ EvStamp 7 101 2 :: [EvStamp 7 100 1])%list.
Proof.
  eexists. split; [eexists; split; [reflexivity|]|].
  - eapply rtc_l.
    { apply (ob_publish _ _ _ _ _ _ Pending (demo_order 7 Pending) None
               (demo_publishing 100 NoClient)); [by intros ? ? ? []|reflexivity]. }
    eapply rtc_l.
    { apply (ob_publish _ _ _ _ _ _ Canceled (demo_order 7 Pending) None
               (demo_publishing 100 NoClient)); [|reflexivity].
      intros o t g [[= <- <- <-]|[]]. by vm_compute. }
    eapply rtc_l.
    { by apply (ob_answer _ _ _ _ _ _ 1 7%N (mkStamp 101 2) (SendReturned ["relay"])). }
    eapply rtc_l; [|apply rtc_refl].
    by apply (ob_answer _ _ _ _ _ _ 0 7%N (mkStamp 100 1) (SendReturned [])).
  - split; vm_compute; reflexivity.
Qed.

Lemma failed_publish_remembered_witness :
  exists s, overtaken (history s) 7 2 \/ pending_retry s 7 2.
Proof.
  destruct demo_publications as (s & Hr & _ & Hh). exists s.
  apply (failed_publish_remembered demo_settings demo_node s 7 2 Hr). rewrite Hh. simpl. auto.
Defined.

Lemma revisions_never_tie_witness : 100 < 101 /\ 1 < 2.
Proof.
  destruct demo_publications as (s & Hr & _ & Hh).
  apply (revisions_never_tie demo_settings demo_node s _ _ 7 101 2 100 1 Hr Hh). by left.
Defined.

(** The relay keeps refusing: passes ten minutes apart over an order in status
    [st]. *)
Definition refused (st : Status) (now : Z) (o : Uuid) : result (option Order) string * Publishing :=
  (Ok (Some (demo_order o st)), demo_publishing now (SendReturned ["relay"])).

Lemma refused_rows st l : Forall rows_match (map (refused st) l).
Proof. apply Forall_map, Forall_forall. by intros now _ o order [= <-]. Qed.

Lemma republish_budget_witness :
  exists s, sends 7 (passes demo_settings demo_node (map (refused Canceled) [1000; 2000; 3000; 4000; 5000])
                       (book s)).2 <= 4.
Proof.
  destruct demo_publications as (s & Hr & Hb & _). exists s.
  set (worlds := map (refused Canceled) _).
  pose proof (republish_budget demo_settings demo_node s worlds 7 Hr (refused_rows _ _)) as H.
  pose proof (budget_nonneg (passes demo_settings demo_node worlds (book s)).1 7). lia.
Defined.

Lemma unadvertised_never_repaired_witness :
  let b := mkBook (mkRegistry ∅ 2) {[7%N := (2, 1)]} in
  let worlds := map (refused Active) [1000; 2000; 3000] in
  republish (passes demo_settings demo_node worlds b).1 !! 7%N = Some (2, 1) /\
  sends 7 (passes demo_settings demo_node worlds b).2 = 0.
Proof.
  intros b worlds. apply (unadvertised_never_repaired demo_settings demo_node);
    [reflexivity|reflexivity|apply refused_rows|].
  apply Forall_map, Forall_forall. intros now _. exists (demo_order 7 Active), Active. done.
Defined.
