(* ===== verification/Tasks.v ===== *)
(** * Tasks with an identity

    [Effects] lets a task rely on what any task keeps.  Some protocols of the
    daemon rest on ownership instead: the task that took a claim is the only
    one that releases it, until a time-out.  Here every interaction in the
    history carries the task that made it, its number and the job it runs, so
    that a guarantee can speak of the task's own past.

    - [tstep] interleaves any number of jobs, with arbitrary answers a [law]
      permits, and crashes;
    - [twp] is the specification of a program run by a given task: it keeps
      its guarantee whatever the other tasks do in between;
    - [tsys_safe] lifts it to every interleaving. *)

From S2P Require Import Prelude Effects.

Section Tasks.
Context {DB : Type} {ext : Type -> Type} {Job : Type}.

Abbreviation prog' := (prog DB ext).
Abbreviation obs' := (obs DB ext).

(** A task: its number and its job. *)
Definition Tid : Type := nat * Job.

Abbreviation ttrace := (list (Tid * obs')).
Abbreviation tassert := (ttrace -> DB -> Prop).

(** What the tasks agree on. *)
Record Pact : Type := mkPact {
  p_law : ttrace -> Prop;
  p_inv : tassert;
  p_guar : Tid -> ttrace -> DB -> obs' -> DB -> Prop
}.

Section Wp.
Context (P : Pact) (i : Tid).

(** [K] survives the steps of every other task. *)
Definition undisturbed (K : tassert) : Prop :=
  forall j tr db o db', j.1 <> i.1 ->
    p_inv P tr db -> p_law P ((j, o) :: tr) -> p_guar P j tr db o db' ->
    K tr db -> K ((j, o) :: tr) db'.

Fixpoint twp {A} (K : tassert) (p : prog' A) (Post : A -> tassert) : Prop :=
  match p with
  | Ret a => forall tr db, p_inv P tr db -> K tr db -> Post a tr db
  | Sql stmt k =>
      (forall r, exists K', undisturbed K' /\
         (forall tr db, p_inv P tr db -> K tr db -> (stmt db).2 = r ->
            p_law P ((i, ObsSql stmt (Ok r)) :: tr) ->
            p_guar P i tr db (ObsSql stmt (Ok r)) (stmt db).1 /\
            K' ((i, ObsSql stmt (Ok r)) :: tr) (stmt db).1) /\
         twp K' (k (Ok r)) Post) /\
      (forall e, exists K', undisturbed K' /\
         (forall tr db, p_inv P tr db -> K tr db -> p_law P ((i, ObsSql stmt (Err e)) :: tr) ->
            p_guar P i tr db (ObsSql stmt (Err e)) db /\
            K' ((i, ObsSql stmt (Err e)) :: tr) db) /\
         twp K' (k (Err e)) Post)
  | Ext e k =>
      forall r, exists K', undisturbed K' /\
        (forall tr db, p_inv P tr db -> K tr db -> p_law P ((i, ObsExt e r) :: tr) ->
           p_guar P i tr db (ObsExt e r) db /\ K' ((i, ObsExt e r) :: tr) db) /\
        twp K' (k r) Post
  end.

Lemma undisturbed_and K F :
  undisturbed K -> undisturbed F -> undisturbed (fun tr db => K tr db /\ F tr db).
Proof. intros HK HF j tr db o db' Hj Hv Hl Hg [H1 H2]. split; [by eapply HK|by eapply HF]. Qed.

Lemma undisturbed_pure (Q : Prop) : undisturbed (fun _ _ => Q).
Proof. by intros j tr db o db' _ _ _ _. Qed.

Lemma undisturbed_impl (Q : Prop) K : undisturbed K -> undisturbed (fun tr db => Q -> K tr db).
Proof. intros HK j tr db o db' Hj Hv Hl Hg H1 HQ. eapply HK; eauto. Qed.

Lemma undisturbed_ex {X} (K : X -> tassert) :
  (forall x, undisturbed (K x)) -> undisturbed (fun tr db => exists x, K x tr db).
Proof. intros HK j tr db o db' Hj Hv Hl Hg [x Hx]. exists x. by eapply HK. Qed.

Lemma twp_mono {A} K K' (p : prog' A) Post Post' :
  (forall tr db, p_inv P tr db -> K' tr db -> K tr db) ->
  (forall a tr db, p_inv P tr db -> Post a tr db -> Post' a tr db) ->
  twp K p Post -> twp K' p Post'.
Proof.
  intros HK HP. revert K K' HK.
  induction p as [a|R stmt k IH|R e k IH]; intros K K' HK; simpl.
  - intros Hw tr db Hv HK'. apply HP, Hw; auto.
  - intros (H1 & H2). split; intros r.
    + destruct (H1 r) as (K2 & Hs & HL & Hw). exists K2. split_and!; eauto.
    + destruct (H2 r) as (K2 & Hs & HL & Hw). exists K2. split_and!; eauto.
  - intros H1 r. destruct (H1 r) as (K2 & Hs & HL & Hw). exists K2. split_and!; eauto.
Qed.

Lemma twp_pre {A} K K' (p : prog' A) Post :
  (forall tr db, p_inv P tr db -> K' tr db -> K tr db) -> twp K p Post -> twp K' p Post.
Proof. intros HK. apply twp_mono; auto. Qed.

Lemma twp_post {A} K (p : prog' A) Post Post' :
  (forall a tr db, p_inv P tr db -> Post a tr db -> Post' a tr db) ->
  twp K p Post -> twp K p Post'.
Proof. apply twp_mono. auto. Qed.

Lemma twp_ret {A} K (a : A) (Post : A -> tassert) :
  (forall tr db, p_inv P tr db -> K tr db -> Post a tr db) -> twp K (Ret a) Post.
Proof. done. Qed.

Lemma twp_absurd {A} K (p : prog' A) Post : (forall tr db, ~ K tr db) -> twp K p Post.
Proof.
  revert K. induction p as [a|R stmt k IH|R e k IH]; intros K HK; simpl.
  - intros tr db _ Hk. by apply HK in Hk.
  - split; intros r; exists (fun _ _ => False);
      (split_and!; [apply undisturbed_pure|intros tr db _ Hk; by apply HK in Hk|apply IH; intros ? ? []]).
  - intros r. exists (fun _ _ => False).
    split_and!; [apply undisturbed_pure|intros tr db _ Hk; by apply HK in Hk|apply IH; intros ? ? []].
Qed.

Lemma twp_union {A X} (K : X -> tassert) (p : prog' A) Post :
  (forall x, twp (K x) p Post) -> twp (fun tr db => exists x, K x tr db) p Post.
Proof.
  revert X K. induction p as [a|R stmt k IH|R e k IH]; intros X K Hw; simpl in *.
  - intros tr db Hv [x Hx]. by eapply Hw.
  - split; intros r.
    + exists (fun tr db => exists K0 : {K0 | undisturbed K0 /\ twp K0 (k (Ok r)) Post}, `K0 tr db).
      split_and!; [apply undisturbed_ex; intros [K0 [H1 H2]]; exact H1| |apply IH; by intros [K0 []]].
      intros tr db Hv [x Hx] Er Hl. destruct (Hw x) as [H1 _].
      destruct (H1 r) as (K0 & Hs & HL & Hw0). destruct (HL tr db Hv Hx Er Hl). split; [done|].
      by exists (exist _ K0 (conj Hs Hw0)).
    + exists (fun tr db => exists K0 : {K0 | undisturbed K0 /\ twp K0 (k (Err r)) Post}, `K0 tr db).
      split_and!; [apply undisturbed_ex; intros [K0 [H1 H2]]; exact H1| |apply IH; by intros [K0 []]].
      intros tr db Hv [x Hx] Hl. destruct (Hw x) as [_ H1].
      destruct (H1 r) as (K0 & Hs & HL & Hw0). destruct (HL tr db Hv Hx Hl). split; [done|].
      by exists (exist _ K0 (conj Hs Hw0)).
  - intros r.
    exists (fun tr db => exists K0 : {K0 | undisturbed K0 /\ twp K0 (k r) Post}, `K0 tr db).
    split_and!; [apply undisturbed_ex; intros [K0 [H1 H2]]; exact H1| |apply IH; by intros [K0 []]].
    intros tr db Hv [x Hx] Hl. destruct (Hw x r) as (K0 & Hs & HL & Hw0).
    destruct (HL tr db Hv Hx Hl). split; [done|]. by exists (exist _ K0 (conj Hs Hw0)).
Qed.

(** A fact about no state moves to the context. *)
Lemma twp_fact {A} (Q : Prop) K (p : prog' A) Post :
  (Q -> twp K p Post) -> twp (fun tr db => Q /\ K tr db) p Post.
Proof.
  intros Hw. eapply twp_pre; [|apply (twp_union (fun _ : Q => K)); exact Hw].
  intros tr db _ [HQ HK]. by exists HQ.
Qed.

Lemma twp_bind {A B} K (p : prog' A) (f : A -> prog' B) Mid Post :
  twp K p Mid -> (forall a, twp (Mid a) (f a) Post) -> twp K (bind p f) Post.
Proof.
  intros Hp Hf. revert K Hp. induction p as [a|R stmt k IH|R e k IH]; intros K; simpl.
  - intros Hr. eapply twp_pre; [exact Hr|apply Hf].
  - intros (H1 & H2). split; intros r.
    + destruct (H1 r) as (K2 & Hs & HL & Hw). exists K2. auto.
    + destruct (H2 r) as (K2 & Hs & HL & Hw). exists K2. auto.
  - intros H1 r. destruct (H1 r) as (K2 & Hs & HL & Hw). exists K2. auto.
Qed.

Lemma twp_try {A B E} K (p : prog' (result A E)) (f : A -> prog' (result B E)) Mid Post :
  twp K p (fun r tr db => match r with Ok v => Mid v tr db | Err e => Post (Err e) tr db end) ->
  (forall v, twp (Mid v) (f v) Post) -> twp K (try p f) Post.
Proof. intros Hp Hf. eapply twp_bind; [exact Hp|]. intros [v|e]; simpl; auto. Qed.

Lemma twp_sql {R} (stmt : DB -> DB * R) K (Post : result R string -> tassert) :
  (forall r, undisturbed (Post r)) ->
  (forall tr db, p_inv P tr db -> K tr db ->
     p_law P ((i, ObsSql stmt (Ok (stmt db).2)) :: tr) ->
     p_guar P i tr db (ObsSql stmt (Ok (stmt db).2)) (stmt db).1 /\
     Post (Ok (stmt db).2) ((i, ObsSql stmt (Ok (stmt db).2)) :: tr) (stmt db).1) ->
  (forall e tr db, p_inv P tr db -> K tr db -> p_law P ((i, ObsSql stmt (Err e)) :: tr) ->
     p_guar P i tr db (ObsSql stmt (Err e)) db /\
     Post (Err e) ((i, ObsSql stmt (Err e)) :: tr) db) ->
  twp K (sql stmt) Post.
Proof.
  intros HP Hok Herr. simpl. split; intros r.
  - exists (Post (Ok r)). split_and!; [done| |done]. intros tr db Hv HK <- Hl. auto.
  - exists (Post (Err r)). split_and!; [done| |done]. intros tr db Hv HK Hl. auto.
Qed.

Lemma twp_call {R} (e : ext R) K (Post : R -> tassert) :
  (forall r, undisturbed (Post r)) ->
  (forall r tr db, p_inv P tr db -> K tr db -> p_law P ((i, ObsExt e r) :: tr) ->
     p_guar P i tr db (ObsExt e r) db /\ Post r ((i, ObsExt e r) :: tr) db) ->
  twp K (call e) Post.
Proof. intros HP Hc r. exists (Post r). split_and!; [done| |by simpl]. auto. Qed.

(** A loop: [K] of the elements still to come. *)
Lemma twp_for_each {X} (body : X -> prog' unit) (K : list X -> tassert) l :
  (forall x l', twp (K (x :: l')) (body x) (fun _ => K l')) ->
  twp (K l) (for_each l body) (fun _ => K []).
Proof.
  intros Hb. induction l as [|x l IH]; simpl; [auto|].
  eapply (twp_bind _ _ _ (fun _ => K l)); [apply Hb|]. intros []. apply IH.
Qed.

Lemma twp_pstep {A} K (p : prog' A) Post db o p' db' tr :
  twp K p Post -> K tr db -> p_inv P tr db -> pstep p db o p' db' -> p_law P ((i, o) :: tr) ->
  p_guar P i tr db o db' /\
  exists K', undisturbed K' /\ K' ((i, o) :: tr) db' /\ twp K' p' Post.
Proof.
  intros Hw HK Hv Hs Hl. destruct Hs; simpl in Hw.
  - destruct Hw as (H1 & _). destruct (H1 (stmt db).2) as (K' & Hs' & HL & Hw).
    destruct (HL tr db Hv HK eq_refl Hl). eauto.
  - destruct Hw as (_ & H2). destruct (H2 e) as (K' & Hs' & HL & Hw).
    destruct (HL tr db Hv HK Hl). eauto.
  - destruct (Hw r) as (K' & Hs' & HL & Hw'). destruct (HL tr db Hv HK Hl). eauto.
Qed.
End Wp.

(** ** Interleaving *)

Record TSys : Type := mkTSys {
  t_threads : list (Job * prog' unit);
  t_db : DB;
  t_trace : ttrace
}.

Section System.
Context (body : Job -> prog' unit) (allowed : Job -> Prop).

(** A crash ends every task; what runs after the restart are new tasks. *)
Inductive tstep (law : ttrace -> Prop) : TSys -> TSys -> Prop :=
| t_spawn ts db tr job :
    allowed job -> tstep law (mkTSys ts db tr) (mkTSys (ts ++ [(job, body job)]) db tr)
| t_thread ts db tr n job p o p' db' :
    ts !! n = Some (job, p) -> pstep p db o p' db' -> law (((n, job), o) :: tr) ->
    tstep law (mkTSys ts db tr) (mkTSys (<[n := (job, p')]> ts) db' (((n, job), o) :: tr))
| t_crash ts db tr :
    tstep law (mkTSys ts db tr) (mkTSys (map (fun t => (t.1, Ret tt)) ts) db tr).

(** A task that has not done anything yet. *)
Definition unheard (n : nat) (tr : ttrace) : Prop :=
  forall job o, ~ In ((n, job), o) tr.

Context (P : Pact).
Hypothesis inv_kept : forall i tr db o db',
  p_inv P tr db -> p_law P ((i, o) :: tr) -> p_guar P i tr db o db' -> p_inv P ((i, o) :: tr) db'.
Hypothesis jobs_ok : forall n job, allowed job ->
  twp P (n, job) (fun tr _ => unheard n tr) (body job) (fun _ _ _ => True).

Definition tknows (tr : ttrace) (db : DB) (i : Tid) (p : prog' unit) : Prop :=
  exists K, undisturbed P i K /\ K tr db /\ twp P i K p (fun _ _ _ => True).

Record tsys_ok (s : TSys) : Prop := {
  tok_inv : p_inv P (t_trace s) (t_db s);
  tok_known : forall n job p, t_threads s !! n = Some (job, p) ->
    tknows (t_trace s) (t_db s) (n, job) p;
  tok_heard : forall i o, In (i, o) (t_trace s) -> (i.1 < length (t_threads s))%nat
}.

Lemma tsys_step_ok s s' : tsys_ok s -> tstep (p_law P) s s' -> tsys_ok s'.
Proof.
  intros [Hv Hk Hh] Hs. destruct Hs as [ts db tr job Ha|ts db tr n job p o p' db' Hn Hs Hl|ts db tr];
    simpl in *; split; simpl; try done.
  - intros n job' p [Hn|[Hn Hj]]%lookup_app_Some; [by apply Hk|].
    apply list_lookup_singleton_Some in Hj as [Hn0 [= <- <-]].
    exists (fun tr _ => unheard n tr). split_and!; [|intros j o Hin|by apply (jobs_ok n job)].
    + intros j tr' db' o db'' Hj _ _ _ Hu job' o' [E|Hin]; [|by eapply Hu]. by injection E as ->.
    + apply Hh in Hin. simpl in Hin. lia.
  - intros i o Hin. rewrite length_app. apply Hh in Hin. lia.
  - destruct (Hk _ _ _ Hn) as (K & HsK & HK & Hw).
    destruct (twp_pstep _ _ _ _ _ _ _ _ _ _ Hw HK Hv Hs Hl) as [Hg _]. by eapply inv_kept.
  - destruct (Hk _ _ _ Hn) as (K & HsK & HK & Hw).
    destruct (twp_pstep _ _ _ _ _ _ _ _ _ _ Hw HK Hv Hs Hl) as (Hg & K' & HsK' & HK' & Hw').
    intros m job' q Hm. destruct (decide (m = n)) as [->|Hne].
    + rewrite list_lookup_insert_eq in Hm by (by eapply lookup_lt_Some). injection Hm as <- <-.
      by exists K'.
    + rewrite list_lookup_insert_ne in Hm by done. destruct (Hk _ _ _ Hm) as (F & HsF & HF & HwF).
      exists F. split_and!; [done| |done]. by eapply HsF.
  - intros i o' [[= <- <-]|Hin]; rewrite length_insert; [by eapply lookup_lt_Some|by eapply Hh].
  - intros n job p Hn. rewrite list_lookup_fmap in Hn.
    destruct (ts !! n) as [[j q]|] eqn:E; [|done]. injection Hn as <- <-.
    exists (fun _ _ => True). split_and!; [apply undisturbed_pure|done|done].
  - intros i o Hin. rewrite length_map. by eapply Hh.
Qed.

(** Each step is a start, a crash, or an interaction within the guarantee. *)
Lemma tsys_step_guar s s' : tsys_ok s -> tstep (p_law P) s s' ->
  t_trace s' = t_trace s /\ t_db s' = t_db s \/
  exists i o, t_trace s' = (i, o) :: t_trace s /\ p_law P ((i, o) :: t_trace s) /\
    p_guar P i (t_trace s) (t_db s) o (t_db s').
Proof.
  intros [Hv Hk _] Hs. destruct Hs as [ts db tr job Ha|ts db tr n job p o p' db' Hn Hs Hl|ts db tr];
    simpl in *; [by left| |by left].
  right. destruct (Hk _ _ _ Hn) as (K & HsK & HK & Hw).
  destruct (twp_pstep _ _ _ _ _ _ _ _ _ _ Hw HK Hv Hs Hl) as [Hg _]. by eexists _, _.
Qed.

Lemma tsys_safe s s' : tsys_ok s -> rtc (tstep (p_law P)) s s' -> tsys_ok s'.
Proof. intros Hs Hr. induction Hr; [done|]. apply IHHr. by eapply tsys_step_ok. Qed.

Lemma tsys_start db : p_inv P [] db -> tsys_ok (mkTSys [] db []).
Proof. by split. Qed.

(** ** Running a task *)

(** The first [fuel] interactions of a task, answered by [env]. *)
Fixpoint tadvance (env : Env DB ext) (fuel : nat) (i : Tid) (p : prog' unit) (db : DB)
    (tr : ttrace) : prog' unit * DB * ttrace :=
  match fuel, p with
  | S fuel', Sql stmt k =>
      match sql_error env (map snd tr) with
      | Some e => tadvance env fuel' i (k (Err e)) db ((i, ObsSql stmt (Err e)) :: tr)
      | None =>
          let '(db', r) := stmt db in
          tadvance env fuel' i (k (Ok r)) db' ((i, ObsSql stmt (Ok r)) :: tr)
      end
  | S fuel', Ext e k =>
      let r := answer env _ e (map snd tr) in
      tadvance env fuel' i (k r) db ((i, ObsExt e r) :: tr)
  | _, _ => (p, db, tr)
  end.

Hypothesis law_suffix : forall e tr, p_law P (e :: tr) -> p_law P tr.

Lemma tadvance_law env fuel i p db tr : p_law P (tadvance env fuel i p db tr).2 -> p_law P tr.
Proof.
  revert p db tr. induction fuel as [|fuel IH]; intros p db tr; [done|].
  destruct p as [a|R stmt k|R e k]; cbn [tadvance]; [done| |].
  - destruct (sql_error env (map snd tr)); [intros Hl%IH; by apply law_suffix in Hl|].
    destruct (stmt db). intros Hl%IH. by apply law_suffix in Hl.
  - intros Hl%IH. by apply law_suffix in Hl.
Qed.

Lemma tadvance_steps env fuel : forall n job p ts db tr,
  ts !! n = Some (job, p) -> p_law P (tadvance env fuel (n, job) p db tr).2 ->
  let '(p', db', tr') := tadvance env fuel (n, job) p db tr in
  rtc (tstep (p_law P)) (mkTSys ts db tr) (mkTSys (<[n := (job, p')]> ts) db' tr').
Proof.
  induction fuel as [|fuel IH]; intros n job p ts db tr Hn Hl; [cbn; by rewrite list_insert_id|].
  assert (forall q d o, pstep p db o q d ->
    p_law P (tadvance env fuel (n, job) q d (((n, job), o) :: tr)).2 ->
    let '(p', db', tr') := tadvance env fuel (n, job) q d (((n, job), o) :: tr) in
    rtc (tstep (p_law P)) (mkTSys ts db tr) (mkTSys (<[n := (job, p')]> ts) db' tr')) as Hs.
  { intros q d o Hq Hlq. pose proof (tadvance_law _ _ _ _ _ _ Hlq) as Hlo.
    specialize (IH n job q (<[n := (job, q)]> ts) d (((n, job), o) :: tr)).
    rewrite list_lookup_insert_eq in IH by (by eapply lookup_lt_Some).
    specialize (IH eq_refl Hlq). destruct (tadvance _ _ _ _ _ _) as [[p' db'] tr'].
    rewrite list_insert_insert_eq in IH. eapply rtc_l; [by apply (t_thread _ ts db tr n job p o q d)|done]. }
  destruct p as [a|R stmt k|R e k]; cbn [tadvance] in Hl |- *; [by rewrite list_insert_id| |].
  - destruct (sql_error env (map snd tr)) as [e|]; [by apply (Hs _ _ _ (pstep_sql_err _ stmt k db e))|].
    pose proof (pstep_sql _ stmt k db) as Hq. destruct (stmt db) as [d r]. by apply (Hs _ _ _ Hq).
  - by apply (Hs _ _ _ (pstep_ext _ e k db (answer env _ e (map snd tr)))).
Qed.
End System.
End Tasks.

Arguments Tid Job : clear implicits.
Arguments Pact DB ext Job : clear implicits.
Arguments TSys DB ext Job : clear implicits.
