(* ===== verification/PayoutPact.v ===== *)
(** * What the payout tasks agree on

    The evidence about a buyer's payout in the history, the assumptions on LND
    and on time, the steps a task may take on an order's claim, and the
    invariant those steps keep. *)

From S2P Require Import Prelude Float64 Config BondTypes BondMath Effects Model.
From S2P Require Import Lightning BondDb OrderDb BondPayout BondInv OrderPayout Tasks.

Open Scope Z_scope.

(** ** Jobs *)

(** A call of [do_payment] with the task it spawns, the reconciler, or any
    other task of the daemon. *)
Inductive PayoutJob : Type :=
| PayOrder (beats : nat) (order : Order) (request_id : option Z)
| ReconcilePayouts (tries ticks : nat)
| OtherTask (p : M unit).

Abbreviation tid := (Tid PayoutJob).
Abbreviation history := (list (tid * obs DB ext)).

(** The first row with this key. *)
Definition row (o : Uuid) (db : DB) : option Order :=
  select_one (fun r => N.eqb (o_id r) o) (orders db).

Definition keys_ok (db : DB) : Prop := NoDup (map o_id (orders db)).

Definition works_for (o : Uuid) (i : tid) : bool :=
  match i.2 with PayOrder _ order _ => N.eqb (o_id order) o | _ => false end.

(** What the laws of the libraries have to give: a payment hash is 32 bytes,
    and the two statuses are spelled as the SQL text has them. *)
Definition wf_hash (h : list Z) : Prop := Forall is_byte h /\ length h = HASH_LEN.

Class PayoutLaws `{Lib} : Prop := {
  invoice_hash_wf : forall pr inv, bolt11_from_str pr = Some inv -> wf_hash (payment_hash inv);
  settled_spelling : status_to_string SettledHoldInvoice = SETTLED
}.

Section Pact.
Context `{Lib} `{PayoutLib} (settings : Settings).

Abbreviation grace := (grace_secs settings).

Definition body (job : PayoutJob) : M unit :=
  match job with
  | PayOrder beats order request_id => pay_order settings beats order request_id
  | ReconcilePayouts tries ticks => job_reconcile_inflight_payouts settings tries ticks
  | OtherTask p => p
  end.

(** ** Evidence *)

(** LND reported that nothing is or will be in flight for [h]. *)
Definition obs_gone (h : list Z) : obs DB ext -> bool :=
  on_ext (fun R (e : ext R) =>
    match e in ext R' return R' -> bool with
    | LndTrackPayment h' => fun r =>
        bool_decide (h' = h) &&
        match track_result r with
        | Ok (Some PFailed) | Ok (Some PUnknown) | Ok None => true
        | _ => false
        end
    | LndSendPaymentV2 pr _ _ _ => fun r =>
        pays pr h &&
        match r with
        | Ok s => match drain (ps_updates s) with StreamFailed _ => true | _ => false end
        | Err _ => false
        end
    | _ => fun _ => false
    end).

Definition paid_in (h : list Z) (tr : history) : bool := existsb (fun e => obs_paid h e.2) tr.

(** A payment of [h] was handed to LND on behalf of order [o], and LND has not
    said since that it is gone. *)
Fixpoint outstanding (o : Uuid) (h : list Z) (tr : history) : bool :=
  match tr with
  | [] => false
  | (i, ob) :: tr' =>
      if obs_gone h ob then false
      else if obs_sent h ob && works_for o i then true
      else outstanding o h tr'
  end.

(** LND reported the payment of [h] as succeeded while it was outstanding for
    order [o]: the buyer of [o] was paid by it. *)
Fixpoint paid_for (o : Uuid) (h : list Z) (tr : history) : bool :=
  match tr with
  | [] => false
  | (i, ob) :: tr' => (obs_paid h ob && outstanding o h tr) || paid_for o h tr'
  end.

Definition obs_now (ob : obs DB ext) : option Z :=
  match ob with
  | ObsExt e r => (match e in ext R return R -> option Z with
                   | Now => fun now => Some now
                   | _ => fun _ => None
                   end) r
  | ObsSql _ _ => None
  end.

(** No clock reading so far has reached [b]. *)
Definition clock_below (b : Z) (tr : history) : bool :=
  forallb (fun e => match obs_now e.2 with Some now => now <? b | None => true end) tr.

(** The last clock reading of a task. *)
Fixpoint last_read (n : nat) (tr : history) : option Z :=
  match tr with
  | [] => None
  | (i, ob) :: tr' =>
      if Nat.eqb i.1 n then
        match obs_now ob with Some now => Some now | None => last_read n tr' end
      else last_read n tr'
  end.

(** A successful claim or refresh of the payout of [o] for the hash text [s],
    at time [t]. *)
Definition stamps (ob : obs DB ext) (o : Uuid) (s : string) (t : Z) : Prop :=
  exists n, 0 < n /\
    (ob = ObsSql (claim_payout_stmt o s t) (Ok n) \/
     exists t0, ob = ObsSql (touch_payout_stmt o s t0 t) (Ok n)).

Definition own (tr : history) (i : tid) (o : Uuid) (s : string) (t : Z) : Prop :=
  exists ob, In (i, ob) tr /\ stamps ob o s t.

(** An invoice claimed for [o] has been paid. *)
Definition completed (o : Uuid) (tr : history) : Prop :=
  exists h i t, own tr i o (bytes_to_string h) t /\ paid_in h tr = true.

(** ** Assumptions *)

(** At most one final status in a payment stream. *)
Definition final_status (u : PaymentUpdate) : bool :=
  match pu_status u with Some PSucceeded | Some PFailed => true | _ => false end.
Definition one_verdict (s : PaymentStream) : bool :=
  Nat.leb (length (List.filter final_status (ps_updates s))) 1.

Definition stream_ok (ob : obs DB ext) : bool :=
  on_ext (fun R (e : ext R) =>
    match e in ext R' return R' -> bool with
    | LndSendPaymentV2 _ _ _ _ => fun r =>
        match r with Ok s => one_verdict s | Err _ => true end
    | _ => fun _ => true
    end) ob || negb (is_send ob).

(** One more interaction of task [i]:
    - LND does not report a payment as gone once it reported it as paid, and
      a payment stream carries one final status;
    - a claim or refresh commits, and a payment is handed to LND, before the
      clock is [grace] past the task's reading of it: the window the
      reconciler grants;
    - no two tasks stamp one order with the same second. *)
Record pact_step (i : tid) (ob : obs DB ext) (tr : history) : Prop := {
  pl_gone : forall h, obs_gone h ob = true -> paid_in h tr = false;
  pl_stream : stream_ok ob = true;
  pl_stamp : forall o s t, stamps ob o s t -> last_read i.1 tr = Some t ->
    clock_below (t + grace) tr = true;
  pl_send : forall t, is_send ob = true -> last_read i.1 tr = Some t ->
    clock_below (t + grace) tr = true;
  pl_unique : forall j o s s' t, stamps ob o s t -> own tr j o s' t -> j.1 = i.1
}.

Fixpoint pact_law (tr : history) : Prop :=
  match tr with
  | [] => True
  | (i, ob) :: tr' => pact_step i ob tr' /\ pact_law tr'
  end.

(** ** Steps on a claim *)

Definition is_success (r : Order) : Prop := o_status r = status_to_string Success.

Definition same_claim (r r' : Order) : Prop :=
  o_payout_payment_hash r' = o_payout_payment_hash r /\
  o_payout_claimed_at r' = o_payout_claimed_at r.

(** What task [i] may do to a row: nothing that matters here; move an order
    that is neither settled nor completed; complete it once it is paid; take a
    free claim; refresh its own claim; give up a claim that is its own or that
    outlived the grace window, when LND says that nothing is in flight for it
    or the order is completed. *)
Inductive row_step (i : tid) (tr : history) (ob : obs DB ext) (r r' : Order) : Prop :=
| rs_keep : same_claim r r' -> o_status r' = o_status r -> row_step i tr ob r r'
| rs_other : same_claim r r' -> is_settled r = false -> ~ is_success r -> ~ is_success r' ->
    row_step i tr ob r r'
| rs_success : same_claim r r' -> is_settled r = true -> is_success r' ->
    completed (o_id r) tr -> row_step i tr ob r r'
| rs_claim h t : o_payout_payment_hash r = None -> is_settled r = true ->
    o_status r' = o_status r -> wf_hash h ->
    o_payout_payment_hash r' = Some (bytes_to_string h) -> o_payout_claimed_at r' = Some t ->
    stamps ob (o_id r) (bytes_to_string h) t -> last_read i.1 tr = Some t ->
    row_step i tr ob r r'
| rs_touch s t0 t : o_payout_payment_hash r = Some s -> o_payout_claimed_at r = Some t0 ->
    is_settled r = true -> o_status r' = o_status r ->
    o_payout_payment_hash r' = Some s -> o_payout_claimed_at r' = Some t ->
    own tr i (o_id r) s t0 -> stamps ob (o_id r) s t -> last_read i.1 tr = Some t ->
    row_step i tr ob r r'
| rs_drop h t : o_payout_payment_hash r = Some (bytes_to_string h) ->
    o_payout_claimed_at r = Some t -> wf_hash h -> o_status r' = o_status r ->
    o_payout_payment_hash r' = None -> o_payout_claimed_at r' = None ->
    own tr i (o_id r) (bytes_to_string h) t \/ clock_below (t + grace) tr = false ->
    outstanding (o_id r) h tr = false \/ is_success r -> row_step i tr ob r r'.

Definition rows_step (i : tid) (tr : history) (ob : obs DB ext) (r r' : option Order) : Prop :=
  match r, r' with
  | Some r, Some r' => o_id r' = o_id r /\ row_step i tr ob r r'
  | None, Some r' => o_payout_payment_hash r' = None /\ ~ is_success r'
  | None, None => True
  | Some _, None => False
  end.

(** A payment is sent by the holder of a claim that is younger than the grace
    window, for the hash of that claim. *)
Definition send_ok (i : tid) (tr : history) (db : DB) (ob : obs DB ext) : Prop :=
  forall h o, obs_sent h ob = true -> works_for o i = true ->
    wf_hash h /\ exists r t,
      row o db = Some r /\ o_payout_payment_hash r = Some (bytes_to_string h) /\
      o_payout_claimed_at r = Some t /\ own tr i o (bytes_to_string h) t /\
      clock_below (t + grace) tr = true.

Definition G_payout (i : tid) (tr : history) (db : DB) (ob : obs DB ext) (db' : DB) : Prop :=
  keys_ok db' /\ (forall o, rows_step i tr ob (row o db) (row o db')) /\ send_ok i tr db ob /\
  (is_send ob = true -> db' = db).

(** ** The invariant *)

Record payout_ok (tr : history) (db : DB) : Prop := {
  po_keys : keys_ok db;
  po_law : pact_law tr;
  po_marks : forall o r s, row o db = Some r -> o_payout_payment_hash r = Some s ->
    (is_settled r = true \/ is_success r) /\
    exists h i t, wf_hash h /\ s = bytes_to_string h /\ o_payout_claimed_at r = Some t /\
      own tr i o s t;
  po_live : forall o h, outstanding o h tr = true ->
    wf_hash h /\ exists r, row o db = Some r /\
      (o_payout_payment_hash r = Some (bytes_to_string h) \/
       o_payout_payment_hash r = None /\ is_success r);
  po_one : forall o h1 h2, outstanding o h1 tr = true -> outstanding o h2 tr = true -> h1 = h2;
  po_done : forall o r, row o db = Some r -> is_success r -> completed o tr
}.

Definition payout_pact : Pact DB ext PayoutJob := mkPact pact_law payout_ok G_payout.

(** Tasks outside the payout leave claims alone, and do not move an order that
    is settled or completed. *)
Definition spares_payouts (db db' : DB) : Prop :=
  keys_ok db' /\ forall o,
    match row o db, row o db' with
    | Some r, Some r' => o_id r' = o_id r /\ same_claim r r' /\
        (o_status r' = o_status r \/
         is_settled r = false /\ ~ is_success r /\ ~ is_success r')
    | None, Some r' => o_payout_payment_hash r' = None /\ ~ is_success r'
    | None, None => True
    | Some _, None => False
    end.

Fixpoint bystander (p : M unit) : Prop :=
  match p with
  | Ret _ => True
  | Sql stmt k => (forall db, keys_ok db -> spares_payouts db (stmt db).1) /\
                  forall r, bystander (k r)
  | Ext e k => forall r, bystander (k r)
  end.

Definition allowed (job : PayoutJob) : Prop :=
  match job with OtherTask p => bystander p | _ => True end.

(** A database no payout was ever started in. *)
Definition no_payouts (db : DB) : Prop :=
  keys_ok db /\ forall r, In r (orders db) -> o_payout_payment_hash r = None /\ ~ is_success r.

(** What the daemon can reach from such a database, in any interleaving of any
    number of calls of [do_payment], reconcilers and bystanders, with crashes. *)
Definition payout_reach (db : DB) : TSys DB ext PayoutJob -> Prop :=
  rtc (tstep body allowed pact_law) (mkTSys [] db []).

(** ** The steps keep the invariant *)

Context {HL : LibLaws} {HX : HexLaws} {HP : PayoutLaws}.

Lemma hex_inj h h' :
  wf_hash h -> wf_hash h' -> bytes_to_string h = bytes_to_string h' -> h = h'.
Proof.
  intros [Hh _] [Hh' _] E. pose proof (from_hex_bytes h Hh) as E1.
  rewrite E, (from_hex_bytes h' Hh') in E1. by injection E1.
Qed.

Lemma success_not_settled r : is_success r -> is_settled r = false.
Proof.
  unfold is_success, is_settled. intros ->. apply not_true_iff_false. rewrite str_eqb_eq.
  rewrite <- settled_spelling. intros E. apply (f_equal status_from_str) in E.
  by rewrite !status_from_to in E.
Qed.

Lemma own_cons e tr i o s t : own tr i o s t -> own (e :: tr) i o s t.
Proof. intros (ob & Hin & Hs). exists ob. split; [by right|done]. Qed.

Lemma own_head i ob tr o s t : stamps ob o s t -> own ((i, ob) :: tr) i o s t.
Proof. intros Hs. exists ob. split; [by left|done]. Qed.

Lemma paid_in_cons e h tr : paid_in h tr = true -> paid_in h (e :: tr) = true.
Proof. unfold paid_in. simpl. intros ->. apply orb_true_r. Qed.

Lemma completed_cons e o tr : completed o tr -> completed o (e :: tr).
Proof.
  intros (h & i & t & Ho & Hp). exists h, i, t.
  split; [by apply own_cons|by apply paid_in_cons].
Qed.

Lemma clock_below_cons b e tr :
  clock_below b (e :: tr) = true -> clock_below b tr = true.
Proof. unfold clock_below. simpl. by intros [_ ?]%andb_true_iff. Qed.

Lemma stale_cons b e tr :
  clock_below b tr = false -> clock_below b (e :: tr) = false.
Proof. unfold clock_below. simpl. intros ->. apply andb_false_r. Qed.

Lemma outstanding_cons i ob tr o h :
  outstanding o h ((i, ob) :: tr) = true ->
  obs_gone h ob = false /\
  (outstanding o h tr = true \/ obs_sent h ob = true /\ works_for o i = true).
Proof.
  simpl. destruct (obs_gone h ob); [done|]. intros Ho. split; [done|].
  destruct (obs_sent h ob && works_for o i) eqn:E; [|by left].
  right. by apply andb_true_iff in E.
Qed.

Lemma paid_outstanding o h tr : pact_law tr -> paid_for o h tr = true ->
  outstanding o h tr = true /\ paid_in h tr = true.
Proof.
  induction tr as [|[i ob] tr IH]; [done|]. intros [Hs Hl] Hp.
  change (paid_for o h ((i, ob) :: tr))
    with (obs_paid h ob && outstanding o h ((i, ob) :: tr) || paid_for o h tr) in Hp.
  apply orb_true_iff in Hp as [[Hp Ho]%andb_true_iff|Hp].
  - split; [done|]. unfold paid_in. simpl. by rewrite Hp.
  - destruct (IH Hl Hp) as [Ho Hpd]. split; [|by apply paid_in_cons]. simpl.
    destruct (obs_gone h ob) eqn:Eg; [|by case_match].
    apply (pl_gone _ _ _ Hs) in Eg. congruence.
Qed.

Lemma row_step_row i tr ob o db db' r' :
  rows_step i tr ob (row o db) (row o db') -> row o db' = Some r' ->
  (exists r, row o db = Some r /\ o_id r' = o_id r /\ row_step i tr ob r r') \/
  row o db = None /\ o_payout_payment_hash r' = None /\ ~ is_success r'.
Proof.
  unfold rows_step. intros Hs E. rewrite E in Hs. destruct (row o db) as [r|]; [|by right].
  left. by exists r.
Qed.

Lemma row_key o db r : row o db = Some r -> o_id r = o /\ In r (orders db).
Proof. intros [Hin E%N.eqb_eq]%select_one_spec. done. Qed.

Lemma step_marks i tr ob db db' :
  payout_ok tr db -> G_payout i tr db ob db' ->
  forall o r s, row o db' = Some r -> o_payout_payment_hash r = Some s ->
    (is_settled r = true \/ is_success r) /\
    exists h j t, wf_hash h /\ s = bytes_to_string h /\ o_payout_claimed_at r = Some t /\
      own ((i, ob) :: tr) j o s t.
Proof.
  intros Hv (_ & Hr & _) o r' s Er Es.
  destruct (row_step_row _ _ _ _ _ _ _ (Hr o) Er) as [(r & E & Hi & Hs)|(_ & En & _)]; [|congruence].
  destruct (row_key _ _ _ E) as [Hk _].
  assert (Hkeep : same_claim r r' -> (is_settled r = true \/ is_success r) /\
    exists h j t, wf_hash h /\ s = bytes_to_string h /\
      o_payout_claimed_at r' = Some t /\ own ((i, ob) :: tr) j o s t).
  { intros [E1 E2]. destruct (po_marks _ _ Hv o r s E) as (Hst & h & j & t & ? & ? & ? & ?); [congruence|].
    split; [done|]. exists h, j, t. split_and!; [done|done|congruence|by apply own_cons]. }
  assert (Hsame : o_status r' = o_status r -> is_settled r = true -> is_settled r' = true)
    by (unfold is_settled; congruence).
  destruct Hs as [Hc Hst|Hc H1 H2 _|Hc _ Hsu _|h t _ Hs Hst Hh E1 E2 Hsp _
    |u t0 t E1 E2 Hs Hst E3 E4 _ Hsp _|]; [| | | | |congruence].
  - destruct (Hkeep Hc) as [Hx Hm]. split; [|done].
    unfold is_settled, is_success in *. by rewrite Hst.
  - destruct (Hkeep Hc) as [[Hx|Hx] _]; [congruence|done].
  - destruct (Hkeep Hc) as [_ Hm]. split; [by right|done].
  - split; [left; by apply Hsame|]. rewrite Hk in Hsp. exists h, i, t.
    rewrite Es in E1. injection E1 as ->. split_and!; [done..|by apply own_head].
  - split; [left; by apply Hsame|]. rewrite Hk in Hsp. rewrite Es in E3. injection E3 as ->.
    destruct (po_marks _ _ Hv o r _ E E1) as (_ & h & j & t' & Hh & -> & _ & _).
    exists h, i, t. split_and!; [done..|by apply own_head].
Qed.

Lemma step_live i tr ob db db' :
  payout_ok tr db -> pact_step i ob tr -> G_payout i tr db ob db' ->
  forall o h, outstanding o h ((i, ob) :: tr) = true ->
    wf_hash h /\ exists r, row o db' = Some r /\
      (o_payout_payment_hash r = Some (bytes_to_string h) \/
       o_payout_payment_hash r = None /\ is_success r).
Proof.
  intros Hv Hl (_ & Hr & Hsend & Hsame) o h Ho.
  apply outstanding_cons in Ho as [Hg [Ho|[Hs Hw]]].
  - destruct (po_live _ _ Hv o h Ho) as (Hh & r & Er & Hc). split; [done|].
    specialize (Hr o). rewrite Er in Hr. unfold rows_step in Hr.
    destruct (row o db') as [r'|]; [|done]. destruct Hr as [Hi Hst]. exists r'. split; [done|].
    destruct (row_key _ _ _ Er) as [Hk _].
    destruct Hst as [[E1 _] E2|[E1 _] _ Hns|[E1 _] Hs _|h' t E1 Hs|u t0 t E1 _ _ _ E2
      |h' t E1 _ Hh' Est En _ _ Hj].
    + destruct Hc as [Hc|[Hc Hsu]]; [left; congruence|right]. split; [congruence|].
      unfold is_success in *. congruence.
    + destruct Hc as [Hc|[Hc Hsu]]; [left; congruence|done].
    + destruct Hc as [Hc|[Hc Hsu]]; [left; congruence|].
      apply success_not_settled in Hsu. congruence.
    + destruct Hc as [Hc|[Hc Hsu]]; [congruence|]. apply success_not_settled in Hsu. congruence.
    + destruct Hc as [Hc|[Hc _]]; [left; congruence|congruence].
    + destruct Hc as [Hc|[Hc _]]; [|congruence].
      rewrite Hc in E1. injection E1 as E1. apply hex_inj in E1; [|done|done]. subst h'.
      rewrite Hk in Hj. destruct Hj as [Hj|Hj]; [congruence|].
      right. split; [done|]. unfold is_success in *. congruence.
  - destruct (Hsend h o Hs Hw) as (Hh & r & t & Er & E1 & _). split; [done|].
    exists r. rewrite Hsame by (by eapply obs_sent_is_send). split; [done|by left].
Qed.

Lemma step_one i tr ob db db' :
  payout_ok tr db -> G_payout i tr db ob db' ->
  forall o h1 h2, outstanding o h1 ((i, ob) :: tr) = true ->
    outstanding o h2 ((i, ob) :: tr) = true -> h1 = h2.
Proof.
  intros Hv (_ & _ & Hsend & _) o h1 h2 H1 H2.
  assert (Hx : forall h h', outstanding o h tr = true -> obs_sent h' ob = true ->
    works_for o i = true -> h = h').
  { intros h h' Ho Hs Hw. destruct (Hsend h' o Hs Hw) as (Hh' & r & t & Er & E1 & _).
    destruct (po_live _ _ Hv o h Ho) as (Hh & r0 & Er0 & Hc). rewrite Er in Er0.
    injection Er0 as <-. destruct Hc as [Hc|[Hc _]]; [|congruence].
    apply hex_inj; [done|done|congruence]. }
  apply outstanding_cons in H1 as [_ [H1|[S1 W1]]], H2 as [_ [H2|[S2 W2]]].
  - by apply (po_one _ _ Hv o).
  - by apply Hx.
  - symmetry. by apply Hx.
  - destruct (Hsend h1 o S1 W1) as (Hh1 & r & t & Er & E1 & _).
    destruct (Hsend h2 o S2 W2) as (Hh2 & r0 & t0 & Er0 & E2 & _).
    apply hex_inj; [done|done|congruence].
Qed.

Lemma payout_kept i tr db ob db' :
  payout_ok tr db -> pact_law ((i, ob) :: tr) -> G_payout i tr db ob db' ->
  payout_ok ((i, ob) :: tr) db'.
Proof.
  intros Hv Hl Hg. destruct Hl as [Hs Hl]. split.
  - apply Hg.
  - done.
  - by eapply step_marks.
  - by eapply step_live.
  - by eapply step_one.
  - intros o r' Er Hsu. destruct Hg as (_ & Hr & _).
    destruct (row_step_row _ _ _ _ _ _ _ (Hr o) Er) as [(r & E & Hi & Hst)|(_ & _ & Hn)]; [|done].
    destruct (row_key _ _ _ E) as [Hk _].
    assert (Hkeep : o_status r' = o_status r -> completed o ((i, ob) :: tr)).
    { intros Est. apply completed_cons, (po_done _ _ Hv o r E). unfold is_success in *. congruence. }
    destruct Hst as [| | ? ? ? Hc| | |]; auto; [done|]. apply completed_cons. congruence.
Qed.

Lemma payout_init db : no_payouts db -> payout_ok [] db.
Proof.
  intros [Hk Hn]. split; try done.
  - intros o r s [_ Hin]%row_key Es. destruct (Hn r Hin) as [E _]. congruence.
  - intros o r [_ Hin]%row_key Hs. by destruct (Hn r Hin) as [_ E].
Qed.
End Pact.
