(* ===== verification/PayoutTasks.v ===== *)
(** * The payout tasks keep their agreement

    What a payout task knows between its interactions, why the other tasks
    cannot invalidate it, and a specification of each function of
    [OrderPayout]: the dispatch, the reconciler and the bystanders. *)

From S2P Require Import Prelude Float64 Config BondTypes BondMath Effects Model.
From S2P Require Import Lightning BondDb OrderDb BondPayout BondInv OrderPayout Tasks PayoutPact.

Open Scope Z_scope.

(** Case analysis on the condition a program tests next. *)
Ltac twp_case :=
  cbv zeta;
  match goal with |- twp _ _ _ (if ?b then _ else _) _ => destruct b eqn:? end.

(** ** Rows after a statement *)

Lemma row_in db r : keys_ok db -> In r (orders db) -> row (o_id r) db = Some r.
Proof.
  unfold keys_ok, row, select_one. induction (orders db) as [|x l IH]; [done|].
  simpl. intros [Hx Hl]%NoDup_cons [->|Hin]; [by rewrite N.eqb_refl|].
  destruct (N.eqb_spec (o_id x) (o_id r)) as [E|]; [|by apply IH].
  exfalso. apply Hx. rewrite E. apply list_elem_of_In, in_map, Hin.
Qed.

Lemma row_update p f o db :
  (forall r, p r = true -> o_id (f r) = o_id r) ->
  row o (update_orders p f db).1 = (fun r => if p r then f r else r) <$> row o db.
Proof.
  intros Hf. unfold row, select_one, update_orders, update_where. simpl.
  induction (orders db) as [|x l IH]; [done|]. simpl.
  assert (o_id (if p x then f x else x) = o_id x) as -> by (destruct (p x) eqn:?; auto).
  by destruct (N.eqb (o_id x) o).
Qed.

Lemma keys_update p f db :
  (forall r, p r = true -> o_id (f r) = o_id r) -> keys_ok db -> keys_ok (update_orders p f db).1.
Proof.
  unfold keys_ok, update_orders, update_where. intros Hf. simpl. rewrite map_map.
  replace (map (fun r => o_id (if p r then f r else r)) (orders db)) with (map o_id (orders db)); [done|].
  apply map_ext. intros r. destruct (p r) eqn:?; [symmetry; auto|done].
Qed.

(** [rows_affected > 0] of a statement on one order. *)
Lemma affected_row p f o db :
  keys_ok db -> (forall r, p r = true -> o_id r = o) -> 0 < (update_orders p f db).2 ->
  exists r, row o db = Some r /\ p r = true.
Proof.
  intros Hk Hp. unfold update_orders, count_where. simpl. intros Hn.
  destruct (List.filter p (orders db)) as [|r l] eqn:E; [simpl in Hn; lia|].
  assert (In r (List.filter p (orders db))) as [Hin Hr]%filter_In by (rewrite E; by left).
  exists r. split; [|done]. rewrite <- (Hp r Hr). by apply row_in.
Qed.

Lemma unaffected_row p f o db r :
  ~ 0 < (update_orders p f db).2 -> row o db = Some r -> p r = false.
Proof.
  unfold update_orders, count_where. simpl. intros Hn [_ Hin]%row_key.
  destruct (p r) eqn:Ep; [|done]. exfalso. apply Hn.
  assert (In r (List.filter p (orders db))) as Hr by by apply filter_In.
  destruct (List.filter p (orders db)); [done|]. simpl. lia.
Qed.

(** Rows whose claim and status did not change. *)
Definition same_rows (db db' : DB) : Prop := keys_ok db' /\ forall o,
  match row o db, row o db' with
  | Some r, Some r' => o_id r' = o_id r /\ same_claim r r' /\ o_status r' = o_status r
  | None, None => True
  | _, _ => False
  end.

Lemma same_rows_refl db : keys_ok db -> same_rows db db.
Proof. intros Hk. split; [done|]. intros o. by destruct (row o db). Qed.

Lemma same_rows_update p f db :
  keys_ok db -> (forall r, o_id (f r) = o_id r /\ same_claim r (f r) /\ o_status (f r) = o_status r) ->
  same_rows db (update_orders p f db).1.
Proof.
  intros Hk Hf. split; [apply keys_update; [intros r _; apply Hf|done]|]. intros o.
  rewrite row_update by (intros r _; apply Hf). destruct (row o db) as [r|]; [|done]. simpl.
  by destruct (p r).
Qed.

Section Steps.
Context `{Lib} `{PayoutLib} (settings : Settings).
Context {HL : LibLaws} {HX : HexLaws} {HP : PayoutLaws}.

Abbreviation grace := (grace_secs settings).
Abbreviation P := (payout_pact settings).

Lemma guar_rows i tr db ob db' :
  payout_ok settings tr db -> is_send ob = false -> same_rows db db' ->
  G_payout settings i tr db ob db'.
Proof.
  intros Hv Hs [Hk Hr]. split_and!; [done| | |congruence].
  - intros o. specialize (Hr o). unfold rows_step. destruct (row o db), (row o db'); try done.
    destruct Hr as (Hi & Hc & Hst). split; [done|]. by apply rs_keep.
  - intros h o Ho. apply obs_sent_is_send in Ho. congruence.
Qed.

Lemma guar_same i tr db ob :
  payout_ok settings tr db -> is_send ob = false -> G_payout settings i tr db ob db.
Proof. intros Hv Hs. apply guar_rows; [done..|]. apply same_rows_refl, Hv. Qed.

(** A statement that changes one order. *)
Lemma guar_update i tr db {R} (stmt : DB -> DB * R) p f r0 :
  payout_ok settings tr db -> (forall r, o_id (f r) = o_id r) ->
  (forall o r, row o db = Some r -> p r = true ->
     row_step settings i tr (ObsSql stmt r0) r (f r)) ->
  G_payout settings i tr db (ObsSql stmt r0) (update_orders p f db).1.
Proof.
  intros Hv Hf Hs. split_and!; [apply keys_update; [done|apply Hv]| |by intros h o|done].
  intros o. rewrite row_update by done. destruct (row o db) as [r|] eqn:E; [|done]. simpl.
  destruct (p r) eqn:Ep; [split; [done|by eapply Hs]|]. split; [done|]. by apply rs_keep.
Qed.

Lemma row_evolves j tr db ob db' o r :
  G_payout settings j tr db ob db' -> row o db = Some r ->
  exists r', row o db' = Some r' /\ o_id r' = o_id r /\ row_step settings j tr ob r r'.
Proof.
  intros (_ & Hr & _) E. specialize (Hr o). rewrite E in Hr. unfold rows_step in Hr.
  destruct (row o db') as [r'|]; [|done]. by exists r'.
Qed.

Lemma row_status i tr ob r r' :
  row_step settings i tr ob r r' ->
  o_status r' = o_status r \/ is_success r' \/ is_settled r = false /\ ~ is_success r.
Proof. intros []; auto. Qed.

(** ** What a task knows *)

Definition alive (o : Uuid) (db : DB) : Prop :=
  exists r, row o db = Some r /\ (is_settled r = true \/ is_success r).

Definition done_with (o : Uuid) (db : DB) : Prop :=
  exists r, row o db = Some r /\ is_success r.

Definition holds (o : Uuid) (s : string) (t : Z) (db : DB) : Prop :=
  exists r, row o db = Some r /\ o_payout_payment_hash r = Some s /\
    o_payout_claimed_at r = Some t.

(** The claim [t] is the task's own, or outlived the grace window. *)
Definition anchored (i : tid) (o : Uuid) (s : string) (t : Z) (tr : history) : Prop :=
  own tr i o s t \/ clock_below (t + grace) tr = false.

(** While the claim [t] on [h] stands, no payment of it is outstanding. *)
Definition unsent (o : Uuid) (h : list Z) (t : Z) (tr : history) (db : DB) : Prop :=
  holds o (bytes_to_string h) t db -> outstanding o h tr = false.

Lemma alive_step j tr db ob db' o :
  G_payout settings j tr db ob db' -> alive o db -> alive o db'.
Proof.
  intros Hg (r & E & Hr). destruct (row_evolves _ _ _ _ _ _ _ Hg E) as (r' & E' & _ & Hs).
  exists r'. split; [done|]. unfold is_settled, is_success in *.
  destruct (row_status _ _ _ _ _ Hs) as [->|[?|[? ?]]]; [done|by right|].
  destruct Hr; [unfold is_settled in *; congruence|done].
Qed.

Lemma done_step j tr db ob db' o :
  G_payout settings j tr db ob db' -> done_with o db -> done_with o db'.
Proof.
  intros Hg (r & E & Hr). destruct (row_evolves _ _ _ _ _ _ _ Hg E) as (r' & E' & _ & Hs).
  exists r'. split; [done|]. unfold is_success in *.
  destruct (row_status _ _ _ _ _ Hs) as [->|[?|[? ?]]]; done.
Qed.

(** Only its holder, or the reconciler after the grace window, takes a claim
    away. *)
Lemma holds_step j tr db ob db' o s t :
  pact_law settings ((j, ob) :: tr) -> G_payout settings j tr db ob db' -> holds o s t db ->
  (exists s', own tr j o s' t) \/ clock_below (t + grace) tr = false \/ holds o s t db'.
Proof.
  intros Hl Hg (r & E & E1 & E2). destruct (row_evolves _ _ _ _ _ _ _ Hg E) as (r' & E' & _ & Hs).
  destruct (row_key _ _ _ E) as [Hk _].
  destruct Hs as [[]|[]|[]| |u t0 t' ? Et _ _ _ _ Ho|h t' ? Et ? ? ? ? Ho];
    try (right; right; exists r'; split_and!; [done|congruence..]);
    rewrite E2 in Et; injection Et as ->; rewrite Hk in Ho; [by left; eexists|].
  destruct Ho as [Ho|Ho]; [by left; eexists|by right; left].
Qed.

(** ... and no other task writes a claim with its stamp. *)
Lemma holds_back i j tr db ob db' o s t :
  j.1 <> i.1 -> pact_law settings ((j, ob) :: tr) -> G_payout settings j tr db ob db' ->
  anchored i o s t tr -> holds o s t db' -> holds o s t db.
Proof.
  intros Hj [Hl _] (_ & Hr & _) Ha (r' & E' & E1 & E2).
  destruct (row_step_row settings _ _ _ _ _ _ _ (Hr o) E') as [(r & E & _ & Hs)|(_ & En & _)];
    [|congruence].
  destruct (row_key _ _ _ E) as [Hk _].
  assert (Hno : forall u, stamps ob (o_id r) u t -> last_read j.1 tr = Some t -> False).
  { intros u Hst Hrd. destruct Ha as [Ho|Hc].
    - rewrite Hk in Hst. apply Hj. symmetry. by apply (pl_unique _ _ _ _ Hl i o u s t Hst Ho).
    - apply (pl_stamp _ _ _ _ Hl) in Hst; [congruence|done]. }
  destruct Hs as [[]|[]|[]|h t' ? ? ? ? ? Et Hst|u t0 t' ? ? ? ? ? Et ? Hst|];
    try (exists r; split_and!; [done|congruence..]).
  - rewrite E2 in Et. injection Et as <-. by destruct (Hno _ Hst).
  - rewrite E2 in Et. injection Et as <-. by destruct (Hno _ Hst).
Qed.

Lemma anchored_cons i o s t e tr : anchored i o s t tr -> anchored i o s t (e :: tr).
Proof. intros [Ho|Hc]; [left; by apply own_cons|right; by apply stale_cons]. Qed.

Lemma own_unique i j o s s' t tr :
  pact_law settings tr -> own tr i o s t -> own tr j o s' t -> i.1 = j.1.
Proof.
  induction tr as [|[k ob] tr IH]; [by intros _ (? & [] & _)|].
  intros [Hp Hl] (b1 & [E1|H1] & S1) (b2 & [E2|H2] & S2).
  - congruence.
  - injection E1 as <- <-. symmetry. eapply (pl_unique _ _ _ _ Hp); [exact S1|by exists b2].
  - injection E2 as <- <-. eapply (pl_unique _ _ _ _ Hp); [exact S2|by exists b1].
  - apply IH; [done|by exists b1|by exists b2].
Qed.

(** Nobody else sends for a claim that is anchored here. *)
Lemma unsent_step i j tr db ob db' o h t :
  j.1 <> i.1 -> pact_law settings ((j, ob) :: tr) -> G_payout settings j tr db ob db' ->
  anchored i o (bytes_to_string h) t tr -> unsent o h t tr db ->
  unsent o h t ((j, ob) :: tr) db'.
Proof.
  intros Hj Hl Hg Ha Hu Hh'. pose proof (holds_back _ _ _ _ _ _ _ _ _ Hj Hl Hg Ha Hh') as Hh.
  apply not_true_iff_false. intros [_ [Ho|[Hs Hw]]]%outstanding_cons.
  - rewrite (Hu Hh) in Ho. done.
  - destruct Hg as (_ & _ & Hsend & _). destruct (Hsend h o Hs Hw) as (_ & r & t' & E & E1 & E2 & Ho & Hc).
    destruct Hh as (r0 & E0 & _ & Et). rewrite E in E0. injection E0 as <-.
    rewrite E2 in Et. injection Et as ->. destruct Ha as [Ha|Ha]; [|congruence].
    destruct Hl as [_ Hl]. by destruct Hj; rewrite (own_unique _ _ _ _ _ _ _ Hl Ha Ho).
Qed.

(** ** Interactions that leave every claim alone *)

Fixpoint quiet {A} (p : M A) : Prop :=
  match p with
  | Ret _ => True
  | Sql stmt k => (forall db, keys_ok db -> same_rows db (stmt db).1) /\ forall r, quiet (k r)
  | Ext e k => (forall r, is_send (ObsExt (DB := DB) e r) = false) /\ forall r, quiet (k r)
  end.

Lemma quiet_bind {A B} (p : M A) (f : A -> M B) :
  quiet p -> (forall a, quiet (f a)) -> quiet (bind p f).
Proof.
  intros Hp Hf. induction p as [a|R stmt k IH|R e k IH]; simpl in *; [apply Hf| |];
    (destruct Hp as [H1 H2]; split; [done|]; intros r; by apply IH).
Qed.

Lemma quiet_try {A B E} (p : M (result A E)) (f : A -> M (result B E)) :
  quiet p -> (forall a, quiet (f a)) -> quiet (try p f).
Proof. intros Hp Hf. apply quiet_bind; [done|]. intros [v|e]; [apply Hf|done]. Qed.

Lemma quiet_stmt {R} (stmt : DB -> DB * R) :
  (forall db, keys_ok db -> same_rows db (stmt db).1) -> quiet (sql_or_db_error stmt).
Proof. intros Hs. by split. Qed.

Lemma quiet_query {R} (f : DB -> R) : quiet (sql_or_db_error (query f)).
Proof. apply quiet_stmt. intros db. apply same_rows_refl. Qed.

Lemma quiet_ask {R} (e : ext R) :
  (forall r, is_send (ObsExt (DB := DB) e r) = false) -> quiet (ask e).
Proof. by split. Qed.

Hint Resolve quiet_query quiet_ask quiet_bind quiet_try : core.

Lemma quiet_enqueue a b c d e f : quiet (enqueue_order_msg a b c d e f).
Proof. by apply quiet_ask. Qed.

Lemma quiet_lnd_new : quiet lnd_new.
Proof. apply quiet_bind; [by apply quiet_ask|done]. Qed.

Lemma quiet_failure_retries order request_id :
  quiet (check_failure_retries_or_log settings order request_id).
Proof.
  unfold check_failure_retries_or_log, check_failure_retries. apply quiet_bind; [|done].
  apply quiet_try; [done|]. intros buyer. apply quiet_try.
  - repeat case_match; try done; (apply quiet_bind; [apply quiet_enqueue|done]).
  - intros _. apply quiet_try; [|done]. apply quiet_stmt. intros db Hk. by apply same_rows_update.
Qed.

Lemma quiet_publish status order : quiet (update_order_event status order).
Proof. by apply quiet_bind; [apply quiet_ask|]. Qed.

Lemma quiet_validate inv : quiet (validate_payout_invoice settings inv).
Proof. unfold validate_payout_invoice. repeat case_match; try done. apply quiet_bind; [by apply quiet_ask|]. intros r. by case_match. Qed.

Lemma quiet_resolve order request_id amount pr :
  quiet (resolve_payout_request settings order request_id amount pr).
Proof.
  unfold resolve_payout_request.
  assert (Hf : forall e : MostroError,
    quiet (bind (check_failure_retries_or_log settings order request_id) (fun _ => Ret (Err (T:=string) e)))).
  { intros e. apply quiet_bind; [apply quiet_failure_retries|done]. }
  destruct (if is_lightning_address pr then _ else _); [|done].
  apply quiet_bind; [by apply quiet_ask|]. intros [u|e]; [|apply Hf].
  case_match; [apply Hf|]. destruct (decode_invoice u) as [inv|]; [|apply Hf].
  apply quiet_bind; [apply quiet_validate|]. intros [v|e]; [done|apply Hf].
Qed.

(** What survives the other tasks and the task's own quiet interactions. *)
Definition calm (i : tid) (K : history -> DB -> Prop) : Prop :=
  undisturbed P i K /\
  forall tr db ob db', payout_ok settings tr db -> pact_law settings ((i, ob) :: tr) ->
    is_send ob = false -> same_rows db db' -> K tr db -> K ((i, ob) :: tr) db'.

Lemma twp_quiet {A} i K (p : M A) : quiet p -> calm i K -> twp P i K p (fun _ => K).
Proof.
  intros Hq HK. induction p as [a|R stmt k IH|R e k IH]; simpl in *; [done|..].
  - destruct Hq as [Hs Hk]. split; intros r; (exists K; split_and!; [apply HK| |by apply IH]).
    + intros tr db Hv Hi _ Hl. assert (same_rows db (stmt db).1) as Hr by apply Hs, Hv.
      split; [by apply guar_rows|by eapply HK].
    + intros tr db Hv Hi Hl. assert (same_rows db db) as Hr by apply same_rows_refl, Hv.
      split; [by apply guar_rows|by eapply HK].
  - destruct Hq as [Hs Hk]. intros r. exists K. split_and!; [apply HK| |by apply IH].
    intros tr db Hv Hi Hl. assert (same_rows db db) as Hr by apply same_rows_refl, Hv.
    split; [apply guar_rows; [done|apply Hs|done]|]. eapply HK; [done|done|apply Hs|done|done].
Qed.

Lemma calm_and i K F : calm i K -> calm i F -> calm i (fun tr db => K tr db /\ F tr db).
Proof.
  intros [H1 H2] [H3 H4]. split; [by apply undisturbed_and|].
  intros tr db ob db' Hv Hl Hs Hr []. split; [by eapply H2|by eapply H4].
Qed.

Lemma calm_pure i (Q : Prop) : calm i (fun _ _ => Q).
Proof. split; [apply undisturbed_pure|done]. Qed.

Lemma calm_impl i (Q : Prop) K : calm i K -> calm i (fun tr db => Q -> K tr db).
Proof.
  intros [H1 H2]. split; [by apply undisturbed_impl|].
  intros tr db ob db' Hv Hl Hs Hr HK HQ. eapply H2; eauto.
Qed.

Lemma calm_history i (K : history -> Prop) :
  (forall e tr, K tr -> K (e :: tr)) -> calm i (fun tr _ => K tr).
Proof. intros HK. split; [intros j tr db o db' _ _ _ _; apply HK|]. intros. by apply HK. Qed.

Lemma calm_own i j o s t : calm i (fun tr _ => own tr j o s t).
Proof. apply calm_history. intros e tr. apply own_cons. Qed.

Lemma calm_paid i h : calm i (fun tr _ => paid_in h tr = true).
Proof. apply calm_history. intros e tr. apply paid_in_cons. Qed.

Lemma calm_db i (K : DB -> Prop) :
  (forall j tr db ob db', G_payout settings j tr db ob db' -> K db -> K db') ->
  calm i (fun _ db => K db).
Proof.
  intros HK. split.
  - intros j tr db o db' _ _ _ Hg. exact (HK j tr db o db' Hg).
  - intros tr db ob db' Hv Hl Hs Hr. apply (HK i tr db ob db'). by apply guar_rows.
Qed.

Lemma calm_alive i o : calm i (fun _ db => alive o db).
Proof. apply calm_db. intros j tr db ob db'. apply alive_step. Qed.

Definition unsent_here (i : tid) (o : Uuid) (h : list Z) (t : Z) (tr : history) (db : DB) : Prop :=
  anchored i o (bytes_to_string h) t tr /\ unsent o h t tr db.

Lemma calm_unsent i o h t : calm i (unsent_here i o h t).
Proof.
  split.
  - intros j tr db ob db' Hj Hv Hl Hg [Ha Hu]. split; [by apply anchored_cons|].
    exact (unsent_step i j tr db ob db' o h t Hj Hl Hg Ha Hu).
  - intros tr db ob db' Hv Hl Hs [_ Hr] [Ha Hu]. split; [by apply anchored_cons|].
    intros (r' & E' & E1 & E2). apply not_true_iff_false.
    intros [_ [Ho|[Hsn _]]]%outstanding_cons; [|apply obs_sent_is_send in Hsn; congruence].
    rewrite Hu in Ho; [done|]. specialize (Hr o). rewrite E' in Hr.
    destruct (row o db) as [r|] eqn:E; [|done]. destruct Hr as (_ & [H1 H2] & _).
    exists r. split_and!; [done|congruence..].
Qed.

(** ** The statements on a claim *)

Lemma twp_stmt {R} i (stmt : DB -> DB * R) K (Post : R -> history -> DB -> Prop)
    (Fail : history -> DB -> Prop) :
  (forall v, undisturbed P i (Post v)) -> undisturbed P i Fail ->
  (forall tr db, payout_ok settings tr db -> K tr db ->
     pact_law settings ((i, ObsSql stmt (Ok (stmt db).2)) :: tr) ->
     G_payout settings i tr db (ObsSql stmt (Ok (stmt db).2)) (stmt db).1 /\
     Post (stmt db).2 ((i, ObsSql stmt (Ok (stmt db).2)) :: tr) (stmt db).1) ->
  (forall e tr db, payout_ok settings tr db -> K tr db ->
     pact_law settings ((i, ObsSql stmt (Err e)) :: tr) ->
     Fail ((i, ObsSql stmt (Err e)) :: tr) db) ->
  twp P i K (sql_or_db_error stmt)
    (fun r tr db => match r with Ok v => Post v tr db | Err _ => Fail tr db end).
Proof.
  intros HP1 HF Hok Herr. unfold sql_or_db_error.
  eapply (twp_bind _ _ _ _ _ (fun r tr db => match r with Ok v => Post v tr db | Err _ => Fail tr db end));
    [|intros [v|e]; by apply twp_ret].
  apply twp_sql; [intros [v|e]; [apply HP1|apply HF]|exact Hok|].
  intros e tr db Hv HK Hl. split; [by apply guar_same|by apply Herr].
Qed.

Lemma affected_pos p f o db r :
  row o db = Some r -> p r = true -> 0 < (update_orders p f db).2.
Proof.
  intros E Hp. destruct (Z.lt_decidable 0 (update_orders p f db).2) as [|Hn]; [done|].
  rewrite (unaffected_row p f o db r Hn E) in Hp. done.
Qed.

Lemma holds_claim_spec o s t r :
  holds_claim o s (Some t) r = true <->
  o_id r = o /\ o_payout_payment_hash r = Some s /\ o_payout_claimed_at r = Some t.
Proof.
  unfold holds_claim, opt_str_eqb, opt_z_is. rewrite !andb_true_iff, N.eqb_eq, bool_decide_eq_true.
  destruct (o_payout_payment_hash r) as [u|]; [rewrite str_eqb_eq|]; split;
    [intros [[]]; subst; done|intros (? & [= ->] & ?); done|intros [[]]; done|intros (? & ? & ?); done].
Qed.

Lemma guar_claim i tr db h o t :
  payout_ok settings tr db -> wf_hash h -> last_read i.1 tr = Some t ->
  let stmt := claim_payout_stmt o (bytes_to_string h) t in
  G_payout settings i tr db (ObsSql stmt (Ok (stmt db).2)) (stmt db).1.
Proof.
  intros Hv Hh Hrd stmt. unfold stmt. apply guar_update; [done|done|].
  intros o' r E Hp. pose proof Hp as [[Ho%N.eqb_eq Hn]%andb_true_iff Hs]%andb_true_iff.
  eapply (rs_claim _ _ _ _ _ _ h t); try done; [by destruct (o_payout_payment_hash r)|].
  rewrite Ho. exists (claim_payout_stmt o (bytes_to_string h) t db).2.
  split; [by eapply affected_pos|by left].
Qed.

Lemma guar_touch i tr db o s t0 t :
  payout_ok settings tr db -> own tr i o s t0 -> last_read i.1 tr = Some t ->
  let stmt := touch_payout_stmt o s (Some t0) t in
  G_payout settings i tr db (ObsSql stmt (Ok (stmt db).2)) (stmt db).1.
Proof.
  intros Hv Ho Hrd stmt. unfold stmt. apply guar_update; [done|done|].
  intros o' r E Hp. pose proof Hp as [(Hi & Eh & Et)%holds_claim_spec Hs]%andb_true_iff.
  eapply (rs_touch _ _ _ _ _ _ s t0 t); try done; [by rewrite Hi|].
  rewrite Hi. exists (touch_payout_stmt o s (Some t0) t db).2.
  split; [by eapply affected_pos|right; by exists (Some t0)].
Qed.

(** Releasing the claim [t] on [h]. *)
Lemma guar_drop i tr db h o t f {R} (stmt : DB -> DB * R) r0 :
  payout_ok settings tr db -> wf_hash h ->
  (forall r, o_id (f r) = o_id r /\ o_status (f r) = o_status r /\
     o_payout_payment_hash (f r) = None /\ o_payout_claimed_at (f r) = None) ->
  anchored i o (bytes_to_string h) t tr -> unsent o h t tr db \/ done_with o db ->
  G_payout settings i tr db (ObsSql stmt r0)
    (update_orders (holds_claim o (bytes_to_string h) (Some t)) f db).1.
Proof.
  intros Hv Hh Hf Ha Hu. apply guar_update; [done|apply Hf|].
  intros o' r E (Hi & Eh & Et)%holds_claim_spec. destruct (Hf r) as (_ & Hst & Hn1 & Hn2).
  destruct (row_key _ _ _ E) as [Hk _].
  assert (row o db = Some r) as Er by congruence.
  eapply (rs_drop _ _ _ _ _ _ h t); try done; rewrite Hi; [done|].
  destruct Hu as [Hu|(r1 & E1 & Hs)]; [left; apply Hu; by exists r|right; congruence].
Qed.

Lemma guar_success i tr db updated {R} (stmt : DB -> DB * R) r0 :
  payout_ok settings tr db -> is_success updated -> completed (o_id updated) tr ->
  G_payout settings i tr db (ObsSql stmt r0)
    (success_stmt updated (status_to_string SettledHoldInvoice) db).1.
Proof.
  intros Hv Hs Hc. unfold success_stmt. apply guar_update; [done|done|].
  intros o r E [Hi%N.eqb_eq Est]%andb_true_iff. rewrite settled_spelling in Est.
  apply rs_success; [done|done|done|congruence].
Qed.

Lemma success_done updated db :
  is_success updated -> alive (o_id updated) db ->
  done_with (o_id updated) (success_stmt updated (status_to_string SettledHoldInvoice) db).1.
Proof.
  intros Hs (r & E & Hr). unfold success_stmt, done_with.
  rewrite row_update, E by done. simpl. eexists. split; [done|].
  unfold order_with_status. rewrite settled_spelling.
  destruct (row_key _ _ _ E) as [-> _]. rewrite N.eqb_refl. simpl.
  destruct (str_eqb (o_status r) SETTLED) eqn:Es; [done|].
  destruct Hr as [Hr|Hr]; [|done]. unfold is_settled in Hr. congruence.
Qed.

(** ** Finalizing and releasing, by any task *)

(** What no step of any task falsifies. *)
Definition robust (F : history -> DB -> Prop) : Prop :=
  forall j tr db ob db', G_payout settings j tr db ob db' -> F tr db -> F ((j, ob) :: tr) db'.

Lemma robust_history (F : history -> Prop) :
  (forall e tr, F tr -> F (e :: tr)) -> robust (fun tr _ => F tr).
Proof. intros HF j tr db ob db' _. apply HF. Qed.

Lemma robust_own i o s t : robust (fun tr _ => own tr i o s t).
Proof. apply robust_history. intros e tr. apply own_cons. Qed.

Lemma robust_anchored i o s t : robust (fun tr _ => anchored i o s t tr).
Proof. apply robust_history. intros e tr. apply anchored_cons. Qed.

Lemma robust_stale b : robust (fun tr _ => clock_below b tr = false).
Proof. apply robust_history. intros e tr. apply stale_cons. Qed.

Lemma robust_completed o : robust (fun tr _ => completed o tr).
Proof. apply robust_history. intros e tr. apply completed_cons. Qed.

Lemma robust_alive o : robust (fun _ db => alive o db).
Proof. intros j tr db ob db'. apply alive_step. Qed.

Lemma robust_done o : robust (fun _ db => done_with o db).
Proof. intros j tr db ob db'. apply done_step. Qed.

Lemma robust_pure (Q : Prop) : robust (fun _ _ => Q).
Proof. by intros j tr db ob db' _. Qed.

Lemma robust_and F F' : robust F -> robust F' -> robust (fun tr db => F tr db /\ F' tr db).
Proof. intros H1 H2 j tr db ob db' Hg []. split; [by eapply H1|by eapply H2]. Qed.

Lemma robust_all {X} (F : X -> history -> DB -> Prop) :
  (forall x, robust (F x)) -> robust (fun tr db => forall x, F x tr db).
Proof. intros HF j tr db ob db' Hg Hx x. by eapply HF. Qed.

Lemma robust_impl (Q : Prop) F : robust F -> robust (fun tr db => Q -> F tr db).
Proof. intros HF j tr db ob db' Hg Hx HQ. by eapply HF, Hx. Qed.

Lemma robust_ex {X} (F : X -> history -> DB -> Prop) :
  (forall x, robust (F x)) -> robust (fun tr db => exists x, F x tr db).
Proof. intros HF j tr db ob db' Hg [x Hx]. exists x. by eapply HF. Qed.

Lemma calm_robust i F : robust F -> calm i F.
Proof.
  intros HF. split.
  - intros j tr db o db' _ _ _ Hg. exact (HF j tr db o db' Hg).
  - intros tr db ob db' Hv Hl Hs Hr. apply (HF i). by apply guar_rows.
Qed.

Create HintDb robust.
Hint Resolve robust_own robust_anchored robust_stale robust_completed robust_alive robust_done
  robust_pure robust_and : robust.

Lemma undisturbed_robust i F : robust F -> undisturbed P i F.
Proof. intros HF. by apply calm_robust. Qed.

Section Finish.
Context (i : tid) (F : history -> DB -> Prop) (HF : robust F) (o : Uuid).

Lemma twp_success order buyer request_id :
  o_id order = o ->
  twp P i (fun tr db => F tr db /\ completed o tr /\ alive o db)
    (payment_success order buyer request_id)
    (fun r tr db => (F tr db /\ alive o db) /\ (r = Ok true -> done_with o db)).
Proof.
  intros Ho. set (K := fun tr db => F tr db /\ completed o tr /\ alive o db).
  assert (calm i K) as HK by (apply calm_robust; unfold K; auto with robust).
  unfold payment_success, update_order_event, update_order_event_with_created_at.
  apply (twp_bind _ _ _ _ _ (fun r tr db => K tr db /\
    forall u, r = Ok u -> o_id u = o /\ is_success u)).
  - eapply (twp_bind _ _ _ _ _ (fun _ => K)); [apply twp_quiet; [by apply quiet_ask|done]|].
    intros r. apply twp_ret. intros tr db _ HKt. split; [done|].
    intros u E. destruct r as [[ev|]|]; [| |done]; by injection E as <-.
  - intros [u|e]; [|apply twp_ret; intros tr db _ [(? & ? & ?) _]; by split_and!].
    apply (twp_try _ _ _ _ _ (fun _ tr db => (F tr db /\ alive o db) /\ done_with o db)).
    + eapply (twp_post _ _ _ _ (fun r tr db => match r with
        | Ok _ => (F tr db /\ alive o db) /\ done_with o db | Err _ => F tr db /\ alive o db end)).
      { intros [v|e] tr db _; [done|]. intros Hf. by split. }
      apply twp_stmt; [intros v; apply undisturbed_robust; auto with robust..| |].
      * intros tr db Hv [(Hf & Hc & Ha) Hu] Hl. destruct (Hu u eq_refl) as [<- Hs].
        pose proof (guar_success i tr db u (success_stmt u (status_to_string SettledHoldInvoice))
          (Ok (success_stmt u (status_to_string SettledHoldInvoice) db).2) Hv Hs Hc) as Hg.
        split; [done|]. split_and!; [by eapply HF|by eapply alive_step|by apply success_done].
      * intros e tr db Hv [(Hf & Hc & Ha) Hu] Hl. split; [|done]. eapply HF; [|done]. by apply (guar_same i).
    + intros rows. case_match; [by apply twp_ret; intros tr db _ []|].
      eapply twp_post; [|apply (twp_quiet i (fun tr db => (F tr db /\ alive o db) /\ done_with o db));
        [|apply calm_robust; auto with robust]]; [by intros r tr db _ []|].
      apply quiet_bind; [apply quiet_enqueue|]. intros _.
      apply quiet_bind; [apply quiet_enqueue|done].
Qed.

(** [clear_order_payout] and [fail_order_payout]. *)
Lemma twp_release h t stmt :
  wf_hash h ->
  stmt = clear_payout_stmt o (bytes_to_string h) (Some t) \/
  stmt = fail_payout_stmt o (bytes_to_string h) (Some t) ->
  twp P i (fun tr db => F tr db /\ alive o db /\ anchored i o (bytes_to_string h) t tr /\
             (unsent o h t tr db \/ done_with o db))
    (sql_or_db_error stmt) (fun _ tr db => F tr db /\ alive o db).
Proof.
  intros Hh Hst. eapply (twp_post _ _ _ _ (fun r tr db => match r with
    | Ok _ => F tr db /\ alive o db | Err _ => F tr db /\ alive o db end)); [by intros [|]|].
  apply twp_stmt; [intros; apply undisturbed_robust; auto with robust..| |].
  - intros tr db Hv (Hf & Hal & Ha & Hu) Hl.
    assert (G_payout settings i tr db (ObsSql stmt (Ok (stmt db).2)) (stmt db).1) as Hg.
    { destruct Hst; subst stmt; by eapply guar_drop. }
    split; [done|]. split; [by eapply HF|by eapply alive_step].
  - intros e tr db Hv (Hf & Hal & _) Hl. split; [|done]. eapply HF; [|done]. by apply (guar_same i).
Qed.
End Finish.

(** ** Reading the clock *)

Lemma last_read_other n (j : tid) ob tr : j.1 <> n -> last_read n ((j, ob) :: tr) = last_read n tr.
Proof. intros Hj. simpl. by rewrite (proj2 (Nat.eqb_neq _ _) Hj). Qed.

Lemma undisturbed_read (i : tid) t : undisturbed P i (fun tr _ => last_read i.1 tr = Some t).
Proof. intros j tr db ob db' Hj _ _ _ E. by rewrite last_read_other. Qed.

Lemma twp_now i K : calm i K ->
  twp P i K (ask Now) (fun now tr db => K tr db /\ last_read i.1 tr = Some now).
Proof.
  intros HK. apply twp_call; [intros now; apply undisturbed_and; [apply HK|apply undisturbed_read]|].
  intros now tr db Hv Hk Hl. split; [by apply guar_same|]. split.
  - eapply HK; [done|done|done|apply same_rows_refl, Hv|done].
  - simpl. by rewrite Nat.eqb_refl.
Qed.

(** ** The dispatch of one order *)

Section Dispatch.
Context (n beats : nat) (order : Order) (request_id : option Z).

Abbreviation me := ((n, PayOrder beats order request_id) : tid).
Abbreviation oid := (o_id order).

Definition mine (s : string) (t : Z) (tr : history) (db : DB) : Prop :=
  own tr me oid s t /\ alive oid db.

Lemma calm_mine s t : calm me (mine s t).
Proof. apply calm_and; [apply calm_own|apply calm_alive]. Qed.

(** Just stamped: the claim stands as long as the clock has not moved by the
    grace window since the task read it. *)
Definition ready (s : string) (t : Z) (tr : history) (db : DB) : Prop :=
  mine s t tr db /\ (clock_below (t + grace) tr = true -> holds oid s t db) /\
  last_read n tr = Some t.

Lemma undisturbed_ready s t : undisturbed P me (ready s t).
Proof.
  intros j tr db ob db' Hj Hv Hl Hg (Hm & Hh & Hr).
  split_and!; [by eapply calm_mine| |by rewrite last_read_other].
  intros Hc%clock_below_cons. destruct Hm as [Ho _].
  destruct (holds_step _ _ _ _ _ _ _ _ Hl Hg (Hh Hc)) as [(s' & Hj')|[Hx|]]; [|congruence|done].
  destruct Hl as [_ Hl]. by destruct Hj; rewrite (own_unique _ _ _ _ _ _ _ Hl Hj' Ho).
Qed.

Lemma read_quiet ob tr t :
  obs_now ob = None -> last_read n tr = Some t -> last_read n ((me, ob) :: tr) = Some t.
Proof. intros E. simpl. by rewrite Nat.eqb_refl, E. Qed.

Lemma twp_touch s t0 :
  twp P me (mine s t0) (touch_order_payout_claim oid s (Some t0))
    (fun r tr db => forall t, r = Ok (Some t) -> ready s t tr db).
Proof.
  unfold touch_order_payout_claim.
  apply (twp_bind _ _ _ _ _ (fun now tr db => mine s t0 tr db /\ last_read n tr = Some now)).
  - apply twp_now, calm_mine.
  - intros now.
    apply (twp_try _ _ _ _ _ (fun v tr db => 0 < v -> ready s now tr db)).
    + eapply (twp_post _ _ _ _ (fun r tr db => match r with
        | Ok v => 0 < v -> ready s now tr db | Err _ => True end)); [by intros [v|e]|].
      apply twp_stmt; [intros v; apply undisturbed_impl, undisturbed_ready|apply undisturbed_pure| |done].
      intros tr db Hv [[Ho Ha] Hr] Hl.
      pose proof (guar_touch me tr db oid s t0 now Hv Ho Hr) as Hg. cbv zeta in Hg.
      split; [done|]. intros Hn.
      destruct (affected_row _ _ oid db (po_keys _ _ _ Hv)
        ltac:(by intros r [(? & _)%holds_claim_spec _]%andb_true_iff) Hn) as (r & E & Hp).
      pose proof Hp as [(Hi & Eh & Et)%holds_claim_spec Hs]%andb_true_iff.
      split_and!; [split| |by apply read_quiet].
      * apply own_head. exists (touch_payout_stmt oid s (Some t0) now db).2.
        split; [done|right; by exists (Some t0)].
      * by eapply alive_step.
      * intros _. unfold touch_payout_stmt, holds. rewrite row_update, E by done. simpl.
        rewrite Hp. by eexists.
    + intros v. apply twp_ret. intros tr db _ Hw t E. injection E as E.
      destruct (0 <? v) eqn:Ev; [|done]. injection E as <-. apply Hw. by apply Z.ltb_lt.
Qed.

Lemma ready_mine s t tr db : ready s t tr db -> mine s t tr db.
Proof. by intros []. Qed.

Lemma twp_permit b d t0 :
  d_order d = order ->
  twp P me (mine (d_payout_hash d) t0) (await_permit b d t0)
    (fun r tr db => forall t, r = Some t -> mine (d_payout_hash d) t tr db).
Proof.
  intros Hd. revert t0. induction b as [|b IH]; intros t0; cbn [await_permit].
  { apply twp_ret. intros tr db _ Hm t E. by injection E as <-. }
  rewrite Hd. eapply twp_bind; [apply twp_touch|].
  intros [[t|]|e]; [|by apply twp_ret..].
  eapply twp_pre; [|apply IH]. intros tr db _ Hr. by apply ready_mine, Hr.
Qed.

(** What the updates of a stream tell: [Succeeded] means paid, [Failed] that
    nothing is outstanding under the claim. *)
Definition has_status (st : PaymentStatus) (l : list PaymentUpdate) : bool :=
  existsb (fun u => bool_decide (pu_status u = Some st)) l.

Definition finals (l : list PaymentUpdate) : nat := length (List.filter final_status l).

Definition watched (h : list Z) (t : Z) (l : list PaymentUpdate) (tr : history) (db : DB) : Prop :=
  mine (bytes_to_string h) t tr db /\ (finals l <= 1)%nat /\
  (has_status PSucceeded l = true -> paid_in h tr = true) /\
  (has_status PFailed l = true -> unsent_here me oid h t tr db).

Lemma calm_watched h t l : calm me (watched h t l).
Proof.
  apply calm_and; [apply calm_mine|]. apply calm_and; [apply calm_pure|].
  apply calm_and; apply calm_impl; [apply calm_paid|apply calm_unsent].
Qed.

Lemma no_finals l st : finals l = O -> st = PSucceeded \/ st = PFailed -> has_status st l = false.
Proof.
  unfold finals. induction l as [|u l IH]; [done|]. simpl. intros Hf Hst.
  unfold final_status in Hf at 1. destruct (pu_status u) as [[]|] eqn:Eu; simpl in Hf; try done;
    rewrite IH by done; rewrite orb_false_r; apply bool_decide_eq_false;
    destruct Hst; by subst.
Qed.

(** With one final status, [drain] finds it. *)
Lemma drain_final l :
  (finals l <= 1)%nat ->
  (has_status PSucceeded l = true -> drain l = StreamSucceeded) /\
  (has_status PFailed l = true -> exists m, drain l = StreamFailed m).
Proof.
  unfold finals. induction l as [|u l IH]; [done|]. simpl. unfold final_status at 1.
  intros Hf. destruct (pu_status u) as [[]|] eqn:Eu; simpl in *; try (by apply IH).
  - split; [done|]. intros Hx. rewrite no_finals in Hx; [done|unfold finals; lia|by right].
  - split; [|eauto]. intros Hx. rewrite no_finals in Hx; [done|unfold finals; lia|by left].
Qed.

Lemma track_gone r e :
  classify_dispatch (Ok (Err e)) (Some (track_result r)) = ReArm (error_to_string e) ->
  match track_result r with
  | Ok (Some PFailed) | Ok (Some PUnknown) | Ok None => true
  | _ => false
  end = true.
Proof. simpl. by destruct (track_result r) as [[[]|]|]. Qed.

Lemma gone_unsent h t ob tr db :
  own tr me oid (bytes_to_string h) t -> obs_gone h ob = true ->
  unsent_here me oid h t ((me, ob) :: tr) db.
Proof.
  intros Ho Hg. split; [left; by apply own_cons|]. intros _. simpl. by rewrite Hg.
Qed.

Context (inv : Bolt11) (pr : string) (Hpr : bolt11_from_str pr = Some inv).

Abbreviation hash := (payment_hash inv).

Lemma sends_hash h : pays pr h = true -> h = hash.
Proof. unfold pays. rewrite Hpr. intros E%bool_decide_eq_true. done. Qed.

(** Handing the payment to LND. *)
Lemma twp_send_v2 amt fee secs t :
  twp P me (ready (bytes_to_string hash) t) (ask (LndSendPaymentV2 pr amt fee secs))
    (fun r tr db => mine (bytes_to_string hash) t tr db /\
       forall s, r = Ok s -> watched hash t (ps_updates s) tr db).
Proof.
  apply twp_call.
  { intros r. apply undisturbed_and; [apply calm_mine|].
    intros j tr db ob db' Hj Hv Hl Hg Hs s E. eapply calm_watched; eauto. }
  intros r tr db Hv (Hm & Hh & Hr) Hl. pose proof Hl as [Hp _].
  pose proof (pl_send _ _ _ _ Hp t eq_refl Hr) as Hc. destruct (Hh Hc) as (r0 & E & E1 & E2).
  destruct Hm as [Ho Ha].
  assert (Hm' : mine (bytes_to_string hash) t ((me, ObsExt (LndSendPaymentV2 pr amt fee secs) r) :: tr) db)
    by (split; [by apply own_cons|done]).
  split.
  - split_and!; [apply Hv| | |done].
    + intros o. unfold rows_step. destruct (row o db); [|done]. split; [done|]. by apply rs_keep.
    + intros h o Hs Hw. apply N.eqb_eq in Hw. simpl in Hw. subst o.
      rewrite (sends_hash h Hs). split; [by apply (invoice_hash_wf pr)|]. by exists r0, t.
  - split; [done|]. intros s ->. pose proof (pl_stream _ _ _ _ Hp) as Hst.
    apply orb_true_iff in Hst as [Hst|Hst]; [|done]. apply Nat.leb_le in Hst.
    destruct (drain_final _ Hst) as [HS HF].
    assert (Hpays : pays pr hash = true) by (unfold pays; rewrite Hpr; by apply bool_decide_eq_true).
    split_and!; [done|done| |].
    + intros E3. unfold paid_in. simpl. by rewrite Hpays, (HS E3).
    + intros E3. apply gone_unsent; [done|]. destruct (HF E3) as [m Em]. simpl. by rewrite Hpays, Em.
Qed.

Lemma twp_send amount t :
  twp P me (ready (bytes_to_string hash) t) (send_payment settings pr amount)
    (fun r tr db => mine (bytes_to_string hash) t tr db /\
       forall s, r = Ok s -> watched hash t (ps_updates s) tr db).
Proof.
  unfold send_payment, decode_invoice. rewrite Hpr. unfold try at 1. cbn [ok_or bind].
  apply (twp_bind _ _ _ _ _ (fun _ => ready (bytes_to_string hash) t)).
  - apply twp_call; [intros; apply undisturbed_ready|]. intros r tr db Hv (Hm & Hh & Hr) Hl.
    split; [by apply guar_same|]. split_and!; [|intros Hc; by apply Hh, (clock_below_cons _ _ _ Hc)
      |by apply read_quiet].
    eapply calm_mine; [done|done|done|apply same_rows_refl, Hv|done].
  - assert (Herr : forall e : MostroError, twp P me (ready (bytes_to_string hash) t)
      (Ret (Err (T := PaymentStream) e)) (fun r tr db => mine (bytes_to_string hash) t tr db /\
         forall s, r = Ok s -> watched hash t (ps_updates s) tr db)).
    { intros e. apply twp_ret. intros tr db _ Hr. split; [by apply ready_mine|done]. }
    intros guard. twp_case; [apply Herr|]. twp_case; [apply Herr|]. eapply twp_bind; [apply twp_send_v2|].
    intros [s|e]; apply twp_ret; intros tr db _ [Hm Hw]; split; [done| |done|done].
    intros s' [= <-]. by apply Hw.
Qed.

Context (d : PayoutDispatch) (Hd : d_order d = order)
  (Hdh : d_payout_hash d = bytes_to_string hash).

Lemma mine_completed t tr db :
  mine (bytes_to_string hash) t tr db -> paid_in hash tr = true -> completed oid tr.
Proof. intros [Ho _] Hp. by exists hash, me, t. Qed.

Lemma twp_release_failed t :
  twp P me (fun tr db => mine (bytes_to_string hash) t tr db /\ unsent_here me oid hash t tr db)
    (release_failed settings d t) (fun _ => mine (bytes_to_string hash) t).
Proof.
  unfold release_failed, fail_order_payout. rewrite Hd, Hdh.
  apply (twp_bind _ _ _ _ _ (fun _ => mine (bytes_to_string hash) t)).
  - apply (twp_try _ _ _ _ _ (fun _ => mine (bytes_to_string hash) t)); [|intros v; by apply twp_ret].
    eapply twp_mono; [| |apply (twp_release me (fun tr _ => own tr me oid (bytes_to_string hash) t)
      (robust_own _ _ _ _) oid hash t); [by apply (invoice_hash_wf pr)|by right]].
    + intros tr db _ ([Ho Ha] & Hanc & Hu). by split_and!; [..|left].
    + by intros [v|e] tr db _ [].
  - intros r. twp_case; [|by apply twp_ret].
    apply twp_quiet; [apply quiet_failure_retries|apply calm_mine].
Qed.

Lemma twp_watch u l t :
  twp P me (watched hash t (u :: l)) (watch_update settings d t u) (fun _ => watched hash t l).
Proof.
  apply (twp_pre _ _ (fun tr db => (finals (u :: l) <= 1)%nat /\ watched hash t (u :: l) tr db));
    [intros tr db _ Hw; split; [apply Hw|done]|].
  apply twp_fact. intros Hfin.
  assert (Hrest : final_status u = true -> forall tr db,
    mine (bytes_to_string hash) t tr db -> watched hash t l tr db).
  { intros Hf tr db Hm. unfold finals in Hfin. simpl in Hfin. rewrite Hf in Hfin. simpl in Hfin.
    assert (finals l = O) as E by (unfold finals; lia).
    split_and!; [done|lia|..]; intros Hs; rewrite no_finals in Hs; auto; done. }
  assert (Hskip : final_status u = false -> forall tr db,
    watched hash t (u :: l) tr db -> watched hash t l tr db).
  { unfold watched, finals. simpl. intros Hf tr db. rewrite Hf. unfold final_status in Hf.
    intros (? & ? & HS & HF). split_and!; [done|done|..]; intros Hs; [apply HS|apply HF];
      by rewrite Hs, orb_true_r. }
  unfold watch_update, final_status in *. destruct (pu_status u) as [[]|] eqn:Eu;
    try (apply twp_ret; intros tr db _; by apply Hskip).
  - rewrite Hd. set (F := fun (tr : history) (_ : DB) => own tr me oid (bytes_to_string hash) t).
    apply (twp_pre _ _ (fun tr db => F tr db /\ completed oid tr /\ alive oid db)).
    { intros tr db _ (Hm & _ & HS & _). split_and!; [apply Hm| |apply Hm].
      eapply mine_completed; [done|]. apply HS. simpl. by rewrite Eu, bool_decide_true. }
    eapply twp_bind; [apply (twp_success me F (robust_own _ _ _ _)); done|].
    intros r. twp_case; [|apply twp_ret; intros tr db _ [[Ho Ha] _]; by apply Hrest].
    unfold clear_order_payout. rewrite Hdh.
    eapply (twp_bind _ _ _ _ _ (fun _ => mine (bytes_to_string hash) t));
      [|intros x; apply twp_ret; intros tr db _; by apply Hrest].
    apply (twp_try _ _ _ _ _ (fun _ => mine (bytes_to_string hash) t)); [|intros v; by apply twp_ret].
    eapply twp_mono; [| |apply (twp_release me F (robust_own _ _ _ _) oid hash t);
      [by apply (invoice_hash_wf pr)|by left]].
    + intros tr db _ [[Ho Ha] Hdone]. split_and!; [done|done|by left|right].
      apply Hdone. by destruct r as [[]|].
    + by intros [v|e] tr db _ ?.
  - eapply twp_mono; [| |apply twp_release_failed].
    + intros tr db _ (Hm & _ & _ & HF). split; [done|]. apply HF. simpl.
      by rewrite Eu, bool_decide_true.
    + intros x tr db _. by apply Hrest.
Qed.

Lemma twp_lookup e t :
  twp P me (mine (bytes_to_string hash) t) (lookup_claimed (bytes_to_string hash))
    (fun lk tr db => mine (bytes_to_string hash) t tr db /\
       forall m, classify_dispatch (Ok (Err e)) lk = ReArm m -> unsent_here me oid hash t tr db).
Proof.
  pose proof (invoice_hash_wf pr inv Hpr) as [Hb Hlen].
  unfold lookup_claimed, lookup_payment_status. rewrite from_hex_bytes by done.
  rewrite bool_decide_true by done.
  eapply (twp_bind _ _ _ _ _ (fun st tr db => mine (bytes_to_string hash) t tr db /\
    forall m, classify_dispatch (Ok (Err e)) (Some st) = ReArm m -> unsent_here me oid hash t tr db));
    [|intros st; by apply twp_ret].
  apply (twp_bind _ _ _ _ _ (fun r tr db => mine (bytes_to_string hash) t tr db /\
    forall m, classify_dispatch (Ok (Err e)) (Some (track_result r)) = ReArm m ->
      unsent_here me oid hash t tr db)); [|intros r; by apply twp_ret].
  apply twp_call.
  - intros r. apply undisturbed_and; [apply calm_mine|].
    intros j tr db ob db' Hj Hv Hl Hg Hu m Em. eapply calm_unsent; eauto.
  - intros r tr db Hv Hm Hl. split; [by apply guar_same|]. split.
    + eapply calm_mine; [done|done|done|apply same_rows_refl, Hv|done].
    + intros m Em. apply gone_unsent; [apply Hm|]. simpl. rewrite bool_decide_true by done.
      apply (track_gone r e). simpl in Em |- *. by destruct (track_result r) as [[[]|]|].
Qed.

Lemma twp_dispatch :
  d_payment_request d = pr ->
  twp P me (mine (bytes_to_string hash) (d_claimed_at d)) (dispatch_payout settings beats d)
    (fun _ _ _ => True).
Proof.
  intros Hdp. unfold dispatch_payout.
  eapply twp_bind; [rewrite <- Hdh; by apply twp_permit|]. rewrite Hdh.
  intros [t0|]; [|by apply twp_ret].
  eapply twp_bind; [eapply twp_pre; [|rewrite Hd; apply twp_touch]|].
  { intros tr db _ Hm. by apply Hm. }
  intros [[t|]|e]; [|by apply twp_ret..].
  eapply twp_bind; [eapply twp_pre; [|rewrite Hdp; apply twp_send]|].
  { intros tr db _ Hr. by apply Hr. }
  intros [stream|e].
  - eapply (twp_bind _ _ _ _ _ (fun _ => watched hash t [])).
    + eapply twp_pre; [|apply (twp_for_each _ _ _ (watched hash t)); intros u l; apply twp_watch].
      intros tr db _ [_ Hw]. by apply Hw.
    + intros []. by destruct (ps_elapsed stream); apply twp_ret.
  - eapply twp_bind; [eapply twp_pre; [|apply (twp_lookup e t)]; by intros tr db _ []|].
    intros lk. unfold settle_verdict. destruct (classify_dispatch _ lk) eqn:Ec; [by apply twp_ret..|].
    eapply twp_mono; [| |apply twp_release_failed]; [|done].
    intros tr db _ [Hm Hu]. split; [done|]. by eapply Hu.
Qed.
End Dispatch.

(** ** The jobs *)

Lemma twp_try_pure {A B E} i K (r : result A E) (f : A -> M (result B E)) Post :
  (forall v, r = Ok v -> twp P i K (f v) Post) ->
  (forall e, r = Err e -> forall tr db, K tr db -> Post (Err e) tr db) ->
  twp P i K (try (Ret r) f) Post.
Proof. intros Hf He. destruct r as [v|e]; [by apply Hf|]. apply twp_ret. intros tr db _. by apply He. Qed.

Definition dispatches (i : tid) (order : Order) (r : result (option PayoutDispatch) MostroError)
    (tr : history) (db : DB) : Prop :=
  forall d, r = Ok (Some d) -> exists inv,
    bolt11_from_str (d_payment_request d) = Some inv /\
    d_order d = order /\ d_payout_hash d = bytes_to_string (payment_hash inv) /\
    own tr i (o_id order) (d_payout_hash d) (d_claimed_at d) /\ alive (o_id order) db.

Lemma twp_do_payment i order request_id :
  twp P i (fun _ _ => True) (do_payment settings order request_id) (dispatches i order).
Proof.
  assert (Hquiet : forall A (p : M A), quiet p -> twp P i (fun _ _ => True) p (fun _ _ _ => True)).
  { intros A p Hp. apply twp_quiet; [done|apply calm_pure]. }
  unfold do_payment. apply twp_try_pure; [|by intros e _ tr db _ d]. intros pr _.
  twp_case; [by apply twp_ret|].
  apply (twp_try _ _ _ _ _ (fun _ _ _ => True)).
  { eapply twp_post; [|apply Hquiet, quiet_resolve]. by intros [|]. }
  intros pr'. apply twp_try_pure; [|by intros e _ tr db _ d]. intros buyer _.
  apply (twp_try _ _ _ _ _ (fun _ _ _ => True)).
  { eapply twp_post; [|apply Hquiet, quiet_lnd_new]. by intros [|]. }
  intros _. apply twp_try_pure; [|by intros e _ tr db _ d]. intros s Hs.
  unfold decode_invoice in Hs. destruct (bolt11_from_str pr') as [inv|] eqn:Einv; [|done].
  simpl in Hs. injection Hs as <-. set (s := bytes_to_string (payment_hash inv)).
  set (claimed := fun t tr db => own tr i (o_id order) s t /\ alive (o_id order) db).
  apply (twp_try _ _ _ _ _ (fun r tr db => forall t, r = Some t -> claimed t tr db)).
  2:{ intros [t|]; apply twp_ret; [|by intros tr db _ _ d].
      intros tr db _ Hc d E. injection E as <-. exists inv. destruct (Hc t eq_refl). by split_and!. }
  unfold claim_order_payout. eapply twp_bind; [apply twp_now, calm_pure|].
  intros t. eapply (twp_try _ _ _ _ _ (fun v tr db => 0 < v -> claimed t tr db)).
  - eapply (twp_post _ _ _ _ (fun r tr db => match r with
      | Ok v => 0 < v -> claimed t tr db | Err _ => True end)); [by intros [v|e]|].
    apply twp_stmt; [|apply undisturbed_pure| |done].
    { intros v. apply undisturbed_impl, undisturbed_robust. unfold claimed. auto with robust. }
    intros tr db Hv [_ Hrd] Hl.
    pose proof (guar_claim i tr db _ (o_id order) t Hv (invoice_hash_wf _ _ Einv) Hrd) as Hg.
    split; [exact Hg|]. intros Hn.
    destruct (affected_row _ _ (o_id order) db (po_keys _ _ _ Hv)
      ltac:(by intros r [[?%N.eqb_eq _]%andb_true_iff _]%andb_true_iff) Hn) as (r & E & Hp).
    pose proof Hp as [_ Hs]%andb_true_iff. split.
    + apply own_head. eexists. split; [exact Hn|by left].
    + eapply alive_step; [exact Hg|]. exists r. split; [done|by left].
  - intros v. apply twp_ret. intros tr db _ Hw t' E.
    destruct (0 <? v) eqn:Ev; [|done]. injection E as <-. apply Hw. by apply Z.ltb_lt.
Qed.

Lemma twp_pay_order n beats order request_id K :
  twp P (n, PayOrder beats order request_id) K (pay_order settings beats order request_id)
    (fun _ _ _ => True).
Proof.
  unfold pay_order. apply (twp_pre _ _ (fun _ _ => True)); [done|].
  eapply twp_bind; [apply twp_do_payment|].
  intros [[d|]|e]; [|by apply twp_ret..].
  eapply twp_pre; [|apply (twp_union _ _ (fun inv tr db =>
    (bolt11_from_str (d_payment_request d) = Some inv /\ d_order d = order /\
     d_payout_hash d = bytes_to_string (payment_hash inv)) /\
    own tr (n, PayOrder beats order request_id) (o_id order) (d_payout_hash d) (d_claimed_at d) /\
    alive (o_id order) db))].
  - intros tr db _ Hd. destruct (Hd d eq_refl) as (inv & ? & ? & ? & ? & ?). by exists inv.
  - intros inv. apply twp_fact. intros (Einv & Ho & Hh).
    eapply twp_pre; [|by apply (twp_dispatch n beats order request_id inv (d_payment_request d) Einv d Ho Hh)].
    intros tr db _ [Hown Ha]. rewrite <- Hh. by split.
Qed.

(** ** The reconciler *)

(** A claim read from the table that has outlived the grace window. *)
Definition overdue (c : Uuid * string * option Z) (tr : history) (db : DB) : Prop :=
  exists h t j, (c.2 = Some t /\ wf_hash h /\ c.1.2 = bytes_to_string h) /\
    own tr j c.1.1 c.1.2 t /\ clock_below (t + grace) tr = false /\ alive c.1.1 db.

Lemma robust_overdue c : robust (overdue c).
Proof. do 3 (apply robust_ex; intros ?). auto with robust. Qed.

Definition backlog (l : list (Uuid * string * option Z)) (tr : history) (db : DB) : Prop :=
  forall c, In c l -> overdue c tr db.

Lemma robust_backlog l : robust (backlog l).
Proof. apply robust_all. intros c. apply robust_impl, robust_overdue. Qed.

Section Reconcile.
Context (i : tid) (l : list (Uuid * string * option Z)) (o : Uuid) (h : list Z) (t : Z) (j : tid).
Hypothesis (Hh : wf_hash h).

Abbreviation s := (bytes_to_string h).

(** The frame: the rest of the backlog, and what is known of this claim. *)
Definition at_claim (tr : history) (db : DB) : Prop :=
  backlog l tr db /\ own tr j o s t /\ clock_below (t + grace) tr = false /\ alive o db.

Lemma robust_at_claim : robust at_claim.
Proof. unfold at_claim. auto using robust_backlog with robust. Qed.

Lemma stale_anchored tr db : at_claim tr db -> anchored i o s t tr.
Proof. intros (_ & _ & Hc & _). by right. Qed.

Lemma twp_release_stale stmt :
  stmt = clear_payout_stmt o s (Some t) \/ stmt = fail_payout_stmt o s (Some t) ->
  twp P i (fun tr db => at_claim tr db /\ (unsent o h t tr db \/ done_with o db))
    (sql_or_db_error stmt) (fun _ => at_claim).
Proof.
  intros Hst. eapply twp_mono; [| |apply (twp_release i at_claim robust_at_claim o h t _ Hh Hst)].
  - intros tr db _ [Ha Hu]. split_and!; [done|apply Ha|by eapply stale_anchored|done].
  - by intros r tr db _ [].
Qed.

Definition looked_up (st : result (option PaymentStatus) MostroError) (tr : history) (db : DB) : Prop :=
  match st with
  | Ok (Some PSucceeded) => completed o tr
  | Ok (Some PFailed) | Ok (Some PUnknown) | Ok None => unsent_here i o h t tr db
  | _ => True
  end.

Lemma twp_lookup_stale :
  twp P i at_claim (lookup_payment_status h) (fun st tr db => at_claim tr db /\ looked_up st tr db).
Proof.
  unfold lookup_payment_status, looked_up.
  eapply (twp_bind _ _ _ _ _ (fun r tr db => at_claim tr db /\ looked_up (track_result r) tr db));
    [|intros r; by apply twp_ret].
  apply twp_call.
  - intros r. apply undisturbed_and; [apply undisturbed_robust, robust_at_claim|].
    unfold looked_up. destruct (track_result r) as [[[]|]|];
      try apply undisturbed_pure; try apply calm_unsent.
    apply undisturbed_robust, robust_completed.
  - intros r tr db Hv Ha Hl. pose proof (guar_same i tr db (ObsExt (LndTrackPayment h) r) Hv eq_refl) as Hg.
    split; [done|]. split; [by eapply robust_at_claim|].
    assert (Hgone : obs_gone h (ObsExt (LndTrackPayment h) r) = true ->
      unsent_here i o h t ((i, ObsExt (LndTrackPayment h) r) :: tr) db).
    { intros Hx. split; [by apply anchored_cons, (stale_anchored tr db)|].
      intros _. cbn [outstanding]. by rewrite Hx. }
    unfold looked_up. destruct (track_result r) as [[[]|]|] eqn:Er; try done;
      try (apply Hgone; simpl; by rewrite bool_decide_true, Er).
    destruct Ha as (_ & Ho & _). exists h, j, t. split; [by apply own_cons|].
    unfold paid_in. simpl. rewrite bool_decide_true by done.
    destruct r as [[[]|]|]; simpl in Er; try done; [|by case_match]. by injection Er as ->.
Qed.

Lemma at_claim_end (r : result unit MostroError) : twp P i at_claim (Ret r) (fun _ => backlog l).
Proof. apply twp_ret. by intros tr db _ []. Qed.

(** LND knows nothing of it: release, and keep the books. *)
Lemma twp_reconcile_gone :
  twp P i (fun tr db => at_claim tr db /\ unsent_here i o h t tr db)
    (bind (find_order_by_id o) (fun pre =>
     try (fail_order_payout o s (Some t)) (fun owned : bool =>
       if owned then
         match pre with
         | Ok (Some order) =>
             bind (check_failure_retries_or_log settings order None) (fun _ => Ret (Ok tt))
         | _ => Ret (Ok tt)
         end
       else Ret (Ok tt))))
    (fun _ : result unit MostroError => backlog l).
Proof.
  set (U := fun tr db => at_claim tr db /\ unsent_here i o h t tr db).
  eapply (twp_bind _ _ _ _ _ (fun _ => U)).
  { apply twp_quiet; [apply quiet_query|].
    apply calm_and; [apply calm_robust, robust_at_claim|apply calm_unsent]. }
  intros pre. apply (twp_try _ _ _ _ _ (fun _ => at_claim)).
  - apply (twp_try _ _ _ _ _ (fun _ => at_claim)); [|intros v; by apply twp_ret].
    eapply twp_mono; [| |apply twp_release_stale; by right].
    + intros tr db _ [Ha [_ Hu]]. split; [done|by left].
    + intros [v|e] tr db _ Ha; [done|apply Ha].
  - intros owned. destruct owned; [|apply at_claim_end].
    destruct pre as [[order|]|]; [|apply at_claim_end..].
    eapply twp_bind; [apply twp_quiet; [apply quiet_failure_retries|apply calm_robust, robust_at_claim]|].
    intros x. apply at_claim_end.
Qed.

Definition paid_claim (tr : history) (db : DB) : Prop := at_claim tr db /\ completed o tr.

Lemma robust_paid_claim : robust paid_claim.
Proof. unfold paid_claim. auto using robust_at_claim with robust. Qed.

Lemma twp_reload :
  twp P i paid_claim (find_order_by_id o) (fun found tr db => paid_claim tr db /\
    forall order, found = Ok (Some order) -> o_id order = o).
Proof.
  unfold find_order_by_id. eapply (twp_post _ _ _ _ (fun r tr db => match r with
    | Ok v => paid_claim tr db /\ forall order, v = Some order -> o_id order = o
    | Err _ => paid_claim tr db end)).
  { intros [v|e] tr db _; [intros [Hc Hv]|intros Hc]; (split; [done|]); [|done].
    intros order [= ->]. by apply Hv. }
  pose proof (calm_robust i _ robust_paid_claim) as HC.
  apply twp_stmt; [intros v; apply undisturbed_and; [apply HC|apply undisturbed_pure]|apply HC| |].
  - intros tr db Hv Hc Hl. split; [by apply guar_same|]. split.
    + eapply HC; [done|done|done|apply same_rows_refl, Hv|done].
    + intros order Eo. by apply select_one_spec in Eo as [_ E%N.eqb_eq].
  - intros e tr db Hv Hc Hl. eapply HC; [done|done|done|apply same_rows_refl, Hv|done].
Qed.

(** LND reports it paid: finalize, and release once the order is completed. *)
Lemma twp_finalize (found : result (option Order) MostroError) :
  twp P i (fun tr db => paid_claim tr db /\
      forall order, found = Ok (Some order) -> o_id order = o)
    (match found with
     | Ok (Some order) =>
         match get_buyer_pubkey order with
         | Ok buyer_pubkey =>
             bind (payment_success order buyer_pubkey None) (fun r => Ret (unwrap_or_false r))
         | Err _ => Ret false
         end
     | _ => Ret false
     end)
    (fun (fin : bool) tr db => at_claim tr db /\ (fin = true -> done_with o db)).
Proof.
  assert (Hno : twp P i (fun tr db => paid_claim tr db /\
      (forall order, found = Ok (Some order) -> o_id order = o))
    (Ret false) (fun (fin : bool) tr db => at_claim tr db /\ (fin = true -> done_with o db))).
  { apply twp_ret. by intros tr db _ [[] _]. }
  destruct found as [[order|]|]; try exact Hno.
  destruct (get_buyer_pubkey order) as [buyer|]; [|exact Hno].
  eapply (twp_bind _ _ _ _ _ (fun r tr db => (at_claim tr db /\ alive o db) /\
    (r = Ok true -> done_with o db))).
  - apply (twp_pre _ _ (fun tr db => o_id order = o /\ (at_claim tr db /\ completed o tr /\ alive o db))).
    { intros tr db _ [[Ha Hc] Hi]. split_and!; [by apply Hi|done|done|apply Ha]. }
    apply twp_fact. intros Ho. apply twp_success; [apply robust_at_claim|done].
  - intros r. apply twp_ret. intros tr db _ [[Ha _] Hd]. split; [done|].
    intros E. apply Hd. by destruct r as [[]|].
Qed.

Lemma twp_reconcile :
  twp P i at_claim (reconcile_inflight_payout settings o s (Some t)) (fun _ => backlog l).
Proof.
  unfold reconcile_inflight_payout. destruct Hh as [Hb Hlen].
  rewrite from_hex_bytes, bool_decide_true by done.
  eapply twp_bind; [apply twp_lookup_stale|].
  assert (Hkeep : forall Q : history -> DB -> Prop,
    twp P i (fun tr db => at_claim tr db /\ Q tr db) (Ret (Ok (E:=MostroError) tt)) (fun _ => backlog l)).
  { intros Q. apply twp_ret. by intros tr db _ [[] _]. }
  intros [[[]|]|e]; try exact twp_reconcile_gone; try apply Hkeep.
  eapply twp_bind; [apply twp_reload|]. intros found. eapply twp_bind; [apply twp_finalize|].
  intros [|]; [|apply Hkeep].
  apply (twp_try _ _ _ _ _ (fun _ => at_claim)); [|intros v; apply at_claim_end].
  apply (twp_try _ _ _ _ _ (fun _ => at_claim)); [|intros v; by apply twp_ret].
  eapply twp_mono; [| |apply twp_release_stale; by left].
  - intros tr db _ [Ha Hd]. split; [done|right; by apply Hd].
  - intros [v|e] tr db _ Ha; [done|apply Ha].
Qed.
End Reconcile.

Lemma inflight_overdue before tr db :
  payout_ok settings tr db -> (forall b, b <= before + grace -> clock_below b tr = false) ->
  backlog (inflight_payouts before db) tr db.
Proof.
  intros Hv Hc [[o s] ct] Hin. unfold inflight_payouts in Hin.
  apply list_elem_of_In, list_elem_of_omap in Hin as (r & Hr & E).
  apply list_elem_of_In in Hr. pose proof (row_in db r (po_keys _ _ _ Hv) Hr) as Er.
  destruct (o_payout_payment_hash r) as [u|] eqn:Eh; [|done].
  destruct (is_settled r && _) eqn:Es; [|done]. injection E as <- <- <-.
  destruct (po_marks _ _ _ Hv (o_id r) r u Er Eh) as (_ & h & j & t & Hh & -> & Et & Ho).
  rewrite Et in Es. apply andb_true_iff in Es as [Es Ht%Z.leb_le].
  exists h, t, j. simpl. split_and!; [done..|apply Hc; lia|]. exists r. split; [done|by left].
Qed.

Lemma twp_tick i :
  twp P i (fun _ _ => True) (reconcile_tick settings) (fun _ _ _ => True).
Proof.
  unfold reconcile_tick, find_inflight_payouts.
  set (reached := fun now (tr : history) (_ : DB) => forall b, b <= now -> clock_below b tr = false).
  assert (Hr : forall now, robust (reached now)).
  { intros now j tr db ob db' _ Hc b Hb. apply stale_cons, Hc, Hb. }
  apply (twp_bind _ _ _ _ _ reached).
  { apply twp_call; [intros now; apply undisturbed_robust, Hr|].
    intros now tr db Hv _ Hl. split; [by apply guar_same|]. intros b Hb. unfold clock_below. simpl.
    by rewrite (proj2 (Z.ltb_ge _ _) Hb). }
  intros now. eapply (twp_bind _ _ _ _ _ (fun r tr db => match r with
    | Ok l => backlog l tr db | Err _ => True end)).
  { apply twp_stmt; [intros l; apply undisturbed_robust, robust_backlog|apply undisturbed_pure| |done].
    intros tr db Hv Hc Hl. pose proof (guar_same i tr db
      (ObsSql (query (inflight_payouts (now - grace))) (Ok (inflight_payouts (now - grace) db))) Hv eq_refl).
    split; [done|]. eapply robust_backlog; [done|]. apply inflight_overdue; [done|].
    intros b Hb. apply Hc. lia. }
  intros [l|e]; [|by apply twp_ret].
  eapply twp_post; [|apply (twp_for_each _ _ _ backlog)]; [done|].
  intros [[o s] ct] l'. eapply twp_bind; [|intros x; apply twp_ret; intros tr db _ Hb; exact Hb].
  eapply twp_pre; [|apply (twp_union _ _ (fun x : list Z * Z * tid => let '(h, t, j) := x in
    fun tr db => (ct = Some t /\ wf_hash h /\ s = bytes_to_string h) /\ at_claim l' o h t j tr db))].
  - intros tr db _ Hb. destruct (Hb _ (or_introl eq_refl)) as (h & t & j & Hx & Ho & Hc & Ha).
    simpl in *. destruct Hx as (-> & Hh & ->). exists (h, t, j). split; [done|].
    split_and!; [|done..]. intros c Hin. apply Hb. by right.
  - intros [[h t] j]. apply twp_fact. intros (-> & Hh & ->). by apply twp_reconcile.
Qed.

Lemma twp_reconcile_job i tries ticks K :
  twp P i K (job_reconcile_inflight_payouts settings tries ticks) (fun _ _ _ => True).
Proof.
  apply (twp_pre _ _ (fun _ _ => True)); [done|].
  induction tries as [|m IH]; cbn [job_reconcile_inflight_payouts]; [by apply twp_ret|].
  apply (twp_bind _ _ _ _ _ (fun _ _ _ => True)); [apply twp_quiet; [apply quiet_lnd_new|apply calm_pure]|].
  intros [v|e]; [|done]. clear IH. induction ticks as [|k IH]; cbn [reconcile_ticks]; [by apply twp_ret|].
  eapply twp_bind; [apply twp_tick|]. by intros [].
Qed.

Lemma guar_bystander n p tr db ob db' :
  payout_ok settings tr db -> spares_payouts db db' -> (is_send ob = true -> db' = db) ->
  G_payout settings (n, OtherTask p) tr db ob db'.
Proof.
  intros Hv [Hk Hr] Hs. split_and!; [done| |by intros h o _|done].
  intros o. specialize (Hr o). unfold rows_step. destruct (row o db), (row o db'); try done.
  destruct Hr as (Hi & Hc & [Hst|(H1 & H2 & H3)]); (split; [done|]); [by apply rs_keep|by apply rs_other].
Qed.

Lemma spares_refl db : keys_ok db -> spares_payouts db db.
Proof.
  intros Hk. split; [done|]. intros o. destruct (row o db) as [r|]; [|done].
  split_and!; [done|done|by left].
Qed.

Lemma twp_bystander n p0 p :
  bystander p -> twp P (n, OtherTask p0) (fun _ _ => True) p (fun _ _ _ => True).
Proof.
  induction p as [a|R stmt k IH|R e k IH]; simpl; [done|..].
  - intros [Hs Hk]. split; intros r; (exists (fun _ _ => True);
      split_and!; [apply undisturbed_pure| |by apply IH]).
    + intros tr db Hv _ _ Hl. split; [|done]. apply guar_bystander; [done|apply Hs, Hv|done].
    + intros tr db Hv _ Hl. split; [|done]. apply guar_bystander; [done|apply spares_refl, Hv|done].
  - intros Hk r. exists (fun _ _ => True). split_and!; [apply undisturbed_pure| |by apply IH].
    intros tr db Hv _ Hl. split; [|done]. apply guar_bystander; [done|apply spares_refl, Hv|done].
Qed.

Lemma jobs_ok n job :
  allowed job -> twp P (n, job) (fun tr _ => unheard n tr) (body settings job) (fun _ _ _ => True).
Proof.
  destruct job as [beats order request_id|tries ticks|p]; simpl; intros Ha.
  - apply twp_pay_order.
  - apply twp_reconcile_job.
  - eapply twp_pre; [|by apply twp_bystander]. done.
Qed.

Lemma payout_sys_ok db s :
  no_payouts db -> payout_reach settings db s -> tsys_ok P s.
Proof.
  intros Hdb Hs.
  eapply (tsys_safe (body settings) allowed P); [|apply jobs_ok|by apply tsys_start, payout_init|exact Hs].
  intros i tr db0 o db'. exact (payout_kept settings i tr db0 o db').
Qed.

Lemma payout_reachable db s :
  no_payouts db -> payout_reach settings db s -> payout_ok settings (t_trace s) (t_db s).
Proof. intros Hdb Hs. by destruct (payout_sys_ok db s Hdb Hs). Qed.
End Steps.
