(* ===== verification/OrderPayoutSpec.v ===== *)
(** * What the payout of an order promises

    Theorems about every interleaving of the payout tasks, by the agreement of
    [PayoutPact], and about each of them alone. *)

From S2P Require Import Prelude Float64 Config BondTypes BondMath Effects Model.
From S2P Require Import Lightning Demo BondDb BondRelease OrderDb BondPayout BondInv Sequential.
From S2P Require Import OrderPayout Tasks PayoutPact PayoutTasks.

Open Scope Z_scope.

Section Interleavings.
Context `{Lib} `{PayoutLib} (settings : Settings).
Context {HL : LibLaws} {HX : HexLaws} {HP : PayoutLaws}.

(** C10: an escrow is paid out once. Whatever the calls of [do_payment],
    reconcilers, other tasks, crashes and answers of LND, of two payments that
    an order has outstanding at LND, or that LND reported as succeeded while
    outstanding, both are of the same invoice: a second invoice is never paid
    for one settled hold invoice. *)
Theorem escrow_paid_once db s o h1 h2 :
  no_payouts db -> payout_reach settings db s ->
  outstanding o h1 (t_trace s) = true \/ paid_for o h1 (t_trace s) = true ->
  outstanding o h2 (t_trace s) = true \/ paid_for o h2 (t_trace s) = true -> h1 = h2.
Proof.
  intros Hdb Hs H1 H2. pose proof (payout_reachable settings db s Hdb Hs) as Hv.
  apply (po_one _ _ _ Hv o).
  - destruct H1 as [H1|H1]; [done|]. by apply (paid_outstanding settings o h1 _ (po_law _ _ _ Hv)).
  - destruct H2 as [H2|H2]; [done|]. by apply (paid_outstanding settings o h2 _ (po_law _ _ _ Hv)).
Qed.

(** C12: a payment that may still settle keeps its claim. As long as LND has not
    reported it failed or unknown, the order carries the claim on the
    invoice's hash, which excludes every other dispatch and any change of the
    invoice, until the order is completed. A send that timed out or errored
    changes nothing of that. *)
Theorem outstanding_keeps_claim db s o h :
  no_payouts db -> payout_reach settings db s -> outstanding o h (t_trace s) = true ->
  exists r, In r (orders (t_db s)) /\ o_id r = o /\
    (o_payout_payment_hash r = Some (bytes_to_string h) \/
     o_payout_payment_hash r = None /\ o_status r = status_to_string Success).
Proof.
  intros Hdb Hs Ho. pose proof (payout_reachable settings db s Hdb Hs) as Hv.
  destruct (po_live _ _ _ Hv o h Ho) as (_ & r & E & Hc). destruct (row_key _ _ _ E) as [Hk Hin].
  exists r. by split_and!.
Qed.

(** C13: a completed order is a paid order. Every order with status [Success]
    had a claim on an invoice that LND reported as paid, in every
    interleaving. *)
Theorem completed_orders_paid db s r :
  no_payouts db -> payout_reach settings db s -> In r (orders (t_db s)) ->
  o_status r = status_to_string Success ->
  exists h i t, own (t_trace s) i (o_id r) (bytes_to_string h) t /\ paid_in h (t_trace s) = true.
Proof.
  intros Hdb Hs Hin Hst. pose proof (payout_reachable settings db s Hdb Hs) as Hv.
  apply (po_done _ _ _ Hv (o_id r) r); [|done]. apply row_in; [apply Hv|done].
Qed.

(** ** The escrow as its parties see it

    An order owes nothing yet, owes the buyer, is paying one invoice, or has
    paid. *)

Inductive EscrowView : Type :=
| NoEscrow
| Owed
| Paying (hash : string)
| PaidOut.

Definition escrow_view (o : Uuid) (db : DB) : EscrowView :=
  match row o db with
  | None => NoEscrow
  | Some r =>
      if str_eqb (o_status r) (status_to_string Success) then PaidOut
      else if is_settled r then
        match o_payout_payment_hash r with None => Owed | Some s => Paying s end
      else NoEscrow
  end.

(** The abstract machine: the debt opens, one invoice at a time is being paid,
    a payment is given up only when nothing of it is outstanding at LND, and
    the debt is closed by a payment LND confirmed. *)
Inductive escrow_step (o : Uuid) (tr : history) : EscrowView -> EscrowView -> Prop :=
| es_stay v : escrow_step o tr v v
| es_open : escrow_step o tr NoEscrow Owed
| es_pay s : escrow_step o tr Owed (Paying s)
| es_give_up h : outstanding o h tr = false ->
    escrow_step o tr (Paying (bytes_to_string h)) Owed
| es_close v : v = Owed \/ (exists s, v = Paying s) -> completed o tr ->
    escrow_step o tr v PaidOut.

Lemma view_success o db r : row o db = Some r -> is_success r -> escrow_view o db = PaidOut.
Proof. unfold escrow_view. intros -> Hs. by rewrite (proj2 (str_eqb_eq _ _) Hs). Qed.

Lemma view_open o db r : row o db = Some r -> ~ is_success r ->
  escrow_view o db = if is_settled r then
    match o_payout_payment_hash r with None => Owed | Some s => Paying s end else NoEscrow.
Proof.
  unfold escrow_view. intros -> Hs. destruct (str_eqb _ _) eqn:E; [|done].
  by apply str_eqb_eq in E.
Qed.

Lemma view_step i tr ob o r r' db db' :
  payout_ok settings tr db -> row o db = Some r -> row o db' = Some r' ->
  row_step settings i tr ob r r' ->
  escrow_step o tr (escrow_view o db) (escrow_view o db').
Proof.
  intros Hv E E' Hst. destruct (row_key _ _ _ E) as [Hid _].
  assert (Hm : forall s, o_payout_payment_hash r = Some s -> is_settled r = true \/ is_success r)
    by (intros s Hs; by destruct (po_marks _ _ _ Hv o r s E Hs)).
  destruct (decide (o_status r = status_to_string Success)) as [Hs|Hs].
  { rewrite (view_success o db r E Hs), (view_success o db' r' E'); [constructor|].
    destruct (row_status _ _ _ _ _ _ Hst) as [Ex|[Hx|[_ Hx]]]; [|done|done].
    unfold is_success. congruence. }
  assert (Hsame : o_status r' = o_status r -> ~ is_success r' /\ is_settled r' = is_settled r)
    by (unfold is_success, is_settled; intros ->; done).
  rewrite (view_open o db r E Hs).
  destruct Hst as [[Eh _] Est|[Eh _] Hset _ Hns|_ Hset Hsu Hc|h t Eh Hset Est _ Eh' _ _ _
    |u t0 t Eh _ Hset Est Eh' _ _ _ _|h t Eh _ _ Est Eh' _ _ Hj].
  - destruct (Hsame Est) as [Hn Hx]. rewrite (view_open o db' r' E' Hn), Hx, Eh. constructor.
  - rewrite Hset, (view_open o db' r' E' Hns), Eh.
    destruct (o_payout_payment_hash r) as [u|]; [|case_match; constructor].
    destruct (Hm u eq_refl); [congruence|done].
  - rewrite Hset, (view_success o db' r' E' Hsu). rewrite Hid in Hc.
    constructor; [|done]. destruct (o_payout_payment_hash r); [right; eauto|by left].
  - destruct (Hsame Est) as [Hn Hx]. rewrite (view_open o db' r' E' Hn), Hx, Hset, Eh, Eh'. constructor.
  - destruct (Hsame Est) as [Hn Hx]. rewrite (view_open o db' r' E' Hn), Hx, Hset, Eh, Eh'. constructor.
  - destruct (Hsame Est) as [Hn Hx]. rewrite (view_open o db' r' E' Hn), Hx, Eh, Eh'.
    destruct (Hm _ Eh) as [->|]; [|done]. rewrite Hid in Hj.
    destruct Hj as [Hj|]; [by constructor|done].
Qed.

(** C11: the payout implements the abstract escrow. In every reachable state,
    every step of any task, a crash included, takes the view of every order
    along one step of the abstract machine, or leaves it as it was. *)
Theorem payout_refines_escrow db s s' o :
  no_payouts db -> payout_reach settings db s -> tstep (body settings) allowed (pact_law settings) s s' ->
  escrow_step o (t_trace s) (escrow_view o (t_db s)) (escrow_view o (t_db s')).
Proof.
  intros Hdb Hs Hstep. pose proof (payout_reachable settings db s Hdb Hs) as Hv.
  destruct (tsys_step_guar _ _ _ s s' (payout_sys_ok settings db s Hdb Hs) Hstep)
    as [[_ ->]|(i & ob & _ & _ & Hk & Hr & _)]; [constructor|].
  specialize (Hr o). unfold rows_step in Hr.
  destruct (row o (t_db s)) as [r|] eqn:E, (row o (t_db s')) as [r'|] eqn:E'; [|done| |].
  - destruct Hr as [_ Hr]. by eapply view_step.
  - destruct Hr as [Hn Hns]. rewrite (view_open o (t_db s') r' E' Hns), Hn. unfold escrow_view at 1.
    rewrite E. case_match; constructor.
  - unfold escrow_view. rewrite E, E'. constructor.
Qed.

(** Swapping the invoice of an unclaimed order is the work of a bystander. *)
Lemma pay_new_invoice_spares order request_id :
  bystander (bind (pay_new_invoice order request_id) (fun _ => Ret tt)).
Proof.
  unfold pay_new_invoice, try, sql_or_db_error. simpl. split.
  - intros db Hk. destruct (same_rows_update
      (fun o => order_with_status (o_id order) (status_to_string SettledHoldInvoice) o &&
                is_none (o_payout_payment_hash o))
      (fun o => o <| o_buyer_invoice := o_buyer_invoice order |> <| o_payment_attempts := 0 |>) db Hk)
      as [Hk' Hr]; [done|].
    split; [done|]. intros o. specialize (Hr o).
    destruct (row o db), (row o _); try done. destruct Hr as (? & ? & ?). split_and!; [done|done|by left].
  - intros [v|e]; simpl; [|done]. case_match; [done|].
    destruct (get_buyer_pubkey _); simpl; done.
Qed.
End Interleavings.

(** ** One task alone *)

(** What mostro-core documents of [Order::count_failed_payment]: it marks the
    payment as failed. *)
Class CountLaw `{PayoutLib} : Prop :=
  count_marks : forall retries o, o_failed_payment (count_failed_payment retries o) = true.

(** The world while LND answers a payment of [pr] with [stream] and events can
    be published. *)
Record Delivers (env : Env DB ext) (pr : string) (stream : PaymentStream) (ev : option string) : Prop := {
  dl_guard : forall h secs tr, answer env _ (LndTrackPaymentBounded h secs) tr = Some (Ok None);
  dl_send : forall amt fee secs tr,
    answer env _ (LndSendPaymentV2 pr amt fee secs) tr = Ok stream;
  dl_paid : drain (ps_updates stream) = StreamSucceeded;
  dl_once : one_verdict stream = true;
  dl_publish : forall st o c tr, answer env _ (PublishOrderEvent st o c) tr = Ok ev
}.

Section Alone.
Context `{Lib} `{PayoutLib} (settings : Settings).
Context {HL : LibLaws} {HX : HexLaws} {HP : PayoutLaws}.
Context (env : Env DB ext) (now : Z) (HC : Coop env now).

(** The claim of order [o] on [s], on a settled order. *)
Definition claimed (o : Uuid) (s : string) (db : DB) : Prop :=
  exists r, row o db = Some r /\ is_settled r = true /\ o_payout_payment_hash r = Some s /\
    o_payout_claimed_at r = Some now.

Definition completed_row (o : Uuid) (db : DB) : Prop :=
  exists r, row o db = Some r /\ is_success r /\ o_payout_payment_hash r = None /\
    o_payout_claimed_at r = None.

Lemma holds_claim_row o s t r :
  o_id r = o -> o_payout_payment_hash r = Some s -> o_payout_claimed_at r = t ->
  holds_claim o s t r = true.
Proof.
  intros Hi Eh Et. unfold holds_claim, opt_str_eqb, opt_z_is.
  by rewrite Hi, N.eqb_refl, Eh, str_eqb_refl, Et, bool_decide_true.
Qed.

Lemma claimed_holds o s db r :
  row o db = Some r -> o_payout_payment_hash r = Some s -> o_payout_claimed_at r = Some now ->
  holds_claim o s (Some now) r = true.
Proof. intros E Eh Et. apply holds_claim_spec. by destruct (row_key _ _ _ E) as [-> _]. Qed.

Lemma runs_touch o s db :
  claimed o s db -> exists db', runs env (touch_order_payout_claim o s (Some now)) db (Ok (Some now)) db' /\
    claimed o s db'.
Proof.
  intros (r & E & Hs & Eh & Et). eexists. split.
  - unfold touch_order_payout_claim. eapply runs_bind; [apply runs_ask, HC|].
    eapply runs_try_ok; [apply runs_sql_db, HC|].
    replace (0 <? _) with true; [apply runs_ret|]. symmetry. apply Z.ltb_lt.
    eapply affected_pos; [exact E|]. cbn beta. by rewrite (claimed_holds o s db r E Eh Et), Hs.
  - unfold claimed, touch_payout_stmt. rewrite row_update, E by done. simpl.
    rewrite (claimed_holds o s db r E Eh Et), Hs. simpl. eexists. by split_and!.
Qed.

Lemma runs_permit beats d db :
  claimed (o_id (d_order d)) (d_payout_hash d) db ->
  exists db', runs env (await_permit beats d now) db (Some now) db' /\
    claimed (o_id (d_order d)) (d_payout_hash d) db'.
Proof.
  revert db. induction beats as [|n IH]; intros db Hc; cbn [await_permit].
  - exists db. split; [apply runs_ret|done].
  - destruct (runs_touch _ _ _ Hc) as (db1 & H1 & Hc1). destruct (IH db1 Hc1) as (db2 & H2 & Hc2).
    exists db2. split; [|done]. by eapply runs_bind; [exact H1|].
Qed.

(** Finalization of a settled order, and the release of its claim. *)
Lemma runs_finalize ev order buyer request_id s db r t :
  (forall st o c tr, answer env _ (PublishOrderEvent st o c) tr = Ok ev) ->
  row (o_id order) db = Some r -> is_settled r = true ->
  o_payout_payment_hash r = Some s -> o_payout_claimed_at r = t ->
  exists db1, runs env (payment_success order buyer request_id) db (Ok true) db1 /\
    completed_row (o_id order) (clear_payout_stmt (o_id order) s t db1).1.
Proof.
  intros Hpub E Hs Eh Et. destruct (row_key _ _ _ E) as [Hk _].
  set (u := match ev with
            | Some e => order <| o_status := status_to_string Success |> <| o_event_id := e |>
            | None => order <| o_status := status_to_string Success |> end).
  assert (Hu : o_id u = o_id order /\ o_status u = status_to_string Success) by (by destruct ev).
  destruct Hu as [Hi Hu]. eexists. split.
  - unfold payment_success, update_order_event, update_order_event_with_created_at.
    apply (runs_bind _ _ _ _ (Ok u) db).
    { eapply runs_bind; [apply runs_ask, Hpub|]. destruct ev; apply runs_ret. }
    eapply runs_try_ok; [apply runs_sql_db, HC|].
    destruct (_ =? 0); [apply runs_ret|].
    do 2 (eapply runs_bind; [by apply runs_ask; intros tr; destruct (answer _ _ _ _)|]).
    apply runs_ret.
  - unfold completed_row, clear_payout_stmt. rewrite row_update by done. unfold success_stmt.
    rewrite row_update, E by done. simpl. unfold order_with_status.
    rewrite Hi, Hk, N.eqb_refl, settled_spelling. unfold is_settled in Hs. rewrite Hs. simpl.
    rewrite holds_claim_row by done.
    eexists. split_and!; [done| |done..]. unfold is_success. simpl. done.
Qed.

Section Send.
Context (pr : string) (stream : PaymentStream) (ev : option string) (HD : Delivers env pr stream ev).

Lemma runs_watch d db :
  claimed (o_id (d_order d)) (d_payout_hash d) db ->
  exists db', runs env (for_each (ps_updates stream) (watch_update settings d now)) db tt db' /\
    completed_row (o_id (d_order d)) db'.
Proof.
  intros Hc. pose proof (dl_once _ _ _ _ HD) as Hone. apply Nat.leb_le in Hone.
  pose proof (dl_paid _ _ _ _ HD) as Hpaid. revert db Hc Hone Hpaid.
  induction (ps_updates stream) as [|u l IH]; [done|]. intros db Hc Hone Hpaid.
  cbn [for_each drain List.filter] in *. unfold final_status in Hone at 1. unfold watch_update at 1.
  assert (Hnil : forall l' d0, (length (List.filter final_status l') <= 0)%nat ->
    runs env (for_each l' (watch_update settings d now)) d0 tt d0).
  { clear. induction l' as [|u l' IH]; intros d0 Hf; [apply runs_ret|]. cbn [for_each List.filter] in *.
    unfold final_status in Hf at 1. unfold watch_update at 1.
    destruct (pu_status u) as [[]|]; simpl in Hf; try lia;
      (eapply runs_bind; [apply runs_ret|by apply IH]). }
  destruct (pu_status u) as [[]|]; simpl in Hone; try done;
    try (destruct (IH db Hc Hone Hpaid) as (db' & H1 & H2); exists db'; split; [|done];
         eapply runs_bind; [apply runs_ret|exact H1]).
  destruct Hc as (r & E & Hs & Eh & Et).
  destruct (runs_finalize ev (d_order d) (d_buyer_pubkey d) (d_request_id d) _ db r _
    (dl_publish _ _ _ _ HD) E Hs Eh Et) as (db1 & H1 & H2).
  eexists. split; [|exact H2].
  eapply runs_bind; [|apply Hnil; lia]. eapply runs_bind; [exact H1|]. cbn [unwrap_or_false].
  unfold clear_order_payout. eapply runs_bind; [|apply runs_ret].
  eapply runs_try_ok; [apply runs_sql_db, HC|apply runs_ret].
Qed.

(** C36: a payable order is paid. With LND delivering the payment, a call of
    [do_payment] for a settled order whose payout nobody holds, with an
    invoice for its amount, ends with the order completed and its claim
    released, however long the task queued for a permit. *)
Theorem pay_order_completes beats order request_id inv buyer r db tr :
  keys_ok db -> row (o_id order) db = Some r -> is_settled r = true ->
  o_payout_payment_hash r = None -> o_buyer_invoice order = Some pr ->
  is_lightning_address pr = false -> is_lnurl pr = false -> bolt11_from_str pr = Some inv ->
  payout_amount order <> 0 -> get_buyer_pubkey order = Ok buyer ->
  match amount_milli_satoshis inv with
  | Some m => m = msat_of_sat (u64_as_i64 (payout_amount order))
  | None => True
  end ->
  completed_row (o_id order) (run_db env (pay_order settings beats order request_id) db tr).
Proof.
  intros Hk E Hs En Hbi Hla Hlu Hinv Hamt Hb Hm.
  set (s := bytes_to_string (payment_hash inv)).
  set (d := mkDispatch order request_id pr (payout_amount order) s now buyer).
  set (db1 := (claim_payout_stmt (o_id order) s now db).1).
  assert (Hc : claimed (o_id order) s db1).
  { unfold claimed, db1, claim_payout_stmt. rewrite row_update, E by done. simpl.
    destruct (row_key _ _ _ E) as [-> _]. rewrite N.eqb_refl, En, Hs. simpl. eexists. by split_and!. }
  destruct (runs_permit beats d db1 Hc) as (db2 & H2 & Hc2).
  destruct (runs_touch _ _ _ Hc2) as (db3 & H3 & Hc3).
  destruct (runs_watch d db3 Hc3) as (db4 & H4 & Hdone).
  enough (runs env (pay_order settings beats order request_id) db tt db4) as Hr
    by (destruct (Hr tr) as [_ ->]; exact Hdone).
  unfold pay_order. eapply (runs_bind _ _ _ _ (Ok (Some d)) db1).
  - unfold do_payment. rewrite Hbi. eapply runs_try_ok; [apply runs_ret|]. cbv zeta.
    rewrite (proj2 (Z.eqb_neq _ _) Hamt).
    eapply runs_try_ok; [unfold resolve_payout_request; rewrite Hla, Hlu; apply runs_ret|].
    rewrite Hb. eapply runs_try_ok; [apply runs_ret|].
    eapply runs_try_ok; [eapply runs_bind; [apply runs_ask, HC|apply runs_ret]|].
    unfold decode_invoice. rewrite Hinv. eapply runs_try_ok; [apply runs_ret|]. fold s.
    eapply (runs_try_ok _ _ _ _ (Some now) db1); [|apply runs_ret].
    unfold claim_order_payout. eapply runs_bind; [apply runs_ask, HC|].
    eapply runs_try_ok; [apply runs_sql_db, HC|].
    replace (0 <? _) with true; [apply runs_ret|]. symmetry. apply Z.ltb_lt.
    eapply affected_pos; [exact E|]. cbn beta. destruct (row_key _ _ _ E) as [-> _].
    by rewrite N.eqb_refl, En, Hs.
  - unfold dispatch_payout. eapply runs_bind; [exact H2|]. cbv iota.
    eapply runs_bind; [exact H3|]. cbv iota.
    apply (runs_bind _ _ _ _ (Ok stream) db3).
    { unfold send_payment, decode_invoice. cbn [d_payment_request d]. rewrite Hinv.
      eapply runs_try_ok; [apply runs_ret|]. eapply runs_bind; [apply runs_ask, HD|]. cbv zeta.
      cbn [track_result]. cbn [d_amount d].
      replace (match amount_milli_satoshis inv with Some amt => _ | None => false end) with false
        by (destruct (amount_milli_satoshis inv); [|done]; subst; by rewrite Z.eqb_refl).
      eapply runs_bind; [apply runs_ask, HD|]. apply runs_ret. }
    cbv iota. eapply runs_bind; [exact H4|]. by destruct (ps_elapsed stream); apply runs_ret.
Qed.
End Send.

(** Free to be paid again: what the retry job looks for. *)
Definition rearmed (o : Uuid) (db : DB) : Prop :=
  exists r, row o db = Some r /\ In r (failed_payments db).

Lemma rearmed_row o db r :
  row o db = Some r -> is_settled r = true -> o_payout_payment_hash r = None ->
  o_failed_payment r = true -> rearmed o db.
Proof.
  intros E Hs Hn Hf. exists r. split; [done|]. apply filter_In.
  destruct (row_key _ _ _ E) as [_ Hin]. split; [done|]. by rewrite Hf, Hs, Hn.
Qed.

(** The bookkeeping of a failure is skipped, or writes its two columns. *)
Lemma runs_failure order request_id db :
  exists db', runs env (check_failure_retries_or_log settings order request_id) db tt db' /\
    (db' = db \/
     db' = (retries_stmt (count_failed_payment (payment_attempts (get_ln settings)) order) db).1).
Proof.
  unfold check_failure_retries_or_log, check_failure_retries.
  set (o := count_failed_payment _ order). cbv zeta.
  destruct (get_buyer_pubkey o) as [buyer|e].
  2:{ exists db. split; [|by left]. eapply runs_bind; [apply runs_try_err, runs_ret|apply runs_ret]. }
  match goal with |- exists db', runs env (bind (try _ (fun x => try (@?q x) ?k)) _) db tt db' /\ _ =>
    assert (Hq : (exists e, runs env (q buyer) db (Err e) db) \/ runs env (q buyer) db (Ok tt) db) end.
  { assert (Hm : forall a b c d e f, runs env (enqueue_order_msg a b c d e f ;;; Ret (Ok (E := MostroError) tt))%prog
      db (Ok tt) db).
    { intros. eapply runs_bind; [apply runs_ask; intros tr; by destruct (answer _ _ _ _)|apply runs_ret]. }
    cbv beta. repeat case_match; eauto using runs_ret. }
  destruct Hq as [[e Hq]|Hq]; eexists; (split; [eapply runs_bind; [|apply runs_ret];
    eapply runs_try_ok; [apply runs_ret|]|]); [by apply runs_try_err|by left| |by right].
  eapply runs_try_ok; [exact Hq|]. eapply runs_try_ok; [apply runs_sql_db, HC|apply runs_ret].
Qed.

Lemma rearmed_failure `{!CountLaw} o order request_id db r :
  row o db = Some r -> is_settled r = true -> o_payout_payment_hash r = None ->
  o_failed_payment r = true ->
  exists db', runs env (check_failure_retries_or_log settings order request_id) db tt db' /\
    rearmed o db'.
Proof.
  intros E Hs Hn Hf. destruct (runs_failure order request_id db) as (db' & Hr & Hdb).
  exists db'. split; [done|]. destruct Hdb as [->| ->]; [by eapply rearmed_row|].
  eapply rearmed_row.
  - unfold retries_stmt. rewrite row_update, E by done. simpl. reflexivity.
  - by destruct (N.eqb _ _).
  - by destruct (N.eqb _ _).
  - destruct (N.eqb _ _); [apply count_marks|done].
Qed.

(** The reconciler's branch for a payment LND does not have. *)
Lemma runs_gone `{!CountLaw} o s t r db :
  row o db = Some r -> is_settled r = true -> o_payout_payment_hash r = Some s ->
  o_payout_claimed_at r = t ->
  exists v db', runs env (bind (find_order_by_id o) (fun pre =>
     try (fail_order_payout o s t) (fun owned : bool =>
       if owned then match pre with
         | Ok (Some order) => bind (check_failure_retries_or_log settings order None) (fun _ => Ret (Ok tt))
         | _ => Ret (Ok tt) end
       else Ret (Ok tt)))) db v db' /\ rearmed o db'.
Proof.
  intros E Hs Eh Et. destruct (row_key _ _ _ E) as [Hid _].
  pose proof (holds_claim_row o s t r Hid Eh Et) as Hh.
  set (db1 := (fail_payout_stmt o s t db).1).
  destruct (rearmed_failure o r None db1 (r <| o_payout_payment_hash := None |>
    <| o_payout_claimed_at := None |> <| o_failed_payment := true |>)) as (db2 & Hb & Hre); [|done..|].
  { unfold db1, fail_payout_stmt. rewrite row_update, E by done. simpl. by rewrite Hh. }
  exists (Ok tt), db2. split; [|done].
  eapply (runs_bind _ _ _ _ (Ok (Some r)) db); [rewrite <- E; apply runs_query, HC|].
  eapply (runs_try_ok _ _ _ _ true db1); [|cbv iota; eapply runs_bind; [exact Hb|apply runs_ret]].
  eapply runs_try_ok; [apply runs_sql_db, HC|].
  replace (0 <? _) with true; [apply runs_ret|]. symmetry. apply Z.ltb_lt. by eapply affected_pos.
Qed.

(** The reconciler resolves a claim as LND says. On a settled order with a
    claim: a payment LND reports as succeeded completes the order and releases
    the claim; one it reports as failed, unknown or not found releases the
    claim and leaves the order among those the retry job pays; one in flight,
    or a lookup that failed, changes nothing. *)
Theorem reconcile_outcome `{!CountLaw} o h t r buyer ev a db tr :
  keys_ok db -> row o db = Some r -> is_settled r = true -> wf_hash h ->
  o_payout_payment_hash r = Some (bytes_to_string h) -> o_payout_claimed_at r = t ->
  get_buyer_pubkey r = Ok buyer ->
  (forall st o c tr, answer env _ (PublishOrderEvent st o c) tr = Ok ev) ->
  (forall tr, answer env _ (LndTrackPayment h) tr = a) ->
  let db' := run_db env (reconcile_inflight_payout settings o (bytes_to_string h) t) db tr in
  match track_result a with
  | Ok (Some PSucceeded) => completed_row o db'
  | Ok (Some PFailed) | Ok (Some PUnknown) | Ok None => rearmed o db'
  | Ok (Some PInFlight) | Err _ => db' = db
  end.
Proof.
  intros Hk E Hs [Hb Hlen] Eh Et Hbuyer Hpub Ha. cbv zeta. destruct (row_key _ _ _ E) as [Hid _].
  set (p := reconcile_inflight_payout _ _ _ _).
  enough (exists v db', runs env p db v db' /\ match track_result a with
    | Ok (Some PSucceeded) => completed_row o db'
    | Ok (Some PFailed) | Ok (Some PUnknown) | Ok None => rearmed o db'
    | Ok (Some PInFlight) | Err _ => db' = db end) as (v & db' & Hr & Hx)
    by (destruct (Hr tr) as [_ ->]; exact Hx).
  unfold p, reconcile_inflight_payout. rewrite from_hex_bytes, bool_decide_true by done.
  assert (Hlook : runs env (lookup_payment_status h) db (track_result a) db)
    by (eapply runs_bind; [apply runs_ask, Ha|apply runs_ret]).
  assert (Hfind : runs env (find_order_by_id o) db (Ok (Some r)) db).
  { rewrite <- E. apply runs_query, HC. }
  pose proof (runs_gone o _ t r db E Hs Eh Et) as Hgone.
  destruct (track_result a) as [[[]|]|e]; try (destruct Hgone as (v & db' & Hg1 & Hg2);
    exists v, db'; split; [eapply runs_bind; [exact Hlook|exact Hg1]|exact Hg2]);
    try (exists (Ok tt), db; split; [eapply runs_bind; [exact Hlook|apply runs_ret]|done]).
  rewrite <- Hid in E |- *. destruct (runs_finalize ev r buyer None _ db r _ Hpub E Hs Eh Et) as (db1 & Hf1 & Hf2).
  exists (Ok tt). eexists. split; [|exact Hf2]. rewrite Hid in *.
  eapply runs_bind; [exact Hlook|]. eapply runs_bind; [exact Hfind|]. cbv iota. rewrite Hbuyer.
  apply (runs_bind _ _ _ _ true db1); [eapply runs_bind; [exact Hf1|apply runs_ret]|].
  eapply runs_try_ok; [|apply runs_ret]. eapply runs_try_ok; [apply runs_sql_db, HC|apply runs_ret].
Qed.
End Alone.

(** ** A run in the concrete world *)

#[export] Instance demo_payout_laws : PayoutLaws.
Proof.
  split; [|done]. intros pr inv. simpl. unfold demo_bolt11.
  repeat case_match; try done; intros [= <-]; (split; [|done]);
    repeat constructor; unfold is_byte; lia.
Qed.

(** A settled order whose buyer gave an invoice without an amount. *)
Definition payout_order : Order :=
  (demo_order 7 SettledHoldInvoice) <| o_buyer_invoice := Some "inv-any" |>.
Definition payout_db : DB := mkDB [payout_order; demo_order 8 Pending] [] [] [].
Definition payout_job : PayoutJob := PayOrder 1 payout_order None.

Definition paid_run :=
  tadvance (demo_env 1000) 30 (0%nat, payout_job) (body demo_settings payout_job) payout_db [].
Definition paid_state : TSys DB ext PayoutJob :=
  mkTSys [(payout_job, paid_run.1.1)] paid_run.1.2 paid_run.2.

Lemma payout_db_fresh : no_payouts payout_db.
Proof.
  split; [by apply (bool_decide_eq_true_1 (NoDup _)); vm_compute|].
  intros r [<-|[<-|[]]]; (split; [done|]); by vm_compute.
Qed.

(** The law on the history of a task that ran alone and heard no bad news. *)
Definition no_bad_news (ob : obs DB ext) : bool :=
  on_ext (fun R (e : ext R) =>
    match e in ext R' return R' -> bool with
    | LndTrackPayment _ => fun _ => false
    | LndSendPaymentV2 _ _ _ _ => fun r =>
        match r with Ok s => match drain (ps_updates s) with StreamFailed _ => false | _ => true end
                   | Err _ => true end
    | _ => fun _ => true
    end) ob || match ob with ObsSql _ _ => true | _ => false end.

Fixpoint solo (n : nat) (tr : list (Tid PayoutJob * obs DB ext)) : bool :=
  match tr with
  | [] => true
  | (i, ob) :: tr' =>
      Nat.eqb i.1 n && no_bad_news ob && stream_ok ob &&
      match last_read n tr' with
      | Some t => clock_below (t + grace_secs demo_settings) tr'
      | None => true
      end && solo n tr'
  end.

Lemma solo_only n tr i ob : solo n tr = true -> In (i, ob) tr -> i.1 = n.
Proof.
  induction tr as [|[j ob'] tr IH]; [done|]. simpl.
  intros [[[[Hj%Nat.eqb_eq _]%andb_true_iff _]%andb_true_iff _]%andb_true_iff Hs]%andb_true_iff
    [[= <- <-]|Hin]; [done|by apply IH].
Qed.

Lemma solo_law n tr : solo n tr = true -> pact_law demo_settings tr.
Proof.
  induction tr as [|[i ob] tr IH]; [done|]. intros Hs. pose proof Hs as Hs'. simpl in Hs'.
  apply andb_true_iff in Hs' as [[[[Hj%Nat.eqb_eq Hb]%andb_true_iff Hst]%andb_true_iff Hc]%andb_true_iff Ht].
  split; [|by apply IH]. split; [|done|..].
  - intros h Hg. exfalso. destruct ob as [|R e r]; [done|]. destruct e; try done.
    simpl in *. apply andb_true_iff in Hg as [_ Hg]. destruct r as [s|]; [|done].
    revert Hb Hg. unfold no_bad_news, on_ext. by destruct (drain (ps_updates s)).
  - intros o s t _ Hr. rewrite Hj in Hr. by rewrite Hr in Hc.
  - intros t _ Hr. rewrite Hj in Hr. by rewrite Hr in Hc.
  - intros j o s s' t _ (ob' & Hin & _). rewrite Hj. by eapply solo_only.
Qed.

Lemma solo_reach db job env fuel r :
  allowed job -> r = tadvance env fuel (0%nat, job) (body demo_settings job) db [] ->
  pact_law demo_settings r.2 ->
  payout_reach demo_settings db (mkTSys [(job, r.1.1)] r.1.2 r.2).
Proof.
  intros Ha -> Hl. eapply rtc_l; [by apply (t_spawn _ _ _ [] db [] job)|].
  pose proof (tadvance_steps (body demo_settings) allowed (payout_pact demo_settings)
    ltac:(intros [i o] tr Hx; apply Hx) env fuel 0 job
    (body demo_settings job) [(job, body demo_settings job)] db [] eq_refl Hl) as Hr.
  destruct (tadvance _ _ _ _ _ _) as [[p' db'] tr']. exact Hr.
Qed.

Lemma paid_state_lawful : pact_law demo_settings paid_run.2.
Proof. apply (solo_law 0). vm_compute. reflexivity. Qed.

Lemma paid_state_reached : payout_reach demo_settings payout_db paid_state.
Proof.
  unfold paid_state.
  apply (solo_reach payout_db payout_job (demo_env 1000) 30); [exact I| |exact paid_state_lawful].
  unfold paid_run. reflexivity.
Qed.

Lemma escrow_paid_once_witness :
  paid_for 7 (demo_hash 3) (t_trace paid_state) = true /\ demo_hash 3 = demo_hash 3.
Proof.
  assert (paid_for 7 (demo_hash 3) (t_trace paid_state) = true) as Hp by by vm_compute.
  split; [done|].
  apply (escrow_paid_once demo_settings payout_db paid_state 7 (demo_hash 3) (demo_hash 3)
    payout_db_fresh paid_state_reached); by right.
Defined.

Lemma outstanding_keeps_claim_witness :
  exists r, In r (orders (t_db paid_state)) /\ o_id r = 7%N /\
    (o_payout_payment_hash r = Some (bytes_to_string (demo_hash 3)) \/
     o_payout_payment_hash r = None /\ o_status r = status_to_string Success).
Proof.
  apply (outstanding_keeps_claim demo_settings payout_db paid_state 7 (demo_hash 3)
    payout_db_fresh paid_state_reached). vm_compute. reflexivity.
Defined.

Lemma completed_orders_paid_witness :
  exists r, In r (orders (t_db paid_state)) /\ o_status r = status_to_string Success /\
  exists h i t, own (t_trace paid_state) i (o_id r) (bytes_to_string h) t /\
    paid_in h (t_trace paid_state) = true.
Proof.
  destruct (orders (t_db paid_state)) as [|r l] eqn:E; [by vm_compute in E|].
  assert (o_status r = status_to_string Success) as Hs.
  { apply (f_equal (fun l => match l with r :: _ => o_status r | [] => "" end)) in E.
    rewrite <- E. vm_compute. reflexivity. }
  exists r. split_and!; [by left|done|].
  apply (completed_orders_paid demo_settings payout_db paid_state r payout_db_fresh paid_state_reached);
    [rewrite E; by left|done].
Defined.

#[export] Instance demo_count_law : CountLaw.
Proof. done. Qed.

Definition paid_stream : PaymentStream :=
  mkPaymentStream [mkPaymentUpdate (Some PSucceeded) "" (bytes_to_string (demo_hash 3))] false.

Lemma demo_delivers now : Delivers (demo_env now) "inv-any" paid_stream (Some "event").
Proof. by split. Qed.

Lemma pay_order_completes_witness :
  completed_row 7 (run_db (demo_env 1000) (pay_order demo_settings 2 payout_order None) payout_db []).
Proof.
  apply (pay_order_completes demo_settings (demo_env 1000) 1000 (demo_coop 1000) "inv-any" paid_stream (Some "event")
    (demo_delivers 1000) 2 payout_order None (mkBolt11 (demo_hash 3) None Regtest 40 9000000000)
    "taker" payout_order payout_db []); try (vm_compute; reflexivity); [apply payout_db_fresh|by vm_compute].
Defined.

Definition stale_order : Order :=
  payout_order <| o_payout_payment_hash := Some (bytes_to_string (demo_hash 3)) |>
               <| o_payout_claimed_at := Some 100 |>.

Lemma reconcile_outcome_witness :
  rearmed 7 (run_db (demo_env 1000) (reconcile_inflight_payout demo_settings 7
               (bytes_to_string (demo_hash 3)) (Some 100)) (mkDB [stale_order] [] [] []) []).
Proof.
  apply (reconcile_outcome demo_settings (demo_env 1000) 1000 (demo_coop 1000) 7 (demo_hash 3) (Some 100)
    stale_order "taker" (Some "event") (Ok None) (mkDB [stale_order] [] [] []) []);
    try (vm_compute; reflexivity); try done.
  - by apply (bool_decide_eq_true_1 (NoDup _)); vm_compute.
  - by apply (invoice_hash_wf "inv-any" (mkBolt11 (demo_hash 3) None Regtest 40 9000000000)).
Defined.

(** A crash after the payment leaves the escrow paid out. *)
Lemma payout_refines_escrow_witness :
  escrow_step 7 (t_trace paid_state) (escrow_view 7 (t_db paid_state))
    (escrow_view 7 (t_db (mkTSys (map (fun t => (t.1, Ret tt)) (t_threads paid_state))
                            (t_db paid_state) (t_trace paid_state)))).
Proof.
  apply (payout_refines_escrow demo_settings payout_db paid_state
    (mkTSys (map (fun t => (t.1, Ret tt)) (t_threads paid_state)) (t_db paid_state) (t_trace paid_state))
    7 payout_db_fresh paid_state_reached).
  destruct paid_state as [ts db tr]. apply t_crash.
Defined.
