(* ===== verification/DevFeeSpec.v ===== *)
(** * The development fee is paid once

    The job of [DevFee] among other tasks: it is alone of its kind, the other
    tasks leave the fee columns of the orders alone, and a crash may stop it
    anywhere and start it again.  The steps of the job on a row, the invariant
    they keep, a specification of each of its functions, and the theorem. *)

From S2P Require Import Prelude Float64 Config BondTypes BondMath Effects Model.
From S2P Require Import Messages Lightning Demo BondDb OrderDb Disputes CancelOrder.
From S2P Require Import BondPayout BondInv OrderPayout Tasks PayoutPact PayoutTasks OrderPayoutSpec DevFee.

Open Scope Z_scope.

(** A hex decoder refuses the letters of a marker. *)
Class MarkerLaws `{Lib} : Prop :=
  marker_not_hex : forall h bs, from_hex h = Ok bs -> like_pending h = false.

Abbreviation fhist := (list (obs DB ext)).

(** ** Evidence *)

Section Evidence.
Context `{Lib}.

(** A recorded hash: not a marker, and not the empty text. *)
Definition real (h : string) : Prop := h <> "" /\ like_pending h = false.

(** The hash [h] took the place of a marker on order [i]. *)
Definition binds (i : Uuid) (h : string) (o : obs DB ext) : Prop :=
  exists marker n, 0 < n /\ like_pending marker = true /\ real h /\
    o = ObsSql (store_hash_stmt i h marker) (Ok n).

Definition bound (i : Uuid) (h : string) (tr : fhist) : Prop := exists o, In o tr /\ binds i h o.

(** LND answered the job's question about [h] with "failed". *)
Definition reported_failed (h : string) : obs DB ext -> bool :=
  on_ext (fun R (e : ext R) =>
    match e in ext R' return R' -> bool with
    | LndTrackPaymentBounded bs secs => fun r =>
        (secs =? 10) && bool_decide (from_hex h = Ok bs) &&
        match first_status r with Some PFailed => true | _ => false end
    | _ => fun _ => false
    end).

(** The hash [h] was recorded for order [i], and the job was not told since
    that its payment failed. *)
Fixpoint live (i : Uuid) (h : string) (tr : fhist) : Prop :=
  match tr with
  | [] => False
  | o :: tr' => reported_failed h o = false /\ (binds i h o \/ live i h tr')
  end.

(** LND reported the payment of [h] as succeeded. *)
Definition succeeded (h : string) (tr : fhist) : Prop :=
  exists bs, from_hex h = Ok bs /\ paid bs tr = true.

(** ** Assumptions *)

(** The updates LND sends about a payment name the hash of its invoice. *)
Definition names_hash (o : obs DB ext) : Prop :=
  match o with
  | ObsExt e r =>
      (match e in ext R return R -> Prop with
       | LndSendPaymentV2 pr _ _ _ => fun r =>
           match r, bolt11_from_str pr with
           | Ok s, Some inv =>
               Forall (fun u => pu_payment_hash u = bytes_to_string (payment_hash inv)) (ps_updates s)
           | _, _ => True
           end
       | _ => fun _ => True
       end) r
  | ObsSql _ _ => True
  end.

Definition fee_law (tr : fhist) : Prop := Forall names_hash tr.

(** The other tasks: rows stay, with the fee columns they have; the fee of an
    order the job is busy with stays; a new order is not paid. *)
Definition spares_fees (db db' : DB) : Prop :=
  keys_ok db' /\ forall i,
    match row i db, row i db' with
    | Some r, Some r' =>
        o_dev_fee_payment_hash r' = o_dev_fee_payment_hash r /\
        o_dev_fee_paid r' = o_dev_fee_paid r /\
        (o_dev_fee_payment_hash r <> None -> o_dev_fee r' = o_dev_fee r)
    | None, Some r' => o_dev_fee_paid r' = false
    | None, None => True
    | Some _, None => False
    end.

Fixpoint fee_bystander (p : M unit) : Prop :=
  match p with
  | Ret _ => True
  | Sql stmt k => (forall db, keys_ok db -> spares_fees db (stmt db).1) /\
                  forall r, fee_bystander (k r)
  | Ext e k => forall r, fee_bystander (k r)
  end.

(** ** Steps *)

(** What [o] did to the database. *)
Definition effect (db : DB) (o : obs DB ext) (db' : DB) : Prop :=
  match o with
  | ObsSql stmt (Ok r) => r = (stmt db).2 /\ db' = (stmt db).1
  | _ => db' = db
  end.

(** Absent, empty, or a marker. *)
Definition unrecorded (r : Order) : Prop :=
  match o_dev_fee_payment_hash r with Some h => ~ real h | None => True end.

(** What the job may do to the row of order [i]: move between markers; record
    a hash in place of a marker; drop a hash whose payment failed; mark the
    order as paid with a hash whose payment succeeded. *)
Inductive fee_step (i : Uuid) (o : obs DB ext) (tr : fhist) (r r' : Order) : Prop :=
| fs_keep : o_dev_fee_payment_hash r' = o_dev_fee_payment_hash r ->
    o_dev_fee_paid r' = o_dev_fee_paid r -> fee_step i o tr r r'
| fs_marker : o_dev_fee_paid r = false -> o_dev_fee_paid r' = false -> unrecorded r ->
    unrecorded r' -> fee_step i o tr r r'
| fs_store h : o_dev_fee_paid r = false -> o_dev_fee_paid r' = false -> unrecorded r ->
    o_dev_fee_payment_hash r' = Some h -> fee_step i o tr r r'
| fs_drop h : o_dev_fee_paid r = false -> o_dev_fee_paid r' = false ->
    o_dev_fee_payment_hash r = Some h -> o_dev_fee_payment_hash r' = None ->
    ~ live i h tr -> fee_step i o tr r r'
| fs_paid h : o_dev_fee_paid r = false -> o_dev_fee_paid r' = true ->
    o_dev_fee_payment_hash r' = Some h -> succeeded h (o :: tr) -> fee_step i o tr r r'.

(** The payment of [pr] is that of the hash recorded for an unpaid order, and
    it is for the order's fee. *)
Definition payable (pr : string) (amt : option Z) (tr : fhist) (db : DB) : Prop :=
  exists i inv r,
    bolt11_from_str pr = Some inv /\ row i db = Some r /\ o_dev_fee_paid r = false /\
    o_dev_fee_payment_hash r = Some (bytes_to_string (payment_hash inv)) /\
    bound i (bytes_to_string (payment_hash inv)) tr /\
    match amount_milli_satoshis inv with
    | Some m => m = msat_of_sat (o_dev_fee r) /\ amt = None
    | None => amt = Some (o_dev_fee r)
    end.

Definition send_payable (o : obs DB ext) (tr : fhist) (db : DB) : Prop :=
  match o with
  | ObsExt e _ => match e with LndSendPaymentV2 pr amt _ _ => payable pr amt tr db | _ => True end
  | ObsSql _ _ => True
  end.

Definition fee_rows (o : obs DB ext) (tr : fhist) (db db' : DB) : Prop := forall i,
  match row i db, row i db' with
  | Some r, Some r' => fee_step i o tr r r'
  | None, None => True
  | _, _ => False
  end.

Definition G_fee (tr : fhist) (db : DB) (o : obs DB ext) (db' : DB) : Prop :=
  keys_ok db' /\ effect db o db' /\ fee_rows o tr db db' /\ send_payable o tr db.

Definition G_other (tr : fhist) (db : DB) (o : obs DB ext) (db' : DB) : Prop :=
  spares_fees db db' /\ effect db o db'.

(** ** The invariant *)

Record fees_ok (tr : fhist) (db : DB) : Prop := {
  fo_keys : keys_ok db;
  fo_law : fee_law tr;
  fo_live : forall i h, live i h tr -> real h /\
    exists r, row i db = Some r /\ (o_dev_fee_paid r = true \/ o_dev_fee_payment_hash r = Some h);
  fo_paid : forall i r, row i db = Some r -> o_dev_fee_paid r = true ->
    exists h, o_dev_fee_payment_hash r = Some h /\ succeeded h tr
}.

Definition fee_others : Spec DB ext := handler_spec fee_law fees_ok G_other G_fee.
Definition fee_job : Spec DB ext := sched_spec fee_law fees_ok G_other G_fee.

Lemma has_fee_hash_spec h r : has_fee_hash h r = true <-> o_dev_fee_payment_hash r = Some h.
Proof. apply bool_decide_eq_true. Qed.

(** A recording shows in the table. *)
Lemma binds_effect i h o db db' :
  keys_ok db -> effect db o db' -> binds i h o ->
  real h /\ exists r r', row i db = Some r /\ row i db' = Some r' /\ unrecorded r /\
    o_dev_fee_paid r' = false /\ o_dev_fee_payment_hash r' = Some h.
Proof.
  intros Hk He (m & n & Hn & Hm & Hh & ->). destruct He as [-> ->]. split; [done|].
  unfold store_hash_stmt in Hn |- *. apply (affected_row _ _ i) in Hn as (r & Er & Hp); [|done|].
  2: { intros r. rewrite !andb_true_iff, N.eqb_eq. tauto. }
  exists r, (r <| o_dev_fee_payment_hash := Some h |>). rewrite !andb_true_iff in Hp.
  destruct Hp as [[Hi Hp] Hf]. apply has_fee_hash_spec in Hf as Ef. split_and!; try done.
  - rewrite row_update, Er by done. simpl. by rewrite Hi, Hp, Hf.
  - unfold unrecorded. rewrite Ef. intros [_ Hr]. by rewrite Hr in Hm.
  - simpl. by apply negb_true_iff.
Qed.

Lemma paid_cons o bs (tr : fhist) : paid bs tr = true -> paid bs (o :: tr) = true.
Proof. unfold paid, seen. simpl. intros ->. apply orb_true_r. Qed.

Lemma succeeded_cons o h tr : succeeded h tr -> succeeded h (o :: tr).
Proof. intros (bs & E & Hp). exists bs. split; [done|by apply paid_cons]. Qed.

Lemma fee_inv_job tr db o db' :
  fees_ok tr db -> fee_law (o :: tr) -> G_fee tr db o db' -> fees_ok (o :: tr) db'.
Proof.
  intros [Hk _ Hl Hp] Hlaw (Hk' & He & Hr & _). split; [done|done| |].
  - intros i h [_ [Hb|Hlive]].
    { destruct (binds_effect _ _ _ _ _ Hk He Hb) as (Hh & r & r' & _ & E' & _ & _ & Ef). eauto. }
    destruct (Hl i h Hlive) as (Hh & r & E & Hc). split; [done|]. specialize (Hr i). rewrite E in Hr.
    destruct (row i db') as [r'|]; [|done]. exists r'. split; [done|].
    destruct Hr as [E1 E2|E1 E2 Hu _|h1 E1 E2 Hu E3|h1 E1 E2 E3 E4 Hd|h1 E1 E2 E3 Hs];
      rewrite ?E1, ?E2 in *; try (by left); destruct Hc as [|Hc]; auto; try done.
    + unfold unrecorded in Hu. by rewrite Hc in Hu.
    + unfold unrecorded in Hu. by rewrite Hc in Hu.
    + rewrite Hc in E3. by injection E3 as <-.
  - intros i r' E' Hp'. specialize (Hr i). rewrite E' in Hr.
    destruct (row i db) as [r|] eqn:E; [|done].
    destruct Hr as [E1 E2|E1 E2 Hu _|h1 E1 E2 Hu E3|h1 E1 E2 E3 E4 Hd|h1 E1 E2 E3 Hs]; try congruence.
    + rewrite E2 in Hp'. destruct (Hp i r E Hp') as (h & Eh & Hs). exists h.
      rewrite E1. split; [done|by apply succeeded_cons].
    + eauto.
Qed.

(** The other tasks record nothing. *)
Lemma other_no_bind tr db o db' i h : keys_ok db -> G_other tr db o db' -> ~ binds i h o.
Proof.
  intros Hk [[_ Hs] He] Hb.
  destruct (binds_effect _ _ _ _ _ Hk He Hb) as (Hh & r & r' & E & E' & Hu & _ & Ef).
  specialize (Hs i). rewrite E, E' in Hs. destruct Hs as [E1 _].
  unfold unrecorded in Hu. by rewrite <- E1, Ef in Hu.
Qed.

Lemma fee_inv_other tr db o db' :
  fees_ok tr db -> fee_law (o :: tr) -> G_other tr db o db' -> fees_ok (o :: tr) db'.
Proof.
  intros [Hk _ Hl Hp] Hlaw HG. pose proof HG as [[Hk' Hs] He]. split; [done|done| |].
  - intros i h [_ [Hb|Hlive]]; [by apply (other_no_bind _ _ _ _ _ _ Hk HG) in Hb|].
    destruct (Hl i h Hlive) as (Hh & r & E & Hc). split; [done|]. specialize (Hs i). rewrite E in Hs.
    destruct (row i db') as [r'|]; [|done]. destruct Hs as (E1 & E2 & _).
    exists r'. by rewrite E1, E2.
  - intros i r' E' Hp'. specialize (Hs i). rewrite E' in Hs.
    destruct (row i db) as [r|] eqn:E; [|congruence]. destruct Hs as (E1 & E2 & _).
    rewrite E2 in Hp'. destruct (Hp i r E Hp') as (h & Eh & Hsu). exists h.
    rewrite E1. split; [done|by apply succeeded_cons].
Qed.

Lemma fee_inv_kept : kept fee_others (rely fee_others) fees_ok.
Proof. intros tr db o db' Hv Hl [HG|HG] _; [by eapply fee_inv_other|by eapply fee_inv_job]. Qed.
End Evidence.

(** ** The job *)

Section Job.
Context `{Lib} (settings : Settings) (node_pubkey : string).
Context {HL : LibLaws} {HX : HexLaws} {HP : PayoutLaws} {HM : MarkerLaws}.

Lemma pure_any (Q : Prop) (tr : fhist) (db : DB) : Q -> Q /\ anything tr db.
Proof. done. Qed.

Lemma stable_any (Q : Prop) : stable fee_job (fun tr db => Q /\ anything tr db).
Proof. by intros tr db o db' _ _ _ [HQ _]. Qed.

Lemma stable_succeeded h : stable fee_job (fun tr _ => succeeded h tr).
Proof. intros tr db o db' _ _ _ Hs. by apply succeeded_cons. Qed.

Lemma stable_dead h : stable fee_job (fun tr _ => forall i, ~ live i h tr).
Proof.
  intros tr db o db' Hv _ HG Hd i [_ [Hb|Hl]]; [|by apply (Hd i)].
  exact (other_no_bind tr db o db' i h (fo_keys _ _ Hv) HG Hb).
Qed.

(** The row of [i] is unpaid, with the recorded hash [h] and the fee [d]. *)
Definition holding (i : Uuid) (h : string) (d : Z) (tr : fhist) (db : DB) : Prop :=
  bound i h tr /\ exists r, row i db = Some r /\ o_dev_fee_paid r = false /\
    o_dev_fee_payment_hash r = Some h /\ o_dev_fee r = d.

Lemma bound_cons o i h tr : bound i h tr -> bound i h (o :: tr).
Proof. intros (o' & Hin & Hb). exists o'. split; [by right|done]. Qed.

Lemma holding_cons o i h d tr db : holding i h d tr db -> holding i h d (o :: tr) db.
Proof. intros [Hb Hr]. split; [by apply bound_cons|done]. Qed.

Lemma stable_holding i h d : stable fee_job (holding i h d).
Proof.
  intros tr db o db' _ _ [[_ Hs] _] [Hb (r & E & Ep & Eh & Ed)]. split; [by apply bound_cons|].
  specialize (Hs i). rewrite E in Hs. destruct (row i db') as [r'|]; [|done].
  destruct Hs as (E1 & E2 & E3). exists r'. rewrite E1, E2, E3 by congruence. done.
Qed.

Hint Resolve stable_any stable_succeeded stable_dead stable_holding : core.

(** *** Rules *)

Lemma fee_rows_same o tr db : fee_rows o tr db db.
Proof. intros i. destruct (row i db) as [r|]; [by apply fs_keep|done]. Qed.

Lemma wp_read {R} (stmt : DB -> DB * R) (K : fhist -> DB -> Prop) (Post : result R string -> fhist -> DB -> Prop) :
  (forall db, (stmt db).1 = db) -> (forall r, stable fee_job (Post r)) ->
  (forall tr db, fees_ok tr db -> K tr db -> Post (Ok (stmt db).2) (ObsSql stmt (Ok (stmt db).2) :: tr) db) ->
  (forall e tr db, K tr db -> Post (Err e) (ObsSql stmt (Err e) :: tr) db) ->
  wp fee_job K (sql stmt) Post.
Proof.
  intros Hr Hs Hok Herr. apply wp_sql; [done| |].
  - intros tr db Hv HK _. split; [|rewrite Hr; by apply Hok].
    split_and!; [rewrite Hr; apply Hv|done|rewrite Hr; apply fee_rows_same|done].
  - intros e tr db Hv HK _. split; [|by apply Herr].
    split_and!; [apply Hv|done|apply fee_rows_same|done].
Qed.

Lemma wp_write p f (K : fhist -> DB -> Prop) (Post : result Z string -> fhist -> DB -> Prop) :
  (forall r, o_id (f r) = o_id r) -> (forall r, stable fee_job (Post r)) ->
  (forall tr db i r, fees_ok tr db -> K tr db -> row i db = Some r -> p r = true ->
     fee_step i (ObsSql (update_orders p f) (Ok (update_orders p f db).2)) tr r (f r)) ->
  (forall tr db, fees_ok tr db -> K tr db ->
     Post (Ok (update_orders p f db).2)
       (ObsSql (update_orders p f) (Ok (update_orders p f db).2) :: tr) (update_orders p f db).1) ->
  (forall e tr db, K tr db -> Post (Err e) (ObsSql (update_orders p f) (Err e) :: tr) db) ->
  wp fee_job K (sql (update_orders p f)) Post.
Proof.
  intros Hf Hs Hstep Hok Herr. apply wp_sql; [done| |].
  - intros tr db Hv HK _. split; [|by apply Hok].
    split_and!; [apply keys_update, Hv; done|done| |done].
    intros i. rewrite row_update by done. destruct (row i db) as [r|] eqn:E; simpl; [|done].
    destruct (p r) eqn:Ep; [by eapply Hstep|by apply fs_keep].
  - intros e tr db Hv HK _. split; [|by apply Herr].
    split_and!; [apply Hv|done|apply fee_rows_same|done].
Qed.

(** A write after which nothing has to be known. *)
Lemma wp_last p f (K : fhist -> DB -> Prop) :
  (forall r, o_id (f r) = o_id r) ->
  (forall tr db i r, fees_ok tr db -> K tr db -> row i db = Some r -> p r = true ->
     fee_step i (ObsSql (update_orders p f) (Ok (update_orders p f db).2)) tr r (f r)) ->
  wp fee_job K (sql (update_orders p f)) (fun _ => anything).
Proof. intros Hf Hstep. apply wp_write; try done. Qed.

Definition not_send {R} (e : ext R) : Prop :=
  match e with LndSendPaymentV2 _ _ _ _ => False | _ => True end.

Lemma wp_ask {R} (e : ext R) (K : fhist -> DB -> Prop) (Post : R -> fhist -> DB -> Prop) :
  not_send e -> (forall r, stable fee_job (Post r)) ->
  (forall r tr db, K tr db -> Post r (ObsExt e r :: tr) db) -> wp fee_job K (call e) Post.
Proof.
  intros He Hs Hok. apply wp_call; [done|]. intros r tr db Hv HK _. split; [|by apply Hok].
  split_and!; [apply Hv|done|apply fee_rows_same|]. by destruct e.
Qed.

Lemma wp_ask_any {R} (e : ext R) (K : fhist -> DB -> Prop) :
  not_send e -> wp fee_job K (call e) (fun _ => anything).
Proof. intros He. by apply wp_ask. Qed.

Lemma wp_fold_each {X T} (body : T -> X -> M T) (Q : X -> Prop) l s :
  Forall Q l -> (forall s' x, Q x -> wp fee_job anything (body s' x) (fun _ => anything)) ->
  wp fee_job anything (fold_each l s body) (fun _ => anything).
Proof.
  intros Hl Hb. revert s. induction Hl as [|x l Hx Hl IH]; intros s; simpl; [done|].
  eapply wp_bind; [by apply Hb|]. intros s'. apply IH.
Qed.

Lemma wp_for_each_all {X} (body : X -> M unit) (Q : X -> Prop) l :
  Forall Q l -> (forall x, Q x -> wp fee_job anything (body x) (fun _ => anything)) ->
  wp fee_job anything (for_each l body) (fun _ => anything).
Proof.
  intros Hl Hb. induction Hl as [|x l Hx Hl IH]; simpl; [done|].
  eapply wp_bind; [by apply Hb|]. intros []. apply IH.
Qed.

(** A query whose rows all satisfy [Q]. *)
Lemma wp_query_all {A} (sel : DB -> list Order) (Q : Order -> Prop)
    (f : result (list Order) string -> M A) (Post : A -> fhist -> DB -> Prop) :
  (forall db, Forall Q (sel db)) ->
  (forall l, Forall Q l -> wp fee_job anything (f (Ok l)) Post) ->
  (forall e, wp fee_job anything (f (Err e)) Post) ->
  wp fee_job anything (bind (sql (query sel)) f) Post.
Proof.
  intros HQ Hok Herr.
  eapply (wp_bind _ _ _ _ (fun r tr db => match r with Ok l => Forall Q l | Err _ => True end /\
                                          anything tr db)).
  - apply wp_read; try done. intros tr db _ _. split; [apply HQ|done].
  - intros [l|e]; apply wp_fact; auto.
Qed.

(** *** What LND says of a payment *)

Definition state_ok (order : Order) (st : DevFeePaymentState) (tr : fhist) (_ : DB) : Prop :=
  match st with
  | DevSucceeded => exists h, o_dev_fee_payment_hash order = Some h /\ succeeded h tr
  | DevFailed => exists h, o_dev_fee_payment_hash order = Some h /\ forall i, ~ live i h tr
  | _ => True
  end.

Lemma stable_state order st : stable fee_job (state_ok order st).
Proof.
  intros tr db o db' Hv Hl HG. destruct st; simpl; try done; intros (h & E & Hs); exists h; (split; [done|]).
  - by apply succeeded_cons.
  - exact (stable_dead h tr db o db' Hv Hl HG Hs).
Qed.

Lemma wp_status order K :
  wp fee_job K (check_dev_fee_payment_status order) (state_ok order).
Proof.
  unfold check_dev_fee_payment_status.
  destruct (o_dev_fee_payment_hash order) as [h|] eqn:Eh; [|done].
  destruct (starts_pending h); [done|]. destruct (from_hex h) as [bs|] eqn:Ex; [|done].
  eapply (wp_bind _ _ _ _ (fun r => state_ok order (dev_fee_state (first_status r)))); [|by intros r tr db _ Hs].
  apply wp_ask; [done|intros; apply stable_state|]. intros r tr db _.
  destruct (first_status r) as [[]|] eqn:Er; simpl; try done; exists h; (split; [done|]).
  - exists bs. split; [done|]. unfold paid, seen. simpl. unfold obs_paid, obs_final. simpl.
    rewrite bool_decide_true by done. destruct r as [[[[st|]|]|]|]; try done.
    simpl in *. injection Er as ->. done.
  - intros i [Hr _]. unfold reported_failed in Hr. simpl in Hr.
    by rewrite bool_decide_true, Er in Hr by done.
Qed.

(** *** Phases 1 to 3 *)

(** Resetting a marker: a paid order carries none. *)
Lemma paid_unmarked tr db i r marker :
  fees_ok tr db -> row i db = Some r -> o_dev_fee_payment_hash r = Some marker ->
  like_pending marker = true -> o_dev_fee_paid r = false.
Proof.
  intros Hv E Eh Hm. apply not_true_is_false. intros Hp.
  destruct (fo_paid _ _ Hv i r E Hp) as (h & Eh' & bs & Ex & _).
  rewrite Eh in Eh'. injection Eh' as <-. by rewrite (marker_not_hex _ _ Ex) in Hm.
Qed.

Lemma marked_unrecorded r marker :
  o_dev_fee_payment_hash r = Some marker -> like_pending marker = true -> unrecorded r.
Proof. unfold unrecorded. intros -> Hm [_ Hr]. by rewrite Hr in Hm. Qed.

Ltac stmt_case :=
  intros tr db j r Hv HK E Hp; rewrite ?andb_true_iff, ?negb_true_iff, ?N.eqb_eq, ?has_fee_hash_spec in Hp;
  destruct_and? Hp; subst.

Lemma wp_reset_marker i marker K :
  like_pending marker = true ->
  wp fee_job K (sql (reset_marker_stmt i marker)) (fun _ => anything).
Proof.
  intros Hm. apply wp_last; [done|]. stmt_case.
  apply fs_marker; [by eapply paid_unmarked|done|by eapply marked_unrecorded|done].
Qed.

Lemma wp_release_marker i marker K :
  like_pending marker = true ->
  wp fee_job K (release_pending_claim i marker) (fun _ => anything).
Proof.
  intros Hm. eapply wp_bind; [|done]. apply wp_last; [done|]. stmt_case.
  assert (o_dev_fee_paid r = false) as Ep by (by eapply paid_unmarked).
  apply fs_marker; [done|done|by eapply marked_unrecorded|done].
Qed.

Lemma wp_mark_paid i h K :
  (forall tr db, K tr db -> succeeded h tr) ->
  wp fee_job K (sql (mark_paid_stmt i h)) (fun _ => anything).
Proof.
  intros HK. apply wp_last; [done|]. intros tr db j r Hv Hs E Hp.
  rewrite !andb_true_iff, negb_true_iff, has_fee_hash_spec in Hp. destruct Hp as [[_ Hp] Hh].
  apply (fs_paid _ _ _ _ _ h); [done|done|done|]. apply succeeded_cons. by eapply HK.
Qed.

Lemma wp_drop p f h K :
  (forall r, p r = true -> o_dev_fee_paid r = false /\ o_dev_fee_payment_hash r = Some h) ->
  (forall r, o_id (f r) = o_id r /\ o_dev_fee_payment_hash (f r) = None /\
     (o_dev_fee_paid r = false -> o_dev_fee_paid (f r) = false)) ->
  (forall tr db, K tr db -> forall i, ~ live i h tr) ->
  wp fee_job K (sql (update_orders p f)) (fun _ => anything).
Proof.
  intros Hp Hf HK. apply wp_last; [apply Hf|]. intros tr db j r Hv Hk E Hr.
  destruct (Hp r Hr) as [Ep Eh]. destruct (Hf r) as (_ & En & Eu).
  apply (fs_drop _ _ _ _ _ h); auto. by eapply HK.
Qed.

Lemma wp_cleanup : wp fee_job anything cleanup_stale_pending_markers (fun _ => anything).
Proof.
  eapply wp_bind; [by apply wp_ask_any|]. intros now. cbv beta.
  apply (wp_query_all _ (fun o => like_pending (default "" (o_dev_fee_payment_hash o)) = true)); [| |done].
  - intros db. apply Forall_forall. intros o. rewrite list_elem_of_In. unfold pending_markers.
    rewrite filter_In. intros [_ Hm]. by destruct (o_dev_fee_payment_hash o).
  - intros l Hl. eapply wp_for_each_all; [exact Hl|]. intros o Hm. cbv beta zeta.
    destruct (is_stale _ _); [|done]. eapply wp_bind; [by apply wp_reset_marker|done].
Qed.

Lemma wp_verify confirmed : wp fee_job anything (verify_confirmed_orders confirmed) (fun _ => anything).
Proof.
  apply (wp_query_all _ (fun _ => True)); [by intros; apply Forall_true| |done].
  intros l Hl. eapply wp_fold_each; [exact Hl|]. intros c o _. cbv beta.
  destruct (contains _ _); [done|]. eapply wp_bind; [apply wp_status|done].
Qed.

Lemma wp_audit i h K : wp fee_job K (audit i h) (fun _ => anything).
Proof.
  eapply (wp_bind _ _ _ _ (fun _ => anything)); [by apply wp_read|].
  intros [[order|]|]; [|done..]. eapply wp_bind; [by apply wp_ask_any|done].
Qed.

Lemma wp_confirm i c K : wp fee_job K (confirm_if_paid i c) (fun _ => anything).
Proof. eapply (wp_bind _ _ _ _ (fun _ => anything)); [by apply wp_read|done]. Qed.

(** What follows an answer of LND: with success, the write that marks the
    order; with failure, the one that drops the hash. *)
Lemma wp_recover confirmed order :
  wp fee_job anything (recover_payment confirmed order) (fun _ => anything).
Proof.
  unfold recover_payment. cbv zeta. eapply wp_bind; [apply wp_status|]. intros []; [| |..|]; try done.
  - apply wp_union. intros h. apply wp_fact. intros ->. cbn [default].
    eapply wp_bind; [by apply wp_mark_paid|]. intros [n|e]; [|done].
    destruct (0 <? n); [|apply wp_confirm]. eapply wp_bind; [apply wp_audit|done].
  - apply wp_union. intros h. apply wp_fact. intros ->. cbn [default]. eapply wp_bind; [|done].
    apply (wp_drop _ _ h); [|done|done].
    intros r. rewrite !andb_true_iff, negb_true_iff, has_fee_hash_spec. tauto.
Qed.

Lemma wp_recovery confirmed :
  wp fee_job anything (recover_partial_payments confirmed) (fun _ => anything).
Proof.
  apply (wp_query_all _ (fun _ => True)); [by intros; apply Forall_true| |done].
  intros l Hl. eapply wp_fold_each; [exact Hl|]. intros c o _. apply wp_recover.
Qed.

(** *** Phase 4 *)

Lemma invoice_hash_real pr inv :
  bolt11_from_str pr = Some inv -> real (bytes_to_string (payment_hash inv)).
Proof.
  intros E. destruct (invoice_hash_wf _ _ E) as [Hb Hlen]. pose proof (from_hex_bytes _ Hb) as Ex.
  split; [|by eapply marker_not_hex]. intros E0. rewrite E0 in Ex.
  pose proof (from_hex_bytes [] (List.Forall_nil _)) as E1. change (bytes_to_string []) with "" in E1.
  rewrite E1 in Ex. injection Ex as Ex. by rewrite <- Ex in Hlen.
Qed.

Lemma final_update_spec us h :
  final_update us = Ok h -> drain us = StreamSucceeded /\ exists u, In u us /\ pu_payment_hash u = h.
Proof.
  induction us as [|u us IH]; [done|]. simpl.
  destruct (pu_status u) as [[]|]; try done;
    try (intros Hf; destruct (IH Hf) as (Hd & u' & Hin & Eu); split; [done|]; exists u'; auto).
  intros [= <-]. split; [done|]. exists u. auto.
Qed.

(** A payment that LND reports as succeeded in its stream. *)
Definition stream_ok_fee (r : result PaymentStream string) (tr : fhist) (_ : DB) : Prop :=
  match r with
  | Ok s => forall h, final_update (ps_updates s) = Ok h -> succeeded h tr
  | Err _ => True
  end.

Lemma stream_named pr inv amt fee secs s tr db :
  bolt11_from_str pr = Some inv -> fee_law (ObsExt (LndSendPaymentV2 pr amt fee secs) (Ok s) :: tr) ->
  stream_ok_fee (Ok s) (ObsExt (LndSendPaymentV2 pr amt fee secs) (Ok s) :: tr) db.
Proof.
  intros E [Hn _]%Forall_cons h Hf. simpl in Hn. rewrite E in Hn.
  destruct (final_update_spec _ _ Hf) as (Hd & u & Hin & <-).
  rewrite Forall_forall in Hn. apply list_elem_of_In, Hn in Hin as ->.
  exists (payment_hash inv). split; [by apply from_hex_bytes, (invoice_hash_wf _ _ E)|].
  unfold paid, seen, obs_paid, obs_final. simpl. unfold pays. rewrite E, Hd.
  by rewrite bool_decide_true.
Qed.

Lemma wp_send_fee i inv order pr :
  bolt11_from_str pr = Some inv ->
  wp fee_job (holding i (bytes_to_string (payment_hash inv)) (o_dev_fee order))
    (send_dev_fee_payment settings order pr)
    (fun r tr _ => match r with Ok h => succeeded h tr | Err _ => True end).
Proof.
  intros E. unfold send_dev_fee_payment. destruct (o_dev_fee order <=? 0); [done|].
  eapply (wp_try _ _ _ _ (fun s => stream_ok_fee (Ok s))).
  2: { intros s tr db _ Hs. destruct (ps_elapsed s); [done|].
       destruct (final_update (ps_updates s)) eqn:Ef; [by apply Hs|done]. }
  unfold send_payment, decode_invoice. rewrite E. cbn [ok_or try bind].
  eapply (wp_bind _ _ _ _ (fun _ => holding i (bytes_to_string (payment_hash inv)) (o_dev_fee order))).
  { apply wp_ask; [done|auto|]. intros r tr db. apply holding_cons. }
  intros guard. cbv zeta. destruct (match guard with Some _ => _ | None => _ end); [done|].
  destruct (match amount_milli_satoshis inv with Some _ => _ | None => false end) eqn:Ew; [done|].
  eapply (wp_bind _ _ _ _ stream_ok_fee).
  2: { intros [s|e] tr db _ Hs; [exact Hs|done]. }
  apply wp_call.
  { intros [s|e]; [|done]. intros tr db o db' _ _ _ Hs h Hf. by apply succeeded_cons, Hs. }
  intros r tr db Hv [Hb (row0 & Er & Ep & Eh & Ed)] Hl. split.
  - split_and!; [apply Hv|done|apply fee_rows_same|]. exists i, inv, row0. split_and!; try done.
    rewrite Ed. destruct (amount_milli_satoshis inv); [|done].
    apply negb_false_iff, Z.eqb_eq in Ew. done.
  - destruct r as [s|]; [|done]. by apply (stream_named _ inv).
Qed.

Lemma wp_success_fee order confirmed h :
  wp fee_job (fun tr _ => succeeded h tr) (handle_payment_success order confirmed h) (fun _ => anything).
Proof.
  unfold handle_payment_success. cbv zeta. eapply (wp_bind _ _ _ _ (fun _ => anything)).
  - apply wp_last; [done|]. intros tr db j r Hv Hs E Hp.
    rewrite andb_true_iff, negb_true_iff in Hp. destruct Hp as [_ Hp].
    apply (fs_paid _ _ _ _ _ h); [done|done|done|by apply succeeded_cons].
  - intros [n|e]; [|done]. destruct (n =? 0); [apply wp_confirm|].
    eapply wp_bind; [apply wp_audit|done].
Qed.

Lemma wp_failure_fee i K : wp fee_job K (handle_payment_failure i) (fun _ => anything).
Proof.
  eapply wp_bind; [|done]. apply wp_last; [done|]. intros tr db j r Hv _ E Hp.
  rewrite andb_true_iff, negb_true_iff in Hp. destruct Hp as [_ Hp]. by apply fs_keep.
Qed.

Lemma wp_timeout_fee order confirmed K :
  wp fee_job K (handle_payment_timeout order confirmed) (fun _ => anything).
Proof.
  unfold handle_payment_timeout. cbv zeta. eapply wp_bind; [apply wp_status|]. intros []; try done.
  - apply wp_union. intros h. apply wp_fact. intros ->. cbn [default].
    eapply wp_bind; [by apply wp_mark_paid|done].
  - apply wp_union. intros h. apply wp_fact. intros ->. cbn [default]. eapply wp_bind; [|done].
    apply (wp_drop _ _ h); [|done|done].
    intros r. rewrite !andb_true_iff, negb_true_iff, has_fee_hash_spec. tauto.
Qed.

(** From the moment the hash is recorded. *)
Definition recorded (i : Uuid) (h : string) (tr : fhist) (db : DB) : Prop :=
  exists d, holding i h d tr db.

Lemma stable_recorded i h : stable fee_job (recorded i h).
Proof. intros tr db o db' Hv Hl HG [d Hd]. exists d. by eapply stable_holding. Qed.

Lemma wp_pay_stored i inv pr confirmed :
  bolt11_from_str pr = Some inv ->
  wp fee_job (recorded i (bytes_to_string (payment_hash inv)))
    (pay_stored settings i pr confirmed) (fun _ => anything).
Proof.
  intros E. unfold pay_stored.
  eapply (wp_bind _ _ _ _ (fun r => match r with
    | Ok (Ok order) => holding i (bytes_to_string (payment_hash inv)) (o_dev_fee order)
    | _ => anything end)).
  - apply wp_read; [done|intros [[]|]; auto; done| |done].
    intros tr db _ [d [Hb (r & Er & Hr)]]. unfold order_row, order_by_id. cbn [snd].
    unfold row in Er. rewrite Er. split; [by apply bound_cons|]. exists r.
    destruct Hr as (? & ? & _). by split_and!.
  - intros [[order|]|]; [|done..].
    eapply wp_bind; [by apply (wp_send_fee i)|]. intros sent. cbv beta.
    eapply (wp_bind _ _ _ _ (fun _ => _)).
    { apply wp_ask with (Post := fun _ tr _ => match sent with Ok h => succeeded h tr | Err _ => True end);
        [done| |].
      - intros _. destruct sent; [apply stable_succeeded|done].
      - intros r tr db Hs. destruct sent; [by apply succeeded_cons|done]. }
    intros []; [apply wp_timeout_fee|]. destruct sent as [h|e]; [apply wp_success_fee|].
    eapply wp_bind; [apply wp_failure_fee|done].
Qed.

Lemma wp_resolve_fee order :
  wp fee_job anything (resolve_dev_fee_invoice settings node_pubkey order)
    (fun r tr db => match r with
                    | Ok (pr, h) => exists inv, bolt11_from_str pr = Some inv /\
                                      h = bytes_to_string (payment_hash inv)
                    | Err _ => True
                    end /\ anything tr db).
Proof.
  unfold resolve_dev_fee_invoice. destruct (o_dev_fee order <=? 0); [done|].
  eapply wp_bind; [by apply wp_ask_any|]. intros r. cbv beta.
  destruct (match r with Some _ => _ | None => _ end) as [pr|e]; [|done]. cbn [try bind].
  destruct (str_eqb pr ""); [done|]. unfold decode_invoice.
  destruct (bolt11_from_str pr) as [inv|] eqn:E; [|done]. cbn [ok_or try bind].
  eapply (wp_try _ _ _ _ (fun _ => anything)).
  - unfold validate_payout_invoice. destruct (negb _); [done|]. destruct (_ <? _); [done|].
    eapply wp_bind; [by apply wp_ask_any|]. intros now. cbv beta. by destruct (_ <? _).
  - intros _ tr db _ _. split; [|done]. by exists inv.
Qed.

Lemma wp_claim_fee i marker :
  like_pending marker = true ->
  wp fee_job anything (try_claim_order_for_dev_fee i marker) (fun _ => anything).
Proof.
  intros Hm. unfold try_claim_order_for_dev_fee, sql_or_db_error.
  eapply (wp_try _ _ _ _ (fun _ => anything)); [|done].
  eapply wp_bind; [|by intros []]. apply wp_last; [done|]. intros tr db j r Hv _ E Hp.
  unfold unpaid_fee, unclaimed in Hp. rewrite !andb_true_iff, negb_true_iff in Hp.
  destruct Hp as [[_ [_ Hp]] Hu]. apply fs_marker; [done|done| |by eapply marked_unrecorded].
  unfold unrecorded. destruct (o_dev_fee_payment_hash r); [|done].
  apply str_eqb_eq in Hu as ->. by intros [].
Qed.

Lemma store_recorded i h marker tr db :
  fees_ok tr db -> like_pending marker = true -> real h -> (store_hash_stmt i h marker db).2 <> 0 ->
  recorded i h (ObsSql (store_hash_stmt i h marker) (Ok (store_hash_stmt i h marker db).2) :: tr)
    (store_hash_stmt i h marker db).1.
Proof.
  intros Hv Hm Hh Hn. set (o := ObsSql _ _).
  assert (binds i h o) as Hb.
  { exists marker, (store_hash_stmt i h marker db).2. split_and!; try done.
    unfold store_hash_stmt, update_orders, count_where in *. simpl in *. lia. }
  destruct (binds_effect i h o db (store_hash_stmt i h marker db).1) as (_ & r & r' & _ & E' & _ & Ep & Eh);
    [apply Hv|done|done|].
  exists (o_dev_fee r'). split; [exists o; split; [by left|done]|]. by exists r'.
Qed.

Lemma wp_store_fee i h marker :
  like_pending marker = true -> real h ->
  wp fee_job anything (sql (store_hash_stmt i h marker))
    (fun r => match r with Ok n => if n =? 0 then anything else recorded i h | Err _ => anything end).
Proof.
  intros Hm Hh. apply wp_write; [done| | | |done].
  - intros [n|]; [|done]. destruct (n =? 0); [done|apply stable_recorded].
  - intros tr db j r Hv _ E Hp. rewrite !andb_true_iff, negb_true_iff, has_fee_hash_spec in Hp.
    destruct Hp as [[_ Hp] Ef]. apply (fs_store _ _ _ _ _ h); [done|done| |done].
    by eapply marked_unrecorded.
  - intros tr db Hv _. fold (store_hash_stmt i h marker).
    destruct (Z.eqb_spec (store_hash_stmt i h marker db).2 0) as [|Hn]; [done|].
    by apply store_recorded.
Qed.

Lemma marker_pending s : like_pending ("PENDING-" +:+ s) = true.
Proof.
  change (String.prefix "PENDING-" ("PENDING-" +:+ to_uppercase s) = true).
  by destruct (to_uppercase s).
Qed.

Lemma wp_pay_fee confirmed order :
  wp fee_job anything (pay_dev_fee settings node_pubkey confirmed order) (fun _ => anything).
Proof.
  unfold pay_dev_fee. cbv zeta. eapply wp_bind; [by apply wp_ask_any|]. intros now.
  eapply wp_bind; [by apply wp_ask_any|]. intros u. cbv beta.
  pose proof (marker_pending (uuid_to_string u +:+ "-" +:+ i64_to_string now)) as Hm. revert Hm.
  generalize ("PENDING-" +:+ uuid_to_string u +:+ "-" +:+ i64_to_string now). intros marker Hm.
  eapply wp_bind; [by apply wp_claim_fee|]. intros [[]|]; [|done..].
  eapply wp_bind; [apply wp_resolve_fee|]. intros resolved. cbv beta. apply wp_fact. intros Hres.
  eapply wp_bind; [by apply wp_ask_any|]. intros elapsed. cbv beta.
  assert (wp fee_job anything (release_pending_claim (o_id order) marker ;;; Ret confirmed)%prog
            (fun _ => anything)) as Hrel by (eapply wp_bind; [by apply wp_release_marker|done]).
  destruct elapsed; [exact Hrel|]. destruct resolved as [[pr h]|]; [|exact Hrel].
  destruct Hres as (inv & E & ->).
  eapply wp_bind; [apply wp_store_fee; [done|by eapply invoice_hash_real]|].
  intros [n|e]; [|exact Hrel]. cbv beta iota. destruct (n =? 0); [done|by apply wp_pay_stored].
Qed.

Lemma wp_ticks_fee ticks confirmed :
  wp fee_job anything (dev_fee_ticks settings node_pubkey ticks confirmed) (fun _ => anything).
Proof.
  revert confirmed. induction ticks as [|n IH]; intros c; cbn [dev_fee_ticks]; [done|].
  eapply wp_bind; [|intros; apply IH]. unfold run_dev_fee_cycle.
  eapply wp_bind; [apply wp_cleanup|]. intros [].
  eapply wp_bind; [apply wp_verify|]. intros c1. cbv beta.
  eapply wp_bind; [apply wp_recovery|]. intros c2. cbv beta.
  unfold process_new_dev_fee_payments, find_unpaid_dev_fees, sql_or_db_error.
  eapply (wp_bind _ _ _ _ (fun _ => anything)).
  { eapply (wp_bind _ _ _ _ (fun _ => anything)); [by apply wp_read|]. by intros []. }
  intros [l|]; [|done]. apply (wp_fold_each _ (fun _ => True)); [by apply Forall_true|].
  intros s o _. apply wp_pay_fee.
Qed.

Lemma wp_fee_job ticks :
  wp fee_job anything (job_process_dev_fee_payment settings node_pubkey ticks) (fun _ => anything).
Proof.
  unfold job_process_dev_fee_payment, lnd_new. eapply (wp_bind _ _ _ _ (fun _ => anything)).
  - eapply wp_bind; [by apply wp_ask_any|done].
  - intros r. destruct (is_ok r); [apply wp_ticks_fee|done].
Qed.

Lemma wp_fee_bystander p : fee_bystander p -> wp fee_others anything p (fun _ => anything).
Proof.
  induction p as [a|R stmt k IH|R e k IH]; cbn [fee_bystander]; [done| |].
  - intros [Hs Hk]. split; intros r; exists anything; (split_and!; [done| |by apply IH]).
    + intros tr db Hv _ <- _. split; [|done]. split; [by apply Hs, Hv|done].
    + intros tr db Hv _ _. split; [|done]. split; [|done]. split; [apply Hv|].
      intros i. by destruct (row i db).
  - intros Hk r. exists anything. split_and!; [done| |by apply IH].
    intros tr db Hv _ _. split; [|done]. split; [|done]. split; [apply Hv|].
    intros i. by destruct (row i db).
Qed.

(** ** The theorem *)

Definition fee_sched (p : M unit) : Prop :=
  exists ticks, p = job_process_dev_fee_payment settings node_pubkey ticks.

(** What is reached from a database in which no fee is marked as paid, in any
    interleaving of the job with such tasks, with crashes. *)
Definition fee_reach (db : DB) (s : Sys DB ext) : Prop :=
  exists ticks, rtc (sys_step fee_bystander fee_sched fee_law)
    (mkSys (job_process_dev_fee_payment settings node_pubkey ticks) [] db []) s.

Definition no_fees_paid (db : DB) : Prop :=
  keys_ok db /\ forall r, In r (orders db) -> o_dev_fee_paid r = false.

Lemma fee_reach_ok db s :
  no_fees_paid db -> fee_reach db s ->
  sys_ok fee_law fees_ok G_other G_fee s.
Proof.
  intros [Hk Hn] [ticks Hr]. eapply sys_safe; [apply fee_inv_kept| | | |exact Hr].
  - intros p. apply wp_fee_bystander.
  - intros p [t ->]. apply wp_fee_job.
  - eapply (sys_start _ _ _ _ fee_sched); [| |by exists ticks].
    + intros p [t ->]. apply wp_fee_job.
    + split; [done|by apply Forall_nil|done|]. intros i r [_ Hin]%row_key Hp. by rewrite (Hn r Hin) in Hp.
Qed.

(** C14: the development fee of an order is paid once. Whatever other tasks
    run, the node answers and crashes interrupt, the job hands a payment to LND
    only when its hash is the one recorded for an order that is not marked as
    paid, for that order's fee, and no other invoice recorded for the order is
    outstanding: the job was told of each that it failed. An order marked as
    paid carries a hash whose payment LND reported as succeeded. *)
Theorem dev_fee_paid_once db s :
  no_fees_paid db -> fee_reach db s ->
  (forall pr amt fee secs k, sched s = Ext (LndSendPaymentV2 pr amt fee secs) k ->
     exists i inv r, let h := bytes_to_string (payment_hash inv) in
       bolt11_from_str pr = Some inv /\ row i (s_db s) = Some r /\ o_dev_fee_paid r = false /\
       match amount_milli_satoshis inv with
       | Some m => m = msat_of_sat (o_dev_fee r) /\ amt = None
       | None => amt = Some (o_dev_fee r)
       end /\
       bound i h (s_trace s) /\ forall h', live i h' (s_trace s) -> h' = h) /\
  (forall r, In r (orders (s_db s)) -> o_dev_fee_paid r = true ->
     exists h, o_dev_fee_payment_hash r = Some h /\ succeeded h (s_trace s)).
Proof.
  intros Hn Hr. destruct (fee_reach_ok db s Hn Hr) as (Hv & (K & _ & HK & Hw) & _). split.
  - intros pr amt fee secs k Es. rewrite Es in Hw.
    destruct (Hw (Err "")) as (K' & _ & HG & _).
    destruct (HG _ _ Hv HK) as [(_ & _ & _ & i & inv & r & E & Er & Ep & Eh & Hb & Ha) _].
    { apply Forall_cons. split; [done|apply Hv]. }
    exists i, inv, r. split_and!; try done. intros h' Hl'.
    destruct (fo_live _ _ Hv i h' Hl') as (_ & r' & Er' & Hc). rewrite Er in Er'. injection Er' as <-.
    destruct Hc; congruence.
  - intros r Hin Hp. apply (fo_paid _ _ Hv (o_id r) r); [|done]. apply row_in; [apply Hv|done].
Qed.

End Job.

(** ** Examples *)

#[export] Instance demo_marker_laws : MarkerLaws.
Proof.
  intros [|a h] bs; [done|]. change (from_hex (String a h)) with (hex_decode (String a h)).
  assert (like_pending (String a h) = true -> hex_value a = None) as Hp.
  { change (like_pending (String a h)) with
      (if Ascii.ascii_dec "P"%char (ascii_to_upper a) then String.prefix "ENDING-" (to_uppercase h) else false).
    destruct (Ascii.ascii_dec _ _) as [E|]; [|done]. intros _.
    destruct a as [[] [] [] [] [] [] [] []]; first [reflexivity|discriminate E]. }
  destruct h as [|b h]; [done|]. cbn [hex_decode]. intros E. apply not_true_is_false. intros Hl.
  by rewrite Hp in E.
Qed.

Definition fee_order : Order := (demo_order 7 SettledHoldInvoice) <| o_dev_fee := 30 |>.
Definition fee_db : DB := mkDB [fee_order; demo_order 8 Pending] [] [] [].

(** The job, [n] interactions after its start. *)
Definition fee_run (n : nat) :=
  advance (demo_env 1000) n (job_process_dev_fee_payment demo_settings "node" 1) fee_db [].
Definition fee_state (n : nat) : Sys DB ext := mkSys (fee_run n).1.1 [] (fee_run n).1.2 (fee_run n).2.

Lemma fee_db_fresh : no_fees_paid fee_db.
Proof.
  split; [by apply (bool_decide_eq_true_1 (NoDup _)); vm_compute|]. by intros r [<-|[<-|[]]].
Qed.

Lemma fee_law_suffix l (tr : fhist) : fee_law (l ++ tr)%list -> fee_law tr.
Proof. by intros [_ Ht]%Forall_app. Qed.

Lemma fee_state_reached n : fee_law (fee_run n).2 -> fee_reach demo_settings "node" fee_db (fee_state n).
Proof. intros Hl. exists 1%nat. by apply (advance_sched _ _ _ fee_law_suffix). Qed.

(** The job before it sends, and at its end. *)
Lemma dev_fee_paid_once_witness :
  (exists i inv, bolt11_from_str "inv-any" = Some inv /\
     bound i (bytes_to_string (payment_hash inv)) (s_trace (fee_state 15))) /\
  exists r, In r (orders (s_db (fee_state 20))) /\ o_dev_fee_paid r = true /\
    exists h, o_dev_fee_payment_hash r = Some h /\ succeeded h (s_trace (fee_state 20)).
Proof.
  split.
  - destruct (dev_fee_paid_once demo_settings "node" fee_db (fee_state 15) fee_db_fresh) as [Hs _].
    { apply fee_state_reached. vm_compute. repeat constructor. }
    assert (exists amt fee secs k, sched (fee_state 15) = Ext (LndSendPaymentV2 "inv-any" amt fee secs) k)
      as (amt & fee & secs & k & E) by (vm_compute; repeat eexists).
    destruct (Hs _ _ _ _ _ E) as (i & inv & r & Ei & _ & _ & _ & Hb & _). eauto.
  - destruct (dev_fee_paid_once demo_settings "node" fee_db (fee_state 20) fee_db_fresh) as [_ Hp].
    { apply fee_state_reached. vm_compute. repeat constructor. }
    destruct (orders (s_db (fee_state 20))) as [|r l] eqn:E; [by vm_compute in E|].
    assert (o_dev_fee_paid r = true) as Hr.
    { apply (f_equal (fun l => match l with r :: _ => o_dev_fee_paid r | [] => false end)) in E.
      rewrite <- E. vm_compute. reflexivity. }
    exists r. split; [by left|]. split; [done|]. apply (Hp r); [by left|done].
Defined.
