(* ===== verification/Walk.v ===== *)
(** * Walking through a program

    [prog_all P Q p] says that every statement the program [p] may execute
    satisfies [P] and every request it may make satisfies [Q].  The tactic
    [prog_walk] unfolds a handler down to its statements and requests. *)

From S2P Require Import Prelude Effects.

Section ProgAll.
Context {DB : Type} {ext : Type -> Type}.
Abbreviation M := (prog DB ext).
Context (P : forall R, (DB -> DB * R) -> Prop) (Q : forall R, ext R -> Prop).

Fixpoint prog_all {A} (p : M A) : Prop :=
  match p with
  | Ret _ => True
  | Sql stmt k => P _ stmt /\ forall r, prog_all (k r)
  | Ext e k => Q _ e /\ forall r, prog_all (k r)
  end.

Lemma prog_all_bind {A B} (p : M A) (f : A -> M B) :
  prog_all p -> (forall a, prog_all (f a)) -> prog_all (bind p f).
Proof.
  intros Hp Hf. induction p as [a|R stmt k IH|R e k IH]; cbn in *.
  - apply Hf.
  - destruct Hp. split; auto.
  - destruct Hp. split; auto.
Qed.

Lemma prog_all_try {A B E} (p : M (result A E)) (f : A -> M (result B E)) :
  prog_all p -> (forall a, prog_all (f a)) -> prog_all (try p f).
Proof. intros Hp Hf. apply prog_all_bind; [done|]. by intros [a|e]. Qed.

Lemma prog_all_try_ret {A B E} (r : result A E) (f : A -> M (result B E)) :
  (forall a, r = Ok a -> prog_all (f a)) -> prog_all (try (Ret r) f).
Proof. intros Hf. destruct r as [a|e]; [by apply Hf|done]. Qed.

Lemma prog_all_sql {R} (stmt : DB -> DB * R) : P _ stmt -> prog_all (sql stmt).
Proof. done. Qed.

Lemma prog_all_call {R} (e : ext R) : Q _ e -> prog_all (call e).
Proof. done. Qed.

Lemma prog_all_each {X} (l : list X) (body : X -> M unit) :
  (forall x, prog_all (body x)) -> prog_all (for_each l body).
Proof. intros Hb. induction l; cbn; [done|]. by apply prog_all_bind. Qed.

Lemma prog_all_fold {X S E} (l : list X) (body : S -> X -> M (result S E)) s :
  (forall s x, prog_all (body s x)) -> prog_all (try_fold l s body).
Proof. intros Hb. revert s. induction l; intros s; cbn; [done|]. by apply prog_all_try. Qed.

(** A property of the database that every statement keeps. *)
Lemma prog_all_run {A} env (p : M A) (I : DB -> Prop) db tr :
  (forall R stmt d, P R stmt -> I d -> I (stmt d).1) ->
  prog_all p -> I db -> I (run_db env p db tr).
Proof.
  intros HI. unfold run_db. revert db tr.
  induction p as [a|R stmt k IH|R e k IH]; intros db tr Hp Hdb; cbn in *.
  - done.
  - destruct Hp as [Hs Hk]. specialize (HI R stmt db Hs Hdb).
    destruct (sql_error env tr); [by apply IH|]. destruct (stmt db). by apply IH.
  - destruct Hp. by apply IH.
Qed.
End ProgAll.

(** Programs whose walk is done by induction. *)
Create HintDb sql_walk.

Ltac head t := lazymatch t with ?f _ => head f | _ => t end.

(** Walk through a program; [stmt] closes the goals about its statements,
    [req] those about its requests. *)
Ltac prog_walk stmt req :=
  repeat (intros; cbv zeta;
    lazymatch goal with
    | |- prog_all _ _ (Ret _) => exact I
    | |- prog_all _ _ (call _) => apply prog_all_call; req
    | |- prog_all _ _ (sql _) => apply prog_all_sql; stmt
    | |- prog_all _ _ (try (Ret _) _) => apply prog_all_try_ret
    | |- prog_all _ _ (try _ _) => apply prog_all_try
    | |- prog_all _ _ (bind _ _) => apply prog_all_bind
    | |- prog_all _ _ (for_each _ _) => apply prog_all_each
    | |- prog_all _ _ (try_fold _ _ _) => apply prog_all_fold
    | |- prog_all _ _ (match ?x with _ => _ end) => destruct x
    | |- prog_all _ _ ?p => first [solve [auto with sql_walk nocore] | let h := head p in unfold h]
    end).

(** Statements only. *)
Abbreviation sql_all P := (prog_all P (fun _ _ => True)).
Ltac sql_walk stmt := prog_walk stmt ltac:(exact I).
