(* ===== verification/LnurlSpec.v ===== *)
(** * What the LNURL client fetches

    The address policy as a list of networks, the requests the client makes,
    and the parameters of the callback. *)

From stdpp Require Import pretty.
From S2P Require Import Prelude BondTypes Effects Model Lnurl Walk.

Open Scope Z_scope.
Open Scope prog_scope.

(** ** The policy as networks *)

Definition bits_of (width : Z) (digits : list Z) : Z :=
  foldl (fun acc d => acc * 2 ^ width + d) 0 digits.
Definition v4_bits (a : Ipv4Addr) : Z := bits_of 8 (v4_octets a).
Definition v6_bits (a : Ipv6Addr) : Z := bits_of 16 (v6_segments a).

Definition v4_wf (a : Ipv4Addr) : Prop := Forall (fun d => 0 <= d < 256) (v4_octets a).
Definition v6_wf (a : Ipv6Addr) : Prop := Forall (fun d => 0 <= d < 65536) (v6_segments a).
Definition ip_wf (ip : IpAddr) : Prop := match ip with V4 a => v4_wf a | V6 a => v6_wf a end.

(** [addr] is in [base/len], of addresses of [width] bits. *)
Definition in_net (width addr : Z) (net : Z * Z) : bool :=
  addr / 2 ^ (width - net.2) =? net.1 / 2 ^ (width - net.2).

Definition v4_net (a b c d len : Z) : Z * Z := (v4_bits (mkV4 a b c d), len).
Definition v6_net (first second last len : Z) : Z * Z :=
  (v6_bits (mkV6 first second 0 0 0 0 0 last), len).

Definition forbidden_v4 : list (Z * Z) :=
  [v4_net 0 0 0 0 32; v4_net 255 255 255 255 32; v4_net 224 0 0 0 4; v4_net 169 254 0 0 16;
   v4_net 192 0 2 0 24; v4_net 198 51 100 0 24; v4_net 203 0 113 0 24; v4_net 100 64 0 0 10;
   v4_net 127 0 0 0 8; v4_net 10 0 0 0 8; v4_net 172 16 0 0 12; v4_net 192 168 0 0 16].

(** [::ffff:a.b.c.d/(96 + len)]. *)
Definition map_net (net : Z * Z) : Z * Z := (0xffff * 2 ^ 32 + net.1, 96 + net.2).

Definition forbidden_v6 : list (Z * Z) :=
  [v6_net 0 0 0 128; v6_net 0xff00 0 0 8; v6_net 0xfe80 0 0 10; v6_net 0x64 0xff9b 0 96;
   v6_net 0 0 1 128; v6_net 0xfc00 0 0 7] ++ map map_net forbidden_v4.

Definition in_forbidden_network (ip : IpAddr) : bool :=
  match ip with
  | V4 a => existsb (in_net 32 (v4_bits a)) forbidden_v4
  | V6 a => existsb (in_net 128 (v6_bits a)) forbidden_v6
  end.

Lemma v4_wf_bounds a : v4_wf a ->
  0 <= oct0 a < 256 /\ 0 <= oct1 a < 256 /\ 0 <= oct2 a < 256 /\ 0 <= oct3 a < 256.
Proof. unfold v4_wf, v4_octets. rewrite !Forall_cons. tauto. Qed.

Lemma v4_bits_eq a :
  v4_bits a = ((oct0 a * 256 + oct1 a) * 256 + oct2 a) * 256 + oct3 a.
Proof. unfold v4_bits, bits_of. simpl. lia. Qed.

(** A network against a test on the octets. *)
Ltac net_test :=
  unfold in_net, v4_net, between; cbn [fst snd]; rewrite !v4_bits_eq; cbn [oct0 oct1 oct2 oct3];
  match goal with |- context [2 ^ ?e] => let v := eval vm_compute in (2 ^ e) in change (2 ^ e) with v end;
  apply eq_true_iff_eq;
  rewrite ?orb_true_iff, ?andb_true_iff, ?Z.eqb_eq, ?Z.leb_le; Z.to_euclidean_division_equations; lia.

Definition v4_forbidden (a : Ipv4Addr) : bool :=
  ipv4_is_always_forbidden a || (v4_loopback a || v4_private a).

Lemma v4_networks a : v4_wf a -> existsb (in_net 32 (v4_bits a)) forbidden_v4 = v4_forbidden a.
Proof.
  intros Ha. destruct (v4_wf_bounds a Ha) as (H0 & H1 & H2 & H3).
  unfold v4_forbidden, ipv4_is_always_forbidden, v4_private, v4_documentation, forbidden_v4.
  cbn [existsb].
  assert (in_net 32 (v4_bits a) (v4_net 0 0 0 0 32) = v4_unspecified a) as ->
    by (unfold v4_unspecified; cbn [forallb v4_octets]; net_test).
  assert (in_net 32 (v4_bits a) (v4_net 255 255 255 255 32) = v4_broadcast a) as ->
    by (unfold v4_broadcast; cbn [forallb v4_octets]; net_test).
  assert (in_net 32 (v4_bits a) (v4_net 224 0 0 0 4) = v4_multicast a) as ->
    by (unfold v4_multicast; net_test).
  assert (in_net 32 (v4_bits a) (v4_net 169 254 0 0 16) = v4_link_local a) as ->
    by (unfold v4_link_local; net_test).
  assert (forall x y z, 0 <= x < 256 -> 0 <= y < 256 -> 0 <= z < 256 ->
    in_net 32 (v4_bits a) (v4_net x y z 0 24) = (oct0 a =? x) && (oct1 a =? y) && (oct2 a =? z)) as Hdoc
    by (intros x y z Hx Hy Hz; net_test).
  rewrite !Hdoc by lia.
  assert (in_net 32 (v4_bits a) (v4_net 100 64 0 0 10) = ipv4_is_cgnat a) as ->
    by (unfold ipv4_is_cgnat; net_test).
  assert (in_net 32 (v4_bits a) (v4_net 127 0 0 0 8) = v4_loopback a) as ->
    by (unfold v4_loopback; net_test).
  assert (in_net 32 (v4_bits a) (v4_net 10 0 0 0 8) = (oct0 a =? 10)) as -> by net_test.
  assert (in_net 32 (v4_bits a) (v4_net 172 16 0 0 12) = (oct0 a =? 172) && between 16 31 (oct1 a)) as ->
    by net_test.
  assert (in_net 32 (v4_bits a) (v4_net 192 168 0 0 16) = (oct0 a =? 192) && (oct1 a =? 168)) as ->
    by net_test.
  by rewrite orb_false_r, !orb_assoc.
Qed.

Lemma v6_wf_bounds a : v6_wf a ->
  (0 <= seg0 a < 65536 /\ 0 <= seg1 a < 65536 /\ 0 <= seg2 a < 65536 /\ 0 <= seg3 a < 65536) /\
  (0 <= seg4 a < 65536 /\ 0 <= seg5 a < 65536 /\ 0 <= seg6 a < 65536 /\ 0 <= seg7 a < 65536).
Proof. unfold v6_wf, v6_segments. rewrite !Forall_cons. tauto. Qed.

(** The high half of the address and the low half. *)
Definition v6_high (a : Ipv6Addr) : Z :=
  ((((seg0 a * 65536 + seg1 a) * 65536 + seg2 a) * 65536 + seg3 a) * 65536 + seg4 a) * 65536 + seg5 a.
Definition v6_low (a : Ipv6Addr) : Z := seg6 a * 65536 + seg7 a.

Lemma v6_bits_eq a : v6_bits a = v6_high a * 2 ^ 32 + v6_low a.
Proof. unfold v6_bits, bits_of, v6_high, v6_low. simpl. lia. Qed.

(** A mask on a segment is a test of its leading bits. *)
Lemma land_high s n k :
  0 <= k -> 0 <= n -> Z.land s (Z.shiftl (Z.ones n) k) = ((s / 2 ^ k) mod 2 ^ n) * 2 ^ k.
Proof.
  intros Hk Hn. rewrite <- Z.land_ones, <- Z.shiftr_div_pow2, <- Z.shiftl_mul_pow2 by done.
  apply Z.bits_inj'. intros i Hi. rewrite Z.land_spec, !Z.shiftl_spec, Z.land_spec by done.
  destruct (Z.ltb_spec i k).
  - rewrite !(Z.testbit_neg_r _ (i - k)) by lia. by rewrite !andb_false_r.
  - rewrite Z.shiftr_spec by lia. by replace (i - k + k) with i by lia.
Qed.

Lemma mask_test s n k q :
  0 <= k -> 0 <= n -> 0 <= s < 2 ^ (n + k) ->
  (Z.land s (Z.shiftl (Z.ones n) k) =? q * 2 ^ k) = (s / 2 ^ k =? q).
Proof.
  intros Hk Hn Hs. rewrite Z.pow_add_r in Hs by done.
  assert (0 < 2 ^ k) as Hp by (apply Z.pow_pos_nonneg; lia).
  rewrite land_high, Z.mod_small; [|split; [apply Z.div_pos; lia|apply Z.div_lt_upper_bound; lia]|done|done].
  apply eq_true_iff_eq. rewrite !Z.eqb_eq. split; [|by intros ->]. intros E.
  apply Z.mul_cancel_r in E; [done|lia].
Qed.

Lemma prefix_net x base k : 0 <= k -> in_net 128 x (base * 2 ^ k, 128 - k) = (x / 2 ^ k =? base).
Proof.
  intros Hk. unfold in_net. cbn [fst snd]. replace (128 - (128 - k)) with k by lia.
  by rewrite Z.div_mul by lia.
Qed.

Section V6.
Context (a : Ipv6Addr) (Ha : v6_wf a).

Lemma low_bounds : 0 <= v6_low a < 2 ^ 32.
Proof. destruct (v6_wf_bounds a Ha). unfold v6_low. lia. Qed.

Lemma high_bounds : 0 <= v6_high a < 2 ^ 96.
Proof. destruct (v6_wf_bounds a Ha). unfold v6_high. lia. Qed.

Lemma high_of_bits : v6_bits a / 2 ^ 32 = v6_high a.
Proof.
  rewrite v6_bits_eq, Z.div_add_l by lia. rewrite (Z.div_small (v6_low a)) by apply low_bounds. lia.
Qed.

(** The first [16 - k] bits of the address. *)
Lemma first_bits k : 0 <= k <= 16 -> v6_bits a / 2 ^ (112 + k) = seg0 a / 2 ^ k.
Proof.
  intros Hk. destruct (v6_wf_bounds a Ha) as [(H0 & H1 & H2 & H3) (H4 & H5 & H6 & H7)].
  replace (2 ^ (112 + k)) with (2 ^ 112 * 2 ^ k) by (by rewrite <- Z.pow_add_r by lia).
  rewrite <- Z.div_div by lia. f_equal. unfold v6_bits, bits_of. simpl.
  symmetry. apply (Z.div_unique_pos _ _ _ ((((((seg1 a * 65536 + seg2 a) * 65536 + seg3 a) * 65536 + seg4 a)
    * 65536 + seg5 a) * 65536 + seg6 a) * 65536 + seg7 a)); lia.
Qed.

Lemma first_net n k q :
  0 <= n -> 0 <= k -> n + k = 16 ->
  in_net 128 (v6_bits a) (q * 2 ^ k * 2 ^ 112, n) =
  (Z.land (seg0 a) (Z.shiftl (Z.ones n) k) =? q * 2 ^ k).
Proof.
  intros Hn Hk E. destruct (v6_wf_bounds a Ha) as [(H0 & _) _].
  rewrite mask_test by (rewrite ?E; try done; lia).
  replace (q * 2 ^ k * 2 ^ 112) with (q * 2 ^ (112 + k)) by (rewrite Z.pow_add_r by lia; lia).
  replace n with (128 - (112 + k)) by lia. rewrite prefix_net by lia. by rewrite first_bits by lia.
Qed.

Lemma mapped_spec :
  to_ipv4_mapped a =
    if v6_high a =? 0xffff
    then Some (mkV4 (seg6 a / 256) (seg6 a mod 256) (seg7 a / 256) (seg7 a mod 256)) else None.
Proof.
  destruct (v6_wf_bounds a Ha) as [(H0 & H1 & H2 & H3) (H4 & H5 & H6 & H7)].
  unfold to_ipv4_mapped. rewrite !Z.shiftr_div_pow2 by lia. change 255 with (Z.ones 8).
  rewrite !Z.land_ones by lia. cbn [forallb].
  match goal with |- (if ?b then _ else _) = _ => replace b with (v6_high a =? 0xffff) end; [done|].
  unfold v6_high. apply eq_true_iff_eq. rewrite !andb_true_iff, !Z.eqb_eq. lia.
Qed.

Lemma mapped_net b len :
  0 <= len <= 32 -> 0 <= b < 2 ^ 32 ->
  in_net 128 (v6_bits a) (map_net (b, len)) = (v6_high a =? 0xffff) && in_net 32 (v6_low a) (b, len).
Proof.
  intros Hlen Hb. unfold in_net, map_net. cbn [fst snd]. rewrite v6_bits_eq.
  replace (128 - (96 + len)) with (32 - len) by lia. set (d := 2 ^ (32 - len)).
  assert (0 < d) as Hd by (apply Z.pow_pos_nonneg; lia).
  assert (2 ^ 32 = 2 ^ len * d) as Ed by (unfold d; rewrite <- Z.pow_add_r by lia; f_equal; lia).
  assert (forall y, 0 <= y < 2 ^ 32 -> 0 <= y / d < 2 ^ len) as Hq.
  { intros y Hy. split; [apply Z.div_pos; lia|apply Z.div_lt_upper_bound; lia]. }
  pose proof (Hq _ low_bounds) as Hl. pose proof (Hq _ Hb) as Hb'.
  rewrite Ed, !Z.mul_assoc, !Z.div_add_l by lia. apply eq_true_iff_eq.
  rewrite andb_true_iff, !Z.eqb_eq. split; [|by intros [-> ->]]. intros E.
  apply (Z.div_mod_unique (2 ^ len)); [by left|by left|lia].
Qed.

Lemma mapped_networks :
  existsb (in_net 128 (v6_bits a)) (map map_net forbidden_v4) = mapped v4_forbidden a.
Proof.
  unfold mapped. rewrite mapped_spec by done.
  assert (existsb (in_net 128 (v6_bits a)) (map map_net forbidden_v4) =
          (v6_high a =? 0xffff) && existsb (in_net 32 (v6_low a)) forbidden_v4) as ->.
  { unfold forbidden_v4. cbn [map existsb]. unfold v4_net. rewrite !mapped_net by (vm_compute; split; congruence).
    by destruct (v6_high a =? 0xffff). }
  destruct (v6_high a =? 0xffff); [|done]. cbn [andb].
  destruct (v6_wf_bounds a Ha) as [_ (_ & _ & H6 & H7)].
  rewrite <- v4_networks.
  - f_equal. f_equal. rewrite v4_bits_eq. cbn [oct0 oct1 oct2 oct3]. unfold v6_low.
    Z.to_euclidean_division_equations; lia.
  - unfold v4_wf, v4_octets. cbn [oct0 oct1 oct2 oct3].
    repeat constructor; Z.to_euclidean_division_equations; lia.
Qed.

Lemma v6_unspecified_net : in_net 128 (v6_bits a) (v6_net 0 0 0 128) = v6_unspecified a.
Proof.
  destruct (v6_wf_bounds a Ha). rewrite (prefix_net _ 0 0), Z.div_1_r, v6_bits_eq by lia.
  unfold v6_unspecified, v6_segments, v6_high, v6_low. cbn [forallb].
  apply eq_true_iff_eq. rewrite !andb_true_iff, !Z.eqb_eq. lia.
Qed.

Lemma v6_loopback_net : in_net 128 (v6_bits a) (v6_net 0 0 1 128) = v6_loopback a.
Proof.
  destruct (v6_wf_bounds a Ha). rewrite (prefix_net _ 1 0), Z.div_1_r, v6_bits_eq by lia.
  unfold v6_loopback, v6_high, v6_low. cbn [forallb].
  apply eq_true_iff_eq. rewrite !andb_true_iff, !Z.eqb_eq. lia.
Qed.

Lemma v6_nat64_net : in_net 128 (v6_bits a) (v6_net 0x64 0xff9b 0 96) = ipv6_is_nat64_well_known a.
Proof.
  destruct (v6_wf_bounds a Ha).
  change (v6_net 0x64 0xff9b 0 96) with (((0x64 * 65536 + 0xff9b) * 2 ^ 64) * 2 ^ 32, 128 - 32).
  rewrite prefix_net, high_of_bits by (try done; lia). unfold ipv6_is_nat64_well_known, v6_high.
  apply eq_true_iff_eq. rewrite !andb_true_iff, !Z.eqb_eq. lia.
Qed.
End V6.

(** The address policy is a list of networks.  An address is refused
    exactly when it lies in one of them: for IPv4 the unspecified and the
    broadcast address, 224.0.0.0/4, 169.254.0.0/16, the three documentation
    networks, 100.64.0.0/10, 127.0.0.0/8 and the three private networks; for
    IPv6 [::], [::1], ff00::/8, fe80::/10, 64:ff9b::/96, fc00::/7, and each of
    the IPv4 networks as mapped addresses. *)
Theorem policy_networks ip : ip_wf ip -> ip_is_forbidden ip = in_forbidden_network ip.
Proof.
  destruct ip as [a|a]; intros Hw; cbn [ip_wf ip_is_forbidden in_forbidden_network private_hosts_allowed].
  - rewrite v4_networks by done. unfold v4_forbidden. by destruct (ipv4_is_always_forbidden a).
  - unfold forbidden_v6. rewrite existsb_app, mapped_networks by done. cbn [existsb].
    rewrite v6_unspecified_net, v6_loopback_net, v6_nat64_net by done.
    assert (in_net 128 (v6_bits a) (v6_net 0xff00 0 0 8) = v6_multicast a) as ->
      by (apply (first_net a Hw 8 8 0xff); lia).
    assert (in_net 128 (v6_bits a) (v6_net 0xfe80 0 0 10) = v6_unicast_link_local a) as ->
      by (apply (first_net a Hw 10 6 0x3fa); lia).
    assert (in_net 128 (v6_bits a) (v6_net 0xfc00 0 0 7) = v6_unique_local a) as ->
      by (apply (first_net a Hw 7 9 0x7e); lia).
    unfold mapped, v4_forbidden.
    destruct (v6_unspecified a), (v6_multicast a), (v6_unicast_link_local a), (ipv6_is_nat64_well_known a),
      (v6_loopback a), (v6_unique_local a), (to_ipv4_mapped a) as [v4|]; try done;
      by destruct (ipv4_is_always_forbidden v4).
Qed.

(** ** The requests *)

Abbreviation whist := (list (obs unit net)).

(** The address is the one the URL names, or the DNS answered with it and
    with no forbidden one. *)
Definition checked_address (host : string) (ip : IpAddr) (tr : whist) : Prop :=
  parse_ip host = Some ip \/
  exists port secs addrs, In (ObsExt (LookupHost host port secs) (Some (Ok addrs))) tr /\
    In ip (map sock_ip addrs) /\ Forall (fun a => ip_is_forbidden (sock_ip a) = false) addrs.

(** A request the daemon may make, after [tr]. *)
Definition request_ok (o : obs unit net) (tr : whist) : Prop :=
  match o with
  | ObsExt e _ =>
      match e with
      | HttpGet url host pinned timeout _ =>
          (url_scheme url = "http" \/ url_scheme url = "https") /\
          url_username url = "" /\ url_password url = None /\ host_str url = Some host /\
          ip_is_forbidden (sock_ip pinned) = false /\ checked_address host (sock_ip pinned) tr /\
          timeout = LNURL_REQUEST_TIMEOUT
      | LookupHost _ _ secs => secs = LNURL_DNS_TIMEOUT
      end
  | ObsSql _ _ => True
  end.

Fixpoint requests_ok (tr : whist) : Prop :=
  match tr with
  | [] => True
  | o :: tr' => request_ok o tr' /\ requests_ok tr'
  end.

Definition makes_ok {A} (p : Web A) : Prop :=
  forall env db tr, requests_ok tr -> requests_ok (run_trace env p db tr).

Lemma makes_ok_ret {A} (a : A) : makes_ok (Ret a).
Proof. intros env db tr Htr. exact Htr. Qed.
#[local] Hint Resolve makes_ok_ret : core.

Lemma makes_ok_bind {A B} (p : Web A) (f : A -> Web B) :
  makes_ok p -> (forall a, makes_ok (f a)) -> makes_ok (bind p f).
Proof.
  intros Hp Hf env db tr Htr. unfold run_trace. rewrite run_bind.
  specialize (Hp env db tr Htr). unfold run_trace in Hp.
  destruct (run env p db tr) as [[a db'] tr']. by apply Hf.
Qed.

Lemma makes_ok_try {A B E} (p : Web (result A E)) (f : A -> Web (result B E)) :
  makes_ok p -> (forall a, makes_ok (f a)) -> makes_ok (try p f).
Proof. intros Hp Hf. apply makes_ok_bind; [done|]. intros [a|e]; [apply Hf|apply makes_ok_ret]. Qed.

Lemma preferred_in first rest : In (preferred first rest) (first :: rest).
Proof.
  unfold preferred. destruct (List.find _ _) as [a|] eqn:E; [|by left].
  exact (proj1 (find_some _ _ E)).
Qed.

Lemma allowed_all addrs :
  existsb (fun a => ip_is_forbidden (sock_ip a)) addrs = false ->
  Forall (fun a => ip_is_forbidden (sock_ip a) = false) addrs.
Proof.
  intros E. apply Forall_forall. intros a Hin%list_elem_of_In.
  apply not_true_iff_false in E. apply not_true_iff_false. intros Ha. apply E. apply existsb_exists. eauto.
Qed.

(** What the check has established when it answers. *)
Definition host_checked (url : Url) (pinned : SocketAddr) (tr : whist) : Prop :=
  (url_scheme url = "http" \/ url_scheme url = "https") /\
  url_username url = "" /\ url_password url = None /\
  ip_is_forbidden (sock_ip pinned) = false /\
  forall host, host_str url = Some host -> checked_address host (sock_ip pinned) tr.

Lemma assert_host_spec env url db tr :
  requests_ok tr ->
  requests_ok (run_trace env (assert_url_host_safe url) db tr) /\
  forall pinned, run_val env (assert_url_host_safe url) db tr = Ok pinned ->
    host_checked url pinned (run_trace env (assert_url_host_safe url) db tr).
Proof.
  intros Htr. unfold assert_url_host_safe, run_val, run_trace.
  destruct (is_http_or_https url) eqn:Eh; [|done]. cbn [negb].
  unfold is_http_or_https in Eh. rewrite orb_true_iff, !str_eqb_eq in Eh.
  destruct (str_eqb (url_username url) "") eqn:Eu; [|done]. apply str_eqb_eq in Eu.
  destruct (url_password url) eqn:Ep; [done|]. cbn [negb is_some orb].
  destruct (host_str url) as [host|] eqn:Ehost; [|done].
  destruct (port_or_known_default url) as [port|] eqn:Eport; [|done]. cbn [or_else ok_or try bind].
  destruct (parse_ip host) as [ip|] eqn:Eip; cbn.
  - destruct (ip_is_forbidden ip) eqn:Ef; [done|]. split; [done|]. intros pinned [= <-].
    split_and!; try done. intros h E. rewrite Ehost in E. injection E as <-. by left.
  - split; [done|]. destruct (answer env _ _ tr) as [[[|first rest]|]|] eqn:Ea; try done.
    destruct (ip_is_forbidden (sock_ip first) || _) eqn:Ef; [done|]. intros pinned [= <-].
    apply (allowed_all (first :: rest)) in Ef. pose proof (preferred_in first rest) as Hin.
    split_and!; try done.
    + rewrite Forall_forall in Ef. apply Ef. by apply list_elem_of_In.
    + intros h E. rewrite Ehost in E. injection E as <-. right. exists port, LNURL_DNS_TIMEOUT, (first :: rest).
      split_and!; [by left|by apply in_map|done].
Qed.

Lemma lnurl_get_ok url : makes_ok (lnurl_get url).
Proof.
  intros env db tr Htr. unfold lnurl_get, run_trace. unfold try at 1. rewrite run_bind.
  pose proof (assert_host_spec env url db tr Htr) as [Ht Hc]. unfold run_trace, run_val in *.
  destruct (run env (assert_url_host_safe url) db tr) as [[[pinned|e] db'] tr']; [|done].
  cbn [fst snd] in *. specialize (Hc pinned eq_refl) as (Hs & Hu & Hp & Hf & Ha).
  destruct (host_str url) as [host|] eqn:Eh; [|done]. cbn. split_and!; try done. by apply Ha.
Qed.

(** C17: Nothing the daemon resolves makes it fetch a forbidden address.
    Whatever URL a counterparty or a server supplies and whatever the DNS and
    the servers answer: each GET of the resolution of a Lightning address or
    LNURL, and of the check that it exists, is for an http or https URL
    without credentials, goes to the address pinned for its host, which the
    URL names or the DNS answered with, and neither this address nor another
    of that answer is forbidden; lookups and requests are bounded in time. *)
Theorem lnurl_requests_public `{WebLib} env address amount comment :
  requests_ok (run_trace env (resolv_ln_address address amount comment) tt []) /\
  requests_ok (run_trace env (ln_exists address) tt []).
Proof.
  enough (makes_ok (resolv_ln_address address amount comment) /\ makes_ok (ln_exists address)) as [Hr He]
    by (split; [by apply Hr|by apply He]).
  split.
  - unfold resolv_ln_address. apply makes_ok_try; [done|intros url]. case_match; [done|].
    apply makes_ok_try; [apply lnurl_get_ok|intros res]. apply makes_ok_try; [done|intros body].
    case_match; [done|]. case_match; [done|]. apply makes_ok_try; [done|intros callback].
    apply makes_ok_try; [apply lnurl_get_ok|intros res']. apply makes_ok_try; [done|intros body'].
    by case_match.
  - unfold ln_exists. apply makes_ok_try; [done|intros url].
    apply makes_ok_try; [apply lnurl_get_ok|intros res]. case_match; [|done].
    by apply makes_ok_try.
Qed.

(** ** The answer *)

(** The values of a query parameter. *)
Definition params (key : string) (url : Url) : list string :=
  map snd (List.filter (fun kv => str_eqb kv.1 key) (query_pairs url)).

Lemma try_ok {A B E} env (p : Web (result A E)) (f : A -> Web (result B E)) db tr b :
  run_val env (try p f) db tr = Ok b ->
  exists a, run_val env p db tr = Ok a /\
    run env (try p f) db tr = run env (f a) (run_db env p db tr) (run_trace env p db tr).
Proof.
  unfold run_val, run_db, run_trace, try. rewrite run_bind.
  destruct (run env p db tr) as [[[a|e] db'] tr']; cbn; [|done]. eauto.
Qed.

Lemma lnurl_get_answer env url db tr res :
  run_val env (lnurl_get url) db tr = Ok res ->
  exists host pinned tr', run_trace env (lnurl_get url) db tr =
    ObsExt (HttpGet url host pinned LNURL_REQUEST_TIMEOUT LNURL_CONNECT_TIMEOUT) (Ok res) :: tr'.
Proof.
  intros Hr. unfold lnurl_get in *. destruct (try_ok _ _ _ _ _ _ Hr) as (pinned & _ & E).
  unfold run_val, run_trace in *. rewrite E in Hr |- *. clear E.
  destruct (host_str url) as [host|]; [|done]. cbn in *.
  destruct (answer env _ _ _) as [r|] eqn:Ea; [|done]. injection Hr as <-. eauto.
Qed.

Section Answer.
Context `{WebLib}.

Lemma callback_params callback amount_msat comment allowed u :
  build_callback_url callback amount_msat comment allowed = Ok u ->
  params "amount" u = [pretty (Z.to_N amount_msat)] /\
  params "comment" u = match fit_comment comment allowed with Some c => [c] | None => [] end.
Proof.
  unfold build_callback_url. destruct (parse_http_url callback) as [u0|]; [|done]. cbv beta iota zeta.
  intros [= <-].
  assert (forall key l, is_own_param (key, "") = true ->
    List.filter (fun kv : string * string => str_eqb kv.1 key)
      (List.filter (fun kv => negb (is_own_param kv)) l) = []) as Hk.
  { intros key l Hown. induction l as [|[k v] l IH]; [done|]. cbn [List.filter].
    destruct (is_own_param (k, v)) eqn:Eo; cbn [negb List.filter fst]; [done|].
    destruct (str_eqb k key) eqn:Ek; [|done]. apply str_eqb_eq in Ek as ->.
    unfold is_own_param in Eo, Hown. cbn in Eo, Hown. congruence. }
  unfold params. destruct (fit_comment comment allowed) as [c|]; cbn [query_pairs with_field];
    rewrite ?List.filter_app, !Hk by done; done.
Qed.

Lemma document_ok res body :
  document res = Ok body ->
  is_success res = true /\ exists text, http_text res = Ok text /\ json_from_str text = Ok body.
Proof.
  unfold document, body_of. destruct (is_success res); [|done]. cbn [negb].
  destruct (http_text res) as [text|]; [|done]. cbn [map_err].
  destruct (json_from_str text) as [b|] eqn:Ej; [|done]. cbn [map_err].
  case_bool_decide; [done|]. intros [= <-]. eauto.
Qed.

(** C18: An invoice the client returns is the one it asked for.  When the
    resolution of an address for an amount succeeds, its last request, which
    the server answered with this invoice, not empty, in a successful
    document, carries the amount in millisats exactly once, and the comment
    once and in full or not at all, whatever parameters the server's callback
    had. *)
Theorem invoice_is_as_asked env address amount comment pr :
  run_val env (resolv_ln_address address amount comment) tt [] = Ok pr ->
  pr <> "" /\ amount * 1000 < 2 ^ 64 /\
  exists url host pinned res text body tr,
    run_trace env (resolv_ln_address address amount comment) tt [] =
      ObsExt (HttpGet url host pinned LNURL_REQUEST_TIMEOUT LNURL_CONNECT_TIMEOUT) (Ok res) :: tr /\
    is_success res = true /\ http_text res = Ok text /\ json_from_str text = Ok body /\
    json_get "pr" body = JString pr /\
    params "amount" url = [pretty (Z.to_N (amount * 1000))] /\
    (params "comment" url = [] \/ exists c, comment = Some c /\ params "comment" url = [c]).
Proof.
  unfold resolv_ln_address, run_trace. intros Hr.
  destruct (try_ok _ _ _ _ _ _ Hr) as (url & _ & E). unfold run_val in Hr. rewrite E in Hr |- *. clear E.
  cbv zeta in *. destruct (Z.leb_spec (2 ^ 64) (amount * 1000)) as [|Hlt]; [done|].
  destruct (try_ok _ _ _ _ _ _ Hr) as (res1 & _ & E). rewrite E in Hr |- *. clear E.
  destruct (try_ok _ _ _ _ _ _ Hr) as (body1 & _ & E). rewrite E in Hr |- *. clear E.
  destruct (negb (str_eqb (text_of "tag" body1) "payRequest")); [done|].
  destruct ((amount * 1000 <? number_of "minSendable" body1) || _); [done|].
  destruct (try_ok _ _ _ _ _ _ Hr) as (cb & Ecb & E). rewrite E in Hr |- *. clear E.
  destruct (try_ok _ _ _ _ _ _ Hr) as (res & Eres & E). rewrite E in Hr |- *. clear E.
  destruct (try_ok _ _ _ _ _ _ Hr) as (body & Ebody & E). rewrite E in Hr |- *. clear E.
  destruct (str_eqb (text_of "pr" body) "") eqn:Epr; [done|]. injection Hr as Hpr.
  destruct (lnurl_get_answer _ _ _ _ _ Eres) as (host & pinned & tr' & Etr).
  destruct (callback_params _ _ _ _ _ Ecb) as [Ha Hc]. destruct (document_ok _ _ Ebody) as (Hs & text & Et & Ej).
  assert (pr <> "") as Hne by (rewrite <- Hpr; intros E'; rewrite E' in Epr; done).
  split; [done|]. split; [done|]. exists cb, host, pinned, res, text, body, tr'. split_and!; try done.
  - unfold text_of, as_str in Hpr. destruct (json_get "pr" body); cbn in Hpr; congruence.
  - unfold fit_comment in Hc. destruct comment as [c|]; [|by left]. destruct (_ && _); [|by left].
    right. by exists c.
Qed.
End Answer.

(** ** Examples *)

Definition demo_url (path : string) (pairs : list (string * string)) : Url :=
  mkUrl "https" "" None (Some "pay.example") None path pairs.

(** The server's document for ["joe"], and its invoice. *)
Definition demo_document : Json :=
  JObject [("tag", JString "payRequest"); ("minSendable", JInt 1000); ("maxSendable", JInt 100000000);
           ("callback", JString "https://pay.example/cb?id=7&amount=1"); ("commentAllowed", JInt 5)].

#[export] Instance demo_web : WebLib := {|
  url_parse := fun s =>
    if str_eqb s "https://pay.example/.well-known/lnurlp/joe" then Ok (demo_url "/joe" [])
    else if str_eqb s "https://pay.example/cb?id=7&amount=1"
    then Ok (demo_url "/cb" [("id", "7"); ("amount", "1")])
    else if str_eqb s "https://mint/" then Ok (mkUrl "https" "" None (Some "mint") None "/" [])
    else Err "invalid url";
  lnurl_decode := fun _ => Err "invalid lnurl";
  json_from_str := fun s =>
    if str_eqb s "document" then Ok demo_document
    else if str_eqb s "invoice" then Ok (JObject [("pr", JString "lnbc1")])
    else Err "invalid json"
|}.

Definition demo_server (R : Type) (e : net R) (tr : whist) : R :=
  match e in net R' return R' with
  | LookupHost _ port _ => Some (Ok [mkSocket (V4 (mkV4 93 184 216 34)) port])
  | HttpGet url _ _ _ _ =>
      Ok (mkResponse 200 (Ok (if str_eqb (url_path url) "/joe" then "document" else "invoice")))
  end.

Definition demo_net : Env unit net := mkEnv (fun _ => None) demo_server.

Lemma policy_networks_witness :
  ip_wf (V6 (mkV6 0 0 0 0 0 0xffff 0xa9fe 0xa9fe)) /\
  ip_is_forbidden (V6 (mkV6 0 0 0 0 0 0xffff 0xa9fe 0xa9fe)) = true.
Proof.
  assert (ip_wf (V6 (mkV6 0 0 0 0 0 0xffff 0xa9fe 0xa9fe))) as Hw by (repeat constructor; done).
  split; [exact Hw|]. rewrite (policy_networks _ Hw). by vm_compute.
Defined.

(** The metadata address of a cloud, as a host. *)
Lemma metadata_refused :
  map (fun s => option_map ip_is_forbidden (parse_ip s))
    ["169.254.169.254"; "::ffff:169.254.169.254"; "64:ff9b::a9fe:a9fe"; "::1"; "93.184.216.34"; "pay.example"] =
  [Some true; Some true; Some true; Some true; Some false; None].
Proof. by vm_compute. Qed.

Lemma invoice_is_as_asked_witness :
  run_val demo_net (resolv_ln_address "joe@pay.example" 21 (Some "trade")) tt [] = Ok "lnbc1" /\
  exists url host pinned res tr,
    run_trace demo_net (resolv_ln_address "joe@pay.example" 21 (Some "trade")) tt [] =
      ObsExt (HttpGet url host pinned LNURL_REQUEST_TIMEOUT LNURL_CONNECT_TIMEOUT) (Ok res) :: tr /\
    params "amount" url = ["21000"].
Proof.
  assert (run_val demo_net (resolv_ln_address "joe@pay.example" 21 (Some "trade")) tt [] = Ok "lnbc1") as Hr
    by (by vm_compute).
  split; [exact Hr|].
  destruct (invoice_is_as_asked _ _ _ _ _ Hr) as (_ & _ & url & host & pinned & res & _ & _ & tr & E & _ & _ & _ & _ & Ha & _).
  exists url, host, pinned, res, tr. split; [exact E|]. rewrite Ha. by vm_compute.
Defined.
