(* ===== verification/CashuSpec.v ===== *)
(** * What an accepted escrow token allows

    The spending rule of NUT-11, which the mint enforces, and the theorem that
    a token the condition check accepts is a 2-of-3 escrow with a recovery path
    of the seller. *)

From stdpp Require Import gmap.
From S2P Require Import Prelude CashuTypes BondTypes Effects Model Demo Cashu CashuDemo.

Open Scope Z_scope.
Open Scope prog_scope.

(** ** The rule *)

(** How many of these keys sign. *)
Definition signed (signs : string -> bool) (keys : list string) : Z :=
  Z.of_nat (length (filter (fun k => signs k = true) keys)).

(** A P2PK secret can be spent at [now] with the signatures of [signs]: by
    enough of its keys, or, once its locktime has passed, by enough refund
    keys, or by anyone when it names none. *)
Definition spendable (data : string) (c : Conditions) (signs : string -> bool) (now : Z) : Prop :=
  default 1 (num_sigs c) <= signed signs (data :: default [] (cond_pubkeys c)) \/
  exists t, locktime c = Some t /\ t < now /\
    match refund_keys c with
    | Some keys => default 1 (num_sigs_refund c) <= signed signs keys
    | None => True
    end.

Definition two_of_three (p_b p_s p_m : string) (signs : string -> bool) : Prop :=
  2 <= signed signs [p_b; p_s; p_m].

(** The kinds of the standard tags of a secret. *)
Definition standard_kinds `{Cdk} (tags : list (list string)) : list TagKind :=
  List.filter (fun k => negb (is_custom k))
    (concat (map (fun tag => match tag with key :: _ => [tag_kind_from key] | [] => [] end) tags)).

(** One secret of the escrow: P2PK over the inputs, with no standard tag twice;
    until [floor] two of the three keys spend it and nothing less; at no time
    can it be spent without two of them or the seller; and from some time not
    before [floor] the seller alone can. *)
Record escrow_secret `{Cdk} (p_b p_s p_m : string) (floor : Z) (secret : string) : Prop := {
  es_tags : forall n tags, nut10_from_secret secret = Ok n -> n10_tags n = Some tags ->
    NoDup (standard_kinds tags);
  es_rule : exists data c,
    conditions_from_secret secret = Ok (P2PKConditions data (Some c)) /\ sig_flag c = SigInputs /\
    (forall signs now, now <= floor ->
       spendable data c signs now <-> two_of_three p_b p_s p_m signs) /\
    (forall signs now, spendable data c signs now ->
       two_of_three p_b p_s p_m signs \/ signs p_s = true) /\
    exists t, floor <= t /\
      forall signs now, t < now -> signs p_s = true -> spendable data c signs now
}.

(** ** Lemmas *)

Lemma size_nodup (l : list string) : size (list_to_set l : gset string) = length l -> NoDup l.
Proof.
  intros Hs. apply NoDup_ListNoDup.
  apply (NoDup_incl_NoDup (l := elements (list_to_set l : gset string))).
  - apply NoDup_ListNoDup, NoDup_elements.
  - unfold size, set_size in Hs. simpl in Hs. lia.
  - intros x Hx%list_elem_of_In. rewrite elem_of_elements, elem_of_list_to_set in Hx.
    by apply list_elem_of_In.
Qed.

Lemma signed_perm signs l l' : l ≡ₚ l' -> signed signs l = signed signs l'.
Proof. intros E. unfold signed. by rewrite E. Qed.

Lemma signed_one signs k : 1 <= signed signs [k] <-> signs k = true.
Proof.
  unfold signed. rewrite filter_cons, filter_nil. destruct (decide (signs k = true)); simpl.
  - split; [done|lia].
  - split; [lia|congruence].
Qed.

Section Shape.
Context `{Lib} `{Cdk}.

Lemma duplicate_tag_none seen tags :
  duplicate_tag seen tags = None ->
  NoDup (standard_kinds tags) /\ forall k, In k (standard_kinds tags) -> k ∉ seen.
Proof.
  revert seen. induction tags as [|tag tags IH]; intros seen; [|destruct tag as [|key rest]]; simpl.
  - intros _. split; [constructor|done].
  - apply IH.
  - unfold standard_kinds. simpl. destruct (is_custom (tag_kind_from key)) eqn:Ec; simpl; [apply IH|].
    case_bool_decide as Hin; [done|]. intros Hd. destruct (IH _ Hd) as [Hn Hk]. split.
    + apply NoDup_cons. split; [|done]. intros Hx%list_elem_of_In. apply (Hk _ Hx). by left.
    + intros k [<-|Hx]; [done|]. apply Hk in Hx. intros Hs. apply Hx. by right.
Qed.

(** What the check says of a condition. *)
Lemma check_conditions_ok data c expected p_s :
  check_conditions data c expected p_s = Ok tt ->
  exists t, sig_flag c = SigInputs /\ num_sigs c = Some 2 /\ locktime c = Some t /\
    refund_keys c = Some [p_s] /\ default 1 (num_sigs_refund c) = 1 /\
    NoDup (data :: default [] (cond_pubkeys c)) /\
    list_to_set (data :: default [] (cond_pubkeys c)) = expected.
Proof.
  unfold check_conditions. repeat case_bool_decide; simpl; try done.
  all: destruct (Nat.eqb_spec (size ({[data]} ∪ list_to_set (default [] (cond_pubkeys c)) : gset string))
    (S (length (default [] (cond_pubkeys c))))) as [Es|]; simpl; [|done].
  all: destruct (locktime c) as [t|]; simpl; [|done]. all: try done.
  intros Hr. exists t. split_and!; try done.
  - destruct (num_sigs_refund c) as [n|]; [|done]. simpl. by destruct (Z.eqb_spec n 1).
  - by apply size_nodup.
Qed.

Lemma expected_keys p_b p_s p_m keys :
  size (list_to_set [p_b; p_s; p_m] : gset string) = 3%nat -> NoDup keys ->
  list_to_set keys = (list_to_set [p_b; p_s; p_m] : gset string) -> keys ≡ₚ [p_b; p_s; p_m].
Proof.
  intros Hs Hn E. apply NoDup_Permutation; [done|by apply size_nodup|].
  intros x. by rewrite <- !(elem_of_list_to_set (C := gset string)), E.
Qed.

Context `{!CdkLaws}.

Lemma check_secret_ok expected p_s secret :
  check_secret expected p_s secret = Ok tt ->
  (forall n tags, nut10_from_secret secret = Ok n -> n10_tags n = Some tags ->
     NoDup (standard_kinds tags)) /\
  exists data c, conditions_from_secret secret = Ok (P2PKConditions data (Some c)) /\
    check_conditions data c expected p_s = Ok tt.
Proof.
  unfold check_secret. rewrite conditions_via_nut10.
  destruct (nut10_from_secret secret) as [n|]; simpl; [|done].
  destruct (reject_duplicate_standard_tags n) as [[]|] eqn:Er; simpl; [|done].
  destruct (conditions_from_nut10 n) as [[data [c|]|]|]; simpl; try done. intros Hc. split; [|eauto].
  intros n' tags [= <-] Et. unfold reject_duplicate_standard_tags in Er. rewrite Et in Er.
  destruct (duplicate_tag [] tags) eqn:Ed; [done|]. by apply duplicate_tag_none in Ed as [? _].
Qed.

(** The floor is checked on conditions that were found to carry a locktime. *)
Lemma check_floors_total expected p_s floor secrets :
  Forall (fun s => check_secret expected p_s s = Ok tt) secrets ->
  exists r, check_floors floor secrets = Some r /\
    (r = Ok tt -> Forall (fun s => check_floor floor s = Some (Ok tt)) secrets).
Proof.
  induction 1 as [|s secrets Hs _ IH]; [by eexists|]. cbn [check_floors].
  destruct (check_floor floor s) as [[[]|e]|] eqn:Ef; [|by eexists|].
  - destruct IH as (r & -> & Hr). exists r. split; [done|]. intros ->. constructor; auto.
  - destruct (check_secret_ok _ _ _ Hs) as (_ & data & c & Ec & Hc).
    apply check_conditions_ok in Hc as (t & _ & _ & Et & _).
    unfold check_floor in Ef. by rewrite Ec, Et in Ef.
Qed.

Lemma escrow_secret_ok p_b p_s p_m floor secret :
  size (list_to_set [p_b; p_s; p_m] : gset string) = 3%nat ->
  check_secret (list_to_set [p_b; p_s; p_m]) p_s secret = Ok tt ->
  check_floor floor secret = Some (Ok tt) -> escrow_secret p_b p_s p_m floor secret.
Proof.
  intros Hsize Hc Hf. apply check_secret_ok in Hc as (Ht & data & c & Ec & Hc). split; [done|].
  apply check_conditions_ok in Hc as (t & Hflag & Hsigs & Et & Hrefund & Hn & Hnd & Hset).
  unfold check_floor in Hf. rewrite Ec, Et in Hf. destruct (Z.ltb_spec t floor) as [|Hle]; [done|].
  apply expected_keys in Hset; [|done..].
  exists data, c. unfold spendable, two_of_three. rewrite Hsigs, Hrefund, Hn. simpl default.
  split_and!; [done|done| | |].
  - intros signs now Hnow. rewrite (signed_perm _ _ _ Hset). split; [|by left].
    intros [|(t' & Et' & Hlt & _)]; [done|]. rewrite Et in Et'. injection Et' as <-. lia.
  - intros signs now. rewrite (signed_perm _ _ _ Hset).
    intros [|(_ & _ & _ & Hs%signed_one)]; [by left|by right].
  - exists t. split; [done|]. intros signs now Hlt Hs. right. exists t. by rewrite signed_one.
Qed.

Lemma verify_2of3_ok token_str p_b p_s p_m token :
  verify_2of3_condition token_str p_b p_s p_m = Ok token ->
  token_from_str token_str = Ok token /\ token_secrets token <> [] /\
  size (list_to_set [p_b; p_s; p_m] : gset string) = 3%nat /\
  Forall (fun s => check_secret (list_to_set [p_b; p_s; p_m]) p_s s = Ok tt) (token_secrets token).
Proof.
  unfold verify_2of3_condition. destruct (token_from_str token_str) as [t|]; [|done].
  cbn [map_err]. destruct (token_secrets t) as [|s l] eqn:El; [done|].
  destruct (Nat.eqb_spec (size (list_to_set [p_b; p_s; p_m] : gset string)) 3) as [Hs|]; [|done].
  cbn [negb]. destruct (check_each (s :: l) _) as [[]|] eqn:Ec; [|done]. intros [= <-].
  rewrite El. split_and!; try done. rewrite check_each_ok in Ec.
  apply Forall_forall. intros x Hx%list_elem_of_In. by apply Ec.
Qed.

Definition accepts_escrow (text p_b p_s p_m : string) (floor : Z) (token : CashuToken) : Prop :=
  token_from_str text = Ok token /\ token_secrets token <> [] /\ NoDup [p_b; p_s; p_m] /\
  Forall (escrow_secret p_b p_s p_m floor) (token_secrets token).

Lemma escrow_conditions_hold text p_b p_s p_m floor :
  exists r, verify_escrow_conditions text p_b p_s p_m floor = Some r /\
    forall token, r = Ok token -> accepts_escrow text p_b p_s p_m floor token.
Proof.
  unfold verify_escrow_conditions.
  destruct (verify_2of3_condition text p_b p_s p_m) as [token|] eqn:Ev; [|by eexists].
  apply verify_2of3_ok in Ev as (Et & Hne & Hs & Hc).
  destruct (check_floors_total _ _ floor _ Hc) as (r & Hr & Hok). rewrite Hr.
  destruct r as [[]|e]; [|by eexists]. eexists. split; [done|]. intros t [= <-].
  split_and!; [done|done|by apply size_nodup|].
  apply Forall_forall. intros s Hin. specialize (Hok eq_refl).
  rewrite Forall_forall in Hc. rewrite Forall_forall in Hok. apply escrow_secret_ok; auto.
Qed.

(** C16: The condition check of an escrow token never panics, and accepts only
    a 2-of-3 escrow.  Of every secret of an accepted token: two of the buyer,
    the seller and the daemon can spend it, before the locktime floor nothing
    less can, at no time can it be spent without two of them or the seller,
    and from some time not before the floor the seller alone can; and no
    standard tag occurs twice, so that no other reader of the secret applies
    another rule. *)
Theorem accepted_escrow_two_of_three text p_b p_s p_m floor :
  exists r, verify_escrow_conditions text p_b p_s p_m floor = Some r /\
    forall token, r = Ok token ->
      token_from_str text = Ok token /\ token_secrets token <> [] /\ NoDup [p_b; p_s; p_m] /\
      Forall (escrow_secret p_b p_s p_m floor) (token_secrets token).
Proof. apply escrow_conditions_hold. Qed.
End Shape.

Lemma accepted_escrow_two_of_three_witness :
  let key hex := "02" +:+ hex in
  let check floor := verify_escrow_conditions "cashuB" (key demo_buyer) (key demo_seller) (key demo_node) floor in
  check 5000000 = Some (Ok demo_token) /\ (exists e, check 5000001 = Some (Err (ConditionError e))) /\
  Forall (escrow_secret (key demo_buyer) (key demo_seller) (key demo_node) 5000000) ["secret-1"; "secret-2"].
Proof.
  intros key check. split; [by vm_compute|]. split; [eexists; by vm_compute|].
  destruct (accepted_escrow_two_of_three "cashuB" (key demo_buyer) (key demo_seller) (key demo_node) 5000000)
    as (r & Er & Hr).
  assert (r = Ok demo_token) as -> by (apply (f_equal (default (Err (ClientError "")))) in Er; cbn in Er;
    rewrite <- Er; by vm_compute).
  by destruct (Hr demo_token eq_refl) as (_ & _ & _ & H).
Defined.
