(* ===== verification/CashuPact.v ===== *)
(** * What the tasks of a Cashu node agree on

    What makes the escrow of an order funded, the steps the event loop and the
    other tasks may take on an order, and the invariant they keep. *)

From S2P Require Import Prelude Float64 Config CashuTypes BondTypes BondMath Effects Model.
From S2P Require Import Lightning BondDb OrderDb BondPayout BondInv OrderPayout Tasks PayoutPact PayoutTasks.
From S2P Require Import Messages Take Cashu CashuEscrow CashuSpec Authority Walk.

Open Scope Z_scope.
Open Scope prog_scope.

(** What the daemon relies on of mostro-core: the accessors of the trade keys
    read their column, [check_status] compares the status column, a default
    order has no escrow, and a time stamp is only that. *)
Class TradeLaws `{Lib} `{Core} : Prop := {
  buyer_column : forall o o', o_buyer_pubkey o = o_buyer_pubkey o' ->
    get_buyer_pubkey o = get_buyer_pubkey o';
  seller_column : forall o o', o_seller_pubkey o = o_seller_pubkey o' ->
    get_seller_pubkey o = get_seller_pubkey o';
  checked_status : forall o s, check_status o s = Ok tt -> o_status o = status_to_string s;
  default_unlocked : o_cashu_escrow_token order_default = None /\
    o_cashu_escrow_locked_at order_default = None;
  taken_at_only : forall now o, set_timestamp_now now o = o <| o_taken_at := now |>
}.

Abbreviation cobs := (obs DB ext).
Abbreviation chist := (list cobs).

Section Pact.
Context `{Lib} `{Core} `{Cdk} (settings : Settings) (node_pubkey : string) (client : CashuClient).

Abbreviation locked_at_of := o_cashu_escrow_locked_at.
Abbreviation token_of := o_cashu_escrow_token.

Definition locktime_days : Z := default 15 (option_map escrow_locktime_days (get_cashu settings)).

(** ** A funded escrow *)

(** One of the mint's sat keysets signed this proof, with the key of its
    amount. *)
Definition signed_by (keysets : list KeySet) (p : CashuProof) : Prop :=
  exists ks key, In ks keysets /\ ks_unit ks = Sat /\
    key_for_amount ks (cp_amount p) = Some key /\ verify_dleq p (ks_id ks) key = true.

(** The mint gave its keys and answered that every proof is unspent. *)
Definition vouched (token : CashuToken) (tr : chist) : Prop :=
  exists keysets ys states,
    In (ObsExt GetMintKeys (Some (Ok keysets))) tr /\ Forall (signed_by keysets) (token_proofs token) /\
    points_of (token_secrets token) = Ok ys /\
    In (ObsExt (PostCheckState ys) (Some (Ok states))) tr /\
    length states = length ys /\ Forall (eq Unspent) states.

(** The token funds a trade of [amount] sats between these keys. *)
Record pays_for (token : CashuToken) (buyer seller : string) (amount t : Z) : Prop := {
  pf_amount : 0 < amount /\ foldr Z.add 0 (map cp_amount (token_proofs token)) = amount;
  pf_unit : token_unit token = Some Sat;
  pf_mint : token_mint_url token = Ok (client_mint_url client);
  pf_proofs : token_secrets token <> [] /\ NoDup (token_secrets token);
  pf_keys : exists p_b p_s p_m,
    cashu_pubkey_from_xonly_hex buyer = Ok p_b /\ cashu_pubkey_from_xonly_hex seller = Ok p_s /\
    cashu_pubkey_from_xonly_hex node_pubkey = Ok p_m /\ NoDup [p_b; p_s; p_m] /\
    Forall (escrow_secret p_b p_s p_m (min_locktime_of t locktime_days)) (token_secrets token)
}.

(** A genuine event of the seller of [r] offered [text] for this order. *)
Definition submitted (text : string) (r : Order) (tr : chist) : Prop :=
  exists u proof, received AddCashuEscrow u tr /\ m_id (u_message u) = Some (o_id r) /\
    get_seller_pubkey r = Ok (u_sender u) /\
    m_payload (u_message u) = Some (PlCashuLockProof proof) /\ lp_token proof = text.

(** The row stores a token that its seller submitted, checked since [t] for its
    parties and its amount. *)
Definition funded (r : Order) (t : Z) (tr : chist) : Prop :=
  exists text token buyer seller,
    token_of r = Some text /\ token_from_str text = Ok token /\
    get_buyer_pubkey r = Ok buyer /\ get_seller_pubkey r = Ok seller /\
    submitted text r tr /\ pays_for token buyer seller (o_amount r) t /\ vouched token tr.

(** ** Rows *)

(** The parties and the amount of a trade. *)
Definition terms (r : Order) : option string * option string * Z :=
  (o_buyer_pubkey r, o_seller_pubkey r, o_amount r).

(** No escrow. *)
Definition open_row (r : Order) : Prop :=
  locked_at_of r = None /\ token_of r = None /\ o_status r <> status_to_string Active.

Definition row_ok (r : Order) : Prop :=
  match locked_at_of r with
  | Some _ => o_status r = status_to_string Active
  | None => open_row r
  end.

Definition rows_ok (db : DB) : Prop := keys_ok db /\ forall i r, row i db = Some r -> row_ok r.

(** A locked row keeps its escrow, its terms and its status. *)
Definition keeps_escrow (r r' : Order) : Prop :=
  locked_at_of r' = locked_at_of r /\ token_of r' = token_of r /\ terms r' = terms r /\
  o_status r' = o_status r.

(** The other tasks: an open row stays open, and does not start to wait for a
    payment, or change its terms while it does. *)
Definition spares (r r' : Order) : Prop :=
  match locked_at_of r with
  | Some _ => keeps_escrow r r'
  | None => open_row r' /\
      (o_status r' = status_to_string WaitingPayment ->
       o_status r = status_to_string WaitingPayment /\ terms r' = terms r)
  end.

Definition spares_escrows (db db' : DB) : Prop :=
  keys_ok db' /\ forall i,
    match row i db, row i db' with
    | Some r, Some r' => spares r r'
    | None, Some r' => open_row r'
    | None, None => True
    | Some _, None => False
    end.

(** The event loop: it may also lock an open row with a token of no other. *)
Inductive loop_step (tr : chist) (i : Uuid) (db' : DB) (r r' : Order) : Prop :=
| ls_keep : locked_at_of r <> None -> keeps_escrow r r' -> loop_step tr i db' r r'
| ls_open : locked_at_of r = None -> open_row r' -> loop_step tr i db' r r'
| ls_lock t : locked_at_of r = None -> locked_at_of r' = Some t ->
    o_status r' = status_to_string Active -> funded r' t tr ->
    (forall j rj, j <> i -> row j db' = Some rj -> token_of rj <> token_of r') ->
    loop_step tr i db' r r'.

Definition loop_rows (tr : chist) (db db' : DB) : Prop := forall i,
  match row i db, row i db' with
  | Some r, Some r' => loop_step tr i db' r r'
  | None, Some r' => open_row r'
  | None, None => True
  | Some _, None => False
  end.

(** ** Messages *)

Definition row_locked (i : Uuid) (db : DB) : Prop :=
  exists r, row i db = Some r /\ locked_at_of r <> None.

(** The parties are told only of a locked escrow. *)
Definition tells_truth (o : cobs) (db : DB) : Prop :=
  match o with
  | ObsExt e _ =>
      match e with
      | Enqueue m => q_action m = CashuEscrowLocked ->
          exists i, q_order_id m = Some i /\ row_locked i db
      | _ => True
      end
  | ObsSql _ _ => True
  end.

(** A request that does not speak of an escrow. *)
Definition quiet_request (R : Type) (e : ext R) : Prop :=
  match e with Enqueue m => q_action m <> CashuEscrowLocked | _ => True end.

Definition quiet_obs (o : cobs) : Prop :=
  match o with ObsExt e _ => quiet_request _ e | ObsSql _ _ => True end.

(** ** The agreement *)

Definition G_spare (tr : chist) (db : DB) (o : cobs) (db' : DB) : Prop :=
  spares_escrows db db' /\ quiet_obs o.

Definition G_loop (tr : chist) (db : DB) (o : cobs) (db' : DB) : Prop :=
  keys_ok db' /\ loop_rows (o :: tr) db db' /\ tells_truth o db.

Record escrows_ok (tr : chist) (db : DB) : Prop := {
  eo_rows : rows_ok db;
  eo_funded : forall i r t, row i db = Some r -> locked_at_of r = Some t -> funded r t tr;
  eo_once : forall i j r r' text, row i db = Some r -> row j db = Some r' ->
    token_of r = Some text -> token_of r' = Some text -> i = j;
  eo_told : forall m, In (ObsExt (Enqueue m) tt) tr -> q_action m = CashuEscrowLocked ->
    exists i, q_order_id m = Some i /\ row_locked i db
}.

Definition no_law : chist -> Prop := fun _ => True.
Definition spare_tasks : Spec DB ext := handler_spec no_law escrows_ok G_spare G_loop.
Definition the_loop : Spec DB ext := sched_spec no_law escrows_ok G_spare G_loop.

(** Every statement of such a task spares the escrows of the databases that
    arise. *)
Definition spare_stmt (R : Type) (stmt : DB -> DB * R) : Prop :=
  forall db, rows_ok db -> spares_escrows db (stmt db).1.

Definition escrow_bystander (p : M unit) : Prop := prog_all spare_stmt quiet_request p.

(** ** The invariant is kept *)

Context `{!TradeLaws}.

Lemma vouched_cons o token tr : vouched token tr -> vouched token (o :: tr).
Proof.
  intros (ks & ys & st & Hk & Hs & Hp & Hc & Hl & Hu). exists ks, ys, st.
  split_and!; try done; by right.
Qed.

Lemma submitted_cons o text r tr : submitted text r tr -> submitted text r (o :: tr).
Proof.
  intros (u & proof & Hu & Hrest). exists u, proof. split; [|done].
  eapply received_mono; [|exact Hu]. by apply incl_tl, incl_refl.
Qed.

(** It speaks of the identity and the seller of the row. *)
Lemma submitted_same text r r' tr :
  o_id r' = o_id r -> o_seller_pubkey r' = o_seller_pubkey r ->
  submitted text r tr -> submitted text r' tr.
Proof.
  intros Ei Es (u & proof & Hu & Hi & Hs & Hp). exists u, proof.
  by rewrite Ei, (seller_column r' r Es).
Qed.

Lemma funded_keep o tr r r' t :
  o_id r' = o_id r -> keeps_escrow r r' -> funded r t tr -> funded r' t (o :: tr).
Proof.
  intros Ei (_ & Et & Em & _) (text & token & b & s & Hx & Hp & Hb & Hs & Hsub & Hpay & Hv).
  injection Em as Eb Es Ea. exists text, token, b, s.
  rewrite Et, Ea, (buyer_column r' r Eb), (seller_column r' r Es).
  split_and!; try done; [|by apply vouched_cons].
  by apply submitted_cons, (submitted_same text r r').
Qed.

(** A row of the new state was there, and came by a step, or is new and open. *)
Lemma step_back tr db db' i r' :
  loop_rows tr db db' -> row i db' = Some r' ->
  (exists r, row i db = Some r /\ loop_step tr i db' r r') \/ open_row r'.
Proof.
  intros Hr E. specialize (Hr i). rewrite E in Hr. destruct (row i db) as [r|]; [left; eauto|by right].
Qed.

Lemma locked_on tr db db' i : loop_rows tr db db' -> row_locked i db -> row_locked i db'.
Proof.
  intros Hr (r & E & Hl). specialize (Hr i). rewrite E in Hr.
  destruct (row i db') as [r'|] eqn:E'; [|done]. exists r'. split; [done|].
  destruct Hr as [_ (-> & _)|?|t ? ->]; done.
Qed.

(** A step of the other tasks is a step the loop might take. *)
Lemma spared_rows tr db db' : rows_ok db -> spares_escrows db db' -> loop_rows tr db db'.
Proof.
  intros [_ Hok] [_ Hs] i. specialize (Hs i). destruct (row i db) as [r|] eqn:E, (row i db') as [r'|]; try done.
  unfold spares in Hs. destruct (locked_at_of r) eqn:El; [by apply ls_keep; [congruence|]|].
  apply ls_open; [done|apply Hs].
Qed.

Lemma told_kept (tr : chist) db o db' :
  loop_rows (o :: tr) db db' -> tells_truth o db ->
  (forall m, In (ObsExt (Enqueue m) tt) tr -> q_action m = CashuEscrowLocked ->
     exists i, q_order_id m = Some i /\ row_locked i db) ->
  forall m, In (ObsExt (Enqueue m) tt) (o :: tr) -> q_action m = CashuEscrowLocked ->
    exists i, q_order_id m = Some i /\ row_locked i db'.
Proof.
  intros Hr Ht Hold m Hin Ha.
  assert (exists i, q_order_id m = Some i /\ row_locked i db) as (i & Ei & Hi).
  { destruct Hin as [->|Hin]; [by apply Ht|by apply Hold]. }
  exists i. split; [done|]. by eapply locked_on.
Qed.

Lemma loop_keeps tr db o db' :
  escrows_ok tr db -> keys_ok db' -> loop_rows (o :: tr) db db' -> tells_truth o db ->
  escrows_ok (o :: tr) db'.
Proof.
  intros Hv Hk Hr Ht. destruct Hv as [[_ Hok] Hf Ho Hm].
  split; [split; [done|]| | |by eapply told_kept].
  - intros i r' E. destruct (step_back _ _ _ _ _ Hr E) as [(r & Er & Hs)|Hn].
    + destruct Hs as [Hl (El & _ & _ & Es)|Hl Ho'|t Hl El Es]; unfold row_ok.
      * pose proof (Hok i r Er) as Hx. unfold row_ok in Hx. rewrite El, Es. by destruct (locked_at_of r).
      * pose proof Ho' as (-> & _). done.
      * by rewrite El.
    + unfold row_ok. pose proof Hn as (-> & _). done.
  - intros i r' t E El'. destruct (step_back _ _ _ _ _ Hr E) as [(r & Er & Hs)|(Hn & _)]; [|congruence].
    destruct Hs as [Hl Hkeep|Hl (Hn & _)|t' Hl El Es Hfund]; [|congruence|congruence].
    destruct (row_key _ _ _ E) as [Ei' _]. destruct (row_key _ _ _ Er) as [Ei _].
    apply (funded_keep o tr r r'); [congruence|done|]. destruct Hkeep as (El & _). apply (Hf i r t Er). congruence.
  - (* a token of the new state is old, or that of the one row now locked *)
    assert (forall i r', row i db' = Some r' -> token_of r' <> None ->
      (exists r, row i db = Some r /\ token_of r = token_of r') \/
      forall j rj, j <> i -> row j db' = Some rj -> token_of rj <> token_of r') as Hnew.
    { intros i r' E Hn. destruct (step_back _ _ _ _ _ Hr E) as [(r & Er & Hs)|(_ & Hx & _)]; [|done].
      destruct Hs as [_ (_ & Et & _)|_ (_ & Hx & _)|t _ _ _ _ Hu]; [eauto|done|by right]. }
    intros i j r r' text Ei Ej Et Et'. destruct (N.eq_dec i j) as [|Hne]; [done|].
    destruct (Hnew i r Ei) as [(ri & Ri & Ti)|Hu]; [congruence| |].
    + destruct (Hnew j r' Ej) as [(rj & Rj & Tj)|Hu]; [congruence| |].
      * apply (Ho i j ri rj text); congruence.
      * exfalso. apply (Hu i r); congruence.
    + exfalso. apply (Hu j r'); congruence.
Qed.

Lemma quiet_truth o db : quiet_obs o -> tells_truth o db.
Proof. destruct o as [|R e r]; [done|]. destruct e; try done. intros Hq Ha. by destruct Hq. Qed.

Lemma escrows_kept : kept spare_tasks (rely spare_tasks) escrows_ok.
Proof.
  intros tr db o db' Hv _ [[Hs Hq]|(Hk & Hr & Ht)] _; [|by apply (loop_keeps tr db)].
  pose proof Hs as [Hk _]. apply (loop_keeps tr db); [done|done| |by apply quiet_truth].
  apply spared_rows; [apply Hv|done].
Qed.

Lemma row_same i db db' : orders db' = orders db -> row i db' = row i db.
Proof. unfold row. by intros ->. Qed.

Lemma spares_same db db' : orders db' = orders db -> rows_ok db -> spares_escrows db db'.
Proof.
  intros Eo [Hk Hok]. split; [unfold keys_ok; by rewrite Eo|]. intros i.
  rewrite (row_same i db db' Eo). destruct (row i db) as [r|] eqn:E; [|done].
  pose proof (Hok i r E) as Hr. unfold spares, row_ok in *. by destruct (locked_at_of r).
Qed.

Lemma escrow_bystander_ok p : escrow_bystander p -> wp spare_tasks anything p (fun _ => anything).
Proof.
  unfold escrow_bystander. induction p as [a|R stmt k IH|R e k IH]; cbn; [done|..].
  - intros [Hs Hk]. split; intros r; exists anything;
      (split; [apply kept_pure|]); (split; [|by apply IH]); intros tr db [Hrows _ _ _].
    + intros _ _ _. split; [|done]. split; [by apply Hs|done].
    + intros _ _. split; [|done]. split; [by apply spares_same|done].
  - intros [Hq Hk] r. exists anything. split; [apply kept_pure|]. split; [|by apply IH].
    intros tr db [Hrows _ _ _] _ _. split; [|done]. split; [by apply spares_same|done].
Qed.
End Pact.
