(* ===== verification/CashuLoop.v ===== *)
(** * The event loop of a Cashu node keeps the escrows funded

    The rules for the steps of the event loop under the agreement of
    [CashuPact], a specification of each handler of [dispatch_cashu], and the
    theorem about all interleavings. *)

From S2P Require Import Prelude Float64 Config CashuTypes BondTypes BondMath Effects Model.
From S2P Require Import Lightning BondDb BondRelease OrderDb BondLock Messages Users NewOrder Take.
From S2P Require Import BondPayout BondInv OrderPayout Tasks PayoutPact PayoutTasks.
From S2P Require Import BondSlash Disputes TradeFlow Release CancelOrder AdminOrder Ratings Sessions Gate.
From S2P Require Import Cashu CashuEscrow CashuDemo EventLoop CashuSpec Authority Walk CashuPact Lnurl LnurlSpec Validation Demo.

Open Scope Z_scope.
Open Scope prog_scope.

Section Loop.
Context `{Lib} `{Core} `{PayoutLib} `{Cdk} (settings : Settings) (node_pubkey : string).
Context (client : CashuClient) {HL : LibLaws} {HT : TradeLaws} {HC : CdkLaws}.

Abbreviation L := (the_loop settings node_pubkey client).
Abbreviation escrows_ok := (escrows_ok settings node_pubkey client).
Abbreviation locked_at_of := o_cashu_escrow_locked_at.
Abbreviation token_of := o_cashu_escrow_token.

Definition knowledge : Type := chist -> DB -> Prop.

(** ** Rules *)

Lemma map_err_ok {A E F} (f : E -> F) (r : result A E) a : map_err f r = Ok a -> r = Ok a.
Proof. destruct r; simpl; congruence. Qed.

(** Only the orders and the past matter. *)
Definition about_rows (K : knowledge) : Prop :=
  forall tr o db db', orders db' = orders db -> K tr db -> K (o :: tr) db'.

Lemma idle_step tr db o db' :
  escrows_ok tr db -> orders db' = orders db -> quiet_obs o ->
  G_loop settings node_pubkey client tr db o db'.
Proof.
  intros Hv Eo Hq. pose proof (eo_rows _ _ _ _ _ Hv) as Hrows.
  pose proof (spares_same db db' Eo Hrows) as Hs. split_and!.
  - apply Hs.
  - by apply spared_rows.
  - by apply quiet_truth.
Qed.

Definition same_orders (R : Type) (stmt : DB -> DB * R) : Prop :=
  forall db, orders (stmt db).1 = orders db.

(** A part of a handler that writes no order and speaks of no escrow. *)
Abbreviation quiet p := (prog_all same_orders quiet_request p).

Lemma wp_quiet {A} (p : M A) (K : knowledge) :
  quiet p -> stable L K -> about_rows K -> wp L K p (fun _ => K).
Proof.
  intros Hp Hs Ha. induction p as [a|R stmt k IH|R e k IH]; cbn in *; [done|..].
  - destruct Hp as [Hq Hk]. split; intros r; exists K; (split; [done|]);
      (split; [|by apply IH]); intros tr db Hv HK.
    + intros _ _. split; [by apply idle_step; [|apply Hq|]|by eapply Ha; [apply Hq|]].
    + intros _. split; [by apply idle_step|by eapply Ha].
  - destruct Hp as [Hq Hk]. intros r. exists K. split; [done|]. split; [|by apply IH].
    intros tr db Hv HK _. split; [by apply idle_step|by eapply Ha].
Qed.

Lemma wp_done {A} (a : A) (K : knowledge) : wp L K (Ret a) (fun _ => K).
Proof. intros tr db _ HK. exact HK. Qed.

Lemma wp_then {A B} (p : M A) (f : A -> M B) (K : knowledge) Post :
  quiet p -> stable L K -> about_rows K -> (forall a, wp L K (f a) Post) ->
  wp L K (bind p f) Post.
Proof. intros Hp Hs Ha Hf. eapply wp_bind; [by apply wp_quiet|done]. Qed.

(** A step that may fail. *)
Lemma wp_next {A B E} (p : M (result A E)) (f : A -> M (result B E)) (K : knowledge) Post :
  quiet p -> stable L K -> about_rows K -> (forall a, wp L K (f a) Post) ->
  (forall e tr db, Post (Err e) tr db) -> wp L K (try p f) Post.
Proof.
  intros Hp Hs Ha Hf He. apply wp_then; [done..|]. intros [a|e]; [done|]. intros tr db _ _. apply He.
Qed.

(** Of a pure step that may fail. *)
Lemma wp_checked {A B E} (r : result A E) (f : A -> M (result B E)) (K : knowledge) Post :
  (forall a, r = Ok a -> wp L K (f a) Post) -> (forall e tr db, Post (Err e) tr db) ->
  wp L K (try (Ret r) f) Post.
Proof. intros Hf He. destruct r as [a|e]; [by apply Hf|]. intros tr db _ _. apply He. Qed.

(** A quiet end. *)
Lemma wp_end {A} (p : M A) (K : knowledge) : quiet p -> wp L K p (fun _ => anything).
Proof.
  intros Hp. eapply (wp_pre _ anything); [done|]. apply wp_quiet; [done|apply kept_pure|done].
Qed.

(** A request whose answer is remembered. *)
Lemma wp_outside {R} (e : ext R) (K : knowledge) :
  quiet_request _ e -> stable L K -> about_rows K ->
  wp L K (call e) (fun r tr db => K tr db /\ In (ObsExt e r) tr).
Proof.
  intros Hq Hs Ha. apply wp_call.
  - intros r. apply kept_and; [done|apply kept_obs].
  - intros r tr db Hv HK _. split; [by apply idle_step|]. split; [by eapply Ha|by left].
Qed.

Lemma about_and (K F : knowledge) :
  about_rows K -> about_rows F -> about_rows (fun tr db => K tr db /\ F tr db).
Proof. intros HK HF tr o db db' Eo [H1' H2']. split; [by eapply HK|by eapply HF]. Qed.

Lemma about_db (K : DB -> Prop) :
  (forall db db', orders db' = orders db -> K db -> K db') -> about_rows (fun _ => K).
Proof. intros HK tr o db db' Eo. by apply HK. Qed.

Lemma about_obs o : about_rows (fun tr _ => In o tr).
Proof. intros tr o' db db' _ Hin. by right. Qed.

(** A fact about the past survives every program. *)
Definition past (F : chist -> Prop) : Prop := forall o tr, F tr -> F (o :: tr).

Lemma stable_past F : past F -> stable L (fun tr _ => F tr).
Proof. intros HF tr db o db' _ _ _. apply HF. Qed.

Lemma about_past F : past F -> about_rows (fun tr _ => F tr).
Proof. intros HF tr o db db' _. apply HF. Qed.

Lemma wp_past {A} F (K : knowledge) (p : M A) Post :
  past F -> wp L K p Post ->
  wp L (fun tr db => K tr db /\ F tr) p (fun a tr db => Post a tr db /\ F tr).
Proof. intros HF. apply wp_frame; intros tr db o db' _ _ _; apply HF. Qed.

Lemma past_received a u : past (received a u).
Proof. intros o tr. apply received_mono, incl_tl, incl_refl. Qed.

Lemma past_submitted text r : past (submitted text r).
Proof. intros o tr. apply submitted_cons. Qed.

(** ** Knowledge about a row *)

Definition row_open (i : Uuid) (db : DB) : Prop :=
  exists r, row i db = Some r /\ locked_at_of r = None.

(** The copy [c] has the escrow of its row, and while the row waits for a
    payment without one, its terms. *)
Definition copied (c : Order) (db : DB) : Prop :=
  exists r, row (o_id c) db = Some r /\ locked_at_of r = locked_at_of c /\
    (locked_at_of r = None -> o_status r = status_to_string WaitingPayment -> terms r = terms c).

(** The copy [c] has the escrow and the terms of its row, which is locked. *)
Definition locked_copy (c : Order) (db : DB) : Prop :=
  exists r, row (o_id c) db = Some r /\ locked_at_of r <> None /\ locked_at_of c = locked_at_of r /\
    token_of c = token_of r /\ terms c = terms r.

(** A fact about a row that every row the others may leave has, too. *)
Lemma stable_row i (Q : Order -> Prop) :
  (forall r r', row_ok r -> spares r r' -> Q r -> Q r') ->
  stable L (fun _ db => exists r, row i db = Some r /\ Q r).
Proof.
  intros HQ tr db o db' Hv _ [[_ Hs] _] (r & E & Hr). specialize (Hs i). rewrite E in Hs.
  destruct (row i db') as [r'|]; [|done]. exists r'. split; [done|]. apply (HQ r); [|done..].
  exact (proj2 (eo_rows _ _ _ _ _ Hv) i r E).
Qed.

Lemma about_row i (Q : Order -> Prop) : about_rows (fun _ db => exists r, row i db = Some r /\ Q r).
Proof. apply about_db. intros db db' Eo. by rewrite (row_same i db db' Eo). Qed.

Lemma spares_locked r r' : spares r r' -> locked_at_of r' = locked_at_of r.
Proof. unfold spares. destruct (locked_at_of r) eqn:E; [by intros (-> & _)|by intros [(? & _) _]]. Qed.

Lemma stable_open i : stable L (fun _ => row_open i).
Proof. apply stable_row. intros r r' _ Hs E. by rewrite (spares_locked r r' Hs). Qed.

Lemma stable_locked i : stable L (fun _ => row_locked i).
Proof. apply stable_row. intros r r' _ Hs E. by rewrite (spares_locked r r' Hs). Qed.

Lemma stable_copied c : stable L (fun _ => copied c).
Proof.
  apply stable_row. intros r r' _ Hs [El Hq]. pose proof (spares_locked r r' Hs) as El'.
  split; [congruence|]. intros En Ew. unfold spares in Hs. rewrite <- El', En in Hs.
  destruct Hs as [_ Hs]. destruct (Hs Ew) as [Er ->]. apply Hq; [congruence|done].
Qed.

Lemma stable_locked_copy c : stable L (fun _ => locked_copy c).
Proof.
  apply stable_row. intros r r' _ Hs (Hl & El & Et & Em). unfold spares in Hs.
  destruct (locked_at_of r) eqn:E; [|done]. destruct Hs as (-> & -> & -> & _). by rewrite E.
Qed.

Lemma about_open i : about_rows (fun _ => row_open i). Proof. apply about_row. Qed.
Lemma about_locked i : about_rows (fun _ => row_locked i). Proof. apply about_row. Qed.
Lemma about_copied c : about_rows (fun _ => copied c). Proof. apply about_row. Qed.
Lemma about_locked_copy c : about_rows (fun _ => locked_copy c). Proof. apply about_row. Qed.
Lemma loop_stable_any : stable L anything. Proof. apply kept_pure. Qed.
Lemma about_any : about_rows anything. Proof. done. Qed.

Hint Resolve stable_open stable_locked stable_copied stable_locked_copy loop_stable_any kept_and kept_obs
  kept_pure kept_impl about_open about_locked about_copied about_locked_copy about_any about_and
  about_obs stable_past about_past past_received past_submitted : core.

Lemma copied_open c db : copied c db -> locked_at_of c = None -> row_open (o_id c) db.
Proof. intros (r & E & El & _) En. exists r. split; [done|congruence]. Qed.

Lemma copied_locked c db : copied c db -> locked_at_of c <> None -> row_locked (o_id c) db.
Proof. intros (r & E & El & _) En. exists r. split; [done|congruence]. Qed.

(** ** Writing *)

Lemma active_only s : s <> Active -> status_to_string s <> status_to_string Active.
Proof.
  intros Hs E. apply Hs. apply (f_equal status_from_str) in E. rewrite !status_from_to in E. congruence.
Qed.

(** A row the loop leaves alone. *)
Lemma idle_row tr i db' r : row_ok r -> loop_step settings node_pubkey client tr i db' r r.
Proof.
  unfold row_ok. destruct (locked_at_of r) eqn:E; intros Hr; [by apply ls_keep; [congruence|]|by apply ls_open].
Qed.

(** An [UPDATE] of rows each of which it may change so. *)
Lemma loop_update_step tr db o p f :
  escrows_ok tr db -> (forall r, p r = true -> o_id (f r) = o_id r) -> quiet_obs o ->
  (forall i r, row i db = Some r -> p r = true ->
     loop_step settings node_pubkey client (o :: tr) i (update_orders p f db).1 r (f r)) ->
  G_loop settings node_pubkey client tr db o (update_orders p f db).1.
Proof.
  intros Hv Hf Hq Hstep. destruct (eo_rows _ _ _ _ _ Hv) as [Hk Hok].
  split_and!; [by apply keys_update| |by apply quiet_truth].
  intros i. rewrite row_update by done. destruct (row i db) as [r|] eqn:E; [|done]. simpl.
  destruct (p r) eqn:Ep; [by apply Hstep|by apply idle_row, (Hok i)].
Qed.

Lemma wp_update p f (K K' : knowledge) :
  (forall r, p r = true -> o_id (f r) = o_id r) -> stable L K' ->
  (forall tr db i r, escrows_ok tr db -> K tr db -> row i db = Some r -> p r = true ->
     (locked_at_of r = None /\ open_row (f r)) \/ (locked_at_of r <> None /\ keeps_escrow r (f r))) ->
  (forall o tr db, K tr db -> K' (o :: tr) (update_orders p f db).1) ->
  (forall o tr db, K tr db -> K' (o :: tr) db) ->
  wp L K (sql (update_orders p f)) (fun _ => K').
Proof.
  intros Hf Hs Hstep Hok Herr. apply wp_sql; [done| |].
  - intros tr db Hv HK _. split; [|by apply Hok]. apply loop_update_step; [done..|].
    intros i r E Ep. destruct (Hstep tr db i r Hv HK E Ep) as [[? ?]|[? ?]]; [by apply ls_open|by apply ls_keep].
  - intros e tr db Hv HK _. split; [by apply idle_step|by apply Herr].
Qed.

(** The whole row is written: one without an escrow, ... *)
Lemma wp_write_open c :
  open_row c -> wp L (fun _ => row_open (o_id c)) (sql (order_update_stmt c)) (fun _ => anything).
Proof.
  intros Hc. apply wp_update; try done.
  - by intros r ->%N.eqb_eq.
  - intros _ db i r _ (r' & E' & En) E Hp%N.eqb_eq. left. split; [|done].
    assert (i = o_id c) as -> by (destruct (row_key _ _ _ E); congruence). congruence.
Qed.

(** ... or one whose escrow the copy has. *)
Lemma wp_write_locked c :
  o_status c = status_to_string Active ->
  wp L (fun _ => locked_copy c) (sql (order_update_stmt c)) (fun _ _ => row_locked (o_id c)).
Proof.
  intros Hc. apply wp_update; try done.
  - by intros r ->%N.eqb_eq.
  - intros tr db i r Hv (r' & E' & Hl & El & Et & Em) E Hp%N.eqb_eq. right.
    assert (i = o_id c) as -> by (destruct (row_key _ _ _ E); congruence).
    rewrite E in E'. injection E' as <-. split; [done|].
    pose proof (proj2 (eo_rows _ _ _ _ _ Hv) _ r E) as Hok. unfold row_ok in Hok.
    destruct (locked_at_of r) eqn:Er; [|done]. split_and!; congruence.
  - intros _ tr db (r & E & Hl & El & _). exists c. split; [|congruence].
    unfold order_update_stmt. rewrite row_update by (by intros ? ->%N.eqb_eq). rewrite E. simpl.
    destruct (row_key _ _ _ E) as [-> _]. by rewrite N.eqb_refl.
  - intros _ tr db (r & E & Hl & _). by exists r.
Qed.

(** The claim of an order for a trade. *)
Lemma wp_claim i expected new :
  new <> Active ->
  wp L (fun _ => row_open i) (claim_order_status i expected new) (fun _ _ => row_open i).
Proof.
  intros Hn. unfold claim_order_status, sql_or_db_error.
  eapply (wp_bind _ _ _ _ (fun _ _ => row_open i)).
  2: { intros [n|e]; apply wp_done. }
  eapply (wp_bind _ _ _ _ (fun _ _ => row_open i)); [|intros; apply wp_done]. apply wp_update; try done.
  - intros tr db j r Hv _ E Hp. rewrite andb_true_iff in Hp. destruct Hp as [_ Hl].
    destruct (locked_at_of r) eqn:El; [done|]. left. split; [done|].
    pose proof (proj2 (eo_rows _ _ _ _ _ Hv) _ r E) as Hok. unfold row_ok in Hok. rewrite El in Hok.
    destruct Hok as (_ & Et & _). split_and!; [done..|by apply active_only].
  - intros _ tr db (r & E & El). unfold row_open. rewrite row_update by done. rewrite E. simpl.
    eexists. split; [done|]. by destruct (_ && _).
Qed.

(** ** Reading *)

(** A row just read, with what may be known of it later. *)
Definition read (c : Order) (db : DB) : Prop :=
  copied c db /\ (locked_at_of c <> None -> locked_copy c db).

Lemma stable_read c : stable L (fun _ => read c).
Proof. apply kept_and; [apply stable_copied|apply kept_impl, stable_locked_copy]. Qed.

Lemma about_read c : about_rows (fun _ => read c).
Proof.
  intros tr o db db' Eo [Hc Hl]. split; [by eapply (about_copied c tr o)|].
  intros Hn. eapply (about_locked_copy c tr o); [done|by apply Hl].
Qed.
Hint Resolve stable_read about_read : core.

Definition found (i : Uuid) (r : result (option Order) MostroError) (K : DB -> Prop) (tr : chist) (db : DB) :
    Prop :=
  match r with
  | Ok (Some c) => (o_id c = i /\ row_ok c) /\ read c db /\ K db
  | _ => K db
  end.

Lemma loop_stable_found i r (K : DB -> Prop) : stable L (fun _ => K) -> stable L (found i r K).
Proof.
  intros Hs. destruct r as [[c|]|e]; [|exact Hs..].
  apply kept_and; [apply kept_pure|]. by apply kept_and; [apply stable_read|].
Qed.

Lemma wp_find i (K : DB -> Prop) :
  stable L (fun _ => K) -> about_rows (fun _ => K) ->
  wp L (fun _ => K) (find_order_by_id i) (fun r => found i r K).
Proof.
  intros Hs Ha. unfold find_order_by_id, sql_or_db_error.
  set (Mid := fun (r : result (option Order) string) => found i (map_err (fun e => MostroInternalErr (DbAccessError e)) r) K).
  eapply (wp_bind _ _ _ _ Mid); [|by intros r tr db _ Hm].
  apply wp_sql.
  - intros r. by apply loop_stable_found.
  - intros tr db Hv HK _. split; [by apply idle_step|]. unfold Mid. cbn.
    change (order_by_id i db) with (row i db). destruct (row i db) as [c|] eqn:E; cbn.
    2: exact (Ha tr (ObsSql (query (order_by_id i)) (Ok None)) db db eq_refl HK).
    destruct (row_key _ _ _ E) as [Ei _]. pose proof (proj2 (eo_rows _ _ _ _ _ Hv) i c E) as Hok.
    rewrite <- Ei in E. split; [done|]. split; [|exact (Ha tr (ObsSql (query (order_by_id i)) (Ok None)) db db eq_refl HK)].
    split; [by exists c|]. intros Hl. by exists c.
  - intros e tr db Hv HK _. split; [by apply idle_step|].
    exact (Ha tr (ObsSql (query (order_by_id i)) (Err e)) db db eq_refl HK).
Qed.

Lemma wp_get_known {A} msg F (f : Order -> M (result A MostroError)) Post :
  past F ->
  (forall c, row_ok c -> m_id msg = Some (o_id c) -> wp L (fun tr db => read c db /\ F tr) (f c) Post) ->
  (forall e tr db, Post (Err e) tr db) ->
  wp L (fun tr _ => F tr) (try (get_order msg) f) Post.
Proof.
  intros HF Hf He. unfold get_order. destruct (m_id msg) as [i|]; [|intros tr db _ _; apply He].
  eapply (wp_bind _ _ _ _ (fun r tr db => match r with
    | Ok c => (row_ok c /\ Some i = Some (o_id c)) /\ read c db /\ F tr
    | _ => True end)).
  - unfold try at 1. cbn [ok_or bind]. eapply wp_bind.
    + eapply (wp_pre _ (fun tr _ => True /\ F tr)); [by auto|]. apply wp_past; [done|].
      apply (wp_find i (fun _ => True)); [apply loop_stable_any|apply about_any].
    + intros [[c|]|e]; try done. intros tr db _ (((<- & Hok) & Hr & _) & Hp). by split_and!.
  - intros [c|e]; [|intros tr db _ _; apply He]. apply wp_fact. intros [Hok Hi]. by apply Hf.
Qed.

Lemma wp_get_order {A} msg (f : Order -> M (result A MostroError)) Post :
  (forall c, row_ok c -> wp L (fun _ => read c) (f c) Post) ->
  (forall e tr db, Post (Err e) tr db) -> wp L anything (try (get_order msg) f) Post.
Proof.
  intros Hf He. apply (wp_get_known msg (fun _ => True)); [done| |done].
  intros c Hok _. eapply wp_pre; [|by apply Hf]. by intros tr db _ [].
Qed.

(** ** The escrow handler *)

Lemma wp_notify i b s rq :
  wp L (fun _ => row_locked i) (notify_escrow_locked i b s rq) (fun _ _ => row_locked i).
Proof.
  assert (forall rq k, wp L (fun _ => row_locked i) (enqueue_order_msg rq (Some i) CashuEscrowLocked None k None)
    (fun _ _ => row_locked i)) as He; [|eapply wp_bind; [apply He|intros []; apply He]].
  intros rq' k. apply wp_call; [auto|]. intros r tr db Hv HK _. split; [|done].
  pose proof (eo_rows _ _ _ _ _ Hv) as Hrows. split_and!; [apply Hrows| |].
  - by apply spared_rows, spares_same.
  - intros _. by exists i.
Qed.

Lemma wp_publish status c (K : knowledge) :
  stable L K -> about_rows K ->
  wp L K (update_order_event status c) (fun r tr db =>
    match r with
    | Ok c' => exists e, c' = c <| o_status := status_to_string status |> <| o_event_id := e |> /\ K tr db
    | Err _ => K tr db
    end).
Proof.
  intros Hs Ha. unfold update_order_event, update_order_event_with_created_at.
  apply wp_then; [done|done|done|]. intros [[e|]|e] tr db _ HK; [by exists e| |done].
  exists (o_event_id c). split; [by destruct c|done].
Qed.

Lemma wp_publish_locked i :
  wp L (fun _ => row_locked i) (publish_locked i) (fun _ _ => row_locked i).
Proof.
  unfold publish_locked. eapply wp_bind; [by apply (wp_find i (row_locked i))|].
  intros [[c|]|e]; cbn [found]; [|apply wp_done..]. apply wp_fact. intros [<- Hok].
  eapply (wp_pre _ (fun _ => locked_copy c)).
  { intros _ db _ [[Hc Hl] (r & E & Hn)]. apply Hl. destruct Hc as (r' & E' & <- & _). congruence. }
  eapply wp_bind; [by apply wp_publish|]. intros [c'|e].
  2: { eapply wp_pre; [|apply wp_done]. intros tr db _ (r & E & Hl & _). by exists r. }
  apply wp_union. intros e. apply wp_fact. intros ->.
  eapply wp_bind; [|intros a; apply wp_done].
  exact (wp_write_locked (c <| o_status := status_to_string Active |> <| o_event_id := e |>) eq_refl).
Qed.

(** *** The lock *)

Definition lock_row (mint text : string) (now : Z) (o : Order) : Order :=
  o <| o_cashu_mint_url := Some mint |> <| o_cashu_escrow_token := Some text |>
    <| o_cashu_escrow_locked_at := Some now |> <| o_status := status_to_string Active |>.

Definition lockable (i : Uuid) (text : string) (db : DB) (o : Order) : bool :=
  order_with_status i (status_to_string WaitingPayment) o && is_none (locked_at_of o) &&
  negb (token_elsewhere text i db).

Lemma lock_stmt_eq i mint text now db :
  cashu_lock_stmt i mint text now (status_to_string WaitingPayment) (status_to_string Active) db =
  update_orders (lockable i text db) (lock_row mint text now) db.
Proof. done. Qed.

Lemma lockable_spec i text db o :
  lockable i text db o = true -> o_id o = i /\ o_status o = status_to_string WaitingPayment /\
    locked_at_of o = None /\ token_elsewhere text i db = false.
Proof.
  unfold lockable, order_with_status. rewrite !andb_true_iff, N.eqb_eq, negb_true_iff.
  intros [[[Hi Hs] Hl] He]. apply str_eqb_eq in Hs. split_and!; try done. by destruct (locked_at_of o).
Qed.

Lemma elsewhere_spec text i db j r :
  token_elsewhere text i db = false -> row j db = Some r -> j <> i -> token_of r <> Some text.
Proof.
  intros He E Hne Et. destruct (row_key _ _ _ E) as [Hj Hin].
  apply not_true_iff_false in He. apply He. apply existsb_exists. exists r. split; [done|].
  unfold holds_token. rewrite bool_decide_true by done. simpl. apply negb_true_iff, N.eqb_neq. congruence.
Qed.

Lemma lock_steps order buyer seller mint text token now tr db i r :
  let db' := (update_orders (lockable (o_id order) text db) (lock_row mint text now) db).1 in
  token_from_str text = Ok token -> get_buyer_pubkey order = Ok buyer ->
  get_seller_pubkey order = Ok seller ->
  pays_for settings node_pubkey client token buyer seller (o_amount order) now ->
  copied order db -> vouched token tr -> submitted text order tr -> row i db = Some r ->
  lockable (o_id order) text db r = true ->
  loop_step settings node_pubkey client tr i db' r (lock_row mint text now r).
Proof.
  intros db' Ht Hb Hs Hp (r0 & E0 & _ & Hterms) Hv Hsub E Hl.
  destruct (lockable_spec _ _ _ _ Hl) as (Hi & Hw & Hn & He).
  destruct (row_key _ _ _ E) as [Hk _]. assert (i = o_id order) as -> by congruence.
  rewrite E in E0. injection E0 as <-. specialize (Hterms Hn Hw). injection Hterms as Eb Es Ea.
  apply (ls_lock _ _ _ _ _ _ _ _ now); try done.
  - exists text, token, buyer, seller. split_and!; try done.
    + rewrite <- Hb. by apply buyer_column.
    + rewrite <- Hs. by apply seller_column.
    + by apply (submitted_same text order).
    + change (o_amount (lock_row mint text now r)) with (o_amount r). by rewrite Ea.
  - intros j rj Hne Ej. unfold db' in Ej. rewrite row_update in Ej by done.
    destruct (row j db) as [r1|] eqn:E1; [|done]. simpl in Ej. injection Ej as <-.
    destruct (lockable (o_id order) text db r1) eqn:El1.
    + apply lockable_spec in El1 as (Hi1 & _). destruct (row_key _ _ _ E1). congruence.
    + by apply (elsewhere_spec text (o_id order) db j).
Qed.

Lemma wp_cas order buyer seller mint text token now :
  token_from_str text = Ok token -> get_buyer_pubkey order = Ok buyer ->
  get_seller_pubkey order = Ok seller ->
  pays_for settings node_pubkey client token buyer seller (o_amount order) now ->
  wp L (fun tr db => copied order db /\ vouched token tr /\ submitted text order tr)
    (update_order_cashu_escrow (o_id order) mint text now WaitingPayment Active)
    (fun r tr db => match r with Ok true => row_locked (o_id order) db | _ => True end).
Proof.
  intros Ht Hb Hs Hp. unfold update_order_cashu_escrow, sql_or_db_error.
  set (Mid := fun r : result Z string => fun (_ : chist) db =>
    match r with Ok n => 0 < n -> row_locked (o_id order) db | Err _ => True end).
  assert (forall r, stable L (Mid r)) as Hst.
  { intros [n|e]; unfold Mid; [apply kept_impl, stable_locked|apply kept_pure]. }
  set (Mid' := fun r : result Z MostroError => fun (_ : chist) db =>
    match r with Ok n => 0 < n -> row_locked (o_id order) db | Err _ => True end).
  eapply (wp_bind _ _ _ _ Mid').
  2: { intros [n|e] tr db _ Hm; [|done]. unfold Mid' in Hm. destruct (Z.ltb_spec 0 n); [by apply Hm|done]. }
  eapply (wp_bind _ _ _ _ Mid); [|by intros [n|e] tr db _ Hm].
  apply wp_sql; [done| |].
  - intros tr db Hv (Hc & Hvo & Hsub) _. rewrite lock_stmt_eq. split.
    + apply loop_update_step; [done| |done|].
      * intros r _. done.
      * intros i r E El. eapply lock_steps; try done; [by apply vouched_cons|by apply submitted_cons].
    + intros Hn. destruct (eo_rows _ _ _ _ _ Hv) as [Hk _].
      apply (affected_row _ _ (o_id order)) in Hn as (r & E & El);
        [|done|intros r Hr; apply (lockable_spec _ _ _ _ Hr)].
      exists (lock_row mint text now r). rewrite row_update, E by done. simpl. by rewrite El.
  - intros e tr db Hv _ _. split; [by apply idle_step|done].
Qed.

(** A part of a handler that is quiet, statement by statement. *)
Ltac same_orders_tac :=
  intros ?; first
    [ reflexivity
    | lazymatch goal with
      | |- orders (?s _).1 = _ => let h := head s in unfold h; by repeat case_match
      end ].
Ltac quiet_walk := prog_walk same_orders_tac ltac:(first [exact I | done]).

(** *** The checks *)

Lemma find_keyset_ok keysets short ks :
  find_keyset keysets short = Ok ks -> In ks keysets /\ ks_unit ks = Sat.
Proof.
  unfold find_keyset. destruct (List.find _ keysets) as [k|] eqn:E; simpl; [|done].
  case_bool_decide; [|done]. intros [= <-]. by apply find_some in E as [? _].
Qed.

Lemma check_proof_ok keysets ks p :
  In ks keysets /\ ks_unit ks = Sat -> check_proof ks p = Ok tt -> signed_by keysets p.
Proof.
  intros [Hin Hu]. unfold check_proof. destruct (key_for_amount ks (cp_amount p)) as [key|] eqn:E;
    simpl; [|done].
  destruct (verify_dleq p (ks_id ks) key) eqn:Ev; [|done]. intros _. by exists ks, key.
Qed.

Lemma check_dleqs_ok keysets token :
  check_dleqs keysets token = Ok tt -> Forall (signed_by keysets) (token_proofs token).
Proof.
  rewrite Forall_forall. intros Hc p Hin%list_elem_of_In. destruct token as [entries u|m u entries];
    simpl in *; rewrite check_each_ok in Hc.
  - specialize (Hc p Hin). destruct (find_keyset keysets _) as [ks|] eqn:Ek; simpl in Hc; [|done].
    apply find_keyset_ok in Ek. by apply (check_proof_ok _ ks).
  - apply in_concat in Hin as (ps & [e [<- He]]%in_map_iff & Hp). specialize (Hc e He). simpl in Hc.
    destruct (find_keyset keysets e.1) as [ks|] eqn:Ek; simpl in Hc; [|done].
    rewrite check_each_ok in Hc. apply find_keyset_ok in Ek. by apply (check_proof_ok _ ks), Hc.
Qed.

Lemma check_value_ok token amount :
  check_value client token amount = Ok tt ->
  token_mint_url token = Ok (client_mint_url client) /\ NoDup (token_secrets token) /\
  token_unit token = Some Sat /\ foldr Z.add 0 (map cp_amount (token_proofs token)) = amount.
Proof.
  unfold check_value, reject_duplicate_proofs. destruct (token_mint_url token) as [m|]; simpl; [|done].
  destruct (str_eqb m (client_mint_url client)) eqn:Em; simpl; [|done]. apply str_eqb_eq in Em as ->.
  repeat case_bool_decide; simpl; try done.
  destruct (token_value token) as [v|] eqn:Ev; simpl; [|done].
  destruct (Z.eqb_spec v amount) as [<-|]; simpl; [|done]. intros _.
  by apply token_value_is in Ev.
Qed.

(** What [verify_escrow_token] found without the mint. *)
Definition accepted (text p_b p_s p_m : string) (amount floor : Z) (token : CashuToken) : Prop :=
  verify_escrow_conditions text p_b p_s p_m floor = Some (Ok token) /\
  check_value client token amount = Ok tt.

Lemma accepted_pays text p_b p_s p_m amount now token buyer seller :
  cashu_pubkey_from_xonly_hex buyer = Ok p_b -> cashu_pubkey_from_xonly_hex seller = Ok p_s ->
  cashu_pubkey_from_xonly_hex node_pubkey = Ok p_m -> 0 < amount ->
  accepted text p_b p_s p_m amount (min_locktime_of now (locktime_days settings)) token ->
  token_from_str text = Ok token /\
  pays_for settings node_pubkey client token buyer seller amount now.
Proof.
  intros Hb Hs Hm Ha [Hc Hv].
  destruct (escrow_conditions_hold text p_b p_s p_m (min_locktime_of now (locktime_days settings)))
    as (r & Er & Hok).
  rewrite Hc in Er. injection Er as <-. destruct (Hok token eq_refl) as (Ht & Hne & Hnd & Hsec).
  apply check_value_ok in Hv as (Hmint & Hdup & Hunit & Hsum). split; [done|].
  split; try done. by exists p_b, p_s, p_m.
Qed.

Lemma wp_verify_token text p_b p_s p_m amount floor (K : DB -> Prop) :
  stable L (fun _ => K) -> about_rows (fun _ => K) ->
  wp L (fun _ => K) (verify_escrow_token client text p_b p_s p_m amount floor)
    (fun r tr db => match r with
       | Ok token => accepted text p_b p_s p_m amount floor token /\ K db /\ vouched token tr
       | Err _ => True
       end).
Proof.
  intros Hs Ha. unfold verify_escrow_token.
  apply wp_checked; [|done]. intros token Ec.
  destruct (verify_escrow_conditions text p_b p_s p_m floor) as [[t|]|] eqn:Ec'; try done.
  injection Ec as ->. apply wp_checked; [|done]. intros [] Ev.
  set (K1 := fun (tr : chist) db => K db /\ exists keysets,
    In (ObsExt GetMintKeys (Some (Ok keysets))) tr /\ Forall (signed_by keysets) (token_proofs token)).
  eapply (wp_try _ _ _ _ (fun _ => K1)).
  - unfold verify_token_dleq.
    eapply wp_bind; [by apply (wp_outside GetMintKeys (fun _ => K))|]. intros [[keysets|e]|]; try done.
    intros tr db _ [HK Hin]. destruct (check_dleqs keysets token) as [[]|] eqn:Ed; [|done].
    split; [done|]. exists keysets. split; [done|]. by apply check_dleqs_ok.
  - intros _. apply wp_checked; [|done]. intros ys Ey.
    assert (points_of (token_secrets token) = Ok ys) as Ep
      by by apply map_err_ok in Ey.
    eapply (wp_try _ _ _ _ (fun states tr db => K1 tr db /\
      In (ObsExt (PostCheckState ys) (Some (Ok states))) tr)).
    + unfold check_state.
      eapply wp_bind; [apply wp_outside; [done| |]|intros [[states|e]|] tr db _ Hx; [exact Hx|done|done]].
      * apply kept_and; [done|]. intros tr o d d' _ _ _ (ks & Hin & Hf). exists ks. split; [by right|done].
      * apply about_and; [done|]. intros tr o d d' _ (ks & Hin & Hf). exists ks. split; [by right|done].
    + intros states. destruct (Nat.eqb_spec (length states) (length ys)) as [El|]; [|done].
      cbn [negb]. destruct (existsb _ states) eqn:Es; [done|].
      intros tr db _ [[HK (ks & Hin & Hf)] Hst]. split; [|split; [done|]].
      * by split.
      * exists ks, ys, states. split_and!; try done. apply Forall_forall. intros st Hst'%list_elem_of_In.
        apply not_true_iff_false in Es. destruct (decide (st = Unspent)) as [|Hne]; [done|].
        destruct Es. apply existsb_exists. exists st. split; [done|]. by rewrite bool_decide_false.
Qed.

(** *** [add_cashu_escrow_action] *)

(** The order just read and the token offered for it. *)
Definition offer_known (text : string) (order : Order) : knowledge :=
  fun tr db => copied order db /\ submitted text order tr.

Lemma stable_offer_known text order : stable L (offer_known text order).
Proof. apply kept_and; [apply stable_copied|apply stable_past, past_submitted]. Qed.

Lemma about_offer_known text order : about_rows (offer_known text order).
Proof. apply about_and; [apply about_copied|apply about_past, past_submitted]. Qed.
Hint Resolve stable_offer_known about_offer_known : core.

Lemma wp_lock_escrow order proof buyer seller rq :
  get_buyer_pubkey order = Ok buyer -> get_seller_pubkey order = Ok seller ->
  wp L (offer_known (lp_token proof) order)
    (lock_escrow settings node_pubkey (Some client) order proof buyer seller rq) (fun _ => anything).
Proof.
  intros Hb Hs. unfold lock_escrow. apply wp_checked; [intros mint _|done]. case_match; [done|].
  case_match; [done|]. cbv zeta.
  apply wp_checked; [intros p_b Eb|done]. apply wp_checked; [intros p_s Es|done].
  apply wp_checked; [intros p_m Em|done].
  destruct (Z.leb_spec (o_amount order) 0) as [|Hpos]; [done|].
  apply wp_next; [by prog_walk ltac:(done) ltac:(exact I)|auto..| |done]. intros [|]; [done|].
  apply wp_checked; [intros cl [= <-]|done].
  apply wp_then; [done|auto..|]. intros now.
  eapply wp_bind; [apply wp_past; [done|]; apply (wp_verify_token _ p_b p_s p_m (o_amount order)
    (min_locktime_of now (locktime_days settings)) (copied order)); auto|].
  intros [token|e]; [|done].
  eapply (wp_pre _ (fun tr db => accepted (lp_token proof) p_b p_s p_m (o_amount order)
    (min_locktime_of now (locktime_days settings)) token /\ copied order db /\ vouched token tr /\
    submitted (lp_token proof) order tr)); [by intros tr db _ [(? & ? & ?) ?]|].
  apply wp_fact. intros Hacc.
  destruct (accepted_pays (lp_token proof) p_b p_s p_m (o_amount order) now token buyer seller)
    as [Ht Hp]; try done.
  1-3: by eapply map_err_ok.
  apply wp_checked; [intros _ _|done].
  eapply (wp_try _ _ _ _ (fun won _ db => won = true -> row_locked (o_id order) db)).
  { eapply wp_post; [|eapply wp_cas; done]. intros [[]|e] tr db _ Hr; [by intros _|done|done]. }
  intros [|]; cbn [negb].
  2: { apply wp_end. quiet_walk. }
  eapply (wp_pre _ (fun _ => row_locked (o_id order))); [by intros tr db _ Hr; apply Hr|].
  eapply wp_bind; [apply wp_publish_locked|intros []].
  by eapply wp_bind; [apply wp_notify|].
Qed.

Lemma wp_add_cashu_escrow u :
  wp L (fun tr _ => received AddCashuEscrow u tr)
    (add_cashu_escrow_action settings node_pubkey (Some client) (u_message u) u) (fun _ => anything).
Proof.
  apply wp_get_known; [done|intros order Hok Hi; cbv zeta|done].
  apply wp_checked; [intros seller Es|done].
  destruct (str_eqb seller (u_sender u)) eqn:Eu; cbn [negb]; [|done]. apply str_eqb_eq in Eu as ->.
  apply wp_checked; [intros buyer Eb|done]. apply map_err_ok in Es, Eb.
  apply wp_checked; [intros _ _|done]. apply wp_checked; [intros proof Ep|done].
  destruct (m_payload (u_message u)) as [[]|] eqn:Em; try done. injection Ep as ->.
  assert (wp L (fun tr db => read order db /\ received AddCashuEscrow u tr)
    (lock_escrow settings node_pubkey (Some client) order proof buyer (u_sender u)
       (m_request_id (u_message u))) (fun _ => anything)) as Hlock.
  { eapply wp_pre; [|by apply wp_lock_escrow]. intros tr db _ [[Hc _] Hr]. split; [done|].
    by exists u, proof. }
  destruct (is_some (locked_at_of order)) eqn:El; cbn [andb]; [|done].
  destruct (str_eqb (o_status order) _); [|done]. case_match; [done|].
  eapply wp_pre; [|eapply wp_bind; [apply wp_notify|done]].
  intros tr db _ [[Hc _] _]. apply copied_locked; [done|]. by destruct (locked_at_of order).
Qed.

(** ** The other handlers of [dispatch_cashu] *)

Lemma pretrade_open c :
  row_ok c ->
  negb (is_ok (check_status c Pending)) && negb (is_ok (check_status c WaitingTakerBond)) = false ->
  open_row c.
Proof.
  intros Hok Hs.
  assert (o_status c <> status_to_string Active) as Hn.
  { rewrite andb_false_iff, !negb_false_iff in Hs.
    destruct Hs as [Hs|Hs]; [destruct (check_status c Pending) as [[]|] eqn:E
      |destruct (check_status c WaitingTakerBond) as [[]|] eqn:E]; try done;
      rewrite (checked_status _ _ E); by apply active_only. }
  unfold row_ok in Hok. by destruct (locked_at_of c).
Qed.

Lemma wp_trade_pubkey msg event :
  wp L anything (trade_pubkey_action msg event) (fun _ => anything).
Proof.
  apply wp_get_order; [intros c Hok|done]. case_match eqn:Es; [done|]. apply pretrade_open in Es as Ho; [|done].
  apply wp_checked; [intros kind _|done]. apply wp_checked; [intros key _|done]. case_match; [done|].
  cbv zeta. eapply (wp_pre _ (fun _ => row_open (o_id c))).
  { intros tr db _ [Hc _]. apply copied_open; [done|apply Ho]. }
  apply wp_then; [quiet_walk|auto..|]. intros _.
  eapply (wp_bind _ _ _ _ (fun _ => anything)); [|by intros [r|e]].
  eapply (wp_bind _ _ _ _ (fun _ => anything)); [|done].
  set (c' := with_field _ _ _).
  assert (o_id c' = o_id c) as <- by by destruct kind.
  apply wp_write_open. by destruct kind.
Qed.

(** *** Taking an order *)

Lemma wp_take_guards msg event pending kind_ok :
  (forall k, quiet (pending k)) ->
  wp L anything (take_guards msg event pending kind_ok)
    (fun r tr db => match r with Ok c => open_row c /\ row_open (o_id c) db | Err _ => True end).
Proof.
  intros Hp. apply wp_get_order; [intros c Hok|done].
  apply wp_next; [done|auto..| |done]. intros [|]; [done|].
  apply wp_checked; [intros [] _|done]. case_match eqn:Es; [done|]. apply pretrade_open in Es as Ho; [|done].
  apply wp_then; [done|auto..|]. intros now. case_match; [done|].
  apply wp_checked; [intros [] _|done]. intros tr db _ [Hc _]. split; [done|].
  apply copied_open; [done|apply Ho].
Qed.

Lemma wp_show_request b s order rq :
  open_row order ->
  wp L (fun _ => row_open (o_id order)) (show_cashu_escrow_request b s order rq) (fun _ => anything).
Proof.
  intros Ho. unfold show_cashu_escrow_request.
  eapply (wp_bind _ _ _ _ (fun _ _ => row_open (o_id order))); [by apply wp_claim|].
  intros [[|]|e]; [|done..]. cbn [negb]. cbv zeta.
  set (c := with_field _ _ _).
  eapply wp_bind; [by apply wp_publish|]. intros [c'|e]; [|done].
  unfold wrap_err, map_err, try at 1. cbn [bind]. apply wp_union. intros ev. apply wp_fact. intros ->.
  eapply (wp_bind _ _ _ _ (fun _ => anything)); [|intros [n|e]; [apply wp_end; quiet_walk|done]].
  eapply (wp_bind _ _ _ _ (fun _ => anything)); [|done].
  set (c2 := with_field _ _ _). assert (o_id order = o_id c2) as -> by done. apply wp_write_open.
  destruct Ho as (Hl & Ht & _). split_and!; [done..|by apply active_only].
Qed.

(** Pricing keeps the identity and the escrow of the copy. *)
Definition same_escrow (c c' : Order) : Prop :=
  o_id c' = o_id c /\ locked_at_of c' = locked_at_of c /\ token_of c' = token_of c /\
  o_status c' = o_status c.

Lemma same_escrow_open c c' : same_escrow c c' -> open_row c -> open_row c'.
Proof. intros (_ & El & Et & Es) (Hl & Ht & Hs). split_and!; congruence. Qed.

Lemma wp_price c (K : knowledge) :
  stable L K -> about_rows K ->
  wp L K (price_take settings c)
    (fun r tr db => match r with Ok c' => same_escrow c c' /\ K tr db | Err _ => True end).
Proof.
  intros Hs Ha. unfold price_take. destruct (has_no_amount c); [|by intros tr db _ HK].
  apply wp_then; [quiet_walk|done..|]. intros [[amount fee]|[[]|]] tr db _ HK; try done.
Qed.

(** The node runs Cashu escrows and has started. *)
Context `{WebLib} (show_f64 : f64 -> string) (show_quoted : string -> string).
Context (Hcashu : is_cashu_enabled settings = true).
Context (Hvalid : validate_mostro_settings show_f64 show_quoted settings = Ok tt).

Lemma no_bonds : taker_bond_required settings = false /\ maker_bond_required settings = false.
Proof. by apply (cashu_no_bonds show_f64 show_quoted). Qed.

(** The end both handlers share. *)
Lemma wp_show_taken b s c c' rq now :
  same_escrow c c' -> open_row c ->
  wp L (fun _ => row_open (o_id c)) (show_cashu_escrow_request b s (set_timestamp_now now c') rq)
    (fun _ => anything).
Proof.
  intros Hc Ho. rewrite taken_at_only. pose proof Hc as [<- _].
  set (c2 := with_field _ _ _). assert (o_id c' = o_id c2) as -> by done. apply wp_show_request.
  exact (same_escrow_open c c2 Hc Ho).
Qed.

Lemma wp_store_index {A} event i (f : unit -> M (result A MostroError)) c :
  wp L (fun _ => row_open (o_id c)) (f tt) (fun _ => anything) ->
  wp L (fun _ => row_open (o_id c)) (try (store_trade_index event i) f) (fun _ => anything).
Proof. intros Hf. apply wp_next; [quiet_walk|auto..| |done]. by intros []. Qed.

Lemma wp_take_sell msg event : wp L anything (take_sell_action settings msg event) (fun _ => anything).
Proof.
  unfold take_sell_action, taker_bond_guards. rewrite (proj1 no_bonds), Hcashu. cbv zeta. cbn [negb].
  eapply wp_bind; [apply wp_take_guards; intros; quiet_walk|]. intros [c|e]; [|done].
  apply wp_fact. intros Ho. apply wp_checked; [intros _ [= <-]|done].
  apply wp_checked; [intros seller _|done]. apply wp_checked; [intros fiat _|done].
  eapply wp_bind; [by apply (wp_price _ (fun _ => row_open (o_id c)))|]. intros [c'|e]; [|done].
  apply wp_fact. intros Hc. apply wp_checked; [intros pr _|done].
  apply wp_checked; [intros i _|done]. apply wp_store_index, wp_then; [quiet_walk|auto..|].
  intros now. by apply (wp_show_taken _ _ c).
Qed.

Lemma wp_take_buy msg event : wp L anything (take_buy_action settings msg event) (fun _ => anything).
Proof.
  unfold take_buy_action, taker_bond_guards. rewrite (proj1 no_bonds), Hcashu. cbv zeta. cbn [negb].
  eapply wp_bind; [apply wp_take_guards; intros; quiet_walk|]. intros [c|e]; [|done].
  apply wp_fact. intros Ho. apply wp_checked; [intros _ [= <-]|done].
  apply wp_checked; [intros fiat _|done].
  eapply wp_bind; [by apply (wp_price _ (fun _ => row_open (o_id c)))|]. intros [c'|e]; [|done].
  apply wp_fact. intros Hc. apply wp_checked; [intros buyer _|done].
  apply wp_checked; [intros i _|done]. apply wp_store_index, wp_then; [quiet_walk|auto..|].
  intros now. by apply (wp_show_taken _ _ c).
Qed.

(** *** Creating an order *)

Lemma row_insert c i db :
  row i (insert_order c db) =
  match row i db with Some r => Some r | None => if N.eqb (o_id c) i then Some c else None end.
Proof.
  unfold row, select_one, insert_order. simpl. induction (orders db) as [|x l IH]; simpl; [done|].
  by destruct (N.eqb (o_id x) i).
Qed.

Lemma wp_create c :
  open_row c ->
  wp L anything (sql_row (order_create_stmt c))
    (fun r tr db => match r with Ok c' => c' = c /\ row_open (o_id c) db | Err _ => True end).
Proof.
  intros Hc. set (Mid := fun (r : result (result Order string) string) (_ : chist) db =>
    match r with Ok (Ok c') => c' = c /\ row_open (o_id c) db | _ => True end).
  eapply (wp_bind _ _ _ _ Mid); [|by intros [[c'|]|] tr db _ Hm].
  apply wp_sql.
  - intros [[c'|]|]; [|apply kept_pure..]. apply kept_and; [apply kept_pure|apply stable_open].
  - intros tr db Hv _ _. unfold order_create_stmt.
    destruct (exists_row _ (orders db)) eqn:Ex; cbn; [split; [by apply idle_step|done]|].
    destruct (eo_rows _ _ _ _ _ Hv) as [Hk Hok].
    assert (row (o_id c) db = None) as En.
    { destruct (row (o_id c) db) as [r|] eqn:E; [|done]. destruct (row_key _ _ _ E) as [Hi Hin].
      apply not_true_iff_false in Ex. destruct Ex. apply existsb_exists. exists r.
      split; [done|by apply N.eqb_eq]. }
    split; [split_and!|].
    + unfold keys_ok, insert_order. simpl. rewrite map_app. apply NoDup_app. split_and!; [exact Hk| |apply NoDup_singleton].
      intros x Hx ->%list_elem_of_singleton. apply list_elem_of_In, in_map_iff in Hx as (r & Er & Hr).
      apply (row_in db r Hk) in Hr. congruence.
    + intros i. rewrite row_insert. destruct (row i db) as [r|] eqn:E; [by apply idle_row, (Hok i)|].
      by destruct (N.eqb (o_id c) i).
    + done.
    + split; [done|]. exists c. rewrite row_insert, En, N.eqb_refl. split; [done|apply Hc].
  - intros e tr db Hv _ _. split; [by apply idle_step|done].
Qed.

Lemma wp_prepare new_order initiator index identity trade :
  wp L anything (prepare_new_order settings new_order initiator index identity trade)
    (fun r tr db => match r with Ok c => open_row c /\ anything tr db | Err _ => True end).
Proof.
  unfold prepare_new_order. apply wp_then; [quiet_walk|auto..|]. intros exp.
  apply wp_then; [done|auto..|]. intros uuid. apply wp_then; [done|auto..|]. intros now tr db _ _.
  destruct default_unlocked as [Ht Hl].
  destruct (so_kind new_order) as [[]|]; [| |done].
  all: split; [|done]; split_and!; [exact Hl|exact Ht|by apply active_only].
Qed.

Lemma wp_finalize c identity trade rq index :
  open_row c ->
  wp L (fun _ => row_open (o_id c)) (finalize_order_publication c identity trade rq index)
    (fun _ => anything).
Proof.
  intros Hc. unfold finalize_order_publication. cbv zeta.
  apply wp_next; [done|auto..| |done]. intros ev.
  eapply (wp_bind _ _ _ _ (fun _ => anything)); [|intros [n|e]; [apply wp_end; quiet_walk|done]].
  eapply (wp_bind _ _ _ _ (fun _ => anything)); [|done].
  set (c2 := with_field _ _ _). assert (o_id c = o_id c2) as -> by done. apply wp_write_open.
  destruct Hc as (Hl & Ht & _). split_and!; [done..|by apply active_only].
Qed.

Lemma wp_order_action msg event : wp L anything (order_action settings msg event) (fun _ => anything).
Proof.
  unfold order_action. destruct (msg_order msg) as [o|]; [|done].
  apply wp_next; [quiet_walk|auto..| |done]. intros _.
  do 3 (apply wp_checked; [intros [] _|done]). apply wp_checked; [intros vec _|done].
  apply wp_checked; [intros [] _|done]. apply wp_next; [quiet_walk|auto..| |done]. intros _.
  apply wp_checked; [intros i _|done]. apply wp_next; [quiet_walk|auto..| |done]. intros _.
  unfold publish_order. rewrite (proj2 no_bonds).
  eapply wp_bind; [apply wp_prepare|]. intros [c|e]; [|done]. apply wp_fact. intros Hc.
  eapply wp_bind; [by apply wp_create|]. intros [c'|e]; [|done]. apply wp_fact. intros ->.
  by apply wp_finalize.
Qed.
(** *** The dispatcher and the loop *)

Lemma wp_dispatch a u :
  wp L (fun tr _ => received a u tr)
    (dispatch_cashu settings node_pubkey (Some client) a (u_message u) u) (fun _ => anything).
Proof.
  destruct a; cbn [dispatch_cashu handle_message_action_no_ln];
    first [done | apply wp_add_cashu_escrow | apply (wp_pre _ anything); [done|];
      first [apply wp_order_action | apply wp_take_sell | apply wp_take_buy | apply wp_trade_pubkey
            | apply wp_end; quiet_walk]].
Qed.

(** An accepted message came in a genuine event. *)
Definition accepted_message (r : option (Action * Message * UnwrappedMessage)) (tr : chist) : Prop :=
  match r with Some (a, m, u) => m = u_message u /\ received a u tr | None => True end.

Lemma wp_accept_unwrapped e :
  event_verify e = true ->
  wp L (fun tr _ => In (ObsExt NextEvent e) tr) (accept_unwrapped e)
    (fun r tr _ => accepted_message r tr).
Proof.
  intros Hv. unfold accept_unwrapped. destruct (unwrap_incoming e) as [[u|]|] eqn:Hu; [|done..].
  apply wp_then; [done|apply kept_obs|apply about_obs|]. intros now. cbv zeta. case_match; [done|]. case_match; [done|].
  apply wp_then; [quiet_walk|apply kept_obs|apply about_obs|]. intros [_|err]; [|done]. case_match; [done|].
  destruct (inner_action (u_message u)) as [a|] eqn:Ha; [|done].
  intros tr db _ Hin. split; [done|]. by exists e.
Qed.

Lemma wp_accept pow first kind e gate :
  wp L (fun tr _ => In (ObsExt NextEvent e) tr) (accept_event e pow first kind gate)
    (fun r tr _ => accepted_message r.2 tr).
Proof.
  unfold accept_event. do 2 (case_match; [done|]).
  destruct (event_verify e) eqn:Hv; cbn [negb]; [|done]. destruct gate as [g|].
  - apply wp_then; [done|apply kept_obs|apply about_obs|]. intros now. destruct (gate_admits _ _ _ _) as [g' []]; [|done].
    eapply wp_bind; [by apply wp_accept_unwrapped|by intros r tr db _ Hr].
  - eapply wp_bind; [by apply wp_accept_unwrapped|by intros r tr db _ Hr].
Qed.

Lemma wp_on_event pow first kind e gate :
  wp L (fun tr _ => In (ObsExt NextEvent e) tr)
    (on_event (dispatch_cashu settings node_pubkey (Some client)) pow first kind e gate)
    (fun _ => anything).
Proof.
  unfold on_event. eapply wp_bind; [apply wp_accept|]. intros [g [[[a m] u]|]]; cbn [snd]; [|done].
  apply wp_fact. intros ->.
  eapply (wp_bind _ _ _ _ (fun _ => anything)); [apply wp_dispatch|]. intros r.
  apply wp_end. quiet_walk.
Qed.

Definition cashu_loop (p : M unit) : Prop :=
  exists turns kind gate,
    p = event_loop settings turns (dispatch_cashu settings node_pubkey (Some client)) kind gate.

Lemma wp_cashu_loop p : cashu_loop p -> wp L anything p (fun _ => anything).
Proof.
  intros (turns & kind & gate & ->). revert gate. induction turns as [|n IH]; intros gate; [done|].
  cbn [event_loop]. unfold turn.
  eapply (wp_bind _ _ _ _ (fun _ => anything)); [|intros g; apply IH].
  eapply wp_bind; [by apply (wp_outside NextEvent anything); auto|]. intros e.
  eapply wp_pre; [|apply wp_on_event]. by intros tr db _ [].
Qed.
(** ** Every interleaving *)

(** No order has an escrow yet. *)
Definition no_escrows (db : DB) : Prop := keys_ok db /\ forall r, In r (orders db) -> open_row r.

(** The event loop, one turn at a time, among tasks that spare the escrows;
    crashes, after which it starts again; any answers of the outside world. *)
Definition cashu_reach (db : DB) (s : Sys DB ext) : Prop :=
  exists p, cashu_loop p /\ rtc (sys_step escrow_bystander cashu_loop no_law) (mkSys p [] db []) s.

Lemma cashu_reach_ok db s : no_escrows db -> cashu_reach db s -> escrows_ok (s_trace s) (s_db s).
Proof.
  intros [Hk Hn] (p & Hp & Hr).
  enough (sys_ok no_law escrows_ok (G_spare) (G_loop settings node_pubkey client) s) as Hs by apply Hs.
  eapply sys_safe; [by apply escrows_kept| |apply wp_cashu_loop| |exact Hr].
  - intros q. apply escrow_bystander_ok.
  - eapply (sys_start _ _ _ _ cashu_loop); [apply wp_cashu_loop| |done].
    assert (forall i r, row i db = Some r -> open_row r) as Ho by (intros i r [_ Hin]%row_key; auto).
    split; [split; [done|]| | |done].
    + intros i r E. pose proof (Ho i r E) as Hx. unfold row_ok. by pose proof Hx as (-> & _).
    + intros i r t E. by destruct (Ho i r E) as (-> & _).
    + intros i j r r' text E. by destruct (Ho i r E) as (_ & -> & _).
Qed.

(** C15: On a node that runs Cashu escrows an order is active only when its
    escrow is funded.  In every state the event loop reaches among tasks that
    spare the escrows (the node's expiry job does not,
    [CashuFindings.expiry_erases_escrow]), with any answers of the mint and the
    relays, failing statements and crashes: an active order is locked; a
    locked order is active, and its token was submitted for that order in a
    genuine message of the order's seller, was checked for the keys of its
    parties and for its amount, and was vouched for by the mint; no two orders
    hold the same token; and the parties are told that an escrow is locked
    only of such an order. *)
Theorem cashu_escrow_funded db s :
  no_escrows db -> cashu_reach db s ->
  (forall r, In r (orders (s_db s)) -> o_status r = status_to_string Active ->
     locked_at_of r <> None) /\
  (forall r t, In r (orders (s_db s)) -> locked_at_of r = Some t ->
     o_status r = status_to_string Active /\
     funded settings node_pubkey client r t (s_trace s)) /\
  (forall r r' text, In r (orders (s_db s)) -> In r' (orders (s_db s)) ->
     token_of r = Some text -> token_of r' = Some text -> r = r') /\
  (forall m, In (ObsExt (Enqueue m) tt) (s_trace s) -> q_action m = CashuEscrowLocked ->
     exists r, In r (orders (s_db s)) /\ q_order_id m = Some (o_id r) /\ locked_at_of r <> None).
Proof.
  intros Hn Hr. destruct (cashu_reach_ok db s Hn Hr) as [[Hk Hok] Hf Ho Hm].
  assert (forall r, In r (orders (s_db s)) -> row (o_id r) (s_db s) = Some r) as Hrow
    by (intros r; by apply row_in).
  split_and!.
  - intros r Hin Ha Hl. pose proof (Hok _ r (Hrow r Hin)) as Hx. unfold row_ok in Hx.
    rewrite Hl in Hx. by destruct Hx as (_ & _ & Hx).
  - intros r t Hin Hl. split; [|exact (Hf (o_id r) r t (Hrow r Hin) Hl)].
    pose proof (Hok _ r (Hrow r Hin)) as Hx. unfold row_ok in Hx. by rewrite Hl in Hx.
  - intros r r' text Hin Hin' Et Et'. pose proof (Hrow r Hin) as E. pose proof (Hrow r' Hin') as E'.
    rewrite (Ho _ _ _ _ text E E' Et Et') in E. congruence.
  - intros m Hin Ha. destruct (Hm m Hin Ha) as (i & Ei & r & E & Hl). exists r.
    destruct (row_key _ _ _ E) as [<- Hin']. done.
Qed.
End Loop.

(** ** A run *)

#[export] Instance demo_trade_laws : TradeLaws.
Proof.
  split.
  - intros o o' E. simpl. by rewrite E.
  - intros o o' E. simpl. by rewrite E.
  - intros o s. simpl. unfold demo_has_status.
    destruct (str_eqb _ _) eqn:E; [|done]. intros _. exact (proj1 (str_eqb_eq _ _) E).
  - done.
  - done.
Qed.

(** Order 7 waits for its seller to fund it, who sends the token. *)
Definition waiting_order : Order :=
  (demo_order 7 WaitingPayment) <| o_buyer_pubkey := Some demo_buyer |>
                                <| o_seller_pubkey := Some demo_seller |>.
Definition cashu_db : DB := mkDB [waiting_order; demo_order 8 Pending] [] [] [].

Definition demo_escrow_event : NostrEvent :=
  let tags := replicate 8 [] in
  let e := mkNostrEvent "id" demo_seller 1000 14 tags "add-cashu-escrow" "" in
  mkNostrEvent "id" demo_seller 1000 14 tags "add-cashu-escrow" (demo_sig e).

Definition cashu_client : CashuClient := mkCashuClient "https://mint".
Definition cashu_world : World := mkWorld 1000 demo_escrow_event 0 (Ok tt) (Ok tt).
Definition one_turn : M unit :=
  event_loop demo_cashu_settings 1 (dispatch_cashu demo_cashu_settings demo_node (Some cashu_client)) 14 None.

Definition funding (n : nat) := advance (world_env cashu_world) n one_turn cashu_db [].
Definition funding_state (n : nat) : Sys DB ext :=
  mkSys (funding n).1.1 [] (funding n).1.2 (funding n).2.

Lemma funding_reached n :
  cashu_reach demo_cashu_settings demo_node cashu_client cashu_db (funding_state n).
Proof.
  exists one_turn. split; [by exists 1%nat, 14, None|]. by apply (advance_sched _ _ _ (fun _ _ _ => I)).
Qed.

Lemma demo_valid : validate_mostro_settings (fun _ => "") (fun s => s) demo_cashu_settings = Ok tt.
Proof. by vm_compute. Qed.

(** The whole turn: order 7 is locked, and both parties are told. *)
Lemma cashu_escrow_funded_witness :
  let s := funding_state 40 in
  sched s = Ret tt /\
  exists r t, In r (orders (s_db s)) /\ o_id r = 7%N /\ o_cashu_escrow_locked_at r = Some t /\
    funded demo_cashu_settings demo_node cashu_client r t (s_trace s).
Proof.
  intros s. split; [by vm_compute|].
  assert (no_escrows cashu_db) as Hn.
  { split; [by apply (bool_decide_eq_true_1 (NoDup _)); vm_compute|].
    intros r [<-|[<-|[]]]; by split_and!. }
  destruct (cashu_escrow_funded demo_cashu_settings demo_node cashu_client
    (fun _ => "") (fun s => s) eq_refl demo_valid cashu_db s Hn (funding_reached 40)) as (_ & Hl & _).
  destruct (orders (s_db s)) as [|r l] eqn:E; [by vm_compute in E|].
  assert (o_id r = 7%N /\ o_cashu_escrow_locked_at r = Some 1000) as [Hi Ht].
  { apply (f_equal (fun l => match l with r :: _ => (o_id r, o_cashu_escrow_locked_at r) | [] => (0%N, None) end)) in E.
    vm_compute in E. injection E as Hi Ht. split; [exact (eq_sym Hi)|exact (eq_sym Ht)]. }
  exists r, 1000. split; [by left|]. split; [exact Hi|]. split; [exact Ht|].
  apply Hl; [by left|exact Ht].
Defined.
