(* ===== verification/CashuFindings.v ===== *)
(** * A funded escrow can be erased

    The expiry job writes back the whole row it read; this file runs it
    against the event loop of a Cashu node. *)

From S2P Require Import Prelude Float64 Config CashuTypes BondTypes BondMath Effects Model.
From S2P Require Import Lightning BondDb OrderDb BondLock Messages Users NewOrder Take TradeJobs Gate.
From S2P Require Import Cashu CashuEscrow CashuDemo EventLoop Demo CashuPact CashuLoop Tasks PayoutPact Walk.

Open Scope Z_scope.

(** Order 7 is offered until time 1000. *)
Definition offered : Order :=
  (demo_order 7 Pending) <| o_buyer_pubkey := None |> <| o_master_buyer_pubkey := None |>
    <| o_seller_pubkey := Some demo_seller |> <| o_expires_at := 1000 |>.
Definition offer_db : DB := mkDB [offered] [] [] [].

Definition demo_event (sender content : string) : NostrEvent :=
  let tags := replicate 8 [] in
  let e := mkNostrEvent "id" sender 1000 14 tags content "" in
  mkNostrEvent "id" sender 1000 14 tags content (demo_sig e).

Definition world_at (now : Z) (sender content : string) : Env DB ext :=
  world_env (mkWorld now (demo_event sender content) 0 (Ok tt) (Ok tt)).

Definition two_turns : M unit :=
  event_loop demo_cashu_settings 2 (dispatch_cashu demo_cashu_settings demo_node (Some cashu_client)) 14 None.
Definition expiry : M unit := job_expire_pending_older_orders demo_cashu_settings 1.

(** At time 999 the buyer takes the order, up to the claim; at 1001 the job
    reads the order, still pending, and publishes its expiry; the take is
    completed, the seller funds the escrow, and the job writes its row. *)
Definition taking := advance (world_at 999 demo_buyer "take-sell") 8 two_turns offer_db [].
Definition expiring := advance (world_at 1001 demo_buyer "") 3 expiry taking.1.2 taking.2.
Definition taken := advance (world_at 1001 demo_buyer "take-sell") 5 taking.1.1 expiring.1.2 expiring.2.
Definition funding := advance (world_at 1001 demo_seller "add-cashu-escrow") 40 taken.1.1 taken.1.2 taken.2.
Definition expired := advance (world_at 1001 demo_buyer "") 40 expiring.1.1 funding.1.2 funding.2.

Definition only_expiry (p : M unit) : Prop := p = expiry.
Abbreviation node_step :=
  (sys_step only_expiry (cashu_loop demo_cashu_settings demo_node cashu_client) no_law).

Definition offered_state : Sys DB ext := mkSys two_turns [] offer_db [].
Definition funded_state : Sys DB ext := mkSys funding.1.1 [expiring.1.1] funding.1.2 funding.2.
Definition erased_state : Sys DB ext := mkSys funding.1.1 [expired.1.1] expired.1.2 expired.2.

Lemma funded_reached : rtc node_step offered_state funded_state.
Proof.
  assert (forall l tr, no_law (l ++ tr)%list -> no_law tr) as Hl by done.
  etrans; [by apply (advance_sched _ _ _ Hl (world_at 999 demo_buyer "take-sell") 8)|].
  eapply rtc_l; [by apply (sys_spawn _ _ _ _ _ _ _ expiry)|].
  etrans; [by apply (advance_thread _ _ _ Hl (world_at 1001 demo_buyer "") 3 expiry _ [expiry] 0)|].
  etrans; [by apply (advance_sched _ _ _ Hl (world_at 1001 demo_buyer "take-sell") 5)|].
  by apply (advance_sched _ _ _ Hl (world_at 1001 demo_seller "add-cashu-escrow") 40).
Qed.

Lemma erased_reached : rtc node_step funded_state erased_state.
Proof.
  by apply (advance_thread _ _ _ (fun _ _ _ => I) (world_at 1001 demo_buyer "") 40 expiring.1.1 _
    [expiring.1.1] 0).
Qed.

(** The expiry job drags a funded escrow back.  There is an interleaving of
    the event loop and the job in which order 7 becomes active with its token
    stored and both parties are told so, and the job, which read the order
    while it was pending, then makes it an expired order without a token. *)
Theorem expiry_erases_escrow :
  rtc node_step offered_state funded_state /\ rtc node_step funded_state erased_state /\
  map (fun r => (o_id r, o_status r, o_cashu_escrow_token r)) (orders (s_db funded_state)) =
    [(7%N, status_to_string Active, Some "cashuB")] /\
  length (List.filter (fun o => match o with
    | ObsExt (Enqueue m) _ => bool_decide (q_action m = CashuEscrowLocked)
    | _ => false end) (s_trace funded_state)) = 2%nat /\
  map (fun r => (o_id r, o_status r, o_cashu_escrow_token r)) (orders (s_db erased_state)) =
    [(7%N, status_to_string Expired, None)].
Proof. split; [exact funded_reached|]. split; [exact erased_reached|]. by vm_compute. Qed.

(** ** A task that spares the escrows

    Of the jobs that run on a Cashu node the expiry job alone writes orders;
    one that writes none is such a task. *)

Lemma no_writes_spares `{Lib} (p : M unit) : prog_all same_orders quiet_request p -> escrow_bystander p.
Proof.
  unfold escrow_bystander. induction p as [a|R stmt k IH|R e k IH]; cbn; [done|..].
  - intros [Hs Hk]. split; [|intros r; by apply IH].
    intros db Hdb. by apply spares_same; [apply Hs|].
  - intros [Hq Hk]. split; [done|]. intros r. by apply IH.
Qed.
