(* ===== verification/Price.v ===== *)
(** * Exchange rates: providers, aggregation and the price store

    [src/price/provider.rs], [aggregate.rs], [fiat.rs], [config.rs] and
    [store.rs]: what a provider reports, how the reports of one tick become
    one rate per currency, and the store the rest of the daemon reads.

    A Rust [HashMap] that is only iterated is an association list in its
    iteration order, which is arbitrary; one that is looked up is a [gmap].
    Currency codes are strings, upper-cased as the source does. *)

From Stdlib Require Import ZArith QArith_base.
From stdpp Require Import gmap sorting.
From S2P Require Import Prelude.
From S2P Require Import Float64.

Open Scope nat_scope.

(** ** Providers ([provider.rs]) *)

Inductive Quote : Type :=
| PerBtc (v : f64)
| PerBase (base : string) (value : f64).

(** One poll: currency code and quote, in the map's iteration order. *)
Definition ProviderQuotes : Type := list (string * Quote).

Inductive ProviderId : Type :=
| Yadio | CoinGecko | CurrencyApi | Blockchain | ElToque | Nostr.

#[export] Instance ProviderId_eq_dec : EqDecision ProviderId.
Proof. solve_decision. Defined.

(** The derived [Ord]: declaration order. *)
Definition provider_rank (i : ProviderId) : nat :=
  match i with
  | Yadio => 0 | CoinGecko => 1 | CurrencyApi => 2
  | Blockchain => 3 | ElToque => 4 | Nostr => 5
  end.

Definition provider_of_rank (n : nat) : option ProviderId :=
  [Yadio; CoinGecko; CurrencyApi; Blockchain; ElToque; Nostr] !! n.

#[export] Program Instance ProviderId_countable : Countable ProviderId :=
  inj_countable provider_rank provider_of_rank _.
Next Obligation. by intros []. Qed.

Definition provider_le (i j : ProviderId) : Prop := provider_rank i <= provider_rank j.
#[export] Instance provider_le_dec : RelDecision provider_le.
Proof. intros i j. unfold provider_le. apply _. Defined.

Definition provider_to_string (i : ProviderId) : string :=
  match i with
  | Yadio => "yadio" | CoinGecko => "coingecko" | CurrencyApi => "currency_api"
  | Blockchain => "blockchain" | ElToque => "eltoque" | Nostr => "nostr"
  end.

Definition provider_from_str (s : string) : result ProviderId string :=
  if str_eqb s "yadio" then Ok Yadio
  else if str_eqb s "coingecko" then Ok CoinGecko
  else if str_eqb s "currency_api" then Ok CurrencyApi
  else if str_eqb s "blockchain" then Ok Blockchain
  else if str_eqb s "eltoque" then Ok ElToque
  else if str_eqb s "nostr" then Ok Nostr
  else Err ("unknown price provider id: " +:+ s).

Inductive ProviderError : Type :=
| Http (s : string)
| Parse (s : string)
| Misconfigured (s : string).

Definition provider_error_to_string (e : ProviderError) : string :=
  match e with
  | Http s => "http error: " +:+ s
  | Parse s => "parse error: " +:+ s
  | Misconfigured s => "misconfigured: " +:+ s
  end.

(** *** Circuit breaker *)

Record ProviderHealth : Type := {
  consecutive_failures : Z;
  open_until : option Z;
}.

Definition health_new : ProviderHealth :=
  {| consecutive_failures := 0; open_until := None |}.

Definition is_available (h : ProviderHealth) (now : Z) : bool :=
  match open_until h with
  | Some until => (until <=? now)%Z
  | None => true
  end.

Definition health_success (h : ProviderHealth) : ProviderHealth := health_new.

Definition u32_max : Z := (2 ^ 32 - 1)%Z.
Definition u64_max : Z := (2 ^ 64 - 1)%Z.

(** [i64::try_from(u).unwrap_or(i64::MAX)] and [i64::saturating_add] *)
Definition i64_of_u64 (u : Z) : Z := if (u <=? i64_max)%Z then u else i64_max.
Definition saturating_add (a b : Z) : Z := sat_i64 (a + b)%Z.

(** [1u64.checked_shl(n)] is defined for every [n] below 64. *)
Definition checked_shl_one (n : Z) : option Z :=
  if (n <? 64)%Z then Some (Z.shiftl 1 n) else None.

Definition health_failure (h : ProviderHealth) (now failure_threshold base_cooldown_secs
    cooldown_cap_secs : Z) : ProviderHealth :=
  let failures := Z.min (consecutive_failures h + 1) u32_max in
  if (failures <? Z.max failure_threshold 1)%Z
  then {| consecutive_failures := failures; open_until := open_until h |}
  else
    let over := (failures - Z.max failure_threshold 1)%Z in
    let factor := default u64_max (checked_shl_one (Z.min over 63)) in
    let cooldown := Z.min (Z.min (base_cooldown_secs * factor) u64_max) cooldown_cap_secs in
    {| consecutive_failures := failures;
       open_until := Some (saturating_add now (i64_of_u64 cooldown)) |}.

(** ** Aggregation ([aggregate.rs]) *)

Record AggregateResult : Type := {
  value : f64;
  sources : Z;
  contributors : list ProviderId;
  nostr_anchor_dependent : bool;
}.

(** [x.is_finite() && x > 0.0] *)
Definition usable (x : f64) : bool := f64_is_finite x && f64_gt x (Fin 0%Q).

(** The order [partial_cmp] gives on numbers, made total by putting NaN
    first; only usable values are ever sorted. *)
Definition f64_ord (a b : f64) : Prop :=
  match a, b with
  | NaN, _ => True
  | _, NaN => False
  | _, _ => f64_le a b = true
  end.
#[export] Instance f64_ord_dec : RelDecision f64_ord.
Proof. intros a b. destruct a, b; simpl; apply _. Defined.

Definition sort_floats (xs : list f64) : list f64 := merge_sort f64_ord xs.

(** [xs.iter().sum::<f64>() / xs.len() as f64] *)
Definition float_sum (xs : list f64) : f64 := foldl f64_add (Fin 0%Q) xs.
Definition mean (xs : list f64) : f64 :=
  f64_div (float_sum xs) (f64_of_i64 (Z.of_nat (length xs))).

(** Median of a sorted slice; its callers pass a non-empty one. *)
Definition median_sorted (sorted : list f64) : f64 :=
  let n := length sorted in
  if Nat.odd n then nth (n / 2) sorted NaN
  else f64_div (f64_add (nth (n / 2 - 1) sorted NaN) (nth (n / 2) sorted NaN)) (f64_of_i64 2).

(** [m * (outlier_pct / 100.0)] and [(x - m).abs() <= tol] *)
Definition tolerance (m outlier_pct : f64) : f64 :=
  f64_mul m (f64_div outlier_pct (f64_of_i64 100)).
Definition within_band (m tol x : f64) : bool := f64_le (f64_abs (f64_sub x m)) tol.

Definition combine (xs : list f64) (outlier_pct : f64) : option f64 :=
  let clean := sort_floats (List.filter usable xs) in
  match clean with
  | [] => None
  | [x] => Some x
  | [_; _] => Some (mean clean)
  | _ =>
      let m := median_sorted clean in
      let tol := tolerance m outlier_pct in
      match List.filter (within_band m tol) clean with
      | [] => Some m
      | kept => Some (mean kept)
      end
  end.

(** [Vec::dedup]: drops the repetition of the element just kept. *)
Fixpoint dedup (ids : list ProviderId) : list ProviderId :=
  match ids with
  | [] => []
  | x :: rest =>
      match dedup rest with
      | y :: r => if decide (x = y) then y :: r else x :: y :: r
      | [] => [x]
      end
  end.

Definition dedup_sort (ids : list ProviderId) : list ProviderId :=
  dedup (merge_sort provider_le ids).

Definition kept_contributors (pairs : list (ProviderId * f64)) (outlier_pct : f64) :
    list ProviderId :=
  let clean := List.filter (fun p => usable p.2) pairs in
  if (length clean =? 0)%nat then []
  else if (length clean <=? 2)%nat then dedup_sort clean.*1
  else
    let m := median_sorted (sort_floats clean.*2) in
    let tol := tolerance m outlier_pct in
    match (List.filter (fun p => within_band m tol p.2) clean).*1 with
    | [] => dedup_sort clean.*1
    | kept => dedup_sort kept
    end.

(** [map.entry(k).or_default().push(x)] *)
Definition push {A} (m : gmap string (list A)) (k : string) (x : A) : gmap string (list A) :=
  <[k := default [] (m !! k) ++ [x]]> m.

Definition resolve_per_base (per_base : list (string * string * f64))
    (anchors : gmap string f64) : gmap string (list f64) :=
  foldl (fun out '(currency, base, v) =>
    match anchors !! base with
    | Some anchor =>
        let candidate := f64_mul v anchor in
        if usable candidate then push out currency candidate else out
    | None => out
    end) ∅ per_base.

(** *** The pipeline of one tick *)

Definition cross : Type := ProviderId * string * string * f64.

(** Direct quotes per currency, cross quotes in arrival order. *)
Definition collect_quote (id : ProviderId)
    (acc : gmap string (list (ProviderId * f64)) * list cross) (cq : string * Quote) :
    gmap string (list (ProviderId * f64)) * list cross :=
  let currency := to_uppercase cq.1 in
  match cq.2 with
  | PerBtc v => (push acc.1 currency (id, v), acc.2)
  | PerBase base v => (acc.1, acc.2 ++ [(id, currency, to_uppercase base, v)])
  end.

Definition collect_quotes (results : list (ProviderId * ProviderQuotes)) :
    gmap string (list (ProviderId * f64)) * list cross :=
  foldl (fun acc r => foldl (collect_quote r.1) acc r.2) (∅, []) results.

(** An anchor and whether Nostr is among its surviving contributors. *)
Definition anchor_of (outlier_pct : f64) (pairs : list (ProviderId * f64)) :
    option (f64 * bool) :=
  match combine pairs.*2 outlier_pct with
  | Some v => Some (v, bool_decide (Nostr ∈ kept_contributors pairs outlier_pct))
  | None => None
  end.

Definition resolve_cross (anchors : gmap string (f64 * bool))
    (acc : gmap string (list (ProviderId * f64)) * gmap string (gset ProviderId)) (x : cross) :
    gmap string (list (ProviderId * f64)) * gmap string (gset ProviderId) :=
  let '(id, currency, base, v) := x in
  match anchors !! base with
  | Some (anchor, uses_nostr) =>
      let candidate := f64_mul v anchor in
      if usable candidate then
        (push acc.1 currency (id, candidate),
         if (uses_nostr : bool)
         then <[currency := {[ id ]} ∪ default ∅ (acc.2 !! currency)]> acc.2
         else acc.2)
      else acc
  | None => acc
  end.

(** Step 3 for one currency. *)
Definition aggregate_currency (outlier_pct : f64) (tainted : option (gset ProviderId))
    (pairs : list (ProviderId * f64)) : option AggregateResult :=
  match combine pairs.*2 outlier_pct with
  | Some v =>
      let kept := kept_contributors pairs outlier_pct in
      Some {| value := v;
              sources := Z.min (Z.of_nat (length (List.filter usable pairs.*2))) 255;
              contributors := kept;
              nostr_anchor_dependent :=
                match tainted with
                | Some t => existsb (fun c => bool_decide (c ∈ t)) kept
                | None => false
                end |}
  | None => None
  end.

Definition join_pairs (d r : option (list (ProviderId * f64))) :
    option (list (ProviderId * f64)) :=
  match d, r with
  | None, None => None
  | _, _ => Some (default [] d ++ default [] r)
  end.

Definition aggregate_tick (provider_results : list (ProviderId * ProviderQuotes))
    (outlier_pct : f64) : gmap string AggregateResult :=
  let '(direct, per_base) := collect_quotes provider_results in
  let anchors := omap (anchor_of outlier_pct) direct in
  let '(resolved, nostr_anchored) := foldl (resolve_cross anchors) (∅, ∅) per_base in
  map_imap (fun currency pairs =>
      aggregate_currency outlier_pct (nostr_anchored !! currency) pairs)
    (merge join_pairs direct resolved).

(** ** Known currencies ([fiat.rs]) *)

Definition KNOWN_FIAT : list string :=
  [
   "AED"; "AFN"; "ALL"; "AMD"; "ANG"; "AOA"; "ARS"; "AUD"; "AWG"; "AZN"; "BAM"; "BBD"; "BDT";
   "BGN"; "BHD"; "BIF"; "BMD"; "BND"; "BOB"; "BRL"; "BSD"; "BTN"; "BWP"; "BYN"; "BZD"; "CAD";
   "CDF"; "CHF"; "CLP"; "CNY"; "COP"; "CRC"; "CUP"; "CVE"; "CZK"; "DJF"; "DKK"; "DOP"; "DZD";
   "EGP"; "ERN"; "ETB"; "EUR"; "FJD"; "FKP"; "GBP"; "GEL"; "GGP"; "GHS"; "GIP"; "GMD"; "GNF";
   "GTQ"; "GYD"; "HKD"; "HNL"; "HTG"; "HUF"; "IDR"; "ILS"; "IMP"; "INR"; "IQD"; "IRR"; "IRT";
   "ISK"; "JEP"; "JMD"; "JOD"; "JPY"; "KES"; "KGS"; "KHR"; "KMF"; "KPW"; "KRW"; "KWD"; "KYD";
   "KZT"; "LAK"; "LBP"; "LKR"; "LRD"; "LSL"; "LYD"; "MAD"; "MDL"; "MGA"; "MKD"; "MLC"; "MMK";
   "MNT"; "MOP"; "MRU"; "MUR"; "MVR"; "MWK"; "MXN"; "MYR"; "MZN"; "NAD"; "NGN"; "NIO"; "NOK";
   "NPR"; "NZD"; "OMR"; "PAB"; "PEN"; "PGK"; "PHP"; "PKR"; "PLN"; "PYG"; "QAR"; "RON"; "RSD";
   "RUB"; "RWF"; "SAR"; "SBD"; "SCR"; "SDG"; "SEK"; "SGD"; "SHP"; "SLE"; "SOS"; "SRD"; "SSP";
   "STN"; "SVC"; "SYP"; "SZL"; "THB"; "TJS"; "TMT"; "TND"; "TOP"; "TRY"; "TTD"; "TWD"; "TZS";
   "UAH"; "UGX"; "USD"; "UYU"; "UZS"; "VES"; "VND"; "VUV"; "WST"; "XAF"; "XCD"; "XCG"; "XOF";
   "XPF"; "YER"; "ZAR"; "ZMW"; "ZWL"].

(** [binary_search] finds exactly the members of a sorted slice
    ([PriceSpec.KNOWN_FIAT_sorted]). *)
Definition is_known_fiat (code : string) : bool :=
  bool_decide (to_uppercase code ∈ KNOWN_FIAT).

(** ** Settings ([config.rs]) *)

Record ProviderConfig : Type := {
  enabled : bool;
  url : string;
  fallback_urls : list string;
  api_key : option string;
  token : option string;
  only : option (list string);
  except : option (list string);
  trusted_nodes : list string;
}.

Record PriceSettings : Type := {
  update_interval_seconds : Z;
  max_price_staleness_seconds : Z;
  outlier_threshold_pct : f64;
  provider_timeout_seconds : Z;
  provider_failure_threshold : Z;
  provider_failure_cooldown_seconds : Z;
  publish_to_nostr : bool;
  providers : gmap string ProviderConfig;
}.

Definition is_ws (c : ascii) : bool :=
  let n := Ascii.nat_of_ascii c in (n =? 32)%nat || ((9 <=? n)%nat && (n <=? 13)%nat).

(** [s.trim().is_empty()] *)
Fixpoint trim_is_empty (s : string) : bool :=
  match s with
  | EmptyString => true
  | String c s' => is_ws c && trim_is_empty s'
  end.

(** Which check of [ProviderConfig::validate] or [PriceSettings::validate]
    failed; the source returns a message naming the field. *)
Inductive PriceConfigError : Type :=
| OnlyAndExcept (id : string)
| MissingTrustedNodes (id : string)
| MissingUrl (id : string)
| ZeroInterval
| NonPositiveStaleness
| BadOutlierThreshold.

Definition provider_validate (c : ProviderConfig) (id : string) :
    result unit PriceConfigError :=
  if is_some (only c) && is_some (except c) then Err (OnlyAndExcept id)
  else if enabled c && trim_is_empty (url c) then
    if str_eqb id "nostr" then
      if (length (trusted_nodes c) =? 0)%nat then Err (MissingTrustedNodes id) else Ok tt
    else Err (MissingUrl id)
  else Ok tt.

Definition allows_currency (c : ProviderConfig) (currency : string) : bool :=
  let u := to_uppercase currency in
  match only c, except c with
  | Some l, _ => existsb (fun x => str_eqb (to_uppercase x) u) l
  | None, Some l => negb (existsb (fun x => str_eqb (to_uppercase x) u) l)
  | None, None => true
  end.

(** Which of several misconfigured providers is reported depends on the
    map's iteration order; whether one is does not. *)
Definition settings_validate (s : PriceSettings) : result unit PriceConfigError :=
  if (update_interval_seconds s =? 0)%Z then Err ZeroInterval
  else if (max_price_staleness_seconds s <=? 0)%Z then Err NonPositiveStaleness
  else if negb (f64_is_finite (outlier_threshold_pct s) &&
                f64_gt (outlier_threshold_pct s) (Fin 0%Q) &&
                f64_le (outlier_threshold_pct s) (f64_of_i64 100))
  then Err BadOutlierThreshold
  else
    foldr (fun '(id, p) rest =>
        match provider_validate p id with Ok _ => rest | Err e => Err e end)
      (Ok tt) (map_to_list (providers s)).

Definition default_price_settings : PriceSettings := {|
  update_interval_seconds := 300;
  max_price_staleness_seconds := 1800;
  outlier_threshold_pct := f64_of_i64 5;
  provider_timeout_seconds := 10;
  provider_failure_threshold := 3;
  provider_failure_cooldown_seconds := 120;
  publish_to_nostr := true;
  providers := ∅;
|}.

(** ** The store ([store.rs]) *)

Record AggregatedPrice : Type := {
  price : f64;
  as_of : Z;
  source_count : Z;
}.

Inductive PriceError : Type := NoCurrency | TooStale.

Definition PriceStore : Type := gmap string AggregatedPrice.

(** The keys of an aggregate are upper-case already, so upper-casing them
    again never merges two entries and the iteration order is immaterial. *)
Definition store_update (w : PriceStore) (aggregates : gmap string AggregateResult) (now : Z) :
    PriceStore :=
  map_fold (fun currency agg w =>
      <[to_uppercase currency :=
          {| price := value agg; as_of := now; source_count := sources agg |}]> w)
    w aggregates.

Definition store_get (r : PriceStore) (currency : string) (max_staleness_secs now : Z) :
    result f64 PriceError :=
  match r !! to_uppercase currency with
  | None => Err NoCurrency
  | Some entry =>
      if (saturating_sub now (as_of entry) <=? max_staleness_secs)%Z
      then Ok (price entry) else Err TooStale
  end.

Definition snapshot (r : PriceStore) (currency : string) : option AggregatedPrice :=
  r !! to_uppercase currency.
