(* ===== verification/PriceManager.v ===== *)
(** * Exchange rates: the manager, its providers and its readers

    [src/price/manager.rs] (registry, tick, reads, publication), the part of
    each adapter under [src/price/providers] that turns a decoded body into
    quotes, and [get_market_quote] of [src/util.rs].

    A tick is a function of the clock readings it takes and of what each
    poll returned; the store and the breakers it leaves are those of the
    returned manager.  Requests, JSON decoding, key handling and signature
    checks are done by libraries and enter as arguments.  A poisoned lock
    needs a panic while it is held, and nothing below panics under one. *)

From Stdlib Require Import ZArith QArith_base String.
From stdpp Require Import gmap sorting.
From S2P Require Import Prelude.
From S2P Require Import Float64.
From S2P Require Import Config BondTypes.
From S2P Require Import BondMath.
From S2P Require Import Model.
From S2P Require Import Price.

Open Scope Z_scope.

(** ** Adapters ([providers/*.rs]) *)

(** [HashMap::insert] on the iteration list: an existing key keeps its place. *)
Fixpoint assoc_insert {V} (k : string) (v : V) (l : list (string * V)) : list (string * V) :=
  match l with
  | [] => [(k, v)]
  | (k', v') :: l' => if str_eqb k k' then (k, v) :: l' else (k', v') :: assoc_insert k v l'
  end.

(** [iter.collect::<HashMap<_, _>>()] *)
Definition collect_map {V} (l : list (string * V)) : list (string * V) :=
  foldl (fun acc kv => assoc_insert kv.1 kv.2 acc) [] l.

Fixpoint assoc_get {V} (k : string) (l : list (string * V)) : option V :=
  match l with
  | [] => None
  | (k', v) :: l' => if str_eqb k k' then Some v else assoc_get k l'
  end.

Section adapters.
(** [serde_json::from_str] into the adapter's response type. *)
Variable from_str : string -> result (list (string * option f64)) string.

(** The filter shared by the direct quoters; [canon] is the treatment of
    the code. *)
Definition direct_quotes (canon : string -> string) (entries : list (string * option f64)) :
    ProviderQuotes :=
  collect_map (omap (fun '(code, v) =>
    match v with
    | Some v => if usable v then Some (canon code, PerBtc v) else None
    | None => None
    end) entries).

Definition yadio_parse (body : string) : result ProviderQuotes ProviderError :=
  match from_str body with
  | Ok btc => Ok (direct_quotes (fun code => code) btc)
  | Err e => Err (Parse ("yadio: " +:+ e))
  end.

Definition coingecko_parse (body : string) : result ProviderQuotes ProviderError :=
  match from_str body with
  | Ok bitcoin => Ok (direct_quotes to_uppercase bitcoin)
  | Err e => Err (Parse ("coingecko: " +:+ e))
  end.

Definition currency_api_parse (body : string) : result ProviderQuotes ProviderError :=
  match from_str body with
  | Ok btc => Ok (direct_quotes to_uppercase btc)
  | Err e => Err (Parse ("currency_api: " +:+ e))
  end.

Definition blockchain_parse (body : string) : result ProviderQuotes ProviderError :=
  match from_str body with
  | Ok entries => Ok (direct_quotes to_uppercase entries)
  | Err e => Err (Parse ("blockchain: " +:+ e))
  end.

Definition nostr_parse_content (body : string) : result ProviderQuotes ProviderError :=
  match from_str body with
  | Ok btc => Ok (direct_quotes to_uppercase btc)
  | Err e => Err (Parse ("nostr: " +:+ e))
  end.

(** CUP and MLC against the dollar. *)
Definition eltoque_parse (body : string) : result ProviderQuotes ProviderError :=
  match from_str body with
  | Err e => Err (Parse ("eltoque: " +:+ e))
  | Ok tasas =>
      match assoc_get "USD" tasas with
      | Some (Some cup_per_usd) =>
          if usable cup_per_usd then
            let out := [("CUP", PerBase "USD" cup_per_usd)] in
            match assoc_get "MLC" tasas with
            | Some (Some cup_per_mlc) =>
                let mlc_per_usd := f64_div cup_per_usd cup_per_mlc in
                if usable cup_per_mlc && usable mlc_per_usd
                then Ok (assoc_insert "MLC" (PerBase "USD" mlc_per_usd) out)
                else Ok out
            | _ => Ok out
            end
          else Ok []
      | _ => Ok []
      end
  end.

(** [CurrencyApiProvider::fetch]: the mirrors in order, the first success
    wins and the last error is reported; [fetch_one] is one request. *)
Fixpoint currency_api_fetch (fetch_one : string -> result ProviderQuotes ProviderError)
    (last_err : ProviderError) (urls : list string) : result ProviderQuotes ProviderError :=
  match urls with
  | [] => Err last_err
  | base :: rest =>
      match fetch_one base with
      | Ok quotes => Ok quotes
      | Err e => currency_api_fetch fetch_one e rest
      end
  end.

(** *** The trusted-node relay ([providers/nostr.rs]) *)

Record RateEvent : Type := {
  ev_pubkey : string;
  ev_kind : Z;
  ev_identifier : option string;
  ev_created_at : Z;
  ev_content : string;
}.

(** [Event::is_expired_at] of the Nostr library. *)
Variable is_expired_at : RateEvent -> Z -> bool.

Definition NOSTR_EXCHANGE_RATES_EVENT_KIND : Z := 30078.
Definition MAX_FETCHED_RATE_EVENTS : nat := 64.

Definition is_plausible_candidate (e : RateEvent) (trusted : list string) : bool :=
  bool_decide (ev_pubkey e ∈ trusted) &&
  (ev_kind e =? NOSTR_EXCHANGE_RATES_EVENT_KIND) &&
  bool_decide (ev_identifier e = Some "mostro-rates"%string).

Definition newer (a b : RateEvent) : Prop := ev_created_at b <= ev_created_at a.
#[local] Instance newer_dec : RelDecision newer.
Proof. intros a b. unfold newer. apply _. Defined.

Definition rank_candidates (events : list RateEvent) (trusted : list string)
    (now max_age : Z) : list RateEvent :=
  merge_sort newer
    (List.filter (fun e =>
       is_plausible_candidate e trusted &&
       (ev_created_at e <=? now) &&
       (now - ev_created_at e <=? max_age) &&
       negb (is_expired_at e now)) events).

Fixpoint pick_first_usable (candidates : list RateEvent) :
    result ProviderQuotes ProviderError :=
  match candidates with
  | [] => Err (Parse
      "nostr: every fresh trusted-node candidate failed to parse or yielded no usable rates")
  | e :: rest =>
      match nostr_parse_content (ev_content e) with
      | Ok (q :: qs) => Ok (q :: qs)
      | _ => pick_first_usable rest
      end
  end.

(** The frames of the stream, [None] a relay error; buffering stops at the
    cap. *)
Fixpoint buffer_candidates (trusted : list string) (room : nat)
    (stream : list (option RateEvent)) : list RateEvent :=
  match room, stream with
  | S room', Some e :: rest =>
      if is_plausible_candidate e trusted
      then e :: buffer_candidates trusted room' rest
      else buffer_candidates trusted room rest
  | S _, None :: rest => buffer_candidates trusted room rest
  | _, _ => []
  end.

Definition nostr_fetch (trusted : list string) (max_age : Z)
    (stream : list (option RateEvent)) (now : Z) : result ProviderQuotes ProviderError :=
  match rank_candidates (buffer_candidates trusted MAX_FETCHED_RATE_EVENTS stream)
          trusted now max_age with
  | [] => Err (Http ("nostr: no fresh trusted-node rate event found " +:+
      "(all missing, untrusted, or older than max_price_staleness_seconds)"))
  | candidates => pick_first_usable candidates
  end.
End adapters.

(** ** The manager ([manager.rs]) *)

Definition PROVIDER_COOLDOWN_CAP_SECONDS : Z := 1800.

Record EnabledProvider : Type := {
  ep_id : ProviderId;
  ep_health : ProviderHealth;
}.

Record PriceManager : Type := {
  registry : list EnabledProvider;
  store : PriceStore;
  settings : PriceSettings;
  warned_stale : gset string;
  warned_refused : gset string;
  warned_single_source : gset string;
}.
#[export] Instance PriceManager_eta : Eta PriceManager := fun m =>
  {| registry := registry m; store := store m; settings := settings m;
     warned_stale := warned_stale m; warned_refused := warned_refused m;
     warned_single_source := warned_single_source m |}.

Inductive FromSettingsError : Type :=
| Invalid (e : PriceConfigError)
| BuildFailed (id : ProviderId).

(** [build_provider]: only El Toque and Nostr can refuse their settings.
    [from_hex] is [PublicKey::from_hex] succeeding. *)
Definition build_provider (from_hex : string -> bool) (id : ProviderId) (cfg : ProviderConfig) :
    result EnabledProvider FromSettingsError :=
  let built := Ok {| ep_id := id; ep_health := health_new |} in
  match id with
  | ElToque =>
      match token cfg with
      | Some t => if trim_is_empty t then Err (BuildFailed id) else built
      | None => Err (BuildFailed id)
      end
  | Nostr =>
      match trusted_nodes cfg with
      | [] => Err (BuildFailed id)
      | nodes => if forallb from_hex nodes then built else Err (BuildFailed id)
      end
  | _ => built
  end.

Fixpoint build_registry (from_hex : string -> bool) (cfgs : list (string * ProviderConfig)) :
    result (list EnabledProvider) FromSettingsError :=
  match cfgs with
  | [] => Ok []
  | (id_str, cfg) :: rest =>
      if negb (enabled cfg) then build_registry from_hex rest
      else
        match provider_from_str id_str with
        | Err _ => build_registry from_hex rest
        | Ok id =>
            match build_provider from_hex id cfg with
            | Err e => Err e
            | Ok p =>
                match build_registry from_hex rest with
                | Ok ps => Ok (p :: ps)
                | Err e => Err e
                end
            end
        end
  end.

Definition from_settings (from_hex : string -> bool) (s : PriceSettings) :
    result PriceManager FromSettingsError :=
  match settings_validate s with
  | Err e => Err (Invalid e)
  | Ok _ =>
      match build_registry from_hex (map_to_list (providers s)) with
      | Err e => Err e
      | Ok ps =>
          Ok {| registry := ps; store := ∅; settings := s;
                warned_stale := ∅; warned_refused := ∅; warned_single_source := ∅ |}
      end
  end.

(** [poll_budget]: seconds granted to one provider, [u64] arithmetic. *)
Definition poll_budget (s : PriceSettings) (id : ProviderId) : Z :=
  let attempts :=
    Z.max (match providers s !! provider_to_string id with
           | Some c => 1 + Z.of_nat (length (fallback_urls c))
           | None => 1
           end) 1 in
  Z.min (Z.min (provider_timeout_seconds s * attempts) u64_max + 1) u64_max.

Definition scope_quotes (s : PriceSettings) (id : ProviderId) (quotes : ProviderQuotes) :
    ProviderQuotes :=
  match providers s !! provider_to_string id with
  | None => quotes
  | Some cfg =>
      if is_none (only cfg) && is_none (except cfg) then quotes
      else List.filter (fun cq => allows_currency cfg cq.1) quotes
  end.

Definition fiat_only (quotes : ProviderQuotes) : ProviderQuotes :=
  List.filter (fun cq => is_known_fiat cq.1) quotes.

(** *** The relayed rates are a fallback *)

(** Usable direct quotes of every provider, Nostr included. *)
Definition collect_direct (results : list (ProviderId * ProviderQuotes)) :
    gmap string (list f64) :=
  foldl (fun acc r =>
    foldl (fun acc (cq : string * Quote) =>
      match cq.2 with
      | PerBtc v => if usable v then push acc (to_uppercase cq.1) v else acc
      | PerBase _ _ => acc
      end) acc r.2) ∅ results.

(** Whether one quote of a non-Nostr provider yields a value. *)
Definition quote_covers (anchors : gmap string f64) (q : Quote) : bool :=
  match q with
  | PerBtc v => usable v
  | PerBase base v =>
      match anchors !! to_uppercase base with
      | Some anchor => usable (f64_mul v anchor)
      | None => false
      end
  end.

Definition currencies_covered_by_non_nostr (results : list (ProviderId * ProviderQuotes))
    (outlier_pct : f64) : gset string :=
  let anchors := omap (fun values => combine values outlier_pct) (collect_direct results) in
  foldl (fun covered r =>
    if decide (r.1 = Nostr) then covered
    else
      foldl (fun covered (cq : string * Quote) =>
        if quote_covers anchors cq.2 then {[ to_uppercase cq.1 ]} ∪ covered else covered)
        covered r.2) ∅ results.

Definition restrict_nostr_to_fallback (results : list (ProviderId * ProviderQuotes))
    (outlier_pct : f64) : list (ProviderId * ProviderQuotes) :=
  let covered_elsewhere := currencies_covered_by_non_nostr results outlier_pct in
  map (fun r =>
    if decide (r.1 = Nostr)
    then (r.1, List.filter (fun cq : string * Quote =>
                 bool_decide (to_uppercase cq.1 ∉ covered_elsewhere)) r.2)
    else r) results.

(** *** Publication *)

Definition republishable (a : AggregateResult) : bool :=
  negb (bool_decide (contributors a = [Nostr])) && negb (nostr_anchor_dependent a).

Definition republishable_rates (aggregates : gmap string AggregateResult) : gmap string f64 :=
  omap (fun a => if republishable a then Some (value a) else None) aggregates.

(** Collecting into a [BTreeSet] sorts and removes repetitions. *)
Definition republished_contributors (aggregates : gmap string AggregateResult)
    (rates : gmap string f64) : list ProviderId :=
  dedup_sort (concat (map (fun ca => contributors ca.2)
    (List.filter (fun ca => is_some (rates !! ca.1)) (map_to_list aggregates)))).

Definition str_le (a b : string) : Prop := String.leb a b = true.
#[export] Instance str_le_dec : RelDecision str_le.
Proof. intros a b. unfold str_le. apply _. Defined.

Definition sources_to_tag (ids : list ProviderId) : string :=
  String.concat "," (merge_sort str_le (map provider_to_string ids)).

Record RatesEvent : Type := {
  re_rates : gmap string f64;
  re_source : string;
  re_published_at : Z;
  re_expiration : Z;
}.

(** The event handed to the relay client; [None] when there is nothing to
    say. *)
Definition publish_rates_to_nostr (s : PriceSettings)
    (aggregates : gmap string AggregateResult) (timestamp : Z) : option RatesEvent :=
  let rates := republishable_rates aggregates in
  if bool_decide (rates = ∅) then None
  else
    let expiration_seconds := Z.min ((update_interval_seconds s * 2) mod 2 ^ 64) 3600 in
    Some {| re_rates := rates;
            re_source := sources_to_tag (republished_contributors aggregates rates);
            re_published_at := timestamp;
            re_expiration := timestamp + expiration_seconds |}.

(** *** Warnings *)

(** [mark_warned]: the set and whether the caller warns. *)
Definition mark_warned (set : gset string) (key : string) : gset string * bool :=
  ({[ key ]} ∪ set, bool_decide (key ∉ set)).

Definition clear_warned (set : gset string) (key : string) : gset string := set ∖ {[ key ]}.

Definition observe_warnings (m : PriceManager) (aggregates : gmap string AggregateResult) :
    PriceManager :=
  m <| warned_single_source :=
    map_fold (fun currency agg set =>
      let key := to_uppercase currency in
      if (sources agg <=? 1) then (mark_warned set key).1 else clear_warned set key)
      (warned_single_source m) aggregates |>.

Definition observe_freshness (m : PriceManager) (currency key : string) (now : Z) :
    PriceManager :=
  match snapshot (store m) currency with
  | None => m
  | Some entry =>
      if (saturating_sub now (as_of entry) <=? update_interval_seconds (settings m))
      then m <| warned_stale := clear_warned (warned_stale m) key |>
             <| warned_refused := clear_warned (warned_refused m) key |>
      else m <| warned_stale := (mark_warned (warned_stale m) key).1 |>
  end.

(** *** Reads *)

Definition get_price (m : PriceManager) (currency : string) (now : Z) :
    PriceManager * result f64 MostroError :=
  let key := to_uppercase currency in
  match store_get (store m) currency (max_price_staleness_seconds (settings m)) now with
  | Ok v => (observe_freshness m currency key now, Ok v)
  | Err TooStale =>
      (m <| warned_refused := (mark_warned (warned_refused m) key).1 |>,
       Err (MostroInternalErr PriceTooStale))
  | Err NoCurrency => (m, Err (MostroInternalErr NoAPIResponse))
  end.

(** *** One tick *)

(** What [tokio::time::timeout] around a poll yields. *)
Inductive PollOutcome : Type :=
| Fetched (quotes : ProviderQuotes)
| FetchFailed (e : ProviderError)
| TimedOut.

Record TickReport : Type := {
  successes : list ProviderId;
  failures : list (ProviderId * string);
  skipped : list ProviderId;
  tick_contributors : list ProviderId;
  fresh_currencies : nat;
}.
#[export] Instance TickReport_eta : Eta TickReport := fun r =>
  {| successes := successes r; failures := failures r; skipped := skipped r;
     tick_contributors := tick_contributors r; fresh_currencies := fresh_currencies r |}.

Definition empty_report : TickReport :=
  {| successes := []; failures := []; skipped := []; tick_contributors := [];
     fresh_currencies := 0 |}.

(** The breaker of one polled provider after its outcome. *)
Definition note_outcome (s : PriceSettings) (failed_at : Z) (h : ProviderHealth)
    (o : PollOutcome) : ProviderHealth :=
  match o with
  | Fetched _ => health_success h
  | _ => health_failure h failed_at (provider_failure_threshold s)
           (provider_failure_cooldown_seconds s) PROVIDER_COOLDOWN_CAP_SECONDS
  end.

Definition poll (fetch : ProviderId -> PollOutcome) (now : Z) (p : EnabledProvider) :
    option PollOutcome :=
  if is_available (ep_health p) now then Some (fetch (ep_id p)) else None.

Definition poll_report (fetch : ProviderId -> PollOutcome) (now : Z)
    (ps : list EnabledProvider) : TickReport :=
  {| successes := omap (fun p => match poll fetch now p with
                                 | Some (Fetched _) => Some (ep_id p) | _ => None end) ps;
     failures := omap (fun p => match poll fetch now p with
                                | Some (FetchFailed e) =>
                                    Some (ep_id p, provider_error_to_string e)
                                | Some TimedOut => Some (ep_id p, "timeout"%string)
                                | _ => None end) ps;
     skipped := omap (fun p => match poll fetch now p with
                               | None => Some (ep_id p) | _ => None end) ps;
     tick_contributors := [];
     fresh_currencies := 0 |}.

Definition quotes_of_poll (fetch : ProviderId -> PollOutcome) (now : Z)
    (ps : list EnabledProvider) : list (ProviderId * ProviderQuotes) :=
  omap (fun p => match poll fetch now p with
                 | Some (Fetched q) => Some (ep_id p, q) | _ => None end) ps.

(** The filters between the adapters and the aggregation. *)
Definition tick_inputs (s : PriceSettings) (polled : list (ProviderId * ProviderQuotes)) :
    list (ProviderId * ProviderQuotes) :=
  restrict_nostr_to_fallback
    (map (fun r => (r.1, scope_quotes s r.1 (fiat_only r.2))) polled)
    (outlier_threshold_pct s).

(** [update_all], reading the clock before the polls, after them, before
    the store is written and when the event is built. *)
Definition update_all (m : PriceManager) (fetch : ProviderId -> PollOutcome)
    (now failed_at stored_at published_at : Z) :
    PriceManager * TickReport * option RatesEvent :=
  match registry m with
  | [] => (m, empty_report, None)
  | ps =>
      let s := settings m in
      let report := poll_report fetch now ps in
      let ps' := map (fun p =>
        match poll fetch now p with
        | Some o => {| ep_id := ep_id p;
                       ep_health := note_outcome s failed_at (ep_health p) o |}
        | None => p
        end) ps in
      let m1 := m <| registry := ps' |> in
      let aggregates :=
        aggregate_tick (tick_inputs s (quotes_of_poll fetch now ps)) (outlier_threshold_pct s) in
      if bool_decide (aggregates = ∅) then (m1, report, None)
      else
        let m2 := observe_warnings m1 aggregates in
        let m3 := m2 <| store := store_update (store m2) aggregates stored_at |> in
        let report' :=
          report <| tick_contributors :=
                      dedup_sort (concat (map (fun ca => contributors ca.2)
                                            (map_to_list aggregates))) |>
                 <| fresh_currencies := size aggregates |> in
        (m3, report',
         if publish_to_nostr s then publish_rates_to_nostr s aggregates published_at else None)
  end.

(** The legacy configuration. *)
Definition synthesise_legacy_price_settings (bitcoin_price_api_url : string)
    (exchange_rates_update_interval_seconds : Z) (publish_exchange_rates_to_nostr : bool) :
    PriceSettings :=
  let d := default_price_settings in
  {| update_interval_seconds := exchange_rates_update_interval_seconds;
     max_price_staleness_seconds := max_price_staleness_seconds d;
     outlier_threshold_pct := outlier_threshold_pct d;
     provider_timeout_seconds := provider_timeout_seconds d;
     provider_failure_threshold := provider_failure_threshold d;
     provider_failure_cooldown_seconds := provider_failure_cooldown_seconds d;
     publish_to_nostr := publish_exchange_rates_to_nostr;
     providers := {[ provider_to_string Yadio :=
       {| enabled := true; url := bitcoin_price_api_url; fallback_urls := [];
          api_key := None; token := None; only := None; except := None;
          trusted_nodes := [] |} ]} |}.

(** ** Readers *)

(** [get_bitcoin_price]: no manager installed is the error of an empty one. *)
Definition get_bitcoin_price (global : option PriceManager) (currency : string) (now : Z) :
    result f64 MostroError :=
  match global with
  | Some m => (get_price m currency now).2
  | None => Err (MostroInternalErr NoAPIResponse)
  end.

(** [get_market_quote] *)
Definition get_market_quote (global : option PriceManager) (now fiat_amount : Z)
    (fiat_code : string) (premium : Z) : result Z MostroError :=
  match get_bitcoin_price global fiat_code now with
  | Err e => Err e
  | Ok p =>
      if f64_le p (Fin 0%Q) then Err (MostroInternalErr NoAPIResponse)
      else Ok (market_sats p fiat_amount premium)
  end.
