(* ===== verification/PriceMath.v ===== *)
(** * Combining the rates of one currency

    What [combine] and [kept_contributors] of [src/price/aggregate.rs]
    compute: that the result depends on the values and not on their order,
    that it is a proper number, that a minority of sources cannot move it
    out of the band around the others, and that the advertised contributors
    are the providers whose values were used. *)

From Stdlib Require Import ZArith QArith Qabs Lqa Lia Sorting.
From stdpp Require Import gmap sorting.
From S2P Require Import Prelude.
From S2P Require Import Float64.
From S2P Require Import Price.

Open Scope Q_scope.

(** ** Sorting *)

#[export] Instance f64_ord_total : Total f64_ord.
Proof.
  intros a b. destruct a as [|[]|x], b as [|[]|y]; simpl; auto.
  rewrite !Qle_bool_iff. destruct (Qlt_le_dec x y); [left; lra | by right].
Qed.

#[export] Instance f64_ord_trans : Transitive f64_ord.
Proof.
  intros a b c. destruct a as [|[]|x], b as [|[]|y], c as [|[]|z]; simpl; try done.
  rewrite !Qle_bool_iff. lra.
Qed.

Lemma f64_ord_antisym a b : f64_wf a -> f64_wf b -> f64_ord a b -> f64_ord b a -> a = b.
Proof.
  destruct a as [|[]|x], b as [|[]|y]; simpl; try done.
  intros Hx Hy. rewrite !Qle_bool_iff. intros. f_equal.
  by apply f64_wf_eq; [| |lra].
Qed.

Lemma sort_floats_sorted xs : StronglySorted f64_ord (sort_floats xs).
Proof. apply (StronglySorted_merge_sort f64_ord). Qed.

Lemma sort_floats_perm xs : sort_floats xs ≡ₚ xs.
Proof. apply merge_sort_Permutation. Qed.

(** The order in which the values arrive does not matter. *)
Lemma sort_floats_unique xs ys :
  Forall f64_wf xs -> xs ≡ₚ ys -> sort_floats xs = sort_floats ys.
Proof.
  intros Hwf Hp.
  apply (StronglySorted_unique_strong f64_ord); [|apply sort_floats_sorted..|].
  - intros a b Ha Hb.
    rewrite Forall_forall in Hwf.
    apply f64_ord_antisym; apply Hwf.
    + by rewrite <- (sort_floats_perm xs).
    + by rewrite Hp, <- (sort_floats_perm ys).
  - by rewrite (sort_floats_perm xs), (sort_floats_perm ys).
Qed.

Lemma filter_perm {A} (f : A -> bool) l k : l ≡ₚ k -> List.filter f l ≡ₚ List.filter f k.
Proof.
  induction 1; simpl; repeat case_match; try done; try by constructor.
  by etransitivity.
Qed.

Lemma Forall_filter {A} (P : A -> Prop) (f : A -> bool) l :
  Forall P l -> Forall P (List.filter f l).
Proof. induction 1; simpl; [done|]. case_match; auto. Qed.

Lemma combine_perm xs ys pct :
  Forall f64_wf xs -> xs ≡ₚ ys -> combine xs pct = combine ys pct.
Proof.
  intros Hwf Hp. unfold combine.
  by rewrite (sort_floats_unique (List.filter usable xs) (List.filter usable ys))
    by (auto using Forall_filter, filter_perm).
Qed.

(** ** Usable values *)

Definition toQ (x : f64) : Q := match x with Fin q => q | _ => 0 end.

Lemma usable_spec x : usable x = true <-> x = Fin (toQ x) /\ 0 < toQ x.
Proof.
  destruct x as [|s|q]; unfold usable; simpl; [by split; [|intros [? _]]..|].
  unfold f64_gt, f64_lt, f64_le. rewrite negb_true_iff, Qle_bool_false.
  by split; [|intros [_ ?]].
Qed.

Lemma usable_clean xs : Forall (fun x => x = Fin (toQ x) /\ 0 < toQ x)
  (sort_floats (List.filter usable xs)).
Proof.
  rewrite (sort_floats_perm _). apply Forall_forall. intros x Hx.
  apply usable_spec. by apply list_elem_of_In, filter_In in Hx as [].
Qed.

Lemma usable_list l :
  Forall (fun x => x = Fin (toQ x) /\ 0 < toQ x) l -> l = Fin <$> (toQ <$> l).
Proof. induction 1 as [|x l [E _] _ IH]; [done|]. cbn. by f_equal. Qed.

(** A non-negative number, or an infinity reached by overflow. *)
Definition rate_value (v : f64) : Prop := f64_wf v /\ f64_le (Fin 0) v = true.

Lemma f64_of_Q_rate q : 0 <= q -> rate_value (f64_of_Q q).
Proof.
  intros Hq. split; [apply f64_of_Q_wf|].
  destruct (f64_of_Q_cases q Hq) as [->|(-> & H & _)]; [done|].
  by apply Qle_bool_iff.
Qed.

Lemma f64_add_rate a b : rate_value a -> rate_value b -> rate_value (f64_add a b).
Proof.
  intros [_ Ha] [_ Hb]. destruct a as [|[]|x], b as [|[]|y]; try done.
  simpl in *. rewrite Qle_bool_iff in *. apply f64_of_Q_rate. lra.
Qed.

Lemma f64_div_rate a z : rate_value a -> (0 < z)%Z -> in_i64 z -> rate_value (f64_div a (f64_of_i64 z)).
Proof.
  intros [_ Ha] Hz Hi. rewrite f64_of_i64_fin by done.
  assert (1 <= rnd (inject_Z z)).
  { rewrite <- (rnd_integer 1) by lia. apply rnd_mono. change 1 with (inject_Z 1).
    rewrite <- Zle_Qle. lia. }
  destruct a as [|[]|x]; try done; cbn [f64_div].
  - split; [done|]. unfold qsign, Qltb.
    destruct (Qle_bool 0 (rnd (inject_Z z))) eqn:E; [done|]. qbool. exfalso; lra.
  - destruct (Qeq_bool (rnd (inject_Z z)) 0) eqn:E.
    { apply Qeq_bool_iff in E. exfalso; lra. }
    simpl in Ha. rewrite Qle_bool_iff in Ha. apply f64_of_Q_rate.
    apply Qle_shift_div_l; lra.
Qed.

Lemma rate_zero : rate_value (Fin 0).
Proof.
  split; [|done]. pose proof (pow2_pos 1024).
  split_and!; [done | by apply (repr_int 0) | lra | lra].
Qed.

Lemma float_sum_rate l a : rate_value a -> Forall rate_value l -> rate_value (foldl f64_add a l).
Proof.
  intros Ha Hl. revert a Ha. induction Hl; intros a Ha; simpl; [done|].
  apply IHHl. by apply f64_add_rate.
Qed.

Lemma mean_rate l :
  l <> [] -> (Z.of_nat (length l) <= i64_max)%Z -> Forall rate_value l -> rate_value (mean l).
Proof.
  intros Hne Hlen Hl. unfold mean. apply f64_div_rate.
  - by apply float_sum_rate; [apply rate_zero|].
  - destruct l; [done|]. simpl. lia.
  - unfold in_i64, i64_min. lia.
Qed.

(** ** The shape of [combine] *)

(** The usable values in order, their median and the band around it. *)
Definition clean_of (xs : list f64) : list f64 := sort_floats (List.filter usable xs).
Definition in_band (xs : list f64) (pct x : f64) : bool :=
  let m := median_sorted (clean_of xs) in within_band m (tolerance m pct) x.

Lemma combine_few xs pct :
  (length (clean_of xs) <= 2)%nat ->
  combine xs pct = match clean_of xs with
                   | [] => None
                   | [x] => Some x
                   | _ => Some (mean (clean_of xs))
                   end.
Proof. unfold combine, clean_of. destruct (sort_floats _) as [|? [|? [|]]]; simpl; done || lia. Qed.

Lemma combine_many xs pct :
  (3 <= length (clean_of xs))%nat ->
  combine xs pct = match List.filter (in_band xs pct) (clean_of xs) with
                   | [] => Some (median_sorted (clean_of xs))
                   | kept => Some (mean kept)
                   end.
Proof. unfold combine, in_band, clean_of. destruct (sort_floats _) as [|? [|? [|]]]; simpl; done || lia. Qed.

Lemma clean_length xs : length (clean_of xs) = length (List.filter usable xs).
Proof. apply Permutation_length, sort_floats_perm. Qed.

Lemma combine_None xs pct : combine xs pct = None <-> List.filter usable xs = [].
Proof.
  rewrite <- length_zero_iff_nil, <- clean_length.
  destruct (decide (length (clean_of xs) <= 2)%nat) as [H|H].
  - rewrite combine_few by done. by destruct (clean_of xs) as [|? [|]].
  - rewrite combine_many by lia. split; [by case_match | lia].
Qed.

Lemma clean_Forall (P : f64 -> Prop) xs : Forall P xs -> Forall P (clean_of xs).
Proof. intros. unfold clean_of. rewrite (sort_floats_perm _). by apply Forall_filter. Qed.

Lemma clean_rate xs : Forall f64_wf xs -> Forall rate_value (clean_of xs).
Proof.
  intros Hwf%clean_Forall. pose proof (usable_clean xs) as Hu. fold (clean_of xs) in Hu.
  rewrite Forall_forall in *. intros x Hx. destruct (Hu x Hx) as [E Hp].
  split; [by apply Hwf|]. rewrite E. apply Qle_bool_iff. lra.
Qed.

Lemma nth_Forall (P : f64 -> Prop) l k : Forall P l -> (k < length l)%nat -> P (nth k l NaN).
Proof. intros H Hk. rewrite List.Forall_forall in H. by apply H, nth_In. Qed.

Lemma half_lt n : (0 < n)%nat -> (n / 2 < n)%nat.
Proof. intros. apply Nat.div_lt; lia. Qed.

Lemma median_rate l : l <> [] -> Forall rate_value l -> rate_value (median_sorted l).
Proof.
  intros Hne Hl. unfold median_sorted.
  assert (Hn : (0 < length l)%nat) by (destruct l; simpl; [done | lia]).
  pose proof (half_lt _ Hn).
  case_match; [by apply nth_Forall|].
  apply f64_div_rate; [|lia|unfold in_i64, i64_min, i64_max; lia].
  apply f64_add_rate; apply nth_Forall; done || lia.
Qed.

Lemma combine_rate xs pct v :
  Forall f64_wf xs -> (Z.of_nat (length xs) <= i64_max)%Z ->
  combine xs pct = Some v -> rate_value v.
Proof.
  intros Hwf%clean_rate Hlen Hc.
  assert (Hl : (length (clean_of xs) <= length xs)%nat)
    by (rewrite clean_length; apply filter_length_le).
  destruct (decide (length (clean_of xs) <= 2)%nat) as [H|H].
  - rewrite combine_few in Hc by done.
    destruct (clean_of xs) as [|x [|y l]] eqn:E; simplify_eq.
    + by inversion Hwf.
    + apply mean_rate; [done | lia | done].
  - rewrite combine_many in Hc by lia.
    assert (clean_of xs <> []) by (by intros E; rewrite E in H; simpl in H; lia).
    pose proof (filter_length_le (in_band xs pct) (clean_of xs)) as Hk.
    pose proof (Forall_filter _ (in_band xs pct) _ Hwf) as Hkw.
    destruct (List.filter _ _) eqn:E; simplify_eq; [by apply median_rate|].
    apply mean_rate; [done | lia | done].
Qed.

(** ** Contributors *)

(** The candidates a rate is made of: all of them when there are at most two
    or when none lies in the band, those of the band otherwise. *)
Definition survives (xs : list f64) (pct x : f64) : bool :=
  (length (clean_of xs) <=? 2)%nat || forallb (fun y => negb (in_band xs pct y)) (clean_of xs)
  || in_band xs pct x.

#[export] Instance provider_le_total : Total provider_le.
Proof. intros i j. unfold provider_le. lia. Qed.
#[export] Instance provider_le_trans : Transitive provider_le.
Proof. intros i j k. unfold provider_le. lia. Qed.
#[export] Instance provider_le_antisym : AntiSymm (=) provider_le.
Proof. intros [] []; unfold provider_le; simpl; done || lia. Qed.

Lemma dedup_elem i l : i ∈ dedup l <-> i ∈ l.
Proof.
  induction l as [|x l IH]; [done|]. simpl. rewrite elem_of_cons, <- IH.
  destruct (dedup l) as [|y r]; [by rewrite elem_of_cons|].
  case_decide; subst; rewrite !elem_of_cons; tauto.
Qed.

Lemma dedup_sort_elem i l : i ∈ dedup_sort l <-> i ∈ l.
Proof. unfold dedup_sort. by rewrite dedup_elem, merge_sort_Permutation. Qed.

Lemma dedup_sort_perm l k : l ≡ₚ k -> dedup_sort l = dedup_sort k.
Proof.
  intros Hp. unfold dedup_sort. f_equal.
  apply (StronglySorted_unique provider_le); [apply (StronglySorted_merge_sort _)..|].
  by rewrite !merge_sort_Permutation.
Qed.

Lemma filter_snd (f : f64 -> bool) (pairs : list (ProviderId * f64)) :
  (List.filter (fun p => f p.2) pairs).*2 = List.filter f pairs.*2.
Proof. induction pairs as [|p l IH]; [done|]. simpl. case_match; csimpl; by rewrite IH. Qed.

Lemma filter_nil {A} (f : A -> bool) l : List.filter f l = [] <-> forallb (fun x => negb (f x)) l = true.
Proof. induction l as [|x l IH]; [done|]. simpl. by destruct (f x). Qed.

Lemma forallb_perm {A} (f : A -> bool) l k : l ≡ₚ k -> forallb f l = forallb f k.
Proof. induction 1; simpl; [done|congruence| |congruence]. by rewrite !andb_assoc, (andb_comm (f y)). Qed.

Lemma elem_of_fst i (l : list (ProviderId * f64)) : i ∈ l.*1 <-> exists v, (i, v) ∈ l.
Proof.
  rewrite list_elem_of_fmap. split; [intros ([] & -> & ?); eauto|].
  intros [v ?]. by exists (i, v).
Qed.

Lemma elem_of_filterb {A} (f : A -> bool) l x : x ∈ List.filter f l <-> x ∈ l /\ f x = true.
Proof. by rewrite list_elem_of_In, filter_In, <- list_elem_of_In. Qed.

(** The surviving pairs, as [kept_contributors] selects them. *)
Lemma kept_contributors_alt pairs pct :
  kept_contributors pairs pct =
  dedup_sort (List.filter (fun p => usable p.2 && survives pairs.*2 pct p.2) pairs).*1.
Proof.
  unfold kept_contributors. set (clean := List.filter (fun p => usable p.2) pairs).
  assert (Hs : clean.*2 = List.filter usable pairs.*2) by apply filter_snd.
  rewrite Hs. fold (clean_of pairs.*2).
  change (fun p : ProviderId * f64 => within_band _ _ p.2)
    with (fun p : ProviderId * f64 => in_band pairs.*2 pct p.2).
  assert (Hl : length (clean_of pairs.*2) = length clean)
    by (by rewrite clean_length, <- Hs, length_fmap).
  assert (Hb : forallb (fun y => negb (in_band pairs.*2 pct y)) (clean_of pairs.*2) =
               forallb (fun y => negb (in_band pairs.*2 pct y)) clean.*2)
    by (apply forallb_perm; unfold clean_of; rewrite Hs; apply sort_floats_perm).
  assert (Hand : forall g : ProviderId * f64 -> bool,
    List.filter (fun p => usable p.2 && g p) pairs = List.filter g clean).
  { intros g. unfold clean. clear. induction pairs as [|p l IH]; [done|]. simpl.
    destruct (usable p.2); simpl; [case_match; by rewrite IH | done]. }
  rewrite Hand. unfold survives. rewrite Hl, Hb.
  assert (Hall : forall g : ProviderId * f64 -> bool, (forall p, g p = true) ->
    List.filter g clean = clean).
  { intros g Hg. clear -Hg. induction clean as [|p l IH]; [done|]. simpl. by rewrite Hg, IH. }
  destruct (length clean <=? 2)%nat eqn:E2.
  - rewrite Hall by done. destruct (Nat.eqb_spec (length clean) 0) as [E|]; [|done].
    by apply length_zero_iff_nil in E as ->.
  - destruct (Nat.eqb_spec (length clean) 0) as [E|]; [by rewrite E in E2|].
    clear Hb. destruct (forallb (fun y => negb (in_band pairs.*2 pct y)) clean.*2) eqn:Ef.
    + apply filter_nil in Ef. rewrite <- filter_snd in Ef. apply fmap_nil_inv in Ef.
      rewrite Ef. simpl. by rewrite Hall.
    + simpl. destruct ((List.filter _ clean).*1) eqn:E; [|done].
      apply fmap_nil_inv in E. exfalso.
      assert (List.filter (in_band pairs.*2 pct) clean.*2 = []) as En
        by (by rewrite <- filter_snd, E).
      apply filter_nil in En. congruence.
Qed.

(** The providers a rate names are those of the surviving candidates. *)
Lemma kept_contributors_elem pairs pct i :
  i ∈ kept_contributors pairs pct <->
  exists v, (i, v) ∈ pairs /\ usable v = true /\ survives pairs.*2 pct v = true.
Proof.
  rewrite kept_contributors_alt, dedup_sort_elem, elem_of_fst.
  apply exist_proper. intros v. rewrite elem_of_filterb. simpl. rewrite andb_true_iff. tauto.
Qed.

Lemma survives_perm xs ys pct :
  Forall f64_wf xs -> xs ≡ₚ ys -> forall x, survives xs pct x = survives ys pct x.
Proof.
  intros Hwf Hp x. unfold survives, in_band, clean_of.
  by rewrite (sort_floats_unique (List.filter usable xs) (List.filter usable ys))
    by (auto using Forall_filter, filter_perm).
Qed.

Lemma kept_contributors_perm pairs pairs' pct :
  Forall f64_wf pairs.*2 -> pairs ≡ₚ pairs' ->
  kept_contributors pairs pct = kept_contributors pairs' pct.
Proof.
  intros Hwf Hp. rewrite !kept_contributors_alt. apply dedup_sort_perm.
  apply fmap_Permutation. rewrite (filter_perm _ _ _ Hp).
  erewrite filter_ext; [reflexivity|]. intros p. simpl. f_equal.
  apply survives_perm; [done | by apply fmap_Permutation].
Qed.

(** ** Where the median lies *)

Definition between (lo hi : Q) (x : f64) : bool := Qle_bool lo (toQ x) && Qle_bool (toQ x) hi.

Lemma filter_app_length {A} (f : A -> bool) l k :
  length (List.filter f (l ++ k)) = (length (List.filter f l) + length (List.filter f k))%nat.
Proof. by rewrite List.filter_app, length_app. Qed.

Lemma filter_none {A} (f : A -> bool) l : Forall (fun x => f x = false) l -> List.filter f l = [].
Proof. induction 1 as [|x l Hx _ IH]; [done|]. simpl. by rewrite Hx. Qed.

(** In a sorted list, what precedes position [k] is not above it and what
    follows is not below. *)
Lemma sorted_split l k :
  StronglySorted f64_ord l -> (k < length l)%nat ->
  exists l1 l2, l = l1 ++ nth k l NaN :: l2 /\ length l1 = k /\
    Forall (fun x => f64_ord x (nth k l NaN)) l1 /\ Forall (f64_ord (nth k l NaN)) l2.
Proof.
  intros Hs. revert k. induction Hs as [|x l Hs IH Hx]; intros k Hk; simpl in Hk; [lia|].
  destruct k as [|k]; [by exists [], l|].
  destruct (IH k ltac:(lia)) as (l1 & l2 & E & El & H1 & H2). simpl.
  exists (x :: l1), l2. split_and!; simpl; [by rewrite <- E | by rewrite El | | done].
  constructor; [|done]. rewrite List.Forall_forall in Hx. apply Hx, nth_In. lia.
Qed.

(** A position that neither side of the outliers can reach. *)
Lemma majority_nth l k lo hi :
  StronglySorted f64_ord l -> Forall (fun x => x = Fin (toQ x) /\ 0 < toQ x) l ->
  (k < length l)%nat ->
  (length l - k <= length (List.filter (between lo hi) l))%nat ->
  (k < length (List.filter (between lo hi) l))%nat ->
  lo <= toQ (nth k l NaN) <= hi.
Proof.
  intros Hs Hu Hk Hc1 Hc2.
  destruct (sorted_split l k Hs Hk) as (l1 & l2 & E & El & H1 & H2).
  set (y := nth k l NaN) in *.
  assert (Hfin : Forall (fun x => x = Fin (toQ x)) (l1 ++ y :: l2))
    by (rewrite <- E; eapply Forall_impl; [exact Hu|]; by intros ? []).
  apply Forall_app in Hfin as [F1 F2]. apply Forall_cons in F2 as [Fy F2'].
  assert (Hlen : length l = (length l1 + S (length l2))%nat) by (by rewrite E, length_app).
  rewrite E, filter_app_length in Hc2. rewrite Hlen, E, filter_app_length in Hc1.
  simpl in Hc1, Hc2.
  pose proof (filter_length_le (between lo hi) l1). pose proof (filter_length_le (between lo hi) l2).
  assert (Hcmp : forall a b, a = Fin (toQ a) -> b = Fin (toQ b) -> f64_ord a b -> toQ a <= toQ b).
  { intros a b -> ->. simpl. by rewrite Qle_bool_iff. }
  split; apply Qnot_lt_le; intros Hlt.
  - assert (Hn : forall x, toQ x <= toQ y -> between lo hi x = false).
    { intros x Hx. apply andb_false_iff. left. apply Qle_bool_false. lra. }
    rewrite (filter_none _ l1), (Hn y (Qle_refl _)) in Hc1; [simpl in Hc1; lia|].
    rewrite Forall_forall in *. intros x Hx. apply Hn, Hcmp; auto.
  - assert (Hn : forall x, toQ y <= toQ x -> between lo hi x = false).
    { intros x Hx. apply andb_false_iff. right. apply Qle_bool_false. lra. }
    rewrite (filter_none _ l2), (Hn y (Qle_refl _)) in Hc2; [simpl in Hc2; lia|].
    rewrite Forall_forall in *. intros x Hx. apply Hn, Hcmp; auto.
Qed.

Lemma repr_double q : repr q -> repr (2 * q).
Proof.
  intros (m & e & E & Hm & He). exists m, (e + 1)%Z.
  split_and!; [rewrite E, pow2_add; simpl; ring | done | lia].
Qed.

(** Halving a sum stays between representable bounds of the mean. *)
Lemma midpoint_between s c d :
  repr c -> repr d -> 0 <= c -> 2 * c <= s <= 2 * d -> d <= 2 ^ 1000 ->
  exists m, f64_div (f64_of_Q s) (f64_of_i64 2) = Fin m /\ c <= m <= d.
Proof.
  intros Rc Rd H0 [Hs1 Hs2] Hd.
  assert (Hbig : 2 ^ 1000 * 2 ^ 1 <= 2 ^ 1023)
    by (rewrite <- pow2_add; apply pow2_le; lia).
  change (2 ^ 1) with 2 in Hbig.
  assert (Hlo : 2 * c <= rnd s).
  { rewrite <- (rnd_repr _ (repr_double _ Rc)). by apply rnd_mono. }
  assert (Hhi : rnd s <= 2 * d).
  { rewrite <- (rnd_repr _ (repr_double _ Rd)). by apply rnd_mono. }
  rewrite f64_of_Q_fin by lra.
  change (f64_of_i64 2) with (Fin 2). cbn [f64_div].
  change (Qeq_bool 2 0) with false. cbv iota.
  assert (Hh : c <= rnd s / 2 <= d).
  { split; [apply Qle_shift_div_l | apply Qle_shift_div_r]; lra. }
  rewrite f64_of_Q_fin by lra.
  exists (rnd (rnd s / 2)). split; [done|]. destruct Hh as [Hh1 Hh2].
  split.
  - rewrite <- (rnd_repr c Rc). by apply rnd_mono.
  - rewrite <- (rnd_repr d Rd). by apply rnd_mono.
Qed.

(** The median of a list in which a strict majority lies between two
    bounds lies between them. *)
Lemma median_between l lo hi :
  StronglySorted f64_ord l -> Forall f64_wf l ->
  Forall (fun x => x = Fin (toQ x) /\ 0 < toQ x) l ->
  (length l < 2 * length (List.filter (between lo hi) l))%nat -> hi <= 2 ^ 1000 ->
  exists m, median_sorted l = Fin m /\ lo <= m <= hi.
Proof.
  intros Hs Hwf Hu Hmaj Hhi. set (n := length l) in *.
  pose proof (filter_length_le (between lo hi) l) as Hle. fold n in Hle.
  assert (Hn : (0 < n)%nat) by lia. pose proof (half_lt n Hn).
  pose proof (Nat.div_mod_eq n 2) as Hdm. pose proof (Nat.mod_upper_bound n 2 ltac:(lia)).
  assert (Hat : forall k, (k < n)%nat -> nth k l NaN = Fin (toQ (nth k l NaN)) /\
    0 < toQ (nth k l NaN) /\ repr (toQ (nth k l NaN))).
  { intros k Hk. pose proof (nth_Forall _ l k Hu Hk) as [E Hp].
    pose proof (nth_Forall _ l k Hwf Hk) as W. rewrite E in W. destruct W as (_ & W & _). done. }
  unfold median_sorted. fold n. destruct (Nat.odd n) eqn:Eo.
  - destruct (Hat (n / 2)%nat) as (E & _ & _); [done|]. exists (toQ (nth (n / 2) l NaN)).
    split; [done|]. apply majority_nth; try done; fold n; lia.
  - apply (f_equal negb) in Eo. rewrite Nat.negb_odd in Eo. apply Nat.even_spec in Eo as [h Eh].
    assert (n / 2 = h)%nat as Ehh by (rewrite Eh, Nat.mul_comm; by apply Nat.div_mul).
    rewrite Ehh in *.
    destruct (Hat (h - 1)%nat) as (E1 & P1 & R1); [lia|].
    destruct (Hat h) as (E2 & P2 & R2); [lia|].
    assert (B1 : lo <= toQ (nth (h - 1) l NaN) <= hi) by (apply majority_nth; try done; fold n; lia).
    assert (B2 : lo <= toQ (nth h l NaN) <= hi) by (apply majority_nth; try done; fold n; lia).
    rewrite E1, E2. cbn [f64_add].
    set (a := toQ (nth (h - 1) l NaN)) in *. set (b := toQ (nth h l NaN)) in *.
    destruct (Qlt_le_dec a b);
      [destruct (midpoint_between (a + b) a b) as (m & Em & Hm)
      |destruct (midpoint_between (a + b) b a) as (m & Em & Hm)];
      try done; try lra; exists m; (split; [done | lra]).
Qed.

(** ** Accuracy of the mean *)

Definition sumQ (l : list Q) : Q := foldr Qplus 0 l.
Definition natQ (n : nat) : Q := inject_Z (Z.of_nat n).

Lemma natQ_S n : natQ (S n) == natQ n + 1.
Proof. unfold natQ. rewrite Nat2Z.inj_succ, <- Z.add_1_r, inject_Z_plus. reflexivity. Qed.

Lemma natQ_le n m : (n <= m)%nat -> natQ n <= natQ m.
Proof. intros. unfold natQ. rewrite <- Zle_Qle. lia. Qed.

Lemma natQ_nonneg n : 0 <= natQ n.
Proof. apply (natQ_le 0). lia. Qed.

Lemma sumQ_bounds l L U :
  Forall (fun x => L <= x <= U) l -> natQ (length l) * L <= sumQ l <= natQ (length l) * U.
Proof.
  induction 1 as [|x l Hx _ [IH1 IH2]]; simpl; [change (natQ 0) with 0; lra|].
  rewrite natQ_S. split; lra.
Qed.

Section accuracy.
Variable U : Q.
Hypothesis U_lo : 2 ^ (-1010) <= U.
Hypothesis U_hi : U <= 2 ^ 1010.

(* 2^-43 *)
#[local] Abbreviation eps := (1 # 8796093022208).

Lemma eta_small : 2 ^ (-1074) <= U * (1 # 18446744073709551616).
Proof.
  apply Qle_trans with (2 ^ (-1010) * 2 ^ (-64)).
  - rewrite <- pow2_add. apply Qle_refl.
  - change (2 ^ (-64)) with (1 # 18446744073709551616).
    apply Qmult_le_compat_r; [done|discriminate].
Qed.

Lemma U_pos : 0 < U.
Proof. pose proof (pow2_pos (-1010)). lra. Qed.

Lemma U_room : U * 8192 <= 2 ^ 1023.
Proof.
  apply Qle_trans with (2 ^ 1010 * 2 ^ 13).
  - change (2 ^ 13) with 8192. apply Qmult_le_compat_r; [done|discriminate].
  - rewrite <- pow2_add. apply Qle_refl.
Qed.

(** One rounding of a value up to [512 * U]. *)
Lemma step_err q :
  0 <= q -> q <= 512 * U ->
  f64_of_Q q = Fin (rnd q) /\ 0 <= rnd q /\ - (U * eps) <= rnd q - q <= U * eps.
Proof.
  intros H0 H1. pose proof U_pos. pose proof U_room. pose proof eta_small.
  split_and!; [apply f64_of_Q_fin; lra | by apply rnd_nonneg | ..];
    pose proof (rnd_err q H0) as He; apply Qabs_Qle_condition in He;
    change (2 ^ (-53)) with (1 # 9007199254740992) in He; lra.
Qed.

Lemma natQ_mul_le k x : (k <= 255)%nat -> 0 <= x -> 0 <= natQ k * x <= 255 * x.
Proof.
  intros Hk Hx. pose proof (natQ_nonneg k). split; [by apply Qmult_le_0_compat|].
  apply Qmult_le_compat_r; [|done]. by apply (natQ_le k 255).
Qed.

Lemma sum_err l : forall s t k,
  Forall (fun x => 0 <= x <= U) l -> (k + length l <= 255)%nat ->
  0 <= s -> - (natQ k * (U * eps)) <= s - t <= natQ k * (U * eps) -> t <= natQ k * U ->
  exists s', foldl f64_add (Fin s) (Fin <$> l) = Fin s' /\ 0 <= s' /\
    - (natQ (k + length l) * (U * eps)) <= s' - (t + sumQ l) <=
      natQ (k + length l) * (U * eps).
Proof.
  pose proof U_pos. induction l as [|x l IH]; intros s t k Hl Hk Hs Ht Htk.
  - exists s. rewrite Nat.add_0_r. simpl. split_and!; [done | done | lra | lra].
  - apply Forall_cons in Hl as [Hx Hl]. simpl in Hk. csimpl.
    pose proof (natQ_mul_le k U ltac:(lia) ltac:(lra)).
    pose proof (natQ_mul_le k (U * eps) ltac:(lia) ltac:(lra)).
    destruct (step_err (s + x)) as (E & Hp & He); [lra..|].
    rewrite E. destruct (IH (rnd (s + x)) (t + x) (S k)) as (s' & Es & Hs' & Hd);
      [done | lia | done | rewrite natQ_S; lra | rewrite natQ_S; lra |].
    exists s'. rewrite <- plus_n_Sm. change (sumQ (x :: l)) with (x + sumQ l).
    simpl in Hd. split_and!; [done | done | |]; lra.
Qed.

Lemma mean_err l :
  l <> [] -> (length l <= 255)%nat -> Forall (fun x => 0 <= x <= U) l ->
  exists r, mean (Fin <$> l) = Fin r /\ 0 <= r /\
    - (U * (1 # 4398046511104)) <= r - sumQ l / natQ (length l) <= U * (1 # 4398046511104).
Proof.
  intros Hne Hlen Hl. pose proof U_pos.
  destruct (sum_err l 0 0 0 Hl ltac:(done) ltac:(lra)) as (s & Es & Hs & Hd);
    [change (natQ 0) with 0; lra..|].
  simpl in Hd. set (n := length l) in *.
  assert (Hn : 1 <= natQ n) by (apply (natQ_le 1); unfold n; destruct l; simpl; [done | lia]).
  unfold mean, float_sum. rewrite Es, length_fmap. fold n.
  rewrite f64_of_i64_fin by (unfold in_i64, i64_min, i64_max; lia).
  pose proof (rnd_integer (Z.of_nat n) ltac:(lia)) as En. fold (natQ n) in En |- *.
  generalize dependent (rnd (natQ n)). intros d En. cbn [f64_div].
  destruct (Qeq_bool d 0) eqn:Ez; [apply Qeq_bool_iff in Ez; exfalso; lra|].
  assert (Hq : s / d == s / natQ n) by (rewrite En; reflexivity).
  pose proof (sumQ_bounds l 0 U Hl) as [_ Hsum]. fold n in Hsum.
  assert (Hdiv : - (U * eps) <= s / natQ n - sumQ l / natQ n <= U * eps).
  { assert (Ed : s / natQ n - sumQ l / natQ n == (s - (0 + sumQ l)) / natQ n) by (field; lra).
    rewrite Ed. split; [apply Qle_shift_div_l | apply Qle_shift_div_r]; lra. }
  assert (Hm : 0 <= s / natQ n) by (apply Qle_shift_div_l; lra).
  assert (Hmu : sumQ l / natQ n <= U) by (apply Qle_shift_div_r; lra).
  destruct (step_err (s / d)) as (E & Hr & He); [lra..|].
  exists (rnd (s / d)). split_and!; [done | done | lra | lra].
Qed.

(** The mean of values between two bounds leaves them by rounding only. *)
Lemma mean_between l L :
  l <> [] -> (length l <= 255)%nat -> 0 <= L -> Forall (fun x => L <= x <= U) l ->
  exists r, mean (Fin <$> l) = Fin r /\ 0 <= r /\
    L - U * (1 # 4398046511104) <= r <= U + U * (1 # 4398046511104).
Proof.
  intros Hne Hlen HL Hl. pose proof U_pos.
  destruct (mean_err l Hne Hlen) as (r & Er & Hr & Hd).
  { eapply Forall_impl; [exact Hl|]. simpl. intros. lra. }
  pose proof (sumQ_bounds l L U Hl) as [S1 S2].
  assert (Hn : 1 <= natQ (length l)) by (apply (natQ_le 1); destruct l; simpl; [done | lia]).
  exists r. split_and!; [done | done | |].
  - assert (L <= sumQ l / natQ (length l)) by (apply Qle_shift_div_l; lra). lra.
  - assert (sumQ l / natQ (length l) <= U) by (apply Qle_shift_div_r; lra). lra.
Qed.
End accuracy.

(** ** The band around the median *)

Lemma rnd_opp q : rnd (- q) == - rnd q.
Proof.
  destruct (Qcompare_spec q 0) as [E|H|H].
  - rewrite (rnd_zero q E), rnd_zero; lra.
  - rewrite (rnd_lt q H), rnd_gt by lra. lra.
  - rewrite (rnd_gt q H), rnd_lt by lra.
    assert (E : - - q == q) by lra. 
    rewrite <- (rnd_gt q H), <- (rnd_gt (- - q)) by lra. by rewrite E.
Qed.

(** A difference that rounds to at most [t] is hardly larger. *)
Lemma rnd_abs_le d t :
  Qabs (rnd d) <= t -> Qabs d <= (t + 2 ^ (-1074)) * (1 + (1 # 4503599627370496)).
Proof.
  intros Ht. pose proof (pow2_pos (-1074)).
  assert (Hmain : forall q, 0 <= q -> rnd q <= t ->
    q <= (t + 2 ^ (-1074)) * (1 + (1 # 4503599627370496))).
  { intros q Hq Hr. pose proof (rnd_err q Hq) as He. apply Qabs_Qle_condition in He.
    change (2 ^ (-53)) with (1 # 9007199254740992) in He. lra. }
  destruct (Qlt_le_dec d 0) as [Hd|Hd].
  - rewrite Qabs_neg by lra. apply Hmain; [lra|]. rewrite rnd_opp.
    pose proof (Qle_Qabs (- rnd d)) as H1. rewrite Qabs_opp in H1. lra.
  - rewrite Qabs_pos by done. apply Hmain; [done|]. pose proof (Qle_Qabs (rnd d)). lra.
Qed.

Lemma band_close m c q :
  2 ^ (-1000) <= m -> m <= 2 ^ 1000 -> 0 < c <= 100 ->
  within_band (Fin m) (tolerance (Fin m) (Fin c)) (Fin q) = true ->
  Qabs (q - m) <= m * (c / 100 + (1 # 281474976710656)).
Proof.
  intros Hm1 Hm2 Hc. unfold within_band, tolerance.
  change (f64_of_i64 100) with (Fin 100). cbn [f64_div f64_sub].
  change (Qeq_bool 100 0) with false. cbv iota.
  pose proof (pow2_pos (-1000)). pose proof (pow2_pos (-1074)).
  assert (Hp : 0 < c / 100 <= 1) by (split; [apply Qlt_shift_div_l | apply Qle_shift_div_r]; lra).
  set (p := c / 100) in *.
  assert (Hbig : 4 * 2 ^ 1000 <= 2 ^ 1023).
  { change 4 with (2 ^ 2). rewrite <- pow2_add. apply pow2_le. lia. }
  assert (H1000 : 1 <= 2 ^ 1000) by (change 1 with (2 ^ 0); apply pow2_le; lia).
  assert (Heta : 2 ^ (-1074) <= m * (1 # 18446744073709551616)).
  { apply Qle_trans with (2 ^ (-1000) * 2 ^ (-64)).
    - rewrite <- pow2_add. apply pow2_le. lia.
    - change (2 ^ (-64)) with (1 # 18446744073709551616).
      apply Qmult_le_compat_r; [done|discriminate]. }
  assert (Heta1 : 2 ^ (-1074) <= 1 # 18446744073709551616).
  { change (1 # 18446744073709551616) with (2 ^ (-64)). apply pow2_le. lia. }
  rewrite (f64_of_Q_fin p) by lra. cbn [f64_mul].
  pose proof (rnd_err p ltac:(lra)) as He. apply Qabs_Qle_condition in He.
  pose proof (rnd_nonneg p ltac:(lra)) as Hp0.
  change (2 ^ (-53)) with (1 # 9007199254740992) in He.
  assert (Hr1 : rnd p <= p + (1 # 2251799813685248)) by lra.
  assert (Hmr : 0 <= m * rnd p <= m * (p + (1 # 2251799813685248))).
  { split; [apply Qmult_le_0_compat; lra|]. apply Qmult_le_l; lra. }
  assert (Hmp : m * (p + (1 # 2251799813685248)) <= m * 2) by (apply Qmult_le_l; lra).
  rewrite (f64_of_Q_fin (m * rnd p)) by lra.
  pose proof (rnd_err (m * rnd p) ltac:(lra)) as Ht. apply Qabs_Qle_condition in Ht.
  change (2 ^ (-53)) with (1 # 9007199254740992) in Ht.
  intros Hband.
  assert (Hd : Qabs (rnd (q - m)) <= rnd (m * rnd p)).
  { unfold f64_of_Q in Hband. repeat case_match; try done. by apply Qle_bool_iff. }
  apply rnd_abs_le in Hd. lra.
Qed.

(** What rounding adds to the band: one part in 2^40. *)
Definition slack : Q := 1 # 1099511627776.

Lemma kept_close xs c m :
  clean_of xs <> [] -> median_sorted (clean_of xs) = Fin m ->
  2 ^ (-1000) <= m -> m <= 2 ^ 1000 -> 0 < c <= 100 ->
  exists l, List.filter (in_band xs (Fin c)) (clean_of xs) = Fin <$> l /\
    (length l <= length (clean_of xs))%nat /\
    Forall (fun q => 0 <= q /\
      m * (1 - (c / 100 + (1 # 281474976710656))) <= q <=
      m * (1 + (c / 100 + (1 # 281474976710656)))) l.
Proof.
  intros Hne Em Hm1 Hm2 Hc.
  pose proof (usable_clean xs) as Hu. fold (clean_of xs) in Hu.
  exists (toQ <$> List.filter (in_band xs (Fin c)) (clean_of xs)).
  split_and!.
  - apply usable_list. by apply Forall_filter.
  - rewrite length_fmap. apply filter_length_le.
  - apply Forall_fmap, Forall_forall. intros x [Hx Hb]%elem_of_filterb.
    rewrite Forall_forall in Hu. destruct (Hu x Hx) as [E Hp]. simpl.
    unfold in_band in Hb. rewrite Em, E in Hb.
    apply band_close in Hb; [|done..]. apply Qabs_Qle_condition in Hb.
    split_and!; lra.
Qed.

(** The mean of the values of the band, in terms of the median. *)
Lemma band_mean l m p :
  l <> [] -> (length l <= 255)%nat -> 2 ^ (-1000) <= m -> m <= 2 ^ 1000 -> 0 < p <= 1 ->
  Forall (fun q => 0 <= q /\
      m * (1 - (p + (1 # 281474976710656))) <= q <=
      m * (1 + (p + (1 # 281474976710656)))) l ->
  exists r, mean (Fin <$> l) = Fin r /\ 0 <= r /\
    m * (1 - (p + slack)) <= r <= m * (1 + (p + slack)).
Proof.
  intros Hne Hlen Hm1 Hm2 Hp Hk. set (w := p + (1 # 281474976710656)) in *.
  pose proof (pow2_pos (-1000)).
  assert (Hmw : 0 <= m * w <= m * 2)
    by (split; [apply Qmult_le_0_compat | apply Qmult_le_l]; unfold w; lra).
  assert (Hsmall : 2 ^ (-1010) <= 2 ^ (-1000)) by (apply pow2_le; lia).
  assert (Hbig : 4 * 2 ^ 1000 <= 2 ^ 1010).
  { change 4 with (2 ^ 2). rewrite <- pow2_add. apply pow2_le. lia. }
  set (L := if Qle_bool 0 (m * (1 - w)) then m * (1 - w) else 0).
  assert (HL : 0 <= L /\ m * (1 - w) <= L /\ (L <= 0 \/ L <= m * (1 - w))).
  { unfold L. destruct (Qle_bool 0 (m * (1 - w))) eqn:E; qbool; split_and!;
      first [lra | right; lra | left; lra]. }
  destruct HL as (HL0 & HL1 & HL2).
  destruct (mean_between (m * (1 + w)) ltac:(lra) ltac:(lra) l L) as (r & Er & Hr0 & Hr);
    [done | done | done | |].
  { eapply Forall_impl; [exact Hk|]. simpl. intros q (H0 & H1 & H2).
    split; [destruct HL2; lra | done]. }
  exists r. unfold slack. split_and!; [done | done | ..]; unfold w in *; lra.
Qed.

Lemma combine_resists xs c lo hi :
  Forall f64_wf xs ->
  2 ^ (-1000) <= lo -> lo <= hi -> hi <= 2 ^ 1000 -> 0 < c <= 100 ->
  (3 <= length (List.filter usable xs) <= 255)%nat ->
  (length (List.filter usable xs) <
    2 * length (List.filter (between lo hi) (List.filter usable xs)))%nat ->
  exists r, combine xs (Fin c) = Some (Fin r) /\
    lo * (1 - (c / 100 + slack)) <= r <= hi * (1 + (c / 100 + slack)).
Proof.
  intros Hwf Hlo Hlh Hhi Hc Hn Hmaj.
  pose proof (usable_clean xs) as Hu. fold (clean_of xs) in Hu.
  rewrite <- (Permutation_length (filter_perm (between lo hi) _ _
    (sort_floats_perm (List.filter usable xs)))) in Hmaj.
  fold (clean_of xs) in Hmaj. rewrite <- clean_length in Hn, Hmaj.
  destruct (median_between (clean_of xs) lo hi) as (m & Em & Hm);
    [apply sort_floats_sorted | by apply clean_Forall | done | done | done |].
  pose proof (pow2_pos (-1000)).
  assert (Hp : 0 < c / 100 <= 1) by (split; [apply Qlt_shift_div_l | apply Qle_shift_div_r]; lra).
  destruct (kept_close xs c m) as (l & El & Hl & Hk);
    [by intros E; rewrite E in Hn; simpl in Hn; lia | done | lra | lra | done |].
  assert (Hgoal : forall r, 0 <= r ->
    m * (1 - (c / 100 + slack)) <= r <= m * (1 + (c / 100 + slack)) ->
    lo * (1 - (c / 100 + slack)) <= r <= hi * (1 + (c / 100 + slack))).
  { unfold slack. intros r Hr0 [Hr1 Hr2]. split.
    - destruct (Qlt_le_dec (c / 100 + (1 # 1099511627776)) 1).
      + eapply Qle_trans; [|exact Hr1]. apply Qmult_le_compat_r; lra.
      + assert (0 <= lo * (c / 100 + (1 # 1099511627776) - 1)) by (apply Qmult_le_0_compat; lra).
        lra.
    - eapply Qle_trans; [exact Hr2|]. apply Qmult_le_compat_r; lra. }
  rewrite combine_many, El, Em by lia. destruct l as [|q l].
  - exists m. split; [done|]. apply Hgoal; [lra|]. unfold slack.
    assert (0 <= m * (c / 100 + (1 # 1099511627776))) by (apply Qmult_le_0_compat; lra).
    split; lra.
  - destruct (band_mean (q :: l) m (c / 100)) as (r & Er & Hr0 & Hr);
      [done | lia | lra | lra | done | done |].
    exists r. split; [by f_equal | by apply Hgoal].
Qed.

(** ** Some candidate always survives *)

Lemma forallb_false_ex {A} (f : A -> bool) l :
  forallb f l = false -> exists x, x ∈ l /\ f x = false.
Proof.
  induction l as [|x l IH]; [done|]. simpl. destruct (f x) eqn:E; simpl.
  - intros (y & Hy & Ey)%IH. exists y. split; [by right | done].
  - intros _. exists x. split; [by left | done].
Qed.

Lemma survivor_exists xs pct v :
  v ∈ xs -> usable v = true -> exists w, w ∈ xs /\ usable w = true /\ survives xs pct w = true.
Proof.
  intros Hv Hu. unfold survives.
  destruct (forallb (fun y => negb (in_band xs pct y)) (clean_of xs)) eqn:E.
  - exists v. split_and!; [done..|]. by rewrite orb_true_r.
  - apply forallb_false_ex in E as (w & Hw & Ew%negb_false_iff). exists w.
    unfold clean_of in Hw. rewrite (sort_floats_perm _) in Hw.
    apply elem_of_filterb in Hw as [Hw Huw]. split_and!; [done..|]. rewrite Ew. apply orb_true_r.
Qed.

Lemma kept_contributors_nonempty pairs pct i v :
  (i, v) ∈ pairs -> usable v = true -> kept_contributors pairs pct <> [].
Proof.
  intros Hin Hu.
  destruct (survivor_exists pairs.*2 pct v) as (w & Hw & Huw & Hs); [|done|].
  - apply list_elem_of_fmap. by exists (i, v).
  - apply list_elem_of_fmap in Hw as ([j w'] & -> & Hw).
    assert (Hj : j ∈ kept_contributors pairs pct) by (apply kept_contributors_elem; eauto).
    intros E. rewrite E in Hj. by apply elem_of_nil in Hj.
Qed.
