(* ===== verification/PriceTick.v ===== *)
(** * One tick of the price pipeline

    [aggregate_tick] of [src/price/aggregate.rs] groups quotes in hash maps
    and resolves cross quotes in two passes.  [tick_reference] says what the
    result is for one currency, without maps: the usable direct quotes of the
    currency, the cross quotes whose base has an anchor, combined.  The two
    agree ([aggregate_tick_lookup]); everything else about a tick is proved
    of the reference. *)

From Stdlib Require Import ZArith QArith Lqa Lia.
From stdpp Require Import gmap sorting.
From S2P Require Import Prelude.
From S2P Require Import Float64.
From S2P Require Import Price.
From S2P Require Import PriceMath.

Open Scope nat_scope.

(** ** Grouping by key *)

Definition pushes {A} (m : gmap string (list A)) (kxs : list (string * A)) :
    gmap string (list A) :=
  foldl (fun m kx => push m kx.1 kx.2) m kxs.

Definition under {A} (c : string) (kxs : list (string * A)) : list A :=
  omap (fun kx => if decide (kx.1 = c) then Some kx.2 else None) kxs.

Lemma under_app {A} c (l k : list (string * A)) : under c (l ++ k) = under c l ++ under c k.
Proof. apply omap_app. Qed.

(** A map filled by [entry().or_default().push()] holds, under each key, the
    values pushed for it, in order. *)
Lemma pushes_lookup {A} (m : gmap string (list A)) kxs c :
  pushes m kxs !! c = match under c kxs with [] => m !! c | l => Some (default [] (m !! c) ++ l) end.
Proof.
  unfold pushes. revert m. induction kxs as [|[k x] l IH]; intros m; [done|].
  simpl. rewrite IH. unfold push. unfold under at 1 3. csimpl. fold (under c l).
  destruct (decide (k = c)) as [->|].
  - rewrite lookup_insert_eq. simpl. case_match; [done|]. by rewrite <- (assoc_L (++)).
  - by rewrite lookup_insert_ne by done.
Qed.

Lemma pushes_default {A} (kxs : list (string * A)) c :
  default [] (pushes ∅ kxs !! c) = under c kxs.
Proof. rewrite pushes_lookup, lookup_empty. by destruct (under c kxs). Qed.

(** ** The quotes of a tick *)

Definition direct_entries (r : ProviderId * ProviderQuotes) : list (string * (ProviderId * f64)) :=
  omap (fun cq : string * Quote =>
    match cq.2 with PerBtc v => Some (to_uppercase cq.1, (r.1, v)) | _ => None end) r.2.
Definition cross_entries (r : ProviderId * ProviderQuotes) : list cross :=
  omap (fun cq : string * Quote =>
    match cq.2 with
    | PerBase base v => Some (r.1, to_uppercase cq.1, to_uppercase base, v)
    | _ => None
    end) r.2.

Definition direct_of (results : list (ProviderId * ProviderQuotes)) (c : string) :
    list (ProviderId * f64) := under c (results ≫= direct_entries).
Definition crosses (results : list (ProviderId * ProviderQuotes)) : list cross :=
  results ≫= cross_entries.

Lemma collect_quotes_spec results :
  collect_quotes results = (pushes ∅ (results ≫= direct_entries), crosses results).
Proof.
  unfold collect_quotes, crosses.
  assert (Hq : forall i qs acc, foldl (collect_quote i) acc qs =
    (pushes acc.1 (direct_entries (i, qs)), acc.2 ++ cross_entries (i, qs))).
  { intros i qs. unfold direct_entries, cross_entries. simpl.
    induction qs as [|[c q] qs IH]; intros [d p]; simpl; [by rewrite app_nil_r|].
    rewrite IH. destruct q; simpl; [done|]. by rewrite <- (assoc_L (++)). }
  assert (Hr : forall rs acc, foldl (fun acc r => foldl (collect_quote r.1) acc r.2) acc rs =
    (pushes acc.1 (rs ≫= direct_entries), acc.2 ++ (rs ≫= cross_entries))).
  { induction rs as [|[i qs] rs IH]; intros [d p]; simpl; [by rewrite app_nil_r|].
    rewrite Hq, IH. simpl. unfold pushes. by rewrite foldl_app, <- (assoc_L (++)). }
  by rewrite Hr.
Qed.

(** ** The reference *)

Definition anchor_for (results : list (ProviderId * ProviderQuotes)) (pct : f64) (base : string) :
    option (f64 * bool) := anchor_of pct (direct_of results base).

(** What one cross quote contributes: its target, its provider, the rate and
    whether the anchor rests on Nostr. *)
Definition resolve_one (results : list (ProviderId * ProviderQuotes)) (pct : f64) (x : cross) :
    option (string * (ProviderId * f64) * bool) :=
  let '(i, currency, base, v) := x in
  match anchor_for results pct base with
  | Some (anchor, uses_nostr) =>
      if usable (f64_mul v anchor)
      then Some (currency, (i, f64_mul v anchor), uses_nostr) else None
  | None => None
  end.

Definition resolved_of (results : list (ProviderId * ProviderQuotes)) (pct : f64) (c : string) :
    list (ProviderId * f64) :=
  under c (omap (resolve_one results pct) (crosses results)).*1.

Definition tainted_of (results : list (ProviderId * ProviderQuotes)) (pct : f64) (c : string) :
    list ProviderId :=
  omap (fun x => if decide (x.1.1 = c /\ x.2 = true) then Some x.1.2.1 else None)
    (omap (resolve_one results pct) (crosses results)).

Definition pairs_of (results : list (ProviderId * ProviderQuotes)) (pct : f64) (c : string) :
    list (ProviderId * f64) := direct_of results c ++ resolved_of results pct c.

Definition tick_reference (results : list (ProviderId * ProviderQuotes)) (pct : f64) (c : string) :
    option AggregateResult :=
  let pairs := pairs_of results pct c in
  match combine pairs.*2 pct with
  | Some v =>
      Some {| value := v;
              sources := Z.min (Z.of_nat (length (List.filter usable pairs.*2))) 255;
              contributors := kept_contributors pairs pct;
              nostr_anchor_dependent :=
                existsb (fun i => bool_decide (i ∈ tainted_of results pct c))
                  (kept_contributors pairs pct) |}
  | None => None
  end.

(** ** The pipeline computes the reference *)

Lemma anchors_lookup pct (es : list (string * (ProviderId * f64))) b :
  omap (anchor_of pct) (pushes ∅ es) !! b = anchor_of pct (under b es).
Proof.
  rewrite lookup_omap, pushes_lookup, lookup_empty. by destruct (under b es).
Qed.

Definition taints (t : gmap string (gset ProviderId))
    (ys : list (string * (ProviderId * f64) * bool)) : gmap string (gset ProviderId) :=
  foldl (fun t y => if (y.2 : bool) then <[y.1.1 := {[ y.1.2.1 ]} ∪ default ∅ (t !! y.1.1)]> t else t)
    t ys.

Lemma taints_elem t ys c i :
  i ∈ default ∅ (taints t ys !! c) <->
  i ∈ default ∅ (t !! c) \/
  i ∈ omap (fun x => if decide (x.1.1 = c /\ x.2 = true) then Some x.1.2.1 else None) ys.
Proof.
  unfold taints. revert t. induction ys as [|[[k [j v]] b] ys IH]; intros t; csimpl.
  { rewrite elem_of_nil. tauto. }
  rewrite IH. destruct b; csimpl.
  - destruct (decide (k = c)) as [->|Hne].
    + rewrite lookup_insert_eq. rewrite decide_True by done. simpl.
      rewrite elem_of_union, elem_of_singleton, elem_of_cons. tauto.
    + rewrite lookup_insert_ne by done. rewrite decide_False by tauto. tauto.
  - rewrite decide_False; [tauto|]. by intros [_ ?].
Qed.

Lemma resolve_fold results pct anchors xs d t :
  (forall b, anchors !! b = anchor_for results pct b) ->
  foldl (resolve_cross anchors) (d, t) xs =
  (pushes d (omap (resolve_one results pct) xs).*1, taints t (omap (resolve_one results pct) xs)).
Proof.
  intros Ha. revert d t. induction xs as [|[[[i cur] base] v] xs IH]; intros d t; [done|].
  csimpl. rewrite Ha. destruct (anchor_for results pct base) as [[a un]|]; [|apply IH].
  destruct (usable (f64_mul v a)); [|apply IH]. by rewrite IH.
Qed.

Lemma aggregate_currency_nil pct t : aggregate_currency pct t [] = None.
Proof. done. Qed.

Lemma existsb_ext {A} (f g : A -> bool) l : (forall x, f x = g x) -> existsb f l = existsb g l.
Proof. intros H. induction l as [|x l IH]; [done|]. simpl. by rewrite H, IH. Qed.

(** For every currency the tick yields what the reference says. *)
Lemma aggregate_tick_lookup results pct c :
  aggregate_tick results pct !! c = tick_reference results pct c.
Proof.
  unfold aggregate_tick. rewrite collect_quotes_spec.
  rewrite (resolve_fold results pct) by (intros b; apply anchors_lookup).
  rewrite map_lookup_imap, lookup_merge.
  set (d := pushes ∅ (results ≫= direct_entries)).
  set (r := pushes ∅ (omap (resolve_one results pct) (crosses results)).*1).
  set (t := taints ∅ (omap (resolve_one results pct) (crosses results))).
  assert (Ht : forall i, i ∈ default ∅ (t !! c) <-> i ∈ tainted_of results pct c).
  { intros i. unfold t, tainted_of. rewrite taints_elem, lookup_empty. simpl.
    rewrite elem_of_empty. tauto. }
  assert (Hp : default [] (d !! c) ++ default [] (r !! c) = pairs_of results pct c).
  { unfold d, r. by rewrite !pushes_default. }
  assert (Hj : (diag_None join_pairs (d !! c) (r !! c) ≫= aggregate_currency pct (t !! c)) =
               aggregate_currency pct (t !! c) (pairs_of results pct c)).
  { rewrite <- Hp. by destruct (d !! c), (r !! c). }
  etransitivity; [exact Hj|]. unfold aggregate_currency, tick_reference.
  destruct (combine _ pct); [|done]. do 2 f_equal.
  transitivity (existsb (fun i => bool_decide (i ∈ default ∅ (t !! c)))
    (kept_contributors (pairs_of results pct c) pct)).
  - destruct (t !! c); [done|]. simpl. clear. induction (kept_contributors _ _); [done|].
    simpl. by rewrite bool_decide_eq_false_2.
  - apply existsb_ext. intros i. by apply bool_decide_ext.
Qed.

(** ** The order of the quotes is irrelevant *)

Definition quotes_wf (results : list (ProviderId * ProviderQuotes)) : Prop :=
  Forall (fun r => Forall (fun cq : string * Quote =>
    match cq.2 with PerBtc v => f64_wf v | PerBase _ _ => True end) r.2) results.

(** The same polls: providers in another order, the map of each iterated in
    another order. *)
Definition same_poll (r r' : ProviderId * ProviderQuotes) : Prop := r.1 = r'.1 /\ r.2 ≡ₚ r'.2.
Definition same_tick (rs rs' : list (ProviderId * ProviderQuotes)) : Prop :=
  exists mid, rs ≡ₚ mid /\ Forall2 same_poll mid rs'.

Lemma omap_perm {A B} (f : A -> option B) (l k : list A) : l ≡ₚ k -> omap f l ≡ₚ omap f k.
Proof. intros H. by apply omap_Permutation. Qed.

Lemma omap_same {A B} (f g : A -> option B) (l : list A) : (forall x, f x = g x) -> omap f l = omap g l.
Proof. intros H. induction l as [|x l IH]; [done|]. csimpl. by rewrite H, IH. Qed.

Lemma same_tick_bind {A} (f : ProviderId * ProviderQuotes -> list A) rs rs' :
  (forall r r', same_poll r r' -> f r ≡ₚ f r') -> same_tick rs rs' -> rs ≫= f ≡ₚ rs' ≫= f.
Proof.
  intros Hf (mid & Hp & H2). transitivity (mid ≫= f); [by apply bind_Permutation|].
  clear Hp. induction H2 as [|r r' rs1 rs2 Hr _ IH]; csimpl; [done|].
  by rewrite (Hf _ _ Hr), IH.
Qed.

Lemma direct_of_perm rs rs' c : same_tick rs rs' -> direct_of rs c ≡ₚ direct_of rs' c.
Proof.
  intros H. unfold direct_of, under. apply omap_perm, same_tick_bind; [|done].
  intros [i qs] [j qs'] [E Hp]. simpl in *. subst. by apply omap_perm.
Qed.

Lemma crosses_perm rs rs' : same_tick rs rs' -> crosses rs ≡ₚ crosses rs'.
Proof.
  intros H. apply same_tick_bind; [|done].
  intros [i qs] [j qs'] [E Hp]. simpl in *. subst. by apply omap_perm.
Qed.

Lemma direct_of_wf rs c : quotes_wf rs -> Forall f64_wf (direct_of rs c).*2.
Proof.
  intros Hwf. apply Forall_fmap, Forall_forall. intros [i v] Hin. simpl.
  unfold direct_of, under in Hin. apply list_elem_of_omap in Hin as ([k [j w]] & Hin & E).
  simpl in E. case_decide; simplify_eq.
  apply list_elem_of_bind in Hin as (r & Hin & Hr).
  apply list_elem_of_omap in Hin as ([cur q] & Hin & E). destruct q; simplify_eq/=.
  unfold quotes_wf in Hwf. rewrite Forall_forall in Hwf. specialize (Hwf _ Hr).
  rewrite Forall_forall in Hwf. by apply (Hwf (cur, PerBtc v)).
Qed.

Lemma resolve_one_wf rs pct x y : resolve_one rs pct x = Some y -> f64_wf y.1.2.2.
Proof.
  destruct x as [[[i cur] base] v]. simpl. destruct (anchor_for rs pct base) as [[a un]|]; [|done].
  case_match; [|done]. intros [= <-]. simpl. apply f64_mul_wf.
Qed.

Lemma pairs_of_wf rs pct c : quotes_wf rs -> Forall f64_wf (pairs_of rs pct c).*2.
Proof.
  intros Hwf. unfold pairs_of. rewrite fmap_app. apply Forall_app. split; [by apply direct_of_wf|].
  apply Forall_fmap, Forall_forall. intros [i v] Hin. simpl.
  unfold resolved_of, under in Hin. apply list_elem_of_omap in Hin as ([k [j w]] & Hin & E).
  simpl in E. case_decide; simplify_eq.
  apply list_elem_of_fmap in Hin as (y & Ey & Hin).
  apply list_elem_of_omap in Hin as (x & _ & Hx). apply resolve_one_wf in Hx.
  by rewrite <- Ey in Hx.
Qed.

Lemma anchor_of_perm pct ps ps' :
  Forall f64_wf ps.*2 -> ps ≡ₚ ps' -> anchor_of pct ps = anchor_of pct ps'.
Proof.
  intros Hwf Hp. unfold anchor_of.
  rewrite (combine_perm ps.*2 ps'.*2) by (done || by apply fmap_Permutation).
  by rewrite (kept_contributors_perm ps ps').
Qed.

Lemma same_tick_reference rs rs' pct c :
  quotes_wf rs -> same_tick rs rs' -> tick_reference rs pct c = tick_reference rs' pct c.
Proof.
  intros Hwf Hs.
  assert (Ha : forall b, anchor_for rs pct b = anchor_for rs' pct b).
  { intros b. apply anchor_of_perm; [by apply direct_of_wf | by apply direct_of_perm]. }
  assert (Hr : omap (resolve_one rs pct) (crosses rs) ≡ₚ omap (resolve_one rs' pct) (crosses rs')).
  { rewrite (omap_perm _ _ _ (crosses_perm _ _ Hs)).
    rewrite (omap_same (resolve_one rs pct) (resolve_one rs' pct)); [done|].
    intros [[[i cur] base] v]. simpl. by rewrite Ha. }
  assert (Hp : pairs_of rs pct c ≡ₚ pairs_of rs' pct c).
  { unfold pairs_of, resolved_of, under. rewrite (direct_of_perm _ _ c Hs).
    by rewrite (omap_perm _ _ _ (fmap_Permutation fst _ _ Hr)). }
  assert (Ht : forall i, i ∈ tainted_of rs pct c <-> i ∈ tainted_of rs' pct c)
    by (intros i; unfold tainted_of; by rewrite (omap_perm _ _ _ Hr)).
  pose proof (pairs_of_wf rs pct c Hwf) as Hpw.
  unfold tick_reference.
  rewrite (combine_perm _ (pairs_of rs' pct c).*2) by (done || by apply fmap_Permutation).
  rewrite (kept_contributors_perm _ (pairs_of rs' pct c)) by done.
  destruct (combine _ pct); [|done]. do 2 f_equal.
  - by rewrite (Permutation_length (filter_perm usable _ _ (fmap_Permutation snd _ _ Hp))).
  - apply existsb_ext. intros i. by apply bool_decide_ext.
Qed.
