(* ===== verification/PriceFallback.v ===== *)
(** * Relayed rates fill gaps and are not passed on

    The Nostr provider reports rates another node has aggregated already.
    [restrict_nostr_to_fallback] of [src/price/manager.rs] keeps them for the
    currencies nobody else can price, and [republishable_rates] keeps what
    depends on them out of the published event.  Both decide from the quotes
    of one tick; this file relates their decisions to the rates the tick
    produces. *)

From Stdlib Require Import ZArith QArith Lqa Lia.
From stdpp Require Import gmap sorting.
From S2P Require Import Prelude.
From S2P Require Import Float64.
From S2P Require Import Price.
From S2P Require Import PriceManager.
From S2P Require Import PriceMath.
From S2P Require Import PriceTick.

Open Scope Q_scope.

(** ** Sane quotes *)

(** Far beyond any exchange rate, far from overflow and underflow. *)
Definition sane_rate (v : f64) : Prop :=
  usable v = true -> 2 ^ (-400) <= toQ v /\ toQ v <= 2 ^ 400.

Definition quote_value (q : Quote) : f64 :=
  match q with PerBtc v => v | PerBase _ v => v end.

Record sane_tick (results : list (ProviderId * ProviderQuotes)) : Prop := {
  sane_wf : quotes_wf results;
  sane_values : forall r cq, r ∈ results -> cq ∈ r.2 -> sane_rate (quote_value cq.2);
  sane_count : forall b, (length (direct_of results b) <= 255)%nat;
}.

(** A check of sanity. *)
Definition saneb (v : f64) : bool :=
  negb (usable v) || (Qle_bool (2 ^ (-400)) (toQ v) && Qle_bool (toQ v) (2 ^ 400)).
Definition sane_tickb (results : list (ProviderId * ProviderQuotes)) : bool :=
  forallb (fun r => forallb (fun cq : string * Quote =>
    f64_wfb (quote_value cq.2) && saneb (quote_value cq.2)) r.2) results
  && (length (results ≫= snd) <=? 255)%nat.

Lemma omap_length {A B} (f : A -> option B) (l : list A) : (length (omap f l) <= length l)%nat.
Proof. induction l as [|x l IH]; csimpl; [done|]. destruct (f x); simpl; lia. Qed.

Lemma direct_of_length results b : (length (direct_of results b) <= length (results ≫= snd))%nat.
Proof.
  unfold direct_of, under. etransitivity; [apply omap_length|].
  induction results as [|r l IH]; csimpl; [done|]. rewrite !length_app.
  apply Nat.add_le_mono; [apply omap_length | apply IH].
Qed.

Lemma sane_tickb_sound results : sane_tickb results = true -> sane_tick results.
Proof.
  unfold sane_tickb. intros [Hf Hl%Nat.leb_le]%andb_true_iff.
  assert (Hq : forall r cq, r ∈ results -> cq ∈ r.2 ->
    f64_wf (quote_value cq.2) /\ sane_rate (quote_value cq.2)).
  { intros r cq Hr Hq. rewrite forallb_forall in Hf. specialize (Hf r (proj1 (list_elem_of_In _ _) Hr)).
    rewrite forallb_forall in Hf. specialize (Hf cq (proj1 (list_elem_of_In _ _) Hq)).
    apply andb_true_iff in Hf as [H1%f64_wfb_sound H2]. split; [done|].
    intros Hu. unfold saneb in H2. rewrite Hu in H2. cbn [negb orb] in H2.
    apply andb_true_iff in H2 as [H2 H3]. qbool. done. }
  split.
  - apply Forall_forall. intros r Hr. apply Forall_forall. intros [c [v|b v]] Hc; [|done].
    by apply (Hq r (c, PerBtc v)).
  - intros r cq Hr Hc. by apply (Hq r cq).
  - intros b. etransitivity; [apply direct_of_length | done].
Qed.

(** ** Sums and means of sane rates *)

Lemma foldl_inf l : exists v, foldl f64_add (Inf false) (Fin <$> l) = v /\ f64_is_finite v = false.
Proof. induction l as [|x l IH]; csimpl; eauto. Qed.

(** A sum of non-negative numbers is not below its first addend. *)
Lemma sum_ge l s s' :
  0 <= s -> repr s -> Forall (fun x => 0 <= x) l ->
  foldl f64_add (Fin s) (Fin <$> l) = Fin s' -> s <= s'.
Proof.
  intros Hs Hr Hl. revert s Hs Hr. induction Hl as [|x l Hx _ IH]; intros s Hs Hr; csimpl.
  { intros [= ->]. lra. }
  destruct (f64_of_Q_cases (s + x)) as [->|(-> & H0 & H1)]; [lra| |].
  - intros E. destruct (foldl_inf l) as (v & Ev & Hv). by rewrite E in Ev; subst.
  - intros E. apply IH in E; [|done..]. eapply Qle_trans; [|exact E].
    rewrite <- (rnd_repr s Hr) at 1. apply rnd_mono. lra.
Qed.

Lemma repr_pow2 k : (-1074 <= k)%Z -> repr (2 ^ k).
Proof. intros. exists 1%Z, k. split_and!; [by rewrite Qmult_1_l | done | done]. Qed.

Lemma mean_sane l :
  l <> [] -> (length l <= 255)%nat ->
  Forall (fun q => f64_wf (Fin q) /\ 2 ^ (-400) <= q /\ q <= 2 ^ 400) l ->
  exists r, mean (Fin <$> l) = Fin r /\ 2 ^ (-410) <= r /\ r <= 2 ^ 410.
Proof.
  intros Hne Hlen Hl.
  assert (Hlo : 2 ^ (-1010) <= 2 ^ 400) by (apply pow2_le; lia).
  assert (Hhi : 2 ^ 400 <= 2 ^ 1010) by (apply pow2_le; lia).
  assert (H400 : 2 * 2 ^ 400 <= 2 ^ 410).
  { change 2 with (2 ^ 1) at 1. rewrite <- pow2_add. apply pow2_le. lia. }
  pose proof (pow2_pos (-400)). pose proof (pow2_pos 400).
  destruct (mean_between (2 ^ 400) Hlo Hhi l 0) as (r & Er & Hr0 & Hr); [done | done | lra | |].
  { eapply Forall_impl; [exact Hl|]. cbv beta. intros q (_ & H1 & H2). split; lra. }
  exists r. split_and!; [done | | lra].
  destruct (sum_err (2 ^ 400) Hlo Hhi l 0 0 0) as (s & Es & Hs & _);
    [|done|lra|change (natQ 0) with 0; lra..|].
  { eapply Forall_impl; [exact Hl|]. cbv beta. intros q (_ & H1 & H2). split; lra. }
  assert (Hs' : 2 ^ (-400) <= s).
  { destruct l as [|x l]; [done|]. apply Forall_cons in Hl as [(Hw & Hx1 & Hx2) Hl].
    destruct Hw as (_ & Hw & _). csimpl in *.
    assert (Ex : rnd (0 + x) == x) by (rewrite Qplus_0_l; by apply rnd_repr).
    rewrite f64_of_Q_fin in Es; [|lra|].
    - apply sum_ge in Es; [lra | lra | apply repr_rnd |].
      eapply Forall_impl; [exact Hl|]. cbv beta. intros q (_ & H1 & _). lra.
    - assert (2 ^ 400 <= 2 ^ 1023) by (apply pow2_le; lia). lra. }
  unfold mean, float_sum in Er. rewrite Es, length_fmap in Er.
  rewrite f64_of_i64_fin in Er by (unfold in_i64, i64_min, i64_max; lia).
  pose proof (rnd_integer (Z.of_nat (length l)) ltac:(lia)) as En.
  fold (natQ (length l)) in En, Er. generalize dependent (rnd (natQ (length l))). intros d Er En.
  assert (Hn : 1 <= natQ (length l) <= 255).
  { split; [|by apply (natQ_le _ 255)]. apply (natQ_le 1). destruct l; simpl; [done | lia]. }
  cbn [f64_div] in Er.
  destruct (Qeq_bool d 0) eqn:Ez; [apply Qeq_bool_iff in Ez; exfalso; lra|].
  assert (Hq : 2 ^ (-410) <= s / d).
  { apply Qle_shift_div_l; [lra|]. apply Qle_trans with (2 ^ (-410) * 2 ^ 10); [|].
    - apply Qmult_le_l; [apply pow2_pos|]. change (2 ^ 10) with 1024. lra.
    - rewrite <- pow2_add. exact Hs'. }
  destruct (f64_of_Q_cases (s / d)) as [Ei|(Ef & _ & _)];
    [pose proof (pow2_pos (-410)); lra | congruence |].
  rewrite Ef in Er. simplify_eq.
  rewrite <- (rnd_repr _ (repr_pow2 (-410) ltac:(lia))). by apply rnd_mono.
Qed.

Lemma clean_sane xs :
  Forall f64_wf xs -> Forall sane_rate xs ->
  exists l, clean_of xs = Fin <$> l /\
    Forall (fun q => f64_wf (Fin q) /\ 2 ^ (-400) <= q /\ q <= 2 ^ 400) l.
Proof.
  intros Hwf Hs. exists (toQ <$> clean_of xs).
  pose proof (usable_clean xs) as Hu. fold (clean_of xs) in Hu.
  split; [by apply usable_list|]. apply Forall_fmap, Forall_forall. intros x Hx. unfold compose.
  rewrite Forall_forall in Hu. destruct (Hu x Hx) as [E Hp].
  apply clean_Forall in Hwf, Hs. rewrite Forall_forall in Hwf, Hs.
  rewrite <- E. split; [by apply Hwf|]. apply (Hs x Hx). by apply usable_spec.
Qed.

Lemma fmap_Fin_filter (f : f64 -> bool) l :
  List.filter f (Fin <$> l) = Fin <$> List.filter (fun q => f (Fin q)) l.
Proof. induction l as [|q l IH]; [done|]. csimpl. case_match; csimpl; by rewrite IH. Qed.

(** Combining sane rates gives a rate that is still far from the limits. *)
Lemma combine_sane xs pct v :
  Forall f64_wf xs -> Forall sane_rate xs -> (length xs <= 255)%nat ->
  combine xs pct = Some v ->
  exists r, v = Fin r /\ 2 ^ (-410) <= r /\ r <= 2 ^ 410.
Proof.
  intros Hwf Hs Hlen Hc. destruct (clean_sane xs Hwf Hs) as (l & El & Hl).
  assert (Hll : (length l <= 255)%nat).
  { rewrite <- (length_fmap Fin l), <- El, clean_length.
    etransitivity; [apply filter_length_le | done]. }
  assert (Hwide : 2 ^ (-410) <= 2 ^ (-400) /\ 2 ^ 400 <= 2 ^ 410)
    by (split; apply pow2_le; lia).
  destruct (decide (length (clean_of xs) <= 2)%nat) as [H|H].
  - rewrite combine_few in Hc by done. rewrite El in Hc.
    destruct l as [|x [|y l]]; csimpl in Hc; simplify_eq.
    + apply Forall_cons in Hl as [(_ & H1 & H2) _]. exists x. split_and!; [done | lra | lra].
    + by apply (mean_sane (x :: y :: l)).
  - rewrite combine_many, El, fmap_Fin_filter in Hc by lia.
    destruct (List.filter _ l) as [|x k] eqn:Ek; csimpl in Hc; simplify_eq.
    + destruct (median_between (clean_of xs) (2 ^ (-400)) (2 ^ 400)) as (m & Em & Hm).
      * apply sort_floats_sorted.
      * by apply clean_Forall.
      * apply usable_clean.
      * assert (Hall : List.filter (between (2 ^ (-400)) (2 ^ 400)) (clean_of xs) = clean_of xs).
        { rewrite El, fmap_Fin_filter. f_equal. clear -Hl.
          induction Hl as [|q l (_ & H1 & H2) _ IH]; [done|].
          cbn [List.filter]. unfold between at 1. cbn [toQ].
          by rewrite (proj2 (Qle_bool_iff _ _) H1), (proj2 (Qle_bool_iff _ _) H2), IH. }
        rewrite Hall. lia.
      * apply pow2_le. lia.
      * exists m. rewrite <- El. split_and!; [done | lra | lra].
    + apply (mean_sane (x :: k)); [done | |].
      * rewrite <- Ek. etransitivity; [apply filter_length_le | done].
      * rewrite <- Ek. by apply Forall_filter.
Qed.

Lemma mul_sane v r :
  usable v = true -> sane_rate v -> 2 ^ (-410) <= r -> r <= 2 ^ 410 ->
  usable (f64_mul v (Fin r)) = true.
Proof.
  intros Hu Hs H1 H2. destruct (Hs Hu) as [S1 S2]. apply usable_spec in Hu as [E Hp].
  rewrite E. cbn [f64_mul]. set (q := toQ v) in *.
  pose proof (pow2_pos (-410)). pose proof (pow2_pos 400).
  assert (Hlo : 2 ^ (-810) <= q * r).
  { change (-810)%Z with (-400 + -410)%Z. rewrite pow2_add.
    pose proof (pow2_pos (-400)). apply Qmult_le_compat_nonneg; lra. }
  assert (Hhi : q * r <= 2 ^ 1023).
  { apply Qle_trans with (2 ^ 400 * 2 ^ 410); [apply Qmult_le_compat_nonneg; lra|].
    rewrite <- pow2_add. apply pow2_le. lia. }
  pose proof (pow2_pos (-810)).
  rewrite f64_of_Q_fin by lra. apply usable_spec. split; [done|]. cbn [toQ].
  apply Qlt_le_trans with (2 ^ (-810)); [done|].
  rewrite <- (rnd_repr _ (repr_pow2 (-810) ltac:(lia))). by apply rnd_mono.
Qed.

Lemma usable_mul_inv v r : 0 < r -> usable (f64_mul v (Fin r)) = true -> usable v = true.
Proof.
  intros Hr Hu. destruct v as [|s|q]; [done | |].
  - cbn [f64_mul] in Hu. by destruct (Qeq_bool r 0).
  - apply usable_spec. split; [done|]. cbn [toQ f64_mul] in *.
    apply Qnot_le_lt. intros Hq. apply usable_spec in Hu as [E Hp].
    assert (Hle : f64_le (f64_of_Q (q * r)) (f64_of_Q 0) = true).
    { apply f64_of_Q_mono. assert (0 <= (- q) * r) by (apply Qmult_le_0_compat; lra). lra. }
    rewrite E in Hle. change (f64_of_Q 0) with (Fin 0) in Hle. cbn [f64_le] in Hle.
    qbool. lra.
Qed.

(** ** Which quotes reach a currency *)

Lemma elem_direct_of rs c i v :
  (i, v) ∈ direct_of rs c <->
  exists r cur, r ∈ rs /\ r.1 = i /\ (cur, PerBtc v) ∈ r.2 /\ to_uppercase cur = c.
Proof.
  unfold direct_of, under. rewrite list_elem_of_omap. split.
  - intros ([k [j w]] & Hin & E). simpl in E. case_decide; simplify_eq.
    apply list_elem_of_bind in Hin as (r & Hin & Hr).
    apply list_elem_of_omap in Hin as ([cur q] & Hin & E). destruct q; simplify_eq/=. eauto 10.
  - intros (r & cur & Hr & <- & Hq & <-). exists (to_uppercase cur, (r.1, v)).
    split; [|simpl; by rewrite decide_True].
    apply list_elem_of_bind. exists r. split; [|done].
    apply list_elem_of_omap. by exists (cur, PerBtc v).
Qed.

Lemma elem_crosses rs i c base v :
  (i, c, base, v) ∈ crosses rs <->
  exists r cur b, r ∈ rs /\ r.1 = i /\ (cur, PerBase b v) ∈ r.2 /\
    to_uppercase cur = c /\ to_uppercase b = base.
Proof.
  unfold crosses. rewrite list_elem_of_bind. split.
  - intros (r & Hin & Hr).
    apply list_elem_of_omap in Hin as ([cur q] & Hin & E). destruct q; simplify_eq/=. eauto 10.
  - intros (r & cur & b & Hr & <- & Hq & <- & <-). exists r. split; [|done].
    apply list_elem_of_omap. by exists (cur, PerBase b v).
Qed.

Lemma elem_resolved_of rs pct c i w :
  (i, w) ∈ resolved_of rs pct c <->
  exists base v a n, (i, c, base, v) ∈ crosses rs /\ anchor_for rs pct base = Some (a, n) /\
    w = f64_mul v a /\ usable w = true.
Proof.
  unfold resolved_of, under. rewrite list_elem_of_omap. split.
  - intros ([k [j x]] & Hin & E). simpl in E. case_decide; simplify_eq.
    apply list_elem_of_fmap in Hin as ([kx n] & Ey & Hin). simpl in Ey. subst kx.
    apply list_elem_of_omap in Hin as ([[[j' k'] base] v] & Hin & E). simpl in E.
    destruct (anchor_for rs pct base) as [[a n']|] eqn:Ea; [|done].
    case_match; simplify_eq/=. eauto 10.
  - intros (base & v & a & n & Hin & Ha & -> & Hu). exists (c, (i, f64_mul v a)).
    split; [|simpl; by rewrite decide_True].
    apply list_elem_of_fmap. exists (c, (i, f64_mul v a), n). split; [done|].
    apply list_elem_of_omap. exists (i, c, base, v). split; [done|]. simpl. by rewrite Ha, Hu.
Qed.

Lemma combine_Some xs pct : is_Some (combine xs pct) <-> exists v, v ∈ xs /\ usable v = true.
Proof.
  rewrite <- not_eq_None_Some, combine_None.
  setoid_rewrite <- elem_of_filterb.
  destruct (List.filter usable xs) as [|v l].
  { split; [done|]. intros (v & Hv). by apply elem_of_nil in Hv. }
  split; [intros _; exists v; by left | done].
Qed.

Lemma anchor_for_fst rs pct b a n :
  anchor_for rs pct b = Some (a, n) -> combine (direct_of rs b).*2 pct = Some a.
Proof. unfold anchor_for, anchor_of. case_match; naive_solver. Qed.

Lemma anchor_exists rs pct b :
  is_Some (anchor_for rs pct b) <-> exists i v, (i, v) ∈ direct_of rs b /\ usable v = true.
Proof.
  assert (E : is_Some (anchor_for rs pct b) <-> is_Some (combine (direct_of rs b).*2 pct)).
  { unfold anchor_for, anchor_of. by destruct (combine _ _); split; intros []. }
  rewrite E, combine_Some. split.
  - intros (v & (p & -> & Hp)%list_elem_of_fmap & Hu). exists p.1, p.2. by destruct p.
  - intros (i & v & Hin & Hu). exists v. split; [|done]. apply list_elem_of_fmap. by exists (i, v).
Qed.

(** An anchor of a sane tick is far from the limits. *)
Lemma anchor_sane rs pct b a n :
  sane_tick rs -> anchor_for rs pct b = Some (a, n) ->
  exists r, a = Fin r /\ 2 ^ (-410) <= r /\ r <= 2 ^ 410.
Proof.
  intros [Hwf Hv Hc] Ha%anchor_for_fst. eapply combine_sane; [by apply direct_of_wf | | | done].
  - apply Forall_fmap, Forall_forall. intros [i v] Hin.
    apply elem_direct_of in Hin as (r & cur & Hr & _ & Hq & _). by apply (Hv r (cur, PerBtc v)).
  - rewrite length_fmap. apply Hc.
Qed.

Lemma cross_sane rs i c base v : sane_tick rs -> (i, c, base, v) ∈ crosses rs -> sane_rate v.
Proof.
  intros [_ Hv _] (r & cur & b & Hr & _ & Hq & _)%elem_crosses.
  by apply (Hv r (cur, PerBase b v)).
Qed.

(** In a sane tick whether a cross quote resolves depends on its value and on
    the existence of the anchor only. *)
Lemma cross_resolves rs rs' pct i c base v a n a' n' :
  sane_tick rs -> sane_tick rs' -> (i, c, base, v) ∈ crosses rs ->
  anchor_for rs pct base = Some (a, n) -> usable (f64_mul v a) = true ->
  anchor_for rs' pct base = Some (a', n') -> usable (f64_mul v a') = true.
Proof.
  intros Hs Hs' Hin Ha Hu Ha'.
  destruct (anchor_sane _ _ _ _ _ Hs Ha) as (r & -> & H1 & H2).
  destruct (anchor_sane _ _ _ _ _ Hs' Ha') as (r' & -> & H1' & H2').
  apply mul_sane; [|exact (cross_sane _ _ _ _ _ Hs Hin)|done|done].
  eapply usable_mul_inv; [|exact Hu]. pose proof (pow2_pos (-410)). lra.
Qed.

(** ** Coverage *)

Lemma filter_idem {A} (f : A -> bool) l : List.filter f (List.filter f l) = List.filter f l.
Proof. induction l as [|x l IH]; [done|]. simpl. destruct (f x) eqn:E; simpl; rewrite ?E; congruence. Qed.

Lemma combine_usable xs pct : combine (List.filter usable xs) pct = combine xs pct.
Proof. unfold combine. by rewrite filter_idem. Qed.

Definition usable_entries (r : ProviderId * ProviderQuotes) : list (string * f64) :=
  omap (fun cq : string * Quote =>
    match cq.2 with
    | PerBtc v => if usable v then Some (to_uppercase cq.1, v) else None
    | _ => None
    end) r.2.

Lemma collect_direct_spec rs : collect_direct rs = pushes ∅ (rs ≫= usable_entries).
Proof.
  unfold collect_direct.
  assert (Hr : forall m, foldl (fun acc r => foldl (fun acc (cq : string * Quote) =>
      match cq.2 with
      | PerBtc v => if usable v then push acc (to_uppercase cq.1) v else acc
      | PerBase _ _ => acc
      end) acc r.2) m rs = pushes m (rs ≫= usable_entries)); [|apply Hr].
  induction rs as [|[i qs] rs IH]; intros m; csimpl; [done|].
  rewrite IH. unfold pushes at 2. rewrite foldl_app. f_equal.
  change (usable_entries (i, qs)) with (usable_entries (i, qs)). unfold usable_entries. csimpl.
  clear. revert m. induction qs as [|[c q] qs IH]; intros m; csimpl; [done|].
  destruct q as [v|]; csimpl; [destruct (usable v)|]; csimpl; apply IH.
Qed.

Lemma under_usable rs b : under b (rs ≫= usable_entries) = List.filter usable (direct_of rs b).*2.
Proof.
  unfold direct_of, under. induction rs as [|[i qs] rs IH]; csimpl; [done|].
  rewrite !omap_app, fmap_app, List.filter_app, IH. f_equal.
  unfold usable_entries, direct_entries. csimpl. clear.
  induction qs as [|[c q] qs IH]; csimpl; [done|].
  destruct q as [v|]; csimpl; [|done].
  destruct (usable v) eqn:E; csimpl; case_decide; csimpl; rewrite ?E, ?IH; done.
Qed.

(** The anchors coverage is decided with are those of the unrestricted tick. *)
Lemma coverage_anchor rs pct b :
  omap (fun values => combine values pct) (collect_direct rs) !! b =
  combine (direct_of rs b).*2 pct.
Proof.
  rewrite lookup_omap, collect_direct_spec, pushes_lookup, lookup_empty, under_usable.
  rewrite <- (combine_usable (direct_of rs b).*2).
  by destruct (List.filter usable _).
Qed.

Lemma elem_of_nil_exists {A} (P : A -> Prop) : (exists x, x ∈ [] /\ P x) <-> False.
Proof. split; [intros (x & Hx & _); by apply elem_of_nil in Hx | done]. Qed.

Lemma elem_of_cons_exists {A} (P : A -> Prop) y l :
  (exists x, x ∈ y :: l /\ P x) <-> P y \/ exists x, x ∈ l /\ P x.
Proof.
  split.
  - intros (x & [->|Hx]%elem_of_cons & HP); [by left | right; by exists x].
  - intros [HP|(x & Hx & HP)]; [exists y | exists x]; (split; [apply elem_of_cons; auto | done]).
Qed.

Lemma foldl_collect {A} (f : A -> bool) (key : A -> string) (l : list A) (s : gset string) c :
  c ∈ foldl (fun s x => if f x then {[ key x ]} ∪ s else s) s l <->
  c ∈ s \/ exists x, x ∈ l /\ f x = true /\ key x = c.
Proof.
  revert s. induction l as [|x l IH]; intros s; simpl.
  - rewrite elem_of_nil_exists. tauto.
  - rewrite IH, elem_of_cons_exists. destruct (f x).
    + rewrite elem_of_union, elem_of_singleton. intuition congruence.
    + intuition congruence.
Qed.

Definition covers (rs : list (ProviderId * ProviderQuotes)) (pct : f64) (q : Quote) : bool :=
  match q with
  | PerBtc v => usable v
  | PerBase b v =>
      match combine (direct_of rs (to_uppercase b)).*2 pct with
      | Some a => usable (f64_mul v a)
      | None => false
      end
  end.

Lemma covered_spec rs pct c :
  c ∈ currencies_covered_by_non_nostr rs pct <->
  exists r, r ∈ rs /\ r.1 <> Nostr /\
    exists cq, cq ∈ r.2 /\ covers rs pct cq.2 = true /\ to_uppercase cq.1 = c.
Proof.
  unfold currencies_covered_by_non_nostr.
  set (anchors := omap (fun values => combine values pct) (collect_direct rs)).
  assert (Hq : forall q, quote_covers anchors q = covers rs pct q).
  { intros [v|b v]; [done|]. unfold quote_covers, anchors. by rewrite coverage_anchor. }
  assert (Hf : forall (l : list (ProviderId * ProviderQuotes)) (s : gset string),
    c ∈ foldl (fun covered r =>
      if decide (r.1 = Nostr) then covered
      else foldl (fun covered (cq : string * Quote) =>
        if quote_covers anchors cq.2 then {[ to_uppercase cq.1 ]} ∪ covered else covered)
        covered r.2) s l <->
    c ∈ s \/ exists r, r ∈ l /\ r.1 <> Nostr /\
      exists cq, cq ∈ r.2 /\ covers rs pct cq.2 = true /\ to_uppercase cq.1 = c).
  { induction l as [|r l IH]; intros s; simpl.
    - rewrite elem_of_nil_exists. tauto.
    - rewrite IH, elem_of_cons_exists. case_decide; [tauto|].
      rewrite (foldl_collect (fun cq : string * Quote => quote_covers anchors cq.2)
        (fun cq => to_uppercase cq.1)). setoid_rewrite Hq. tauto. }
  rewrite Hf, elem_of_empty. tauto.
Qed.

(** ** The restricted tick *)

Section restricted.
Variable rs : list (ProviderId * ProviderQuotes).
Variable pct : f64.
#[local] Abbreviation covered := (currencies_covered_by_non_nostr rs pct).
#[local] Abbreviation rs' := (restrict_nostr_to_fallback rs pct).

Lemma elem_restrict cur q i :
  (exists r', r' ∈ rs' /\ r'.1 = i /\ (cur, q) ∈ r'.2) <->
  (exists r, r ∈ rs /\ r.1 = i /\ (cur, q) ∈ r.2) /\ (i = Nostr -> to_uppercase cur ∉ covered).
Proof.
  unfold restrict_nostr_to_fallback. split.
  - intros (r' & Hin & <- & Hq). apply list_elem_of_fmap in Hin as (r & -> & Hr).
    case_decide as E; simpl in *.
    + apply elem_of_filterb in Hq as [Hq Hc%bool_decide_eq_true]. split; [by exists r | done].
    + split; [by exists r | done].
  - intros ((r & Hr & <- & Hq) & Hc).
    eexists. split; [apply list_elem_of_fmap; exists r; split; [reflexivity | done]|].
    case_decide as E; simpl; [|done]. split; [done|].
    apply elem_of_filterb. split; [done|]. apply bool_decide_eq_true. auto.
Qed.

Lemma elem_restrict_direct c i v :
  (i, v) ∈ direct_of rs' c <-> (i, v) ∈ direct_of rs c /\ (i = Nostr -> c ∉ covered).
Proof.
  rewrite !elem_direct_of. split.
  - intros (r' & cur & Hr & Hi & Hq & <-).
    destruct (proj1 (elem_restrict cur (PerBtc v) i)) as [(r & H1 & H2 & H3) Hc]; [eauto|].
    split; [|done]. by exists r, cur.
  - intros [(r & cur & Hr & Hi & Hq & <-) Hc].
    destruct (proj2 (elem_restrict cur (PerBtc v) i)) as (r' & H1 & H2 & H3); [eauto 10|].
    by exists r', cur.
Qed.

Lemma elem_restrict_cross c i base v :
  (i, c, base, v) ∈ crosses rs' <-> (i, c, base, v) ∈ crosses rs /\ (i = Nostr -> c ∉ covered).
Proof.
  rewrite !elem_crosses. split.
  - intros (r' & cur & b & Hr & Hi & Hq & <- & Eb).
    destruct (proj1 (elem_restrict cur (PerBase b v) i)) as [(r & H1 & H2 & H3) Hc]; [eauto|].
    split; [|done]. by exists r, cur, b.
  - intros [(r & cur & b & Hr & Hi & Hq & <- & Eb) Hc].
    destruct (proj2 (elem_restrict cur (PerBase b v) i)) as (r' & H1 & H2 & H3); [eauto 10|].
    by exists r', cur, b.
Qed.

Lemma direct_of_cons r l c :
  direct_of (r :: l) c = under c (direct_entries r) ++ direct_of l c.
Proof. unfold direct_of. csimpl. apply under_app. Qed.

Lemma omap_compose_length {A B C} (f : A -> option B) (h : B -> option C) (g : A -> bool)
    (l : list A) :
  (length (omap h (omap f (List.filter g l))) <= length (omap h (omap f l)))%nat.
Proof.
  induction l as [|x l IH]; [done|]. csimpl.
  destruct (g x); csimpl; destruct (f x) as [y|]; csimpl; try destruct (h y); simpl; lia.
Qed.

Lemma restrict_direct_length c : (length (direct_of rs' c) <= length (direct_of rs c))%nat.
Proof.
  unfold restrict_nostr_to_fallback. generalize covered. intros cov.
  induction rs as [|r l IH]; [done|].
  cbn [map]. rewrite !direct_of_cons, !length_app.
  apply Nat.add_le_mono; [|apply IH]. case_decide; [|done].
  apply (omap_compose_length
    (fun cq : string * Quote =>
      match cq.2 with PerBtc v => Some (to_uppercase cq.1, (r.1, v)) | _ => None end)
    (fun kx : string * (ProviderId * f64) => if decide (kx.1 = c) then Some kx.2 else None)
    (fun cq => bool_decide (to_uppercase cq.1 ∉ cov)) r.2).
Qed.

Lemma sane_restrict : sane_tick rs -> sane_tick rs'.
Proof.
  intros [Hwf Hv Hc].
  assert (Hsub : forall r' cq, r' ∈ rs' -> cq ∈ r'.2 -> exists r, r ∈ rs /\ cq ∈ r.2).
  { intros r' [cur q] Hr Hq.
    destruct (proj1 (elem_restrict cur q r'.1)) as [(r & H1 & _ & H3) _]; eauto. }
  split.
  - apply Forall_forall. intros r' Hr'. apply Forall_forall. intros cq Hq.
    destruct (Hsub _ _ Hr' Hq) as (r & Hr & Hq').
    unfold quotes_wf in Hwf. rewrite Forall_forall in Hwf. specialize (Hwf _ Hr).
    rewrite Forall_forall in Hwf. by apply Hwf.
  - intros r' cq Hr' Hq. destruct (Hsub _ _ Hr' Hq) as (r & Hr & Hq'). by apply (Hv r).
  - intros b. pose proof (restrict_direct_length b). specialize (Hc b). lia.
Qed.

Hypothesis sane : sane_tick rs.

Lemma covered_direct c i v :
  (i, v) ∈ direct_of rs c -> i <> Nostr -> usable v = true -> c ∈ covered.
Proof.
  intros (r & cur & Hr & <- & Hq & <-)%elem_direct_of Hi Hu. apply covered_spec.
  exists r. split_and!; [done..|]. by exists (cur, PerBtc v).
Qed.

Lemma covered_cross c i base v a n :
  (i, c, base, v) ∈ crosses rs -> i <> Nostr -> anchor_for rs pct base = Some (a, n) ->
  usable (f64_mul v a) = true -> c ∈ covered.
Proof.
  intros (r & cur & b & Hr & <- & Hq & <- & <-)%elem_crosses Hi Ha%anchor_for_fst Hu.
  apply covered_spec. exists r. split_and!; [done..|]. exists (cur, PerBase b v).
  split_and!; [done | | done]. simpl. by rewrite Ha.
Qed.

(** An anchor that survives the restriction existed before it. *)
Lemma anchor_unrestricted base a n :
  anchor_for rs' pct base = Some (a, n) -> exists a0 n0, anchor_for rs pct base = Some (a0, n0).
Proof.
  intros Ha. destruct (proj1 (anchor_exists rs' pct base)) as (i & v & Hin & Hu); [by rewrite Ha|].
  apply elem_restrict_direct in Hin as [Hin _].
  destruct (proj2 (anchor_exists rs pct base)) as [[a0 n0] E]; eauto.
Qed.

(** A currency priced by another provider has no relayed candidate. *)
Lemma restricted_exclusive c v i w :
  (Nostr, v) ∈ pairs_of rs' pct c -> (i, w) ∈ pairs_of rs' pct c -> usable w = true -> i = Nostr.
Proof.
  intros Hn Hi Hu.
  assert (Hc : c ∉ covered).
  { unfold pairs_of in Hn. apply elem_of_app in Hn as [Hn|Hn].
    - by apply elem_restrict_direct in Hn as [_ Hn]; apply Hn.
    - apply elem_resolved_of in Hn as (base & x & a & n & Hn & _).
      by apply elem_restrict_cross in Hn as [_ Hn]; apply Hn. }
  destruct (decide (i = Nostr)) as [|Hne]; [done|]. exfalso. apply Hc.
  unfold pairs_of in Hi. apply elem_of_app in Hi as [Hi|Hi].
  - apply elem_restrict_direct in Hi as [Hi _]. by eapply covered_direct.
  - apply elem_resolved_of in Hi as (base & x & a & n & Hx & Ha & -> & _).
    destruct (anchor_unrestricted _ _ _ Ha) as (a0 & n0 & Ha0).
    pose proof (cross_resolves _ _ _ _ _ _ _ _ _ _ _ (sane_restrict sane) sane Hx Ha Hu Ha0).
    apply elem_restrict_cross in Hx as [Hx _]. by eapply covered_cross.
Qed.

Lemma contributor_candidate c i :
  i ∈ kept_contributors (pairs_of rs' pct c) pct ->
  exists v, (i, v) ∈ pairs_of rs' pct c /\ usable v = true.
Proof. intros (v & Hin & Hu & _)%kept_contributors_elem. eauto. Qed.

Lemma dedup_all x l : Forall (fun y => y = x) l -> l <> [] -> dedup l = [x].
Proof.
  intros Hl Hne. destruct Hl as [|y l Hy Hl]; [done|]. clear Hne. subst y.
  induction Hl as [|y l -> Hl IH]; [done|]. simpl in *.
  destruct (dedup l) as [|z r]; [by rewrite decide_True|].
  case_decide; simplify_eq; by rewrite decide_True.
Qed.

Lemma dedup_sort_all x l : (forall y, y ∈ l -> y = x) -> x ∈ l -> dedup_sort l = [x].
Proof.
  intros Hall Hx. unfold dedup_sort. apply dedup_all.
  - apply Forall_forall. intros y Hy. apply Hall. by rewrite <- (merge_sort_Permutation provider_le l).
  - intros E. pose proof (merge_sort_Permutation provider_le l) as Hp. rewrite E in Hp.
    apply Permutation_nil in Hp. subst. by apply elem_of_nil in Hx.
Qed.

(** A relayed rate that is used is the only source of its currency. *)
Lemma nostr_contributes_alone c :
  Nostr ∈ kept_contributors (pairs_of rs' pct c) pct ->
  kept_contributors (pairs_of rs' pct c) pct = [Nostr].
Proof.
  intros Hn. destruct (contributor_candidate _ _ Hn) as (v & Hv & _).
  assert (Hall : forall i, i ∈ kept_contributors (pairs_of rs' pct c) pct -> i = Nostr).
  { intros i Hi. destruct (contributor_candidate _ _ Hi) as (w & Hw & Hu).
    by eapply restricted_exclusive. }
  rewrite kept_contributors_alt in *. apply dedup_sort_all.
  - intros i Hi. apply Hall. by apply dedup_sort_elem.
  - by apply dedup_sort_elem.
Qed.

(** ** Nothing is lost *)

Lemma tick_priced l c :
  is_Some (aggregate_tick l pct !! c) <->
  exists i v, (i, v) ∈ pairs_of l pct c /\ usable v = true.
Proof.
  rewrite aggregate_tick_lookup. unfold tick_reference.
  transitivity (is_Some (combine (pairs_of l pct c).*2 pct)).
  { by destruct (combine _ _); split; intros []. }
  rewrite combine_Some. split.
  - intros (v & (p & -> & Hp)%list_elem_of_fmap & Hu). exists p.1, p.2. by destruct p.
  - intros (i & v & Hin & Hu). exists v. split; [|done]. apply list_elem_of_fmap. by exists (i, v).
Qed.

(** The relay quotes rates against bitcoin only, and no base of a cross
    quote is itself the target of one. *)
Definition plain_tick : Prop :=
  (forall c base v, (Nostr, c, base, v) ∉ crosses rs) /\
  (forall i c base v, (i, c, base, v) ∈ crosses rs ->
    forall j base' v', (j, base, base', v') ∉ crosses rs).

Lemma covered_base_direct base :
  (forall j base' v', (j, base, base', v') ∉ crosses rs) -> base ∈ covered ->
  exists i v, (i, v) ∈ direct_of rs base /\ i <> Nostr /\ usable v = true.
Proof.
  intros Hno (r & Hr & Hi & [cur q] & Hq & Hc & <-)%covered_spec. destruct q as [v|b v].
  - exists r.1, v. split; [|done]. apply elem_direct_of. by exists r, cur.
  - exfalso. eapply (Hno r.1 (to_uppercase b) v). apply elem_crosses. by exists r, cur, b.
Qed.

Lemma anchor_kept base a n :
  (forall j base' v', (j, base, base', v') ∉ crosses rs) ->
  anchor_for rs pct base = Some (a, n) -> exists a1 n1, anchor_for rs' pct base = Some (a1, n1).
Proof.
  intros Hno Ha.
  destruct (proj1 (anchor_exists rs pct base)) as (i & v & Hin & Hu); [by rewrite Ha|].
  assert (Hx : exists i v, (i, v) ∈ direct_of rs' base /\ usable v = true).
  { destruct (decide (base ∈ covered)) as [Hc|Hc].
    - destruct (covered_base_direct base Hno Hc) as (j & w & Hj & Hne & Hw).
      exists j, w. split; [|done]. by apply elem_restrict_direct.
    - exists i, v. split; [|done]. by apply elem_restrict_direct. }
  apply (anchor_exists rs' pct base) in Hx as [[a1 n1] E]. eauto.
Qed.

(** A cross quote that resolves and is kept still resolves. *)
Lemma cross_kept i c base w a n :
  plain_tick -> (i, c, base, w) ∈ crosses rs -> anchor_for rs pct base = Some (a, n) ->
  usable (f64_mul w a) = true ->
  exists v, (i, v) ∈ pairs_of rs' pct c /\ usable v = true.
Proof.
  intros [Hn Hno] Hx Ha Hu.
  destruct (anchor_kept _ _ _ (Hno _ _ _ _ Hx) Ha) as (a1 & n1 & Ea1).
  pose proof (cross_resolves _ _ _ _ _ _ _ _ _ _ _ sane (sane_restrict sane) Hx Ha Hu Ea1).
  exists (f64_mul w a1). split; [|done]. apply elem_of_app. right.
  apply elem_resolved_of. exists base, w, a1, n1. split_and!; [|done..].
  apply elem_restrict_cross. split; [done|]. intros ->. by apply Hn in Hx.
Qed.

Lemma restriction_keeps c :
  plain_tick -> is_Some (aggregate_tick rs pct !! c) -> is_Some (aggregate_tick rs' pct !! c).
Proof.
  intros Hplain (i & v & Hin & Hu)%tick_priced. apply tick_priced.
  assert (Hkeep : forall j w, (j, w) ∈ direct_of rs c -> usable w = true ->
    (j = Nostr -> c ∉ covered) -> exists i v, (i, v) ∈ pairs_of rs' pct c /\ usable v = true).
  { intros j w Hj Hw Hc. exists j, w. split; [|done]. apply elem_of_app. left.
    by apply elem_restrict_direct. }
  apply elem_of_app in Hin as [Hin|Hin].
  - destruct (decide (c ∈ covered)) as [Hc|Hc]; [|by eapply Hkeep].
    apply covered_spec in Hc as (r & Hr & Hi & [cur q] & Hq & Hcov & <-).
    destruct q as [w|b w]; simpl in Hcov.
    + eapply (Hkeep r.1 w); [|done..]. apply elem_direct_of. by exists r, cur.
    + destruct (combine _ _) as [a|] eqn:Ea; [|done].
      exists r.1. eapply (cross_kept _ _ (to_uppercase b) w a); [done | | | done].
      * apply elem_crosses. by exists r, cur, b.
      * unfold anchor_for, anchor_of. by rewrite Ea.
  - apply elem_resolved_of in Hin as (base & w & a & n & Hx & Ha & -> & _).
    exists i. by eapply cross_kept.
Qed.
End restricted.

(** ** The adapters give plain ticks *)

Definition adapter_parse (from_str : string -> result (list (string * option f64)) string)
    (i : ProviderId) : string -> result ProviderQuotes ProviderError :=
  match i with
  | Yadio => yadio_parse from_str
  | CoinGecko => coingecko_parse from_str
  | CurrencyApi => currency_api_parse from_str
  | Blockchain => blockchain_parse from_str
  | ElToque => eltoque_parse from_str
  | Nostr => nostr_parse_content from_str
  end.

(** Quotes an adapter produced, possibly filtered since. *)
Definition adapter_quotes (from_str : string -> result (list (string * option f64)) string)
    (r : ProviderId * ProviderQuotes) : Prop :=
  exists body qs, adapter_parse from_str r.1 body = Ok qs /\ forall cq, cq ∈ r.2 -> cq ∈ qs.

Lemma assoc_insert_elem {V} k (v : V) l kv : kv ∈ assoc_insert k v l -> kv = (k, v) \/ kv ∈ l.
Proof.
  induction l as [|[k' v'] l IH]; simpl; [by intros ->%list_elem_of_singleton; left|].
  destruct (str_eqb k k').
  - intros [->|H]%elem_of_cons; [by left|]. right. by right.
  - intros [->|H]%elem_of_cons; [right; by left|]. destruct (IH H); [by left | right; by right].
Qed.

Lemma collect_map_elem {V} (l : list (string * V)) kv : kv ∈ collect_map l -> kv ∈ l.
Proof.
  unfold collect_map.
  assert (Hg : forall acc, kv ∈ foldl (fun acc kv => assoc_insert kv.1 kv.2 acc) acc l ->
    kv ∈ acc \/ kv ∈ l).
  { induction l as [|[k v] l IH]; intros acc; simpl; [by left|].
    intros [H|H]%IH; [|right; by right].
    apply assoc_insert_elem in H as [->|H]; [right; by left | by left]. }
  intros [H|H]%Hg; [by apply elem_of_nil in H | done].
Qed.

Lemma direct_quotes_per_btc canon es cur q :
  (cur, q) ∈ direct_quotes canon es -> exists v, q = PerBtc v.
Proof.
  intros H%collect_map_elem. apply list_elem_of_omap in H as ([k o] & _ & H).
  destruct o as [v|]; [|done]. destruct (usable v); simplify_eq. eauto.
Qed.

(** Cross quotes are El Toque's: the peso and the MLC against the dollar. *)
Lemma adapter_cross from_str r cur b v :
  adapter_quotes from_str r -> (cur, PerBase b v) ∈ r.2 ->
  r.1 = ElToque /\ b = "USD"%string /\ (cur = "CUP"%string \/ cur = "MLC"%string).
Proof.
  intros (body & qs & Hp & Hsub) Hin%Hsub.
  destruct r as [[] rq]; simpl in Hp;
    unfold yadio_parse, coingecko_parse, currency_api_parse, blockchain_parse,
      nostr_parse_content, eltoque_parse in Hp;
    destruct (from_str body); simplify_eq;
    try (by apply direct_quotes_per_btc in Hin as [? ?]).
  split; [done|]. repeat case_match; simplify_eq/=;
    repeat (rewrite elem_of_cons in Hin || rewrite elem_of_nil in Hin);
    destruct_or?; simplify_eq; auto.
Qed.

Lemma adapters_plain from_str rs :
  Forall (adapter_quotes from_str) rs -> plain_tick rs.
Proof.
  intros Ha. rewrite Forall_forall in Ha.
  assert (Hx : forall i c base v, (i, c, base, v) ∈ crosses rs ->
    i = ElToque /\ base = "USD"%string /\ (c = "CUP"%string \/ c = "MLC"%string)).
  { intros i c base v (r & cur & b & Hr & <- & Hq & <- & <-)%elem_crosses.
    destruct (adapter_cross _ _ _ _ _ (Ha r Hr) Hq) as (-> & -> & [-> | ->]); auto. }
  split.
  - intros c base v H%Hx. by destruct H.
  - intros i c base v (_ & -> & _)%Hx j base' v' (_ & _ & [H|H])%Hx; discriminate H.
Qed.
