(* ===== verification/PriceSpec.v ===== *)
(** * What the price subsystem promises

    The rate of a currency is a proper number, does not depend on the order
    in which quotes arrive and cannot be moved by a minority of sources; a
    served price is the latest aggregate of its currency and not older than
    the staleness window; a failing provider is polled again after a bounded
    back-off; relayed rates fill gaps only and are not republished. *)

From Stdlib Require Import ZArith QArith Lqa Lia.
From stdpp Require Import gmap sorting.
From S2P Require Import Prelude.
From S2P Require Import Float64.
From S2P Require Import BondTypes.
From S2P Require Import Model.
From S2P Require Import Price.
From S2P Require Import PriceManager.
From S2P Require Import PriceMath.
From S2P Require Import PriceTick.
From S2P Require Import PriceFallback.

Open Scope Z_scope.

(** [binary_search] may be used on the allowlist. *)
Lemma KNOWN_FIAT_sorted : Sorted (fun a b => String.ltb a b = true) KNOWN_FIAT.
Proof. unfold KNOWN_FIAT. repeat constructor. Qed.

(** ** A quoted tick *)

Definition usd (n : Z) : string * Quote := ("USD"%string, PerBtc (f64_of_i64 n)).

(** Three direct sources, one of them far off, El Toque's peso, and a relay
    that quotes the dollar, the peso and the bolivar. *)
Definition demo_polls : list (ProviderId * ProviderQuotes) :=
  [(Yadio, [usd 60000]); (CoinGecko, [usd 60300]); (CurrencyApi, [usd 90000]);
   (ElToque, [("CUP"%string, PerBase "USD" (f64_of_i64 400))]);
   (Nostr, [usd 61000; ("CUP"%string, PerBtc (f64_of_i64 24000000));
            ("VES"%string, PerBtc (f64_of_i64 9000000))])].

Definition pct5 : f64 := f64_of_i64 5.

(** ** The aggregated rate *)

(** C23: For well-formed quotes, every rate a tick produces is a well-formed
    binary64 value that is neither NaN nor negative: a non-negative number,
    or an infinity when the sum of the candidates overflows.  Its source
    count fits a byte and is positive. *)
Theorem rates_well_formed rs pct c a :
  quotes_wf rs -> Z.of_nat (length (pairs_of rs pct c)) <= i64_max ->
  aggregate_tick rs pct !! c = Some a ->
  f64_wf (value a) /\ f64_le (Fin 0%Q) (value a) = true /\ 1 <= sources a <= 255 /\
  contributors a <> [].
Proof.
  intros Hwf Hlen. rewrite aggregate_tick_lookup. unfold tick_reference.
  destruct (combine _ pct) as [v|] eqn:Ec; [|done]. intros [= <-]. simpl.
  destruct (combine_rate _ _ _ (pairs_of_wf _ _ _ Hwf) ltac:(by rewrite length_fmap) Ec)
    as [Hv Hp].
  destruct (proj1 (combine_Some (pairs_of rs pct c).*2 pct) ltac:(by eexists)) as (w & Hw & Hu).
  pose proof (proj2 (elem_of_filterb usable (pairs_of rs pct c).*2 w) (conj Hw Hu)) as Hf.
  split_and!; [done | done | | lia |].
  - destruct (List.filter usable (pairs_of rs pct c).*2); [by apply elem_of_nil in Hf|].
    simpl. lia.
  - apply list_elem_of_fmap in Hw as ([j w'] & -> & Hw).
    by eapply kept_contributors_nonempty.
Qed.

Lemma rates_well_formed_witness :
  exists a, aggregate_tick demo_polls pct5 !! "USD"%string = Some a /\
    f64_wf (value a) /\ f64_le (Fin 0%Q) (value a) = true /\ 1 <= sources a <= 255 /\
    contributors a <> [].
Proof.
  destruct (aggregate_tick demo_polls pct5 !! "USD"%string) as [a|] eqn:E;
    [|vm_compute in E; discriminate E].
  exists a. split; [done|]. apply (rates_well_formed demo_polls pct5 "USD"%string a).
  - apply sane_wf, sane_tickb_sound. vm_compute. reflexivity.
  - vm_compute. discriminate.
  - exact E.
Defined.

(** C22: The rates of a tick do not depend on the order in which providers
    answered nor on the iteration order of their quote maps: shuffling both
    gives the same rate, source count, contributors and provenance for every
    currency. *)
Theorem tick_order_irrelevant rs rs' pct :
  quotes_wf rs -> same_tick rs rs' -> aggregate_tick rs pct = aggregate_tick rs' pct.
Proof.
  intros Hwf Hs. apply map_eq. intros c. rewrite !aggregate_tick_lookup.
  by apply same_tick_reference.
Qed.

Lemma tick_order_irrelevant_witness :
  aggregate_tick demo_polls pct5 = aggregate_tick (rev demo_polls) pct5.
Proof.
  apply tick_order_irrelevant.
  - apply sane_wf, sane_tickb_sound. vm_compute. reflexivity.
  - exists (rev demo_polls). split; [apply Permutation_rev|].
    apply Forall2_same_length_lookup_2; [done|]. intros i x y -> [= ->]. done.
Defined.

(** C19: When a strict majority of at least three usable quotes lies between
    two bounds, the combined rate lies between them up to the outlier
    percentage and one part in 2^40 of rounding, whatever the other sources
    report: a minority cannot move the rate. *)
Theorem minority_cannot_move_rate xs c lo hi :
  Forall f64_wf xs ->
  (2 ^ (-1000) <= lo)%Q -> (lo <= hi)%Q -> (hi <= 2 ^ 1000)%Q -> (0 < c <= 100)%Q ->
  (3 <= length (List.filter usable xs) <= 255)%nat ->
  (length (List.filter usable xs) <
    2 * length (List.filter (between lo hi) (List.filter usable xs)))%nat ->
  exists r, combine xs (Fin c) = Some (Fin r) /\
    (lo * (1 - (c / 100 + slack)) <= r <= hi * (1 + (c / 100 + slack)))%Q.
Proof. apply combine_resists. Qed.

Lemma minority_cannot_move_rate_witness :
  exists r, combine [f64_of_i64 60000; f64_of_i64 900000000; f64_of_i64 60300] pct5 = Some (Fin r) /\
    (60000 * (1 - (5 / 100 + slack)) <= r <= 60300 * (1 + (5 / 100 + slack)))%Q.
Proof.
  apply (minority_cannot_move_rate _ 5%Q).
  - repeat (apply Forall_cons_2; [apply f64_wfb_sound; vm_compute; reflexivity|]).
    apply Forall_nil_2.
  - apply Qle_bool_iff. vm_compute. reflexivity.
  - apply Qle_bool_iff. vm_compute. reflexivity.
  - apply Qle_bool_iff. vm_compute. reflexivity.
  - split; [reflexivity | discriminate].
  - vm_compute. lia.
  - vm_compute. lia.
Defined.

(** ** Relayed rates *)

(** C21: A rate that is republished rests on no relayed rate: Nostr is not
    among the providers whose quotes survived, and no cross quote of a
    surviving provider was resolved against an anchor in which Nostr
    survived.  For quotes far from overflow. *)
Theorem republished_rates_local rs pct c v :
  sane_tick rs ->
  republishable_rates (aggregate_tick (restrict_nostr_to_fallback rs pct) pct) !! c = Some v ->
  exists a, aggregate_tick (restrict_nostr_to_fallback rs pct) pct !! c = Some a /\
    v = value a /\ (Nostr ∉ contributors a) /\
    forall i base w x, i ∈ contributors a ->
      (i, c, base, w) ∈ crosses (restrict_nostr_to_fallback rs pct) ->
      anchor_for (restrict_nostr_to_fallback rs pct) pct base = Some x ->
      usable (f64_mul w x.1) = true -> x.2 = false.
Proof.
  intros Hs. unfold republishable_rates. rewrite lookup_omap.
  rewrite aggregate_tick_lookup. unfold tick_reference.
  destruct (combine _ pct) as [u|]; [|done]. simpl.
  destruct (republishable _) eqn:Er; [|done]. intros [= <-].
  unfold republishable in Er. apply andb_true_iff in Er as [E1 E2]. simpl in E1, E2.
  apply negb_true_iff, bool_decide_eq_false in E1. apply negb_true_iff in E2.
  eexists. split_and!; [done | done | |]; simpl.
  - intros Hn. apply E1. by apply nostr_contributes_alone.
  - intros i base w [a n] Hi Hx Ha Hu. simpl in *. destruct n; [|done]. exfalso.
    apply not_true_iff_false in E2. apply E2. apply existsb_exists.
    exists i. split; [by apply list_elem_of_In|]. apply bool_decide_eq_true.
    unfold tainted_of. apply list_elem_of_omap. exists (c, (i, f64_mul w a), true).
    split; [|simpl; by rewrite decide_True].
    apply list_elem_of_omap. exists (i, c, base, w). split; [done|]. simpl. by rewrite Ha, Hu.
Qed.

Lemma republished_rates_local_witness :
  exists v a, republishable_rates
      (aggregate_tick (restrict_nostr_to_fallback demo_polls pct5) pct5) !! "CUP"%string = Some v /\
    aggregate_tick (restrict_nostr_to_fallback demo_polls pct5) pct5 !! "CUP"%string = Some a /\
    v = value a /\ Nostr ∉ contributors a.
Proof.
  destruct ((republishable_rates (aggregate_tick (restrict_nostr_to_fallback demo_polls pct5) pct5))
    !! "CUP"%string) as [v|] eqn:E; [|vm_compute in E; discriminate E].
  destruct (republished_rates_local demo_polls pct5 "CUP"%string v) as (a & Ha & Hv & Hn & _).
  - apply sane_tickb_sound. vm_compute. reflexivity.
  - exact E.
  - exists v, a. exact (conj eq_refl (conj Ha (conj Hv Hn))).
Defined.

(** Restricting the relay to a fallback loses no currency: with the
    quotes the adapters produce, every currency the unrestricted quotes would
    price is still priced. *)
Theorem fallback_loses_nothing from_str rs pct c :
  Forall (adapter_quotes from_str) rs -> sane_tick rs ->
  is_Some (aggregate_tick rs pct !! c) ->
  is_Some (aggregate_tick (restrict_nostr_to_fallback rs pct) pct !! c).
Proof. intros Ha%adapters_plain Hs. by apply restriction_keeps. Qed.

(** Decoded bodies for the adapters. *)
Definition demo_bodies (body : string) : result (list (string * option f64)) string :=
  if str_eqb body "yadio" then Ok [("USD"%string, Some (f64_of_i64 60000))]
  else if str_eqb body "eltoque" then
    Ok [("USD"%string, Some (f64_of_i64 400)); ("MLC"%string, None)]
  else if str_eqb body "relay" then
    Ok [("usd"%string, Some (f64_of_i64 61000)); ("cup"%string, Some (f64_of_i64 24000000));
        ("ves"%string, Some (f64_of_i64 9000000))]
  else Err "no such body"%string.

Definition demo_adapted : list (ProviderId * ProviderQuotes) :=
  omap (fun ib => match adapter_parse demo_bodies ib.1 ib.2 with
                  | Ok qs => Some (ib.1, qs)
                  | Err _ => None
                  end)
    [(Yadio, "yadio"%string); (ElToque, "eltoque"%string); (Nostr, "relay"%string)].

Lemma fallback_loses_nothing_witness :
  length demo_adapted = 3%nat /\
  Forall (fun c => is_Some (aggregate_tick (restrict_nostr_to_fallback demo_adapted pct5) pct5 !! c))
    ["USD"%string; "CUP"%string; "VES"%string].
Proof.
  split; [vm_compute; reflexivity|]. apply Forall_forall. intros c Hc.
  apply (fallback_loses_nothing demo_bodies).
  - apply Forall_forall. intros r ([i b] & _ & E)%list_elem_of_omap. simpl in E.
    destruct (adapter_parse demo_bodies i b) as [qs|] eqn:Ep; [|discriminate E].
    injection E as <-. exists b, qs. exact (conj Ep (fun cq H => H)).
  - apply sane_tickb_sound. vm_compute. reflexivity.
  - apply is_Some_alt. repeat (apply elem_of_cons in Hc as [->|Hc]; [vm_compute; exact I|]).
    apply elem_of_nil in Hc. destruct Hc.
Defined.

(** ** Served prices *)

(** What the scheduler and the readers do with the manager. *)
Inductive price_op : Type :=
| OpTick (fetch : ProviderId -> PollOutcome) (now failed_at stored_at published_at : Z)
| OpRead (currency : string) (now : Z).

Definition price_do (m : PriceManager) (op : price_op) : PriceManager :=
  match op with
  | OpTick fetch now failed_at stored_at published_at =>
      (update_all m fetch now failed_at stored_at published_at).1.1
  | OpRead currency now => (get_price m currency now).1
  end.

Definition price_run (m : PriceManager) (ops : list price_op) : PriceManager :=
  foldl price_do m ops.

(** The rates a tick of the manager produces. *)
Definition tick_rates (m : PriceManager) (fetch : ProviderId -> PollOutcome) (now : Z) :
    gmap string AggregateResult :=
  match registry m with
  | [] => ∅
  | ps => aggregate_tick (tick_inputs (settings m) (quotes_of_poll fetch now ps))
            (outlier_threshold_pct (settings m))
  end.

(** The rate an operation gives a currency. *)
Definition op_rate (m : PriceManager) (op : price_op) (c : string) : option (AggregateResult * Z) :=
  match op with
  | OpTick fetch now _ stored_at _ =>
      match tick_rates m fetch now !! c with Some a => Some (a, stored_at) | None => None end
  | OpRead _ _ => None
  end.

Lemma aggregate_key_upper rs pct c a : aggregate_tick rs pct !! c = Some a -> to_uppercase c = c.
Proof.
  intros Ha. destruct (proj1 (tick_priced pct rs c)) as (i & v & Hin & _); [by rewrite Ha|].
  apply elem_of_app in Hin as [Hin|Hin].
  - apply elem_direct_of in Hin as (r & cur & _ & _ & _ & <-). apply to_uppercase_idem.
  - apply elem_resolved_of in Hin as (base & w & x & n & Hx & _).
    apply elem_crosses in Hx as (r & cur & b & _ & _ & _ & <- & _). apply to_uppercase_idem.
Qed.

Lemma store_update_lookup w agg now c :
  (forall c a, agg !! c = Some a -> to_uppercase c = c) ->
  store_update w agg now !! c =
  match agg !! c with
  | Some a => Some {| price := value a; as_of := now; source_count := sources a |}
  | None => w !! c
  end.
Proof.
  unfold store_update, PriceStore in *. intros Hup.
  assert (Hg : forall m, m ⊆ agg ->
    map_fold (fun currency a w =>
      <[to_uppercase currency :=
          {| price := value a; as_of := now; source_count := sources a |}]> w) w m !! c =
    match m !! c with
    | Some a => Some {| price := value a; as_of := now; source_count := sources a |}
    | None => w !! c
    end); [|by apply Hg].
  intros m. apply (map_fold_weak_ind (fun r m => m ⊆ agg -> r !! c =
    match m !! c with
    | Some a => Some {| price := value a; as_of := now; source_count := sources a |}
    | None => w !! c
    end)); [by rewrite lookup_empty|].
  intros i x m' r Hi IH Hsub.
  assert (Hm : m' ⊆ agg) by (etransitivity; [by apply insert_subseteq | done]).
  rewrite (Hup i x) by (eapply lookup_weaken; [apply lookup_insert_eq | done]).
  destruct (decide (i = c)) as [->|Hne].
  - by rewrite !lookup_insert_eq.
  - rewrite !lookup_insert_ne by done. by apply IH.
Qed.

Lemma update_all_settings m fetch n f s p :
  settings (update_all m fetch n f s p).1.1 = settings m.
Proof. unfold update_all. destruct (registry m); [done|]. by case_bool_decide. Qed.

Lemma update_all_store m fetch n f s p :
  store (update_all m fetch n f s p).1.1 = store_update (store m) (tick_rates m fetch n) s.
Proof.
  unfold update_all, tick_rates. destruct (registry m) as [|q qs]; [done|].
  case_bool_decide as E; [|done]. by rewrite E.
Qed.

Lemma tick_rates_upper m fetch n c a : tick_rates m fetch n !! c = Some a -> to_uppercase c = c.
Proof. unfold tick_rates. destruct (registry m); [done|]. apply aggregate_key_upper. Qed.

Lemma get_price_store m c n : store (get_price m c n).1 = store m.
Proof. unfold get_price, observe_freshness. repeat case_match; done. Qed.

Lemma get_price_settings m c n : settings (get_price m c n).1 = settings m.
Proof. unfold get_price, observe_freshness. repeat case_match; done. Qed.

Lemma price_run_settings m ops : settings (price_run m ops) = settings m.
Proof.
  unfold price_run. revert m. induction ops as [|op ops IH]; intros m; [done|]. simpl.
  rewrite IH. destruct op; [apply update_all_settings | apply get_price_settings].
Qed.

Lemma price_do_lookup m op c :
  store (price_do m op) !! c =
  match op_rate m op c with
  | Some (a, s) => Some {| price := value a; as_of := s; source_count := sources a |}
  | None => store m !! c
  end.
Proof.
  destruct op as [fetch n f s p|cur n]; simpl; [|by rewrite get_price_store].
  rewrite update_all_store, store_update_lookup by (intros ? ?; apply tick_rates_upper).
  by destruct (tick_rates m fetch n !! c).
Qed.

(** An entry of the store is what the latest operation that priced its
    currency wrote. *)
Lemma store_provenance m ops c e :
  store m = ∅ -> store (price_run m ops) !! c = Some e ->
  exists ops1 op ops2 a, ops = (ops1 ++ op :: ops2)%list /\
    op_rate (price_run m ops1) op c = Some (a, as_of e) /\ price e = value a /\
    forall ops3 op' ops4, ops2 = (ops3 ++ op' :: ops4)%list ->
      op_rate (price_run m (ops1 ++ op :: ops3)%list) op' c = None.
Proof.
  intros Hm. revert e. induction ops as [|op ops IH] using rev_ind; intros e.
  { simpl. by rewrite Hm. }
  unfold price_run. rewrite foldl_app. simpl. rewrite price_do_lookup.
  fold (price_run m ops). destruct (op_rate (price_run m ops) op c) as [[a s]|] eqn:Eo.
  - intros [= <-]. exists ops, op, [], a. split_and!; [done..|].
    intros ops3 op' ops4 E. by destruct ops3.
  - intros (ops1 & op1 & ops2 & a & -> & Hr & Hp & Hl)%IH.
    exists ops1, op1, (ops2 ++ [op])%list, a. split_and!; [by rewrite <- (assoc_L (++)) | done | done |].
    intros ops3 op' ops4 E.
    destruct ops4 as [|o ops4 _] using rev_ind.
    + apply app_inj_tail in E as [-> ->]. done.
    + rewrite app_comm_cons, (assoc_L (++)) in E. apply app_inj_tail in E as [E _]. by eapply Hl.
Qed.

(** C20: A price is served only if it is the rate of the latest tick that
    priced its currency and that tick is not older than the staleness window:
    in every sequence of ticks and reads since the manager was built, with
    any outcome of the polls. *)
Theorem served_price_recent from_hex s m ops cur now v :
  from_settings from_hex s = Ok m ->
  (get_price (price_run m ops) cur now).2 = Ok v ->
  exists ops1 fetch n f stored p ops2 a,
    ops = (ops1 ++ OpTick fetch n f stored p :: ops2)%list /\
    tick_rates (price_run m ops1) fetch n !! to_uppercase cur = Some a /\ v = value a /\
    saturating_sub now stored <= max_price_staleness_seconds s /\
    forall ops3 fetch' n' f' stored' p' ops4,
      ops2 = (ops3 ++ OpTick fetch' n' f' stored' p' :: ops4)%list ->
      tick_rates (price_run m (ops1 ++ OpTick fetch n f stored p :: ops3)%list) fetch' n'
        !! to_uppercase cur = None.
Proof.
  intros Hm Hg.
  assert (Hs : store m = ∅ /\ settings m = s).
  { unfold from_settings in Hm. repeat case_match; simplify_eq. done. }
  destruct Hs as [Hst Hse]. unfold get_price, store_get in Hg.
  rewrite price_run_settings, Hse in Hg.
  destruct (store (price_run m ops) !! to_uppercase cur) as [e|] eqn:Ee; [|done].
  destruct (Z.leb_spec (saturating_sub now (as_of e)) (max_price_staleness_seconds s)); [|done].
  injection Hg as Hg. apply store_provenance in Ee as (ops1 & op & ops2 & a & -> & Hr & Hp & Hl); [|done].
  destruct op as [fetch n f stored p|]; [|done]. simpl in Hr.
  destruct (tick_rates _ fetch n !! to_uppercase cur) as [a'|] eqn:Ea; [|done]. simplify_eq.
  exists ops1, fetch, n, f, (as_of e), p, ops2, a. split_and!; [done | done | congruence | done |].
  intros ops3 fetch' n' f' stored' p' ops4 E. specialize (Hl _ _ _ E). simpl in Hl. by case_match.
Qed.

Definition demo_provider : ProviderConfig :=
  {| enabled := true; url := "https://api.example"; fallback_urls := []; api_key := None;
     token := None; only := None; except := None; trusted_nodes := [] |}.

Definition demo_price_settings : PriceSettings :=
  {| update_interval_seconds := 300; max_price_staleness_seconds := 1800;
     outlier_threshold_pct := pct5; provider_timeout_seconds := 10;
     provider_failure_threshold := 3; provider_failure_cooldown_seconds := 120;
     publish_to_nostr := true;
     providers := {[ "yadio"%string := demo_provider; "coingecko"%string := demo_provider ]} |}.

Definition demo_price_manager : PriceManager :=
  {| registry := [{| ep_id := CoinGecko; ep_health := health_new |};
                  {| ep_id := Yadio; ep_health := health_new |}];
     store := ∅; settings := demo_price_settings;
     warned_stale := ∅; warned_refused := ∅; warned_single_source := ∅ |}.

(** CoinGecko is down, Yadio quotes the dollar. *)
Definition demo_fetch (i : ProviderId) : PollOutcome :=
  match i with Yadio => Fetched [usd 60000] | _ => TimedOut end.

(** A tick, a later tick in which every poll fails, and a read. *)
Definition demo_ops : list price_op :=
  [OpTick demo_fetch 1000 1010 1010 1010; OpTick (fun _ => TimedOut) 1300 1310 1310 1310;
   OpRead "usd" 1400].

Lemma served_price_recent_witness :
  exists v ops1 fetch n f stored p ops2 a,
    (get_price (price_run demo_price_manager demo_ops) "USD" 2000).2 = Ok v /\
    demo_ops = (ops1 ++ OpTick fetch n f stored p :: ops2)%list /\
    tick_rates (price_run demo_price_manager ops1) fetch n !! to_uppercase "USD" = Some a /\
    v = value a /\ saturating_sub 2000 stored <= 1800.
Proof.
  destruct (get_price (price_run demo_price_manager demo_ops) "USD" 2000).2 as [v|] eqn:E;
    [|vm_compute in E; discriminate E].
  destruct (served_price_recent (fun _ => true) demo_price_settings demo_price_manager demo_ops
    "USD" 2000 v) as (ops1 & fetch & n & f & st & p & ops2 & a & H1 & H2 & H3 & H4 & _).
  - vm_compute. reflexivity.
  - exact E.
  - exists v, ops1, fetch, n, f, st, p, ops2, a.
    exact (conj eq_refl (conj H1 (conj H2 (conj H3 H4)))).
Defined.

(** ** The circuit breaker *)

Definition failed (o : PollOutcome) : Prop := match o with Fetched _ => False | _ => True end.

(** The breaker after a run of polls, each with the clock it was judged at. *)
Definition health_after (s : PriceSettings) (h : ProviderHealth) (polls : list (Z * PollOutcome)) :
    ProviderHealth := foldl (fun h to => note_outcome s to.1 h to.2) h polls.

Lemma note_failed s t h o :
  failed o -> note_outcome s t h o =
    health_failure h t (provider_failure_threshold s) (provider_failure_cooldown_seconds s)
      PROVIDER_COOLDOWN_CAP_SECONDS.
Proof. by destruct o. Qed.

Lemma health_failure_count h t thr base cap :
  consecutive_failures h + 1 <= u32_max ->
  consecutive_failures (health_failure h t thr base cap) = consecutive_failures h + 1.
Proof. intros. unfold health_failure. case_match; simpl; lia. Qed.

Lemma health_after_count s polls h :
  Forall (fun to => failed to.2) polls ->
  consecutive_failures h + Z.of_nat (length polls) <= u32_max ->
  consecutive_failures (health_after s h polls) =
    consecutive_failures h + Z.of_nat (length polls).
Proof.
  intros Hf. unfold health_after. revert h. induction Hf as [|[t o] polls Ho _ IH]; intros h Hn; simpl.
  - lia.
  - simpl in Hn. rewrite note_failed by done.
    rewrite IH; rewrite health_failure_count; lia.
Qed.

(** Below the threshold the breaker stays as it was. *)
Lemma health_after_closed s polls h :
  Forall (fun to => failed to.2) polls ->
  consecutive_failures h + Z.of_nat (length polls) < Z.max (provider_failure_threshold s) 1 ->
  Z.max (provider_failure_threshold s) 1 <= u32_max ->
  open_until (health_after s h polls) = open_until h.
Proof.
  intros Hf. unfold health_after. revert h. induction Hf as [|[t o] polls Ho _ IH]; intros h Hn Hu; simpl.
  - done.
  - simpl in Hn. rewrite note_failed by done. rewrite IH; [|rewrite health_failure_count; lia|done].
    unfold health_failure.
    destruct (Z.ltb_spec (Z.min (consecutive_failures h + 1) u32_max)
      (Z.max (provider_failure_threshold s) 1)); [done | lia].
Qed.

(** The cooldown of the source, its shift and saturation included, is a
    capped doubling. *)
Lemma cooldown_closed_form base over :
  0 <= base -> 0 <= over ->
  Z.min (Z.min (base * default u64_max (checked_shl_one (Z.min over 63))) u64_max)
    PROVIDER_COOLDOWN_CAP_SECONDS = Z.min (base * 2 ^ over) PROVIDER_COOLDOWN_CAP_SECONDS.
Proof.
  intros Hb Ho. unfold checked_shl_one, u64_max, PROVIDER_COOLDOWN_CAP_SECONDS.
  destruct (Z.ltb_spec (Z.min over 63) 64); [|lia]. simpl.
  rewrite Z.shiftl_1_l.
  destruct (Z.le_gt_cases over 63) as [H63|H63].
  - rewrite (Z.min_l over 63) by lia. lia.
  - rewrite (Z.min_r over 63) by lia.
    assert (2 ^ 63 <= 2 ^ over) by (apply Z.pow_le_mono_r; lia).
    destruct (Z.eq_dec base 0) as [->|]; [lia|].
    assert (2 ^ 63 <= base * 2 ^ 63) by nia. assert (2 ^ 63 <= base * 2 ^ over) by nia. lia.
Qed.

(** After a success, [n] consecutive failed polls leave a provider
    available below the threshold; from the threshold on it is skipped for
    exactly [min (base * 2^(n - threshold)) 1800] seconds after the last
    failure, so it is always polled again within half an hour. *)
Theorem breaker_backoff s h0 polls now o :
  Forall (fun to => failed to.2) polls -> failed o ->
  let n := Z.of_nat (length polls) + 1 in
  let thr := Z.max (provider_failure_threshold s) 1 in
  n <= u32_max -> thr <= u32_max -> 0 <= provider_failure_cooldown_seconds s ->
  0 <= now <= i64_max - PROVIDER_COOLDOWN_CAP_SECONDS ->
  let h := health_after s (health_success h0) (polls ++ [(now, o)])%list in
  forall t, is_available h t =
    if (n <? thr) then true
    else (now + Z.min (provider_failure_cooldown_seconds s * 2 ^ (n - thr))
                      PROVIDER_COOLDOWN_CAP_SECONDS <=? t).
Proof.
  intros Hf Ho n thr Hn Hthr Hb Hnow h t.
  assert (Hc : consecutive_failures (health_after s (health_success h0) polls) = n - 1).
  { rewrite health_after_count; [|done|]; simpl; lia. }
  assert (Eh : h = health_failure (health_after s (health_success h0) polls) now
    (provider_failure_threshold s) (provider_failure_cooldown_seconds s)
    PROVIDER_COOLDOWN_CAP_SECONDS).
  { unfold h, health_after. rewrite foldl_app. simpl. by apply note_failed. }
  rewrite Eh. unfold health_failure. rewrite Hc. rewrite (Z.min_l (n - 1 + 1)) by lia.
  fold thr. replace (n - 1 + 1) with n by lia. destruct (Z.ltb_spec n thr) as [Hlt|Hge].
  - unfold is_available. cbn [open_until].
    rewrite health_after_closed; [done | done | simpl; lia | lia].
  - rewrite cooldown_closed_form by lia. unfold is_available. cbn [open_until].
    set (cd := Z.min (provider_failure_cooldown_seconds s * 2 ^ (n - thr))
      PROVIDER_COOLDOWN_CAP_SECONDS).
    assert (0 <= cd <= PROVIDER_COOLDOWN_CAP_SECONDS).
    { unfold cd. split; [|lia]. apply Z.min_glb; [|done].
      apply Z.mul_nonneg_nonneg; [done|]. apply Z.pow_nonneg. lia. }
    unfold PROVIDER_COOLDOWN_CAP_SECONDS, i64_max in *.
    unfold i64_of_u64. destruct (Z.leb_spec cd i64_max); [|unfold i64_max in *; lia].
    unfold saturating_add. rewrite sat_i64_id; [done|]. unfold in_i64, i64_min, i64_max. lia.
Qed.

(** Four failures at the default threshold of three: 240 seconds. *)
Definition demo_failures : list (Z * PollOutcome) :=
  [(100, TimedOut); (400, FetchFailed (Http "down")); (700, TimedOut)].

Lemma breaker_backoff_witness :
  is_available (health_after demo_price_settings (health_success health_new)
    (demo_failures ++ [(1000, TimedOut)])) 1239 = (1240 <=? 1239).
Proof.
  apply (breaker_backoff demo_price_settings health_new demo_failures 1000 TimedOut).
  - repeat constructor.
  - exact I.
  - vm_compute. discriminate.
  - vm_compute. discriminate.
  - vm_compute. discriminate.
  - vm_compute. split; discriminate.
Defined.
