(* ===== verification/PriceQuote.v ===== *)
(** * Market quotes

    [get_market_quote] of [src/util.rs] turns a fiat amount into sats at the
    served price, in binary64 arithmetic.  This file bounds what rounding can
    do to the amount a trade is settled with. *)

From Stdlib Require Import ZArith QArith Qround Qabs Lqa Lia.
From stdpp Require Import gmap.
From S2P Require Import Prelude.
From S2P Require Import Float64.
From S2P Require Import BondTypes BondMath.
From S2P Require Import Model.
From S2P Require Import Price.
From S2P Require Import PriceManager.
From S2P Require Import PriceMath.
From S2P Require Import PriceSpec.

Open Scope Q_scope.

(** One rounding, in the form the bounds below add up. *)
Lemma rnd_within q h :
  0 <= q -> 2 ^ (-1074) <= h ->
  0 <= rnd q /\ - (q * (1 # 9007199254740992) + h) <= rnd q - q <=
    q * (1 # 9007199254740992) + h.
Proof.
  intros Hq Hh. pose proof (rnd_nonneg q Hq). pose proof (rnd_err q Hq) as He.
  apply Qabs_Qle_condition in He. change (2 ^ (-53)) with (1 # 9007199254740992) in He.
  split_and!; lra.
Qed.

(** The quotient in sats, before the premium. *)
Lemma sats_close f p X h :
  0 <= f -> 0 < p -> X == f / p * 100000000 -> 2 ^ (-1074) <= h -> h * 1000000000 <= X * (1 # 9007199254740992) ->
  X <= 2 ^ 63 ->
  exists s, f64_mul (f64_div (Fin f) (Fin p)) (f64_of_i64 100000000) = Fin s /\ 0 <= s /\ repr s /\
    - (X * (1 # 2251799813685248)) <= s - X <= X * (1 # 2251799813685248).
Proof.
  intros Hf Hp EX Hh HhX HX. pose proof (pow2_pos (-1074)).
  assert (Hbig : 4 * 2 ^ 63 <= 2 ^ 1023).
  { change 4 with (2 ^ 2). rewrite <- pow2_add. apply pow2_le. lia. }
  cbn [f64_div]. destruct (Qeq_bool p 0) eqn:Ez; [apply Qeq_bool_iff in Ez; exfalso; lra|].
  assert (Hq : 0 <= f / p) by (apply Qle_shift_div_l; lra).
  destruct (rnd_within (f / p) h Hq Hh) as [Hr0 Hr].
  rewrite (f64_of_Q_fin (f / p)) by lra.
  change (f64_of_i64 100000000) with (Fin 100000000). cbn [f64_mul].
  set (r := rnd (f / p)) in *. set (q := f / p) in *.
  destruct (rnd_within (r * 100000000) h ltac:(lra) Hh) as [Hs0 Hs].
  rewrite f64_of_Q_fin by lra.
  exists (rnd (r * 100000000)). split_and!; [done | done | apply repr_rnd | lra | lra].
Qed.

(** Taking the premium off. *)
Lemma premium_close s X h (premium : Z) :
  0 <= s -> repr s -> - (X * (1 # 2251799813685248)) <= s - X <= X * (1 # 2251799813685248) ->
  2 ^ (-1074) <= h -> h * 1000000000 <= X * (1 # 9007199254740992) -> h <= 1 # 9007199254740992 ->
  0 <= X -> X <= 2 ^ 63 -> (1 <= premium <= 100)%Z ->
  exists r, f64_sub (Fin s) (f64_mul (f64_div (f64_of_i64 premium) (f64_of_i64 100)) (Fin s)) = Fin r /\
    0 <= r /\
    - (X * (1 # 281474976710656)) <= r - X * (1 - inject_Z premium / 100) <= X * (1 # 281474976710656).
Proof.
  intros Hs0 Rs Hs Hh HhX Hh1 HX0 HX Hp. pose proof (pow2_pos (-1074)).
  assert (Hbig : 4 * 2 ^ 63 <= 2 ^ 1023).
  { change 4 with (2 ^ 2). rewrite <- pow2_add. apply pow2_le. lia. }
  rewrite f64_of_i64_fin by (unfold in_i64, i64_min, i64_max; lia).
  change (f64_of_i64 100) with (Fin 100). cbn [f64_div].
  change (Qeq_bool 100 0) with false. cbv iota.
  pose proof (rnd_integer premium ltac:(lia)) as Ep.
  assert (Hpq : 1 <= inject_Z premium <= 100).
  { change 1 with (inject_Z 1). change 100 with (inject_Z 100). rewrite <- !Zle_Qle. lia. }
  set (P := inject_Z premium) in *. generalize dependent (rnd P). intros d Ed.
  assert (Hk : 0 <= d / 100 <= 1).
  { split; [apply Qle_shift_div_l | apply Qle_shift_div_r]; lra. }
  destruct (rnd_within (d / 100) h ltac:(lra) Hh) as [Hk0 Hke].
  assert (Hk1 : rnd (d / 100) <= 1).
  { rewrite <- (rnd_integer 1) by lia. apply rnd_mono. tauto. }
  assert (H63 : 1 <= 2 ^ 63) by (change 1 with (2 ^ 0); apply pow2_le; lia).
  rewrite (f64_of_Q_fin (d / 100)) by lra. cbn [f64_mul].
  assert (Edp : d / 100 == P / 100) by (by rewrite Ed).
  set (k := rnd (d / 100)) in *.
  assert (Hks : 0 <= k * s <= s).
  { split; [by apply Qmult_le_0_compat|]. rewrite <- (Qmult_1_l s) at 2. by apply Qmult_le_compat_r. }
  destruct (rnd_within (k * s) h ltac:(lra) Hh) as [Ht0 Ht].
  assert (Hts : rnd (k * s) <= s) by (rewrite <- (rnd_repr s Rs) at 2; apply rnd_mono; tauto).
  rewrite (f64_of_Q_fin (k * s)) by lra. cbn [f64_sub].
  set (t := rnd (k * s)) in *.
  destruct (rnd_within (s - t) h ltac:(lra) Hh) as [Hr0 Hr].
  rewrite f64_of_Q_fin by lra.
  exists (rnd (s - t)). split; [done|]. split; [done|].
  assert (Hkp : - (2 # 9007199254740992) <= k - P / 100 <= 2 # 9007199254740992) by lra.
  assert (Hkx : - (X * (2 # 9007199254740992)) <= (k - P / 100) * X <= X * (2 # 9007199254740992)).
  { assert (0 <= (k - P / 100 + (2 # 9007199254740992)) * X) by (apply Qmult_le_0_compat; lra).
    assert (0 <= ((2 # 9007199254740992) - (k - P / 100)) * X) by (apply Qmult_le_0_compat; lra).
    split; lra. }
  assert (Hksx : - (X * (1 # 2251799813685248)) <= k * s - k * X <= X * (1 # 2251799813685248)).
  { assert (0 <= k * (s - X + X * (1 # 2251799813685248))) by (apply Qmult_le_0_compat; lra).
    assert (0 <= k * (X * (1 # 2251799813685248) - (s - X))) by (apply Qmult_le_0_compat; lra).
    assert (0 <= (1 - k) * (X * (1 # 2251799813685248))) by (apply Qmult_le_0_compat; lra).
    split; lra. }
  split; lra.
Qed.

Lemma trunc_close r y e :
  0 <= r -> - e <= r - y <= e -> r < 9223372036854775807 ->
  y - e - 1 <= inject_Z (f64_to_i64 (Fin r)) <= y + e.
Proof.
  intros Hr He Hmax. cbn [f64_to_i64]. rewrite (proj2 (Qle_bool_iff 0 r) Hr).
  pose proof (Qfloor_le r). pose proof (Qlt_floor r) as Hf. rewrite inject_Z_plus in Hf.
  change (inject_Z 1) with 1 in Hf.
  rewrite sat_i64_id; [split; lra|].
  pose proof (Qfloor_resp_le 0 r Hr) as H0. change (Qfloor 0) with 0%Z in H0.
  unfold in_i64, i64_min, i64_max. split; [lia|].
  assert (inject_Z (Qfloor r) < inject_Z 9223372036854775807) as Hl
    by (change (inject_Z 9223372036854775807) with 9223372036854775807; lra).
  rewrite <- Zlt_Qlt in Hl. lia.
Qed.

(** C24: A market quote at a served price [p] is the exact amount of sats,
    less the premium, up to one sat of truncation and one part in 2^48: the
    four roundings of the computation do not accumulate beyond that. *)
Theorem market_quote_accurate global now fiat code premium p :
  get_bitcoin_price global code now = Ok (Fin p) ->
  2 ^ (-100) <= p -> p <= 2 ^ 100 -> (0 < fiat <= 2 ^ 53)%Z -> (0 <= premium <= 100)%Z ->
  let exact := inject_Z fiat / p * 100000000 in
  exact <= 2 ^ 62 ->
  exists z, get_market_quote global now fiat code premium = Ok z /\
    exact * (1 - inject_Z premium / 100) - exact * (1 # 281474976710656) - 1 <= inject_Z z <=
    exact * (1 - inject_Z premium / 100) + exact * (1 # 281474976710656).
Proof.
  intros Hg Hp1 Hp2 Hf Hprem X HX. pose proof (pow2_pos (-100)).
  unfold get_market_quote, market_sats. rewrite Hg. cbn [f64_le].
  assert (Ele : Qle_bool p 0 = false) by (apply Qle_bool_false; lra). rewrite Ele.
  rewrite (f64_of_i64_fin fiat) by (unfold in_i64, i64_min, i64_max; lia).
  pose proof (rnd_integer fiat ltac:(lia)) as Ef. set (f := rnd (inject_Z fiat)) in *.
  assert (Hf1 : 1 <= inject_Z fiat) by (change 1 with (inject_Z 1); rewrite <- Zle_Qle; lia).
  assert (EX : X == f / p * 100000000) by (unfold X; rewrite Ef; reflexivity).
  assert (HXlo : 2 ^ (-100) <= X).
  { unfold X. assert (2 ^ (-100) <= inject_Z fiat / p).
    { apply Qle_shift_div_l; [lra|]. apply Qle_trans with (2 ^ (-100) * 2 ^ 100).
      - apply Qmult_le_l; lra.
      - rewrite <- pow2_add. exact Hf1. }
    lra. }
  assert (Hh1 : 2 ^ (-1074) * 1000000000 <= X * (1 # 9007199254740992)).
  { apply Qle_trans with (2 ^ (-1074) * 2 ^ 30); [apply Qmult_le_l; [apply pow2_pos | discriminate]|].
    apply Qle_trans with (2 ^ (-100) * 2 ^ (-53)).
    - rewrite <- !pow2_add. apply pow2_le. lia.
    - change (2 ^ (-53)) with (1 # 9007199254740992). apply Qmult_le_compat_r; [done | discriminate]. }
  assert (Hh2 : 2 ^ (-1074) <= 1 # 9007199254740992)
    by (change (1 # 9007199254740992) with (2 ^ (-53)); apply pow2_le; lia).
  assert (H63 : X <= 2 ^ 63) by (eapply Qle_trans; [exact HX | apply pow2_le; lia]).
  destruct (sats_close f p X (2 ^ (-1074))) as (s & Es & Hs0 & Rs & Hs);
    [lra | lra | done | apply Qle_refl | done | done |].
  rewrite Es. change (2 ^ 62) with 4611686018427387904 in HX.
  destruct (Z.eqb_spec premium 0) as [->|Hne]; cbn [negb].
  - eexists. split; [done|]. change (inject_Z 0 / 100) with (0 / 100).
    assert (E0 : X * (1 - 0 / 100) == X) by (unfold Qdiv; ring).
    rewrite E0. apply trunc_close; [done | lra | lra].
  - destruct (premium_close s X (2 ^ (-1074)) premium) as (r & Er & Hr0 & Hr);
      [done | done | done | apply Qle_refl | done | done | lra | done | lia |].
    rewrite Er. eexists. split; [done|].
    assert (Hpq : 0 <= inject_Z premium / 100).
    { apply Qle_shift_div_l; [reflexivity|]. rewrite Qmult_0_l. change 0 with (inject_Z 0).
      rewrite <- Zle_Qle. lia. }
    assert (0 <= X * (inject_Z premium / 100)) by (apply Qmult_le_0_compat; lra).
    apply trunc_close; [done | done | lra].
Qed.

(** A thousand dollars at the price of the sample tick, premium 3. *)
Lemma market_quote_accurate_witness :
  exists z, get_market_quote (Some (price_run demo_price_manager demo_ops)) 2000 1000 "USD" 3 = Ok z /\
    inject_Z 1000 / 60000 * 100000000 * (1 - inject_Z 3 / 100)
      - inject_Z 1000 / 60000 * 100000000 * (1 # 281474976710656) - 1 <= inject_Z z.
Proof.
  destruct (market_quote_accurate (Some (price_run demo_price_manager demo_ops)) 2000 1000 "USD" 3 60000)
    as (z & Hz & Hb & _).
  - vm_compute. reflexivity.
  - apply Qle_bool_iff. vm_compute. reflexivity.
  - apply Qle_bool_iff. vm_compute. reflexivity.
  - lia.
  - lia.
  - apply Qle_bool_iff. vm_compute. reflexivity.
  - exists z. exact (conj Hz Hb).
Defined.
