(* ===== verification/GateSpec.v ===== *)
(** * Theorems on the message gate

    The event loop handles events one at a time; between two of them the
    scheduler may replace the known keys and any handler or job may run.
    [play] is such a history, on a clock that does not go back.  The theorems
    say when a re-sent event can be accepted again, and that events that fail
    authentication leave no trace. *)

From stdpp Require Import gmap.
From S2P Require Import Prelude Float64 Config BondTypes Effects Model.
From S2P Require Import BondDb Messages Users Gate Demo.

Open Scope Z_scope.
Open Scope prog_scope.

(** The wall clock in whole seconds: after 1970 and never set back. *)
Class Clock (env : Env DB ext) : Prop := {
  clock_range : forall tr, FRESHNESS_SECS <= answer env Z Now tr < 2 ^ 63;
  clock_forward : forall l tr, answer env Z Now tr <= answer env Z Now (l ++ tr)
}.

Inductive op : Type :=
| Arrive (e : NostrEvent)
| Refresh (keys : list string)
| Meanwhile (p : M unit).

Record node : Type := mkNode {
  n_gate : option SpamGate;
  n_db : DB;
  n_trace : list (obs DB ext)
}.

(** What the loop did with one event, and the time it started on it. *)
Record entry : Type := mkEntry {
  e_event : NostrEvent;
  e_time : Z;
  e_out : option (Action * Message * UnwrappedMessage)
}.

Section Play.
Context `{Core} (env : Env DB ext) (pow pow_first_contact accepted_kind : Z).

Definition clock (n : node) : Z := answer env Z Now (n_trace n).

Definition arrive (e : NostrEvent) (n : node) : node * entry :=
  let '(r, db, tr) :=
    run env (accept_event e pow pow_first_contact accepted_kind (n_gate n)) (n_db n) (n_trace n) in
  (mkNode r.1 db tr, mkEntry e (clock n) r.2).

Definition step (o : op) (n : node) : node * list entry :=
  match o with
  | Arrive e => let '(n', x) := arrive e n in (n', [x])
  | Refresh keys => (mkNode (option_map (set_known keys) (n_gate n)) (n_db n) (n_trace n), [])
  | Meanwhile p =>
      let '(_, db, tr) := run env p (n_db n) (n_trace n) in (mkNode (n_gate n) db tr, [])
  end.

Fixpoint play (ops : list op) (n : node) : node * list entry :=
  match ops with
  | [] => (n, [])
  | o :: ops' =>
      let '(n1, l1) := step o n in
      let '(n2, l2) := play ops' n1 in (n2, l1 ++ l2)%list
  end.

(** An event that passes the checks that precede the gate. *)
Definition authentic (e : NostrEvent) : bool :=
  check_pow e pow && (ne_kind e =? accepted_kind) && event_verify e.

(** ** One event *)

Lemma accept_forged e gate db tr :
  authentic e = false ->
  run env (accept_event e pow pow_first_contact accepted_kind gate) db tr = ((gate, None), db, tr).
Proof.
  unfold authentic, accept_event. intros Ha.
  destruct (check_pow e pow); [|done]. destruct (ne_kind e =? accepted_kind); [|done].
  by destruct (event_verify e).
Qed.

Lemma accept_gate e g db tr :
  authentic e = true ->
  (run env (accept_event e pow pow_first_contact accepted_kind (Some g)) db tr).1.1.1 =
  Some (gate_admits g e pow_first_contact (answer env Z Now tr)).1.
Proof.
  unfold authentic, accept_event. rewrite !andb_true_iff. intros [[-> ->] ->].
  cbn [negb bind call run]. destruct (gate_admits g e _ _) as [g' [|]]; [|done].
  cbn [negb]. rewrite run_bind. by destruct (run env _ _ _) as [[? ?] ?].
Qed.

Lemma accepted_is_fresh `{Clock env} e db tr a m u :
  run_val env (accept_unwrapped e) db tr = Some (a, m, u) ->
  answer env Z Now tr - FRESHNESS_SECS <= u_created_at u.
Proof.
  unfold accept_unwrapped, run_val. destruct (unwrap_incoming e) as [[v|]|]; [|done..].
  cbn [bind call run]. pose proof (clock_range tr) as Hc.
  rewrite Z.mod_small by (unfold FRESHNESS_SECS in *; lia).
  destruct (Z.ltb_spec (u_created_at v) (answer env Z Now tr - FRESHNESS_SECS)); [done|].
  case_match; [done|]. rewrite run_bind.
  destruct (run env (check_trade_index v (u_message v)) _ _) as [[[|] ?] ?]; [|done].
  case_match; [done|]. cbn. case_match; [|done]. intros [= <- <- <-]. done.
Qed.

Lemma accept_out `{Clock env} e g db tr a m u :
  (run env (accept_event e pow pow_first_contact accepted_kind (Some g)) db tr).1.1.2 =
    Some (a, m, u) ->
  (gate_admits g e pow_first_contact (answer env Z Now tr)).2 = true /\
  answer env Z Now tr - FRESHNESS_SECS <= u_created_at u.
Proof.
  unfold accept_event. repeat (case_match; [done|]). cbn [bind call run].
  destruct (gate_admits g e _ _) as [g' [|]]; [|done]. cbn [negb]. rewrite run_bind.
  intros Hr. split; [done|].
  pose proof (clock_forward [@ObsExt DB ext Z Now (answer env Z Now tr)] tr) as Hf.
  assert (Ha := accepted_is_fresh e db (@ObsExt DB ext Z Now (answer env Z Now tr) :: tr) a m u).
  unfold run_val in Ha. destruct (run env (accept_unwrapped e) _ _) as [[? ?] ?].
  simpl in *. specialize (Ha Hr). lia.
Qed.

(** ** The replay guard over a history *)

(** The guard still knows the event [id], seen at [t] or later, or more than
    the window has passed since [t]. *)
Definition remembers (id : string) (t : Z) (n : node) : Prop :=
  exists g r, n_gate n = Some g /\ replay g = Held r /\ window_secs r = REPLAY_WINDOW_SECS /\
    (t + REPLAY_WINDOW_SECS < clock n \/ exists s, seen r !! id = Some s /\ t <= s).

Definition guarded (n : node) : Prop :=
  exists g r, n_gate n = Some g /\ replay g = Held r /\ window_secs r = REPLAY_WINDOW_SECS.

Lemma record_remembers r id id' now t :
  window_secs r = REPLAY_WINDOW_SECS -> t <= now ->
  (exists s, seen r !! id = Some s /\ t <= s) \/ id' = id ->
  t + REPLAY_WINDOW_SECS < now \/
  exists s, seen (check_and_record r id' now).1 !! id = Some s /\ t <= s.
Proof.
  intros Hw Ht Hs. cbn. destruct (decide (id' = id)) as [->|Hne].
  { right. exists now. by rewrite lookup_insert_eq. }
  destruct Hs as [(s & Hs & Hts)|]; [|done].
  destruct (decide (now - window_secs r <= s)) as [Hle|]; [|left; lia].
  right. exists s. split; [|done]. rewrite lookup_insert_ne by done.
  by apply map_lookup_filter_Some.
Qed.

Lemma fresh_sighting r id now t :
  window_secs r = REPLAY_WINDOW_SECS ->
  (exists s, seen r !! id = Some s /\ t <= s) ->
  (check_and_record r id now).2 = false -> t + REPLAY_WINDOW_SECS < now.
Proof.
  intros Hw (s & Hs & Hts). cbn.
  destruct (decide (now - window_secs r <= s)) as [Hle|]; [|lia].
  assert (filter (fun kv : string * Z => now - window_secs r <= kv.2) (seen r) !! id = Some s)
    as -> by by apply map_lookup_filter_Some.
  done.
Qed.

Lemma gate_admits_held g e now r :
  replay g = Held r ->
  let '(g', ok) := gate_admits g e pow_first_contact now in
  replay g' = Held (check_and_record r (ne_id e) now).1 /\
  (ok = true -> (check_and_record r (ne_id e) now).2 = false).
Proof.
  intros Hr. unfold gate_admits, is_replay. rewrite Hr.
  destruct (check_and_record r (ne_id e) now) as [r' b]. cbn [replay fst snd].
  split; [done|]. by destruct b.
Qed.

(** ** A step *)

Context `{Clock env}.

Lemma run_clock {A} (p : M A) db tr :
  answer env Z Now tr <= answer env Z Now (run_trace env p db tr).
Proof. destruct (run_trace_suffix env p db tr) as [l ->]. apply clock_forward. Qed.

Lemma arrive_time e n : e_time (arrive e n).2 = clock n.
Proof. unfold arrive. by destruct (run env _ _ _) as [[? ?] ?]. Qed.

Lemma step_clock o n : clock n <= clock (step o n).1.
Proof.
  destruct o as [e|keys|p]; cbn [step].
  - unfold arrive, clock.
    pose proof (run_clock (accept_event e pow pow_first_contact accepted_kind (n_gate n))
                  (n_db n) (n_trace n)) as Hc.
    unfold run_trace in Hc. by destruct (run env _ _ _) as [[? ?] ?].
  - done.
  - unfold clock. pose proof (run_clock p (n_db n) (n_trace n)) as Hc.
    unfold run_trace in Hc. by destruct (run env _ _ _) as [[? ?] ?].
Qed.

Lemma arrive_gate e n g :
  n_gate n = Some g ->
  n_gate (arrive e n).1 =
  Some (if authentic e then (gate_admits g e pow_first_contact (clock n)).1 else g).
Proof.
  intros Hg. unfold arrive. rewrite Hg. destruct (authentic e) eqn:Ha.
  - pose proof (accept_gate e g (n_db n) (n_trace n) Ha) as Hr.
    by destruct (run env _ _ _) as [[? ?] ?].
  - by rewrite accept_forged.
Qed.

Lemma gate_step_remembers o n id t : t <= clock n -> remembers id t n -> remembers id t (step o n).1.
Proof.
  intros Ht (g & r & Hg & Hr & Hw & Hs). pose proof (step_clock o n) as Hc.
  destruct o as [e|keys|p].
  - cbn [step] in *. pose proof (arrive_gate e n g Hg) as Hn.
    destruct (arrive e n) as [n' x]. cbn [fst] in *.
    destruct (authentic e).
    + destruct (gate_admits g e pow_first_contact (clock n)) as [g' ok] eqn:E.
      pose proof (gate_admits_held g e (clock n) r Hr) as Hh. rewrite E in Hh.
      exists g', (check_and_record r (ne_id e) (clock n)).1. repeat split; [done|apply Hh|done|].
      destruct Hs as [?|Hs]; [left; lia|].
      destruct (record_remembers r id (ne_id e) (clock n) t) as [?|?]; auto with lia.
    + exists g, r. repeat split; try done. destruct Hs; [left; lia|by right].
  - cbn [step fst] in *. rewrite Hg. exists (set_known keys g), r. repeat split; try done.
  - cbn [step] in *. destruct (run env p _ _) as [[? db] tr]. cbn [fst] in *.
    exists g, r. repeat split; try done. destruct Hs; [left; lia|by right].
Qed.

Lemma step_guarded o n : guarded n -> guarded (step o n).1.
Proof.
  intros (g & r & Hg & Hr & Hw). destruct o as [e|keys|p]; cbn [step].
  - pose proof (arrive_gate e n g Hg) as Hn. destruct (arrive e n) as [n' x]. cbn [fst] in *.
    destruct (authentic e); [|by exists g, r].
    pose proof (gate_admits_held g e (clock n) r Hr) as Hh.
    destruct (gate_admits g e pow_first_contact (clock n)) as [g' ok].
    exists g', (check_and_record r (ne_id e) (clock n)).1. by destruct Hh.
  - cbn [fst]. rewrite Hg. by exists (set_known keys g), r.
  - destruct (run env p _ _) as [[? db] tr]. by exists g, r.
Qed.

Lemma arrive_remembers e n :
  guarded n -> authentic e = true -> remembers (ne_id e) (clock n) (arrive e n).1.
Proof.
  intros (g & r & Hg & Hr & Hw) Ha. pose proof (arrive_gate e n g Hg) as Hn. rewrite Ha in Hn.
  pose proof (gate_admits_held g e (clock n) r Hr) as Hh.
  pose proof (step_clock (Arrive e) n) as Hc. cbn [step] in Hc.
  destruct (gate_admits g e pow_first_contact (clock n)) as [g' ok].
  destruct (arrive e n) as [n' x]. cbn [fst] in *.
  exists g', (check_and_record r (ne_id e) (clock n)).1. repeat split; [done|apply Hh|done|].
  right. exists (clock n). cbn. by rewrite lookup_insert_eq.
Qed.

Lemma arrive_late e n t a m u :
  remembers (ne_id e) t n -> e_out (arrive e n).2 = Some (a, m, u) ->
  t + REPLAY_WINDOW_SECS - FRESHNESS_SECS < u_created_at u.
Proof.
  intros (g & r & Hg & Hr & Hw & Hs) Hout. unfold arrive in Hout. rewrite Hg in Hout.
  pose proof (accept_out e g (n_db n) (n_trace n) a m u) as Ho.
  destruct (run env _ _ _) as [[res db] tr]. cbn [fst snd e_out] in *.
  destruct (Ho Hout) as [Hadm Hfresh]. fold (clock n) in *.
  pose proof (gate_admits_held g e (clock n) r Hr) as Hh.
  destruct (gate_admits g e pow_first_contact (clock n)) as [g' ok]. cbn [snd] in Hadm.
  destruct Hh as [_ Hh]. destruct Hs as [Hlate|Hs]; [lia|].
  pose proof (fresh_sighting r (ne_id e) (clock n) t Hw Hs (Hh Hadm)). lia.
Qed.

(** ** Histories *)

Lemma play_late ops : forall n id t j y a m u,
  t <= clock n -> remembers id t n ->
  (play ops n).2 !! j = Some y -> ne_id (e_event y) = id -> e_out y = Some (a, m, u) ->
  t + REPLAY_WINDOW_SECS - FRESHNESS_SECS < u_created_at u.
Proof.
  induction ops as [|o ops IH]; intros n id t j y a m u Ht Hrem Hj Hid Hout; [done|].
  cbn [play] in Hj. pose proof (gate_step_remembers o n id t Ht Hrem) as Hrem'.
  pose proof (step_clock o n) as Hc.
  destruct (step o n) as [n1 l1] eqn:Es. cbn [fst] in *.
  specialize (IH n1 id t). destruct (play ops n1) as [n2 l2]. cbn [snd] in *.
  apply lookup_app_Some in Hj as [Hj|[_ Hj]]; [|by eapply IH; eauto with lia].
  destruct o as [e|keys|p]; cbn [step] in Es.
  - destruct (arrive e n) as [n' x] eqn:Ea. injection Es as <- <-.
    apply list_lookup_singleton_Some in Hj as [_ <-].
    assert (e_event x = e) as He.
    { unfold arrive in Ea. destruct (run env _ _ _) as [[? ?] ?]. by injection Ea as _ <-. }
    apply (arrive_late e n t a m u); [by rewrite <- He, Hid|by rewrite Ea].
  - injection Es as _ <-. done.
  - destruct (run env p _ _) as [[? ?] ?]. injection Es as _ <-. done.
Qed.

Lemma play_replay ops : forall n i j x y a m u,
  guarded n -> (i < j)%nat ->
  (play ops n).2 !! i = Some x -> authentic (e_event x) = true ->
  (play ops n).2 !! j = Some y -> ne_id (e_event y) = ne_id (e_event x) ->
  e_out y = Some (a, m, u) ->
  e_time x + REPLAY_WINDOW_SECS - FRESHNESS_SECS < u_created_at u.
Proof.
  induction ops as [|o ops IH]; intros n i j x y a m u Hn Hij Hi Ha Hj Hid Hout; [done|].
  cbn [play] in Hi, Hj. pose proof (step_guarded o n Hn) as Hn1.
  pose proof (step_clock o n) as Hc.
  destruct (step o n) as [n1 l1] eqn:Es. cbn [fst] in *.
  specialize (IH n1). pose proof (play_late ops n1) as Hlate.
  destruct (play ops n1) as [n2 l2]. cbn [snd] in *.
  destruct o as [e|keys|p]; cbn [step] in Es.
  - destruct (arrive e n) as [n' x'] eqn:Ea. injection Es as <- <-.
    assert (e_event x' = e /\ e_time x' = clock n) as [He Ht].
    { unfold arrive in Ea. destruct (run env _ _ _) as [[? ?] ?]. by injection Ea as _ <-. }
    destruct j as [|j]; [lia|]. simpl in Hj. destruct i as [|i]; simpl in Hi.
    + injection Hi as <-. rewrite Ht. rewrite He in *.
      apply (Hlate (ne_id e) (clock n) j y a m u); try done.
      pose proof (arrive_remembers e n Hn Ha) as Hr. by rewrite Ea in Hr.
    + apply (IH i j x y a m u); auto with lia.
  - injection Es as <- <-. by apply (IH i j x y a m u).
  - destruct (run env p _ _) as [[? ?] ?]. injection Es as <- <-. by apply (IH i j x y a m u).
Qed.
End Play.

Section Theorems.
Context `{Core} (env : Env DB ext) (pow pow_first_contact accepted_kind : Z).

(** C25: The replay guard and the freshness window together: once an event has
    reached the guard, a copy with the same id is accepted later only if its
    message is dated more than fifty seconds after that moment.  So no message
    dated up to fifty seconds ahead of its arrival is acted on twice, whatever
    else arrives, whoever becomes known and whatever runs in between. *)
Theorem replay_needs_postdated_message `{Clock env} db tr ops i j x y a m u :
  let log := (play env pow pow_first_contact accepted_kind ops
                (mkNode (Some (new_gate REPLAY_WINDOW_SECS)) db tr)).2 in
  log !! i = Some x -> log !! j = Some y -> (i < j)%nat ->
  authentic pow accepted_kind (e_event x) = true ->
  ne_id (e_event y) = ne_id (e_event x) -> e_out y = Some (a, m, u) ->
  e_time x + (REPLAY_WINDOW_SECS - FRESHNESS_SECS) < u_created_at u.
Proof.
  intros log Hi Hj Hij Ha Hid Hout. rewrite Z.add_sub_assoc.
  eapply play_replay; eauto. by eexists _, _.
Qed.

(** An operation that delivers an event failing proof of work, kind or
    signature. *)
Definition forged (o : op) : bool :=
  match o with Arrive e => negb (authentic pow accepted_kind e) | _ => false end.

(** C26: Forged events are harmless: whoever injects events that fail the
    checks before the gate, in any number and at any point, changes neither
    the state of the node (gate, database, outgoing messages) nor what
    happens to any genuine event, so no forged copy can get one dropped. *)
Theorem forged_events_harmless ops n :
  let all := play env pow pow_first_contact accepted_kind ops n in
  let genuine := play env pow pow_first_contact accepted_kind
                   (List.filter (fun o => negb (forged o)) ops) n in
  genuine = (all.1, List.filter (fun x => authentic pow accepted_kind (e_event x)) all.2).
Proof.
  revert n. induction ops as [|o ops IH]; intros n; [done|]. cbn [play List.filter].
  destruct (forged o) eqn:Hf.
  - destruct o as [e| |]; try done. cbn [forged] in Hf. apply negb_true_iff in Hf.
    cbn [negb step]. unfold arrive. rewrite accept_forged by done. cbn [fst snd].
    specialize (IH n). destruct n as [g db tr]. cbn [n_gate n_db n_trace] in *.
    destruct (play env _ _ _ ops _) as [n2 l2]. cbn [fst snd app List.filter e_event] in *.
    by rewrite Hf.
  - cbn [negb play]. destruct (step env pow pow_first_contact accepted_kind o n) as [n1 l1] eqn:Es.
    specialize (IH n1).
    destruct (play env _ _ _ ops n1) as [n2 l2], (play env _ _ _ (List.filter _ ops) n1) as [n3 l3].
    cbn [fst snd] in *. injection IH as -> ->. rewrite List.filter_app. do 2 f_equal.
    destruct o as [e|keys|p]; cbn [step forged] in *.
    + apply negb_false_iff in Hf. unfold arrive in Es.
      destruct (run env _ _ _) as [[? ?] ?]. injection Es as _ <-. cbn. by rewrite Hf.
    + by injection Es as _ <-.
    + destruct (run env p _ _) as [[? ?] ?]. by injection Es as _ <-.
Qed.
End Theorems.

(** ** A history

    The clock starts at 1000 and advances ten seconds with every interaction,
    up to a bound. *)

Definition ticking_answer (R : Type) (e : ext R) (tr : list (obs DB ext)) : R :=
  match e in ext R' return R' -> R' with
  | Now => fun _ => 1000 + Z.min (10 * Z.of_nat (length tr)) 100000
  | _ => fun d => d
  end (demo_answer 0 R e tr).

Definition ticking_env : Env DB ext := mkEnv (fun _ => None) ticking_answer.

#[export] Instance ticking_clock : Clock ticking_env.
Proof.
  split; unfold FRESHNESS_SECS; cbn [answer ticking_env ticking_answer]; intros.
  - lia.
  - rewrite length_app. lia.
Qed.

Definition demo_event (author content : string) (created_at : Z) (tags : list (list string)) :
    NostrEvent :=
  let e := mkNostrEvent "id" author created_at 14 tags content "" in
  mkNostrEvent "id" author created_at 14 tags content (demo_sig e).

(** Six readings of the clock. *)
Definition wait_a_minute : M unit := for_each [1; 2; 3; 4; 5; 6] (fun _ => ask Now ;;; Ret tt).

Definition resent (created_at : Z) : list op :=
  let e := demo_event "trader" "orders" created_at [] in
  [Refresh ["trader"]; Arrive e; Arrive e; Meanwhile wait_a_minute; Arrive e].

Definition resent_log (created_at : Z) : list entry :=
  (play ticking_env 0 8 14 (resent created_at)
     (mkNode (Some (new_gate REPLAY_WINDOW_SECS)) (mkDB [] [] [] []) [])).2.

(** The comment on [REPLAY_WINDOW_SECS] says that a duplicate can never slip
    past the guard while the original is still acceptable.  An event dated 95
    seconds ahead does: it is accepted, refused as a replay, and accepted
    again once the guard has forgotten it; one dated when it is sent is
    accepted once. *)
Theorem postdated_event_accepted_twice :
  map (fun x => (e_time x, is_some (e_out x))) (resent_log 1095) =
    [(1000, true); (1020, false); (1090, true)] /\
  map (fun x => (e_time x, is_some (e_out x))) (resent_log 1010) =
    [(1000, true); (1020, false); (1090, false)].
Proof. vm_compute. done. Qed.

(** The third delivery of the postdated event. *)
Lemma replay_needs_postdated_message_witness : 1000 + (60 - 10) < 1095.
Proof.
  destruct (resent_log 1095 !! 0%nat) as [x|] eqn:Hx; [|vm_compute in Hx; done].
  destruct (resent_log 1095 !! 2%nat) as [y|] eqn:Hy; [|vm_compute in Hy; done].
  destruct (e_out y) as [[[a m] u]|] eqn:Ho; [|vm_compute in Hy; injection Hy as <-; done].
  pose proof (replay_needs_postdated_message ticking_env 0 8 14 (mkDB [] [] [] []) [] (resent 1095)
    0 2 x y a m u Hx Hy ltac:(lia)) as Hlate.
  vm_compute in Hx, Hy. injection Hx as <-. injection Hy as <-.
  cbn in Ho. injection Ho as <- <- <-. by apply Hlate.
Defined.
