(* ===== verification/TradeIndex.v ===== *)
(** * Trade indices

    Each user has a counter, the index of the last trade key they used; a
    message that creates or takes an order must exceed it.  The check is in
    [accept_event], the update in the handlers; this file proves what a whole
    turn of the event loop does to the counters. *)

From Stdlib Require Import QArith_base.
From S2P Require Import Prelude Float64 Config BondTypes BondMath Effects Model.
From S2P Require Import Lightning BondDb BondRelease OrderDb BondLock Messages Users NewOrder Take.
From S2P Require Import BondSlash BondPayout OrderPayout Disputes TradeFlow Release CancelOrder AdminOrder.
From S2P Require Import Ratings Sessions Gate Cashu CashuEscrow EventLoop Demo CashuDemo Walk.

Open Scope Z_scope.
Open Scope prog_scope.

(** ** Counters *)

(** The counter of [k], when [k] is registered. *)
Definition index_of (k : string) (db : DB) : option Z :=
  option_map last_trade_index (select_one (has_pubkey k) (users db)).


(** A statement that keeps the counters of the registered users. *)
Definition keeps_indices (R : Type) (stmt : DB -> DB * R) : Prop :=
  forall k i db, index_of k db = Some i -> index_of k (stmt db).1 = Some i.


Lemma same_users_index k (db db' : DB) : users db' = users db -> index_of k db' = index_of k db.
Proof. unfold index_of. by intros ->. Qed.


(** ** The handlers *)


Section Handlers.
Context `{Lib} `{Core} (settings : Settings).






End Handlers.

(** ** The check *)

Section Check.
Context `{Core} `{!MessageLaws} (env : Env DB ext).

Lemma keeps_same_users R (stmt : DB -> DB * R) :
  (forall db, users (stmt db).1 = users db) -> keeps_indices R stmt.
Proof. intros Hs k i db. by rewrite (same_users_index k _ _ (Hs db)). Qed.




End Check.

(** ** The other handlers *)



Lemma walk_keeps fuel o : sql_all keeps_indices (walk_to_root fuel o).
Proof.
  revert o. induction fuel as [|fuel IH]; intros o; cbn [walk_to_root]; [done|].
  destruct (o_range_parent_id o); [|done]. apply prog_all_try; [sql_walk ltac:(by apply keeps_same_users)|].
  intros [p|]; [apply IH|done].
Qed.
#[local] Hint Resolve walk_keeps : sql_walk.





Section Turn.
Context `{Lib} `{Core} `{PayoutLib} `{Cdk} `{!MessageLaws}.
Context (settings : Settings) (node_pubkey : string).





End Turn.

(** ** Runs *)

Definition demo_key : string := "aaaaaaaaaaaaaaaabbbbbbbbbbbbbbbbccccccccccccccccdddddddddddddddd".

(** A user whose last trade used index 9. *)
Definition demo_users : DB :=
  mkDB [] [] [mkUser demo_key 0 None 0 0 0 9 0 (Fin 0%Q) 0 0 0 0] [].

(** A new order of that user, signed with the trade key ["trade"], with index
    [i]. *)
Definition indexed_order (i : nat) : NostrEvent :=
  let tags := [["identity"; demo_key];
               ["index"; String.string_of_list_ascii (replicate i "x"%char)];
               []; []; []; []; []; []] in
  let e := mkNostrEvent "id" "trade" 1000 14 tags "new-order" "" in
  mkNostrEvent "id" "trade" 1000 14 tags "new-order" (demo_sig e).

Definition demo_dispatch := handle_message_action demo_settings "node".

Definition indexed_turn (i : nat) : M (option SpamGate) :=
  on_event demo_dispatch 0 8 14 (indexed_order i) None.

Definition demo_turn (i : nat) : M unit := bind (indexed_turn i) (fun _ => Ret tt).

Definition index_after (l : list nat) : option Z :=
  index_of demo_key (script (demo_env 1000) (map demo_turn l) (demo_users, [])).1.

(** The documents call the index monotonic, and [last_trade_index] says that
    the database never returns 0.  An order with index 0 is not checked and
    resets the counter, after which an index already used passes the check
    that refuses it otherwise. *)
Theorem index_zero_resets_counter :
  index_after [10]%nat = Some 10 /\ index_after [5]%nat = Some 9 /\
  index_after [0]%nat = Some 0 /\ index_after [0; 5]%nat = Some 5.
Proof. vm_compute. done. Qed.

